(* ===== verification/_CoqProject ===== *)
-Q . S2P
Prelude.v
Errors.v
Runtime.v
Sha256.v
Store.v
StoreSpec.v
SessionMachine.v
Logger.v
ConsoleLogger.v
RateLimiter.v
World.v
Memory.v
MemoryContract.v
Postgres.v
PostgresContract.v
Schema.v
Security.v
Token.v
Logic.v
Auth.v
Session.v
Engine.v
Sample.v
RateLimiterTheorems.v
LimiterReference.v
LoggerTheorems.v
JsonRoundTrip.v
EngineTheorems.v
Rotation.v
AuthLogic.v
LoginLogic.v
Fixtures.v
PgFixtures.v
TokenTheorems.v
RefreshTheorems.v
LoginTheorems.v
AccountTheorems.v
SessionTheorems.v
EmailTheorems.v
SessionSafety.v
Interleaving.v
Mutex.v
MutexMethods.v
MutexTheorems.v
Concurrency.v
Footprint.v
Hygiene.v
HygieneTheorems.v
ViewFootprint.v
Integrity.v
Anchors.v
Isolation.v
AuditTrail.v
Lockout.v
Races.v
Termination.v
ReadCommitted.v
ReadCommittedTheorems.v
ReadCommittedRace.v
ReadCommittedSerial.v
ReadCommittedAtomic.v
ReadCommittedStages.v
ReadCommittedLinear.v
StoreTheorems.v
Smoke.v
