(* ===== verification/Prelude.v ===== *)
(** * A verified model of cryden v2, an embeddable authentication engine

    ** The program

    cryden is a Go library: accounts, password logins, refresh-token rotation
    with theft detection, access tokens (JWT), lockout, rate limiting and
    verified changes of e-mail addresses, over exchangeable stores. This
    development translates all of its packages into executable definitions and
    proves what they are meant to guarantee.

    ** The model, file by file

    Foundations. Prelude.v: machine integers ([int64]), atomic state actions
    ([St]), programs ([Prog], a tree of atomic actions; [run] executes one
    alone, Interleaving.v interleaves several) and their weakest preconditions.
    Errors.v: the sentinel errors of all errors.go files as one inductive type,
    [result] for the (value, error) pairs of Go. Runtime.v: the outside world.
    [Env] answers the n-th external event of a run (clock, random bytes, UUIDs,
    the iteration order of maps, faults of the database, the e-mail service);
    [Amb] counts events and carries the time, which never runs backwards. Every
    theorem quantifies over every [Env]. Sha256.v: hexadecimal text and SHA-256.

    Components, each the translation of the package it names:
    - Store.v: store/interfaces.go, the domain records and the four interfaces
      as records of operations over a heap [S];
    - Memory.v: store/memory, a method is one atomic action; Mutex.v: its methods
      and the limiter's a second time, statement by statement between Lock and
      Unlock, as goroutines of a process with a mutex per store;
    - Postgres.v: store/postgres and the schema of migration 0001, a method is
      the SQL statement it sends, run on four tables with their keys; a fault of
      the connection can strike before or after the statement took effect;
      Schema.v: store/postgres/migrations, the two scripts on a catalog;
    - ReadCommitted.v: the calls of store/postgres/session_store.go a second time,
      as transactions whose statements overlap with those of other connections, on
      a server that does what PostgreSQL documents of READ COMMITTED (what an
      UPDATE finds, row locks, WHERE evaluated again, waits for keys, aborts), as a
      step relation and as an executable scheduler of it; ReadCommittedAtomic.v: the
      server it is proved to behave like, where a call takes effect at one moment;
    - Logger.v, ConsoleLogger.v: logger, with the JSON encoding of a line;
    - RateLimiter.v: security/ratelimiter.go; Security.v: security/hasher.go and
      idgen.go; Token.v: token; Auth.v: auth; Session.v: session;
    - World.v: what the goroutines of a process share, the heap of the stores,
      the limiter's counters, the ambient state, the log and the outgoing mail;
    - Engine.v: config.go, engine.go and the public functions of cryden.go
      ([cryden_SignUp] and so on, as the root package is named cryden);
    - Smoke.v: cmd/smoketest.

    A handler is a [Prog] over the [World], one action per call that another
    goroutine cannot interrupt. Code written inline several times is a definition
    of its own (record_or_log, is_locked, count_failure, open_session).

    Specifications. StoreSpec.v: the contract behind the store interfaces. A
    [View] (users, sessions, tokens, audit trail) is the abstract storage, a
    class per interface says how each operation changes it and what its result
    tells; an operation that fails has had its effect or not. [strict] separates
    the storages that enforce primary keys and revoke a session once, [reliable]
    those that fail only for missing records. SessionMachine.v: the life of
    sessions as a step relation with its invariants. ReadCommittedAtomic.v: the
    atomic server and the histories that its callers see.

    Reasoning. Logic.v: rules for the actions of a handler. Rotation.v,
    AuthLogic.v, LoginLogic.v: for each handler an inductive specification with a
    constructor per outcome, proved once by walking through the handler.
    Sample.v, Fixtures.v, PgFixtures.v: a concrete environment, engines over both
    kinds of stores and worlds they reach, on which every theorem is exercised.

    ** What is proved

    - Both families of stores refine the contract: MemoryContract.v,
      PostgresContract.v, stated in StoreTheorems.v, with the all-or-nothing
      rotation transaction and the order of the audit trail.
    - RefreshTheorems.v: what [Rotate] and [RefreshToken] do with a live, a
      reused and an unknown token. SessionSafety.v: in every state that any
      sequence of the twelve requests reaches, a family has at most one live
      session, revocation is final, a dead family stays dead.
    - Interleaving.v, Concurrency.v: at most one live session per family and
      final revocation also for interleaved requests, over a strict storage, by
      rely and guarantee with ghost histories of the IDs drawn and used; the
      in-memory stores lose it ([memory_rotation_race]).
    - Isolation.v: interleaved requests that do not concern an account leave
      everything that the storage holds of it as it is. Integrity.v: over a strict
      storage they keep addresses and token hashes unique and leave no reference to a
      user who is gone, thanks to the keys, whatever the handlers check.
    - Lockout.v: however wrong-password logins interleave, over a storage without
      faults no failed attempt is lost and the lock that is due is set; but the lock is
      checked on a record read before, so requests that overlap can get past it
      ([lockout_race], a schedule). Races.v, schedules too: a login that overlaps with a
      change of password, or over the in-memory stores with a deletion, can outlive it,
      overlapping confirmations can use a token twice, and overlapping sign-ups can share
      an address where the storage lets them.
    - LoginTheorems.v, AccountTheorems.v, SessionTheorems.v, EmailTheorems.v:
      the functional behaviour of the handlers on every branch, lockout after
      repeated failures, ownership of sessions, single use of tokens.
    - SessionSafety.v, [reused_token_ends_family]: the story of a stolen refresh
      token, from its first exchange to the end of the family, with any requests
      in between, served one after the other.
    - Anchors.v: requests served one after the other leave no live session without an
      account ([live_sessions_have_accounts]) and give an address to one account
      ([one_account_per_address]), over the in-memory stores, where only the checks of
      the handlers see to it, and over the Postgres stores with whatever faults.
    - AuditTrail.v: for every type of event and every address of a caller the audit
      trail, with the failures to record that were logged, agrees with the answers, for
      interleaved requests over any storage ([answers_accounted_for]).
    - ReadCommittedTheorems.v: overlapping transactions of the session store keep
      to the session machine. ReadCommittedRace.v: a revocation reaches exactly what
      was committed when it began, and so can miss the successor of a concurrent
      rotation. ReadCommittedSerial.v: the transactions, run alone, are the actions
      of Postgres.v. ReadCommittedStages.v, ReadCommittedLinear.v: overlapping, they
      are still those actions, each at one moment of its life, but for the two bulk
      revocations: a simulation by the atomic server. This is what lets the
      interleavings take a call of the session store for one action.
    - MutexMethods.v, MutexTheorems.v: the statements under the mutexes behave like
      the actions, for any clients, by a simulation in which a call takes effect when
      it reads the clock; what the clock said and the order of range statements give
      the environment of the actions ([calls_are_atomic]). Every run is finite and ends
      with all calls answered and all mutexes free ([calls_never_deadlock]); that a
      method locks once and unlocks on every path is part of the model, as [section]
      puts the Lock and the deferred Unlock around a body that cannot lock again.
    - Footprint.v, ViewFootprint.v: rules that every atomic action of a program keeps
      to, hence every interleaving, also with an account of which each program holds
      a share. Hygiene.v, HygieneTheorems.v: only hashes are stored, the audit trail
      is append-only, no log field discloses what is not public.
    - Termination.v: how many actions each request makes at most; that it is finitely
      many holds by construction, as a handler is a finite tree of actions.
    - TokenTheorems.v, EngineTheorems.v: access tokens verify until they expire and
      only under HMAC; which configurations [New] accepts.
    - RateLimiterTheorems.v: the exact bound of the fixed-window limiter.
      LimiterReference.v: its answers are those of a definition without counters.
    - LoggerTheorems.v: a log call is one line whatever the data. JsonRoundTrip.v: a
      decoder written from the JSON standard recovers from the line the level, the
      message and the fields of a call whose text is UTF-8, and its time to the second.

    The handlers' theorems are proved against the contract classes. Those without
    further conditions hold over the in-memory and the Postgres stores alike, with
    whatever faults. [strict = true] is true of the Postgres stores and not of the
    in-memory ones; [reliable = true] the other way round, since a statement may always
    fail there and an INSERT is also refused for its keys: what is proved under
    [reliable = true] is proved of the in-memory stores only, and each such theorem
    says so or tells what a fault can do instead.

    ** Parameters

    Code that is not in the repository is a class with its documented behaviour as
    laws: [Bcrypt], [JWT] (golang-jwt), [Postgres] (what the server does with the
    text of a UUID or a timestamp). Sample.v and PgFixtures.v give instances that
    satisfy the laws. That UUIDs do not repeat is the hypothesis [UniqueIDs],
    asked for only where sessions are told apart over time.

    ** Bounds and fuel

    Failure counters are Go ints ([int64]) and the INT column of the schema
    ([int4_max], an increment beyond it is an error). [digit_count] gets as
    fuel the binary logarithm of the year, which has fewer decimal digits;
    [chunks] gets the length of its list, which each step shortens;
    [sha_schedule] the 64 rounds; [cube_root] the 35 bits of the roots from which
    the constants of SHA-256 are taken; [json_decode] the length of its text,
    which is more than the nesting and the members of a line ([marshal_length]);
    [windows] is well-founded on the length of its list. Everything else is
    structural recursion: programs are finite trees, so [wp] is total
    correctness.

    ** What is not modelled

    The deletion of a user among overlapping transactions (ReadCommitted.v keeps
    the rows of users fixed: what a cascade does is the server's own business, the
    program sends one DELETE), overlapping transactions of the other stores (their
    calls are single statements, the updates each on one row), cancellation of contexts
    other than as a fault of a call, calls that never return (a call is one action, it
    answers), Go's memory model below a statement of Mutex.v (what a mutex guards is
    touched under it only), and what cmd/smoketest prints. *)
From Stdlib Require Export ZArith Lia Ascii.
From stdpp Require Export base tactics gmap strings list fin_maps fin_map_dom option numbers sorting relations.
From Stdlib Require String.

Declare Scope cryden_scope.
Delimit Scope cryden_scope with cryden.
Open Scope string_scope.
Open Scope list_scope.
Open Scope Z_scope.
Open Scope cryden_scope.

(** ** Machine integers *)

(** Go's [int] on the 64-bit platforms the module supports: two's complement
    with wrap-around. *)
Definition int64_min : Z := - 2 ^ 63.
Definition int64_max : Z := 2 ^ 63 - 1.
Definition int64 (z : Z) : Z := (z + 2 ^ 63) mod 2 ^ 64 - 2 ^ 63.

Lemma int64_small z : int64_min ≤ z ≤ int64_max → int64 z = z.
Proof. unfold int64, int64_min, int64_max. intros. rewrite Z.mod_small; lia. Qed.

(** ** Text *)

(** Strings that JSON encodes without change of meaning whatever their bytes. *)
Fixpoint ascii_only (s : string) : bool :=
  match s with
  | EmptyString => true
  | String c s => bool_decide (N_of_ascii c < 128)%N && ascii_only s
  end.

(** ** State actions *)

(** A state action: the Go code between two scheduling points, run on a state
    of type [X]. *)
Definition St (X A : Type) : Type := X → A * X.

#[export] Instance St_ret X : MRet (St X) := λ A a x, (a, x).
#[export] Instance St_bind X : MBind (St X) := λ A B f m x, let '(a, x') := m x in f a x'.

Definition st_get {X} : St X X := λ x, (x, x).
Definition st_put {X} (x' : X) : St X () := λ x, ((), x').
Definition st_modify {X} (f : X → X) : St X () := λ x, ((), f x).

Definition st_fst {X Y A} (m : St X A) : St (X * Y) A :=
  λ '(x, y), let '(a, x') := m x in (a, (x', y)).
Definition st_snd {X Y A} (m : St Y A) : St (X * Y) A :=
  λ '(x, y), let '(a, y') := m y in (a, (x, y')).

Ltac st_unfold :=
  unfold mbind, mret, St_bind, St_ret, st_fst, st_snd, st_get, st_put, st_modify in *;
  simpl in *.

(** ** Programs *)

(** A program is a tree of atomic actions on a shared state [X]: one action is
    one call that another goroutine cannot interrupt (a method that holds its
    store's mutex, one SQL statement or transaction, one reading of the clock).
    [run] executes a program alone, the interleaving semantics of Interleaving.v
    schedules the actions of several. *)
Inductive Prog (X A : Type) : Type :=
| Ret (a : A)
| Do (B : Type) (m : St X B) (k : B → Prog X A).
Arguments Ret {X A} a.
Arguments Do {X A B} m k.

Fixpoint prog_bind {X A B} (f : A → Prog X B) (p : Prog X A) : Prog X B :=
  match p with
  | Ret a => f a
  | Do m k => Do m (λ b, prog_bind f (k b))
  end.

#[export] Instance Prog_ret X : MRet (Prog X) := λ A a, Ret a.
#[export] Instance Prog_bind X : MBind (Prog X) := λ A B f p, prog_bind f p.

Definition act {X A} (m : St X A) : Prog X A := Do m Ret.

Fixpoint run {X A} (p : Prog X A) (x : X) : A * X :=
  match p with
  | Ret a => (a, x)
  | Do m k => let '(b, x') := m x in run (k b) x'
  end.

Lemma run_bind {X A B} (f : A → Prog X B) (p : Prog X A) x :
  run (p ≫= f) x = let '(a, x') := run p x in run (f a) x'.
Proof.
  unfold mbind, Prog_bind. revert x.
  induction p as [a|C m k IH]; intros x; simpl; [done|].
  destruct (m x) as [b x']. apply IH.
Qed.

(** ** Weakest preconditions *)

(** [wp p Q x]: running [p] alone from [x] ends in a result and a state that
    satisfy [Q]. Programs are finite trees, so this is total correctness. *)
Definition wp {X A} (p : Prog X A) (Q : A → X → Prop) (x : X) : Prop :=
  let '(a, x') := run p x in Q a x'.

Section wp.
Context {X : Type}.

Lemma wp_ret {A} (a : A) (Q : A → X → Prop) x : Q a x → wp (mret a) Q x.
Proof. done. Qed.

Lemma wp_bind {A B} (f : A → Prog X B) (p : Prog X A) Q x :
  wp p (λ a x', wp (f a) Q x') x → wp (p ≫= f) Q x.
Proof. unfold wp. rewrite run_bind. by destruct (run p x). Qed.

Lemma wp_act {A} (m : St X A) Q x :
  (∀ a x', m x = (a, x') → Q a x') → wp (act m) Q x.
Proof. intros H. unfold wp, act. simpl. destruct (m x). by apply H. Qed.

Lemma wp_mono {A} (p : Prog X A) (Q R : A → X → Prop) x :
  wp p Q x → (∀ a x', Q a x' → R a x') → wp p R x.
Proof. unfold wp. destruct (run p x). auto. Qed.

Lemma wp_elim {A} (p : Prog X A) (Q : A → X → Prop) x a x' :
  run p x = (a, x') → wp p Q x → Q a x'.
Proof. unfold wp. by intros ->. Qed.

End wp.

#[global] Arguments run : simpl never.

(** ** Tactics *)

(** Proves a goal about the outcome of the run [H] by a weakest precondition. *)
Ltac by_run H :=
  lazymatch type of H with
  | run ?p ?x = (?a, ?x') => pattern a, x'; refine (wp_elim p _ x a x' H _)
  end.

Create HintDb cryden discriminated.
