(* ===== verification/Errors.v ===== *)
(** * Errors

    The sentinel errors of the packages [store], [auth], [token], [security]
    and of the root package, with their texts, and Go's [(T, error)] results.
    Go compares sentinels by identity, which is equality of constructors here;
    [ErrExternal] is any error that a library, the database driver or a
    caller-supplied implementation returns. *)
From S2P Require Import Prelude.

Inductive error : Type :=
(* store/errors.go *)
| ErrNotFound
| ErrSessionNotOwned
(* auth/errors.go, auth/email.go *)
| ErrUserExists
| ErrInvalidCredentials
| ErrRateLimited
| ErrAccountLocked
| ErrVerificationTokenInvalid
| ErrVerificationTokenExpired
(* token/errors.go, token/jwt.go, token/refresh.go *)
| ErrTokenByteLengthTooShort
| token_ErrMissingJWTSecret
| ErrInvalidTTL
| ErrInvalidAccessToken
| ErrInvalidToken
| ErrTokenReused
(* security/errors.go *)
| ErrInvalidBcryptCost
(* errors.go, cryden.go *)
| ErrMissingJWTSecret
| ErrMissingUserStore
| ErrMissingSessionStore
| ErrMissingAuditStore
| ErrEmailChangeNotConfigured
(* database/sql *)
| sql_ErrNoRows
| ErrExternal (msg : string).

#[export] Instance error_eq_dec : EqDecision error.
Proof. solve_decision. Defined.

(** [err.Error()]. *)
Definition error_text (e : error) : string :=
  match e with
  | ErrNotFound => "store: record not found"
  | ErrSessionNotOwned => "store: session does not belong to this user"
  | ErrUserExists => "auth: user with this email already exists"
  | ErrInvalidCredentials => "auth: invalid email or password"
  | ErrRateLimited => "auth: rate limit exceeded"
  | ErrAccountLocked => "auth: account temporarily locked due to failed login attempts"
  | ErrVerificationTokenInvalid => "auth: verification token invalid or already used"
  | ErrVerificationTokenExpired => "auth: verification token expired"
  | ErrTokenByteLengthTooShort =>
      "token: byte length below minimum safe entropy (16 bytes / 128 bits)"
  | token_ErrMissingJWTSecret => "token: JWT secret must not be empty"
  | ErrInvalidTTL => "token: TTL must be greater than zero"
  | ErrInvalidAccessToken => "token: access token invalid or expired"
  | ErrInvalidToken => "token: refresh token not found or malformed"
  | ErrTokenReused => "token: refresh token reuse detected, session family revoked"
  | ErrInvalidBcryptCost => "security: bcrypt cost out of valid range"
  | ErrMissingJWTSecret => "cryden: JWTSecret is required"
  | ErrMissingUserStore => "cryden: Config.Users is required"
  | ErrMissingSessionStore => "cryden: Config.Sessions is required"
  | ErrMissingAuditStore => "cryden: Config.Audit is required"
  | ErrEmailChangeNotConfigured =>
      "cryden: email change requires Config.Verifications and Config.EmailSender to be set"
  | sql_ErrNoRows => "sql: no rows in result set"
  | ErrExternal msg => msg
  end.

(** Go's [(T, error)] where the value is only used when the error is nil. *)
Inductive result (A : Type) : Type :=
| Ok (a : A)
| Err (e : error).
Arguments Ok {A} a.
Arguments Err {A} e.

#[export] Instance result_eq_dec {A} `{EqDecision A} : EqDecision (result A).
Proof. solve_decision. Defined.

#[export] Instance result_ret : MRet result := λ A a, Ok a.
#[export] Instance result_bind : MBind result := λ A B f r,
  match r with Ok a => f a | Err e => Err e end.

Definition is_ok {A} (r : result A) : bool :=
  match r with Ok _ => true | Err _ => false end.
