(* ===== verification/Runtime.v ===== *)
(** * Runtime

    What a run of the engine reads from outside: the clock, the random source,
    UUIDs, the e-mail provider, the order in which Go ranges over a map, and
    the database server's behaviour. A run is deterministic in an [Env], which
    answers the n-th external event; theorems quantify over every [Env]. The
    third-party libraries (bcrypt, golang-jwt) are parameters, their documented
    behaviour is stated in classes of laws. *)
From S2P Require Import Prelude Errors.

(** Instants and durations in nanoseconds (time.Time, time.Duration). *)
Notation time := Z (only parsing).
Notation duration := Z (only parsing).

Definition Microsecond : duration := 1000.
Definition Second : duration := 1000000000.
Definition Minute : duration := 60 * Second.
Definition Hour : duration := 60 * Minute.

(** The zero [time.Time], January 1 of year 1, relative to the Unix epoch. *)
Definition time_zero : time := - 62135596800 * Second.

Definition time_After (t u : time) : bool := bool_decide (u < t).
Definition time_Before (t u : time) : bool := bool_decide (t < u).
Definition time_Add (t : time) (d : duration) : time := t + d.

(** What the database driver reports for a statement: no fault, an error and
    nothing done, or an error although the server executed the statement (the
    reply was lost). *)
Inductive DbFault : Type :=
| NoFault
| FaultBefore (msg : string)
| FaultAfter (msg : string).

Class Env : Type := {
  env_elapsed : nat → N;            (* nanoseconds since the previous event *)
  env_range : nat → string → Z;     (* rank of a key in a range over a map *)
  env_rand_err : nat → option string;
  env_rand_byte : nat → nat → ascii;
  env_uuid : nat → result string;   (* uuid.NewV7 *)
  env_send : nat → option string;   (* the EmailSender's answer *)
  env_db_fault : nat → DbFault;
  env_db_now : nat → time;          (* the database server's now() *)
  env_db_uuid : nat → string;       (* gen_random_uuid() *)
}.

(** The position of a run in its [Env]. *)
Record Amb : Type := mkAmb { amb_step : nat; amb_time : time }.

Definition amb_le (a b : Amb) : Prop :=
  (amb_step a ≤ amb_step b)%nat ∧ amb_time a ≤ amb_time b.

#[export] Instance amb_le_preorder : PreOrder amb_le.
Proof. split; [intros []|intros [] [] []]; unfold amb_le; simpl; lia. Qed.

(** golang.org/x/crypto/bcrypt. The first argument of Generate is the salt drawn. *)
Class Bcrypt : Type := {
  bcrypt_MinCost : Z;
  bcrypt_MaxCost : Z;
  bcrypt_GenerateFromPassword : nat → string → Z → result string;
  bcrypt_CompareHashAndPassword : string → string → result ();
}.

(** bcrypt's documented behaviour: the default cost 10 is valid, and a hash
    compares equal with the password it was generated from. *)
Class BcryptLaws `{Bcrypt} : Prop := {
  bcrypt_default_cost : bcrypt_MinCost ≤ 10 ≤ bcrypt_MaxCost;
  bcrypt_compare_generate n pw cost h :
    bcrypt_GenerateFromPassword n pw cost = Ok h →
    bcrypt_CompareHashAndPassword h pw = Ok ();
}.

Section runtime.
Context `{Env}.

(** One external event. *)
Definition event {A} (f : nat → time → A) : St Amb A := λ a,
  let t := amb_time a + Z.of_N (env_elapsed (amb_step a)) in
  (f (amb_step a) t, mkAmb (S (amb_step a)) t).

Definition time_Now : St Amb time := event (λ _ t, t).

(** crypto/rand.Read into a buffer of [n] bytes. *)
Definition rand_Read (n : Z) : St Amb (result (list ascii)) := event (λ k _,
  match env_rand_err k with
  | Some msg => Err (ErrExternal msg)
  | None => Ok (env_rand_byte k <$> seq 0 (Z.to_nat n))
  end).

Definition uuid_NewV7 : St Amb (result string) := event (λ k _, env_uuid k).

(** The entries of a map in the order a [range] statement visits them: Go
    leaves the order open, the [Env] picks it by ranking the keys. *)
Definition range_before {V} (k : nat) (p q : string * V) : Prop :=
  env_range k p.1 ≤ env_range k q.1.

#[export] Instance range_before_dec {V} k : RelDecision (range_before (V:=V) k).
Proof. unfold RelDecision, range_before. apply _. Defined.

Definition range_order {V} (k : nat) (m : gmap string V) : list (string * V) :=
  merge_sort (range_before k) (map_to_list m).

Definition go_range {V} (m : gmap string V) : St Amb (list (string * V)) :=
  event (λ k _, range_order k m).

Lemma event_le {A} (f : nat → time → A) a r a' :
  event f a = (r, a') → amb_le a a'.
Proof. intros [= <- <-]. unfold amb_le; simpl. lia. Qed.

Lemma elem_of_range {V} k (m : gmap string V) i v :
  (i, v) ∈ range_order k m ↔ m !! i = Some v.
Proof.
  unfold range_order. rewrite merge_sort_Permutation. apply elem_of_map_to_list.
Qed.

Lemma range_order_perm {V} k (m : gmap string V) :
  range_order k m ≡ₚ map_to_list m.
Proof. apply merge_sort_Permutation. Qed.

End runtime.

#[export] Hint Resolve event_le : cryden.
