(* ===== verification/Sha256.v ===== *)
(** * Hexadecimal text and SHA-256

    The two standard-library functions behind [HashToken] (token/refresh.go)
    and [CryptoRandTokenGenerator.New] (token/generator.go):
    encoding/hex.EncodeToString and crypto/sha256.Sum256 (FIPS 180-4), both
    executable. Bytes are [ascii], Go strings are byte strings. *)
From S2P Require Import Prelude.

(** ** Hexadecimal *)

Definition hex_digit (n : N) : ascii :=
  ascii_of_N (if (n <? 10)%N then 48 + n else 87 + n)%N.

Fixpoint hex_EncodeToString (bs : list ascii) : string :=
  match bs with
  | [] => EmptyString
  | b :: bs =>
      String (hex_digit (N_of_ascii b / 16)%N)
        (String (hex_digit (N_of_ascii b mod 16)%N) (hex_EncodeToString bs))
  end.

Definition unhex_digit (c : ascii) : N :=
  let n := N_of_ascii c in (if (n <? 58)%N then n - 48 else n - 87)%N.

Fixpoint hex_decode (s : string) : list ascii :=
  match s with
  | String a (String b s) =>
      ascii_of_N (unhex_digit a * 16 + unhex_digit b)%N :: hex_decode s
  | _ => []
  end.

Lemma hex_byte_roundtrip b :
  ascii_of_N (unhex_digit (hex_digit (N_of_ascii b / 16)%N) * 16
    + unhex_digit (hex_digit (N_of_ascii b mod 16)%N))%N = b.
Proof. by destruct b as [[] [] [] [] [] [] [] []]. Qed.

Lemma hex_decode_encode bs : hex_decode (hex_EncodeToString bs) = bs.
Proof. induction bs as [|b bs IH]; simpl; [done|]. by rewrite hex_byte_roundtrip, IH. Qed.

#[export] Instance hex_EncodeToString_inj : Inj (=) (=) hex_EncodeToString.
Proof. intros x y E. by rewrite <- (hex_decode_encode x), E, hex_decode_encode. Qed.

Lemma hex_length bs : String.length (hex_EncodeToString bs) = (2 * length bs)%nat.
Proof. induction bs as [|b bs IH]; simpl; [done|]. rewrite IH. lia. Qed.

(** ** SHA-256 *)

Definition w32 (n : N) : N := N.land n 4294967295.
Definition add32 (x y : N) : N := w32 (x + y).
Definition rotr (n : N) (x : N) : N :=
  N.lor (N.shiftr x n) (w32 (N.shiftl x (32 - n))).

Definition sha_ch (x y z : N) : N := N.lxor (N.land x y) (N.land (N.lxor x 4294967295) z).
Definition sha_maj (x y z : N) : N :=
  N.lxor (N.lxor (N.land x y) (N.land x z)) (N.land y z).
Definition sha_S0 (x : N) : N := N.lxor (N.lxor (rotr 2 x) (rotr 13 x)) (rotr 22 x).
Definition sha_S1 (x : N) : N := N.lxor (N.lxor (rotr 6 x) (rotr 11 x)) (rotr 25 x).
Definition sha_s0 (x : N) : N := N.lxor (N.lxor (rotr 7 x) (rotr 18 x)) (N.shiftr x 3).
Definition sha_s1 (x : N) : N := N.lxor (N.lxor (rotr 17 x) (rotr 19 x)) (N.shiftr x 10).

(** The constants are computed as FIPS 180-4 defines them: the first 32 bits of
    the fractional parts of the roots of the first primes. *)
Definition is_prime (n : N) : bool :=
  forallb (λ d, negb (N.eqb (n mod N.of_nat d) 0)) (seq 2 (N.to_nat (N.sqrt n) - 1)).

Definition primes (bound : nat) : list N :=
  List.filter is_prime (N.of_nat <$> seq 2 (bound - 2)).

(** The largest [r + x] with [x < 2 ^ k] whose cube is at most [n], bit by bit. *)
Fixpoint cube_root (k : nat) (r n : N) : N :=
  match k with
  | O => r
  | S k => let r' := (r + 2 ^ N.of_nat k)%N in
           cube_root k (if (r' * r' * r' <=? n)%N then r' else r) n
  end.

(** 64 primes lie below 312; the cube roots are below 8, so 35 bits suffice. *)
Definition sha_K : list N :=
  Eval vm_compute in ((λ p, w32 (cube_root 35 0 (p * 2 ^ 96))) <$> primes 312).

Record sha_state : Type := mkSha {
  sha_a : N; sha_b : N; sha_c : N; sha_d : N;
  sha_e : N; sha_f : N; sha_g : N; sha_h : N }.

Definition sha_init : sha_state :=
  Eval vm_compute in
  (let root p := w32 (N.sqrt (p * 2 ^ 64)) in
   mkSha (root 2%N) (root 3%N) (root 5%N) (root 7%N)
     (root 11%N) (root 13%N) (root 17%N) (root 19%N)).

Definition sha_round (st : sha_state) (kw : N) : sha_state :=
  let '(mkSha a b c d e f g h) := st in
  let t1 := add32 (add32 h (sha_S1 e)) (add32 (sha_ch e f g) kw) in
  let t2 := add32 (sha_S0 a) (sha_maj a b c) in
  mkSha (add32 t1 t2) a b c (add32 d t1) e f g.

(** The message schedule. The window holds the last 16 words, oldest first. *)
Fixpoint sha_schedule (fuel : nat) (window : list N) : list N :=
  match fuel, window with
  | S fuel, w0 :: rest =>
      let w1 := nth 0 rest 0%N in
      let w9 := nth 8 rest 0%N in
      let w14 := nth 13 rest 0%N in
      let w16 := add32 (add32 (sha_s1 w14) w9) (add32 (sha_s0 w1) w0) in
      w0 :: sha_schedule fuel (rest ++ [w16])
  | _, _ => []
  end.

Definition sha_add (x y : sha_state) : sha_state :=
  let '(mkSha a b c d e f g h) := x in
  let '(mkSha a' b' c' d' e' f' g' h') := y in
  mkSha (add32 a a') (add32 b b') (add32 c c') (add32 d d')
        (add32 e e') (add32 f f') (add32 g g') (add32 h h').

Definition sha_block (st : sha_state) (block : list N) : sha_state :=
  let kws := zip_with add32 sha_K (sha_schedule 64 block) in
  sha_add st (fold_left sha_round kws st).

Definition byte_of (n : N) : ascii := ascii_of_N (N.land n 255).

Definition be_bytes (n : nat) (x : N) : list ascii :=
  (λ i, byte_of (N.shiftr x (8 * N.of_nat (n - S i)))) <$> seq 0 n.

Definition be_word (bs : list ascii) : N :=
  fold_left (λ acc b, N.lor (N.shiftl acc 8) (N_of_ascii b)) bs 0%N.

(** Padding: 0x80, zeros up to 56 modulo 64, the bit length in 8 bytes. *)
Definition sha_pad (msg : list ascii) : list ascii :=
  let n := length msg in
  let zeros := ((119 - n mod 64) mod 64)%nat in
  msg ++ byte_of 128 :: replicate zeros (byte_of 0) ++ be_bytes 8 (8 * N.of_nat n).

Fixpoint chunks {A} (fuel k : nat) (l : list A) : list (list A) :=
  match fuel, l with
  | S fuel, _ :: _ => take k l :: chunks fuel k (drop k l)
  | _, _ => []
  end.

(** The fuel of [chunks] is the length of its list, which each step shortens. *)
Definition sha256_Sum256 (msg : list ascii) : list ascii :=
  let padded := sha_pad msg in
  let words := be_word <$> chunks (length padded) 4 padded in
  let blocks := chunks (length words) 16 words in
  let '(mkSha a b c d e f g h) := fold_left sha_block blocks sha_init in
  concat (be_bytes 4 <$> [a; b; c; d; e; f; g; h]).

Definition bytes_of (s : string) : list ascii := String.list_ascii_of_string s.

Example sha256_abc :
  hex_EncodeToString (sha256_Sum256 (bytes_of "abc"))
  = "ba7816bf8f01cfea414140de5dae2223b00361a396177a9cb410ff61f20015ad".
Proof. vm_compute. reflexivity. Qed.

Example sha256_empty :
  hex_EncodeToString (sha256_Sum256 [])
  = "e3b0c44298fc1c149afbf4c8996fb92427ae41e4649b934ca495991b7852b855".
Proof. vm_compute. reflexivity. Qed.

Example sha256_two_blocks :
  hex_EncodeToString (sha256_Sum256 (bytes_of
    "abcdbcdecdefdefgefghfghighijhijkijkljklmklmnlmnomnopnopq"))
  = "248d6a61d20638b8e5c026930c3e6039a33ce45964ff2167f6ecedd419db06c1".
Proof. vm_compute. reflexivity. Qed.

Lemma be_bytes_length n x : length (be_bytes n x) = n.
Proof. unfold be_bytes. by rewrite length_fmap, length_seq. Qed.

Lemma sha256_length msg : length (sha256_Sum256 msg) = 32%nat.
Proof.
  unfold sha256_Sum256. cbv zeta.
  destruct (fold_left sha_block _ sha_init).
  cbn [fmap list_fmap concat]. by rewrite !length_app, !be_bytes_length.
Qed.
