(* ===== verification/Store.v ===== *)
(** * The storage interfaces (store/interfaces.go)

    The domain records, the audit event types and verification purposes, and
    the four store interfaces as records of operations. [S] is the heap the
    stores live in: one value, because the Postgres stores share a database
    (foreign keys link their tables). An operation is one atomic action on that
    heap and the ambient state. *)
From S2P Require Import Prelude Errors Runtime.

(** ** Domain records *)

Record User : Type := mkUser {
  User_ID : string;
  User_Email : string;
  User_PasswordHash : string;
  User_FailedAttempts : Z;
  User_LockedUntil : option time;
  User_CreatedAt : time;
  User_UpdatedAt : time;
}.

Record Session : Type := mkSession {
  Session_ID : string;
  Session_FamilyID : string;
  Session_UserID : string;
  Session_TokenHash : string;
  Session_IP : string;
  Session_UserAgent : string;
  Session_CreatedAt : time;
  Session_RevokedAt : option time;
}.

Definition AuditEventType : Type := string.
Definition EventSignupSuccess : AuditEventType := "signup_success".
Definition EventLoginSuccess : AuditEventType := "login_success".
Definition EventLoginFailed : AuditEventType := "login_failed".
Definition EventLogout : AuditEventType := "logout".
Definition EventLogoutAll : AuditEventType := "logout_all".
Definition EventTokenRotated : AuditEventType := "token_rotated".
Definition EventTokenReuseDetected : AuditEventType := "token_reuse_detected".
Definition EventSessionRevoked : AuditEventType := "session_revoked".
Definition EventAccountLocked : AuditEventType := "account_locked".
Definition EventPasswordChanged : AuditEventType := "password_changed".
Definition EventEmailChangeRequested : AuditEventType := "email_change_requested".
Definition EventEmailChanged : AuditEventType := "email_changed".
Definition EventAccountDeleted : AuditEventType := "account_deleted".

(** [Metadata] is a Go map that may be nil. *)
Record AuditEvent : Type := mkAuditEvent {
  AuditEvent_ID : string;
  AuditEvent_Type : AuditEventType;
  AuditEvent_UserID : string;
  AuditEvent_IP : string;
  AuditEvent_Metadata : option (gmap string string);
  AuditEvent_CreatedAt : time;
}.

Definition VerificationPurpose : Type := string.
Definition PurposeEmailVerify : VerificationPurpose := "email_verify".
Definition PurposeEmailChange : VerificationPurpose := "email_change".

Record VerificationToken : Type := mkVerificationToken {
  VerificationToken_ID : string;
  VerificationToken_UserID : string;
  VerificationToken_Purpose : VerificationPurpose;
  VerificationToken_TokenHash : string;
  VerificationToken_NewEmail : string;
  VerificationToken_ExpiresAt : time;
  VerificationToken_UsedAt : option time;
  VerificationToken_CreatedAt : time;
}.

#[export] Instance User_eq_dec : EqDecision User.
Proof. solve_decision. Defined.
#[export] Instance Session_eq_dec : EqDecision Session.
Proof. solve_decision. Defined.
#[export] Instance AuditEvent_eq_dec : EqDecision AuditEvent.
Proof. solve_decision. Defined.
#[export] Instance VerificationToken_eq_dec : EqDecision VerificationToken.
Proof. solve_decision. Defined.

(** ** Field assignments *)

Definition set_Email (u : User) (email : string) (now : time) : User :=
  mkUser (User_ID u) email (User_PasswordHash u) (User_FailedAttempts u)
    (User_LockedUntil u) (User_CreatedAt u) now.
Definition set_PasswordHash (u : User) (hash : string) (now : time) : User :=
  mkUser (User_ID u) (User_Email u) hash (User_FailedAttempts u)
    (User_LockedUntil u) (User_CreatedAt u) now.
Definition set_FailedAttempts (u : User) (n : Z) : User :=
  mkUser (User_ID u) (User_Email u) (User_PasswordHash u) n
    (User_LockedUntil u) (User_CreatedAt u) (User_UpdatedAt u).
Definition set_LockedUntil (u : User) (until : option time) : User :=
  mkUser (User_ID u) (User_Email u) (User_PasswordHash u) (User_FailedAttempts u)
    until (User_CreatedAt u) (User_UpdatedAt u).
Definition set_UserTimes (u : User) (created updated : time) : User :=
  mkUser (User_ID u) (User_Email u) (User_PasswordHash u) (User_FailedAttempts u)
    (User_LockedUntil u) created updated.

Definition set_RevokedAt (s : Session) (t : option time) : Session :=
  mkSession (Session_ID s) (Session_FamilyID s) (Session_UserID s)
    (Session_TokenHash s) (Session_IP s) (Session_UserAgent s)
    (Session_CreatedAt s) t.
Definition set_SessionCreatedAt (s : Session) (t : time) : Session :=
  mkSession (Session_ID s) (Session_FamilyID s) (Session_UserID s)
    (Session_TokenHash s) (Session_IP s) (Session_UserAgent s) t
    (Session_RevokedAt s).

Definition set_EventCreatedAt (e : AuditEvent) (t : time) : AuditEvent :=
  mkAuditEvent (AuditEvent_ID e) (AuditEvent_Type e) (AuditEvent_UserID e)
    (AuditEvent_IP e) (AuditEvent_Metadata e) t.

Definition set_TokenCreatedAt (vt : VerificationToken) (t : time) : VerificationToken :=
  mkVerificationToken (VerificationToken_ID vt) (VerificationToken_UserID vt)
    (VerificationToken_Purpose vt) (VerificationToken_TokenHash vt)
    (VerificationToken_NewEmail vt) (VerificationToken_ExpiresAt vt)
    (VerificationToken_UsedAt vt) t.
Definition set_UsedAt (vt : VerificationToken) (t : option time) : VerificationToken :=
  mkVerificationToken (VerificationToken_ID vt) (VerificationToken_UserID vt)
    (VerificationToken_Purpose vt) (VerificationToken_TokenHash vt)
    (VerificationToken_NewEmail vt) (VerificationToken_ExpiresAt vt)
    t (VerificationToken_CreatedAt vt).

(** ** Literals: the struct literals the engine writes, other fields zero *)

Definition new_User (id email hash : string) : User :=
  mkUser id email hash 0 None time_zero time_zero.
Definition new_Session (id family user hash ip agent : string) : Session :=
  mkSession id family user hash ip agent time_zero None.
Definition new_AuditEvent (ty : AuditEventType) (user ip : string)
    (meta : option (gmap string string)) : AuditEvent :=
  mkAuditEvent EmptyString ty user ip meta time_zero.
Definition new_VerificationToken (id user : string) (purpose : VerificationPurpose)
    (hash email : string) (expires : time) : VerificationToken :=
  mkVerificationToken id user purpose hash email expires None time_zero.

(** ** Interfaces *)

(** An atomic operation on the heap [S]. *)
Definition Op (S A : Type) : Type := St (S * Amb) A.

Record UserStore (S : Type) : Type := mkUserStore {
  UserStore_Create : User → Op S (result ());
  UserStore_GetByEmail : string → Op S (result User);
  UserStore_GetByID : string → Op S (result User);
  UserStore_UpdateEmail : string → string → Op S (result ());
  UserStore_UpdatePasswordHash : string → string → Op S (result ());
  UserStore_Delete : string → Op S (result ());
  UserStore_IncrementFailedAttempts : string → Op S (result Z);
  UserStore_ResetFailedAttempts : string → Op S (result ());
  UserStore_LockAccount : string → time → Op S (result ());
}.

Record SessionStore (S : Type) : Type := mkSessionStore {
  SessionStore_Create : Session → Op S (result ());
  SessionStore_GetByID : string → Op S (result Session);
  SessionStore_GetByTokenHash : string → Op S (result Session);
  SessionStore_ListByUser : string → Op S (result (list Session));
  SessionStore_Revoke : string → Op S (result ());
  SessionStore_RevokeFamily : string → Op S (result ());
  SessionStore_RevokeAllForUser : string → Op S (result ());
  SessionStore_RotateToken : string → Session → Op S (result ());
}.

Record AuditStore (S : Type) : Type := mkAuditStore {
  AuditStore_Record : AuditEvent → Op S (result ());
  AuditStore_ListByUser : string → Z → Op S (result (list AuditEvent));
}.

Record VerificationStore (S : Type) : Type := mkVerificationStore {
  VerificationStore_Create : VerificationToken → Op S (result ());
  VerificationStore_GetByTokenHash : string → Op S (result VerificationToken);
  VerificationStore_MarkUsed : string → Op S (result ());
}.

Arguments UserStore_Create {S} _ _.
Arguments UserStore_GetByEmail {S} _ _.
Arguments UserStore_GetByID {S} _ _.
Arguments UserStore_UpdateEmail {S} _ _ _.
Arguments UserStore_UpdatePasswordHash {S} _ _ _.
Arguments UserStore_Delete {S} _ _.
Arguments UserStore_IncrementFailedAttempts {S} _ _.
Arguments UserStore_ResetFailedAttempts {S} _ _.
Arguments UserStore_LockAccount {S} _ _ _.
Arguments SessionStore_Create {S} _ _.
Arguments SessionStore_GetByID {S} _ _.
Arguments SessionStore_GetByTokenHash {S} _ _.
Arguments SessionStore_ListByUser {S} _ _.
Arguments SessionStore_Revoke {S} _ _.
Arguments SessionStore_RevokeFamily {S} _ _.
Arguments SessionStore_RevokeAllForUser {S} _ _.
Arguments SessionStore_RotateToken {S} _ _ _.
Arguments AuditStore_Record {S} _ _.
Arguments AuditStore_ListByUser {S} _ _ _.
Arguments VerificationStore_Create {S} _ _.
Arguments VerificationStore_GetByTokenHash {S} _ _.
Arguments VerificationStore_MarkUsed {S} _ _.
