(* ===== verification/StoreSpec.v ===== *)
(** * What the stores promise (the contract behind store/interfaces.go)

    The abstract state of the storage is a [View]: the users, sessions and
    verification tokens by their keys and the audit trail in the order it was
    written. The contract says, for each operation, how the view changes and what
    the result tells about it. The handlers are proved against these classes; the
    in-memory stores (MemoryContract.v) and the Postgres stores
    (PostgresContract.v) are instances of them.

    An operation that returns an error may still have taken effect (the reply of
    a database can be lost), so the contract of a mutator says: on an error the
    view is unchanged or it changed exactly as on success. *)
From S2P Require Import Prelude Errors Runtime Store.

(** ** Views *)

Record View : Type := mkView {
  v_users : gmap string User;
  v_sessions : gmap string Session;
  v_events : list AuditEvent;
  v_tokens : gmap string VerificationToken;
}.

Definition with_users (v : View) (m : gmap string User) : View :=
  mkView m (v_sessions v) (v_events v) (v_tokens v).
Definition with_sessions (v : View) (m : gmap string Session) : View :=
  mkView (v_users v) m (v_events v) (v_tokens v).
Definition with_events (v : View) (l : list AuditEvent) : View :=
  mkView (v_users v) (v_sessions v) l (v_tokens v).
Definition with_tokens (v : View) (m : gmap string VerificationToken) : View :=
  mkView (v_users v) (v_sessions v) (v_events v) m.

(** How a heap [S] represents a view. [key] is the form in which the storage
    keeps an identifier (Postgres canonicalises UUIDs and refuses other text);
    [strict] says that the storage enforces primary keys and revokes a session
    at most once; [reliable] that it fails only for missing records. *)
Class StoreModel (S : Type) : Type := {
  view : S → View;
  store_inv : S → Prop;
  key : string → option string;
  strict : bool;
  reliable : bool;
}.

(** ** Specifications of operations *)

Definition Spec (A : Type) : Type := View → result A → View → Prop.

(** [sat op R]: whatever the state, [op] keeps the representation invariant, lets
    time pass and relates the views before and after as [R] says. *)
Definition sat {S} `{StoreModel S} {A} (op : Op S A) (R : View → A → View → Prop) : Prop :=
  ∀ s a r s' a', store_inv s → op (s, a) = (r, (s', a')) →
    store_inv s' ∧ amb_le a a' ∧ R (view s) r (view s').

(** The errors a storage returns: not found, or one of its own. *)
Definition storage_error (e : error) : Prop :=
  e = ErrNotFound ∨ ∃ msg, e = ErrExternal msg.

Section specs.
Context {S : Type} `{StoreModel S}.

(** A query: the view stays, [P] is what an answer tells, [Q] what not-found does. *)
Definition reads {A} (P : View → A → Prop) (Q : View → Prop) : Spec A := λ v r v',
  v' = v ∧
  match r with
  | Ok x => P v x
  | Err e => storage_error e ∧ (e = ErrNotFound → Q v) ∧ (reliable = true → e = ErrNotFound)
  end.

(** A mutator: [E] is its effect, [present] its precondition for being found. *)
Definition mutates {A} (present : View → Prop) (E : View → A → View → Prop) : Spec A :=
  λ v r v',
  match r with
  | Ok x => E v x v'
  | Err e =>
      (v' = v ∨ ∃ x, E v x v') ∧ storage_error e ∧
      (e = ErrNotFound → v' = v ∧ ¬ present v) ∧ (reliable = true → e = ErrNotFound)
  end.

Lemma storage_error_not_found : storage_error ErrNotFound.
Proof. by left. Qed.

(** An effect whose failure the caller only logs: a reliable storage has it. *)
Definition maybe (E : View → View → Prop) (v v' : View) : Prop :=
  E v v' ∨ (reliable = false ∧ v' = v).

(** A mutator whose record is there fails only for a fault of the storage. *)
Lemma mutates_fault {A} present (E : View → A → View → Prop) v e v' :
  present v → mutates present E v (Err e) v' →
  reliable = false ∧ (v' = v ∨ ∃ x, E v x v') ∧ storage_error e ∧ e ≠ ErrNotFound.
Proof.
  intros Hp (HE & He & Hnf & Hrel). split_and!; [|done..|naive_solver].
  destruct reliable; [|done]. destruct (Hnf (Hrel eq_refl)). done.
Qed.

Lemma mutates_maybe present (E : View → View → Prop) v r v' :
  present v → mutates (A:=()) present (λ v _ v', E v v') v r v' → maybe E v v'.
Proof.
  intros Hp. destruct r as [[]|e]; [by left|].
  intros (? & [->|[_ ?]] & _)%mutates_fault; [by right|by left|done].
Qed.

(** A mutator that returned [e]: the record was not there and nothing changed, or
    the storage had a fault and the effect may have happened. *)
Definition failed (present : View → Prop) (E : View → View → Prop) (v v' : View)
    (e : error) : Prop :=
  storage_error e ∧
  ((e = ErrNotFound ∧ ¬ present v ∧ v' = v) ∨
   (reliable = false ∧ e ≠ ErrNotFound ∧ (v' = v ∨ E v v'))).

Lemma mutates_failed {A} present (E : View → A → View → Prop) v e v' :
  mutates present E v (Err e) v' → failed present (λ v v', ∃ x, E v x v') v v' e.
Proof.
  intros (HE & He & Hnf & Hrel). split; [done|].
  destruct (decide (e = ErrNotFound)) as [->|Hne]; [left; naive_solver|].
  right. destruct reliable; naive_solver.
Qed.

(** *** Users *)

Definition user_exists (id : string) (v : View) : Prop :=
  ∃ k, key id = Some k ∧ is_Some (v_users v !! k).

Definition user_updated (id : string) (f : User → User → Prop) (v v' : View) : Prop :=
  ∃ k u u', key id = Some k ∧ v_users v !! k = Some u ∧ f u u' ∧
    v' = with_users v (<[k := u']> (v_users v)).

Definition user_created (id email hash : string) (v v' : View) : Prop :=
  ∃ k t t', key id = Some k ∧
    (strict = true → v_users v !! k = None ∧
       ∀ k' u, v_users v !! k' = Some u → User_Email u ≠ email) ∧
    v' = with_users v (<[k := mkUser k email hash 0 None t t']> (v_users v)).

(** Instants that Postgres may round to its resolution. *)
Definition close (t t' : time) : Prop := t - Microsecond ≤ t' ∧ t' ≤ t + Microsecond.

Definition clear_user (k : string) (e : AuditEvent) : AuditEvent :=
  if bool_decide (AuditEvent_UserID e = k) then
    mkAuditEvent (AuditEvent_ID e) (AuditEvent_Type e) EmptyString (AuditEvent_IP e)
      (AuditEvent_Metadata e) (AuditEvent_CreatedAt e)
  else e.

(** What the foreign keys do when a user goes: sessions and verification tokens
    are deleted, audit events lose their user. *)
Definition cascade (k : string) (v : View) : View :=
  mkView (v_users v)
    (filter (λ p, Session_UserID p.2 ≠ k) (v_sessions v))
    (clear_user k <$> v_events v)
    (filter (λ p, VerificationToken_UserID p.2 ≠ k) (v_tokens v)).

Definition user_deleted (id : string) (v v' : View) : Prop :=
  ∃ k, key id = Some k ∧ is_Some (v_users v !! k) ∧
    v' = with_users (if strict then cascade k v else v) (delete k (v_users v)).

Class UserContract (users : UserStore S) : Prop := {
  uc_create id email hash :
    sat (UserStore_Create users (new_User id email hash))
      (mutates (λ _, True) (λ v _ v', user_created id email hash v v'));
  uc_get_by_email email :
    sat (UserStore_GetByEmail users email)
      (reads (λ v u, v_users v !! User_ID u = Some u ∧ User_Email u = email)
             (λ v, ∀ k u, v_users v !! k = Some u → User_Email u ≠ email));
  uc_get_by_id id :
    sat (UserStore_GetByID users id)
      (reads (λ v u, key id = Some (User_ID u) ∧ v_users v !! User_ID u = Some u)
             (λ v, ¬ user_exists id v));
  uc_update_email id email :
    sat (UserStore_UpdateEmail users id email)
      (mutates (user_exists id)
         (λ v _ v', user_updated id (λ u u', ∃ t, u' = set_Email u email t) v v' ∧
            (strict = true → ∀ k u, v_users v !! k = Some u → User_Email u = email →
               key id = Some k)));
  uc_update_password id hash :
    sat (UserStore_UpdatePasswordHash users id hash)
      (mutates (user_exists id)
         (λ v _ v', user_updated id (λ u u', ∃ t, u' = set_PasswordHash u hash t) v v'));
  uc_delete id :
    sat (UserStore_Delete users id)
      (mutates (user_exists id) (λ v _ v', user_deleted id v v'));
  uc_increment id :
    sat (UserStore_IncrementFailedAttempts users id)
      (mutates (user_exists id)
         (λ v n v', user_updated id (λ u u', n = int64 (User_FailedAttempts u + 1) ∧
            u' = set_FailedAttempts u n) v v'));
  uc_reset id :
    sat (UserStore_ResetFailedAttempts users id)
      (mutates (user_exists id)
         (λ v _ v', user_updated id (λ u u',
            u' = set_LockedUntil (set_FailedAttempts u 0) None) v v'));
  uc_lock id until :
    sat (UserStore_LockAccount users id until)
      (mutates (user_exists id)
         (λ v _ v', user_updated id (λ u u', ∃ t, close until t ∧
            u' = set_LockedUntil u (Some t)) v v'));
}.

(** *** Sessions *)

Definition live (s : Session) : Prop := Session_RevokedAt s = None.

#[export] Instance live_dec s : Decision (live s).
Proof. unfold live. apply _. Defined.

(** Revokes at [t] the live sessions that satisfy [P]. *)
Definition revoke_where (P : Session → Prop) `{∀ s, Decision (P s)} (t : time)
    (s : Session) : Session :=
  if decide (P s ∧ live s) then set_RevokedAt s (Some t) else s.

Definition session_present (id : string) (v : View) : Prop :=
  ∃ k s, key id = Some k ∧ v_sessions v !! k = Some s ∧ (strict = true → live s).

Definition new_session_hash (hash : string) (v : View) : Prop :=
  ∀ k s, v_sessions v !! k = Some s → Session_TokenHash s ≠ hash.

Definition session_created (id family user hash ip agent : string) (v v' : View) : Prop :=
  ∃ k kf ku t, key id = Some k ∧ key family = Some kf ∧ key user = Some ku ∧
    (strict = true → v_sessions v !! k = None ∧ is_Some (v_users v !! ku) ∧ new_session_hash hash v) ∧
    v' = with_sessions v (<[k := mkSession k kf ku hash ip agent t None]> (v_sessions v)).

Definition session_revoked (id : string) (v v' : View) : Prop :=
  ∃ k s t, key id = Some k ∧ v_sessions v !! k = Some s ∧ (strict = true → live s) ∧
    v' = with_sessions v (<[k := set_RevokedAt s (Some t)]> (v_sessions v)).

Definition family_revoked (family : string) (v v' : View) : Prop :=
  ∃ kf t, key family = Some kf ∧
    v' = with_sessions v (revoke_where (λ s, Session_FamilyID s = kf) t <$> v_sessions v).

Definition user_sessions_revoked (user : string) (v v' : View) : Prop :=
  ∃ ku t, key user = Some ku ∧
    v' = with_sessions v (revoke_where (λ s, Session_UserID s = ku) t <$> v_sessions v).

(** Rotation: the old session is revoked and the new one added in one step. *)
Definition token_rotated (old : string) (id family user hash ip agent : string)
    (v v' : View) : Prop :=
  ∃ ko so t kn kf ku t', key old = Some ko ∧ v_sessions v !! ko = Some so ∧
    key id = Some kn ∧ key family = Some kf ∧ key user = Some ku ∧
    (strict = true → live so ∧ v_sessions v !! kn = None ∧ is_Some (v_users v !! ku) ∧
       new_session_hash hash v) ∧
    v' = with_sessions v (<[kn := mkSession kn kf ku hash ip agent t' None]>
                            (<[ko := set_RevokedAt so (Some t)]> (v_sessions v))).

Definition active_of (user : string) (m : gmap string Session) : list Session :=
  filter (λ s, key user = Some (Session_UserID s) ∧ live s) (snd <$> map_to_list m).

Class SessionContract (sessions : SessionStore S) : Prop := {
  sc_create id family user hash ip agent :
    sat (SessionStore_Create sessions (new_Session id family user hash ip agent))
      (mutates (λ _, True) (λ v _ v', session_created id family user hash ip agent v v'));
  sc_get_by_id id :
    sat (SessionStore_GetByID sessions id)
      (reads (λ v s, key id = Some (Session_ID s) ∧ v_sessions v !! Session_ID s = Some s)
             (λ v, ∀ k, key id = Some k → v_sessions v !! k = None));
  sc_get_by_hash hash :
    sat (SessionStore_GetByTokenHash sessions hash)
      (reads (λ v s, v_sessions v !! Session_ID s = Some s ∧ Session_TokenHash s = hash)
             (λ v, ∀ k s, v_sessions v !! k = Some s → Session_TokenHash s ≠ hash));
  sc_list user :
    sat (SessionStore_ListByUser sessions user)
      (reads (λ v l, l ≡ₚ active_of user (v_sessions v)) (λ _, False));
  sc_revoke id :
    sat (SessionStore_Revoke sessions id)
      (mutates (session_present id) (λ v _ v', session_revoked id v v'));
  sc_revoke_family family :
    sat (SessionStore_RevokeFamily sessions family)
      (mutates (λ _, True) (λ v _ v', family_revoked family v v'));
  sc_revoke_all user :
    sat (SessionStore_RevokeAllForUser sessions user)
      (mutates (λ _, True) (λ v _ v', user_sessions_revoked user v v'));
  sc_rotate old id family user hash ip agent :
    sat (SessionStore_RotateToken sessions old (new_Session id family user hash ip agent))
      (mutates (session_present old)
         (λ v _ v', token_rotated old id family user hash ip agent v v'));
}.

(** *** The audit trail *)

(** Metadata whose keys and values are ASCII. *)
Definition ascii_meta (meta : option (gmap string string)) : Prop :=
  ∀ m, meta = Some m → map_Forall (λ k v, ascii_only k = true ∧ ascii_only v = true) m.

(** The stored form of an event: an empty user stays empty, time and id are the
    storage's, metadata survives the storage's encoding if it is ASCII. *)
Definition event_stored (ev e : AuditEvent) : Prop :=
  AuditEvent_Type e = AuditEvent_Type ev ∧
  AuditEvent_IP e = AuditEvent_IP ev ∧
  (ascii_meta (AuditEvent_Metadata ev) → AuditEvent_Metadata e = AuditEvent_Metadata ev) ∧
  (if bool_decide (AuditEvent_UserID ev = EmptyString)
   then AuditEvent_UserID e = EmptyString
   else key (AuditEvent_UserID ev) = Some (AuditEvent_UserID e)).

(** The user of an event is there, where the storage enforces it. *)
Definition event_recorded (ev : AuditEvent) (v v' : View) : Prop :=
  ∃ e, (event_stored ev e ∧ (strict = true →
          AuditEvent_UserID e = EmptyString ∨ is_Some (v_users v !! AuditEvent_UserID e))) ∧
    v' = with_events v (v_events v ++ [e]).

(** What [ListByUser] answers for a user: events of that user and no others, each as
    often as it was recorded, as many as there are within the limit. *)
Definition events_listed (user : string) (limit : Z) (v : View) (l : list AuditEvent) : Prop :=
  ∃ k, key user = Some k ∧ (k ≠ EmptyString → ∃ rest,
    l ++ rest ≡ₚ filter (λ e, AuditEvent_UserID e = k) (v_events v) ∧
    Z.of_nat (length l) = Z.max 0 (Z.min limit (Z.of_nat (length (l ++ rest))))).

Class AuditContract (audit : AuditStore S) : Prop := {
  ac_record ty user ip meta :
    sat (AuditStore_Record audit (new_AuditEvent ty user ip meta))
      (mutates (λ _, True) (λ v _ v', event_recorded (new_AuditEvent ty user ip meta) v v'));
  ac_list user limit :
    sat (AuditStore_ListByUser audit user limit) (reads (events_listed user limit) (λ _, False));
}.

(** *** Verification tokens *)

Definition token_created (id user : string) (purpose : VerificationPurpose)
    (hash email : string) (expires : time) (v v' : View) : Prop :=
  ∃ k ku x t, key id = Some k ∧ key user = Some ku ∧ close expires x ∧
    (strict = true → v_tokens v !! k = None ∧ is_Some (v_users v !! ku) ∧
       ∀ k' vt, v_tokens v !! k' = Some vt → VerificationToken_TokenHash vt ≠ hash) ∧
    v' = with_tokens v
           (<[k := mkVerificationToken k ku purpose hash email x None t]> (v_tokens v)).

Definition token_present (id : string) (v : View) : Prop :=
  ∃ k vt, key id = Some k ∧ v_tokens v !! k = Some vt ∧
    (strict = true → VerificationToken_UsedAt vt = None).

Definition token_used (id : string) (v v' : View) : Prop :=
  ∃ k vt t, key id = Some k ∧ v_tokens v !! k = Some vt ∧
    v' = with_tokens v (<[k := set_UsedAt vt (Some t)]> (v_tokens v)).

Class VerificationContract (verifications : VerificationStore S) : Prop := {
  vc_create id user purpose hash email expires :
    sat (VerificationStore_Create verifications
           (new_VerificationToken id user purpose hash email expires))
      (mutates (λ _, True) (λ v _ v', token_created id user purpose hash email expires v v'));
  vc_get_by_hash hash :
    sat (VerificationStore_GetByTokenHash verifications hash)
      (reads (λ v vt, v_tokens v !! VerificationToken_ID vt = Some vt ∧
                      VerificationToken_TokenHash vt = hash)
             (λ v, ∀ k vt, v_tokens v !! k = Some vt → VerificationToken_TokenHash vt ≠ hash));
  vc_mark_used id :
    sat (VerificationStore_MarkUsed verifications id)
      (mutates (token_present id) (λ v _ v', token_used id v v'));
}.

(** *** Stored records

    A record is filed under its own ID, and stored identifiers are in the form
    the storage keeps them in. *)
Class StoreLaws : Prop := {
  canon_user s k u :
    store_inv s → v_users (view s) !! k = Some u → User_ID u = k ∧ key k = Some k;
  canon_session s k x :
    store_inv s → v_sessions (view s) !! k = Some x →
    Session_ID x = k ∧ key k = Some k ∧
    key (Session_FamilyID x) = Some (Session_FamilyID x) ∧
    key (Session_UserID x) = Some (Session_UserID x);
  canon_token s k vt :
    store_inv s → v_tokens (view s) !! k = Some vt →
    VerificationToken_ID vt = k ∧ key k = Some k ∧
    key (VerificationToken_UserID vt) = Some (VerificationToken_UserID vt);
}.

End specs.

#[export] Hint Resolve uc_create uc_get_by_email uc_get_by_id uc_update_email
  uc_update_password uc_delete uc_increment uc_reset uc_lock
  sc_create sc_get_by_id sc_get_by_hash sc_list sc_revoke sc_revoke_family
  storage_error_not_found sc_revoke_all sc_rotate ac_record ac_list vc_create vc_get_by_hash vc_mark_used : cryden.
