(* ===== verification/SessionMachine.v ===== *)
(** * The session state machine

    The abstract life of sessions, as the interfaces of store and token describe
    it: a login opens a family with one session, a rotation replaces the live
    session of a family by a new one, revocations only ever revoke, deleting a
    user removes that user's sessions. The handlers are shown to follow this
    machine (SessionSafety.v, Concurrency.v); its invariants are proved here. *)
From S2P Require Import Prelude Errors Runtime Store StoreSpec.

Notation SMap := (gmap string Session) (only parsing).

Inductive sess_step : SMap → SMap → Prop :=
| step_revoke (P : Session → Prop) `{∀ s, Decision (P s)} t m :
    sess_step m (revoke_where P t <$> m)
| step_revoke_one m k s t :
    m !! k = Some s → sess_step m (<[k := set_RevokedAt s (Some t)]> m)
| step_login m k s :
    m !! k = None → Session_ID s = k → Session_FamilyID s = k → live s →
    sess_step m (<[k := s]> m)
| step_rotate m o old t k s :
    m !! o = Some old → live old → m !! k = None → Session_ID s = k →
    Session_FamilyID s = Session_FamilyID old →
    Session_UserID s = Session_UserID old → live s →
    sess_step m (<[k := s]> (<[o := set_RevokedAt old (Some t)]> m))
| step_delete u m :
    sess_step m (filter (λ p, Session_UserID p.2 ≠ u) m).

Notation sess_steps := (rtc sess_step) (only parsing).

(** ** Invariants *)

(** At most one session of a family is live. *)
Definition one_live (m : SMap) : Prop :=
  ∀ k1 k2 s1 s2, m !! k1 = Some s1 → m !! k2 = Some s2 → live s1 → live s2 →
    Session_FamilyID s1 = Session_FamilyID s2 → k1 = k2.

(** A family is rooted in the session that opened it, whose ID is the family's,
    and all its sessions belong to the root's user. *)
Definition rooted (m : SMap) : Prop :=
  ∀ k s, m !! k = Some s → ∃ r, m !! Session_FamilyID s = Some r ∧
    Session_FamilyID r = Session_FamilyID s ∧ Session_UserID r = Session_UserID s.

Definition filed (m : SMap) : Prop := ∀ k s, m !! k = Some s → Session_ID s = k.

Record machine_inv (m : SMap) : Prop := {
  mi_one_live : one_live m;
  mi_rooted : rooted m;
  mi_filed : filed m;
}.

(** What never changes in a session. *)
Definition same_session (s s' : Session) : Prop :=
  Session_ID s' = Session_ID s ∧ Session_FamilyID s' = Session_FamilyID s ∧
  Session_UserID s' = Session_UserID s ∧ Session_TokenHash s' = Session_TokenHash s.

#[export] Instance same_session_preorder : PreOrder same_session.
Proof. split; [by intros []|]. unfold same_session. intros ???; naive_solver congruence. Qed.

(** [s'] is a later state of [s]: same identity, revoked if [s] was. *)
Definition later (s s' : Session) : Prop :=
  same_session s s' ∧ (live s' → live s).

#[export] Instance later_preorder : PreOrder later.
Proof.
  split; [by intros s; split|].
  intros x y z [? ?] [? ?]. split; [by etrans|auto].
Qed.

Lemma later_revoked s t : later s (set_RevokedAt s (Some t)).
Proof. split; [by repeat split|]. by unfold live. Qed.

Lemma later_revoke_where P `{∀ s, Decision (P s)} t s : later s (revoke_where P t s).
Proof. unfold revoke_where. case_decide; [apply later_revoked|done]. Qed.

Lemma later_refl s : later s s.
Proof. reflexivity. Qed.

#[export] Hint Resolve later_refl later_revoked later_revoke_where : cryden.

Lemma revoke_where_kills (P : Session → Prop) `{∀ s, Decision (P s)} t s :
  P s → ¬ live (revoke_where P t s).
Proof.
  unfold revoke_where. intros HP. case_decide; [done|]. naive_solver.
Qed.

(** ** Preservation *)

Lemma machine_inv_empty : machine_inv ∅.
Proof.
  split; [intros ???? Hx|intros ?? Hx|intros ?? Hx]; by rewrite lookup_empty in Hx.
Qed.

Lemma lookup_step_kept (m m' : SMap) k s :
  sess_step m m' → m !! k = Some s →
  m' !! k = None ∨ ∃ s', m' !! k = Some s' ∧ later s s'.
Proof.
  intros Hs Hk. destruct Hs as [P ? t m|m o old t Ho|m k' s' Hn|m o old t k' s' Ho _ Hn|u m].
  - right. rewrite lookup_fmap, Hk. simpl. eauto with cryden.
  - right. destruct (decide (o = k)) as [->|?]; simplify_map_eq; eauto with cryden.
  - right. exists s. rewrite lookup_insert_ne by congruence. done.
  - right. rewrite lookup_insert_ne by congruence.
    destruct (decide (o = k)) as [->|?]; simplify_map_eq; eauto with cryden.
  - destruct (decide (Session_UserID s = u)) as [Hu|Hu].
    + left. apply map_lookup_filter_None. right. intros x Hx. simplify_eq. naive_solver.
    + right. exists s. split; [|done]. by apply map_lookup_filter_Some.
Qed.

Lemma filed_step m m' : filed m → sess_step m m' → filed m'.
Proof.
  intros Hf Hs k s. destruct Hs as [P ? t m|m o old t Ho|m k' s' Hn|m o old t k' s' Ho _ Hn|u m].
  - rewrite lookup_fmap_Some. intros (x & <- & Hx).
    destruct (later_revoke_where P t x) as [(-> & _) _]. eauto.
  - apply Hf in Ho. rewrite lookup_insert_Some. intros [[? <-]|[? ?]]; simpl; [congruence|eauto].
  - rewrite lookup_insert_Some. naive_solver.
  - apply Hf in Ho. rewrite !lookup_insert_Some.
    intros [[? <-]|(? & [[? <-]|[? ?]])]; simpl; [congruence..|eauto].
  - rewrite map_lookup_filter_Some. naive_solver.
Qed.

Lemma rooted_step m m' : rooted m → sess_step m m' → rooted m'.
Proof.
  intros Hr Hs k s. destruct Hs as [P ? t m|m o old t Ho|m k' s' Hn Hid Hfam _|m o old t k' s' Ho _ Hn Hid Hfam Hu _|u m].
  - rewrite lookup_fmap_Some. intros (x & <- & Hx).
    destruct (later_revoke_where P t x) as [(_ & -> & -> & _) _].
    destruct (Hr _ _ Hx) as (r & Hr' & Hf' & Hu'). exists (revoke_where P t r).
    rewrite lookup_fmap, Hr'. simpl.
    destruct (later_revoke_where P t r) as [(_ & -> & -> & _) _]. done.
  - assert (∀ f r, m !! f = Some r → ∃ r',
      <[o:=set_RevokedAt old (Some t)]> m !! f = Some r' ∧
      Session_FamilyID r' = Session_FamilyID r ∧ Session_UserID r' = Session_UserID r) as Hkept.
    { intros f r Hf. destruct (decide (o = f)) as [->|?]; simplify_map_eq; eauto. }
    rewrite lookup_insert_Some. intros [[<- <-]|[? Hs]]; simpl.
    + destruct (Hr _ _ Ho) as (r & Hrf & ? & ?).
      destruct (Hkept _ _ Hrf) as (r' & ? & ? & ?). exists r'. split_and!; [done|congruence..].
    + destruct (Hr _ _ Hs) as (r & Hrf & ? & ?).
      destruct (Hkept _ _ Hrf) as (r' & ? & ? & ?). exists r'. split_and!; [done|congruence..].
  - rewrite lookup_insert_Some. intros [[<- <-]|[? Hs]].
    + exists s'. rewrite Hfam, lookup_insert_eq. done.
    + destruct (Hr _ _ Hs) as (r & ? & ?). exists r.
      rewrite lookup_insert_ne by congruence. done.
  - assert (∀ f r, m !! f = Some r → ∃ r',
      <[k':=s']> (<[o:=set_RevokedAt old (Some t)]> m) !! f = Some r' ∧
      Session_FamilyID r' = Session_FamilyID r ∧ Session_UserID r' = Session_UserID r) as Hkept.
    { intros f r Hf. rewrite lookup_insert_ne by congruence.
      destruct (decide (o = f)) as [->|?]; simplify_map_eq; eauto. }
    rewrite !lookup_insert_Some. intros [[<- <-]|(? & [[<- <-]|[? Hs]])]; simpl.
    + destruct (Hr _ _ Ho) as (r & Hrf & ? & ?). rewrite Hfam, Hu.
      destruct (Hkept _ _ Hrf) as (r' & ? & ? & ?). exists r'. split_and!; [done|congruence..].
    + destruct (Hr _ _ Ho) as (r & Hrf & ? & ?).
      destruct (Hkept _ _ Hrf) as (r' & ? & ? & ?). exists r'. split_and!; [done|congruence..].
    + destruct (Hr _ _ Hs) as (r & Hrf & ? & ?).
      destruct (Hkept _ _ Hrf) as (r' & ? & ? & ?). exists r'. split_and!; [done|congruence..].
  - rewrite map_lookup_filter_Some. intros [Hs Hu].
    destruct (Hr _ _ Hs) as (r & ? & ? & ?). exists r.
    split; [|done]. apply map_lookup_filter_Some. simpl in *. split; congruence.
Qed.

Lemma one_live_step m m' : one_live m → rooted m → sess_step m m' → one_live m'.
Proof.
  intros Hl Hr Hs k1 k2 s1 s2.
  destruct Hs as [P ? t m|m o old t Ho|m k' s' Hn Hid Hfam _|m o old t k' s' Ho Hlo Hn Hid Hfam Hu _|u m].
  - rewrite !lookup_fmap_Some. intros (x1 & <- & H1) (x2 & <- & H2).
    destruct (later_revoke_where P t x1) as [(_ & -> & _) L1].
    destruct (later_revoke_where P t x2) as [(_ & -> & _) L2]. eauto.
  - rewrite !lookup_insert_Some. intros [[<- <-]|[? H1]] [[<- <-]|[? H2]] L1 L2; try done. eauto.
  - assert (∀ k s, m !! k = Some s → Session_FamilyID s ≠ k') as Hnew.
    { intros k s Hks Hf. destruct (Hr _ _ Hks) as (r & Hrf & _). congruence. }
    rewrite !lookup_insert_Some. intros [[<- <-]|[? H1]] [[<- <-]|[? H2]] L1 L2 HF;
      [done|exfalso; eapply (Hnew _ _ H2); congruence
      |exfalso; eapply (Hnew _ _ H1); congruence|eauto].
  - assert (∀ k s, m !! k = Some s → live s → o ≠ k →
      Session_FamilyID s ≠ Session_FamilyID old) as Hold.
    { intros k s Hks Hlv Hne HF. apply Hne. eauto. }
    rewrite !lookup_insert_Some.
    intros [[<- <-]|(? & [[<- <-]|[? H1]])] [[<- <-]|(? & [[<- <-]|[? H2]])] L1 L2 HF;
      try done; try by (exfalso; eapply Hold; eauto; congruence). eauto.
  - rewrite !map_lookup_filter_Some. intros [? _] [? _]. eauto.
Qed.

Lemma machine_inv_step m m' : machine_inv m → sess_step m m' → machine_inv m'.
Proof.
  intros [] Hs. split; eauto using one_live_step, rooted_step, filed_step.
Qed.

Lemma machine_inv_steps m m' : machine_inv m → sess_steps m m' → machine_inv m'.
Proof. intros Hm Hs. revert Hm. induction Hs; eauto using machine_inv_step. Qed.

#[export] Hint Resolve machine_inv_empty machine_inv_step machine_inv_steps : cryden.
