(* ===== verification/Logger.v ===== *)
(** * Operational logging (logger/logger.go)

    The [Logger] interface. An implementation maps a call to the lines it
    writes to the process's standard output; the console implementation is in
    ConsoleLogger.v. *)
From S2P Require Import Prelude Errors Runtime.

Inductive LogLevel : Type := LevelDebug | LevelInfo | LevelWarn | LevelError.

#[export] Instance LogLevel_eq_dec : EqDecision LogLevel.
Proof. solve_decision. Defined.

Notation Fields := (gmap string string) (only parsing).

Record Logger : Type := mkLogger {
  Logger_log : LogLevel → string → Fields → St Amb (list string);
}.

Definition Logger_Debug (l : Logger) := Logger_log l LevelDebug.
Definition Logger_Info (l : Logger) := Logger_log l LevelInfo.
Definition Logger_Warn (l : Logger) := Logger_log l LevelWarn.
Definition Logger_Error (l : Logger) := Logger_log l LevelError.

(** One call of the interface, as its implementation receives it. *)
Record LogCall : Type := mkLogCall {
  LogCall_level : LogLevel;
  LogCall_msg : string;
  LogCall_fields : Fields;
}.

(** A log call lets time pass. *)
Class LoggerLaws (l : Logger) : Prop := {
  logger_amb level msg fields a lines a' :
    Logger_log l level msg fields a = (lines, a') → amb_le a a';
}.
