(* ===== verification/ConsoleLogger.v ===== *)
(** * The console logger (logger/console.go)

    One JSON object per line on standard output. The parts of the standard
    library it uses are modelled as they behave: encoding/json's string
    encoding with HTML escaping and UTF-8 validation (Go 1.22), the sorted keys
    of an encoded map, and time's RFC3339 layout in UTC. *)
From S2P Require Import Prelude Errors Runtime Logger.

(** ** encoding/json: strings *)

Definition quote_char : ascii := "034".
Definition backslash : ascii := "092".
Definition newline : ascii := "010".

Definition byte_in (lo hi : N) (c : ascii) : bool :=
  bool_decide (lo ≤ N_of_ascii c)%N && bool_decide (N_of_ascii c ≤ hi)%N.
Definition cont_byte : ascii → bool := byte_in 128 191.

(** The number of continuation bytes of the UTF-8 sequence that starts with [c]
    and goes on with [r]; None when it is not well formed. *)
Definition utf8_tail (c : ascii) (r : string) : option nat :=
  match r with
  | String c1 r1 =>
      if byte_in 194 223 c && cont_byte c1 then Some 1%nat else
      match r1 with
      | String c2 r2 =>
          if ((byte_in 224 224 c && byte_in 160 191 c1)
              || (byte_in 225 236 c && cont_byte c1)
              || (byte_in 237 237 c && byte_in 128 159 c1)
              || (byte_in 238 239 c && cont_byte c1)) && cont_byte c2
          then Some 2%nat else
          match r2 with
          | String c3 _ =>
              if ((byte_in 240 240 c && byte_in 144 191 c1)
                  || (byte_in 241 243 c && cont_byte c1)
                  || (byte_in 244 244 c && byte_in 128 143 c1))
                 && cont_byte c2 && cont_byte c3
              then Some 3%nat else None
          | EmptyString => None
          end
      | EmptyString => None
      end
  | EmptyString => None
  end.

Definition hex_lower (n : N) : ascii :=
  ascii_of_N (if (n <? 10)%N then 48 + n else 87 + n)%N.

(** The encoding of a byte below 0x80. *)
Definition json_ascii (c : ascii) : string :=
  let n := N_of_ascii c in
  if bool_decide (n = 34)%N || bool_decide (n = 92)%N then
    String backslash (String c EmptyString)
  else if bool_decide (n = 8)%N then String backslash "b"
  else if bool_decide (n = 12)%N then String backslash "f"
  else if bool_decide (n = 10)%N then String backslash "n"
  else if bool_decide (n = 13)%N then String backslash "r"
  else if bool_decide (n = 9)%N then String backslash "t"
  else if bool_decide (n < 32)%N || bool_decide (n = 60)%N
          || bool_decide (n = 62)%N || bool_decide (n = 38)%N then
    String backslash ("u00" +:+ String (hex_lower (n / 16)) (String (hex_lower (n mod 16)) EmptyString))
  else String c EmptyString.

(** U+2028 and U+2029, which JSON escapes: E2 80 A8 and E2 80 A9. *)
Definition line_separator (c : ascii) (r : string) : option string :=
  match r with
  | String c1 (String c2 _) =>
      if byte_in 226 226 c && byte_in 128 128 c1 && byte_in 168 168 c2 then
        Some (String backslash "u2028")
      else if byte_in 226 226 c && byte_in 128 128 c1 && byte_in 169 169 c2 then
        Some (String backslash "u2029")
      else None
  | _ => None
  end.

(** The body of a JSON string. [copy] bytes of a well-formed UTF-8 sequence are
    still to be copied, [drop] bytes of an escaped one to be skipped. *)
Fixpoint json_escape (copy drop : nat) (s : string) : string :=
  match s with
  | EmptyString => EmptyString
  | String c r =>
      match drop, copy with
      | S drop, _ => json_escape 0 drop r
      | O, S copy => String c (json_escape copy 0 r)
      | O, O =>
          if bool_decide (N_of_ascii c < 128)%N then json_ascii c +:+ json_escape 0 0 r
          else match line_separator c r with
               | Some e => e +:+ json_escape 0 2 r
               | None =>
                   match utf8_tail c r with
                   | Some n => String c (json_escape n 0 r)
                   | None => String backslash "ufffd" +:+ json_escape 0 0 r
                   end
               end
      end
  end.

Definition json_string (s : string) : string :=
  String quote_char EmptyString +:+ json_escape 0 0 s +:+ String quote_char EmptyString.

(** What a string is after encoding/json wrote it and read it back: bytes that are
    not UTF-8 have become U+FFFD. [copy] bytes of a well-formed sequence are still
    to be copied. *)
Fixpoint json_coerce (copy : nat) (s : string) : string :=
  match s with
  | EmptyString => EmptyString
  | String c r =>
      match copy with
      | S copy => String c (json_coerce copy r)
      | O =>
          if bool_decide (N_of_ascii c < 128)%N then String c (json_coerce 0 r)
          else match utf8_tail c r with
               | Some n => String c (json_coerce n r)
               | None => String "239" (String "191" (String "189" (json_coerce 0 r)))
               end
      end
  end.

(** ** encoding/json: a map with string keys, keys in order *)

Definition key_before (p q : string * string) : Prop := String.leb p.1 q.1 = true.

#[export] Instance key_before_dec : RelDecision key_before.
Proof. unfold RelDecision, key_before. apply _. Defined.

Definition json_member (p : string * string) : string :=
  json_string p.1 +:+ ":" +:+ json_string p.2.

Definition json_members (m : gmap string string) : list (string * string) :=
  merge_sort key_before (map_to_list m).

Definition json_map (m : gmap string string) : string :=
  "{" +:+ String.concat "," (json_member <$> json_members m) +:+ "}".

(** ** time: RFC3339 in UTC *)

(** [n] in decimal, padded with zeros to [width]. *)
Fixpoint digits (width : nat) (n : Z) : string :=
  match width with
  | O => EmptyString
  | S width => digits width (n / 10) +:+ String (ascii_of_N (48 + Z.to_N (n mod 10))) EmptyString
  end.

(** The number of decimal digits of [n]; the fuel is at least the digits [n] has. *)
Fixpoint digit_count (fuel : nat) (n : Z) : nat :=
  match fuel with
  | O => 1
  | S fuel => if bool_decide (n < 10) then 1 else S (digit_count fuel (n / 10))
  end.

(** A year as [time] prints it: a sign if negative, at least four digits. *)
Definition year_digits (y : Z) : string :=
  (if bool_decide (y < 0) then "-" else EmptyString) +:+
  digits (Nat.max 4 (digit_count (Z.to_nat (Z.log2 (Z.abs y))) (Z.abs y))) (Z.abs y).

(** Year, month and day of a day counted from the Unix epoch. *)
Definition civil (days : Z) : Z * Z * Z :=
  let z := days + 719468 in
  let era := z / 146097 in
  let doe := z mod 146097 in
  let yoe := (doe - doe / 1460 + doe / 36524 - doe / 146096) / 365 in
  let doy := doe - (365 * yoe + yoe / 4 - yoe / 100) in
  let mp := (5 * doy + 2) / 153 in
  let d := doy - (153 * mp + 2) / 5 + 1 in
  let m := if bool_decide (mp < 10) then mp + 3 else mp - 9 in
  (yoe + era * 400 + (if bool_decide (m ≤ 2) then 1 else 0), m, d).

Definition format_RFC3339 (t : time) : string :=
  let secs := t / Second in
  let '(y, m, d) := civil (secs / 86400) in
  let sod := secs mod 86400 in
  year_digits y +:+ "-" +:+ digits 2 m +:+ "-" +:+ digits 2 d +:+ "T" +:+
  digits 2 (sod / 3600) +:+ ":" +:+ digits 2 (sod / 60 mod 60) +:+ ":" +:+
  digits 2 (sod mod 60) +:+ "Z".

(** ** The logger *)

Record logLine : Type := mkLogLine {
  logLine_Level : string;
  logLine_Message : string;
  logLine_Fields : gmap string string;
  logLine_Timestamp : string;
}.

Definition level_string (l : LogLevel) : string :=
  match l with
  | LevelDebug => "debug" | LevelInfo => "info"
  | LevelWarn => "warn" | LevelError => "error"
  end.

(** A JSON name with its colon. *)
Definition json_name (name : string) : string := json_string name +:+ ":".

(** json.Marshal of a [logLine]: fields in declaration order, [Fields] left out
    when empty. A struct of strings has no encoding error. *)
Definition json_Marshal (line : logLine) : result string :=
  Ok ("{" +:+ json_name "level" +:+ json_string (logLine_Level line) +:+ "," +:+
      json_name "message" +:+ json_string (logLine_Message line) +:+ "," +:+
      (if bool_decide (logLine_Fields line = ∅) then EmptyString
       else json_name "fields" +:+ json_map (logLine_Fields line) +:+ ",") +:+
      json_name "timestamp" +:+ json_string (logLine_Timestamp line) +:+ "}").

(** What [write] sends to standard output. *)
Definition console_line (l : LogLevel) (msg : string) (fields : gmap string string)
    (now : time) : string :=
  let line := mkLogLine (level_string l) msg fields (format_RFC3339 now) in
  match json_Marshal line with
  | Err _ => level_string l +:+ ": " +:+ msg +:+ String newline EmptyString
  | Ok b => b +:+ String newline EmptyString
  end.

Section console.
Context `{Env}.

Definition ConsoleJSONLogger_write (l : LogLevel) (msg : string)
    (fields : gmap string string) : St Amb (list string) :=
  now ← time_Now;
  mret [console_line l msg fields now].

Definition NewConsoleJSONLogger : Logger := mkLogger ConsoleJSONLogger_write.

#[export] Instance ConsoleJSONLogger_laws : LoggerLaws NewConsoleJSONLogger.
Proof.
  split. intros level msg fields a lines a'. simpl.
  unfold ConsoleJSONLogger_write, time_Now, event. st_unfold.
  intros [= _ <-]. unfold amb_le; simpl. lia.
Qed.

End console.

Example rfc3339_example : format_RFC3339 (1709210096 * Second) = "2024-02-29T12:34:56Z".
Proof. vm_compute. reflexivity. Qed.

Example rfc3339_epoch : format_RFC3339 0 = "1970-01-01T00:00:00Z".
Proof. vm_compute. reflexivity. Qed.

Example rfc3339_year_zero : format_RFC3339 (- 62167219201 * Second) = "-0001-12-31T23:59:59Z".
Proof. vm_compute. reflexivity. Qed.
