(* ===== verification/RateLimiter.v ===== *)
(** * The rate limiter (security/ratelimiter.go)

    The [RateLimiter] interface and its in-memory implementation: one fixed
    window counter per key, behind a mutex, so [Allow] is one atomic action on
    the map of counters. *)
From S2P Require Import Prelude Errors Runtime.

Record windowCounter : Type := mkWindowCounter {
  windowCounter_count : Z;
  windowCounter_windowEnd : time;
}.

(** The heap of the limiter: its [counters] map. *)
Notation LimiterState := (gmap string windowCounter) (only parsing).

Record RateLimiter : Type := mkRateLimiter {
  RateLimiter_Allow : string → St (LimiterState * Amb) (result bool);
}.

Record InMemoryRateLimiter : Type := mkInMemoryRateLimiter {
  InMemoryRateLimiter_limit : Z;
  InMemoryRateLimiter_window : duration;
}.

Section limiter.
Context `{Env}.

(** The body of [Allow] under the mutex, after [now := time.Now()]. *)
Definition allow_at (r : InMemoryRateLimiter) (key : string) (now : time)
    (counters : LimiterState) : bool * LimiterState :=
  let fresh :=
    mkWindowCounter 1 (time_Add now (InMemoryRateLimiter_window r)) in
  match counters !! key with
  | None => (true, <[key := fresh]> counters)
  | Some c =>
      if time_After now (windowCounter_windowEnd c) then
        (true, <[key := fresh]> counters)
      else if bool_decide (InMemoryRateLimiter_limit r ≤ windowCounter_count c) then
        (false, counters)
      else
        (true, <[key := mkWindowCounter (int64 (windowCounter_count c + 1))
                          (windowCounter_windowEnd c)]> counters)
  end.

Definition InMemoryRateLimiter_Allow (r : InMemoryRateLimiter) (key : string) :
    St (LimiterState * Amb) (result bool) :=
  now ← st_snd time_Now;
  counters ← st_fst st_get;
  let '(ok, counters') := allow_at r key now counters in
  st_fst (st_put counters');;
  mret (Ok ok).

Definition NewInMemoryRateLimiter (limit : Z) (window : duration) : RateLimiter :=
  mkRateLimiter (InMemoryRateLimiter_Allow (mkInMemoryRateLimiter limit window)).

(** ** A history of calls *)

Record Call : Type := mkCall { call_key : string; call_time : time; call_ok : bool }.

(** Calls made one after the other, with the answers and the times they were
    made at. *)
Fixpoint calls (r : InMemoryRateLimiter) (reqs : list (string * time))
    (st : LimiterState) : list Call * LimiterState :=
  match reqs with
  | [] => ([], st)
  | (key, now) :: reqs =>
      let '(ok, st') := allow_at r key now st in
      let '(cs, st'') := calls r reqs st' in
      (mkCall key now ok :: cs, st'')
  end.

Lemma Allow_allow_at r key st a :
  ∃ now a', amb_le a a' ∧ amb_time a' = now ∧
    InMemoryRateLimiter_Allow r key (st, a) =
      (Ok (allow_at r key now st).1, ((allow_at r key now st).2, a')).
Proof.
  set (t := amb_time a + Z.of_N (env_elapsed (amb_step a))).
  exists t, (mkAmb (S (amb_step a)) t).
  split; [unfold amb_le, t; simpl; lia|]. split; [done|].
  unfold InMemoryRateLimiter_Allow; simpl. fold t.
  unfold mbind, St_bind, st_snd, st_fst, time_Now, event, st_get, st_put; simpl. fold t.
  by destruct (allow_at r key t st).
Qed.

End limiter.

(** A call of a limiter lets time pass. *)
Class RateLimiterLaws (r : RateLimiter) : Prop := {
  limiter_amb key l a ok l' a' :
    RateLimiter_Allow r key (l, a) = (ok, (l', a')) → amb_le a a';
}.

#[export] Instance InMemoryRateLimiter_laws `{Env} limit window :
  RateLimiterLaws (NewInMemoryRateLimiter limit window).
Proof.
  split. intros key l a ok l' a'. simpl.
  destruct (Allow_allow_at (mkInMemoryRateLimiter limit window) key l a)
    as (now & a'' & ? & _ & ->). congruence.
Qed.
