(* ===== verification/World.v ===== *)
(** * The state of a running engine

    What the goroutines of a process share: the heap of the stores, the rate
    limiter's counters, the ambient state, and what the engine has sent out
    (log calls and the lines they produced, e-mails). Each lifting makes one
    atomic action of a component an action on the world. *)
From S2P Require Import Prelude Errors Runtime Logger RateLimiter Store.

Record World (S : Type) : Type := mkWorld {
  w_store : S;
  w_limiter : LimiterState;
  w_amb : Amb;
  w_log : list LogCall;
  w_out : list string;
  w_mail : list (string * string);
}.
Arguments mkWorld {S} _ _ _ _ _ _.
Arguments w_store {S} _.
Arguments w_limiter {S} _.
Arguments w_amb {S} _.
Arguments w_log {S} _.
Arguments w_out {S} _.
Arguments w_mail {S} _.

Section world.
Context {S : Type}.

Implicit Types (w : World S).

Definition with_store w (s : S) (a : Amb) : World S :=
  mkWorld s (w_limiter w) a (w_log w) (w_out w) (w_mail w).
Definition with_limiter w (l : LimiterState) (a : Amb) : World S :=
  mkWorld (w_store w) l a (w_log w) (w_out w) (w_mail w).
Definition with_amb w (a : Amb) : World S :=
  mkWorld (w_store w) (w_limiter w) a (w_log w) (w_out w) (w_mail w).
Definition with_log w (c : LogCall) (lines : list string) (a : Amb) : World S :=
  mkWorld (w_store w) (w_limiter w) a (w_log w ++ [c]) (w_out w ++ lines) (w_mail w).
Definition with_mail w (m : string * string) (a : Amb) : World S :=
  mkWorld (w_store w) (w_limiter w) a (w_log w) (w_out w) (w_mail w ++ [m]).

(** One call of a store. *)
Definition on_store {A} (op : Op S A) : Prog (World S) A := act (λ w,
  let '(r, (s, a)) := op (w_store w, w_amb w) in (r, with_store w s a)).

Definition on_limiter {A} (op : St (LimiterState * Amb) A) : Prog (World S) A := act (λ w,
  let '(r, (l, a)) := op (w_limiter w, w_amb w) in (r, with_limiter w l a)).

Definition on_amb {A} (op : St Amb A) : Prog (World S) A := act (λ w,
  let '(r, a) := op (w_amb w) in (r, with_amb w a)).

Definition on_log (op : St Amb (list string)) (c : LogCall) : Prog (World S) () := act (λ w,
  let '(lines, a) := op (w_amb w) in ((), with_log w c lines a)).

Definition log_Info (l : Logger) (msg : string) (fields : gmap string string) :=
  on_log (Logger_Info l msg fields) (mkLogCall LevelInfo msg fields).
Definition log_Warn (l : Logger) (msg : string) (fields : gmap string string) :=
  on_log (Logger_Warn l msg fields) (mkLogCall LevelWarn msg fields).
Definition log_Error (l : Logger) (msg : string) (fields : gmap string string) :=
  on_log (Logger_Error l msg fields) (mkLogCall LevelError msg fields).

(** An implementation of notify.EmailSender: its answer to [SendVerification];
    the world records what it was asked to deliver. *)
Record EmailSender : Type := mkEmailSender {
  EmailSender_SendVerification : string → string → St Amb (result ());
}.

(** A call of a sender lets time pass. *)
Class EmailSenderLaws (sender : EmailSender) : Prop := {
  sender_amb to raw a r a' :
    EmailSender_SendVerification sender to raw a = (r, a') → amb_le a a';
}.

Definition send_mail (sender : EmailSender) (to rawToken : string) :
    Prog (World S) (result ()) := act (λ w,
  let '(r, a) := EmailSender_SendVerification sender to rawToken (w_amb w) in
  (r, with_mail w (to, rawToken) a)).

End world.
