(* ===== verification/Memory.v ===== *)
(** * The in-memory stores (store/memory)

    Four stores, each a map or slice behind a mutex; their common heap is
    [MemHeap]. Every method is one atomic action: it holds the mutex from its
    first to its last line (Mutex.v has the statements, MutexTheorems.v shows that they
    amount to this). Loops that range over a map follow the order the
    [Env] picks. *)
From S2P Require Import Prelude Errors Runtime Store.

Record MemHeap : Type := mkMemHeap {
  mem_users : gmap string User;             (* UserStore.byID *)
  mem_sessions : gmap string Session;       (* SessionStore.byID *)
  mem_events : list AuditEvent;             (* AuditStore.events *)
  mem_tokens : gmap string VerificationToken; (* VerificationStore.byID *)
}.

(** The heap after the four constructors [NewUserStore], [NewSessionStore],
    [NewAuditStore] and [NewVerificationStore]. *)
Definition NewMemHeap : MemHeap := mkMemHeap ∅ ∅ [] ∅.

Definition set_users (m : gmap string User) (h : MemHeap) : MemHeap :=
  mkMemHeap m (mem_sessions h) (mem_events h) (mem_tokens h).
Definition set_sessions (m : gmap string Session) (h : MemHeap) : MemHeap :=
  mkMemHeap (mem_users h) m (mem_events h) (mem_tokens h).
Definition set_events (l : list AuditEvent) (h : MemHeap) : MemHeap :=
  mkMemHeap (mem_users h) (mem_sessions h) l (mem_tokens h).
Definition set_tokens (m : gmap string VerificationToken) (h : MemHeap) : MemHeap :=
  mkMemHeap (mem_users h) (mem_sessions h) (mem_events h) m.

(** The first entry of a range that satisfies a test, the loop
    [for _, v := range m { if ... { return v, nil } }]. *)
Definition range_find {V} (P : V → bool) (entries : list (string * V)) : option V :=
  snd <$> head (filter (λ p, P p.2 = true) entries).

(** The loop [for id, sess := range s.byID { if P(sess) { sess.RevokedAt = &now;
    s.byID[id] = sess } }]. *)
Definition range_revoke (P : Session → bool) (now : time)
    (entries : list (string * Session)) (m : gmap string Session) : gmap string Session :=
  foldl (λ m '(id, sess),
    if P sess && bool_decide (Session_RevokedAt sess = None)
    then <[id := set_RevokedAt sess (Some now)]> m else m) m entries.

Section memory.
Context `{Env}.

Definition clock {S} : Op S time := st_snd time_Now.
Definition heap {S} : Op S S := st_fst st_get.
Definition update {S} (f : S → S) : Op S () := st_fst (st_modify f).
Definition range_of {S V} (m : gmap string V) : Op S (list (string * V)) :=
  st_snd (go_range m).

(** ** UserStore (store/memory/user_store.go) *)

Definition MemUserStore_Create (user : User) : Op MemHeap (result ()) :=
  now ← clock;
  h ← heap;
  update (set_users (<[User_ID user := set_UserTimes user now now]> (mem_users h)));;
  mret (Ok ()).

Definition MemUserStore_GetByEmail (email : string) : Op MemHeap (result User) :=
  h ← heap;
  entries ← range_of (mem_users h);
  match range_find (λ u, bool_decide (User_Email u = email)) entries with
  | Some u => mret (Ok u)
  | None => mret (Err ErrNotFound)
  end.

Definition MemUserStore_GetByID (id : string) : Op MemHeap (result User) :=
  h ← heap;
  match mem_users h !! id with
  | None => mret (Err ErrNotFound)
  | Some u => mret (Ok u)
  end.

Definition MemUserStore_UpdateEmail (id newEmail : string) : Op MemHeap (result ()) :=
  h ← heap;
  match mem_users h !! id with
  | None => mret (Err ErrNotFound)
  | Some u =>
      now ← clock;
      update (set_users (<[id := set_Email u newEmail now]> (mem_users h)));;
      mret (Ok ())
  end.

Definition MemUserStore_UpdatePasswordHash (id newHash : string) : Op MemHeap (result ()) :=
  h ← heap;
  match mem_users h !! id with
  | None => mret (Err ErrNotFound)
  | Some u =>
      now ← clock;
      update (set_users (<[id := set_PasswordHash u newHash now]> (mem_users h)));;
      mret (Ok ())
  end.

Definition MemUserStore_Delete (id : string) : Op MemHeap (result ()) :=
  h ← heap;
  match mem_users h !! id with
  | None => mret (Err ErrNotFound)
  | Some _ => update (set_users (delete id (mem_users h)));; mret (Ok ())
  end.

Definition MemUserStore_IncrementFailedAttempts (id : string) : Op MemHeap (result Z) :=
  h ← heap;
  match mem_users h !! id with
  | None => mret (Err ErrNotFound)
  | Some u =>
      let u := set_FailedAttempts u (int64 (User_FailedAttempts u + 1)) in
      update (set_users (<[id := u]> (mem_users h)));;
      mret (Ok (User_FailedAttempts u))
  end.

Definition MemUserStore_ResetFailedAttempts (id : string) : Op MemHeap (result ()) :=
  h ← heap;
  match mem_users h !! id with
  | None => mret (Err ErrNotFound)
  | Some u =>
      let u := set_LockedUntil (set_FailedAttempts u 0) None in
      update (set_users (<[id := u]> (mem_users h)));;
      mret (Ok ())
  end.

Definition MemUserStore_LockAccount (id : string) (until : time) : Op MemHeap (result ()) :=
  h ← heap;
  match mem_users h !! id with
  | None => mret (Err ErrNotFound)
  | Some u =>
      update (set_users (<[id := set_LockedUntil u (Some until)]> (mem_users h)));;
      mret (Ok ())
  end.

Definition MemUserStore : UserStore MemHeap :=
  mkUserStore _ MemUserStore_Create MemUserStore_GetByEmail MemUserStore_GetByID
    MemUserStore_UpdateEmail MemUserStore_UpdatePasswordHash MemUserStore_Delete
    MemUserStore_IncrementFailedAttempts MemUserStore_ResetFailedAttempts
    MemUserStore_LockAccount.

(** ** SessionStore (store/memory/session_store.go) *)

Definition MemSessionStore_Create (sess : Session) : Op MemHeap (result ()) :=
  now ← clock;
  h ← heap;
  update (set_sessions
    (<[Session_ID sess := set_SessionCreatedAt sess now]> (mem_sessions h)));;
  mret (Ok ()).

Definition MemSessionStore_GetByID (sessionID : string) : Op MemHeap (result Session) :=
  h ← heap;
  match mem_sessions h !! sessionID with
  | None => mret (Err ErrNotFound)
  | Some sess => mret (Ok sess)
  end.

Definition MemSessionStore_GetByTokenHash (tokenHash : string) :
    Op MemHeap (result Session) :=
  h ← heap;
  entries ← range_of (mem_sessions h);
  match range_find (λ s, bool_decide (Session_TokenHash s = tokenHash)) entries with
  | Some sess => mret (Ok sess)
  | None => mret (Err ErrNotFound)
  end.

Definition MemSessionStore_ListByUser (userID : string) :
    Op MemHeap (result (list Session)) :=
  h ← heap;
  entries ← range_of (mem_sessions h);
  mret (Ok (filter (λ s, Session_UserID s = userID ∧ Session_RevokedAt s = None)
              (snd <$> entries))).

Definition MemSessionStore_Revoke (sessionID : string) : Op MemHeap (result ()) :=
  h ← heap;
  match mem_sessions h !! sessionID with
  | None => mret (Err ErrNotFound)
  | Some sess =>
      now ← clock;
      update (set_sessions (<[sessionID := set_RevokedAt sess (Some now)]> (mem_sessions h)));;
      mret (Ok ())
  end.

Definition MemSessionStore_RevokeFamily (familyID : string) : Op MemHeap (result ()) :=
  now ← clock;
  h ← heap;
  entries ← range_of (mem_sessions h);
  update (set_sessions (range_revoke (λ s, bool_decide (Session_FamilyID s = familyID))
    now entries (mem_sessions h)));;
  mret (Ok ()).

Definition MemSessionStore_RevokeAllForUser (userID : string) : Op MemHeap (result ()) :=
  now ← clock;
  h ← heap;
  entries ← range_of (mem_sessions h);
  update (set_sessions (range_revoke (λ s, bool_decide (Session_UserID s = userID))
    now entries (mem_sessions h)));;
  mret (Ok ()).

Definition MemSessionStore_RotateToken (oldSessionID : string) (newSession : Session) :
    Op MemHeap (result ()) :=
  h ← heap;
  match mem_sessions h !! oldSessionID with
  | None => mret (Err ErrNotFound)
  | Some old =>
      now ← clock;
      let m := <[oldSessionID := set_RevokedAt old (Some now)]> (mem_sessions h) in
      update (set_sessions (<[Session_ID newSession := set_SessionCreatedAt newSession now]> m));;
      mret (Ok ())
  end.

Definition MemSessionStore : SessionStore MemHeap :=
  mkSessionStore _ MemSessionStore_Create MemSessionStore_GetByID
    MemSessionStore_GetByTokenHash MemSessionStore_ListByUser MemSessionStore_Revoke
    MemSessionStore_RevokeFamily MemSessionStore_RevokeAllForUser
    MemSessionStore_RotateToken.

(** ** AuditStore (store/memory/audit_store.go) *)

Definition MemAuditStore_Record (event : AuditEvent) : Op MemHeap (result ()) :=
  now ← clock;
  h ← heap;
  update (set_events (mem_events h ++ [set_EventCreatedAt event now]));;
  mret (Ok ()).

(** The loop of [ListByUser], [events] from the last to the first. *)
Fixpoint list_loop (userID : string) (limit : Z) (events out : list AuditEvent) :
    list AuditEvent :=
  match events with
  | [] => out
  | e :: events =>
      if bool_decide (Z.of_nat (length out) < limit) then
        list_loop userID limit events
          (if bool_decide (AuditEvent_UserID e = userID) then out ++ [e] else out)
      else out
  end.

Definition MemAuditStore_ListByUser (userID : string) (limit : Z) :
    Op MemHeap (result (list AuditEvent)) :=
  h ← heap;
  mret (Ok (list_loop userID limit (reverse (mem_events h)) [])).

Definition MemAuditStore : AuditStore MemHeap :=
  mkAuditStore _ MemAuditStore_Record MemAuditStore_ListByUser.

(** ** VerificationStore (store/memory/verification_store.go) *)

Definition MemVerificationStore_Create (vt : VerificationToken) : Op MemHeap (result ()) :=
  now ← clock;
  h ← heap;
  update (set_tokens (<[VerificationToken_ID vt := set_TokenCreatedAt vt now]> (mem_tokens h)));;
  mret (Ok ()).

Definition MemVerificationStore_GetByTokenHash (tokenHash : string) :
    Op MemHeap (result VerificationToken) :=
  h ← heap;
  entries ← range_of (mem_tokens h);
  match range_find (λ vt, bool_decide (VerificationToken_TokenHash vt = tokenHash)) entries with
  | Some vt => mret (Ok vt)
  | None => mret (Err ErrNotFound)
  end.

Definition MemVerificationStore_MarkUsed (id : string) : Op MemHeap (result ()) :=
  h ← heap;
  match mem_tokens h !! id with
  | None => mret (Err ErrNotFound)
  | Some vt =>
      now ← clock;
      update (set_tokens (<[id := set_UsedAt vt (Some now)]> (mem_tokens h)));;
      mret (Ok ())
  end.

Definition MemVerificationStore : VerificationStore MemHeap :=
  mkVerificationStore _ MemVerificationStore_Create MemVerificationStore_GetByTokenHash
    MemVerificationStore_MarkUsed.

End memory.
