(* ===== verification/MemoryContract.v ===== *)
(** * The in-memory stores implement the contract

    The heap represents the view of its four containers; identifiers are kept as
    they are, a method fails only for a missing record, and nothing enforces
    unique keys. *)
From S2P Require Import Prelude Errors Runtime Store StoreSpec Memory.

(** Every record is filed under its own ID. *)
Record mem_inv (h : MemHeap) : Prop := {
  mem_inv_users k u : mem_users h !! k = Some u → User_ID u = k;
  mem_inv_sessions k s : mem_sessions h !! k = Some s → Session_ID s = k;
  mem_inv_tokens k vt : mem_tokens h !! k = Some vt → VerificationToken_ID vt = k;
}.

Definition mem_view (h : MemHeap) : View :=
  mkView (mem_users h) (mem_sessions h) (mem_events h) (mem_tokens h).

#[export] Instance MemModel : StoreModel MemHeap := {
  view := mem_view;
  store_inv := mem_inv;
  key := Some;
  strict := false;
  reliable := true;
}.

#[export] Instance Mem_laws : StoreLaws (S:=MemHeap).
Proof.
  split; intros s k x [] Hx; (split; [by eauto|]); done.
Qed.

(** ** The loops *)

Section loops.
Context `{Env}.

Lemma range_find_Some {V} (P : V → bool) n (m : gmap string V) v :
  range_find P (range_order n m) = Some v → ∃ k, m !! k = Some v ∧ P v = true.
Proof.
  unfold range_find. destruct (filter _ _) as [|[k v'] l] eqn:E; [done|].
  intros [= <-]. exists k.
  assert ((k, v') ∈ filter (λ p, P p.2 = true) (range_order n m)) as Hin
    by (rewrite E; left).
  apply list_elem_of_filter in Hin as [? ?%elem_of_range]. done.
Qed.

Lemma range_find_None {V} (P : V → bool) n (m : gmap string V) k v :
  range_find P (range_order n m) = None → m !! k = Some v → P v = false.
Proof.
  unfold range_find. destruct (filter _ _) as [|[k' v'] l] eqn:E; [|done].
  intros _ Hk. apply not_true_is_false. intros HP.
  assert ((k, v) ∈ filter (λ p, P p.2 = true) (range_order n m)) as Hin.
  { apply list_elem_of_filter. split; [done|]. by apply elem_of_range. }
  rewrite E in Hin. set_solver.
Qed.

(** The revoking loop visits each key once, whatever the order. *)
Lemma range_revoke_lookup P now entries (m : gmap string Session) i :
  NoDup entries.*1 →
  range_revoke P now entries m !! i =
    match list_to_map (M:=gmap string Session) entries !! i with
    | Some s => if P s && bool_decide (Session_RevokedAt s = None)
                then Some (set_RevokedAt s (Some now)) else m !! i
    | None => m !! i
    end.
Proof.
  unfold range_revoke. revert m.
  induction entries as [|[k s] entries IH]; intros m Hnd; simpl; [done|].
  apply NoDup_cons in Hnd as [Hk Hnd]. rewrite IH by done.
  destruct (decide (i = k)) as [->|Hne].
  - rewrite lookup_insert_eq, not_elem_of_list_to_map_1 by done.
    destruct (_ && _); by rewrite ?lookup_insert_eq.
  - rewrite lookup_insert_ne by done.
    destruct (list_to_map entries !! i), (P s && _);
      by rewrite ?lookup_insert_ne by done.
Qed.

Lemma range_revoke_spec (P : Session → Prop) `{∀ s, Decision (P s)} now n m :
  range_revoke (λ s, bool_decide (P s)) now (range_order n m) m =
    revoke_where P now <$> m.
Proof.
  apply map_eq. intros i. rewrite range_revoke_lookup.
  2:{ rewrite range_order_perm. apply NoDup_fst_map_to_list. }
  assert (list_to_map (M:=gmap string Session) (range_order n m) = m) as ->.
  { rewrite <- (list_to_map_to_list m) at 2. apply list_to_map_proper.
    - rewrite range_order_perm. apply NoDup_fst_map_to_list.
    - apply range_order_perm. }
  rewrite lookup_fmap. destruct (m !! i) as [s|]; simpl; [|done].
  unfold revoke_where, live. repeat case_decide; repeat case_bool_decide; naive_solver.
Qed.

End loops.

(** ** Running an operation *)

Ltac mem_unfold :=
  unfold clock, heap, update, range_of, go_range, time_Now, event in *; st_unfold.

Ltac mem_run :=
  intros s a r s' a' Hinv; mem_unfold;
  repeat (case_match; mem_unfold); intros [= <- <- <-];
  (split; [|split; [unfold amb_le; simpl; lia|]]).

Ltac mem_inv_tac Hinv :=
  destruct Hinv; split; intros *; simpl;
  rewrite ?lookup_insert_Some, ?lookup_delete_Some; naive_solver.

(** A method that finds nothing. *)
Ltac mem_absent :=
  split; [by left|]; split; [by left|]; split; [|done]; intros _; split; [done|];
  unfold user_exists, session_present, token_present; simpl;
  first [ intros (? & [= <-] & [? ?]) | intros (? & ? & [= <-] & ? & ?) ];
  simpl in *; congruence.

Lemma close_refl t : close t t.
Proof. unfold close, Microsecond. lia. Qed.

#[export] Hint Resolve close_refl : core.

Lemma list_loop_spec u limit events out :
  list_loop u limit events out =
    out ++ take (Z.to_nat (limit - Z.of_nat (length out)))
             (filter (λ e, AuditEvent_UserID e = u) events).
Proof.
  revert out. induction events as [|e events IH]; intros out; simpl.
  { by rewrite filter_nil, take_nil, app_nil_r. }
  case_bool_decide as Hl.
  - rewrite IH, filter_cons. case_bool_decide as Hu; case_decide; try done.
    rewrite length_app. simpl.
    replace (Z.to_nat (limit - Z.of_nat (length out)))
      with (S (Z.to_nat (limit - Z.of_nat (length out + 1)))) by lia.
    simpl. by rewrite <- (assoc_L (++)).
  - replace (Z.to_nat (limit - Z.of_nat (length out))) with 0%nat by lia.
    by rewrite app_nil_r.
Qed.

Section contract.
Context `{Env}.

#[export] Instance MemUserStore_contract : UserContract MemUserStore.
Proof.
  split; intros *; simpl.
  - unfold MemUserStore_Create. mem_run; [mem_inv_tac Hinv|].
    eexists _, _, _. split; [done|]. split; [done|]. done.
  - unfold MemUserStore_GetByEmail. mem_run; try done.
    all: split; [done|].
    + apply range_find_Some in H0 as (k & Hk & ?%bool_decide_eq_true).
      by rewrite (mem_inv_users _ Hinv _ _ Hk).
    + split; [by left|]. split; [|done]. intros _ k u Hk.
      by eapply range_find_None, bool_decide_eq_false in H0.
  - unfold MemUserStore_GetByID. mem_run; try done.
    all: split; [done|]; simpl.
    + by rewrite (mem_inv_users _ Hinv _ _ H0).
    + split; [by left|]. split; [|done]. intros _ (k & [= <-] & [u Hu]). simpl in *. congruence.
  - unfold MemUserStore_UpdateEmail. mem_run; try done; [mem_inv_tac Hinv| |mem_absent].
    split; [|done]. eexists _, _, _. repeat split; [done|by eexists].
  - unfold MemUserStore_UpdatePasswordHash.
    mem_run; try done; [mem_inv_tac Hinv| |mem_absent].
    eexists _, _, _. repeat split; [done|by eexists].
  - unfold MemUserStore_Delete. mem_run; try done; [mem_inv_tac Hinv| |mem_absent].
    eexists. repeat split; by eexists.
  - unfold MemUserStore_IncrementFailedAttempts.
    mem_run; try done; [mem_inv_tac Hinv| |mem_absent].
    eexists _, _, _. repeat split; done.
  - unfold MemUserStore_ResetFailedAttempts.
    mem_run; try done; [mem_inv_tac Hinv| |mem_absent].
    eexists _, _, _. repeat split; done.
  - unfold MemUserStore_LockAccount.
    mem_run; try done; [mem_inv_tac Hinv| |mem_absent].
    eexists _, _, _. repeat split; [done|by eexists].
Qed.

#[export] Instance MemSessionStore_contract : SessionContract MemSessionStore.
Proof.
  split; intros *; simpl.
  - unfold MemSessionStore_Create. mem_run; [mem_inv_tac Hinv|].
    eexists _, _, _, _. by repeat split.
  - unfold MemSessionStore_GetByID. mem_run; try done.
    all: split; [done|]; simpl.
    + by rewrite (mem_inv_sessions _ Hinv _ _ H0).
    + split; [by left|]. split; [|done]. by intros _ k [= <-].
  - unfold MemSessionStore_GetByTokenHash. mem_run; try done.
    all: split; [done|].
    + apply range_find_Some in H0 as (k & Hk & ?%bool_decide_eq_true).
      by rewrite (mem_inv_sessions _ Hinv _ _ Hk).
    + split; [by left|]. split; [|done]. intros _ k u Hk.
      by eapply range_find_None, bool_decide_eq_false in H0.
  - unfold MemSessionStore_ListByUser. mem_run; [done|]. split; [done|].
    unfold active_of, live. simpl.
    rewrite <- (range_order_perm (amb_step a) (mem_sessions s)).
    erewrite list_filter_iff; [done|]. intros x; simpl. naive_solver.
  - unfold MemSessionStore_Revoke. mem_run; try done; [mem_inv_tac Hinv| |mem_absent].
    eexists _, _, _. by repeat split.
  - unfold MemSessionStore_RevokeFamily. mem_run; rewrite range_revoke_spec.
    + destruct Hinv; split; simpl; [done| |done]. intros k s' (x & <- & Hx)%lookup_fmap_Some.
      unfold revoke_where. case_decide; simpl; eauto.
    + by eexists _, _.
  - unfold MemSessionStore_RevokeAllForUser. mem_run; rewrite range_revoke_spec.
    + destruct Hinv; split; simpl; [done| |done]. intros k s' (x & <- & Hx)%lookup_fmap_Some.
      unfold revoke_where. case_decide; simpl; eauto.
    + by eexists _, _.
  - unfold MemSessionStore_RotateToken.
    mem_run; try done; [mem_inv_tac Hinv| |mem_absent].
    eexists _, _, _, _, _, _, _. by repeat split.
Qed.

#[export] Instance MemAuditStore_contract : AuditContract MemAuditStore.
Proof.
  split; intros *; simpl.
  - unfold MemAuditStore_Record. mem_run; [by destruct Hinv|].
    eexists. split; [|done]. split; [|done]. repeat split; simpl. case_bool_decide; congruence.
  - unfold MemAuditStore_ListByUser. mem_run; [done|]. split; [done|]. exists user. split; [done|].
    intros _. rewrite list_loop_spec, app_nil_l. simpl length. rewrite Z.sub_0_r.
    eexists (drop (Z.to_nat limit) _). rewrite take_drop, length_take. split; [|lia].
    by rewrite reverse_Permutation.
Qed.

#[export] Instance MemVerificationStore_contract : VerificationContract MemVerificationStore.
Proof.
  split; intros *; simpl.
  - unfold MemVerificationStore_Create. mem_run; [mem_inv_tac Hinv|].
    eexists _, _, _, _. split_and!; [done|done|apply close_refl|done|done].
  - unfold MemVerificationStore_GetByTokenHash. mem_run; try done.
    all: split; [done|].
    + apply range_find_Some in H0 as (k & Hk & ?%bool_decide_eq_true).
      by rewrite (mem_inv_tokens _ Hinv _ _ Hk).
    + split; [by left|]. split; [|done]. intros _ k u Hk.
      by eapply range_find_None, bool_decide_eq_false in H0.
  - unfold MemVerificationStore_MarkUsed.
    mem_run; try done; [mem_inv_tac Hinv| |mem_absent].
    eexists _, _, _. by repeat split.
Qed.

End contract.
