(* ===== verification/Postgres.v ===== *)
(** * The PostgreSQL stores (store/postgres, migration 0001)

    The four tables of the schema with their primary keys, unique and foreign
    keys, and every method of the stores as the SQL statement it sends. A
    statement runs atomically on the server and may be answered by a fault of the
    connection, before or after it took effect ([env_db_fault]). What the server
    does with text it is given for a UUID, a text or a timestamp column are
    parameters. A transaction is one atomic action: its isolation is taken for
    granted, its faults are not. *)
From S2P Require Import Prelude Errors Runtime Store ConsoleLogger.

(** ** The server *)

Class Postgres : Type := {
  pg_uuid_in : string → option string;   (* uuid input: the canonical text *)
  pg_text_ok : string → bool;            (* valid in the database's encoding *)
  pg_timestamptz : time → time;          (* rounding to the column's resolution *)
}.

(** PostgreSQL's documented behaviour: the output of the uuid type is accepted as
    input and stands for itself, timestamps have microsecond resolution. *)
Class PostgresLaws `{Postgres} : Prop := {
  pg_uuid_canonical s u : pg_uuid_in s = Some u → pg_uuid_in u = Some u;
  pg_timestamptz_close t : t - Microsecond ≤ pg_timestamptz t ∧ pg_timestamptz t ≤ t + Microsecond;
}.

(** ** Tables (0001_initial_schema.up.sql); a nullable column is an option *)

Record users_row : Type := mkUsersRow {
  u_id : string;
  u_email : string;
  u_password_hash : string;
  u_failed_attempts : Z;
  u_locked_until : option time;
  u_created_at : time;
  u_updated_at : time;
}.

Record sessions_row : Type := mkSessionsRow {
  s_id : string;
  s_family_id : string;
  s_user_id : string;
  s_token_hash : string;
  s_ip : option string;
  s_user_agent : option string;
  s_created_at : time;
  s_revoked_at : option time;
}.

Record audit_events_row : Type := mkAuditEventsRow {
  a_id : string;
  a_type : string;
  a_user_id : option string;
  a_ip : option string;
  a_metadata : option (gmap string string);
  a_created_at : time;
}.

Record verification_tokens_row : Type := mkVerificationTokensRow {
  t_id : string;
  t_user_id : string;
  t_purpose : string;
  t_token_hash : string;
  t_new_email : option string;
  t_expires_at : time;
  t_used_at : option time;
  t_created_at : time;
}.

(** Tables by primary key; audit_events in the order of insertion. *)
Record PgHeap : Type := mkPgHeap {
  pg_users : gmap string users_row;
  pg_sessions : gmap string sessions_row;
  pg_audit_events : list audit_events_row;
  pg_verification_tokens : gmap string verification_tokens_row;
}.

Definition NewPgHeap : PgHeap := mkPgHeap ∅ ∅ [] ∅.

Definition pg_set_users (m : gmap string users_row) (h : PgHeap) : PgHeap :=
  mkPgHeap m (pg_sessions h) (pg_audit_events h) (pg_verification_tokens h).
Definition pg_set_sessions (m : gmap string sessions_row) (h : PgHeap) : PgHeap :=
  mkPgHeap (pg_users h) m (pg_audit_events h) (pg_verification_tokens h).
Definition pg_set_audit (l : list audit_events_row) (h : PgHeap) : PgHeap :=
  mkPgHeap (pg_users h) (pg_sessions h) l (pg_verification_tokens h).
Definition pg_set_tokens (m : gmap string verification_tokens_row) (h : PgHeap) : PgHeap :=
  mkPgHeap (pg_users h) (pg_sessions h) (pg_audit_events h) m.

(** Column updates. *)
Definition row_revoke (now : time) (s : sessions_row) : sessions_row :=
  mkSessionsRow (s_id s) (s_family_id s) (s_user_id s) (s_token_hash s) (s_ip s)
    (s_user_agent s) (s_created_at s) (Some now).
Definition row_attempts (n : Z) (u : users_row) : users_row :=
  mkUsersRow (u_id u) (u_email u) (u_password_hash u) n (u_locked_until u)
    (u_created_at u) (u_updated_at u).
Definition row_locked (until : option time) (u : users_row) : users_row :=
  mkUsersRow (u_id u) (u_email u) (u_password_hash u) (u_failed_attempts u) until
    (u_created_at u) (u_updated_at u).
Definition row_email (email : string) (now : time) (u : users_row) : users_row :=
  mkUsersRow (u_id u) email (u_password_hash u) (u_failed_attempts u) (u_locked_until u)
    (u_created_at u) now.
Definition row_password (hash : string) (now : time) (u : users_row) : users_row :=
  mkUsersRow (u_id u) (u_email u) hash (u_failed_attempts u) (u_locked_until u)
    (u_created_at u) now.
Definition row_used (now : time) (t : verification_tokens_row) : verification_tokens_row :=
  mkVerificationTokensRow (t_id t) (t_user_id t) (t_purpose t) (t_token_hash t)
    (t_new_email t) (t_expires_at t) (Some now) (t_created_at t).
Definition row_unlink (k : string) (a : audit_events_row) : audit_events_row :=
  if bool_decide (a_user_id a = Some k) then
    mkAuditEventsRow (a_id a) (a_type a) None (a_ip a) (a_metadata a) (a_created_at a)
  else a.

(** ** Running statements *)

Definition sql_error {A} (msg : string) : result A := Err (ErrExternal msg).

Fixpoint has_nul (s : string) : bool :=
  match s with
  | EmptyString => false
  | String c s => bool_decide (c = "000"%char) || has_nul s
  end.

(** The JSON object of a Go map, as the map that reading it back gives: of two keys
    that have become the same, the later member of the object counts. *)
Definition json_object (m : gmap string string) : gmap string string :=
  list_to_map (reverse ((λ p, (json_coerce 0 p.1, json_coerce 0 p.2)) <$> json_members m)).

(** The first row that satisfies a test. *)
Definition select_one {R} (P : R → bool) (m : gmap string R) : option R :=
  snd <$> head (filter (λ p, P p.2 = true) (map_to_list m)).

Definition exists_row {R} (P : R → bool) (m : gmap string R) : bool :=
  bool_decide (is_Some (select_one P m)).

Section pg.
Context `{Env, Postgres}.

(** A statement: what the server answers and the tables after it, given its
    [now()] and the number of the event; an error leaves the tables alone. *)
Definition Stmt (A : Type) : Type := time → nat → PgHeap → result A * PgHeap.

(** One statement sent to the server outside a transaction. *)
Definition db_run {A} (stmt : Stmt A) : Op PgHeap (result A) := λ '(h, a),
  let '(k, a') := event (λ n _, n) a in
  match env_db_fault k with
  | FaultBefore msg => (Err (ErrExternal msg), (h, a'))
  | NoFault => let '(r, h') := stmt (env_db_now k) k h in (r, (h', a'))
  | FaultAfter msg => let '(_, h') := stmt (env_db_now k) k h in (Err (ErrExternal msg), (h', a'))
  end.

(** A UUID parameter. *)
Definition uuid_param {A} (s : string) (f : string → result A * PgHeap) (h : PgHeap) :
    result A * PgHeap :=
  match pg_uuid_in s with
  | None => (sql_error "pq: invalid input syntax for type uuid", h)
  | Some u => f u
  end.

(** Text parameters. *)
Definition text_params {A} (l : list string) (f : result A * PgHeap) (h : PgHeap) :
    result A * PgHeap :=
  if forallb pg_text_ok l then f
  else (sql_error "pq: invalid byte sequence for encoding", h).

Definition violates {A} (h : PgHeap) : result A * PgHeap :=
  (sql_error "pq: duplicate key value violates unique constraint", h).
Definition violates_fk {A} (h : PgHeap) : result A * PgHeap :=
  (sql_error "pq: insert or update violates foreign key constraint", h).

(** [checkRowsAffected]. *)
Definition checkRowsAffected (result : result Z) : Errors.result () :=
  match result with
  | Err err => Err err
  | Ok n => if bool_decide (n = 0) then Err ErrNotFound else Ok ()
  end.

(** [if errors.Is(err, sql.ErrNoRows) { return store.ErrNotFound }]. *)
Definition no_rows_not_found {A} (r : result A) : result A :=
  match r with
  | Err err => if bool_decide (err = sql_ErrNoRows) then Err ErrNotFound else Err err
  | Ok a => Ok a
  end.

(** Scanning a nullable column into a Go string. *)
Definition scan_string (c : option string) : result string :=
  match c with
  | Some s => Ok s
  | None => sql_error "sql: Scan error: converting NULL to string is unsupported"
  end.

(** ** UserStore (store/postgres/user_store.go) *)

Definition scan_user (u : users_row) : User :=
  mkUser (u_id u) (u_email u) (u_password_hash u) (u_failed_attempts u) (u_locked_until u)
    (u_created_at u) (u_updated_at u).

(** [UPDATE users SET ... WHERE id = $n], the number of rows it changed. *)
Definition update_users (id : string) (f : users_row → users_row) (h : PgHeap) :
    result Z * PgHeap :=
  match pg_users h !! id with
  | None => (Ok 0, h)
  | Some u => (Ok 1, pg_set_users (<[id := f u]> (pg_users h)) h)
  end.

Definition PgUserStore_Create (user : User) : Op PgHeap (result ()) :=
  r ← db_run (λ now _ h,
    uuid_param (User_ID user) (λ id,
    text_params [User_Email user; User_PasswordHash user] (
      if bool_decide (is_Some (pg_users h !! id)) ||
         exists_row (λ u, bool_decide (u_email u = User_Email user)) (pg_users h)
      then violates h
      else (Ok (), pg_set_users (<[id := mkUsersRow id (User_Email user)
              (User_PasswordHash user) 0 None now now]> (pg_users h)) h)) h) h);
  mret r.

Definition PgUserStore_GetByEmail (email : string) : Op PgHeap (result User) :=
  r ← db_run (λ _ _ h, text_params [email] (
    match select_one (λ u, bool_decide (u_email u = email)) (pg_users h) with
    | Some u => (Ok (scan_user u), h)
    | None => (Err sql_ErrNoRows, h)
    end) h);
  mret (no_rows_not_found r).

Definition PgUserStore_GetByID (id : string) : Op PgHeap (result User) :=
  r ← db_run (λ _ _ h, uuid_param id (λ id,
    match pg_users h !! id with
    | Some u => (Ok (scan_user u), h)
    | None => (Err sql_ErrNoRows, h)
    end) h);
  mret (no_rows_not_found r).

Definition PgUserStore_UpdateEmail (id newEmail : string) : Op PgHeap (result ()) :=
  r ← db_run (λ now _ h, text_params [newEmail] (uuid_param id (λ id,
    if bool_decide (is_Some (pg_users h !! id)) &&
       exists_row (λ u, bool_decide (u_email u = newEmail) && bool_decide (u_id u ≠ id)) (pg_users h)
    then violates h
    else update_users id (row_email newEmail now) h) h) h);
  mret (checkRowsAffected r).

Definition PgUserStore_UpdatePasswordHash (id newHash : string) : Op PgHeap (result ()) :=
  r ← db_run (λ now _ h, text_params [newHash] (uuid_param id (λ id,
    update_users id (row_password newHash now) h) h) h);
  mret (checkRowsAffected r).

(** The user's row goes; ON DELETE CASCADE and ON DELETE SET NULL follow. *)
Definition delete_user (id : string) (h : PgHeap) : PgHeap :=
  mkPgHeap (delete id (pg_users h))
    (filter (λ p, s_user_id p.2 ≠ id) (pg_sessions h))
    (row_unlink id <$> pg_audit_events h)
    (filter (λ p, t_user_id p.2 ≠ id) (pg_verification_tokens h)).

Definition PgUserStore_Delete (id : string) : Op PgHeap (result ()) :=
  r ← db_run (λ _ _ h, uuid_param id (λ id,
    if bool_decide (is_Some (pg_users h !! id)) then (Ok 1, delete_user id h)
    else (Ok 0, h)) h);
  mret (checkRowsAffected r).

(** The column is an INT: an increment beyond its range is an error. *)
Definition int4_max : Z := 2 ^ 31 - 1.

Definition PgUserStore_IncrementFailedAttempts (id : string) : Op PgHeap (result Z) :=
  r ← db_run (λ _ _ h, uuid_param id (λ id,
    match pg_users h !! id with
    | None => (Err sql_ErrNoRows, h)
    | Some u =>
        let n := u_failed_attempts u + 1 in
        if bool_decide (int4_max < n) then (sql_error "pq: integer out of range", h)
        else (Ok n, pg_set_users (<[id := row_attempts n u]> (pg_users h)) h)
    end) h);
  mret (no_rows_not_found r).

Definition PgUserStore_ResetFailedAttempts (id : string) : Op PgHeap (result ()) :=
  r ← db_run (λ _ _ h, uuid_param id (λ id,
    update_users id (λ u, row_locked None (row_attempts 0 u)) h) h);
  mret (checkRowsAffected r).

Definition PgUserStore_LockAccount (id : string) (until : time) : Op PgHeap (result ()) :=
  r ← db_run (λ _ _ h, uuid_param id (λ id,
    update_users id (row_locked (Some (pg_timestamptz until))) h) h);
  mret (checkRowsAffected r).

Definition PgUserStore : UserStore PgHeap :=
  mkUserStore _ PgUserStore_Create PgUserStore_GetByEmail PgUserStore_GetByID
    PgUserStore_UpdateEmail PgUserStore_UpdatePasswordHash PgUserStore_Delete
    PgUserStore_IncrementFailedAttempts PgUserStore_ResetFailedAttempts
    PgUserStore_LockAccount.

(** ** SessionStore (store/postgres/session_store.go) *)

Definition scan_session (s : sessions_row) : result Session :=
  ip ← scan_string (s_ip s);
  agent ← scan_string (s_user_agent s);
  Ok (mkSession (s_id s) (s_family_id s) (s_user_id s) (s_token_hash s) ip agent
        (s_created_at s) (s_revoked_at s)).

(** [scanOne]: one row or [store.ErrNotFound]. *)
Definition scanOne (query : PgHeap → result (option sessions_row)) :
    Op PgHeap (result Session) :=
  r ← db_run (λ _ _ h,
    (row ← query h;
     match row with
     | None => Err sql_ErrNoRows
     | Some s => scan_session s
     end, h));
  mret (no_rows_not_found r).

(** [INSERT INTO sessions (id, family_id, user_id, token_hash, ip, user_agent)]. *)
Definition insert_session (sess : Session) (now : time) (h : PgHeap) : result () * PgHeap :=
  uuid_param (Session_ID sess) (λ id,
  uuid_param (Session_FamilyID sess) (λ family,
  uuid_param (Session_UserID sess) (λ user,
  text_params [Session_TokenHash sess; Session_IP sess; Session_UserAgent sess] (
    if bool_decide (is_Some (pg_sessions h !! id)) ||
       exists_row (λ s, bool_decide (s_token_hash s = Session_TokenHash sess)) (pg_sessions h)
    then violates h
    else if bool_decide (is_Some (pg_users h !! user)) then
      (Ok (), pg_set_sessions (<[id := mkSessionsRow id family user (Session_TokenHash sess)
         (Some (Session_IP sess)) (Some (Session_UserAgent sess)) now None]> (pg_sessions h)) h)
    else violates_fk h) h) h) h) h.

Definition PgSessionStore_Create (sess : Session) : Op PgHeap (result ()) :=
  r ← db_run (λ now _ h, insert_session sess now h);
  mret r.

Definition PgSessionStore_GetByID (sessionID : string) : Op PgHeap (result Session) :=
  scanOne (λ h,
    match pg_uuid_in sessionID with
    | None => sql_error "pq: invalid input syntax for type uuid"
    | Some id => Ok (pg_sessions h !! id)
    end).

Definition PgSessionStore_GetByTokenHash (tokenHash : string) : Op PgHeap (result Session) :=
  scanOne (λ h,
    if pg_text_ok tokenHash then
      Ok (select_one (λ s, bool_decide (s_token_hash s = tokenHash)) (pg_sessions h))
    else sql_error "pq: invalid byte sequence for encoding").

(** Scanning the rows of a result set in order, up to the first error. *)
Fixpoint scan_all {R A} (scan : R → result A) (rows : list R) : result (list A) :=
  match rows with
  | [] => Ok []
  | row :: rows => x ← scan row; xs ← scan_all scan rows; Ok (x :: xs)
  end.

Definition newest_first (s s' : sessions_row) : Prop := s_created_at s' ≤ s_created_at s.

#[export] Instance newest_first_dec : RelDecision newest_first.
Proof. unfold RelDecision, newest_first. apply _. Defined.

Definition PgSessionStore_ListByUser (userID : string) : Op PgHeap (result (list Session)) :=
  db_run (λ _ n h, uuid_param userID (λ user,
    (scan_all scan_session (merge_sort newest_first
       (filter (λ s, s_user_id s = user ∧ s_revoked_at s = None)
          (snd <$> range_order n (pg_sessions h)))), h)) h).

(** [UPDATE sessions SET revoked_at = now() WHERE id = $1 AND revoked_at IS NULL]. *)
Definition revoke_session (id : string) (now : time) (h : PgHeap) : result Z * PgHeap :=
  uuid_param id (λ id,
    match pg_sessions h !! id with
    | Some s =>
        if bool_decide (s_revoked_at s = None)
        then (Ok 1, pg_set_sessions (<[id := row_revoke now s]> (pg_sessions h)) h)
        else (Ok 0, h)
    | None => (Ok 0, h)
    end) h.

Definition PgSessionStore_Revoke (sessionID : string) : Op PgHeap (result ()) :=
  r ← db_run (λ now _ h, revoke_session sessionID now h);
  mret (checkRowsAffected r).

(** [UPDATE sessions SET revoked_at = now() WHERE ... AND revoked_at IS NULL]. *)
Definition revoke_rows (P : sessions_row → bool) (now : time) (h : PgHeap) : PgHeap :=
  pg_set_sessions ((λ s, if P s && bool_decide (s_revoked_at s = None)
                         then row_revoke now s else s) <$> pg_sessions h) h.

Definition PgSessionStore_RevokeFamily (familyID : string) : Op PgHeap (result ()) :=
  r ← db_run (λ now _ h, uuid_param familyID (λ family,
    (Ok (), revoke_rows (λ s, bool_decide (s_family_id s = family)) now h)) h);
  mret r.

Definition PgSessionStore_RevokeAllForUser (userID : string) : Op PgHeap (result ()) :=
  r ← db_run (λ now _ h, uuid_param userID (λ user,
    (Ok (), revoke_rows (λ s, bool_decide (s_user_id s = user)) now h)) h);
  mret r.

(** The round trips of a transaction: each is an event that may fail. Inside the
    transaction a lost reply and a lost statement are the same, both end in the
    deferred Rollback; only the answer to Commit may be lost with its effect. *)
Definition tx_event : St Amb (nat * DbFault) := event (λ n _, (n, env_db_fault n)).

Definition tx_failed (f : DbFault) : option string :=
  match f with NoFault => None | FaultBefore msg | FaultAfter msg => Some msg end.

Definition PgSessionStore_RotateToken (oldSessionID : string) (newSession : Session) :
    Op PgHeap (result ()) := λ '(h, a),
  (* tx, err := s.db.BeginTx(ctx, nil) *)
  let '((n, f), a) := tx_event a in
  match tx_failed f with
  | Some msg => (Err (ErrExternal msg), (h, a))
  | None =>
    let now := env_db_now n in
    (* UPDATE sessions SET revoked_at = now() ... *)
    let '((_, f), a) := tx_event a in
    match tx_failed f with
    | Some msg => (Err (ErrExternal msg), (h, a))
    | None =>
      let '(result, h1) := revoke_session oldSessionID now h in
      match checkRowsAffected result with
      | Err err => (Err err, (h, a))
      | Ok _ =>
        (* INSERT INTO sessions ... *)
        let '((_, f), a) := tx_event a in
        match tx_failed f with
        | Some msg => (Err (ErrExternal msg), (h, a))
        | None =>
          let '(inserted, h2) := insert_session newSession now h1 in
          match inserted with
          | Err err => (Err err, (h, a))
          | Ok _ =>
            (* return tx.Commit() *)
            let '((_, f), a) := tx_event a in
            match f with
            | NoFault => (Ok (), (h2, a))
            | FaultBefore msg => (Err (ErrExternal msg), (h, a))
            | FaultAfter msg => (Err (ErrExternal msg), (h2, a))
            end
          end
        end
      end
    end
  end.

Definition PgSessionStore : SessionStore PgHeap :=
  mkSessionStore _ PgSessionStore_Create PgSessionStore_GetByID
    PgSessionStore_GetByTokenHash PgSessionStore_ListByUser PgSessionStore_Revoke
    PgSessionStore_RevokeFamily PgSessionStore_RevokeAllForUser
    PgSessionStore_RotateToken.

(** ** AuditStore (store/postgres/audit_store.go) *)

(** The user column of an event: NULL for an empty ID, else a UUID that must be
    a user's. *)
Definition audit_user (userID : string) (f : option string → result () * PgHeap)
    (h : PgHeap) : result () * PgHeap :=
  if bool_decide (userID = EmptyString) then f None
  else uuid_param userID (λ user,
    if bool_decide (is_Some (pg_users h !! user)) then f (Some user) else violates_fk h) h.

Definition jsonb_ok (m : gmap string string) : bool :=
  forallb (λ p, negb (has_nul p.1) && negb (has_nul p.2)) (map_to_list m).

Definition PgAuditStore_Record (ev : AuditEvent) : Op PgHeap (result ()) :=
  let metadata := json_object <$> AuditEvent_Metadata ev in
  r ← db_run (λ now n h,
    text_params [AuditEvent_Type ev; AuditEvent_IP ev] (
    audit_user (AuditEvent_UserID ev) (λ user,
      if negb (default true (jsonb_ok <$> metadata)) then
        (sql_error "pq: unsupported Unicode escape sequence", h)
      else if bool_decide (env_db_uuid n ∈ (a_id <$> pg_audit_events h)) then violates h
      else (Ok (), pg_set_audit (pg_audit_events h ++ [mkAuditEventsRow (env_db_uuid n)
              (AuditEvent_Type ev) user (Some (AuditEvent_IP ev)) metadata now]) h)) h) h);
  mret r.

Definition scan_event (a : audit_events_row) : result AuditEvent :=
  ip ← scan_string (a_ip a);
  Ok (mkAuditEvent (a_id a) (a_type a) (default EmptyString (a_user_id a)) ip
        (a_metadata a) (a_created_at a)).

Definition newest_event_first (e e' : audit_events_row) : Prop := a_created_at e' ≤ a_created_at e.

#[export] Instance newest_event_first_dec : RelDecision newest_event_first.
Proof. unfold RelDecision, newest_event_first. apply _. Defined.

Definition PgAuditStore_ListByUser (userID : string) (limit : Z) :
    Op PgHeap (result (list AuditEvent)) :=
  db_run (λ _ _ h, uuid_param userID (λ user,
    if bool_decide (limit < 0) then (sql_error "pq: LIMIT must not be negative", h)
    else (scan_all scan_event (take (Z.to_nat limit) (merge_sort newest_event_first
            (filter (λ a, a_user_id a = Some user) (pg_audit_events h)))), h)) h).

Definition PgAuditStore : AuditStore PgHeap :=
  mkAuditStore _ PgAuditStore_Record PgAuditStore_ListByUser.

(** ** VerificationStore (store/postgres/verification_store.go) *)

Definition PgVerificationStore_Create (vt : VerificationToken) : Op PgHeap (result ()) :=
  let newEmail := if bool_decide (VerificationToken_NewEmail vt ≠ EmptyString)
                  then Some (VerificationToken_NewEmail vt) else None in
  r ← db_run (λ now _ h,
    uuid_param (VerificationToken_ID vt) (λ id,
    uuid_param (VerificationToken_UserID vt) (λ user,
    text_params [VerificationToken_Purpose vt; VerificationToken_TokenHash vt;
                 default EmptyString newEmail] (
      if bool_decide (is_Some (pg_verification_tokens h !! id)) ||
         exists_row (λ t, bool_decide (t_token_hash t = VerificationToken_TokenHash vt))
           (pg_verification_tokens h)
      then violates h
      else if bool_decide (is_Some (pg_users h !! user)) then
        (Ok (), pg_set_tokens (<[id := mkVerificationTokensRow id user
           (VerificationToken_Purpose vt) (VerificationToken_TokenHash vt) newEmail
           (pg_timestamptz (VerificationToken_ExpiresAt vt)) None now]>
             (pg_verification_tokens h)) h)
      else violates_fk h) h) h) h);
  mret r.

Definition scan_token (t : verification_tokens_row) : VerificationToken :=
  mkVerificationToken (t_id t) (t_user_id t) (t_purpose t) (t_token_hash t)
    (default EmptyString (t_new_email t)) (t_expires_at t) (t_used_at t) (t_created_at t).

Definition PgVerificationStore_GetByTokenHash (tokenHash : string) :
    Op PgHeap (result VerificationToken) :=
  r ← db_run (λ _ _ h, text_params [tokenHash] (
    match select_one (λ t, bool_decide (t_token_hash t = tokenHash)) (pg_verification_tokens h) with
    | Some t => (Ok (scan_token t), h)
    | None => (Err sql_ErrNoRows, h)
    end) h);
  mret (no_rows_not_found r).

Definition PgVerificationStore_MarkUsed (id : string) : Op PgHeap (result ()) :=
  r ← db_run (λ now _ h, uuid_param id (λ id,
    match pg_verification_tokens h !! id with
    | Some t =>
        if bool_decide (t_used_at t = None)
        then (Ok 1, pg_set_tokens (<[id := row_used now t]> (pg_verification_tokens h)) h)
        else (Ok 0, h)
    | None => (Ok 0, h)
    end) h);
  mret (checkRowsAffected r).

Definition PgVerificationStore : VerificationStore PgHeap :=
  mkVerificationStore _ PgVerificationStore_Create PgVerificationStore_GetByTokenHash
    PgVerificationStore_MarkUsed.

End pg.
