(* ===== verification/PostgresContract.v ===== *)
(** * The PostgreSQL stores implement the contract

    The tables represent the view of their rows. Identifiers are kept in the form
    of the uuid type, primary keys are enforced, a session is revoked and a token
    used at most once, and every statement may end in a fault. *)
From S2P Require Import Prelude Errors Runtime Store StoreSpec ConsoleLogger Postgres.

Section model.
Context `{Postgres}.

Definition view_session (s : sessions_row) : Session :=
  mkSession (s_id s) (s_family_id s) (s_user_id s) (s_token_hash s)
    (default EmptyString (s_ip s)) (default EmptyString (s_user_agent s))
    (s_created_at s) (s_revoked_at s).

Definition view_event (a : audit_events_row) : AuditEvent :=
  mkAuditEvent (a_id a) (a_type a) (default EmptyString (a_user_id a))
    (default EmptyString (a_ip a)) (a_metadata a) (a_created_at a).

Definition pg_view (h : PgHeap) : View :=
  mkView (scan_user <$> pg_users h) (view_session <$> pg_sessions h)
    (view_event <$> pg_audit_events h) (scan_token <$> pg_verification_tokens h).

(** What the schema and the store's own statements guarantee of the rows. *)
Definition user_ok (k : string) (u : users_row) : Prop :=
  u_id u = k ∧ pg_uuid_in k = Some k ∧ 0 ≤ u_failed_attempts u ≤ int4_max.

Definition session_ok (k : string) (s : sessions_row) : Prop :=
  s_id s = k ∧ pg_uuid_in k = Some k ∧ pg_uuid_in (s_family_id s) = Some (s_family_id s) ∧
  pg_uuid_in (s_user_id s) = Some (s_user_id s) ∧ is_Some (s_ip s) ∧ is_Some (s_user_agent s).

Definition token_ok (k : string) (t : verification_tokens_row) : Prop :=
  t_id t = k ∧ pg_uuid_in k = Some k ∧ pg_uuid_in (t_user_id t) = Some (t_user_id t).

Record pg_inv (h : PgHeap) : Prop := {
  pg_inv_users : map_Forall user_ok (pg_users h);
  pg_inv_sessions : map_Forall session_ok (pg_sessions h);
  pg_inv_tokens : map_Forall token_ok (pg_verification_tokens h);
}.

#[export] Instance PgModel : StoreModel PgHeap := {
  view := pg_view;
  store_inv := pg_inv;
  key := pg_uuid_in;
  strict := true;
  reliable := false;
}.

#[export] Instance Pg_laws : StoreLaws (S:=PgHeap).
Proof.
  split; intros h k x [HU HS HT]; simpl; rewrite lookup_fmap_Some; intros (r & <- & Hr).
  - by destruct (HU _ _ Hr) as (? & ? & _).
  - by destruct (HS _ _ Hr) as (? & ? & ? & ? & _).
  - by destruct (HT _ _ Hr) as (? & ? & ?).
Qed.

End model.

(** ** Statements under faults *)

Section statements.
Context `{Env, PostgresLaws}.

(** A statement that keeps the contract of a mutator keeps it under faults. *)
Lemma db_run_mutates {A B} (stmt : Stmt A) (g : result A → result B) present E :
  (∀ now n h r h', pg_inv h → stmt now n h = (r, h') →
     pg_inv h' ∧ mutates present E (pg_view h) (g r) (pg_view h')) →
  (∀ msg, g (Err (ErrExternal msg)) = Err (ErrExternal msg)) →
  sat (r ← db_run stmt; mret (g r)) (mutates present E).
Proof.
  intros Hst Hg h a r h' a' Hi. unfold db_run, event. st_unfold.
  assert (amb_le a (mkAmb (S (amb_step a))
    (amb_time a + Z.of_N (env_elapsed (amb_step a))))) as Hle by (unfold amb_le; simpl; lia).
  assert (∀ msg v v', v' = v ∨ (∃ x, E v x v') →
    mutates present E v (Err (ErrExternal msg)) v') as Hfault.
  { intros msg v v' Hv. split_and!; [done|right; eauto|done|done]. }
  destruct (env_db_fault _) as [|msg|msg].
  - destruct (stmt _ _ h) as [x h1] eqn:Es. intros [= <- <- <-].
    destruct (Hst _ _ _ _ _ Hi Es). done.
  - intros [= <- <- <-]. rewrite Hg. split_and!; [done..|]. apply Hfault. by left.
  - destruct (stmt _ _ h) as [x h1] eqn:Es. intros [= <- <- <-]. rewrite Hg.
    destruct (Hst _ _ _ _ _ Hi Es) as [Hi' HM]. split_and!; [done..|]. apply Hfault.
    destruct (g x); [by right; eexists|]. by destruct HM as [? _].
Qed.

(** The same for queries. *)
Lemma db_run_reads {A B} (stmt : Stmt A) (g : result A → result B) P Q :
  (∀ now n h r h', pg_inv h → stmt now n h = (r, h') →
     h' = h ∧ reads P Q (pg_view h) (g r) (pg_view h)) →
  (∀ msg, g (Err (ErrExternal msg)) = Err (ErrExternal msg)) →
  sat (r ← db_run stmt; mret (g r)) (reads P Q).
Proof.
  intros Hst Hg h a r h' a' Hi. unfold db_run, event. st_unfold.
  assert (amb_le a (mkAmb (S (amb_step a))
    (amb_time a + Z.of_N (env_elapsed (amb_step a))))) as Hle by (unfold amb_le; simpl; lia).
  assert (∀ msg v, reads P Q v (Err (ErrExternal msg)) v) as Hfault.
  { intros msg v. split_and!; [done|right; eauto|done|done]. }
  destruct (env_db_fault _) as [|msg|msg].
  - destruct (stmt _ _ h) as [x h1] eqn:Es. intros [= <- <- <-].
    by destruct (Hst _ _ _ _ _ Hi Es) as [-> ?].
  - intros [= <- <- <-]. by rewrite Hg.
  - destruct (stmt _ _ h) as [x h1] eqn:Es. intros [= <- <- <-]. rewrite Hg.
    by destruct (Hst _ _ _ _ _ Hi Es) as [-> ?].
Qed.

Lemma db_run_reads_direct {A} (stmt : Stmt A) P Q :
  (∀ now n h r h', pg_inv h → stmt now n h = (r, h') →
     h' = h ∧ reads P Q (pg_view h) r (pg_view h)) →
  sat (db_run stmt) (reads P Q).
Proof.
  intros Hst. eapply (db_run_reads stmt (λ r, r)) in Hst; [|done].
  intros h a r h' a' Hi E. apply (Hst h a r h' a' Hi). st_unfold. by rewrite E.
Qed.

(** A statement that was refused. *)
Lemma refused_mutates {A} present (E : View → A → View → Prop) v msg :
  mutates present E v (Err (ErrExternal msg)) v.
Proof. split_and!; [by left|right; eauto|done|done]. Qed.

Lemma refused_reads {A} (P : View → A → Prop) Q v msg : reads P Q v (Err (ErrExternal msg)) v.
Proof. split_and!; [done|right; eauto|done|done]. Qed.

(** A statement that changed no row. *)
Lemma not_found_mutates {A} (present : View → Prop) (E : View → A → View → Prop) v :
  ¬ present v → mutates present E v (Err ErrNotFound) v.
Proof. intros Hp. split_and!; [by left|by left|done|done]. Qed.

(** An effect that says more about the state it started from. *)
Lemma mutates_strengthen {A} present (E E' : View → A → View → Prop) v r v' :
  (∀ x v', E v x v' → E' v x v') → mutates present E v r v' → mutates present E' v r v'.
Proof.
  intros HE. destruct r as [x|e]; simpl; [auto|]. intros ([->|[x ?]] & ? & ? & ?);
    split_and!; try done; [by left|right; eauto].
Qed.

Lemma not_found_reads {A} (P : View → A → Prop) (Q : View → Prop) v :
  Q v → reads P Q v (Err ErrNotFound) v.
Proof. intros HQ. split_and!; [done|by left|done|done]. Qed.

Lemma select_one_Some {R} (P : R → bool) (m : gmap string R) x :
  select_one P m = Some x → ∃ k, m !! k = Some x ∧ P x = true.
Proof.
  unfold select_one. destruct (filter _ _) as [|[k v] l] eqn:E; [done|]. intros [= <-]. exists k.
  assert ((k, v) ∈ filter (λ p, P p.2 = true) (map_to_list m)) as Hin by (rewrite E; left).
  apply list_elem_of_filter in Hin as [? ?%elem_of_map_to_list]. done.
Qed.

Lemma select_one_None {R} (P : R → bool) (m : gmap string R) k x :
  select_one P m = None → m !! k = Some x → P x = false.
Proof.
  unfold select_one. destruct (filter _ _) as [|[k' v'] l] eqn:E; [|done]. intros _ Hk.
  apply not_true_is_false. intros HP.
  assert ((k, x) ∈ filter (λ p, P p.2 = true) (map_to_list m)) as Hin.
  { apply list_elem_of_filter. split; [done|]. by apply elem_of_map_to_list. }
  rewrite E in Hin. by apply not_elem_of_nil in Hin.
Qed.

Lemma exists_row_false {R} (P : R → bool) (m : gmap string R) k x :
  exists_row P m = false → m !! k = Some x → P x = false.
Proof.
  unfold exists_row. intros Hn%bool_decide_eq_false. apply select_one_None.
  destruct (select_one P m) as [y|]; [|done]. destruct Hn. by exists y.
Qed.

(** ** Views of changed tables *)

Lemma view_users_insert k u h :
  pg_view (pg_set_users (<[k := u]> (pg_users h)) h) =
    with_users (pg_view h) (<[k := scan_user u]> (v_users (pg_view h))).
Proof. unfold pg_view, with_users. simpl. by rewrite fmap_insert. Qed.

Lemma view_sessions_insert k s h :
  pg_view (pg_set_sessions (<[k := s]> (pg_sessions h)) h) =
    with_sessions (pg_view h) (<[k := view_session s]> (v_sessions (pg_view h))).
Proof. unfold pg_view, with_sessions. simpl. by rewrite fmap_insert. Qed.

Lemma view_tokens_insert k t h :
  pg_view (pg_set_tokens (<[k := t]> (pg_verification_tokens h)) h) =
    with_tokens (pg_view h) (<[k := scan_token t]> (v_tokens (pg_view h))).
Proof. unfold pg_view, with_tokens. simpl. by rewrite fmap_insert. Qed.

Lemma pg_inv_users_insert k u h :
  pg_inv h → user_ok k u → pg_inv (pg_set_users (<[k := u]> (pg_users h)) h).
Proof. intros [] ?. split; simpl; [|done..]. by apply map_Forall_insert_2. Qed.

Lemma pg_inv_sessions_insert k s h :
  pg_inv h → session_ok k s → pg_inv (pg_set_sessions (<[k := s]> (pg_sessions h)) h).
Proof. intros [] ?. split; simpl; [done| |done]. by apply map_Forall_insert_2. Qed.

Lemma pg_inv_tokens_insert k t h :
  pg_inv h → token_ok k t → pg_inv (pg_set_tokens (<[k := t]> (pg_verification_tokens h)) h).
Proof. intros [] ?. split; simpl; [done..|]. by apply map_Forall_insert_2. Qed.

Lemma lookup_user h k u :
  pg_users h !! k = Some u → v_users (pg_view h) !! k = Some (scan_user u).
Proof. intros Hu. simpl. by rewrite lookup_fmap, Hu. Qed.

Lemma lookup_session h k s :
  pg_sessions h !! k = Some s → v_sessions (pg_view h) !! k = Some (view_session s).
Proof. intros Hs. simpl. by rewrite lookup_fmap, Hs. Qed.

Lemma lookup_token h k t :
  pg_verification_tokens h !! k = Some t → v_tokens (pg_view h) !! k = Some (scan_token t).
Proof. intros Ht. simpl. by rewrite lookup_fmap, Ht. Qed.

(** Parameters that the server refuses, and those it accepts. *)
Lemma uuid_param_elim {A} s (f : string → result A * PgHeap) h r h' :
  uuid_param s f h = (r, h') →
  (h' = h ∧ ∃ msg, r = Err (ErrExternal msg)) ∨
  ∃ u, pg_uuid_in s = Some u ∧ pg_uuid_in u = Some u ∧ f u = (r, h').
Proof.
  unfold uuid_param. destruct (pg_uuid_in s) as [u|] eqn:E; [|intros [= <- <-]; left; eauto].
  right. exists u. split_and!; [done|by eapply pg_uuid_canonical|done].
Qed.

Lemma text_params_elim {A} l (f : result A * PgHeap) h r h' :
  text_params l f h = (r, h') →
  (h' = h ∧ ∃ msg, r = Err (ErrExternal msg)) ∨ f = (r, h').
Proof. unfold text_params. case_match; [by right|]. intros [= <- <-]. left. eauto. Qed.

End statements.

(** Takes a statement apart: refused parameters are closed, accepted ones kept. *)
Ltac refused :=
  first
  [ split; [assumption|]; apply refused_mutates
  | split; [reflexivity|]; apply refused_reads ].

Ltac stmt_params :=
  repeat match goal with
  | E : uuid_param _ _ _ = (_, _) |- _ =>
      apply uuid_param_elim in E as [[-> [? ->]]|(? & ? & ? & E)]; [by refused|]
  | E : text_params _ _ _ = (_, _) |- _ =>
      apply text_params_elim in E as [[-> [? ->]]|E]; [by refused|]
  end.

Ltac mutator :=
  apply db_run_mutates; [|done]; intros now n h r h' Hi E; stmt_params.
Ltac query :=
  apply db_run_reads; [|done]; intros now n h r h' Hi E; stmt_params.

Section users.
Context `{Env, PostgresLaws}.

Lemma user_absent id k h :
  pg_uuid_in id = Some k → pg_users h !! k = None → ¬ user_exists id (pg_view h).
Proof.
  intros Hk Hn (k' & Hk' & [y Hy]). simpl in *. rewrite lookup_fmap in Hy. simplify_eq.
  by rewrite Hn in Hy.
Qed.

Lemma update_users_mutates id k f (F : User → User → Prop) h r h' :
  pg_inv h → pg_uuid_in id = Some k →
  (∀ u, user_ok k u → user_ok k (f u) ∧ F (scan_user u) (scan_user (f u))) →
  update_users k f h = (r, h') →
  pg_inv h' ∧ mutates (user_exists id) (λ v _ v', user_updated id F v v')
    (pg_view h) (checkRowsAffected r) (pg_view h').
Proof.
  intros Hi Hk Hf. unfold update_users. destruct (pg_users h !! k) as [u|] eqn:Hu; intros [= <- <-].
  - destruct (Hf u) as [Hok HF]; [by apply (pg_inv_users _ Hi)|].
    split; [by apply pg_inv_users_insert|]. rewrite view_users_insert.
    exists k, (scan_user u), (scan_user (f u)). split_and!; [done|by apply lookup_user|done..].
  - split; [done|]. apply not_found_mutates. by eapply user_absent.
Qed.

Lemma delete_user_inv k h : pg_inv h → pg_inv (delete_user k h).
Proof.
  intros [HU HS HT]. split; simpl.
  - by apply map_Forall_delete.
  - intros i s [Hs _]%map_lookup_filter_Some. by apply HS.
  - intros i t [Ht _]%map_lookup_filter_Some. by apply HT.
Qed.

Lemma filter_fmap_rows {R V} (f : R → V) (P : string * V → Prop) (Q : string * R → Prop)
    `{∀ p, Decision (P p), ∀ q, Decision (Q q)} (m : gmap string R) :
  (∀ k r, P (k, f r) ↔ Q (k, r)) → f <$> filter Q m = filter P (f <$> m).
Proof.
  intros Hiff. apply map_eq. intros i. apply option_eq. intros x.
  rewrite lookup_fmap_Some, map_lookup_filter_Some, lookup_fmap_Some. split.
  - intros (r & <- & [? ?]%map_lookup_filter_Some). split; [by exists r|]. by apply Hiff.
  - intros ((r & <- & ?) & ?). exists r. split; [done|]. apply map_lookup_filter_Some.
    split; [done|]. by apply Hiff.
Qed.

Lemma list_filter_fmap {R V} (f : R → V) (P : V → Prop) (Q : R → Prop)
    `{∀ x, Decision (P x), ∀ y, Decision (Q y)} (l : list R) :
  (∀ r, P (f r) ↔ Q r) → f <$> filter Q l = filter P (f <$> l).
Proof.
  intros Hiff. induction l as [|r l IH]; [done|]. rewrite fmap_cons, !filter_cons, <- IH.
  specialize (Hiff r). do 2 case_decide; naive_solver.
Qed.

Lemma view_delete_user k h :
  pg_view (delete_user k h) = with_users (cascade k (pg_view h)) (delete k (v_users (pg_view h))).
Proof.
  unfold pg_view, delete_user, with_users, cascade. simpl. f_equal.
  - by rewrite fmap_delete.
  - by apply filter_fmap_rows.
  - rewrite <- !list_fmap_compose. apply list_fmap_ext. intros _ a _. simpl.
    unfold row_unlink, clear_user, view_event. destruct a as [i t [u|] ip m c]; simpl;
      repeat case_bool_decide; simpl; naive_solver.
  - by apply filter_fmap_rows.
Qed.

Lemma PgUserStore_Create_sat id email hash :
  sat (PgUserStore_Create (new_User id email hash))
    (mutates (λ _, True) (λ v _ v', user_created id email hash v v')).
Proof.
  apply (db_run_mutates _ (λ r, r)); [|done]. intros now n h r h' Hi E. stmt_params.
  destruct (_ || _) eqn:Hv; injection E as <- <-; [by refused|].
  apply orb_false_iff in Hv as [Hn%bool_decide_eq_false He].
  split; [apply pg_inv_users_insert; [done|]; split_and!; unfold int4_max; simpl; [done..|lia|lia]|].
  rewrite view_users_insert. exists x, now, now. split_and!; [done| |done]. intros _.
  apply eq_None_not_Some in Hn. simpl. rewrite lookup_fmap, Hn. split; [done|].
  intros k' u'. rewrite lookup_fmap_Some. intros (u & <- & Hu). simpl.
  by apply (exists_row_false _ _ _ _ He), bool_decide_eq_false in Hu.
Qed.

Lemma PgUserStore_UpdateEmail_sat id email :
  sat (PgUserStore_UpdateEmail id email)
    (mutates (user_exists id)
         (λ v _ v', user_updated id (λ u u', ∃ t, u' = set_Email u email t) v v' ∧
            (strict = true → ∀ k u, v_users v !! k = Some u → User_Email u = email →
               key id = Some k))).
Proof.
  mutator. destruct (_ && _) eqn:Hv; [injection E as <- <-; by refused|].
  assert (is_Some (pg_users h !! x) → ∀ k u, v_users (pg_view h) !! k = Some u →
    User_Email u = email → pg_uuid_in id = Some k) as Hfree.
  { intros Hx k u'. simpl. rewrite lookup_fmap_Some. intros (u & <- & Hu) He. simpl in He.
    rewrite bool_decide_true in Hv by done. simpl in Hv.
    pose proof (exists_row_false _ _ _ _ Hv Hu) as Hd.
    cbv beta in Hd. rewrite bool_decide_true in Hd by done.
    apply bool_decide_eq_false, dec_stable in Hd.
    destruct (pg_inv_users _ Hi _ _ Hu). congruence. }
  eapply (update_users_mutates id x (row_email email now)
    (λ u u', ∃ t, u' = set_Email u email t)) in E as [Hi' HM];
    [|done..|intros u (? & ? & ? & ?); split; [by split_and!|by eexists]].
  split; [done|]. eapply mutates_strengthen; [|exact HM].
  intros _ v' (k & u & u' & Hk & Hu & ? & ->). split; [by exists k, u, u'|]. intros _.
  apply Hfree. simpl in Hu. rewrite lookup_fmap_Some in Hu. destruct Hu as (? & _ & ?).
  simpl in Hk. simplify_eq. eauto.
Qed.

Lemma PgUserStore_IncrementFailedAttempts_sat id :
  sat (PgUserStore_IncrementFailedAttempts id)
    (mutates (user_exists id)
         (λ v n v', user_updated id (λ u u', n = int64 (User_FailedAttempts u + 1) ∧
            u' = set_FailedAttempts u n) v v')).
Proof.
  mutator. destruct (pg_users h !! x) as [u|] eqn:Hu.
  - destruct (pg_inv_users _ Hi _ _ Hu) as (? & ? & ?).
    cbv zeta in E. destruct (bool_decide (int4_max < _)) eqn:Hov; injection E as <- <-;
      [by refused|]. apply bool_decide_eq_false in Hov.
    split; [apply pg_inv_users_insert; [done|]; split_and!; simpl; [done..|lia|lia]|].
    rewrite view_users_insert. eexists x, _, _.
    split; [done|]. split; [by apply lookup_user|]. split; [|reflexivity]. split; [|done].
    simpl. rewrite int64_small; [done|].
    unfold int64_min, int64_max, int4_max in *. lia.
  - injection E as <- <-. split; [done|]. apply not_found_mutates. by eapply user_absent.
Qed.

#[export] Instance PgUserStore_contract : UserContract PgUserStore.
Proof.
  split; intros *; simpl.
  - apply PgUserStore_Create_sat.
  - query. destruct (select_one _ _) as [u|] eqn:Hs; injection E as <- <-; (split; [done|]).
    + apply select_one_Some in Hs as (k & Hk & He%bool_decide_eq_true). split; [done|].
      pose proof (lookup_user _ _ _ Hk). destruct (pg_inv_users _ Hi _ _ Hk) as [<- _]. done.
    + apply not_found_reads. intros k u'. simpl. rewrite lookup_fmap_Some. intros (u & <- & Hu).
      by apply (select_one_None _ _ _ _ Hs), bool_decide_eq_false in Hu.
  - query. destruct (pg_users h !! x) as [u|] eqn:Hu; injection E as <- <-; (split; [done|]).
    + split; [done|]. pose proof (lookup_user _ _ _ Hu).
      destruct (pg_inv_users _ Hi _ _ Hu) as [<- _]. done.
    + apply not_found_reads. by eapply user_absent.
  - apply PgUserStore_UpdateEmail_sat.
  - mutator. eapply update_users_mutates; [done..| |done].
    intros u (? & ? & ? & ?). split; [by split_and!|]. by eexists.
  - mutator. destruct (bool_decide _) eqn:Hx; injection E as <- <-.
    + apply bool_decide_eq_true in Hx as [u Hu]. split; [by apply delete_user_inv|].
      exists x. split_and!; [done|by rewrite (lookup_user _ _ _ Hu)|apply view_delete_user].
    + apply bool_decide_eq_false, eq_None_not_Some in Hx. split; [done|].
      apply not_found_mutates. by eapply user_absent.
  - apply PgUserStore_IncrementFailedAttempts_sat.
  - mutator. eapply update_users_mutates; [done..| |done].
    intros u (? & ? & ? & ?). split; [split_and!; unfold int4_max; simpl; [done..|lia|lia]|done].
  - mutator. eapply update_users_mutates; [done..| |done].
    intros u (? & ? & ? & ?). split; [by split_and!|]. eexists. split; [|done].
    apply pg_timestamptz_close.
Qed.

End users.

(** ** Sessions *)

Section sessions.
Context `{Env, PostgresLaws}.

Lemma view_revoke_rows (P : sessions_row → bool) (Q : Session → Prop)
    `{∀ s, Decision (Q s)} now h :
  (∀ s, P s = true ↔ Q (view_session s)) →
  pg_view (revoke_rows P now h) =
    with_sessions (pg_view h) (revoke_where Q now <$> v_sessions (pg_view h)).
Proof.
  intros HPQ. unfold pg_view, revoke_rows, with_sessions. simpl. f_equal.
  rewrite <- !map_fmap_compose. apply map_fmap_ext. intros k s _. simpl.
  specialize (HPQ s). unfold revoke_where.
  case_decide as Hd; unfold live in Hd; simpl in Hd;
    (destruct (P s); simpl; [case_bool_decide|]); naive_solver.
Qed.

Lemma revoke_rows_inv P now h : pg_inv h → pg_inv (revoke_rows P now h).
Proof.
  intros [HU HS HT]. split; simpl; [done| |done].
  intros k r (s & <- & Hs)%lookup_fmap_Some. case_match; by apply HS in Hs.
Qed.

(** Every stored session can be scanned. *)
Lemma scan_session_ok k s : session_ok k s → scan_session s = Ok (view_session s).
Proof.
  intros (_ & _ & _ & _ & [ip Hip] & [ag Hag]). unfold scan_session, scan_string, view_session.
  by rewrite Hip, Hag.
Qed.

Lemma scan_all_sessions l :
  Forall (λ s, ∃ k, session_ok k s) l → scan_all scan_session l = Ok (view_session <$> l).
Proof.
  induction 1 as [|s l [k Hs] _ IH]; [done|]. simpl. by rewrite (scan_session_ok _ _ Hs), IH.
Qed.

Lemma session_absent id k h :
  pg_uuid_in id = Some k →
  (∀ s, pg_sessions h !! k = Some s → s_revoked_at s ≠ None) →
  ¬ session_present id (pg_view h).
Proof.
  intros Hk Hn (k' & s' & Hk' & Hs' & Hlive). simpl in *. simplify_eq.
  apply lookup_fmap_Some in Hs' as (s & <- & Hs). by eapply Hn, Hlive.
Qed.

(** The guarded UPDATE of Revoke and RotateToken. *)
Lemma revoke_session_elim id now h r h1 :
  pg_inv h → revoke_session id now h = (r, h1) →
  match checkRowsAffected r with
  | Ok _ => ∃ k s, pg_uuid_in id = Some k ∧ pg_sessions h !! k = Some s ∧
      session_ok k s ∧ s_revoked_at s = None ∧
      h1 = pg_set_sessions (<[k := row_revoke now s]> (pg_sessions h)) h
  | Err e => h1 = h ∧ ((∃ msg, e = ErrExternal msg) ∨
                       e = ErrNotFound ∧ ¬ session_present id (pg_view h))
  end.
Proof.
  intros Hi E.
  apply uuid_param_elim in E as [[-> [msg ->]]|(k & Hk & _ & E)]; [simpl; eauto|].
  destruct (pg_sessions h !! k) as [s|] eqn:Hs.
  - destruct (bool_decide (s_revoked_at s = None)) eqn:Hr; injection E as <- <-; simpl.
    + apply bool_decide_eq_true in Hr. exists k, s. split_and!; try done.
      by apply (pg_inv_sessions _ Hi).
    + apply bool_decide_eq_false in Hr. split; [done|]. right. split; [done|].
      eapply session_absent; [done|]. intros ? ?. simplify_eq. done.
  - injection E as <- <-. simpl. split; [done|]. right. split; [done|].
    eapply session_absent; [done|]. intros ? ?. simplify_eq.
Qed.

Lemma insert_session_elim id family user hash ip agent now h r h2 :
  pg_inv h → insert_session (new_Session id family user hash ip agent) now h = (r, h2) →
  match r with
  | Ok _ => ∃ k kf ku, pg_uuid_in id = Some k ∧ pg_uuid_in family = Some kf ∧
      pg_uuid_in user = Some ku ∧ pg_sessions h !! k = None ∧ is_Some (pg_users h !! ku) ∧
      (∀ k' s, pg_sessions h !! k' = Some s → s_token_hash s ≠ hash) ∧ pg_inv h2 ∧ pg_view h2 = with_sessions (pg_view h)
        (<[k := mkSession k kf ku hash ip agent now None]> (v_sessions (pg_view h)))
  | Err e => h2 = h ∧ ∃ msg, e = ErrExternal msg
  end.
Proof.
  intros Hi E. unfold insert_session in E.
  apply uuid_param_elim in E as [[-> [msg ->]]|(k & Hk & Hk2 & E)]; [simpl; by eauto|].
  apply uuid_param_elim in E as [[-> [msg ->]]|(kf & Hf & Hf2 & E)]; [simpl; by eauto|].
  apply uuid_param_elim in E as [[-> [msg ->]]|(ku & Hu & Hu2 & E)]; [simpl; by eauto|].
  apply text_params_elim in E as [[-> [msg ->]]|E]; [simpl; by eauto|].
  destruct (_ || _) eqn:Hv; [injection E as <- <-; simpl; by eauto|].
  destruct (bool_decide (is_Some (pg_users h !! ku))) eqn:Hx; injection E as <- <-; [|simpl; by eauto].
  apply orb_false_iff in Hv as [Hn%bool_decide_eq_false%eq_None_not_Some Hh].
  apply bool_decide_eq_true in Hx. exists k, kf, ku. split_and!; try done.
  - intros k' s Hs. by apply (exists_row_false _ _ _ _ Hh), bool_decide_eq_false in Hs.
  - apply pg_inv_sessions_insert; [done|]. by split_and!; simpl.
  - by rewrite view_sessions_insert.
Qed.

Lemma newest_first_perm l : merge_sort newest_first l ≡ₚ l.
Proof. apply merge_sort_Permutation. Qed.

Lemma PgSessionStore_ListByUser_sat user :
  sat (PgSessionStore_ListByUser user)
    (reads (λ v l, l ≡ₚ active_of user (v_sessions v)) (λ _, False)).
Proof.
  apply db_run_reads_direct. intros now n h r h' Hi E. stmt_params. injection E as <- <-.
  split; [done|]. rewrite scan_all_sessions.
  - split; [done|]. rewrite newest_first_perm. unfold active_of, live. simpl.
    rewrite range_order_perm, map_to_list_fmap.
    replace (snd <$> (prod_map id view_session <$> map_to_list (pg_sessions h)))
      with (view_session <$> (snd <$> map_to_list (pg_sessions h)))
      by (rewrite <- !list_fmap_compose; by apply list_fmap_ext).
    rewrite <- (list_filter_fmap view_session _ (λ s, s_user_id s = x ∧ s_revoked_at s = None));
      [done|]. intros s. simpl. naive_solver.
  - rewrite newest_first_perm. apply Forall_forall. intros s [_ Hs]%list_elem_of_filter.
    rewrite range_order_perm in Hs. apply list_elem_of_fmap in Hs as ([k s'] & -> & Hs).
    apply elem_of_map_to_list in Hs. exists k. by apply (pg_inv_sessions _ Hi).
Qed.

Lemma view_new_hash h hash :
  (∀ k s, pg_sessions h !! k = Some s → s_token_hash s ≠ hash) →
  new_session_hash hash (pg_view h).
Proof. intros Hh k x (s & <- & Hs)%lookup_fmap_Some. by apply (Hh k). Qed.

(** The two statements of the transaction, when both succeed. *)
Lemma rotation_view old id family user hash ip agent now h x h1 h2 :
  pg_inv h → revoke_session old now h = (x, h1) → checkRowsAffected x = Ok () →
  insert_session (new_Session id family user hash ip agent) now h1 = (Ok (), h2) →
  pg_inv h2 ∧ token_rotated old id family user hash ip agent (pg_view h) (pg_view h2).
Proof.
  intros Hi E1 Hx E2. apply revoke_session_elim in E1; [|done]. rewrite Hx in E1.
  destruct E1 as (ko & s & Hko & Hs & Hok & Hl & ->).
  assert (pg_inv (pg_set_sessions (<[ko := row_revoke now s]> (pg_sessions h)) h)) as Hi1
    by by apply pg_inv_sessions_insert.
  apply insert_session_elim in E2; [|done].
  destruct E2 as (k & kf & ku & Hk & Hkf & Hku & Hn & Hus & Hh & Hi2 & ->). split; [done|].
  rewrite view_sessions_insert. simpl in Hn, Hh. apply lookup_insert_None in Hn as [Hn _].
  exists ko, (view_session s), now, k, kf, ku, now.
  split_and!; try done; [by apply lookup_session|].
  intros _. simpl. rewrite !lookup_fmap, Hn, fmap_is_Some. split_and!; [done..|].
  apply view_new_hash. intros k' r Hr. destruct (decide (k' = ko)) as [->|Hne].
  - assert (r = s) as -> by congruence. apply (Hh ko (row_revoke now s)), lookup_insert_eq.
  - apply (Hh k'). by rewrite lookup_insert_ne.
Qed.

Lemma PgSessionStore_RotateToken_sat old id family user hash ip agent :
  sat (PgSessionStore_RotateToken old (new_Session id family user hash ip agent))
    (mutates (session_present old)
       (λ v _ v', token_rotated old id family user hash ip agent v v')).
Proof.
  intros h a r h' a' Hi. unfold PgSessionStore_RotateToken.
  destruct (tx_event a) as [[n f] a1] eqn:T1. apply event_le in T1.
  assert (∀ msg b, amb_le a b → store_inv h ∧ amb_le a b ∧ mutates (session_present old)
    (λ v (_ : ()) v', token_rotated old id family user hash ip agent v v') (view h)
    (Err (ErrExternal msg)) (view h)) as Hrollback.
  { intros msg b Hb. split_and!; [done..|]. apply refused_mutates. }
  destruct (tx_failed f); [intros [= <- <- <-]; auto|].
  destruct (tx_event a1) as [[n2 f2] a2] eqn:T2. apply event_le in T2.
  destruct (tx_failed f2); [intros [= <- <- <-]; apply Hrollback; by etrans|].
  destruct (revoke_session _ _ h) as [x h1] eqn:E1.
  pose proof (revoke_session_elim _ _ _ _ _ Hi E1) as HR.
  destruct (checkRowsAffected x) as [[]|e] eqn:Hx.
  2:{ intros [= <- <- <-]. destruct HR as [_ [[msg ->]|[-> Habs]]].
      - apply Hrollback. by etrans.
      - split_and!; [done|by etrans|]. by apply not_found_mutates. }
  destruct (tx_event a2) as [[n3 f3] a3] eqn:T3. apply event_le in T3.
  destruct (tx_failed f3); [intros [= <- <- <-]; apply Hrollback; by do 2 etrans|].
  destruct (insert_session _ _ h1) as [y h2] eqn:E2.
  destruct y as [[]|e].
  2:{ intros [= <- <- <-].
      destruct HR as (? & ? & ? & ? & ? & ? & ->).
      apply insert_session_elim in E2 as [_ [msg ->]];
        [apply Hrollback; by do 2 etrans|by apply pg_inv_sessions_insert]. }
  destruct (rotation_view _ _ _ _ _ _ _ _ _ _ _ _ Hi E1 Hx E2) as [Hi2 HT].
  destruct (tx_event a3) as [[n4 f4] a4] eqn:T4. apply event_le in T4.
  assert (amb_le a a4) by by do 3 etrans.
  destruct f4; intros [= <- <- <-]; [done|auto|].
  split_and!; [done..|]. split_and!; [right; by exists ()|right; eauto|done|done].
Qed.

#[export] Instance PgSessionStore_contract : SessionContract PgSessionStore.
Proof.
  split; intros *; simpl.
  - apply (db_run_mutates _ (λ r, r)); [|done]. intros now n h r h' Hi E.
    pose proof (insert_session_elim _ _ _ _ _ _ _ _ _ _ Hi E) as HI.
    destruct r as [[]|e]; [|by destruct HI as [-> [msg ->]]; refused].
    destruct HI as (k & kf & ku & Hk & Hf & Hu & Hn & Hus & Hh & ? & ->). split; [done|].
    exists k, kf, ku, now. split_and!; try done. intros _. simpl.
    rewrite !lookup_fmap, Hn, fmap_is_Some. split_and!; [done..|by apply view_new_hash].
  - unfold PgSessionStore_GetByID, scanOne. query. injection E as <- <-. split; [done|].
    destruct (pg_uuid_in id) as [k|] eqn:Hk; [|apply refused_reads]. simpl.
    destruct (pg_sessions h !! k) as [s|] eqn:Hs; simpl.
    + pose proof (pg_inv_sessions _ Hi _ _ Hs) as Hok. rewrite (scan_session_ok _ _ Hok).
      pose proof (lookup_session _ _ _ Hs). destruct Hok as [<- _]. done.
    + apply not_found_reads. intros k' Hk'. simpl in *. simplify_eq. by rewrite lookup_fmap, Hs.
  - unfold PgSessionStore_GetByTokenHash, scanOne. query. injection E as <- <-. split; [done|].
    destruct (pg_text_ok hash); [|apply refused_reads]. simpl.
    destruct (select_one _ _) as [s|] eqn:Hs; simpl.
    + apply select_one_Some in Hs as (k & Hs & He%bool_decide_eq_true).
      pose proof (pg_inv_sessions _ Hi _ _ Hs) as Hok. rewrite (scan_session_ok _ _ Hok).
      pose proof (lookup_session _ _ _ Hs). destruct Hok as [<- _]. done.
    + apply not_found_reads. intros k s'. simpl. rewrite lookup_fmap_Some. intros (s & <- & Hk).
      by apply (select_one_None _ _ _ _ Hs), bool_decide_eq_false in Hk.
  - apply PgSessionStore_ListByUser_sat.
  - mutator. pose proof (revoke_session_elim _ _ _ _ _ Hi E) as HR.
    destruct (checkRowsAffected r) as [[]|e].
    + destruct HR as (k & s & Hk & Hs & Hok & Hl & ->).
      split; [by apply pg_inv_sessions_insert|]. rewrite view_sessions_insert.
      exists k, (view_session s), now. split_and!; try done. by apply lookup_session.
    + destruct HR as [-> [[msg ->]|[-> ?]]]; [refused|]. split; [done|].
      by apply not_found_mutates.
  - apply (db_run_mutates _ (λ r, r)); [|done]. intros now n h r h' Hi E. stmt_params.
    injection E as <- <-. split; [by apply revoke_rows_inv|]. exists x, now. split; [done|].
    apply view_revoke_rows. intros s. by rewrite bool_decide_eq_true.
  - apply (db_run_mutates _ (λ r, r)); [|done]. intros now n h r h' Hi E. stmt_params.
    injection E as <- <-. split; [by apply revoke_rows_inv|]. exists x, now. split; [done|].
    apply view_revoke_rows. intros s. by rewrite bool_decide_eq_true.
  - apply PgSessionStore_RotateToken_sat.
Qed.

End sessions.

(** ** The audit trail *)

Lemma json_coerce_ascii s : ascii_only s = true → json_coerce 0 s = s.
Proof.
  induction s as [|c s IH]; simpl; [done|]. intros [Hc Hs]%andb_true_iff.
  rewrite Hc. by rewrite IH.
Qed.

Lemma json_object_ascii m :
  map_Forall (λ k v, ascii_only k = true ∧ ascii_only v = true) m → json_object m = m.
Proof.
  intros Hm. unfold json_object.
  assert (json_members m ≡ₚ map_to_list m) as Hperm by apply merge_sort_Permutation.
  assert ((λ p, (json_coerce 0 p.1, json_coerce 0 p.2)) <$> json_members m = json_members m) as ->.
  { rewrite <- list_fmap_id. apply list_fmap_ext.
    intros i [k v] Hi%list_elem_of_lookup_2. simpl.
    rewrite Hperm in Hi. destruct (Hm k v); [by apply elem_of_map_to_list|].
    by rewrite !json_coerce_ascii. }
  rewrite <- (list_to_map_to_list m) at 2. symmetry.
  apply list_to_map_proper; [apply NoDup_fst_map_to_list|]. by rewrite reverse_Permutation.
Qed.

Section audit.
Context `{Env, PostgresLaws}.

Lemma audit_user_elim user f h r h' :
  audit_user user f h = (r, h') →
  (h' = h ∧ ∃ msg, r = Err (ErrExternal msg)) ∨
  ∃ c, f c = (r, h') ∧
    if bool_decide (user = EmptyString) then c = None
    else ∃ k, pg_uuid_in user = Some k ∧ c = Some k ∧ is_Some (pg_users h !! k).
Proof.
  unfold audit_user. case_bool_decide; [by right; exists None|]. intros E.
  apply uuid_param_elim in E as [[-> [msg ->]]|(k & Hk & _ & E)]; [left; by eauto|].
  case_bool_decide; [|injection E as <- <-; left; by eauto]. right. exists (Some k). eauto.
Qed.

Lemma scan_all_ok {R A} (scan : R → result A) (f : R → A) rows out :
  (∀ row x, scan row = Ok x → x = f row) → scan_all scan rows = Ok out → out = f <$> rows.
Proof.
  intros Hf. revert out. induction rows as [|row rows IH]; intros out; simpl; [by intros [= <-]|].
  destruct (scan row) as [x|] eqn:Hx; simpl; [|done].
  destruct (scan_all scan rows) as [xs|]; simpl; [|done]. intros [= <-].
  by rewrite (Hf _ _ Hx), (IH xs).
Qed.

Lemma scan_string_ok c x : scan_string c = Ok x → x = default EmptyString c.
Proof. destruct c; [by intros [= ->]|done]. Qed.

Lemma scanned_event row x : scan_event row = Ok x → x = view_event row.
Proof.
  unfold scan_event. destruct (scan_string (a_ip row)) eqn:Hi; simpl; [|done]. intros [= <-].
  by apply scan_string_ok in Hi as ->.
Qed.

Lemma scan_all_refused {R A} (scan : R → result A) rows err :
  (∀ row err, scan row = Err err → ∃ msg, err = ErrExternal msg) →
  scan_all scan rows = Err err → ∃ msg, err = ErrExternal msg.
Proof.
  intros Hf. induction rows as [|row rows IH]; simpl; [done|].
  destruct (scan row) eqn:Hx; simpl; [|intros [= <-]; eauto].
  destruct (scan_all scan rows); simpl; [done|]. intros [= <-]. by apply IH.
Qed.

Lemma PgAuditStore_ListByUser_sat user limit :
  sat (PgAuditStore_ListByUser user limit) (reads (events_listed user limit) (λ _, False)).
Proof.
  apply db_run_reads_direct. intros now n h r h' Hi E. stmt_params.
  case_bool_decide as Hl; injection E as <- <-; (split; [done|]); [by apply refused_reads|].
  destruct (scan_all _ _) as [out|err] eqn:Hs.
  2:{ apply scan_all_refused in Hs as [msg ->]; [by apply refused_reads|].
      intros row err'. unfold scan_event, scan_string. destruct (a_ip row); simpl; [done|].
      intros [= <-]. by eexists. }
  apply (scan_all_ok _ view_event) in Hs as ->; [|apply scanned_event].
  split; [done|]. exists x. split; [done|]. intros Hx.
  exists (view_event <$> drop (Z.to_nat limit) (merge_sort newest_event_first
    (filter (λ a, a_user_id a = Some x) (pg_audit_events h)))).
  rewrite <- fmap_app, take_drop, !length_fmap, length_take. split; [|lia].
  rewrite merge_sort_Permutation. simpl.
  rewrite (list_filter_fmap view_event (λ e, AuditEvent_UserID e = x)
    (λ a, a_user_id a = Some x)); [done|].
  intros a. unfold view_event. simpl. destruct (a_user_id a); simpl; naive_solver.
Qed.

#[export] Instance PgAuditStore_contract : AuditContract PgAuditStore.
Proof.
  split; intros *; simpl; [|apply PgAuditStore_ListByUser_sat].
  apply (db_run_mutates _ (λ r, r)); [|done].
  intros now n h r h' Hi E. stmt_params.
  apply audit_user_elim in E as [[-> [msg ->]]|(c & E & Hc)]; [refused|].
  destruct (negb _); [injection E as <- <-; refused|].
  destruct (bool_decide (env_db_uuid n ∈ _)); injection E as <- <-; [refused|].
  split; [by destruct Hi|].
  eexists (view_event (mkAuditEventsRow _ ty c _ _ _)). split.
  2:{ unfold pg_view, with_events. simpl. by rewrite fmap_app. }
  split; [split_and!; simpl; [done|done| |]|].
  - intros Ha. destruct meta as [m|]; [|done]. simpl. f_equal. by apply json_object_ascii, Ha.
  - revert Hc. simpl. destruct (bool_decide _); [by intros ->|]. by intros (k & ? & -> & _).
  - intros _. simpl. revert Hc. destruct (bool_decide _); [intros ->; by left|].
    intros (k & _ & -> & Hk). right. by rewrite lookup_fmap, fmap_is_Some.
Qed.

#[export] Instance PgVerificationStore_contract : VerificationContract PgVerificationStore.
Proof.
  split; intros *; simpl.
  - apply (db_run_mutates _ (λ r, r)); [|done]. intros now n h r h' Hi E. stmt_params.
    destruct (_ || _) eqn:Hv; [injection E as <- <-; refused|].
    destruct (bool_decide (is_Some (pg_users h !! x0))) eqn:Hx; injection E as <- <-; [|refused].
    apply bool_decide_eq_true in Hx.
    apply orb_false_iff in Hv as [Hn%bool_decide_eq_false%eq_None_not_Some Hh].
    split; [by apply pg_inv_tokens_insert|]. rewrite view_tokens_insert.
    eexists _, _, (pg_timestamptz expires), now. split_and!; [done|done| | |].
    + apply pg_timestamptz_close.
    + intros _. simpl. rewrite !lookup_fmap, Hn, fmap_is_Some. split_and!; [done..|].
      intros k' vt (t & <- & Ht)%lookup_fmap_Some.
      by apply (exists_row_false _ _ _ _ Hh), bool_decide_eq_false in Ht.
    + unfold scan_token. simpl. do 3 f_equal.
      by case_bool_decide as He; [|rewrite He].
  - query. destruct (select_one _ _) as [t|] eqn:Hs; injection E as <- <-; (split; [done|]).
    + apply select_one_Some in Hs as (k & Hk & He%bool_decide_eq_true). split; [done|].
      pose proof (lookup_token _ _ _ Hk). destruct (pg_inv_tokens _ Hi _ _ Hk) as [<- _]. done.
    + apply not_found_reads. intros k t'. simpl. rewrite lookup_fmap_Some. intros (t & <- & Ht).
      by apply (select_one_None _ _ _ _ Hs), bool_decide_eq_false in Ht.
  - mutator. destruct (pg_verification_tokens h !! x) as [t|] eqn:Ht.
    + pose proof (pg_inv_tokens _ Hi _ _ Ht) as Hok. pose proof (lookup_token _ _ _ Ht) as Hl.
      destruct (bool_decide (t_used_at t = None)) eqn:Hu; injection E as <- <-.
      * split; [by apply pg_inv_tokens_insert|]. rewrite view_tokens_insert.
        by exists x, (scan_token t), now.
      * apply bool_decide_eq_false in Hu. split; [done|]. apply not_found_mutates.
        intros (k & vt & Hk & Hvt & Hfresh). simpl in Hk. simplify_eq. by apply Hu, Hfresh.
    + injection E as <- <-. split; [done|]. apply not_found_mutates.
      intros (k & vt & Hk & Hvt & _). simpl in *. simplify_eq. by rewrite lookup_fmap, Ht in Hvt.
Qed.

End audit.
