(* ===== verification/Schema.v ===== *)
(** * The migrations (store/postgres/migrations)

    The schema as the statements that create it and the statements that drop it
    again, on a catalog that refuses what the server refuses: a reference to a
    table that is not there, a second table of the same name, the removal of a
    table that another one refers to. *)
From S2P Require Import Prelude.

(** ** The catalog *)

Inductive on_delete : Type := CASCADE | SET_NULL.

Inductive sql_type : Type := UUID | TEXT | INT | TIMESTAMPTZ | JSONB.

#[export] Instance on_delete_eq_dec : EqDecision on_delete.
Proof. solve_decision. Defined.
#[export] Instance sql_type_eq_dec : EqDecision sql_type.
Proof. solve_decision. Defined.

Record column : Type := mkColumn {
  col_name : string;
  col_type : sql_type;
  col_not_null : bool;
  col_unique : bool;                          (* UNIQUE, or PRIMARY KEY *)
  col_references : option (string * on_delete); (* the column id of a table *)
}.

#[export] Instance column_eq_dec : EqDecision column.
Proof. solve_decision. Defined.

Inductive ddl : Type :=
| CREATE_TABLE (name : string) (columns : list column)
| CREATE_INDEX (name table : string) (columns : list string)
| DROP_TABLE_IF_EXISTS (name : string).

(** Tables with their columns; indexes with their tables. *)
Record catalog : Type := mkCatalog {
  cat_tables : gmap string (list column);
  cat_indexes : gmap string string;
}.

Definition empty_catalog : catalog := mkCatalog ∅ ∅.

(** A column refers to [table]. *)
Definition refers (table : string) (c : column) : Prop := fst <$> col_references c = Some table.

#[export] Instance refers_dec table c : Decision (refers table c).
Proof. unfold refers. apply _. Defined.

Definition reference_ok (name : string) (cat : catalog) (c : column) : bool :=
  match col_references c with
  | Some (table, _) => bool_decide (table = name) || bool_decide (is_Some (cat_tables cat !! table))
  | None => true
  end.

Definition run_ddl (s : ddl) (cat : catalog) : option catalog :=
  match s with
  | CREATE_TABLE name cols =>
      if bool_decide (cat_tables cat !! name = None) && forallb (reference_ok name cat) cols
      then Some (mkCatalog (<[name := cols]> (cat_tables cat)) (cat_indexes cat)) else None
  | CREATE_INDEX name table cols =>
      cols' ← cat_tables cat !! table;
      if bool_decide (cat_indexes cat !! name = None) &&
         forallb (λ c, bool_decide (c ∈ (col_name <$> cols'))) cols
      then Some (mkCatalog (cat_tables cat) (<[name := table]> (cat_indexes cat))) else None
  | DROP_TABLE_IF_EXISTS name =>
      if bool_decide (map_Exists (λ t cols, t ≠ name ∧ Exists (refers name) cols) (cat_tables cat))
      then None
      else Some (mkCatalog (delete name (cat_tables cat))
                   (filter (λ p, p.2 ≠ name) (cat_indexes cat)))
  end.

Fixpoint run_script (script : list ddl) (cat : catalog) : option catalog :=
  match script with
  | [] => Some cat
  | s :: script => cat ← run_ddl s cat; run_script script cat
  end.

(** ** 0001_initial_schema *)

Definition primary_key : column := mkColumn "id" UUID true true None.
Definition text (name : string) : column := mkColumn name TEXT false false None.
Definition required (name : string) (ty : sql_type) : column := mkColumn name ty true false None.
Definition nullable (name : string) (ty : sql_type) : column := mkColumn name ty false false None.
Definition unique_text (name : string) : column := mkColumn name TEXT true true None.

(** 0001_initial_schema.up.sql *)
Definition schema_up : list ddl := [
  CREATE_TABLE "users" [primary_key; unique_text "email"; required "password_hash" TEXT;
    required "failed_attempts" INT; nullable "locked_until" TIMESTAMPTZ;
    required "created_at" TIMESTAMPTZ; required "updated_at" TIMESTAMPTZ];
  CREATE_TABLE "sessions" [primary_key; required "family_id" UUID;
    mkColumn "user_id" UUID true false (Some ("users", CASCADE)); unique_text "token_hash";
    text "ip"; text "user_agent"; required "created_at" TIMESTAMPTZ;
    nullable "revoked_at" TIMESTAMPTZ];
  CREATE_INDEX "idx_sessions_family_id" "sessions" ["family_id"];
  CREATE_INDEX "idx_sessions_user_active" "sessions" ["user_id"];
  CREATE_TABLE "audit_events" [primary_key; required "type" TEXT;
    mkColumn "user_id" UUID false false (Some ("users", SET_NULL)); text "ip";
    nullable "metadata" JSONB; required "created_at" TIMESTAMPTZ];
  CREATE_INDEX "idx_audit_events_user_id" "audit_events" ["user_id"; "created_at"];
  CREATE_TABLE "verification_tokens" [primary_key;
    mkColumn "user_id" UUID true false (Some ("users", CASCADE)); required "purpose" TEXT;
    unique_text "token_hash"; text "new_email"; required "expires_at" TIMESTAMPTZ;
    nullable "used_at" TIMESTAMPTZ; required "created_at" TIMESTAMPTZ]].

(** 0001_initial_schema.down.sql *)
Definition schema_down : list ddl := [
  DROP_TABLE_IF_EXISTS "verification_tokens"; DROP_TABLE_IF_EXISTS "audit_events";
  DROP_TABLE_IF_EXISTS "sessions"; DROP_TABLE_IF_EXISTS "users"].

(** ** What the scripts do *)

(** The foreign keys of a catalog that a deletion of a row of [table] goes through. *)
Definition on_deletion (table : string) (cat : catalog) : list (string * string * on_delete) :=
  '(t, cols) ← map_to_list (cat_tables cat);
  c ← cols;
  match col_references c with
  | Some (table', act) => if decide (table' = table) then [(t, col_name c, act)] else []
  | None => []
  end.

(** No reference dangles, and no index. *)
Record catalog_ok (cat : catalog) : Prop := {
  ok_references t cols c table act :
    cat_tables cat !! t = Some cols → c ∈ cols → col_references c = Some (table, act) →
    is_Some (cat_tables cat !! table);
  ok_indexes i t : cat_indexes cat !! i = Some t → is_Some (cat_tables cat !! t);
}.

Lemma empty_catalog_ok : catalog_ok empty_catalog.
Proof. by split; intros *; simpl; rewrite lookup_empty. Qed.

Lemma run_ddl_ok s cat cat' : run_ddl s cat = Some cat' → catalog_ok cat → catalog_ok cat'.
Proof.
  intros Hs [Hr Hi]. destruct s as [name cols|name table cols|name]; simpl in Hs.
  - destruct (bool_decide _ && _) eqn:Hb; [|done]. injection Hs as <-.
    apply andb_true_iff in Hb as [Hn%bool_decide_eq_true Hcols%Is_true_eq_left%forallb_True].
    rewrite Forall_forall in Hcols. split; simpl.
    + intros t cols' c table act. rewrite lookup_insert_Some. intros [[<- <-]|[_ Ht]] Hc Href.
      * apply Hcols in Hc. unfold reference_ok in Hc. rewrite Href in Hc.
        rewrite lookup_insert_is_Some'. apply Is_true_eq_true, orb_true_iff in Hc.
        rewrite !bool_decide_eq_true in Hc. naive_solver.
      * rewrite lookup_insert_is_Some'. right. by eapply Hr.
    + intros i t Ht. rewrite lookup_insert_is_Some'. right. by eapply Hi.
  - destruct (cat_tables cat !! table) as [cols'|] eqn:Ht; simpl in Hs; [|done].
    case_match; [|done]. injection Hs as <-. split; simpl; [done|].
    intros i t. rewrite lookup_insert_Some. intros [[_ <-]|[_ ?]]; [by eexists|by eapply Hi].
  - case_bool_decide as Hno; [done|]. injection Hs as <-. split; simpl.
    + intros t cols c table act [Hne Ht]%lookup_delete_Some Hc Href.
      rewrite lookup_delete_is_Some. split; [|by eapply Hr]. intros <-. apply Hno.
      exists t, cols. split_and!; [done..|]. apply Exists_exists. exists c. split; [done|].
      unfold refers. by rewrite Href.
    + intros i t [Ht Hne]%map_lookup_filter_Some. simpl in Hne.
      rewrite lookup_delete_is_Some. split; [congruence|by eapply Hi].
Qed.

Lemma run_script_ok script cat cat' :
  run_script script cat = Some cat' → catalog_ok cat → catalog_ok cat'.
Proof.
  revert cat. induction script as [|s script IH]; intros cat; simpl; [by intros [= <-]|].
  destruct (run_ddl s cat) as [cat1|] eqn:Hs; [|done]. simpl. eauto using run_ddl_ok.
Qed.

(** The migration applies to an empty database and rolls back to it; without a
    dangling reference in between; the rollback depends on its order; and deleting
    a user acts on the tables that [delete_user] of Postgres.v acts on, as it does. *)
Theorem migration_rolls_back :
  ∃ cat, run_script schema_up empty_catalog = Some cat ∧ catalog_ok cat ∧
    run_script schema_down cat = Some empty_catalog ∧
    run_script (reverse schema_down) cat = None ∧
    on_deletion "users" cat ≡ₚ [("sessions", "user_id", CASCADE);
      ("audit_events", "user_id", SET_NULL); ("verification_tokens", "user_id", CASCADE)].
Proof.
  destruct (run_script schema_up empty_catalog) as [cat|] eqn:Hup; [|by vm_compute in Hup].
  exists cat. split; [done|]. split; [by eapply run_script_ok, empty_catalog_ok|].
  vm_compute in Hup. injection Hup as <-. split_and!; [by vm_compute..|].
  apply (bool_decide_unpack _). vm_compute. exact I.
Qed.
