(* ===== verification/Security.v ===== *)
(** * Password hashing and ID generation (security/hasher.go, security/idgen.go) *)
From S2P Require Import Prelude Errors Runtime.

(** ** Hasher *)

Record Hasher : Type := mkHasher {
  Hasher_Hash : string → St Amb (result string);
  Hasher_Compare : string → string → result ();
}.

Record BcryptHasher : Type := mkBcryptHasher { BcryptHasher_Cost : Z }.

Section bcrypt.
Context `{Env, Bcrypt}.

Definition NewBcryptHasher (cost : Z) : result BcryptHasher :=
  if bool_decide (cost < bcrypt_MinCost) || bool_decide (bcrypt_MaxCost < cost)
  then Err ErrInvalidBcryptCost
  else Ok (mkBcryptHasher cost).

Definition BcryptHasher_Hash (b : BcryptHasher) (password : string) :
    St Amb (result string) :=
  event (λ k _, match bcrypt_GenerateFromPassword k password (BcryptHasher_Cost b) with
                | Err err => Err err
                | Ok bytes => Ok bytes
                end).

Definition BcryptHasher_Compare (hash password : string) : result () :=
  bcrypt_CompareHashAndPassword hash password.

(** The [Hasher] interface value of a [*BcryptHasher]. *)
Definition BcryptHasher_Hasher (b : BcryptHasher) : Hasher :=
  mkHasher (BcryptHasher_Hash b) BcryptHasher_Compare.

End bcrypt.

(** ** IDGenerator *)

Record IDGenerator : Type := mkIDGenerator {
  IDGenerator_New : St Amb (result string);
}.

Definition UUIDv7Generator_New `{Env} : St Amb (result string) :=
  id ← uuid_NewV7;
  match id with
  | Err err => mret (Err err)
  | Ok id => mret (Ok id)
  end.

Definition NewUUIDv7Generator `{Env} : IDGenerator := mkIDGenerator UUIDv7Generator_New.

(** ** What a client may rely on *)

(** A hasher whose hashes compare equal with the password they were made from. *)
Class HasherLaws (h : Hasher) : Prop := {
  hasher_compare_hash pw a hash a' :
    Hasher_Hash h pw a = (Ok hash, a') → Hasher_Compare h hash pw = Ok ();
  hasher_amb pw a r a' : Hasher_Hash h pw a = (r, a') → amb_le a a';
}.

(** An ID generator lets time pass, nothing else. *)
Class IDGeneratorLaws (g : IDGenerator) : Prop := {
  idgen_amb a r a' : IDGenerator_New g a = (r, a') → amb_le a a';
}.

(** A generator that never fails. *)
Definition id_total (g : IDGenerator) : Prop := ∀ a, is_ok (IDGenerator_New g a).1 = true.

(** [id] was drawn between two moments of a run. *)
Definition drawn (g : IDGenerator) (b b' : Amb) (id : string) : Prop :=
  ∃ a a', IDGenerator_New g a = (Ok id, a') ∧ amb_le b a ∧ amb_le a' b'.

Lemma drawn_mono g b b' c c' id : amb_le c b → amb_le b' c' → drawn g b b' id → drawn g c c' id.
Proof. intros ? ? (a & a' & ? & ? & ?). exists a, a'. split_and!; [done|by etrans..]. Qed.

(** No ID is drawn twice. *)
Class UniqueIDs (g : IDGenerator) : Prop := {
  unique_ids a1 a1' a2 a2' id :
    IDGenerator_New g a1 = (Ok id, a1') → IDGenerator_New g a2 = (Ok id, a2') →
    ¬ amb_le a1' a2;
}.

#[export] Instance BcryptHasher_laws `{Env, BcryptLaws} b : HasherLaws (BcryptHasher_Hasher b).
Proof.
  split; [|intros ????; apply event_le].
  intros pw a hash a' [= Hh _]. simpl in *. unfold BcryptHasher_Compare.
  destruct (bcrypt_GenerateFromPassword _ _ _) eqn:E; simplify_eq.
  by eapply bcrypt_compare_generate.
Qed.

#[export] Instance UUIDv7Generator_laws `{Env} : IDGeneratorLaws NewUUIDv7Generator.
Proof.
  split. intros a r a'. simpl. unfold UUIDv7Generator_New, uuid_NewV7, event.
  st_unfold. destruct (env_uuid _); intros [= <- <-]; unfold amb_le; simpl; lia.
Qed.

(** UUIDs are unique where the library's [NewV7] never repeats one. *)
Lemma UUIDv7Generator_unique `{Env} :
  (∀ n m id, env_uuid n = Ok id → env_uuid m = Ok id → n = m) →
  UniqueIDs NewUUIDv7Generator.
Proof.
  intros Hinj. split. intros a1 a1' a2 a2' id. simpl.
  unfold UUIDv7Generator_New, uuid_NewV7, event. st_unfold.
  destruct (env_uuid (amb_step a1)) eqn:E1, (env_uuid (amb_step a2)) eqn:E2; try done.
  intros [= -> <-] [= -> <-] [Hle _]. simpl in Hle.
  pose proof (Hinj _ _ _ E1 E2). lia.
Qed.
