(* ===== verification/Token.v ===== *)
(** * Tokens (package token)

    The refresh-token generator (generator.go), the hash under which a token is
    stored and the rotation of refresh tokens (refresh.go), and the JWT access
    tokens (jwt.go). *)
From S2P Require Import Prelude Errors Runtime Sha256 Store Security World.
From S2P Require Import Logger RateLimiter.

(** ** generator.go *)

Record TokenGenerator : Type := mkTokenGenerator {
  TokenGenerator_New : St Amb (result string);
}.

(** A generator that never fails. *)
Definition token_total (g : TokenGenerator) : Prop := ∀ a, is_ok (TokenGenerator_New g a).1 = true.

Class TokenGeneratorLaws (g : TokenGenerator) : Prop := {
  tokengen_amb a r a' : TokenGenerator_New g a = (r, a') → amb_le a a';
}.

Record CryptoRandTokenGenerator : Type := mkCryptoRandTokenGenerator {
  CryptoRandTokenGenerator_ByteLength : Z;
}.

Definition NewCryptoRandTokenGenerator (byteLength : Z) : result CryptoRandTokenGenerator :=
  if bool_decide (byteLength < 16) then Err ErrTokenByteLengthTooShort
  else Ok (mkCryptoRandTokenGenerator byteLength).

Definition CryptoRandTokenGenerator_New `{Env} (g : CryptoRandTokenGenerator) :
    St Amb (result string) :=
  buf ← rand_Read (CryptoRandTokenGenerator_ByteLength g);
  match buf with
  | Err err => mret (Err err)
  | Ok buf => mret (Ok (hex_EncodeToString buf))
  end.

(** The [TokenGenerator] interface value of a [*CryptoRandTokenGenerator]. *)
Definition CryptoRand_TokenGenerator `{Env} (g : CryptoRandTokenGenerator) : TokenGenerator :=
  mkTokenGenerator (CryptoRandTokenGenerator_New g).

#[export] Instance CryptoRand_laws `{Env} g : TokenGeneratorLaws (CryptoRand_TokenGenerator g).
Proof.
  split. intros a r a'. simpl. unfold CryptoRandTokenGenerator_New, rand_Read, event.
  st_unfold. destruct (env_rand_err _); intros [= <- <-]; unfold amb_le; simpl; lia.
Qed.

(** ** refresh.go *)

Definition HashToken (raw : string) : string :=
  hex_EncodeToString (sha256_Sum256 (bytes_of raw)).

Record RefreshResult : Type := mkRefreshResult {
  RefreshResult_RawToken : string;
  RefreshResult_Session : Session;
}.

Definition zero_Session : Session :=
  new_Session EmptyString EmptyString EmptyString EmptyString EmptyString EmptyString.
Definition zero_RefreshResult : RefreshResult := mkRefreshResult EmptyString zero_Session.

Section rotate.
Context {S : Type}.

(** [Rotate] returns its result also next to an error: the caller needs the
    reused session for the audit event. *)
Definition Rotate (sessions : SessionStore S) (gen : TokenGenerator) (ids : IDGenerator)
    (rawToken : string) : Prog (World S) (RefreshResult * option error) :=
  let hash := HashToken rawToken in
  existing ← on_store (SessionStore_GetByTokenHash sessions hash);
  match existing with
  | Err _ => mret (zero_RefreshResult, Some ErrInvalidToken)
  | Ok existing =>
    if bool_decide (Session_RevokedAt existing ≠ None) then
      revokeErr ← on_store (SessionStore_RevokeFamily sessions (Session_FamilyID existing));
      match revokeErr with
      | Err revokeErr => mret (mkRefreshResult EmptyString existing, Some revokeErr)
      | Ok _ => mret (mkRefreshResult EmptyString existing, Some ErrTokenReused)
      end
    else
      newRaw ← on_amb (TokenGenerator_New gen);
      match newRaw with
      | Err err => mret (zero_RefreshResult, Some err)
      | Ok newRaw =>
        newID ← on_amb (IDGenerator_New ids);
        match newID with
        | Err err => mret (zero_RefreshResult, Some err)
        | Ok newID =>
          let newSession := new_Session newID (Session_FamilyID existing)
            (Session_UserID existing) (HashToken newRaw) (Session_IP existing)
            (Session_UserAgent existing) in
          err ← on_store (SessionStore_RotateToken sessions (Session_ID existing) newSession);
          match err with
          | Err err => mret (zero_RefreshResult, Some err)
          | Ok _ => mret (mkRefreshResult newRaw newSession, None)
          end
        end
      end
  end.

End rotate.

(** ** jwt.go *)

(** jwt.RegisteredClaims, the fields the issuer sets. *)
Record RegisteredClaims : Type := mkRegisteredClaims {
  claims_Subject : string;
  claims_IssuedAt : option time;
  claims_ExpiresAt : option time;
}.

(** github.com/golang-jwt/jwt/v5. The first argument of ParseWithClaims is the
    time at which it validates, the last is the key function, which sees the
    signing method named in the token. *)
Class JWT : Type := {
  jwt_Method : Type;
  jwt_HS256 : jwt_Method;
  jwt_isHMAC : jwt_Method → bool;
  jwt_NewNumericDate : time → time;
  jwt_SignedString : jwt_Method → RegisteredClaims → string → result string;
  jwt_ParseWithClaims :
    time → string → (jwt_Method → result string) → result (RegisteredClaims * bool);
}.

(** golang-jwt's documented behaviour: dates are truncated to seconds; a signed
    token parses back under the same key until it expires, and not after; an
    error of the key function is an error of the parse. *)
Class JWTLaws `{JWT} : Prop := {
  jwt_HS256_is_hmac : jwt_isHMAC jwt_HS256 = true;
  jwt_date_truncates t :
    jwt_NewNumericDate t ≤ t ∧ t < jwt_NewNumericDate t + Second;
  jwt_sign_total c key : ∃ tok, jwt_SignedString jwt_HS256 c key = Ok tok;
  jwt_parse_signed m c key tok now kf :
    jwt_SignedString m c key = Ok tok → ascii_only (claims_Subject c) = true →
    kf m = Ok key → (∀ e, claims_ExpiresAt c = Some e → now < e) →
    jwt_ParseWithClaims now tok kf = Ok (c, true);
  jwt_parse_expired m c key tok now kf e :
    jwt_SignedString m c key = Ok tok → claims_ExpiresAt c = Some e → e ≤ now →
    ∃ err, jwt_ParseWithClaims now tok kf = Err err;
  jwt_parse_keyfunc m c key tok now kf err :
    jwt_SignedString m c key = Ok tok → kf m = Err err →
    ∃ err', jwt_ParseWithClaims now tok kf = Err err';
}.

Record JWTIssuer : Type := mkJWTIssuer {
  JWTIssuer_secret : string;
  JWTIssuer_ttl : duration;
}.

Definition NewJWTIssuer (secret : string) (ttl : duration) : result JWTIssuer :=
  if bool_decide (secret = EmptyString) then Err token_ErrMissingJWTSecret
  else if bool_decide (ttl ≤ 0) then Err ErrInvalidTTL
  else Ok (mkJWTIssuer secret ttl).

Section jwt.
Context `{Env, JWT}.

Definition JWTIssuer_Issue (j : JWTIssuer) (userID : string) : St Amb (result string) :=
  now ← time_Now;
  let claims := mkRegisteredClaims userID (Some (jwt_NewNumericDate now))
    (Some (jwt_NewNumericDate (time_Add now (JWTIssuer_ttl j)))) in
  mret (jwt_SignedString jwt_HS256 claims (JWTIssuer_secret j)).

(** The key function of [Verify]. *)
Definition verify_key (j : JWTIssuer) (m : jwt_Method) : result string :=
  if jwt_isHMAC m then Ok (JWTIssuer_secret j) else Err ErrInvalidAccessToken.

Definition JWTIssuer_Verify (j : JWTIssuer) (tokenStr : string) : St Amb (result string) :=
  parsed ← event (λ _ now, jwt_ParseWithClaims now tokenStr (verify_key j));
  match parsed with
  | Err _ => mret (Err ErrInvalidAccessToken)
  | Ok (claims, valid) =>
      if negb valid then mret (Err ErrInvalidAccessToken)
      else mret (Ok (claims_Subject claims))
  end.

End jwt.
