(* ===== verification/Logic.v ===== *)
(** * Reasoning about handlers

    Rules of the weakest precondition for the actions on a [World]: calls of the
    stores through their contracts, of the other components through what they
    computed. [wp_go] walks through a handler up to its next branch. *)
From S2P Require Import Prelude Errors Runtime Store StoreSpec Logger RateLimiter World.
From S2P Require Import Security Token.

(** The abstract storage of a world. *)
Notation vw w := (view (w_store w)) (only parsing).
Notation inv w := (store_inv (w_store w)) (only parsing).

Section rules.
Context {S : Type} `{StoreModel S}.

Implicit Types (w : World S).

Lemma wp_on_store {A} (op : Op S A) R (Q : A → World S → Prop) w :
  sat op R → inv w →
  (∀ r s a, store_inv s → amb_le (w_amb w) a → R (vw w) r (view s) →
     Q r (with_store w s a)) →
  wp (on_store op) Q w.
Proof.
  intros Hop Hinv HQ. apply wp_act. intros r w'.
  destruct (op (w_store w, w_amb w)) as [r' [s a]] eqn:E. intros [= <- <-].
  destruct (Hop _ _ _ _ _ Hinv E) as (? & ? & ?). by apply HQ.
Qed.

Lemma wp_on_amb {A} (op : St Amb A) (Q : A → World S → Prop) w :
  (∀ r a, op (w_amb w) = (r, a) → Q r (with_amb w a)) → wp (on_amb op) Q w.
Proof.
  intros HQ. apply wp_act. intros r w'.
  destruct (op (w_amb w)) as [r' a] eqn:E. intros [= <- <-]. by apply HQ.
Qed.

Lemma wp_on_limiter {A} (op : St (LimiterState * Amb) A) (Q : A → World S → Prop) w :
  (∀ r l a, op (w_limiter w, w_amb w) = (r, (l, a)) → Q r (with_limiter w l a)) →
  wp (on_limiter op) Q w.
Proof.
  intros HQ. apply wp_act. intros r w'.
  destruct (op (w_limiter w, w_amb w)) as [r' [l a]] eqn:E. intros [= <- <-]. by apply HQ.
Qed.

Lemma wp_on_log op c (Q : () → World S → Prop) w :
  (∀ lines a, op (w_amb w) = (lines, a) → Q () (with_log w c lines a)) →
  wp (on_log op c) Q w.
Proof.
  intros HQ. apply wp_act. intros r w'.
  destruct (op (w_amb w)) as [lines a] eqn:E. intros [= <- <-]. by apply HQ.
Qed.

Lemma wp_send_mail sender to raw (Q : result () → World S → Prop) w :
  (∀ r a, EmailSender_SendVerification sender to raw (w_amb w) = (r, a) →
     Q r (with_mail w (to, raw) a)) →
  wp (send_mail sender to raw) Q w.
Proof.
  intros HQ. apply wp_act. intros r w'.
  destruct (EmailSender_SendVerification _ _ _ _) as [r' a] eqn:E.
  intros [= <- <-]. by apply HQ.
Qed.

(** What a step that only works on the storage leaves alone. *)
Definition same_outside w w' : Prop :=
  w_limiter w' = w_limiter w ∧ w_mail w' = w_mail w ∧ amb_le (w_amb w) (w_amb w').

(** An instant between two worlds. *)
Definition between w (t : time) w' : Prop :=
  amb_time (w_amb w) ≤ t ∧ t ≤ amb_time (w_amb w').

Lemma time_Now_elim `{Env} a t a' : time_Now a = (t, a') → t = amb_time a' ∧ amb_le a a'.
Proof. intros E. split; [by injection E as <- <-|by eapply event_le]. Qed.

Lemma JWTIssuer_Issue_amb `{Env, JWT} j uid a r a' :
  JWTIssuer_Issue j uid a = (r, a') → amb_le a a'.
Proof.
  unfold JWTIssuer_Issue, time_Now, event. st_unfold. intros [= _ <-].
  unfold amb_le; simpl. lia.
Qed.

End rules.

(** Reduces the projections of updated worlds. *)
Ltac w_simpl := cbn [w_store w_limiter w_amb w_log w_out w_mail
  with_store with_limiter with_amb with_log with_mail] in *.

(** Collects what the actions of a handler say about the clock. *)
Ltac amb_facts :=
  repeat match goal with
  | E : time_Now _ = _ |- _ => apply time_Now_elim in E as [-> ?]
  | E : TokenGenerator_New _ _ = (_, ?a) |- _ =>
      lazymatch goal with _ : amb_le _ a |- _ => fail | _ => pose proof (tokengen_amb _ _ _ E) end
  | E : IDGenerator_New _ _ = (_, ?a) |- _ =>
      lazymatch goal with _ : amb_le _ a |- _ => fail | _ => pose proof (idgen_amb _ _ _ E) end
  | E : Hasher_Hash _ _ _ = (_, ?a) |- _ =>
      lazymatch goal with _ : amb_le _ a |- _ => fail | _ => pose proof (hasher_amb _ _ _ _ E) end
  | E : JWTIssuer_Issue _ _ _ = (_, ?a) |- _ =>
      lazymatch goal with _ : amb_le _ a |- _ => fail
      | _ => pose proof (JWTIssuer_Issue_amb _ _ _ _ _ E) end
  | E : RateLimiter_Allow _ _ _ = (_, (_, ?a)) |- _ =>
      lazymatch goal with _ : amb_le _ a |- _ => fail
      | _ => pose proof (limiter_amb _ _ _ _ _ _ E) end
  | E : EmailSender_SendVerification _ _ _ _ = (_, ?a) |- _ =>
      lazymatch goal with _ : amb_le _ a |- _ => fail
      | _ => pose proof (sender_amb _ _ _ _ _ E) end
  | E : Logger_log _ _ _ _ _ = (_, ?a) |- _ => apply logger_amb in E
  | E : Logger_Info _ _ _ _ = (_, _) |- _ => apply logger_amb in E
  | E : Logger_Warn _ _ _ _ = (_, _) |- _ => apply logger_amb in E
  | E : Logger_Error _ _ _ _ = (_, _) |- _ => apply logger_amb in E
  | E : same_outside _ _ |- _ => destruct E as (? & ? & ?)
  end.

(** Closes goals on what a handler leaves alone and on the clock. *)
Ltac outside :=
  amb_facts; unfold same_outside, between, amb_le in *; w_simpl;
  repeat match goal with
  | |- _ ∧ _ => split
  end;
  first [lia | congruence].

(** One rule. A store call leaves its contract as hypothesis [HR]. *)
Ltac wp_step :=
  lazymatch goal with
  | |- wp (mret _) _ _ => apply wp_ret
  | |- wp (Ret _) _ _ => apply wp_ret
  | |- wp (_ ≫= _) _ _ => apply wp_bind
  | |- wp (mbind _ _) _ _ => apply wp_bind
  | |- wp (on_store _) _ _ =>
      eapply wp_on_store; [solve [eauto with cryden]|w_simpl; eassumption|];
      let r := fresh "r" in let s := fresh "s" in let a := fresh "a" in
      let Hi := fresh "Hinv" in let Hle := fresh "Hle" in let HR := fresh "HR" in
      intros r s a Hi Hle HR; w_simpl
  | |- wp (on_amb _) _ _ =>
      apply wp_on_amb;
      let r := fresh "r" in let a := fresh "a" in let E := fresh "E" in
      intros r a E; w_simpl
  | |- wp (on_limiter _) _ _ =>
      apply wp_on_limiter;
      let r := fresh "r" in let l := fresh "l" in let a := fresh "a" in
      let E := fresh "E" in intros r l a E; w_simpl
  | |- wp (on_log _ _) _ _ =>
      apply wp_on_log;
      let l := fresh "lines" in let a := fresh "a" in let E := fresh "E" in
      intros l a E; w_simpl
  | |- wp (log_Info _ _ _) _ _ => unfold log_Info
  | |- wp (log_Warn _ _ _) _ _ => unfold log_Warn
  | |- wp (log_Error _ _ _) _ _ => unfold log_Error
  | |- wp (send_mail _ _ _) _ _ =>
      apply wp_send_mail;
      let r := fresh "r" in let a := fresh "a" in let E := fresh "E" in
      intros r a E; w_simpl
  end.

Ltac wp_go := repeat wp_step.
