(* ===== verification/Auth.v ===== *)
(** * Sign-up, login and account management (package auth) *)
From stdpp Require Import pretty.
From S2P Require Import Prelude Errors Runtime Store Logger RateLimiter World Security Token.

(** tokens.go *)
Record Tokens : Type := mkTokens {
  Tokens_AccessToken : string;
  Tokens_RefreshToken : string;
}.

(** email.go: how long a link to confirm a new address stays valid. *)
Definition changeEmailTokenTTL : duration := 1 * Hour.

Section auth.
Context `{Env, JWT} {S : Type}.

Implicit Types (users : UserStore S) (sessions : SessionStore S)
  (audit : AuditStore S) (verifications : VerificationStore S).

(** The audit step that ends most operations: [if err := audit.Record(...);
    err != nil { log.Error(...) }]. *)
Definition record_or_log audit (log : Logger) (ev : AuditEvent) (msg : string)
    (fields : gmap string string) : Prog (World S) () :=
  r ← on_store (AuditStore_Record audit ev);
  match r with
  | Err err => log_Error log msg (<["error" := error_text err]> fields)
  | Ok _ => mret ()
  end.

(** ** signup.go *)

Definition SignUp users (hasher : Hasher) (ids : IDGenerator) (limiter : RateLimiter)
    audit (log : Logger) (email password callerIP : string) :
    Prog (World S) (result User) :=
  allowed ← on_limiter (RateLimiter_Allow limiter ("signup:" +:+ callerIP));
  match allowed with
  | Err err =>
    log_Error log "signup: rate limiter error" {["error" := error_text err]};;
    mret (Err err)
  | Ok false =>
    log_Warn log "signup: rate limited" {["ip" := callerIP]};;
    mret (Err ErrRateLimited)
  | Ok true =>
    existing ← on_store (UserStore_GetByEmail users email);
    match existing with
    | Ok _ =>
      log_Warn log "signup: duplicate email attempt" {["ip" := callerIP]};;
      mret (Err ErrUserExists)
    | Err _ =>
      hash ← on_amb (Hasher_Hash hasher password);
      match hash with
      | Err err => mret (Err err)
      | Ok hash =>
        id ← on_amb (IDGenerator_New ids);
        match id with
        | Err err => mret (Err err)
        | Ok id =>
          let user := new_User id email hash in
          created ← on_store (UserStore_Create users user);
          match created with
          | Err err => mret (Err err)
          | Ok _ =>
            record_or_log audit log
              (new_AuditEvent EventSignupSuccess (User_ID user) callerIP None)
              "signup: audit record failed" {["user_id" := User_ID user]};;
            log_Info log "signup: completed" {["user_id" := User_ID user]};;
            mret (Ok user)
          end
        end
      end
    end
  end.

(** ** login.go *)

Definition recordLoginFailure audit (log : Logger) (userID callerIP reason : string) :
    Prog (World S) () :=
  record_or_log audit log
    (new_AuditEvent EventLoginFailed userID callerIP (Some {["reason" := reason]}))
    "login: audit record failed" ∅;;
  log_Warn log "login: failed attempt" {["ip" := callerIP; "reason" := reason]}.

(** [user.LockedUntil != nil && time.Now().Before( *user.LockedUntil)]. *)
Definition is_locked (user : User) : Prog (World S) bool :=
  match User_LockedUntil user with
  | None => mret false
  | Some until => now ← on_amb time_Now; mret (time_Before now until)
  end.

(** What [Login] does after a wrong password. *)
Definition count_failure users audit (log : Logger) (user : User) (callerIP : string)
    (lockoutThreshold : Z) (lockoutDuration : duration) : Prog (World S) () :=
  attempts ← on_store (UserStore_IncrementFailedAttempts users (User_ID user));
  match attempts with
  | Err incErr =>
    log_Error log "login: failed-attempt increment error"
      {["error" := error_text incErr; "user_id" := User_ID user]}
  | Ok attempts =>
    if bool_decide (lockoutThreshold ≤ attempts) then
      now ← on_amb time_Now;
      let until := time_Add now lockoutDuration in
      locked ← on_store (UserStore_LockAccount users (User_ID user) until);
      match locked with
      | Err lockErr =>
        log_Error log "login: lock account error"
          {["error" := error_text lockErr; "user_id" := User_ID user]}
      | Ok _ =>
        record_or_log audit log
          (new_AuditEvent EventAccountLocked (User_ID user) callerIP None)
          "login: audit record failed" ∅;;
        log_Warn log "login: account locked after repeated failures"
          {["user_id" := User_ID user; "attempts" := pretty attempts]}
      end
    else mret ()
  end.

(** What [Login] does once the password is right. *)
Definition open_session users sessions (ids : IDGenerator) (refreshGen : TokenGenerator)
    (jwtIssuer : JWTIssuer) audit (log : Logger) (user : User)
    (callerIP userAgent : string) : Prog (World S) (result Tokens) :=
  reset ← on_store (UserStore_ResetFailedAttempts users (User_ID user));
  match reset with
  | Err err =>
    log_Error log "login: reset failed-attempts error"
      {["error" := error_text err; "user_id" := User_ID user]}
  | Ok _ => mret ()
  end;;
  sessionID ← on_amb (IDGenerator_New ids);
  match sessionID with
  | Err err => mret (Err err)
  | Ok sessionID =>
    rawRefresh ← on_amb (TokenGenerator_New refreshGen);
    match rawRefresh with
    | Err err => mret (Err err)
    | Ok rawRefresh =>
      let session := new_Session sessionID sessionID (User_ID user)
        (HashToken rawRefresh) callerIP userAgent in
      created ← on_store (SessionStore_Create sessions session);
      match created with
      | Err err => mret (Err err)
      | Ok _ =>
        accessToken ← on_amb (JWTIssuer_Issue jwtIssuer (User_ID user));
        match accessToken with
        | Err err => mret (Err err)
        | Ok accessToken =>
          record_or_log audit log
            (new_AuditEvent EventLoginSuccess (User_ID user) callerIP None)
            "login: audit record failed" {["user_id" := User_ID user]};;
          log_Info log "login: completed" {["user_id" := User_ID user]};;
          mret (Ok (mkTokens accessToken rawRefresh))
        end
      end
    end
  end.

Definition Login users sessions (hasher : Hasher) (ids : IDGenerator)
    (refreshGen : TokenGenerator) (jwtIssuer : JWTIssuer) (limiter : RateLimiter)
    audit (log : Logger) (email password callerIP userAgent : string)
    (lockoutThreshold : Z) (lockoutDuration : duration) :
    Prog (World S) (result Tokens) :=
  allowed ← on_limiter (RateLimiter_Allow limiter
    ("login:" +:+ callerIP +:+ ":" +:+ email));
  match allowed with
  | Err err =>
    log_Error log "login: rate limiter error" {["error" := error_text err]};;
    mret (Err err)
  | Ok false =>
    log_Warn log "login: rate limited" {["ip" := callerIP]};;
    mret (Err ErrRateLimited)
  | Ok true =>
    user ← on_store (UserStore_GetByEmail users email);
    match user with
    | Err _ =>
      recordLoginFailure audit log EmptyString callerIP "no_such_user";;
      mret (Err ErrInvalidCredentials)
    | Ok user =>
      locked ← is_locked user;
      if (locked : bool) then
        log_Warn log "login: attempt on locked account" {["user_id" := User_ID user]};;
        mret (Err ErrAccountLocked)
      else
        match Hasher_Compare hasher (User_PasswordHash user) password with
        | Err _ =>
          recordLoginFailure audit log (User_ID user) callerIP "wrong_password";;
          count_failure users audit log user callerIP lockoutThreshold lockoutDuration;;
          mret (Err ErrInvalidCredentials)
        | Ok _ =>
          open_session users sessions ids refreshGen jwtIssuer audit log user
            callerIP userAgent
        end
    end
  end.

(** ** logout.go *)

Definition Logout sessions audit (log : Logger) (sessionID userID : string) :
    Prog (World S) (result ()) :=
  session ← on_store (SessionStore_GetByID sessions sessionID);
  match session with
  | Err err => mret (Err err)
  | Ok session =>
    if bool_decide (Session_UserID session ≠ userID) then
      log_Warn log "logout: ownership mismatch attempt"
        {["session_id" := sessionID; "requesting_user" := userID]};;
      mret (Err ErrSessionNotOwned)
    else
      revoked ← on_store (SessionStore_Revoke sessions sessionID);
      match revoked with
      | Err err => mret (Err err)
      | Ok _ =>
        record_or_log audit log (new_AuditEvent EventLogout userID EmptyString None)
          "logout: audit record failed" {["user_id" := userID]};;
        log_Info log "logout: completed"
          {["user_id" := userID; "session_id" := sessionID]};;
        mret (Ok ())
      end
  end.

Definition LogoutAll sessions audit (log : Logger) (userID : string) :
    Prog (World S) (result ()) :=
  revoked ← on_store (SessionStore_RevokeAllForUser sessions userID);
  match revoked with
  | Err err => mret (Err err)
  | Ok _ =>
    record_or_log audit log (new_AuditEvent EventLogoutAll userID EmptyString None)
      "logout_all: audit record failed" {["user_id" := userID]};;
    log_Info log "logout_all: completed" {["user_id" := userID]};;
    mret (Ok ())
  end.

(** ** password.go *)

Definition ChangePassword users sessions (hasher : Hasher) audit (log : Logger)
    (userID currentPassword newPassword : string) : Prog (World S) (result ()) :=
  user ← on_store (UserStore_GetByID users userID);
  match user with
  | Err err => mret (Err err)
  | Ok user =>
    match Hasher_Compare hasher (User_PasswordHash user) currentPassword with
    | Err _ =>
      log_Warn log "change password: current password mismatch" {["user_id" := userID]};;
      mret (Err ErrInvalidCredentials)
    | Ok _ =>
      newHash ← on_amb (Hasher_Hash hasher newPassword);
      match newHash with
      | Err err => mret (Err err)
      | Ok newHash =>
        updated ← on_store (UserStore_UpdatePasswordHash users userID newHash);
        match updated with
        | Err err => mret (Err err)
        | Ok _ =>
          revoked ← on_store (SessionStore_RevokeAllForUser sessions userID);
          match revoked with
          | Err err =>
            log_Error log "change password: session revocation failed"
              {["error" := error_text err; "user_id" := userID]}
          | Ok _ => mret ()
          end;;
          record_or_log audit log
            (new_AuditEvent EventPasswordChanged userID EmptyString None)
            "change password: audit record failed" {["user_id" := userID]};;
          log_Info log "change password: completed" {["user_id" := userID]};;
          mret (Ok ())
        end
      end
    end
  end.

(** ** account.go *)

Definition DeleteAccount users sessions (hasher : Hasher) audit (log : Logger)
    (userID currentPassword : string) : Prog (World S) (result ()) :=
  user ← on_store (UserStore_GetByID users userID);
  match user with
  | Err err => mret (Err err)
  | Ok user =>
    match Hasher_Compare hasher (User_PasswordHash user) currentPassword with
    | Err _ =>
      log_Warn log "delete account: password mismatch" {["user_id" := userID]};;
      mret (Err ErrInvalidCredentials)
    | Ok _ =>
      revoked ← on_store (SessionStore_RevokeAllForUser sessions userID);
      match revoked with
      | Err err =>
        log_Error log "delete account: session revocation failed"
          {["error" := error_text err; "user_id" := userID]}
      | Ok _ => mret ()
      end;;
      record_or_log audit log
        (new_AuditEvent EventAccountDeleted userID EmptyString None)
        "delete account: audit record failed" {["user_id" := userID]};;
      deleted ← on_store (UserStore_Delete users userID);
      match deleted with
      | Err err => mret (Err err)
      | Ok _ =>
        log_Info log "account deleted" {["user_id" := userID]};;
        mret (Ok ())
      end
    end
  end.

(** ** email.go *)

Definition RequestEmailChange users verifications (sender : EmailSender)
    (tokenGen : TokenGenerator) (ids : IDGenerator) audit (log : Logger)
    (userID newEmail : string) : Prog (World S) (result ()) :=
  existing ← on_store (UserStore_GetByEmail users newEmail);
  match existing with
  | Ok _ => mret (Err ErrUserExists)
  | Err _ =>
    rawToken ← on_amb (TokenGenerator_New tokenGen);
    match rawToken with
    | Err err => mret (Err err)
    | Ok rawToken =>
      id ← on_amb (IDGenerator_New ids);
      match id with
      | Err err => mret (Err err)
      | Ok id =>
        now ← on_amb time_Now;
        let vt := new_VerificationToken id userID PurposeEmailChange
          (HashToken rawToken) newEmail (time_Add now changeEmailTokenTTL) in
        created ← on_store (VerificationStore_Create verifications vt);
        match created with
        | Err err => mret (Err err)
        | Ok _ =>
          sent ← send_mail sender newEmail rawToken;
          match sent with
          | Err err => mret (Err err)
          | Ok _ =>
            record_or_log audit log
              (new_AuditEvent EventEmailChangeRequested userID EmptyString None)
              "email change request: audit record failed" {["user_id" := userID]};;
            log_Info log "email change requested" {["user_id" := userID]};;
            mret (Ok ())
          end
        end
      end
    end
  end.

Definition ConfirmEmailChange users verifications audit (log : Logger)
    (rawToken : string) : Prog (World S) (result ()) :=
  vt ← on_store (VerificationStore_GetByTokenHash verifications (HashToken rawToken));
  match vt with
  | Err _ => mret (Err ErrVerificationTokenInvalid)
  | Ok vt =>
    if bool_decide (VerificationToken_Purpose vt ≠ PurposeEmailChange) then
      mret (Err ErrVerificationTokenInvalid)
    else if bool_decide (VerificationToken_UsedAt vt ≠ None) then
      mret (Err ErrVerificationTokenInvalid)
    else
      now ← on_amb time_Now;
      if time_After now (VerificationToken_ExpiresAt vt) then
        mret (Err ErrVerificationTokenExpired)
      else
        updated ← on_store (UserStore_UpdateEmail users (VerificationToken_UserID vt)
          (VerificationToken_NewEmail vt));
        match updated with
        | Err err => mret (Err err)
        | Ok _ =>
          marked ← on_store (VerificationStore_MarkUsed verifications
            (VerificationToken_ID vt));
          match marked with
          | Err err =>
            log_Error log "confirm email change: mark-used failed"
              {["error" := error_text err; "user_id" := VerificationToken_UserID vt]}
          | Ok _ => mret ()
          end;;
          record_or_log audit log
            (new_AuditEvent EventEmailChanged (VerificationToken_UserID vt) EmptyString None)
            "confirm email change: audit record failed"
            {["user_id" := VerificationToken_UserID vt]};;
          log_Info log "email change confirmed"
            {["user_id" := VerificationToken_UserID vt]};;
          mret (Ok ())
        end
  end.

End auth.
