(* ===== verification/Session.v ===== *)
(** * Session listing and revocation (package session) *)
From S2P Require Import Prelude Errors Runtime Store Logger RateLimiter World Auth.

Section session.
Context {S : Type}.

Implicit Types (sessions : SessionStore S) (audit : AuditStore S).

Definition List (sessions : SessionStore S) (userID : string) :
    Prog (World S) (result (list Session)) :=
  on_store (SessionStore_ListByUser sessions userID).

Definition Revoke (sessions : SessionStore S) (audit : AuditStore S) (log : Logger)
    (sessionID userID : string) : Prog (World S) (result ()) :=
  session ← on_store (SessionStore_GetByID sessions sessionID);
  match session with
  | Err err => mret (Err err)
  | Ok session =>
    if bool_decide (Session_UserID session ≠ userID) then
      log_Warn log "session revoke: ownership mismatch attempt"
        {["session_id" := sessionID; "requesting_user" := userID]};;
      mret (Err ErrSessionNotOwned)
    else
      revoked ← on_store (SessionStore_Revoke sessions sessionID);
      match revoked with
      | Err err => mret (Err err)
      | Ok _ =>
        record_or_log audit log
          (new_AuditEvent EventSessionRevoked userID EmptyString
             (Some {["session_id" := sessionID]}))
          "session revoke: audit record failed" {["user_id" := userID]};;
        log_Info log "session revoke: completed"
          {["user_id" := userID; "session_id" := sessionID]};;
        mret (Ok ())
      end
  end.

End session.
