(* ===== verification/Engine.v ===== *)
(** * The engine and its public functions (config.go, engine.go, cryden.go) *)
From S2P Require Import Prelude Errors Runtime Store Logger RateLimiter World.
From S2P Require Import ConsoleLogger Security Token Auth Session.

(** ** config.go *)

(** A nil interface value is None. Numbers are Go ints and durations, zero when
    unset. *)
Record Config (S : Type) : Type := mkConfig {
  Config_JWTSecret : string;
  Config_Users : option (UserStore S);
  Config_Sessions : option (SessionStore S);
  Config_Audit : option (AuditStore S);
  Config_Verifications : option (VerificationStore S);
  Config_EmailSender : option EmailSender;
  Config_AccessTokenTTL : duration;
  Config_BcryptCost : Z;
  Config_RefreshTokenByteLength : Z;
  Config_RateLimitAttempts : Z;
  Config_RateLimitWindow : duration;
  Config_LockoutThreshold : Z;
  Config_LockoutDuration : duration;
  Config_Logger : option Logger;
}.
Arguments mkConfig {S} _ _ _ _ _ _ _ _ _ _ _ _ _ _.
Arguments Config_JWTSecret {S} _.
Arguments Config_Users {S} _.
Arguments Config_Sessions {S} _.
Arguments Config_Audit {S} _.
Arguments Config_Verifications {S} _.
Arguments Config_EmailSender {S} _.
Arguments Config_AccessTokenTTL {S} _.
Arguments Config_BcryptCost {S} _.
Arguments Config_RefreshTokenByteLength {S} _.
Arguments Config_RateLimitAttempts {S} _.
Arguments Config_RateLimitWindow {S} _.
Arguments Config_LockoutThreshold {S} _.
Arguments Config_LockoutDuration {S} _.
Arguments Config_Logger {S} _.

(** The required stores of a configuration that [validate] accepts. *)
Definition Config_validate {S} (c : Config S) :
    result (UserStore S * SessionStore S * AuditStore S) :=
  if bool_decide (Config_JWTSecret c = EmptyString) then Err ErrMissingJWTSecret else
  match Config_Users c with
  | None => Err ErrMissingUserStore
  | Some users =>
    match Config_Sessions c with
    | None => Err ErrMissingSessionStore
    | Some sessions =>
      match Config_Audit c with
      | None => Err ErrMissingAuditStore
      | Some audit => Ok (users, sessions, audit)
      end
    end
  end.

(** [if *z == 0 { *z = d }]. *)
Definition default_to (z d : Z) : Z := if bool_decide (z = 0) then d else z.

Definition Config_applyDefaults `{Env} {S} (c : Config S) : Config S :=
  mkConfig (Config_JWTSecret c) (Config_Users c) (Config_Sessions c) (Config_Audit c)
    (Config_Verifications c) (Config_EmailSender c)
    (default_to (Config_AccessTokenTTL c) (15 * Minute))
    (default_to (Config_BcryptCost c) 10)
    (default_to (Config_RefreshTokenByteLength c) 32)
    (default_to (Config_RateLimitAttempts c) 10)
    (default_to (Config_RateLimitWindow c) Minute)
    (default_to (Config_LockoutThreshold c) 5)
    (default_to (Config_LockoutDuration c) (15 * Minute))
    (match Config_Logger c with
     | None => Some NewConsoleJSONLogger
     | Some l => Some l
     end).

(** ** engine.go *)

Record Engine (S : Type) : Type := mkEngine {
  e_users : UserStore S;
  e_sessions : SessionStore S;
  e_audit : AuditStore S;
  e_verifications : option (VerificationStore S);
  e_emailSender : option EmailSender;
  e_hasher : Hasher;
  e_ids : IDGenerator;
  e_rateLimiter : RateLimiter;
  e_refreshGen : TokenGenerator;
  e_jwtIssuer : JWTIssuer;
  e_log : Logger;
  e_lockoutThreshold : Z;
  e_lockoutDuration : duration;
}.
Arguments mkEngine {S} _ _ _ _ _ _ _ _ _ _ _ _ _.
Arguments e_users {S} _.
Arguments e_sessions {S} _.
Arguments e_audit {S} _.
Arguments e_verifications {S} _.
Arguments e_emailSender {S} _.
Arguments e_hasher {S} _.
Arguments e_ids {S} _.
Arguments e_rateLimiter {S} _.
Arguments e_refreshGen {S} _.
Arguments e_jwtIssuer {S} _.
Arguments e_log {S} _.
Arguments e_lockoutThreshold {S} _.
Arguments e_lockoutDuration {S} _.

Section engine.
Context `{Env, Bcrypt, JWT} {S : Type}.

(** [New]. The logger is never nil after [applyDefaults]. *)
Definition New (cfg : Config S) : result (Engine S) :=
  '(users, sessions, audit) ← Config_validate cfg;
  let cfg := Config_applyDefaults cfg in
  hasher ← NewBcryptHasher (Config_BcryptCost cfg);
  refreshGen ← NewCryptoRandTokenGenerator (Config_RefreshTokenByteLength cfg);
  jwtIssuer ← NewJWTIssuer (Config_JWTSecret cfg) (Config_AccessTokenTTL cfg);
  Ok (mkEngine users sessions audit (Config_Verifications cfg) (Config_EmailSender cfg)
        (BcryptHasher_Hasher hasher) NewUUIDv7Generator
        (NewInMemoryRateLimiter (Config_RateLimitAttempts cfg) (Config_RateLimitWindow cfg))
        (CryptoRand_TokenGenerator refreshGen) jwtIssuer
        (default NewConsoleJSONLogger (Config_Logger cfg))
        (Config_LockoutThreshold cfg) (Config_LockoutDuration cfg)).

(** ** cryden.go *)

Definition cryden_SignUp (e : Engine S) (email password callerIP : string) :
    Prog (World S) (result User) :=
  SignUp (e_users e) (e_hasher e) (e_ids e) (e_rateLimiter e) (e_audit e) (e_log e)
    email password callerIP.

Definition cryden_Login (e : Engine S) (email password callerIP userAgent : string) :
    Prog (World S) (result Tokens) :=
  Login (e_users e) (e_sessions e) (e_hasher e) (e_ids e) (e_refreshGen e)
    (e_jwtIssuer e) (e_rateLimiter e) (e_audit e) (e_log e)
    email password callerIP userAgent (e_lockoutThreshold e) (e_lockoutDuration e).

Definition cryden_ChangePassword (e : Engine S)
    (userID currentPassword newPassword : string) : Prog (World S) (result ()) :=
  ChangePassword (e_users e) (e_sessions e) (e_hasher e) (e_audit e) (e_log e)
    userID currentPassword newPassword.

Definition cryden_DeleteAccount (e : Engine S) (userID currentPassword : string) :
    Prog (World S) (result ()) :=
  DeleteAccount (e_users e) (e_sessions e) (e_hasher e) (e_audit e) (e_log e)
    userID currentPassword.

Definition cryden_RequestEmailChange (e : Engine S) (userID newEmail : string) :
    Prog (World S) (result ()) :=
  match e_verifications e, e_emailSender e with
  | Some verifications, Some sender =>
      RequestEmailChange (e_users e) verifications sender (e_refreshGen e) (e_ids e)
        (e_audit e) (e_log e) userID newEmail
  | _, _ => mret (Err ErrEmailChangeNotConfigured)
  end.

Definition cryden_ConfirmEmailChange (e : Engine S) (rawToken : string) :
    Prog (World S) (result ()) :=
  match e_verifications e with
  | Some verifications =>
      ConfirmEmailChange (e_users e) verifications (e_audit e) (e_log e) rawToken
  | None => mret (Err ErrEmailChangeNotConfigured)
  end.

Definition cryden_Logout (e : Engine S) (sessionID userID : string) :
    Prog (World S) (result ()) :=
  Logout (e_sessions e) (e_audit e) (e_log e) sessionID userID.

Definition cryden_LogoutAll (e : Engine S) (userID : string) : Prog (World S) (result ()) :=
  LogoutAll (e_sessions e) (e_audit e) (e_log e) userID.

Definition cryden_RefreshToken (e : Engine S) (rawRefreshToken : string) :
    Prog (World S) (result Tokens) :=
  '(res, err) ← Rotate (e_sessions e) (e_refreshGen e) (e_ids e) rawRefreshToken;
  match err with
  | Some err =>
    (if bool_decide (err = ErrTokenReused) then
       record_or_log (e_audit e) (e_log e)
         (new_AuditEvent EventTokenReuseDetected
            (Session_UserID (RefreshResult_Session res)) EmptyString None)
         "refresh: audit record failed" ∅
     else mret ());;
    mret (Err err)
  | None =>
    accessToken ← on_amb (JWTIssuer_Issue (e_jwtIssuer e)
      (Session_UserID (RefreshResult_Session res)));
    match accessToken with
    | Err err => mret (Err err)
    | Ok accessToken =>
      record_or_log (e_audit e) (e_log e)
        (new_AuditEvent EventTokenRotated
           (Session_UserID (RefreshResult_Session res)) EmptyString None)
        "refresh: audit record failed" ∅;;
      mret (Ok (mkTokens accessToken (RefreshResult_RawToken res)))
    end
  end.

Definition cryden_VerifyToken (e : Engine S) (accessToken : string) :
    Prog (World S) (result string) :=
  on_amb (JWTIssuer_Verify (e_jwtIssuer e) accessToken).

Definition cryden_ListSessions (e : Engine S) (userID : string) :
    Prog (World S) (result (list Session)) :=
  List (e_sessions e) userID.

Definition cryden_RevokeSession (e : Engine S) (sessionID userID : string) :
    Prog (World S) (result ()) :=
  Revoke (e_sessions e) (e_audit e) (e_log e) sessionID userID.

End engine.
