(* ===== verification/Sample.v ===== *)
(** * A concrete environment

    One instance of every parameter of the model, with the laws its class asks
    for: the environment in which the examples of the other files run. bcrypt
    and the JWT library are stood in for by the simplest functions with their
    documented behaviour (a hash is the marked password, a token spells out the
    claims it signs); nothing is proved of the program from these choices. *)
From stdpp Require Import pretty countable.
From S2P Require Import Prelude Errors Runtime Store Logger RateLimiter World Memory.
From S2P Require Import Security Token Engine.

(** ** The outside world: a second passes at every event, nothing fails *)

Definition sample_env : Env := {|
  env_elapsed := λ _, 1000000000%N;
  env_range := λ _ _, 0;
  env_rand_err := λ _, None;
  env_rand_byte := λ k i, ascii_of_nat (k + i);
  env_uuid := λ k, Ok ("id" +:+ pretty k);
  env_send := λ _, None;
  env_db_fault := λ _, NoFault;
  env_db_now := λ k, Z.of_nat k * Second;
  env_db_uuid := λ k, "ev" +:+ pretty k;
|}.

(** ** bcrypt *)

Definition sample_bcrypt : Bcrypt := {|
  bcrypt_MinCost := 4;
  bcrypt_MaxCost := 31;
  bcrypt_GenerateFromPassword := λ _ pw _, Ok ("$2a$" +:+ pw);
  bcrypt_CompareHashAndPassword := λ h pw,
    if bool_decide (h = "$2a$" +:+ pw) then Ok () else Err (ErrExternal "mismatch");
|}.

Lemma sample_bcrypt_laws : @BcryptLaws sample_bcrypt.
Proof.
  split; simpl; [lia|]. intros ??? h [= <-]. by rewrite bool_decide_true.
Qed.

(** ** JWT *)

Inductive SampleMethod : Type := HS256 | HS384 | RS256.

#[export] Instance SampleMethod_eq_dec : EqDecision SampleMethod.
Proof. solve_decision. Defined.

(** The claims of a token, spelled out as a string that can be read back. *)
Definition Signed : Type := nat * string * option Z * option Z * string.

Definition method_code (m : SampleMethod) : nat :=
  match m with HS256 => 0 | HS384 => 1 | RS256 => 2 end%nat.
Definition method_of_code (n : nat) : option SampleMethod :=
  match n with 0 => Some HS256 | 1 => Some HS384 | 2 => Some RS256 | _ => None end%nat.

Fixpoint pos_digits (p : positive) : string :=
  match p with
  | xH => EmptyString
  | xO p => String "0" (pos_digits p)
  | xI p => String "1" (pos_digits p)
  end.
Fixpoint pos_of_digits (s : string) : positive :=
  match s with
  | EmptyString => xH
  | String c s => if bool_decide (c = "1"%char) then xI (pos_of_digits s)
                  else xO (pos_of_digits s)
  end.

Lemma pos_of_digits_digits p : pos_of_digits (pos_digits p) = p.
Proof. induction p as [p IH|p IH|]; simpl; congruence. Qed.

Definition sign_text (m : SampleMethod) (c : RegisteredClaims) (key : string) : string :=
  pos_digits (encode (A:=Signed) (method_code m, claims_Subject c, claims_IssuedAt c,
    claims_ExpiresAt c, key)).

Definition parse_text (s : string) : option (SampleMethod * RegisteredClaims * string) :=
  '(n, sub, iat, exp, key) ← decode (A:=Signed) (pos_of_digits s);
  m ← method_of_code n;
  Some (m, mkRegisteredClaims sub iat exp, key).

Lemma parse_sign_text m c key : parse_text (sign_text m c key) = Some (m, c, key).
Proof.
  unfold parse_text, sign_text. rewrite pos_of_digits_digits, decode_encode.
  by destruct c, m.
Qed.

Definition sample_parse (now : Z) (s : string) (kf : SampleMethod → result string) :
    result (RegisteredClaims * bool) :=
  match parse_text s with
  | None => Err (ErrExternal "token is malformed")
  | Some (m, c, key) =>
      key' ← kf m;
      if bool_decide (key ≠ key') then Err (ErrExternal "token signature is invalid") else
      match claims_ExpiresAt c with
      | Some e => if bool_decide (e ≤ now) then Err (ErrExternal "token is expired")
                  else Ok (c, true)
      | None => Ok (c, true)
      end
  end.

Definition sample_jwt : JWT := {|
  jwt_Method := SampleMethod;
  jwt_HS256 := HS256;
  jwt_isHMAC := λ m, bool_decide (m ≠ RS256);
  jwt_NewNumericDate := λ t, t / Second * Second;
  jwt_SignedString := λ m c key, Ok (sign_text m c key);
  jwt_ParseWithClaims := sample_parse;
|}.

Lemma sample_jwt_laws : @JWTLaws sample_jwt.
Proof.
  split; simpl.
  - done.
  - intros t. unfold Second.
    pose proof (Z.div_mod t 1000000000). pose proof (Z.mod_pos_bound t 1000000000). lia.
  - eauto.
  - intros m c key tok now kf [= <-] _ Hkf Hexp. unfold sample_parse.
    rewrite parse_sign_text, Hkf. simpl. rewrite bool_decide_false by auto.
    destruct (claims_ExpiresAt c) as [e|]; [|done].
    rewrite bool_decide_false; [done|]. specialize (Hexp e eq_refl). lia.
  - intros m c key tok now kf e [= <-] He Hle. unfold sample_parse.
    rewrite parse_sign_text. simpl. destruct (kf m); simpl; [|eauto].
    case_bool_decide; [eauto|]. rewrite He, bool_decide_true by done. eauto.
  - intros m c key tok now kf err [= <-] Hkf. unfold sample_parse.
    rewrite parse_sign_text. simpl. rewrite Hkf. simpl. eauto.
Qed.

#[export] Hint Resolve sample_bcrypt_laws sample_jwt_laws : cryden.

(** ** An engine *)

(** A logger that writes nothing. *)
Definition quiet_logger : Logger := mkLogger (λ _ _ _, event (H:=sample_env) (λ _ _, [])).

(** An e-mail sender that answers as the environment says. *)
Definition sample_sender : EmailSender := mkEmailSender (λ _ _, event (H:=sample_env)
  (λ k _, match @env_send sample_env k with
          | Some msg => Err (ErrExternal msg)
          | None => Ok ()
          end)).

(** The configuration of cmd/smoketest over the in-memory stores. *)
Definition sample_config : Config MemHeap :=
  mkConfig "smoketest-secret" (Some (MemUserStore (H:=sample_env)))
    (Some (MemSessionStore (H:=sample_env))) (Some (MemAuditStore (H:=sample_env)))
    (Some (MemVerificationStore (H:=sample_env))) (Some sample_sender)
    0 0 0 0 0 0 0 (Some quiet_logger).

(** What [New] builds from it. *)
Definition sample_engine : Engine MemHeap :=
  mkEngine (MemUserStore (H:=sample_env)) (MemSessionStore (H:=sample_env))
    (MemAuditStore (H:=sample_env)) (Some (MemVerificationStore (H:=sample_env)))
    (Some sample_sender) (BcryptHasher_Hasher (H:=sample_env) (H0:=sample_bcrypt)
      (mkBcryptHasher 10))
    (NewUUIDv7Generator (H:=sample_env)) (NewInMemoryRateLimiter (H:=sample_env) 10 Minute)
    (CryptoRand_TokenGenerator (H:=sample_env) (mkCryptoRandTokenGenerator 32))
    (mkJWTIssuer "smoketest-secret" (15 * Minute)) quiet_logger 5 (15 * Minute).

Example sample_engine_New :
  New (H:=sample_env) (H0:=sample_bcrypt) (S:=MemHeap) sample_config = Ok sample_engine.
Proof. reflexivity. Qed.

Definition mem_world0 : World MemHeap := mkWorld NewMemHeap ∅ (mkAmb 0 0) [] [] [].
