(* ===== verification/RateLimiterTheorems.v ===== *)
(** * The rate limiter limits, and only that (security/ratelimiter.go)

    Over any history of calls with a clock that does not run backwards: how many
    calls of a key pass in any stretch of time as long as the window, that a
    refusal means the limit really was used up, and that keys do not influence
    one another. *)
From S2P Require Import Prelude Errors Runtime RateLimiter Sample.

Section limiter.
Context (r : InMemoryRateLimiter).

Notation limit := (InMemoryRateLimiter_limit r).
Notation window := (InMemoryRateLimiter_window r).

(** The calls of a key that passed between two instants. *)
Definition passed (key : string) (t t' : time) (cs : list Call) : Z :=
  Z.of_nat (length (filter (λ c, call_key c = key ∧ call_ok c = true ∧
    t ≤ call_time c ∧ call_time c ≤ t') cs)).

(** The clock does not run backwards. *)
Fixpoint ticking (now : time) (reqs : list (string * time)) : Prop :=
  match reqs with
  | [] => True
  | (_, t) :: reqs => now ≤ t ∧ ticking t reqs
  end.

Definition counted (c : windowCounter) : Prop :=
  1 ≤ windowCounter_count c ≤ Z.max 1 limit.

Lemma passed_nil key t t' : passed key t t' [] = 0.
Proof. done. Qed.

Lemma passed_cons key t t' c cs :
  passed key t t' (c :: cs) =
    (if decide (call_key c = key ∧ call_ok c = true ∧ t ≤ call_time c ∧ call_time c ≤ t')
     then 1 else 0) + passed key t t' cs.
Proof. unfold passed. rewrite filter_cons. case_decide; simpl length; lia. Qed.

(** One call, as the counter of its key sees it. *)
Lemma allow_at_same key now st :
  limit ≤ int64_max →
  (∀ c, st !! key = Some c → counted c) →
  let '(ok, st') := allow_at r key now st in
  ∃ c', st' !! key = Some c' ∧ counted c' ∧
  match st !! key with
  | None => ok = true ∧ c' = mkWindowCounter 1 (now + window)
  | Some c =>
      if decide (windowCounter_windowEnd c < now)
      then ok = true ∧ c' = mkWindowCounter 1 (now + window)
      else if decide (limit ≤ windowCounter_count c)
      then ok = false ∧ c' = c
      else ok = true ∧ c' = mkWindowCounter (windowCounter_count c + 1) (windowCounter_windowEnd c)
  end.
Proof.
  intros Hmax Hst. unfold allow_at, time_After, time_Add.
  assert (counted (mkWindowCounter 1 (now + window))) by (unfold counted; simpl; lia).
  destruct (st !! key) as [c|] eqn:Hc.
  - specialize (Hst c eq_refl). unfold counted in Hst.
    rewrite (bool_decide_decide (windowCounter_windowEnd c < now)),
      (bool_decide_decide (limit ≤ windowCounter_count c)).
    repeat case_decide; eexists; (split; [first [apply lookup_insert_eq|done]|]); split; try done.
    + unfold counted; simpl. rewrite int64_small by (unfold int64_min; lia). lia.
    + rewrite int64_small by (unfold int64_min; lia). done.
  - eexists. split; [apply lookup_insert_eq|]. done.
Qed.

Lemma allow_at_other key key' now st :
  key ≠ key' → (allow_at r key' now st).2 !! key = st !! key.
Proof.
  intros Hne. unfold allow_at. destruct (st !! key') as [c|]; simpl; repeat case_match; simpl;
    try done; by rewrite lookup_insert_ne by congruence.
Qed.

(** What a counter leaves of an interval [t, t + window]. *)
Definition budget (t : time) (c : option windowCounter) : Z :=
  match c with
  | None => Z.max 1 limit
  | Some c =>
      Z.max 0 (limit - windowCounter_count c) +
      (if decide (t + window ≤ windowCounter_windowEnd c) then 0 else Z.max 1 limit)
  end.

Lemma budget_bound t c :
  (∀ x, c = Some x → counted x) → budget t c ≤ 2 * Z.max 1 limit - 1.
Proof.
  intros Hc. destruct c as [x|]; simpl; [|lia]. specialize (Hc x eq_refl). unfold counted in Hc.
  case_decide; lia.
Qed.

Lemma passed_after key t t' reqs now st :
  ticking now reqs → t' < now → passed key t t' (calls r reqs st).1 = 0.
Proof.
  revert now st. induction reqs as [|[k s] reqs IH]; intros now st Ht Hlt; [done|].
  destruct Ht as [? Ht]. simpl. destruct (allow_at r k s st) as [ok st'].
  specialize (IH s st' Ht ltac:(lia)). destruct (calls r reqs st'). simpl in *.
  rewrite passed_cons, IH. rewrite decide_False; [done|]. simpl. lia.
Qed.

(** Inside the interval, calls only spend the budget. *)
Lemma passed_budget key t reqs now st :
  limit ≤ int64_max → t ≤ now → ticking now reqs →
  (∀ c, st !! key = Some c → counted c) →
  passed key t (t + window) (calls r reqs st).1 ≤ budget t (st !! key).
Proof.
  intros Hmax. revert now st. induction reqs as [|[k s] reqs IH]; intros now st Hnow Ht Hst.
  { rewrite passed_nil. unfold budget. destruct (st !! key); [case_decide|]; lia. }
  destruct Ht as [Hs Ht]. simpl. destruct (allow_at r k s st) as [ok st'] eqn:Ha.
  destruct (calls r reqs st') as [cs st''] eqn:Hcs. simpl.
  rewrite passed_cons. cbn [call_key call_ok call_time].
  destruct (decide (k = key)) as [->|Hne].
  2:{ pose proof (allow_at_other key k s st ltac:(done)) as Ho. rewrite Ha in Ho. simpl in Ho.
      rewrite decide_False by naive_solver. specialize (IH s st' ltac:(lia) Ht).
      rewrite Hcs, Ho in IH. simpl in IH. by apply IH. }
  destruct (decide (t + window < s)) as [Hout|Hin].
  { pose proof (passed_after key t (t + window) reqs s st' Ht Hout) as Hz. rewrite Hcs in Hz.
    simpl in Hz. rewrite Hz, decide_False by lia.
    unfold budget. destruct (st !! key); [case_decide|]; lia. }
  pose proof (allow_at_same key s st Hmax Hst) as Hsame. rewrite Ha in Hsame.
  destruct Hsame as (c' & Hc' & Hcnt & Hcase).
  specialize (IH s st' ltac:(lia) Ht). rewrite Hcs, Hc' in IH. simpl in IH.
  specialize (IH ltac:(congruence)). revert IH Hcase. unfold budget.
  destruct (st !! key) as [c|] eqn:Hc.
  - specialize (Hst c eq_refl). unfold counted in Hst. intros IH Hcase.
    repeat (case_decide; simpl in *); destruct Hcase as [-> ->]; simpl in *;
      try lia; naive_solver lia.
  - intros IH [-> ->]. simpl in *. repeat case_decide; naive_solver lia.
Qed.

(** C36: in any stretch of time as long as the window, at most twice the limit
    less one calls of a key pass, whatever calls were made before and for which
    keys: the price of fixed windows, and the exact bound. A limit of zero or less
    counts as one. *)
Theorem limiter_sliding_bound key t reqs now st :
  limit ≤ int64_max → ticking now reqs → (∀ c, st !! key = Some c → counted c) →
  passed key t (t + window) (calls r reqs st).1 ≤ 2 * Z.max 1 limit - 1.
Proof.
  intros Hmax. revert now st. induction reqs as [|[k s] reqs IH]; intros now st Ht Hst.
  { rewrite passed_nil. lia. }
  destruct (decide (t ≤ s)) as [Hin|Hout].
  { etrans; [|apply (budget_bound t (st !! key)); done].
    apply (passed_budget key t _ s); [done|done| |done]. destruct Ht. split; [lia|done]. }
  destruct Ht as [Hs Ht]. simpl. destruct (allow_at r k s st) as [ok st'] eqn:Ha.
  specialize (IH s st' Ht). destruct (calls r reqs st') as [cs st'']. simpl in *.
  rewrite passed_cons, decide_False by (simpl; lia). apply IH.
  destruct (decide (k = key)) as [->|Hne].
  - pose proof (allow_at_same key s st Hmax Hst) as Hsame. rewrite Ha in Hsame.
    destruct Hsame as (c' & Hc' & Hcnt & _). congruence.
  - pose proof (allow_at_other key k s st ltac:(done)) as Ho. rewrite Ha in Ho. simpl in Ho.
    by rewrite Ho.
Qed.

(** Keys are independent: the answers to the calls of one key are the answers
    it would get if no other key had been used at all. *)
Theorem limiter_keys_independent key reqs st st' :
  st !! key = st' !! key →
  filter (λ c, call_key c = key) (calls r reqs st).1 =
    (calls r (filter (λ q, q.1 = key) reqs) st').1.
Proof.
  revert st st'. induction reqs as [|[k s] reqs IH]; intros st st' Heq; [done|].
  simpl. destruct (allow_at r k s st) as [ok st1] eqn:Ha.
  specialize (IH st1). destruct (calls r reqs st1) as [cs ?]. simpl in *.
  rewrite !filter_cons. simpl. case_decide as Hk; subst.
  - simpl. destruct (allow_at r key s st') as [ok' st1'] eqn:Ha'.
    assert (ok' = ok ∧ st1 !! key = st1' !! key) as [-> Hst].
    { revert Ha Ha'. unfold allow_at. rewrite Heq. destruct (st' !! key) as [c|] eqn:Hc.
      - repeat case_match; intros [= <- <-] [= <- <-]; simpl; rewrite ?lookup_insert_eq;
          split; congruence.
      - intros [= <- <-] [= <- <-]. by rewrite !lookup_insert_eq. }
    specialize (IH st1' Hst). destruct (calls r _ st1'). simpl in *. by rewrite IH.
  - apply IH. pose proof (allow_at_other key k s st ltac:(done)) as Ho. rewrite Ha in Ho.
    simpl in Ho. congruence.
Qed.

(** The counter of a key counts calls that passed since its window began. *)
Definition backed (key : string) (hist : list Call) (now : time) (st : LimiterState) : Prop :=
  ∀ c, st !! key = Some c → counted c ∧ windowCounter_windowEnd c - window ≤ now ∧
    windowCounter_count c ≤ passed key (windowCounter_windowEnd c - window) now hist.

Lemma passed_app key t t' cs1 cs2 :
  passed key t t' (cs1 ++ cs2) = passed key t t' cs1 + passed key t t' cs2.
Proof. unfold passed. rewrite filter_app, length_app. lia. Qed.

Lemma passed_later key t t1 t2 cs : t1 ≤ t2 → passed key t t1 cs ≤ passed key t t2 cs.
Proof.
  intros Hle. induction cs as [|c cs IH]; [done|]. rewrite !passed_cons.
  case_decide; case_decide; naive_solver lia.
Qed.

Lemma passed_earlier key t1 t2 t cs : t1 ≤ t2 → passed key t2 t cs ≤ passed key t1 t cs.
Proof.
  intros Hle. induction cs as [|c cs IH]; [done|]. rewrite !passed_cons.
  case_decide; case_decide; naive_solver lia.
Qed.

Lemma passed_nonneg key t t' cs : 0 ≤ passed key t t' cs.
Proof. unfold passed. lia. Qed.

Lemma backed_step key k s hist now st :
  0 ≤ window → limit ≤ int64_max → now ≤ s → backed key hist now st →
  backed key (hist ++ [mkCall k s (allow_at r k s st).1]) s (allow_at r k s st).2.
Proof.
  intros Hw Hmax Hs Hb c Hc. destruct (decide (k = key)) as [->|Hne].
  2:{ rewrite allow_at_other in Hc by done. destruct (Hb _ Hc) as (? & ? & Hp). split; [done|].
      split; [lia|]. rewrite passed_app. pose proof (passed_nonneg key
        (windowCounter_windowEnd c - window) s [mkCall k s (allow_at r k s st).1]).
      pose proof (passed_later key (windowCounter_windowEnd c - window) now s hist Hs). lia. }
  pose proof (allow_at_same key s st Hmax (λ c Hc, proj1 (Hb c Hc))) as Hsame.
  destruct (allow_at r key s st) as [ok st']. simpl in *.
  destruct Hsame as (c' & Hc' & Hcnt & Hcase). simplify_eq. split; [done|].
  assert (windowCounter_windowEnd c - window ≤ s).
  { destruct (st !! key) as [c0|] eqn:Hc0; [destruct (Hb c0 Hc0) as (? & ? & _)|];
      repeat case_decide; destruct Hcase as [_ ->]; simpl; lia. }
  split; [done|]. rewrite passed_app, passed_cons, passed_nil. cbn [call_key call_ok call_time].
  pose proof (passed_nonneg key (windowCounter_windowEnd c - window) s hist).
  destruct (st !! key) as [c0|] eqn:Hc0; [destruct (Hb c0 Hc0) as (? & ? & Hp)|].
  - pose proof (passed_later key (windowCounter_windowEnd c0 - window) now s hist Hs).
    destruct (decide (windowCounter_windowEnd c0 < s)); [|destruct (decide (limit ≤ _))];
      destruct Hcase as [-> ->]; simpl in *; [|case_decide; naive_solver lia|];
      rewrite decide_True by (split_and!; [done..|lia|lia]); lia.
  - destruct Hcase as [-> ->]. simpl in *.
    rewrite decide_True by (split_and!; [done..|lia|lia]). lia.
Qed.

Lemma refusals_backed key reqs hist now st :
  0 ≤ window → limit ≤ int64_max → ticking now reqs → backed key hist now st →
  ∀ i t, (calls r reqs st).1 !! i = Some (mkCall key t false) →
    Z.max 1 limit ≤ passed key (t - window) t (hist ++ take i (calls r reqs st).1).
Proof.
  intros Hw Hmax. revert hist now st. induction reqs as [|[k s] reqs IH]; intros hist now st Ht Hb i t Hi.
  { simpl in Hi. by rewrite lookup_nil in Hi. }
  destruct Ht as [Hs Ht]. pose proof (backed_step key k s hist now st Hw Hmax Hs Hb) as Hb'.
  revert Hi. simpl. destruct (allow_at r k s st) as [ok st'] eqn:Ha. simpl in *.
  specialize (IH _ s st' Ht Hb'). destruct (calls r reqs st') as [cs st'']. simpl in *.
  destruct i as [|i]; simpl; intros Hi.
  - injection Hi as -> -> ->. rewrite app_nil_r.
    pose proof (allow_at_same key t st Hmax (λ c Hc, proj1 (Hb c Hc))) as Hsame.
    rewrite Ha in Hsame. destruct Hsame as (c' & _ & _ & Hcase).
    destruct (st !! key) as [c|] eqn:Hc; [|by destruct Hcase].
    destruct (Hb c Hc) as ([? _] & _ & Hp). repeat case_decide; try (by destruct Hcase).
    pose proof (passed_later key (windowCounter_windowEnd c - window) now t hist Hs).
    pose proof (passed_earlier key (t - window) (windowCounter_windowEnd c - window) t hist). lia.
  - specialize (IH i t Hi). by rewrite <- app_assoc in IH.
Qed.

(** A refusal is never arbitrary: when a call of a key is refused, at least as
    many calls of that key as the limit allows have passed within one window
    before it. In particular the first call of a key passes. *)
Theorem limiter_refusal_justified key reqs now i t :
  0 ≤ window → limit ≤ int64_max → ticking now reqs →
  (calls r reqs ∅).1 !! i = Some (mkCall key t false) →
  Z.max 1 limit ≤ passed key (t - window) t (take i (calls r reqs ∅).1).
Proof.
  intros Hw Hmax Ht Hi.
  apply (refusals_backed key reqs [] now ∅ Hw Hmax Ht) in Hi; [done|].
  intros c. by rewrite lookup_empty.
Qed.

End limiter.

(** ** Instances *)

(** Nine calls at the end of a window of ten and ten more right after it: the
    bound is reached. *)
Definition sample_limiter : InMemoryRateLimiter := mkInMemoryRateLimiter 10 Minute.
Definition burst : list (string * time) :=
  ("k", 0) :: replicate 12 ("k", Minute) ++ replicate 12 ("k", Minute + 1).

Lemma burst_ticking : ticking 0 burst.
Proof. vm_compute. repeat split; discriminate. Qed.

Example burst_reaches_bound :
  passed "k" 1 (1 + Minute) (calls sample_limiter burst ∅).1 = 19.
Proof. vm_compute. reflexivity. Qed.

Lemma limiter_sliding_bound_witness :
  passed "k" 1 (1 + Minute) (calls sample_limiter burst ∅).1 ≤ 19.
Proof.
  refine (limiter_sliding_bound sample_limiter "k" 1 burst 0 ∅ _ burst_ticking _).
  - discriminate.
  - intros c Hc. discriminate Hc.
Defined.

Lemma limiter_keys_independent_witness :
  filter (λ c, call_key c = "k") (calls sample_limiter (("other", 0) :: burst) ∅).1 =
    (calls sample_limiter (filter (λ q, q.1 = "k") (("other", 0) :: burst)) ∅).1.
Proof. apply (limiter_keys_independent sample_limiter "k"). reflexivity. Defined.

Lemma limiter_refusal_justified_witness :
  10 ≤ passed "k" (Minute - Minute) Minute (take 10 (calls sample_limiter burst ∅).1).
Proof.
  refine (limiter_refusal_justified sample_limiter "k" burst 0 10 Minute _ _ burst_ticking _).
  - discriminate.
  - discriminate.
  - vm_compute. reflexivity.
Defined.
