(* ===== verification/LimiterReference.v ===== *)
(** * What the rate limiter computes, without a counter (security/ratelimiter.go)

    A reference definition of the answers a key gets, on the list of the times of
    its calls alone: the first call opens a window, the calls up to its end belong
    to it, the first call after it opens the next; of each window the first [limit]
    calls pass. The counters of [allow_at] compute the same. *)
From Equations Require Import Equations.
From S2P Require Import Prelude Errors Runtime RateLimiter RateLimiterTheorems.

(** The longest prefix of times not after [stop], and the rest. *)
Fixpoint until (stop : time) (ts : list time) : list time * list time :=
  match ts with
  | [] => ([], [])
  | t :: ts' =>
      if bool_decide (t ≤ stop) then let '(a, b) := until stop ts' in (t :: a, b) else ([], ts)
  end.

Lemma until_app stop ts : (until stop ts).1 ++ (until stop ts).2 = ts.
Proof.
  induction ts as [|t ts IH]; [done|]. simpl. case_bool_decide; [|done].
  destruct (until stop ts). simpl in *. by rewrite IH.
Qed.

Lemma until_before stop ts : Forall (λ t, t ≤ stop) (until stop ts).1.
Proof.
  induction ts as [|t ts IH]; simpl; [constructor|]. case_bool_decide; [|constructor].
  destruct (until stop ts). by constructor.
Qed.

Lemma until_after stop ts t rest : (until stop ts).2 = t :: rest → stop < t.
Proof.
  induction ts as [|u ts IH]; simpl; [done|]. case_bool_decide; [|intros [= <- <-]; lia].
  by destruct (until stop ts).
Qed.

Lemma until_length stop ts : (length (until stop ts).2 ≤ length ts)%nat.
Proof. rewrite <- (until_app stop ts) at 2. rewrite length_app. lia. Qed.

Equations? windows (window : duration) (ts : list time) : list (list time) by wf (length ts) lt :=
  windows window [] := [];
  windows window (t :: ts) :=
    (t :: (until (t + window) ts).1) :: windows window (until (t + window) ts).2.
Proof. pose proof (until_length (t + window) ts). simpl. lia. Qed.

(** The answers to the calls of one window. *)
Definition window_answers (limit : Z) (first : nat) (calls : nat) : list bool :=
  (λ i, bool_decide (Z.of_nat i < Z.max 1 limit)) <$> seq first calls.

Definition reference_answers (r : InMemoryRateLimiter) (ts : list time) : list bool :=
  concat ((λ g, window_answers (InMemoryRateLimiter_limit r) 0 (length g)) <$>
    windows (InMemoryRateLimiter_window r) ts).

Section reference.
Context (r : InMemoryRateLimiter) (key : string).

Notation limit := (InMemoryRateLimiter_limit r).
Notation window := (InMemoryRateLimiter_window r).

(** The answers to calls of the key alone. *)
Definition answers (ts : list time) (st : LimiterState) : list bool :=
  call_ok <$> (calls r ((λ t, (key, t)) <$> ts) st).1.

Lemma answers_cons t ts st :
  answers (t :: ts) st = (allow_at r key t st).1 :: answers ts (allow_at r key t st).2.
Proof.
  unfold answers. simpl. destruct (allow_at r key t st) as [ok st'].
  change (list_fmap _ _ (λ t, (key, t)) ts) with ((λ t, (key, t)) <$> ts).
  simpl. by destruct (calls r ((λ t, (key, t)) <$> ts) st').
Qed.

(** Inside a window, with [n] calls passed of it. *)
Lemma answers_window w ts st (n : nat) stop :
  limit ≤ int64_max → (1 ≤ n)%nat → Forall (λ t, t ≤ stop) w →
  st !! key = Some (mkWindowCounter (Z.min (Z.of_nat n) (Z.max 1 limit)) stop) →
  ∃ st' m, st' !! key = Some (mkWindowCounter m stop) ∧ 1 ≤ m ≤ Z.max 1 limit ∧
    answers (w ++ ts) st = window_answers limit n (length w) ++ answers ts st'.
Proof.
  intros Hmax. revert st n. induction w as [|t w IH]; intros st n Hn Hw Hst.
  { exists st, (Z.min (Z.of_nat n) (Z.max 1 limit)). split_and!; [done|lia..|done]. }
  apply Forall_cons in Hw as [Ht Hw]. simpl app. rewrite answers_cons.
  unfold allow_at. rewrite Hst. unfold time_After. simpl.
  rewrite bool_decide_false by lia. case_bool_decide as Hl; simpl.
  - destruct (IH st (S n)) as (st' & m & ? & ? & Heq); [lia|done|rewrite Hst; do 2 f_equal; lia|].
    exists st', m. split_and!; [done|lia..|]. rewrite Heq. unfold window_answers. simpl.
    by rewrite bool_decide_false by lia.
  - destruct (IH (<[key:=mkWindowCounter (int64 (Z.min (Z.of_nat n) (Z.max 1 limit) + 1)) stop]> st) (S n))
      as (st' & m & ? & ? & Heq); [lia|done| |].
    { rewrite lookup_insert_eq. do 2 f_equal. rewrite int64_small by (unfold int64_min; lia). lia. }
    exists st', m. split_and!; [done|lia..|]. rewrite Heq. unfold window_answers. simpl.
    by rewrite bool_decide_true by lia.
Qed.

(** At the start, or once a window is over. *)
Definition over (st : LimiterState) (ts : list time) : Prop :=
  ∀ c t rest, st !! key = Some c → ts = t :: rest → windowCounter_windowEnd c < t.

Lemma answers_reference ts st :
  limit ≤ int64_max → over st ts → answers ts st = reference_answers r ts.
Proof.
  intros Hmax. unfold reference_answers. remember window as w eqn:Ew. revert st.
  funelim (windows w ts); intros st Hst; simp windows; [done|]. simpl.
  assert (allow_at r key t st = (true, <[key:=mkWindowCounter 1 (t + window)]> st)) as Ha.
  { unfold allow_at, time_After. destruct (st !! key) as [c|] eqn:Hc; [|done].
    rewrite bool_decide_true; [done|]. by eapply Hst. }
  rewrite answers_cons, Ha. simpl.
  destruct (answers_window (until (t + window) ts).1 (until (t + window) ts).2
    (<[key:=mkWindowCounter 1 (t + window)]> st) 1 (t + window)) as (st' & m & Hst' & _ & Heq).
  - done.
  - lia.
  - apply until_before.
  - rewrite lookup_insert_eq. do 2 f_equal. lia.
  - rewrite until_app in Heq. rewrite Heq. unfold window_answers at 2. simpl.
    rewrite bool_decide_true by lia. f_equal. f_equal.
    match goal with IH : ∀ _, _ |- _ => apply IH; [done..|] end.
    intros c u rest Hc Hu. simplify_eq. simpl. by eapply until_after.
Qed.

End reference.

(** C37: the counters compute the reference. Whatever calls are made, for whatever
    keys and in whatever order of times, the calls of a key are answered as the
    reference definition answers their times: grouped into windows that start with
    the first call after the last, the first [limit] of each group pass and the
    others are refused (a limit below one counts as one). *)
Theorem limiter_equals_reference r key reqs :
  InMemoryRateLimiter_limit r ≤ int64_max →
  call_ok <$> filter (λ c, call_key c = key) (calls r reqs ∅).1 =
    reference_answers r (snd <$> filter (λ q, q.1 = key) reqs).
Proof.
  intros Hmax. rewrite (limiter_keys_independent r key reqs ∅ ∅) by done.
  rewrite <- (answers_reference r key _ ∅); [|done|intros c t rest Hc; by rewrite lookup_empty in Hc].
  unfold answers. do 3 f_equal. induction reqs as [|[k t] reqs IH]; [done|].
  rewrite filter_cons. simpl. case_decide as Hk; [|done]. csimpl. f_equal; [by subst|exact IH].
Qed.

(** ** Instances *)

(** The burst of RateLimiterTheorems: two windows, of thirteen and of twelve calls. *)
Example burst_reference :
  reference_answers sample_limiter (snd <$> burst) =
    replicate 10 true ++ replicate 3 false ++ replicate 10 true ++ replicate 2 false.
Proof. vm_compute. reflexivity. Qed.

Lemma limiter_equals_reference_witness :
  call_ok <$> filter (λ c, call_key c = "k") (calls sample_limiter (("other", 7) :: burst) ∅).1 =
    replicate 10 true ++ replicate 3 false ++ replicate 10 true ++ replicate 2 false.
Proof.
  rewrite (limiter_equals_reference sample_limiter "k" (("other", 7) :: burst)) by discriminate.
  vm_compute. reflexivity.
Defined.
