(* ===== verification/LoggerTheorems.v ===== *)
(** * One call, one line (logger/console.go)

    Whatever a caller puts into a message or a field, a log call writes exactly
    one line: no byte below 0x20 leaves the JSON encoding unescaped. *)
From S2P Require Import Prelude Errors Runtime Logger ConsoleLogger.

(** Every byte satisfies [P]. *)
Fixpoint all_bytes (P : ascii → Prop) (s : string) : Prop :=
  match s with
  | EmptyString => True
  | String c s => P c ∧ all_bytes P s
  end.

Lemma all_bytes_app P s1 s2 : all_bytes P (s1 +:+ s2) ↔ all_bytes P s1 ∧ all_bytes P s2.
Proof. induction s1 as [|c s1 IH]; simpl; [tauto|]. rewrite IH. tauto. Qed.

Lemma append_assoc (s1 s2 s3 : string) : s1 +:+ (s2 +:+ s3) = (s1 +:+ s2) +:+ s3.
Proof.
  induction s1 as [|c s1 IH]; [done|].
  change (String c (s1 +:+ (s2 +:+ s3)) = String c ((s1 +:+ s2) +:+ s3)). by rewrite IH.
Qed.

Definition visible (c : ascii) : Prop := (32 ≤ N_of_ascii c)%N.

#[export] Instance visible_dec c : Decision (visible c).
Proof. unfold visible. apply _. Defined.

(** The first [n] bytes are not ASCII. *)
Fixpoint high_bytes (n : nat) (s : string) : Prop :=
  match n, s with
  | O, _ => True
  | S n, String c s => (128 ≤ N_of_ascii c)%N ∧ high_bytes n s
  | S _, EmptyString => True
  end.

Lemma byte_in_spec lo hi c : byte_in lo hi c = true → (lo ≤ N_of_ascii c ≤ hi)%N.
Proof.
  unfold byte_in. rewrite andb_true_iff. intros [?%bool_decide_eq_true ?%bool_decide_eq_true]. lia.
Qed.

Lemma byte_in_high lo hi c : byte_in lo hi c = true → (128 ≤ lo)%N → (128 ≤ N_of_ascii c)%N.
Proof. intros ?%byte_in_spec. lia. Qed.

Lemma utf8_tail_high c r n : utf8_tail c r = Some n → high_bytes n r.
Proof.
  assert (∀ lo hi c, byte_in lo hi c = true → (128 ≤ lo)%N → (128 ≤ N_of_ascii c)%N) as Hb
    by apply byte_in_high.
  assert (∀ c, cont_byte c = true → (128 ≤ N_of_ascii c)%N) as Hc
    by (intros x Hx; by eapply byte_in_high).
  destruct r as [|c1 [|c2 [|c3 r]]]; simpl; [done| | |].
  all: repeat match goal with |- context [if ?b then _ else _] => destruct b eqn:? end;
    intros [= <-]; simpl;
    rewrite ?andb_true_iff, ?orb_true_iff in *; rewrite ?andb_true_iff, ?orb_true_iff in *;
    naive_solver (eapply Hb; [eassumption|lia]) || (intuition eauto; eapply Hb; [eassumption|lia]).
Qed.

Lemma json_ascii_visible c : all_bytes visible (json_ascii c).
Proof.
  destruct c as [[] [] [] [] [] [] [] []]; vm_compute; repeat split; discriminate.
Qed.

Lemma high_visible c : (128 ≤ N_of_ascii c)%N → visible c.
Proof. unfold visible. lia. Qed.

Lemma line_separator_visible c r s : line_separator c r = Some s → all_bytes visible s.
Proof.
  unfold line_separator. destruct r as [|c1 [|c2 r]]; [done..|].
  repeat case_match; intros [= <-]; vm_compute; repeat split; discriminate.
Qed.

Lemma json_escape_visible s copy drop :
  high_bytes copy s ∨ (0 < drop)%nat → all_bytes visible (json_escape copy drop s).
Proof.
  revert copy drop. induction s as [|c s IH]; intros copy drop Hc; [done|]. simpl.
  destruct drop as [|drop]; [|apply IH; left; by destruct copy].
  destruct Hc as [Hc|?]; [|lia]. destruct copy as [|copy]; simpl in Hc.
  - case_bool_decide as Hn.
    { apply all_bytes_app. split; [apply json_ascii_visible|]. apply IH. by left. }
    destruct (line_separator c s) as [e|] eqn:El.
    { apply all_bytes_app. split; [by eapply line_separator_visible|]. apply IH. right. lia. }
    destruct (utf8_tail c s) as [n|] eqn:Eu.
    + split; [apply high_visible; lia|]. apply IH. left. by eapply utf8_tail_high.
    + apply all_bytes_app. split; [by vm_compute|]. apply IH. by left.
  - destruct Hc. split; [by apply high_visible|]. apply IH. by left.
Qed.

Lemma json_string_visible s : all_bytes visible (json_string s).
Proof.
  unfold json_string. rewrite !all_bytes_app. split_and!; [by vm_compute| |by vm_compute].
  apply json_escape_visible. by left.
Qed.

Lemma concat_visible sep l :
  all_bytes visible sep → Forall (all_bytes visible) l → all_bytes visible (String.concat sep l).
Proof.
  intros Hs. induction l as [|x [|y l] IH]; intros Hl; simpl; [done|by inversion Hl|].
  inversion Hl; subst. rewrite !all_bytes_app. split_and!; [done..|]. by apply IH.
Qed.

Lemma json_map_visible m : all_bytes visible (json_map m).
Proof.
  unfold json_map. rewrite !all_bytes_app. split_and!; [by vm_compute| |by vm_compute].
  apply concat_visible; [by vm_compute|]. apply Forall_forall. intros x (p & -> & _)%list_elem_of_fmap.
  unfold json_member. rewrite !all_bytes_app.
  split_and!; [apply json_string_visible|by vm_compute|apply json_string_visible].
Qed.

Ltac visible_tac :=
  lazymatch goal with
  | |- all_bytes visible (json_string _) => apply json_string_visible
  | |- all_bytes visible (json_map _) => apply json_map_visible
  | |- all_bytes visible (String.append _ _) => apply all_bytes_app; split; visible_tac
  | |- all_bytes visible (if ?b then _ else _) => destruct b; visible_tac
  | |- _ => by vm_compute
  end.

Lemma json_Marshal_visible line b :
  json_Marshal line = Ok b → all_bytes visible b ∧ ∃ body, b = "{" +:+ body +:+ "}".
Proof.
  unfold json_Marshal. intros [= <-]. split.
  - unfold json_name. visible_tac.
  - eexists. f_equal. rewrite !append_assoc. reflexivity.
Qed.

(** A log call writes exactly one line: one JSON object followed by the only
    newline, with no other control byte anywhere, whatever bytes the message, the
    field names and the field values contain. A caller's data cannot forge log
    lines. *)
Theorem console_one_line `{Env} level msg fields a :
  ∃ body a', Logger_log NewConsoleJSONLogger level msg fields a =
    (["{" +:+ body +:+ "}" +:+ String newline EmptyString], a') ∧ all_bytes visible body.
Proof.
  change (Logger_log NewConsoleJSONLogger level msg fields a) with
    (let '(now, a') := time_Now a in ([console_line level msg fields now], a')).
  destruct (time_Now a) as [now a']. unfold console_line.
  destruct (json_Marshal _) as [b|] eqn:Hb; [|done].
  destruct (json_Marshal_visible _ _ Hb) as (Hv & body & ->).
  exists body, a'. split; [by rewrite !append_assoc|].
  rewrite !all_bytes_app in Hv. tauto.
Qed.
