(* ===== verification/JsonRoundTrip.v ===== *)
(** * A log line can be read back (logger/console.go)

    A reference decoder of the JSON that a line consists of (strings and objects,
    without white space), written from RFC 8259 and independent of the encoder.
    Nothing a caller puts into a message or a field can be read as a line or a field
    of its own. From text that is UTF-8 the decoder recovers exactly the level, the
    message and the fields of the call, and its time to the second; bytes that are
    not UTF-8 come back as U+FFFD ([json_coerce]), as encoding/json documents. *)
From S2P Require Import Prelude Errors Runtime Logger ConsoleLogger LoggerTheorems.

(** ** The decoder *)

Definition hex_value (c : ascii) : option N :=
  let n := N_of_ascii c in
  if byte_in 48 57 c then Some (n - 48)%N
  else if byte_in 97 102 c then Some (n - 87)%N
  else if byte_in 65 70 c then Some (n - 55)%N
  else None.

Definition hex4 (a b c d : ascii) : option N :=
  a ← hex_value a; b ← hex_value b; c ← hex_value c; d ← hex_value d;
  Some (((a * 16 + b) * 16 + c) * 16 + d)%N.

(** The UTF-8 encoding of a code point of the basic plane; surrogates stand for
    no character of their own. *)
Definition utf8_encode (n : N) : option string :=
  if (n <? 128)%N then Some (String (ascii_of_N n) EmptyString)
  else if (n <? 2048)%N then
    Some (String (ascii_of_N (192 + n / 64)) (String (ascii_of_N (128 + n mod 64)) EmptyString))
  else if ((55296 <=? n) && (n <=? 57343))%N then None
  else Some (String (ascii_of_N (224 + n / 4096))
    (String (ascii_of_N (128 + n / 64 mod 64)) (String (ascii_of_N (128 + n mod 64)) EmptyString))).

Definition short_escape (c : ascii) : option ascii :=
  match N_of_ascii c with
  | 34 | 92 | 47 => Some c
  | 98 => Some "008"%char | 102 => Some "012"%char | 110 => Some "010"%char
  | 114 => Some "013"%char | 116 => Some "009"%char
  | _ => None
  end%N.

Definition prepend (x : string) (p : string * string) : string * string := (x +:+ p.1, p.2).

(** A string from behind its opening quote: its value, and what follows. *)
Fixpoint read_body (s : string) : option (string * string) :=
  match s with
  | EmptyString => None
  | String c r =>
      if bool_decide (c = quote_char) then Some (EmptyString, r)
      else if bool_decide (c = backslash) then
        match r with
        | String "u" (String h1 (String h2 (String h3 (String h4 r)))) =>
            n ← hex4 h1 h2 h3 h4; x ← utf8_encode n; prepend x <$> read_body r
        | String e r => x ← short_escape e; prepend (String x EmptyString) <$> read_body r
        | EmptyString => None
        end
      else if bool_decide (visible c) then prepend (String c EmptyString) <$> read_body r
      else None
  end.

Inductive json : Type :=
| JString (s : string)
| JObject (members : list (string * json)).

(** A value, and the members of an object from behind its opening brace or a comma. *)
Fixpoint read_value (fuel : nat) (s : string) : option (json * string) :=
  match fuel, s with
  | S fuel, String c r =>
      if bool_decide (c = quote_char) then '(x, r) ← read_body r; Some (JString x, r)
      else if bool_decide (c = "{"%char) then
        match r with
        | String "}" r => Some (JObject [], r)
        | _ => '(ms, r) ← read_members fuel r; Some (JObject ms, r)
        end
      else None
  | _, _ => None
  end
with read_members (fuel : nat) (s : string) : option (list (string * json) * string) :=
  match fuel, s with
  | S fuel, String c r =>
      if bool_decide (c = quote_char) then
        '(k, r) ← read_body r;
        match r with
        | String ":" r =>
            '(v, r) ← read_value fuel r;
            match r with
            | String "}" r => Some ([(k, v)], r)
            | String "," r => '(ms, r) ← read_members fuel r; Some ((k, v) :: ms, r)
            | _ => None
            end
        | _ => None
        end
      else None
  | _, _ => None
  end.

(** A value at the start of [s], and what follows it. *)
Definition json_decode (s : string) : option (json * string) := read_value (String.length s) s.

Example decode_nested :
  json_decode (json_map {["a" := String quote_char (String newline "<é")]} +:+ "rest") =
    Some (JObject [("a", JString (String quote_char (String newline "<é")))], "rest").
Proof. vm_compute. reflexivity. Qed.

(** ** Strings *)

Lemma append_cons c (s t : string) : String c s +:+ t = String c (s +:+ t).
Proof. done. Qed.

Lemma append_nil (s : string) : EmptyString +:+ s = s.
Proof. done. Qed.

Lemma append_nil_r (s : string) : s +:+ EmptyString = s.
Proof. induction s as [|c s IH]; [done|]. by rewrite append_cons, IH. Qed.

(** Escapes of single bytes. *)
Lemma read_json_ascii c r :
  (N_of_ascii c < 128)%N →
  read_body (json_ascii c +:+ r) = prepend (String c EmptyString) <$> read_body r.
Proof. destruct c as [[] [] [] [] [] [] [] []]; intros Hc; [..]; try done; reflexivity. Qed.

Lemma read_high c r :
  (128 ≤ N_of_ascii c)%N →
  read_body (String c r) = prepend (String c EmptyString) <$> read_body r.
Proof.
  intros Hc. cbn [read_body]. rewrite bool_decide_false, bool_decide_false, bool_decide_true; [done|..].
  - unfold visible. lia.
  - intros ->. by vm_compute in Hc.
  - intros ->. by vm_compute in Hc.
Qed.

Lemma line_separator_inv c r x :
  line_separator c r = Some x →
  ∃ c1 c2 r', r = String c1 (String c2 r') ∧ utf8_tail c r = Some 2%nat ∧
    ∀ t, read_body (x +:+ t) =
      prepend (String c (String c1 (String c2 EmptyString))) <$> read_body t.
Proof.
  destruct r as [|c1 [|c2 r]]; [done..|]. unfold line_separator.
  assert (∀ n c', (n < 256)%N → byte_in n n c' = true → c' = ascii_of_N n) as Hb.
  { intros n c' Hn ?%byte_in_spec. rewrite <- (ascii_N_embedding c'). f_equal. lia. }
  destruct (byte_in 226 226 c && byte_in 128 128 c1 && byte_in 168 168 c2) eqn:E1;
    [|destruct (byte_in 226 226 c && byte_in 128 128 c1 && byte_in 169 169 c2) eqn:E2; [|done]].
  all: rewrite !andb_true_iff in *; destruct_and?; intros [= <-].
  all: repeat match goal with H : byte_in _ _ _ = true |- _ => apply Hb in H; [|done] end; subst.
  all: eexists _, _, r; split_and!; [done|by vm_compute|reflexivity].
Qed.

Lemma prepend_prepend x y p : prepend x (prepend y p) = prepend (x +:+ y) p.
Proof. unfold prepend. simpl. by rewrite append_assoc. Qed.

Lemma read_escape n s copy r :
  (String.length s ≤ n)%nat → high_bytes copy s →
  read_body (json_escape copy 0 s +:+ String quote_char r) = Some (json_coerce copy s, r).
Proof.
  revert s copy. induction n as [|n IH]; intros [|c s] copy Hn Hc; [done|simpl in Hn; lia|done|].
  simpl in Hn. destruct copy as [|copy]; cbn [json_escape json_coerce].
  2:{ destruct Hc as [Hc Hs]. rewrite append_cons, read_high by done.
      by rewrite IH by (done || lia). }
  case_bool_decide as Ha.
  { rewrite <- append_assoc, read_json_ascii by done. by rewrite IH by (done || lia). }
  destruct (line_separator c s) as [x|] eqn:Hx.
  { destruct (line_separator_inv _ _ _ Hx) as (c1 & c2 & s' & -> & Hu & Hread).
    rewrite Hu, <- append_assoc, Hread. cbn [json_escape json_coerce].
    simpl in Hn. by rewrite IH by (done || lia). }
  destruct (utf8_tail c s) as [k|] eqn:Hu.
  - rewrite append_cons, read_high by lia.
    by rewrite IH by (first [lia|by eapply utf8_tail_high]).
  - rewrite <- append_assoc.
    change (read_body (String backslash "ufffd" +:+ ?x)) with
      (prepend (String "239" (String "191" (String "189" EmptyString))) <$> read_body x).
    by rewrite IH by (done || lia).
Qed.

Lemma read_string s r :
  read_body (json_escape 0 0 s +:+ String quote_char r) = Some (json_coerce 0 s, r).
Proof. by eapply read_escape. Qed.

(** ** Values *)

Lemma json_string_app s r :
  json_string s +:+ r = String quote_char (json_escape 0 0 s +:+ String quote_char r).
Proof. unfold json_string. by rewrite <- append_assoc, append_cons, append_nil, <- append_assoc. Qed.

Lemma read_json_string f s r :
  read_value (S f) (json_string s +:+ r) = Some (JString (json_coerce 0 s), r).
Proof. rewrite json_string_app. simpl. by rewrite read_string. Qed.

Lemma json_name_app s r :
  json_name s +:+ r = String quote_char (json_escape 0 0 s +:+ String quote_char (String ":" r)).
Proof. unfold json_name. by rewrite <- append_assoc, json_string_app. Qed.

(** [t] stands for the value [v] to a reader with some fuel. *)
Definition reads (f : nat) (t : string) (v : json) : Prop :=
  ∀ r, read_value f (t +:+ r) = Some (v, r).

Lemma reads_string f s : reads (S f) (json_string s) (JString (json_coerce 0 s)).
Proof. intros r. apply read_json_string. Qed.

Lemma read_last_member f k t v r :
  reads f t v →
  read_members (S f) (json_name k +:+ t +:+ "}" +:+ r) = Some ([(json_coerce 0 k, v)], r).
Proof.
  intros Ht. rewrite json_name_app. cbn [read_members].
  rewrite bool_decide_true, read_string by done. simpl. by rewrite Ht.
Qed.

Lemma read_more_members f k t v rest ms r :
  reads f t v → read_members f rest = Some (ms, r) →
  read_members (S f) (json_name k +:+ t +:+ "," +:+ rest) = Some ((json_coerce 0 k, v) :: ms, r).
Proof.
  intros Ht Hrest. rewrite json_name_app. cbn [read_members].
  rewrite bool_decide_true, read_string by done. simpl. rewrite Ht. simpl. rewrite ?append_nil. by rewrite Hrest.
Qed.

Definition decoded_member (p : string * string) : string * json :=
  (json_coerce 0 p.1, JString (json_coerce 0 p.2)).

Lemma read_map_members f p ps r :
  (S (length ps) < f)%nat →
  read_members f (String.concat "," (json_member <$> p :: ps) +:+ "}" +:+ r) =
    Some (decoded_member <$> p :: ps, r).
Proof.
  assert (∀ q : string * string, json_member q = json_name q.1 +:+ json_string q.2) as Hm
    by (intros; unfold json_member, json_name; by rewrite <- append_assoc).
  revert f p. induction ps as [|q ps IH]; intros [|[|f]] p Hf; try (simpl in Hf; lia).
  - change (String.concat _ _) with (json_member p). rewrite Hm, <- append_assoc. by apply read_last_member, reads_string.
  - change (String.concat "," (json_member <$> p :: q :: ps)) with
      (json_member p +:+ "," +:+ String.concat "," (json_member <$> q :: ps)).
    rewrite Hm, <- !append_assoc. apply read_more_members; [apply reads_string|].
    apply IH. simpl in *. lia.
Qed.

Lemma read_object f x ms r :
  read_members f (String quote_char x) = Some (ms, r) →
  read_value (S f) ("{" +:+ String quote_char x) = Some (JObject ms, r).
Proof.
  intros Hms. change ("{" +:+ String quote_char x) with (String "{" (String quote_char x)).
  cbn [read_value]. rewrite bool_decide_false, bool_decide_true by done. by rewrite Hms.
Qed.

Definition decoded_map (m : gmap string string) : json :=
  JObject (decoded_member <$> json_members m).

Lemma reads_map f m : (S (S (length (json_members m))) < f)%nat → reads f (json_map m) (decoded_map m).
Proof.
  destruct f as [|f]; [lia|]. intros Hf r. unfold json_map, decoded_map. rewrite <- !append_assoc.
  destruct (json_members m) as [|p ps]; [done|]. simpl length in Hf.
  pose proof (read_map_members f p ps r ltac:(lia)) as Hms.
  assert (∃ x, String.concat "," (json_member <$> p :: ps) +:+ "}" +:+ r = String quote_char x) as [x Hx].
  { destruct ps; simpl; unfold json_member; rewrite <- !append_assoc, json_string_app; eauto. }
  rewrite Hx in Hms |- *. by apply read_object.
Qed.

(** ** Well-formed text *)

(** Well-formed UTF-8; [copy] bytes of a sequence are still to come. *)
Fixpoint utf8_valid (copy : nat) (s : string) : bool :=
  match s, copy with
  | EmptyString, _ => true
  | String c r, S copy => utf8_valid copy r
  | String c r, O =>
      if bool_decide (N_of_ascii c < 128)%N then utf8_valid 0 r
      else match utf8_tail c r with Some n => utf8_valid n r | None => false end
  end.

Lemma json_coerce_valid s copy : utf8_valid copy s = true → json_coerce copy s = s.
Proof.
  revert copy. induction s as [|c s IH]; intros [|copy]; simpl; [done..| |].
  - case_bool_decide; [intros; by rewrite IH|]. destruct (utf8_tail c s); [|done].
    intros. by rewrite IH.
  - intros. by rewrite IH.
Qed.

Definition ascii_byte (c : ascii) : Prop := (N_of_ascii c < 128)%N.

Lemma ascii_valid s : all_bytes ascii_byte s → utf8_valid 0 s = true.
Proof. induction s as [|c s IH]; simpl; [done|]. intros [? ?]. by rewrite bool_decide_true, IH. Qed.

Lemma digits_ascii width n : all_bytes ascii_byte (digits width n).
Proof.
  revert n. induction width as [|width IH]; intros n; simpl; [done|].
  apply all_bytes_app. split; [done|]. split; [|done]. unfold ascii_byte.
  pose proof (Z.mod_pos_bound n 10). rewrite N_ascii_embedding by lia. lia.
Qed.

Lemma format_ascii t : all_bytes ascii_byte (format_RFC3339 t).
Proof.
  unfold format_RFC3339. destruct (civil _) as [[y m] d]. unfold year_digits.
  rewrite !all_bytes_app. split_and!; try apply digits_ascii; try by vm_compute.
  by case_bool_decide; vm_compute.
Qed.

(** ** The line *)

Definition decoded_line (level : LogLevel) (msg : string) (fields : gmap string string)
    (now : time) : json :=
  JObject ([("level", JString (level_string level)); ("message", JString (json_coerce 0 msg))] ++
    (if bool_decide (fields = ∅) then [] else [("fields", decoded_map fields)]) ++
    [("timestamp", JString (format_RFC3339 now))]).

Lemma length_append (s t : string) :
  String.length (s +:+ t) = (String.length s + String.length t)%nat.
Proof. induction s as [|c s IH]; [done|]. rewrite append_cons. simpl. by rewrite IH. Qed.

Lemma members_length ps :
  (length ps ≤ String.length (String.concat "," (json_member <$> ps)))%nat.
Proof.
  induction ps as [|p [|q ps] IH]; [done|..].
  - change (String.concat _ _) with (json_member p). unfold json_member.
    rewrite !length_append. simpl. lia.
  - change (String.concat _ _) with
      (json_member p +:+ "," +:+ String.concat "," (json_member <$> q :: ps)).
    rewrite !length_append. simpl length in *. simpl (String.length ","). lia.
Qed.

Lemma reads_line f level msg fields now text :
  (6 + length (json_members fields) < f)%nat →
  json_Marshal (mkLogLine (level_string level) msg fields (format_RFC3339 now)) = Ok text →
  reads f text (decoded_line level msg fields now).
Proof.
  intros Hf [= <-] r. destruct f as [|[|[|[|[|f]]]]]; try lia.
  unfold decoded_line. rewrite <- !append_assoc.
  pose proof (json_coerce_valid _ 0 (ascii_valid _ (format_ascii now))) as Hnow.
  set (last := json_name "timestamp" +:+ json_string (format_RFC3339 now) +:+ "}" +:+ r).
  assert (∀ f', read_members (S (S f')) last =
    Some ([("timestamp", JString (format_RFC3339 now))], r)) as Hlast.
  { intros f'. unfold last. rewrite <- Hnow at 2. by apply read_last_member, reads_string. }
  rewrite json_name_app. apply read_object. rewrite <- json_name_app.
  assert (JString (level_string level) = JString (json_coerce 0 (level_string level))) as ->
    by by destruct level.
  apply (read_more_members _ "level"); [apply reads_string|].
  apply (read_more_members _ "message"); [apply reads_string|].
  case_bool_decide as Hm; simpl app; [apply Hlast|].
  rewrite <- !append_assoc. apply (read_more_members _ "fields"); [|destruct f; [lia|apply Hlast]].
  apply reads_map. lia.
Qed.

(** A line is long enough to serve as the reader's fuel. *)
Lemma marshal_length level msg fields now text :
  json_Marshal (mkLogLine (level_string level) msg fields (format_RFC3339 now)) = Ok text →
  (6 + length (json_members fields) < String.length text)%nat.
Proof.
  intros [= <-]. unfold json_name. rewrite !length_append.
  assert (length (json_members fields) ≤ String.length
    (if bool_decide (fields = ∅) then EmptyString
     else (json_string "fields" +:+ ":") +:+ json_map fields +:+ ","))%nat as Hf.
  { case_bool_decide as Hm; [by subst|]. unfold json_map. rewrite !length_append.
    pose proof (members_length (json_members fields)). lia. }
  revert Hf. simpl. lia.
Qed.

(** *** What a reader of the log makes of it *)

(** The text and the object under a name, as a reader of the log looks them up. *)
Definition member (name : string) (ms : list (string * json)) : option json :=
  snd <$> head (filter (λ p, p.1 = name) ms).

Definition as_text (j : json) : option string :=
  match j with JString s => Some s | JObject _ => None end.

Definition as_fields (j : json) : option (gmap string string) :=
  match j with
  | JString _ => None
  | JObject ms => list_to_map <$> mapM (λ p, pair p.1 <$> as_text p.2) ms
  end.

(** Level, message, fields and time of a line. *)
Definition logged_call (j : json) : option (string * string * gmap string string * string) :=
  match j with
  | JString _ => None
  | JObject ms =>
      level ← member "level" ms ≫= as_text;
      msg ← member "message" ms ≫= as_text;
      fields ← match member "fields" ms with None => Some ∅ | Some j => as_fields j end;
      time ← member "timestamp" ms ≫= as_text;
      Some (level, msg, fields, time)
  end.

(** Fields whose names and values are UTF-8. *)
Definition utf8_fields (m : gmap string string) : Prop :=
  map_Forall (λ k v, utf8_valid 0 k = true ∧ utf8_valid 0 v = true) m.

Lemma as_fields_decoded m : utf8_fields m → as_fields (decoded_map m) = Some m.
Proof.
  intros Hm. unfold decoded_map, as_fields.
  assert (json_members m ≡ₚ map_to_list m) as Hperm by apply merge_sort_Permutation.
  rewrite (mapM_fmap_Forall_Some (λ p, pair p.1 <$> as_text p.2) decoded_member).
  2:{ apply Forall_forall. intros [k v] Hin. rewrite Hperm in Hin.
      destruct (Hm k v) as [Hk Hv]; [by apply elem_of_map_to_list|].
      unfold decoded_member. simpl. by rewrite !json_coerce_valid. }
  simpl. f_equal.
  rewrite <- (list_to_map_to_list m) at 2. symmetry.
  apply list_to_map_proper; [apply NoDup_fst_map_to_list|]. by symmetry.
Qed.

Lemma logged_call_decoded level msg fields now :
  utf8_valid 0 msg = true → utf8_fields fields →
  logged_call (decoded_line level msg fields now) =
    Some (level_string level, msg, fields, format_RFC3339 now).
Proof.
  intros Hmsg Hf%as_fields_decoded. unfold decoded_line. rewrite (json_coerce_valid _ _ Hmsg).
  case_bool_decide as He; [by rewrite He|]. revert Hf. generalize (decoded_map fields).
  intros d Hd. unfold logged_call, member. simpl. by rewrite Hd.
Qed.

(** C38: a log line can be read back. Whatever bytes the message, the field names and
    the field values contain, a log call writes one line that ends in the only
    newline and has no other control byte, and a JSON decoder reads it as one object
    with the level, the message, the fields in the order of their names and the time,
    and nothing else: a caller's data cannot forge lines or fields. If the message
    and the names and values of the fields are UTF-8, a reader recovers exactly the
    level, the message and the fields of the call, and the time of the call as RFC
    3339 text, that is to the second; bytes that are not UTF-8 are read as U+FFFD
    ([json_coerce]), so calls that differ in such bytes only may look alike. *)
Theorem console_line_roundtrip `{Env} level msg fields a :
  ∃ text now a', Logger_log NewConsoleJSONLogger level msg fields a =
    ([text +:+ String newline EmptyString], a') ∧ time_Now a = (now, a') ∧
    all_bytes visible text ∧
    json_decode text = Some (decoded_line level msg fields now, EmptyString) ∧
    (utf8_valid 0 msg = true → utf8_fields fields →
     logged_call (decoded_line level msg fields now) =
       Some (level_string level, msg, fields, format_RFC3339 now)).
Proof.
  change (Logger_log NewConsoleJSONLogger level msg fields a) with
    (let '(now, a') := time_Now a in ([console_line level msg fields now], a')).
  destruct (time_Now a) as [now a']. unfold console_line.
  destruct (json_Marshal _) as [text|] eqn:Ht; [|done].
  exists text, now, a'. split_and!; [done..| | |by apply logged_call_decoded].
  - by apply json_Marshal_visible in Ht as [? _].
  - pose proof (marshal_length _ _ _ _ _ Ht) as Hlen.
    pose proof (reads_line _ _ _ _ _ text Hlen Ht EmptyString) as Hr.
    by rewrite append_nil_r in Hr.
Qed.

(** ** Instances *)

(** An address that tries to close the line and to forge another. *)
Definition forged : string :=
  String quote_char ("}" +:+ String newline ("{" +:+ String quote_char "level")).

Example forged_line :
  json_decode (console_line LevelWarn "login: rate limited" {["ip" := forged]} 0) =
    Some (JObject [("level", JString "warn"); ("message", JString "login: rate limited");
      ("fields", JObject [("ip", JString forged)]);
      ("timestamp", JString "1970-01-01T00:00:00Z")], String newline EmptyString).
Proof. vm_compute. reflexivity. Qed.
