(* ===== verification/EngineTheorems.v ===== *)
(** * Building an engine (config.go, engine.go)

    Exactly which configurations [New] accepts and what the engine it builds
    works with. *)
From S2P Require Import Prelude Errors Runtime Store Logger RateLimiter World ConsoleLogger.
From S2P Require Import Memory Security Token Auth Session Engine Sample.

Section new.
Context `{Env, Bcrypt, JWT} {S : Type}.

Implicit Types (c : Config S).

(** The numbers of a configuration that [New] checks, defaults applied. *)
Definition config_valid c : Prop :=
  Config_JWTSecret c ≠ EmptyString ∧ is_Some (Config_Users c) ∧ is_Some (Config_Sessions c) ∧
  is_Some (Config_Audit c) ∧
  (bcrypt_MinCost ≤ default_to (Config_BcryptCost c) 10 ≤ bcrypt_MaxCost) ∧
  16 ≤ default_to (Config_RefreshTokenByteLength c) 32 ∧
  0 < default_to (Config_AccessTokenTTL c) (15 * Minute).

(** [New] builds an engine exactly from the configurations with a secret, the
    three required stores, a bcrypt cost the library accepts, refresh tokens of
    at least 16 bytes and a positive access-token lifetime, where an unset number
    stands for its default; rate limit and lockout numbers are not checked. *)
Theorem new_accepts_iff c : is_ok (New c) = true ↔ config_valid c.
Proof.
  unfold New, Config_validate, config_valid. case_bool_decide; [naive_solver|].
  destruct (Config_Users c); [|split; [done|]; intros (_ & [? ?] & _); done].
  destruct (Config_Sessions c); [|split; [done|]; intros (_ & _ & [? ?] & _); done].
  destruct (Config_Audit c); [|split; [done|]; intros (_ & _ & _ & [? ?] & _); done].
  simpl. unfold NewBcryptHasher, NewCryptoRandTokenGenerator, NewJWTIssuer. simpl.
  set (cost := default_to (Config_BcryptCost c) 10).
  set (len := default_to (Config_RefreshTokenByteLength c) 32).
  set (ttl := default_to (Config_AccessTokenTTL c) (15 * Minute)).
  destruct (bool_decide (cost < bcrypt_MinCost) || bool_decide (bcrypt_MaxCost < cost)) eqn:Hc.
  { simpl. apply orb_true_iff in Hc as [?%bool_decide_eq_true|?%bool_decide_eq_true];
      (split; [done|]); intros (_ & _ & _ & _ & ? & ? & ?); lia. }
  apply orb_false_iff in Hc as [?%bool_decide_eq_false ?%bool_decide_eq_false]. simpl.
  destruct (bool_decide (len < 16)) eqn:Hl.
  { simpl. apply bool_decide_eq_true in Hl. split; [done|].
    intros (_ & _ & _ & _ & ? & ? & ?); lia. }
  apply bool_decide_eq_false in Hl. simpl. rewrite bool_decide_false by done.
  case_bool_decide; simpl; [split; [done|]; intros (_ & _ & _ & _ & ? & ? & ?); lia|].
  split; [|done]. intros _. split_and!; eauto; lia.
Qed.

(** The engine that [New] builds uses the given stores, sender and secret, and
    for every number that was left zero its documented default: access tokens of
    15 minutes, bcrypt cost 10, refresh tokens of 32 bytes, 10 attempts a minute,
    lockout after 5 failures for 15 minutes, JSON lines on the console. *)
Theorem new_engine_wiring c e :
  New c = Ok e →
  Some (e_users e) = Config_Users c ∧ Some (e_sessions e) = Config_Sessions c ∧
  Some (e_audit e) = Config_Audit c ∧ e_verifications e = Config_Verifications c ∧
  e_emailSender e = Config_EmailSender c ∧
  e_hasher e = BcryptHasher_Hasher (mkBcryptHasher (default_to (Config_BcryptCost c) 10)) ∧
  e_refreshGen e = CryptoRand_TokenGenerator
    (mkCryptoRandTokenGenerator (default_to (Config_RefreshTokenByteLength c) 32)) ∧
  e_jwtIssuer e = mkJWTIssuer (Config_JWTSecret c)
    (default_to (Config_AccessTokenTTL c) (15 * Minute)) ∧
  e_rateLimiter e = NewInMemoryRateLimiter (default_to (Config_RateLimitAttempts c) 10)
    (default_to (Config_RateLimitWindow c) Minute) ∧
  e_lockoutThreshold e = default_to (Config_LockoutThreshold c) 5 ∧
  e_lockoutDuration e = default_to (Config_LockoutDuration c) (15 * Minute) ∧
  e_log e = default NewConsoleJSONLogger (Config_Logger c).
Proof.
  unfold New, Config_validate. case_bool_decide; [done|].
  destruct (Config_Users c) eqn:?, (Config_Sessions c) eqn:?, (Config_Audit c) eqn:?;
    simpl; try done.
  unfold NewBcryptHasher, NewCryptoRandTokenGenerator, NewJWTIssuer. simpl.
  repeat case_match; simplify_eq/=; try done; intros [= <-]; simpl; by rewrite ?Heqo.
Qed.

End new.

(** ** Instances *)

Section witnesses.
#[local] Existing Instances sample_env sample_bcrypt sample_jwt.

Lemma new_engine_wiring_witness : e_lockoutThreshold sample_engine = 5.
Proof.
  pose proof (new_engine_wiring sample_config sample_engine) as HW.
  destruct HW as (_ & _ & _ & _ & _ & _ & _ & _ & _ & HL & _).
  - reflexivity.
  - exact HL.
Defined.

End witnesses.
