(* ===== verification/Rotation.v ===== *)
(** * Correctness of refresh-token rotation (token/refresh.go)

    [Rotate] against any stores that keep the contract: what each outcome says
    about the presented token and does to the sessions. *)
From S2P Require Import Prelude Errors Runtime Sha256 Store StoreSpec SessionMachine.
From S2P Require Import Logger RateLimiter World Logic Security Token.

(** The abstract effect of a rotation: every outcome [Rotate] has, with the
    views before and after. *)
Inductive rotate_spec {S} `{StoreModel S} (gen : TokenGenerator) (ids : IDGenerator)
    (raw : string) (b b' : Amb) (v v' : View) : RefreshResult → option error → Prop :=
| RotInvalid :
    (reliable = true → ∀ k s, v_sessions v !! k = Some s → Session_TokenHash s ≠ HashToken raw) →
    v' = v → rotate_spec gen ids raw b b' v v' zero_RefreshResult (Some ErrInvalidToken)
| RotReused k s :
    v_sessions v !! k = Some s → Session_TokenHash s = HashToken raw → ¬ live s →
    family_revoked (Session_FamilyID s) v v' →
    rotate_spec gen ids raw b b' v v' (mkRefreshResult EmptyString s) (Some ErrTokenReused)
| RotReusedFault k s e :
    v_sessions v !! k = Some s → Session_TokenHash s = HashToken raw → ¬ live s →
    reliable = false → storage_error e → v' = v ∨ family_revoked (Session_FamilyID s) v v' →
    rotate_spec gen ids raw b b' v v' (mkRefreshResult EmptyString s) (Some e)
| RotNoToken k s e :
    v_sessions v !! k = Some s → Session_TokenHash s = HashToken raw → live s →
    ¬ (id_total ids ∧ token_total gen) →
    v' = v → rotate_spec gen ids raw b b' v v' zero_RefreshResult (Some e)
| RotFault k s id newRaw e :
    v_sessions v !! k = Some s → Session_TokenHash s = HashToken raw → live s →
    reliable = false → drawn ids b b' id →
    v' = v ∨ token_rotated k id (Session_FamilyID s) (Session_UserID s)
      (HashToken newRaw) (Session_IP s) (Session_UserAgent s) v v' →
    rotate_spec gen ids raw b b' v v' zero_RefreshResult (Some e)
| RotOk k s id newRaw :
    v_sessions v !! k = Some s → Session_TokenHash s = HashToken raw → live s →
    drawn ids b b' id →
    token_rotated k id (Session_FamilyID s) (Session_UserID s)
      (HashToken newRaw) (Session_IP s) (Session_UserAgent s) v v' →
    rotate_spec gen ids raw b b' v v'
      (mkRefreshResult newRaw (new_Session id (Session_FamilyID s) (Session_UserID s)
         (HashToken newRaw) (Session_IP s) (Session_UserAgent s))) None.

Lemma rotate_spec_mono {S} `{StoreModel S} gen ids raw b b' c' v v' res err :
  amb_le b' c' → rotate_spec gen ids raw b b' v v' res err →
  rotate_spec gen ids raw b c' v v' res err.
Proof.
  intros Hle. destruct 1; try by econstructor; eauto.
  all: econstructor; eauto; by eapply drawn_mono; [reflexivity|..].
Qed.

Section rotation.
Context {S : Type} `{StoreModel S, !StoreLaws}.
Context (sessions : SessionStore S) `{!SessionContract sessions}.
Context (gen : TokenGenerator) `{!TokenGeneratorLaws gen}.
Context (ids : IDGenerator) `{!IDGeneratorLaws ids}.

Implicit Types (w : World S).

Lemma wp_Rotate raw w :
  inv w →
  wp (Rotate sessions gen ids raw) (λ '(res, err) w',
    inv w' ∧ same_outside w w' ∧ rotate_spec gen ids raw (w_amb w) (w_amb w') (vw w) (vw w') res err) w.
Proof.
  intros Hinv. unfold Rotate. wp_go. destruct r as [x|e]; wp_go.
  2:{ destruct HR as [Hv (_ & Hnf & Hrel)]. split; [done|]. split; [outside|].
      apply RotInvalid; [|done]. naive_solver. }
  destruct HR as [Hv [Hx Hh]].
  case_bool_decide as Hr; wp_go.
  - destruct r as [[]|e]; wp_go; (split; [done|]); (split; [outside|]); rewrite Hv in *.
    + by eapply RotReused.
    + eapply mutates_fault in HR as (? & HE & ? & _); [|exact I].
      eapply RotReusedFault; try done. naive_solver.
  - assert (live x) by (unfold live; tauto || by apply dec_stable).
    destruct r as [newRaw|e]; wp_go.
    2:{ split; [done|]. split; [outside|]. eapply RotNoToken; try done.
        intros [_ Ht]. by specialize (Ht a); rewrite E in Ht. }
    destruct r as [id|e]; wp_go.
    2:{ split; [done|]. split; [outside|]. eapply RotNoToken; try done.
        intros [Ht _]. by specialize (Ht a0); rewrite E0 in Ht. }
    destruct r as [[]|e]; wp_go; (split; [done|]); (split; [outside|]); rewrite Hv in *.
    + eapply RotOk; try done. exists a0, a1. split_and!; [done|outside..].
    + eapply mutates_fault in HR as (? & HE & ? & _).
      * eapply (RotFault _ _ _ _ _ _ _ _ _ id newRaw); try done; [|naive_solver].
        exists a0, a1. split_and!; [done|outside..].
      * destruct (canon_session _ _ _ Hinv Hx) as (_ & ? & _).
        eexists _, x. by repeat split.
Qed.

End rotation.
