(* ===== verification/AuthLogic.v ===== *)
(** * What the handlers do to the storage

    For each handler of packages auth and session a relation between its
    arguments, the views before and after and its result, with one constructor
    per outcome, and the proof that the handler satisfies it over any stores
    that keep the contract. The properties of the handlers and the session
    machine's simulation read these relations, not the code. *)
From S2P Require Import Prelude Errors Runtime Store StoreSpec Logger RateLimiter World.
From S2P Require Import Logic Security Token Auth Session.

(** ** Auditing *)

Section audit.
Context {S : Type} `{StoreModel S}.
Context (audit : AuditStore S) `{!AuditContract audit}.
Context (log : Logger) `{!LoggerLaws log}.

Implicit Types (w : World S).

(** The call [c] is among what the log has gained. *)
Definition logged (c : LogCall) w w' : Prop := ∃ l, w_log w' = w_log w ++ l ∧ c ∈ l.

Definition audited (ty user ip : string) (meta : option (gmap string string)) :
    View → View → Prop := maybe (event_recorded (new_AuditEvent ty user ip meta)).

Lemma wp_record_or_log ty user ip meta msg fields (Q : () → World S → Prop) w :
  inv w →
  (∀ w', inv w' → same_outside w w' → audited ty user ip meta (vw w) (vw w') →
     w_log w `prefix_of` w_log w' → Q () w') →
  wp (record_or_log audit log (new_AuditEvent ty user ip meta) msg fields) Q w.
Proof.
  intros Hinv HQ. unfold record_or_log. wp_go.
  eapply mutates_maybe in HR; [|exact I].
  destruct r as [[]|e]; wp_go; (apply HQ; [done|outside|done|w_simpl]); [done|by eexists].
Qed.

End audit.

Ltac wp_audit :=
  lazymatch goal with
  | |- wp (record_or_log _ _ _ _ _) _ _ =>
      eapply wp_record_or_log; try apply _; [w_simpl; eassumption|];
      let w := fresh "w" in let Hi := fresh "Hinv" in let Ho := fresh "Ho" in
      let HA := fresh "HA" in let HL := fresh "HL" in intros w Hi Ho HA HL; w_simpl
  | |- wp (recordLoginFailure _ _ _ _ _) _ _ => unfold recordLoginFailure
  end.

Ltac wp_auto := repeat first [wp_step | wp_audit].

(** Takes apart the answer of a query: the view it left is the one before. *)
Ltac read :=
  lazymatch goal with
  | HR : reads _ _ ?v _ ?v' |- _ =>
      let Hv := fresh "Hv" in let Hr := fresh "Hr" in
      destruct HR as [Hv Hr]; decompose [and] Hr; clear Hr
  end.

(** Replaces the view a query left by the one before it. *)
Ltac views :=
  repeat match goal with u : () |- _ => destruct u end;
  repeat match goal with
  | Hv : view ?s = _, HR : context [view ?s] |- _ =>
      lazymatch type of HR with view s = _ => fail | _ => rewrite Hv in HR end
  | Hv : view ?s = _ |- context [view ?s] => rewrite Hv
  end.

(** Discharges what every handler promises about the rest of the world. *)
Ltac finish := split; [assumption|]; split; [outside|]; w_simpl; views.

(** ** Sessions: Logout, LogoutAll, session.List, session.Revoke *)

Section specs.
Context {S : Type} `{StoreModel S}.

(** Closing one session, by [Logout] or by [Revoke]; [ty] and [meta] are the
    audit event's. *)
Inductive close_spec (ty : string) (meta : option (gmap string string))
    (sessionID userID : string) (v v' : View) : result () → Prop :=
| CloseUnknown e :
    storage_error e → v' = v →
    (reliable = true → ∀ k, key sessionID = Some k → v_sessions v !! k = None) →
    close_spec ty meta sessionID userID v v' (Err e)
| CloseNotOwned s :
    key sessionID = Some (Session_ID s) → v_sessions v !! Session_ID s = Some s →
    Session_UserID s ≠ userID → v' = v →
    close_spec ty meta sessionID userID v v' (Err ErrSessionNotOwned)
| CloseFailed s e :
    key sessionID = Some (Session_ID s) → v_sessions v !! Session_ID s = Some s →
    Session_UserID s = userID →
    failed (session_present sessionID) (session_revoked sessionID) v v' e →
    close_spec ty meta sessionID userID v v' (Err e)
| CloseOk s v1 :
    key sessionID = Some (Session_ID s) → v_sessions v !! Session_ID s = Some s →
    Session_UserID s = userID → session_revoked sessionID v v1 →
    audited ty userID EmptyString meta v1 v' →
    close_spec ty meta sessionID userID v v' (Ok ()).

Inductive close_all_spec (userID : string) (v v' : View) : result () → Prop :=
| CloseAllFailed e :
    failed (λ _, True) (user_sessions_revoked userID) v v' e →
    close_all_spec userID v v' (Err e)
| CloseAllOk v1 :
    user_sessions_revoked userID v v1 →
    audited EventLogoutAll userID EmptyString None v1 v' →
    close_all_spec userID v v' (Ok ()).

Lemma failed_mono present E E' v v' e :
  (∀ v v', E v v' → E' v v') → failed present E v v' e → failed present E' v v' e.
Proof. intros HE [? HF]. split; [done|]. naive_solver. Qed.

Lemma mutates_unit_failed present (E : View → View → Prop) v e v' :
  mutates (A:=()) present (λ v _ v', E v v') v (Err e) v' → failed present E v v' e.
Proof. intros HM%mutates_failed. eapply failed_mono; [|done]. naive_solver. Qed.

End specs.

#[export] Hint Resolve mutates_unit_failed : cryden.

Section sessions.
Context {S : Type} `{StoreModel S, !StoreLaws}.
Context (sessions : SessionStore S) `{!SessionContract sessions}.
Context (audit : AuditStore S) `{!AuditContract audit}.
Context (log : Logger) `{!LoggerLaws log}.

Implicit Types (w : World S).

(** The proof shared by [Logout] and [Revoke]. *)
Ltac close_tac :=
  wp_auto; case_match; wp_auto; read;
  [|finish; eapply CloseUnknown; naive_solver];
  case_bool_decide; wp_auto; [finish; by eapply CloseNotOwned|];
  case_match; wp_auto; finish;
  [by eapply CloseOk|eapply CloseFailed; eauto with cryden].

Lemma wp_Logout sessionID userID w :
  inv w →
  wp (Logout sessions audit log sessionID userID) (λ r w', inv w' ∧ same_outside w w' ∧
    close_spec EventLogout None sessionID userID (vw w) (vw w') r) w.
Proof.
  intros Hinv. unfold Logout. close_tac.
Qed.

Lemma wp_Revoke sessionID userID w :
  inv w →
  wp (Revoke sessions audit log sessionID userID) (λ r w', inv w' ∧ same_outside w w' ∧
    close_spec EventSessionRevoked (Some {["session_id" := sessionID]}) sessionID userID
      (vw w) (vw w') r) w.
Proof.
  intros Hinv. unfold Revoke. close_tac.
Qed.

Lemma wp_LogoutAll userID w :
  inv w →
  wp (LogoutAll sessions audit log userID) (λ r w', inv w' ∧ same_outside w w' ∧
    close_all_spec userID (vw w) (vw w') r) w.
Proof.
  intros Hinv. unfold LogoutAll. wp_auto. destruct r as [[]|e]; wp_auto; finish.
  - by eapply CloseAllOk.
  - eapply CloseAllFailed. eauto with cryden.
Qed.

Lemma wp_List userID w :
  inv w →
  wp (List sessions userID) (λ r w', inv w' ∧ same_outside w w' ∧ vw w' = vw w ∧
    match r with
    | Ok l => l ≡ₚ active_of userID (v_sessions (vw w))
    | Err e => storage_error e ∧ reliable = false
    end) w.
Proof.
  intros Hinv. unfold List. wp_auto. finish. destruct HR as [Hv HR]. split; [done|].
  destruct r as [l|e]; [done|]. destruct HR as (? & Hnf & Hrel). split; [done|].
  destruct reliable; [|done]. destruct (Hnf (Hrel eq_refl)).
Qed.

End sessions.

(** ** Accounts: ChangePassword, DeleteAccount, SignUp *)

Section account_specs.
Context {S : Type} `{StoreModel S}.

Definition user_by_id (id : string) (u : User) (v : View) : Prop :=
  key id = Some (User_ID u) ∧ v_users v !! User_ID u = Some u.

Definition user_by_email (email : string) (u : User) (v : View) : Prop :=
  v_users v !! User_ID u = Some u ∧ User_Email u = email.

(** Not found by e-mail address: a fault of the storage reads the same way. *)
Definition no_user (email : string) (v : View) : Prop :=
  reliable = true → ∀ k u, v_users v !! k = Some u → User_Email u ≠ email.

Definition no_user_id (id : string) (v : View) (e : error) : Prop :=
  storage_error e ∧ (e = ErrNotFound → ¬ user_exists id v) ∧
  (reliable = true → e = ErrNotFound).

Definition hash_set (hash : string) (u u' : User) : Prop := ∃ t, u' = set_PasswordHash u hash t.

(** The hasher turned the password into the hash at some point of the run. *)
Definition hashes (hasher : Hasher) (password : string) (r : result string) : Prop :=
  ∃ a a', Hasher_Hash hasher password a = (r, a').

Inductive change_password_spec (hasher : Hasher) (userID current new : string)
    (v v' : View) : result () → Prop :=
| CPUnknown e :
    no_user_id userID v e → v' = v →
    change_password_spec hasher userID current new v v' (Err e)
| CPWrong u e :
    user_by_id userID u v → Hasher_Compare hasher (User_PasswordHash u) current = Err e →
    v' = v → change_password_spec hasher userID current new v v' (Err ErrInvalidCredentials)
| CPHash u e :
    user_by_id userID u v → Hasher_Compare hasher (User_PasswordHash u) current = Ok () →
    hashes hasher new (Err e) → v' = v →
    change_password_spec hasher userID current new v v' (Err e)
| CPFault u hash e :
    user_by_id userID u v → Hasher_Compare hasher (User_PasswordHash u) current = Ok () →
    hashes hasher new (Ok hash) → reliable = false → storage_error e →
    v' = v ∨ user_updated userID (hash_set hash) v v' →
    change_password_spec hasher userID current new v v' (Err e)
| CPOk u hash v1 v2 :
    user_by_id userID u v → Hasher_Compare hasher (User_PasswordHash u) current = Ok () →
    hashes hasher new (Ok hash) → user_updated userID (hash_set hash) v v1 →
    maybe (user_sessions_revoked userID) v1 v2 →
    audited EventPasswordChanged userID EmptyString None v2 v' →
    change_password_spec hasher userID current new v v' (Ok ()).

Inductive delete_account_spec (hasher : Hasher) (userID current : string)
    (v v' : View) : result () → Prop :=
| DAUnknown e :
    no_user_id userID v e → v' = v → delete_account_spec hasher userID current v v' (Err e)
| DAWrong u e :
    user_by_id userID u v → Hasher_Compare hasher (User_PasswordHash u) current = Err e →
    v' = v → delete_account_spec hasher userID current v v' (Err ErrInvalidCredentials)
| DAFault u v1 v2 e :
    user_by_id userID u v → Hasher_Compare hasher (User_PasswordHash u) current = Ok () →
    maybe (user_sessions_revoked userID) v v1 →
    audited EventAccountDeleted userID EmptyString None v1 v2 →
    reliable = false → storage_error e → v' = v2 ∨ user_deleted userID v2 v' →
    delete_account_spec hasher userID current v v' (Err e)
| DAOk u v1 v2 :
    user_by_id userID u v → Hasher_Compare hasher (User_PasswordHash u) current = Ok () →
    maybe (user_sessions_revoked userID) v v1 →
    audited EventAccountDeleted userID EmptyString None v1 v2 →
    user_deleted userID v2 v' → delete_account_spec hasher userID current v v' (Ok ()).

(** [allow] is the limiter's answer. *)
Inductive signup_spec (hasher : Hasher) (ids : IDGenerator) (allow : result bool)
    (email password callerIP : string) (v v' : View) : result User → Prop :=
| SULimiter e :
    allow = Err e → v' = v → signup_spec hasher ids allow email password callerIP v v' (Err e)
| SULimited :
    allow = Ok false → v' = v →
    signup_spec hasher ids allow email password callerIP v v' (Err ErrRateLimited)
| SUExists u :
    allow = Ok true → user_by_email email u v → v' = v →
    signup_spec hasher ids allow email password callerIP v v' (Err ErrUserExists)
| SUHash e :
    allow = Ok true → no_user email v → hashes hasher password (Err e) → v' = v →
    signup_spec hasher ids allow email password callerIP v v' (Err e)
| SUId e :
    allow = Ok true → no_user email v → ¬ id_total ids → v' = v →
    signup_spec hasher ids allow email password callerIP v v' (Err e)
| SUFault id hash e :
    allow = Ok true → no_user email v → hashes hasher password (Ok hash) →
    reliable = false → storage_error e → v' = v ∨ user_created id email hash v v' →
    signup_spec hasher ids allow email password callerIP v v' (Err e)
| SUOk id hash v1 :
    allow = Ok true → no_user email v → hashes hasher password (Ok hash) →
    user_created id email hash v v1 →
    audited EventSignupSuccess id callerIP None v1 v' →
    signup_spec hasher ids allow email password callerIP v v' (Ok (new_User id email hash)).

Lemma user_by_id_exists id u v : user_by_id id u v → user_exists id v.
Proof. intros [? ?]. by eexists; split; [done|eexists]. Qed.

Lemma maybe_sessions_users userID v v' :
  maybe (user_sessions_revoked userID) v v' → v_users v' = v_users v.
Proof. intros [(? & ? & ? & ->)|[_ ->]]; done. Qed.

Lemma audited_same ty user ip meta v v' :
  audited ty user ip meta v v' →
  v_users v' = v_users v ∧ v_sessions v' = v_sessions v ∧ v_tokens v' = v_tokens v.
Proof. intros [(? & ? & ->)|[_ ->]]; done. Qed.

End account_specs.

#[export] Hint Resolve user_by_id_exists : cryden.

Section accounts.
Context {S : Type} `{StoreModel S, !StoreLaws}.
Context (users : UserStore S) `{!UserContract users}.
Context (sessions : SessionStore S) `{!SessionContract sessions}.
Context (audit : AuditStore S) `{!AuditContract audit}.
Context (hasher : Hasher) `{!HasherLaws hasher}.
Context (log : Logger) `{!LoggerLaws log}.

Implicit Types (w : World S).

Lemma wp_ChangePassword userID current new w :
  inv w →
  wp (ChangePassword users sessions hasher audit log userID current new) (λ r w',
    inv w' ∧ same_outside w w' ∧
    change_password_spec hasher userID current new (vw w) (vw w') r) w.
Proof.
  intros Hinv. unfold ChangePassword. wp_auto. destruct r as [u|e]; wp_auto; read.
  2:{ finish. by eapply CPUnknown. }
  destruct (Hasher_Compare _ _ _) as [[]|e] eqn:Hcmp; wp_auto.
  2:{ finish. by eapply CPWrong. }
  destruct r as [hash|e]; wp_auto.
  2:{ finish. eapply CPHash; [done..|by eexists _, _|done]. }
  destruct r as [[]|e]; wp_auto.
  2:{ finish. eapply mutates_fault in HR as (? & ? & ? & _).
      - eapply (CPFault _ _ _ _ _ _ u hash); try done; [by eexists _, _|naive_solver].
      - by eapply user_by_id_exists. }
  eapply mutates_maybe in HR0; [|exact I].
  destruct r as [[]|e]; wp_auto; finish;
    (eapply CPOk; [done..|by eexists _, _|done|done|done]).
Qed.

(** What [ChangePassword] logs when the sessions could not be revoked. *)
Definition revocation_failure (userID : string) (err : error) : LogCall :=
  mkLogCall LevelError "change password: session revocation failed"
    {["error" := error_text err; "user_id" := userID]}.

(** A change of password revokes the sessions of the user or logs that it could not. *)
Lemma wp_ChangePassword_revokes userID current new w :
  inv w →
  wp (ChangePassword users sessions hasher audit log userID current new) (λ r w', r = Ok () →
    (∃ ku t, key userID = Some ku ∧ v_sessions (vw w') =
       revoke_where (λ s, Session_UserID s = ku) t <$> v_sessions (vw w)) ∨
    ∃ err, logged (revocation_failure userID err) w w') w.
Proof.
  intros Hinv. unfold ChangePassword. wp_auto. destruct r as [u|e]; wp_auto; read; [|done].
  destruct (Hasher_Compare _ _ _) as [[]|e]; wp_auto; [|done].
  destruct r as [hash|e]; wp_auto; [|done]. destruct r as [[]|e]; wp_auto; [|done].
  destruct r as [[]|e]; wp_auto; intros _; w_simpl; views.
  - left. destruct HR as (k & u1 & u2 & _ & _ & _ & Hv1), HR0 as (ku & t & Hk & Hv2).
    destruct (audited_same _ _ _ _ _ _ HA) as (_ & -> & _). rewrite Hv2, Hv1. by exists ku, t.
  - right. exists e. unfold logged. w_simpl. destruct HL as [l ->].
    eexists ([revocation_failure userID e] ++ l ++ _).
    rewrite <- !(assoc_L (++)). split; [done|by left].
Qed.

Lemma wp_DeleteAccount userID current w :
  inv w →
  wp (DeleteAccount users sessions hasher audit log userID current) (λ r w',
    inv w' ∧ same_outside w w' ∧
    delete_account_spec hasher userID current (vw w) (vw w') r) w.
Proof.
  intros Hinv. unfold DeleteAccount. wp_auto. destruct r as [u|e]; wp_auto; read.
  2:{ finish. by eapply DAUnknown. }
  destruct (Hasher_Compare _ _ _) as [[]|e] eqn:Hcmp; wp_auto.
  2:{ finish. by eapply DAWrong. }
  eapply mutates_maybe in HR; [|exact I]. views.
  assert (user_exists userID (vw w)) as Hex by by eapply user_by_id_exists.
  destruct r as [[]|e]; wp_auto.
  all: assert (user_exists userID (vw w0)) by
    (destruct (audited_same _ _ _ _ _ _ HA) as (HU & _ & _);
     pose proof (maybe_sessions_users _ _ _ HR) as HU'; w_simpl;
     unfold user_exists in *; by rewrite HU, HU').
  all: destruct r as [[]|e']; wp_auto; finish;
    [by eapply DAOk
    |eapply mutates_fault in HR0 as (? & ? & ? & _); [|done];
     eapply DAFault; [done..|]; naive_solver].
Qed.

Lemma wp_SignUp (ids : IDGenerator) `{!IDGeneratorLaws ids} (limiter : RateLimiter)
    `{!RateLimiterLaws limiter} email password callerIP w :
  let ans := RateLimiter_Allow limiter ("signup:" +:+ callerIP) (w_limiter w, w_amb w) in
  inv w →
  wp (SignUp users hasher ids limiter audit log email password callerIP) (λ r w',
    inv w' ∧ (w_limiter w' = ans.2.1 ∧ w_mail w' = w_mail w ∧ amb_le (w_amb w) (w_amb w')) ∧
    signup_spec hasher ids ans.1 email password callerIP (vw w) (vw w') r) w.
Proof.
  intros ans Hinv. subst ans. unfold SignUp. wp_auto. rewrite E. cbn [fst snd].
  destruct r as [[]|e]; wp_auto; [|finish; by eapply SULimited|finish; by eapply SULimiter].
  destruct r as [u|e]; wp_auto; read; [finish; by eapply SUExists|].
  assert (no_user email (vw w)) by (unfold no_user; naive_solver).
  destruct r as [hash|e1]; wp_auto;
    [|finish; eapply SUHash; [done..|by eexists _, _|done]].
  destruct r as [id|e1]; wp_auto.
  2:{ finish. eapply SUId; try done. intros Ht. specialize (Ht a1). by rewrite E1 in Ht. }
  destruct r as [[]|e1]; wp_auto; finish.
  - eapply SUOk; [done..|by eexists _, _|done|done].
  - eapply mutates_fault in HR as (? & ? & ? & _); [|exact I].
    eapply (SUFault _ _ _ _ _ _ _ _ id hash); [done..|by eexists _, _|done|done|naive_solver].
Qed.

End accounts.
