(* ===== verification/LoginLogic.v ===== *)
(** * What Login, the e-mail change and RefreshToken do to the storage

    The relations of AuthLogic.v for the remaining handlers: auth/login.go with
    its lockout, auth/email.go, and RefreshToken of cryden.go. *)
From S2P Require Import Prelude Errors Runtime Store StoreSpec Logger RateLimiter World.
From S2P Require Import Security Token Logic Auth Session Engine Rotation AuthLogic.

(** ** Login *)

Section login_specs.
Context `{Env, JWT} {S : Type} `{StoreModel S}.

Implicit Types (w : World S).

Definition failure_meta (reason : string) : option (gmap string string) :=
  Some {["reason" := reason]}.

Definition attempt_counted (uid : string) (n : Z) (v v' : View) : Prop :=
  user_updated uid (λ u u', n = int64 (User_FailedAttempts u + 1) ∧
    u' = set_FailedAttempts u n) v v'.

Definition account_locked (uid : string) (until : time) (v v' : View) : Prop :=
  user_updated uid (λ u u', ∃ t, close until t ∧ u' = set_LockedUntil u (Some t)) v v'.

Definition attempts_reset (uid : string) (v v' : View) : Prop :=
  user_updated uid (λ u u', u' = set_LockedUntil (set_FailedAttempts u 0) None) v v'.

(** The counting of a wrong password. *)
Inductive counted_spec (uid callerIP : string) (threshold : Z) (dur : duration)
    (w w' : World S) (v v' : View) : Prop :=
| CountFault :
    reliable = false → v' = v ∨ (∃ n, attempt_counted uid n v v') →
    counted_spec uid callerIP threshold dur w w' v v'
| CountBelow n :
    attempt_counted uid n v v' → n < threshold →
    counted_spec uid callerIP threshold dur w w' v v'
| CountLockFault n v1 t :
    attempt_counted uid n v v1 → threshold ≤ n → reliable = false →
    v' = v1 ∨ account_locked uid t v1 v' →
    counted_spec uid callerIP threshold dur w w' v v'
| CountLocked n v1 v2 now :
    attempt_counted uid n v v1 → threshold ≤ n → between w now w' →
    account_locked uid (now + dur) v1 v2 →
    audited EventAccountLocked uid callerIP None v2 v' →
    counted_spec uid callerIP threshold dur w w' v v'.

Lemma user_updated_sessions uid f v v' :
  user_updated uid f v v' → v_sessions v' = v_sessions v ∧ v_tokens v' = v_tokens v.
Proof. by intros (? & ? & ? & _ & _ & _ & ->). Qed.

Lemma counted_sessions uid callerIP threshold dur w w' v v' :
  counted_spec uid callerIP threshold dur w w' v v' → v_sessions v' = v_sessions v.
Proof.
  destruct 1 as [_ [->|[n HU]]|n HU|n v1 t HU _ _ [->|HU']|n v1 v2 now HU _ _ HU' HA]; try done.
  1,2,3: by apply user_updated_sessions in HU as [-> _].
  - apply user_updated_sessions in HU as [<- _]. by apply user_updated_sessions in HU' as [-> _].
  - apply user_updated_sessions in HU as [<- _]. apply user_updated_sessions in HU' as [<- _].
    by destruct (audited_same _ _ _ _ _ _ HA) as (_ & -> & _).
Qed.

(** Opening a session for a user whose password was right. *)
Inductive opened_spec (ids : IDGenerator) (gen : TokenGenerator) (j : JWTIssuer)
    (uid callerIP userAgent : string) (w w' : World S) (v v' : View) :
    result Tokens → Prop :=
| OpenGen e :
    ¬ (id_total ids ∧ token_total gen) → v' = v →
    opened_spec ids gen j uid callerIP userAgent w w' v v' (Err e)
| OpenFault id raw e :
    reliable = false → storage_error e → drawn ids (w_amb w) (w_amb w') id →
    v' = v ∨ session_created id id uid (HashToken raw) callerIP userAgent v v' →
    opened_spec ids gen j uid callerIP userAgent w w' v v' (Err e)
| OpenJWT id raw a a' e :
    drawn ids (w_amb w) (w_amb w') id →
    session_created id id uid (HashToken raw) callerIP userAgent v v' →
    JWTIssuer_Issue j uid a = (Err e, a') →
    opened_spec ids gen j uid callerIP userAgent w w' v v' (Err e)
| OpenOk id raw at' a a' v1 :
    drawn ids (w_amb w) (w_amb w') id →
    session_created id id uid (HashToken raw) callerIP userAgent v v1 →
    JWTIssuer_Issue j uid a = (Ok at', a') →
    amb_le (w_amb w) a → amb_le a' (w_amb w') →
    audited EventLoginSuccess uid callerIP None v1 v' →
    opened_spec ids gen j uid callerIP userAgent w w' v v' (Ok (mkTokens at' raw)).

(** Not locked when [Login] looked. *)
Definition unlocked (u : User) w w' : Prop :=
  ∀ until, User_LockedUntil u = Some until → ∃ now, between w now w' ∧ until ≤ now.

Inductive login_spec (hasher : Hasher) (ids : IDGenerator) (gen : TokenGenerator)
    (j : JWTIssuer) (allow : result bool) (email password callerIP userAgent : string)
    (threshold : Z) (dur : duration) (w w' : World S) : result Tokens → Prop :=
| LLimiter e :
    allow = Err e → vw w' = vw w →
    login_spec hasher ids gen j allow email password callerIP userAgent threshold dur w w' (Err e)
| LLimited :
    allow = Ok false → vw w' = vw w →
    login_spec hasher ids gen j allow email password callerIP userAgent threshold dur w w'
      (Err ErrRateLimited)
| LUnknown :
    allow = Ok true → no_user email (vw w) →
    audited EventLoginFailed EmptyString callerIP (failure_meta "no_such_user") (vw w) (vw w') →
    login_spec hasher ids gen j allow email password callerIP userAgent threshold dur w w'
      (Err ErrInvalidCredentials)
| LLocked u until now :
    allow = Ok true → user_by_email email u (vw w) → User_LockedUntil u = Some until →
    between w now w' → now < until → vw w' = vw w →
    login_spec hasher ids gen j allow email password callerIP userAgent threshold dur w w'
      (Err ErrAccountLocked)
| LWrong u e v1 :
    allow = Ok true → user_by_email email u (vw w) → unlocked u w w' →
    Hasher_Compare hasher (User_PasswordHash u) password = Err e →
    audited EventLoginFailed (User_ID u) callerIP (failure_meta "wrong_password") (vw w) v1 →
    counted_spec (User_ID u) callerIP threshold dur w w' v1 (vw w') →
    login_spec hasher ids gen j allow email password callerIP userAgent threshold dur w w'
      (Err ErrInvalidCredentials)
| LRight u v1 r :
    allow = Ok true → user_by_email email u (vw w) → unlocked u w w' →
    Hasher_Compare hasher (User_PasswordHash u) password = Ok () →
    maybe (attempts_reset (User_ID u)) (vw w) v1 →
    opened_spec ids gen j (User_ID u) callerIP userAgent w w' v1 (vw w') r →
    login_spec hasher ids gen j allow email password callerIP userAgent threshold dur w w' r.

End login_specs.

(** The drawn ID of a handler. *)
Ltac drawn_tac :=
  match goal with
  | E : IDGenerator_New _ ?a = (Ok _, ?a') |- drawn _ _ _ _ =>
      exists a, a'; split; [exact E|outside]
  end.

Section login.
Context `{Env, JWT} {S : Type} `{StoreModel S, !StoreLaws}.
Context (users : UserStore S) `{!UserContract users}.
Context (sessions : SessionStore S) `{!SessionContract sessions}.
Context (audit : AuditStore S) `{!AuditContract audit}.
Context (hasher : Hasher) (log : Logger) `{!LoggerLaws log}.
Context (ids : IDGenerator) `{!IDGeneratorLaws ids}.
Context (gen : TokenGenerator) `{!TokenGeneratorLaws gen}.
Context (j : JWTIssuer).

Implicit Types (w : World S).

Lemma user_found_key w u :
  inv w → v_users (vw w) !! User_ID u = Some u → key (User_ID u) = Some (User_ID u).
Proof. intros Hi Hu. by destruct (canon_user _ _ _ Hi Hu). Qed.

Lemma wp_is_locked (u : User) (Q : bool → World S → Prop) w :
  (User_LockedUntil u = None → Q false w) →
  (∀ until w', User_LockedUntil u = Some until → w_store w' = w_store w →
     same_outside w w' → Q (bool_decide (amb_time (w_amb w') < until)) w') →
  wp (is_locked u) Q w.
Proof.
  intros HN HS. unfold is_locked. destruct (User_LockedUntil u) as [until|]; wp_go; [|by apply HN].
  apply time_Now_elim in E as [-> Hle]. by apply (HS until (with_amb w a)).
Qed.

Lemma wp_count_failure u callerIP threshold dur w0 w :
  inv w → user_exists (User_ID u) (vw w) → amb_le (w_amb w0) (w_amb w) →
  wp (count_failure users audit log u callerIP threshold dur) (λ _ w',
    inv w' ∧ same_outside w w' ∧
    ∀ w'', amb_le (w_amb w') (w_amb w'') →
      counted_spec (User_ID u) callerIP threshold dur w0 w'' (vw w) (vw w')) w.
Proof.
  intros Hinv Hex Hle0. unfold count_failure. wp_auto. destruct r as [n|e]; wp_auto.
  2:{ finish. intros w'' Hw. eapply mutates_fault in HR as (? & ? & ? & _); [|done].
      by apply CountFault. }
  case_bool_decide as Hn; wp_auto; [|finish; intros w'' Hw; eapply (CountBelow _ _ _ _ _ _ _ _ n); [done|lia]].
  assert (user_exists (User_ID u) (view s)) as Hex'.
  { destruct HR as (k & ? & u' & ? & ? & ? & ->). exists k. split; [done|].
    simpl. rewrite lookup_insert_eq. eauto. }
  destruct r0 as [[]|e]; wp_auto; finish; intros w'' Hw.
  - eapply (CountLocked _ _ _ _ _ _ _ _ n (view s) (view s0) r); try done. outside.
  - eapply mutates_fault in HR0 as (? & Hv & ? & _); [|done].
    eapply (CountLockFault _ _ _ _ _ _ _ _ n (view s)); try done.
    destruct Hv as [?|[[] ?]]; [by left|by right].
Qed.

Lemma wp_open_session u callerIP userAgent w0 w :
  inv w → user_exists (User_ID u) (vw w) → amb_le (w_amb w0) (w_amb w) →
  wp (open_session users sessions ids gen j audit log u callerIP userAgent) (λ r w',
    inv w' ∧ same_outside w w' ∧ ∃ v1, maybe (attempts_reset (User_ID u)) (vw w) v1 ∧
      opened_spec ids gen j (User_ID u) callerIP userAgent w0 w' v1 (vw w') r) w.
Proof.
  intros Hinv Hex Hle0. unfold open_session. wp_auto.
  eapply mutates_maybe in HR; [|done].
  destruct r as [[]|e]; wp_auto.
  all: destruct r as [id|e1]; wp_auto;
    [|finish; exists (view s); split; [done|]; eapply OpenGen; [|done];
      intros [Ht _]; match goal with E : IDGenerator_New _ ?a = _ |- _ =>
        specialize (Ht a); by rewrite E in Ht end].
  all: destruct r as [raw|e1]; wp_auto;
    [|finish; exists (view s); split; [done|]; eapply OpenGen; [|done];
      intros [_ Ht]; match goal with E : TokenGenerator_New _ ?a = _ |- _ =>
        specialize (Ht a); by rewrite E in Ht end].
  all: destruct r as [[]|e1]; wp_auto;
    [|finish; exists (view s); split; [done|];
      eapply mutates_fault in HR0 as (? & ? & ? & _); [|exact I];
      eapply (OpenFault _ _ _ _ _ _ _ _ _ _ id raw); [done|done|drawn_tac|naive_solver]].
  all: destruct r as [tok|e1]; wp_auto; finish; exists (view s); (split; [done|]);
    [eapply OpenOk; [drawn_tac|done|done|outside|outside|done]
    |by eapply OpenJWT; [drawn_tac|..]].
Qed.

(** [Login] from the password on, for a user that is not locked; [w] is the world
    in which the request began. *)
Lemma wp_check_password u email password callerIP userAgent threshold dur l w w1 :
  inv w1 → vw w1 = vw w → user_by_email email u (vw w) →
  w_limiter w1 = l → w_mail w1 = w_mail w → amb_le (w_amb w) (w_amb w1) →
  (∀ w2, amb_le (w_amb w1) (w_amb w2) → unlocked u w w2) →
  wp (match Hasher_Compare hasher (User_PasswordHash u) password with
      | Err _ =>
        recordLoginFailure audit log (User_ID u) callerIP "wrong_password";;
        count_failure users audit log u callerIP threshold dur;;
        mret (Err ErrInvalidCredentials)
      | Ok _ => open_session users sessions ids gen j audit log u callerIP userAgent
      end) (λ r w', inv w' ∧
        (w_limiter w' = l ∧ w_mail w' = w_mail w ∧ amb_le (w_amb w) (w_amb w')) ∧
        login_spec hasher ids gen j (Ok true) email password callerIP userAgent
          threshold dur w w' r) w1.
Proof.
  intros Hinv Hv Hu Hl Hm Hle Hun.
  assert (user_exists (User_ID u) (vw w1)) as Hex.
  { destruct Hu as [Hu _]. rewrite <- Hv in Hu. exists (User_ID u).
    split; [by apply (user_found_key w1)|]. eauto. }
  destruct (Hasher_Compare _ _ _) as [[]|e] eqn:Hcmp.
  - eapply wp_mono; [by apply (wp_open_session u callerIP userAgent w)|].
    intros r w' (? & ? & v1 & ? & ?). rewrite Hv in *. split; [done|]. split; [outside|].
    eapply (LRight _ _ _ _ _ _ _ _ _ _ _ _ _ u v1); try done. apply Hun. outside.
  - wp_auto. rewrite Hv in *. eapply wp_mono.
    { apply (wp_count_failure u callerIP threshold dur w); [done| |outside].
      unfold user_exists. w_simpl. by destruct (audited_same _ _ _ _ _ _ HA) as (-> & _). }
    intros [] w' (? & ? & Hc). wp_auto. split; [done|]. split; [outside|].
    eapply LWrong; [done|done|apply Hun; outside|done..|]. w_simpl. by apply Hc.
Qed.

Lemma wp_Login (limiter : RateLimiter) `{!RateLimiterLaws limiter}
    email password callerIP userAgent threshold dur w :
  let ans := RateLimiter_Allow limiter ("login:" +:+ callerIP +:+ ":" +:+ email)
    (w_limiter w, w_amb w) in
  inv w →
  wp (Login users sessions hasher ids gen j limiter audit log email password callerIP
        userAgent threshold dur) (λ r w',
    inv w' ∧ (w_limiter w' = ans.2.1 ∧ w_mail w' = w_mail w ∧ amb_le (w_amb w) (w_amb w')) ∧
    login_spec hasher ids gen j ans.1 email password callerIP userAgent threshold dur w w' r) w.
Proof.
  intros ans Hinv. subst ans. unfold Login. wp_auto. rewrite E. cbn [fst snd].
  destruct r as [[]|e]; wp_auto; [|finish; by eapply LLimited|finish; by eapply LLimiter].
  destruct r as [u|e]; wp_auto; read.
  2:{ finish. eapply LUnknown; [done| |done]. unfold no_user. naive_solver. }
  apply wp_is_locked.
  - intros HL. apply wp_check_password; w_simpl; try done; [outside|].
    intros w2 _ lim. congruence.
  - intros lim w1 HL Hs1 Ho1. w_simpl. case_bool_decide as Ht; wp_auto.
    + split; [w_simpl; by rewrite Hs1|]. split; [outside|].
      eapply (LLocked _ _ _ _ _ _ _ _ _ _ _ _ _ u lim (amb_time (w_amb w1)));
        try done; [outside|]. w_simpl. by rewrite Hs1.
    + destruct Ho1 as (? & ? & ?). w_simpl.
      apply wp_check_password; try done; rewrite ?Hs1; try done; [outside|].
      intros w2 Hw2 lim' Hu'. simplify_eq. exists (amb_time (w_amb w1)). split; [outside|lia].
Qed.

End login.

(** ** E-mail change *)

Section email_specs.
Context {S : Type} `{StoreModel S}.

Implicit Types (w : World S).

Definition email_set (email : string) (u u' : User) : Prop := ∃ t, u' = set_Email u email t.

(** The address is free for the user, where the storage enforces it. *)
Definition email_updated (userID email : string) (v v' : View) : Prop :=
  user_updated userID (email_set email) v v' ∧
  (strict = true → ∀ k u, v_users v !! k = Some u → User_Email u = email →
     key userID = Some k).

Inductive request_email_spec (ids : IDGenerator) (gen : TokenGenerator)
    (userID newEmail : string) (w w' : World S) : result () → Prop :=
| REExists u :
    user_by_email newEmail u (vw w) → vw w' = vw w → w_mail w' = w_mail w →
    request_email_spec ids gen userID newEmail w w' (Err ErrUserExists)
| REGen e :
    no_user newEmail (vw w) → ¬ (id_total ids ∧ token_total gen) → vw w' = vw w →
    w_mail w' = w_mail w → request_email_spec ids gen userID newEmail w w' (Err e)
| REFault id raw now e :
    no_user newEmail (vw w) → reliable = false → storage_error e → between w now w' →
    vw w' = vw w ∨ token_created id userID PurposeEmailChange (HashToken raw) newEmail
      (now + changeEmailTokenTTL) (vw w) (vw w') →
    w_mail w' = w_mail w → request_email_spec ids gen userID newEmail w w' (Err e)
| RESend id raw now e :
    no_user newEmail (vw w) → between w now w' →
    token_created id userID PurposeEmailChange (HashToken raw) newEmail
      (now + changeEmailTokenTTL) (vw w) (vw w') →
    w_mail w' = w_mail w ++ [(newEmail, raw)] →
    request_email_spec ids gen userID newEmail w w' (Err e)
| REOk id raw now v1 :
    no_user newEmail (vw w) → between w now w' →
    token_created id userID PurposeEmailChange (HashToken raw) newEmail
      (now + changeEmailTokenTTL) (vw w) v1 →
    w_mail w' = w_mail w ++ [(newEmail, raw)] →
    audited EventEmailChangeRequested userID EmptyString None v1 (vw w') →
    request_email_spec ids gen userID newEmail w w' (Ok ()).

Definition token_by_hash (hash : string) (vt : VerificationToken) (v : View) : Prop :=
  v_tokens v !! VerificationToken_ID vt = Some vt ∧ VerificationToken_TokenHash vt = hash.

(** A token that may still be used for an e-mail change at [now]. *)
Definition token_valid (vt : VerificationToken) (now : time) : Prop :=
  VerificationToken_Purpose vt = PurposeEmailChange ∧ VerificationToken_UsedAt vt = None ∧
  now ≤ VerificationToken_ExpiresAt vt.

Inductive confirm_email_spec (raw : string) (w w' : World S) : result () → Prop :=
| CEUnknown :
    (reliable = true → ∀ k vt, v_tokens (vw w) !! k = Some vt →
       VerificationToken_TokenHash vt ≠ HashToken raw) →
    vw w' = vw w → confirm_email_spec raw w w' (Err ErrVerificationTokenInvalid)
| CEInvalid vt :
    token_by_hash (HashToken raw) vt (vw w) →
    VerificationToken_Purpose vt ≠ PurposeEmailChange ∨ VerificationToken_UsedAt vt ≠ None →
    vw w' = vw w → confirm_email_spec raw w w' (Err ErrVerificationTokenInvalid)
| CEExpired vt now :
    token_by_hash (HashToken raw) vt (vw w) → between w now w' →
    VerificationToken_Purpose vt = PurposeEmailChange → VerificationToken_UsedAt vt = None →
    VerificationToken_ExpiresAt vt < now →
    vw w' = vw w → confirm_email_spec raw w w' (Err ErrVerificationTokenExpired)
| CEFailed vt now e :
    token_by_hash (HashToken raw) vt (vw w) → between w now w' → token_valid vt now →
    failed (user_exists (VerificationToken_UserID vt))
      (email_updated (VerificationToken_UserID vt) (VerificationToken_NewEmail vt))
      (vw w) (vw w') e →
    confirm_email_spec raw w w' (Err e)
| CEOk vt now v1 v2 :
    token_by_hash (HashToken raw) vt (vw w) → between w now w' → token_valid vt now →
    email_updated (VerificationToken_UserID vt) (VerificationToken_NewEmail vt) (vw w) v1 →
    maybe (token_used (VerificationToken_ID vt)) v1 v2 →
    audited EventEmailChanged (VerificationToken_UserID vt) EmptyString None v2 (vw w') →
    confirm_email_spec raw w w' (Ok ()).

End email_specs.

Section email.
Context `{Env} {S : Type} `{StoreModel S, !StoreLaws}.
Context (users : UserStore S) `{!UserContract users}.
Context (verifications : VerificationStore S) `{!VerificationContract verifications}.
Context (audit : AuditStore S) `{!AuditContract audit}.
Context (log : Logger) `{!LoggerLaws log}.

Implicit Types (w : World S).

Lemma wp_RequestEmailChange (sender : EmailSender) `{!EmailSenderLaws sender}
    (ids : IDGenerator) `{!IDGeneratorLaws ids} (gen : TokenGenerator)
    `{!TokenGeneratorLaws gen} userID newEmail w :
  inv w →
  wp (RequestEmailChange users verifications sender gen ids audit log userID newEmail)
    (λ r w', inv w' ∧ (w_limiter w' = w_limiter w ∧ amb_le (w_amb w) (w_amb w')) ∧
       request_email_spec ids gen userID newEmail w w' r) w.
Proof.
  intros Hinv. unfold RequestEmailChange. wp_auto. destruct r as [u|e]; wp_auto; read.
  { finish. by eapply REExists. }
  assert (no_user newEmail (vw w)) by (unfold no_user; naive_solver).
  destruct r as [raw|e1]; wp_auto.
  2:{ finish. eapply REGen; try done. intros [_ Ht]. specialize (Ht a). by rewrite E in Ht. }
  destruct r as [id|e1]; wp_auto.
  2:{ finish. eapply REGen; try done. intros [Ht _]. specialize (Ht a0). by rewrite E0 in Ht. }
  destruct r0 as [[]|e1]; wp_auto.
  2:{ finish. eapply mutates_fault in HR as (? & ? & ? & _); [|exact I].
      eapply (REFault _ _ _ _ _ _ id raw r); try done; [outside|]. w_simpl. naive_solver. }
  views. destruct r0 as [[]|e1]; wp_auto; finish.
  - eapply (REOk _ _ _ _ _ _ id raw r); try done; [outside|].
    destruct Ho as (_ & Hm & _). exact Hm.
  - eapply (RESend _ _ _ _ _ _ id raw r); try done. outside.
Qed.

Lemma wp_ConfirmEmailChange raw w :
  inv w →
  wp (ConfirmEmailChange users verifications audit log raw) (λ r w',
    inv w' ∧ same_outside w w' ∧ confirm_email_spec raw w w' r) w.
Proof.
  intros Hinv. unfold ConfirmEmailChange. wp_auto. destruct r as [vt|e]; wp_auto; read.
  2:{ finish. eapply CEUnknown; naive_solver. }
  case_bool_decide as Hp; wp_auto; [finish; eapply CEInvalid; eauto; by split|].
  case_bool_decide as Hu; wp_auto; [finish; eapply CEInvalid; eauto; by split|].
  unfold time_After. case_bool_decide as Ht; wp_auto;
    [finish; eapply (CEExpired _ _ _ vt r); try done; outside|].
  assert (token_valid vt r) by (split_and!; [done|done|lia]).
  destruct r0 as [[]|e]; wp_auto.
  2:{ finish. eapply (CEFailed _ _ _ vt r); try done; [outside|]. by apply mutates_unit_failed. }
  assert (token_present (VerificationToken_ID vt) (view s0)) as Htp.
  { destruct HR as [(? & ? & ? & _ & _ & _ & ->) _]. views.
    destruct (canon_token _ _ _ Hinv H2) as (_ & ? & _).
    by eexists _, vt. }
  eapply mutates_maybe in HR0; [|done].
  destruct r0 as [[]|e]; wp_auto; finish;
    (eapply (CEOk _ _ _ vt r); try done; outside).
Qed.

End email.

(** ** RefreshToken *)

Section refresh_spec.
Context `{Env, JWT} {S : Type} `{StoreModel S}.

Implicit Types (w : World S).

Inductive refresh_spec (gen : TokenGenerator) (ids : IDGenerator) (j : JWTIssuer)
    (raw : string) (w w' : World S) : result Tokens → Prop :=
| RFFailed res e :
    rotate_spec gen ids raw (w_amb w) (w_amb w') (vw w) (vw w') res (Some e) → e ≠ ErrTokenReused →
    refresh_spec gen ids j raw w w' (Err e)
| RFReused res v1 :
    rotate_spec gen ids raw (w_amb w) (w_amb w') (vw w) v1 res (Some ErrTokenReused) →
    audited EventTokenReuseDetected (Session_UserID (RefreshResult_Session res))
      EmptyString None v1 (vw w') →
    refresh_spec gen ids j raw w w' (Err ErrTokenReused)
| RFJWT res a a' e :
    rotate_spec gen ids raw (w_amb w) (w_amb w') (vw w) (vw w') res None →
    JWTIssuer_Issue j (Session_UserID (RefreshResult_Session res)) a = (Err e, a') →
    refresh_spec gen ids j raw w w' (Err e)
| RFOk res v1 at' a a' :
    rotate_spec gen ids raw (w_amb w) (w_amb w') (vw w) v1 res None →
    JWTIssuer_Issue j (Session_UserID (RefreshResult_Session res)) a = (Ok at', a') →
    amb_le (w_amb w) a → amb_le a' (w_amb w') →
    audited EventTokenRotated (Session_UserID (RefreshResult_Session res))
      EmptyString None v1 (vw w') →
    refresh_spec gen ids j raw w w' (Ok (mkTokens at' (RefreshResult_RawToken res))).

End refresh_spec.

(** ** Engines over lawful components *)

(** What the theorems on an engine ask of its components; an engine that [New]
    built over contract stores has it. *)
Class EngineLaws {S} `{StoreModel S} (e : Engine S) : Prop := {
  el_users :: UserContract (e_users e);
  el_sessions :: SessionContract (e_sessions e);
  el_audit :: AuditContract (e_audit e);
  el_verifications vs : e_verifications e = Some vs → VerificationContract vs;
  el_sender sender : e_emailSender e = Some sender → EmailSenderLaws sender;
  el_hasher :: HasherLaws (e_hasher e);
  el_ids :: IDGeneratorLaws (e_ids e);
  el_limiter :: RateLimiterLaws (e_rateLimiter e);
  el_gen :: TokenGeneratorLaws (e_refreshGen e);
  el_log :: LoggerLaws (e_log e);
}.

Section refresh.
Context `{Env, JWT} {S : Type} `{StoreModel S, !StoreLaws} (e : Engine S) `{!EngineLaws e}.

Implicit Types (w : World S).

Lemma wp_RefreshToken raw w :
  inv w →
  wp (cryden_RefreshToken e raw) (λ r w', inv w' ∧ same_outside w w' ∧
    refresh_spec (e_refreshGen e) (e_ids e) (e_jwtIssuer e) raw w w' r) w.
Proof.
  intros Hinv. unfold cryden_RefreshToken. apply wp_bind. eapply wp_mono.
  { by apply (wp_Rotate (e_sessions e) (e_refreshGen e) (e_ids e) raw). }
  intros [res err] w1 (Hinv1 & Ho1 & Hrot).
  assert (∀ c', amb_le (w_amb w1) c' → rotate_spec (e_refreshGen e) (e_ids e) raw (w_amb w) c'
    (vw w) (vw w1) res err) as Hrot' by (intros c' Hc'; by eapply rotate_spec_mono).
  destruct err as [err|].
  - wp_auto. case_bool_decide as He; wp_auto; finish.
    + subst. eapply RFReused; [|done]. apply Hrot'. outside.
    + eapply RFFailed; [|done]. apply Hrot'. outside.
  - wp_auto. destruct r as [tok|e1]; wp_auto; finish.
    + eapply RFOk; [apply Hrot'; outside|done|outside|outside|done].
    + eapply RFJWT; [apply Hrot'; outside|done].
Qed.

End refresh.
