(* ===== verification/Fixtures.v ===== *)
(** * Runs of the sample engine

    Engines that [New] builds are lawful; worlds reached by requests to the
    sample engine over the in-memory stores, on which the theorems are
    exercised. *)
From S2P Require Import Prelude Errors Runtime Store StoreSpec Logger RateLimiter World.
From S2P Require Import ConsoleLogger Memory MemoryContract Security Token Auth Engine Sample.
From S2P Require Import LoginLogic.

(** ** Lawful engines *)

(** What the caller supplies in a configuration keeps its interfaces' promises. *)
Class ConfigLaws {S} `{StoreModel S} (c : Config S) : Prop := {
  cl_users users : Config_Users c = Some users → UserContract users;
  cl_sessions sessions : Config_Sessions c = Some sessions → SessionContract sessions;
  cl_audit audit : Config_Audit c = Some audit → AuditContract audit;
  cl_verifications vs : Config_Verifications c = Some vs → VerificationContract vs;
  cl_sender sender : Config_EmailSender c = Some sender → EmailSenderLaws sender;
  cl_log l : Config_Logger c = Some l → LoggerLaws l;
}.

Lemma New_lawful `{Env, BcryptLaws, JWT} {S} `{StoreModel S} (c : Config S) e :
  ConfigLaws c → New c = Ok e → EngineLaws e.
Proof.
  intros [? ? ? ? ? Hlog]. unfold New, Config_validate.
  case_bool_decide; [done|].
  destruct (Config_Users c) eqn:?, (Config_Sessions c) eqn:?, (Config_Audit c) eqn:?;
    simpl; try done.
  destruct (NewBcryptHasher _); simpl; [|done].
  destruct (NewCryptoRandTokenGenerator _); simpl; [|done].
  destruct (NewJWTIssuer _ _); simpl; [|done].
  intros [= <-]. split; simpl; eauto; try apply _.
  destruct (Config_Logger c); simpl; [by apply Hlog|apply _].
Qed.

#[export] Instance quiet_logger_laws : LoggerLaws quiet_logger.
Proof. split. intros *. apply event_le. Qed.

#[export] Instance sample_sender_laws : EmailSenderLaws sample_sender.
Proof. split. intros *. apply event_le. Qed.

Section fixtures.
#[local] Existing Instances sample_env sample_bcrypt sample_jwt.
#[local] Existing Instances sample_bcrypt_laws sample_jwt_laws.

#[export] Instance sample_engine_laws : EngineLaws sample_engine.
Proof.
  apply (New_lawful sample_config); [|reflexivity].
  split; simpl; intros ? [= <-]; apply _.
Qed.

(** ** The representation invariant, as a test *)

Definition mem_inv_b (h : MemHeap) : bool :=
  forallb (λ p, bool_decide (User_ID p.2 = p.1)) (map_to_list (mem_users h)) &&
  forallb (λ p, bool_decide (Session_ID p.2 = p.1)) (map_to_list (mem_sessions h)) &&
  forallb (λ p, bool_decide (VerificationToken_ID p.2 = p.1)) (map_to_list (mem_tokens h)).

Lemma forallb_filed {V} (id : V → string) (m : gmap string V) :
  forallb (λ p, bool_decide (id p.2 = p.1)) (map_to_list m) = true →
  ∀ k v, m !! k = Some v → id v = k.
Proof.
  intros Hm%Is_true_eq_left%forallb_True. rewrite Forall_forall in Hm.
  intros k v Hk%elem_of_map_to_list. by apply Hm in Hk as ?%bool_decide_unpack.
Qed.

Lemma mem_inv_b_sound h : mem_inv_b h = true → mem_inv h.
Proof.
  unfold mem_inv_b. rewrite !andb_true_iff. intros [[? ?] ?].
  split; by apply forallb_filed.
Qed.

(** The entries of a map with one key. *)
Lemma only_entry {V} (m : gmap string V) k0 v0 k v :
  map_to_list m = [(k0, v0)] → m !! k = Some v → k = k0 ∧ v = v0.
Proof.
  intros HM Hk%elem_of_map_to_list. rewrite HM in Hk.
  by apply list_elem_of_singleton in Hk as [= -> ->].
Qed.

(** ** Worlds *)

Definition alice := "alice@example.com".
Definition home := "203.0.113.7".

(** Alice has signed up. *)
Definition w_signed : World MemHeap :=
  (run (cryden_SignUp sample_engine alice "hunter2" home) mem_world0).2.
Definition alice_id := "id3".

Definition alice_user : User := Eval vm_compute in
  default (new_User EmptyString EmptyString EmptyString) (mem_users (w_store w_signed) !! alice_id).

Lemma signed_users :
  map_to_list (v_users (mem_view (w_store w_signed))) = [(alice_id, alice_user)].
Proof. vm_compute. reflexivity. Qed.

(** Alice has logged in. *)
Definition w_login : World MemHeap :=
  (run (cryden_Login sample_engine alice "hunter2" home "curl") w_signed).2.
Definition raw1 := "0a0b0c0d0e0f101112131415161718191a1b1c1d1e1f20212223242526272829".
Definition session1 := "id9".

Example login_raw1 : ∃ at', (run (cryden_Login sample_engine alice "hunter2" home "curl") w_signed).1
  = Ok (mkTokens at' raw1).
Proof. eexists. vm_compute. reflexivity. Qed.

(** ... and has refreshed her token once. *)
Definition w_refreshed : World MemHeap :=
  (run (cryden_RefreshToken sample_engine raw1) w_login).2.

End fixtures.

(** Discharges the invariant of a fixture. *)
Ltac fixture_inv := apply mem_inv_b_sound; vm_compute; reflexivity.
