(* ===== verification/PgFixtures.v ===== *)
(** * Runs of the sample engine over the PostgreSQL stores

    A server that takes any text for an identifier and keeps timestamps to the
    microsecond, and worlds reached by requests to an engine over its tables. *)
From S2P Require Import Prelude Errors Runtime Store StoreSpec Logger RateLimiter World.
From S2P Require Import Postgres PostgresContract Security Token Auth Engine Sample.
From S2P Require Import LoginLogic Fixtures.

Definition sample_pg : Postgres := {|
  pg_uuid_in := Some;
  pg_text_ok := λ s, negb (has_nul s);
  pg_timestamptz := λ t, t / Microsecond * Microsecond;
|}.

Lemma sample_pg_laws : @PostgresLaws sample_pg.
Proof.
  split; simpl; [done|]. intros t. unfold Microsecond.
  pose proof (Z.div_mod t 1000). pose proof (Z.mod_pos_bound t 1000). lia.
Qed.

Section pg_fixtures.
#[local] Existing Instances sample_env sample_bcrypt sample_jwt sample_pg.
#[local] Existing Instances sample_bcrypt_laws sample_jwt_laws sample_pg_laws.

Definition pg_config : Config PgHeap :=
  mkConfig "smoketest-secret" (Some PgUserStore) (Some PgSessionStore) (Some PgAuditStore)
    (Some PgVerificationStore) (Some sample_sender) 0 0 0 0 0 0 0 (Some quiet_logger).

Definition pg_engine : Engine PgHeap :=
  mkEngine PgUserStore PgSessionStore PgAuditStore (Some PgVerificationStore)
    (Some sample_sender) (BcryptHasher_Hasher (mkBcryptHasher 10)) NewUUIDv7Generator
    (NewInMemoryRateLimiter 10 Minute)
    (CryptoRand_TokenGenerator (mkCryptoRandTokenGenerator 32))
    (mkJWTIssuer "smoketest-secret" (15 * Minute)) quiet_logger 5 (15 * Minute).

#[export] Instance pg_engine_laws : EngineLaws pg_engine.
Proof.
  apply (New_lawful pg_config); [|reflexivity].
  split; simpl; intros ? [= <-]; apply _.
Qed.

Definition pg_world0 : World PgHeap := mkWorld NewPgHeap ∅ (mkAmb 0 0) [] [] [].

(** The invariant of the tables, as a test. *)
Definition pg_inv_b (h : PgHeap) : bool :=
  bool_decide (map_Forall (λ k u, u_id u = k ∧ 0 ≤ u_failed_attempts u ≤ int4_max) (pg_users h)) &&
  bool_decide (map_Forall (λ k s, s_id s = k ∧ is_Some (s_ip s) ∧ is_Some (s_user_agent s))
    (pg_sessions h)) &&
  bool_decide (map_Forall (λ k t, t_id t = k) (pg_verification_tokens h)).

Lemma pg_inv_b_sound h : pg_inv_b h = true → pg_inv h.
Proof.
  unfold pg_inv_b. rewrite !andb_true_iff, !bool_decide_eq_true. intros [[HU HS] HT].
  split; intros k r Hr.
  - by destruct (HU _ _ Hr).
  - destruct (HS _ _ Hr) as (? & ? & ?). by split_and!.
  - by split_and!; [apply HT|..].
Qed.

Definition pg_signed : World PgHeap :=
  (run (cryden_SignUp pg_engine alice "hunter2" home) pg_world0).2.
Definition pg_login : World PgHeap :=
  (run (cryden_Login pg_engine alice "hunter2" home "curl") pg_signed).2.

End pg_fixtures.
