(* ===== verification/TokenTheorems.v ===== *)
(** * Access tokens and generated secrets (token/jwt.go, token/generator.go)

    An access token verifies to the user it was issued to until its time is
    over and not after, tokens of other signing methods are refused, refresh
    tokens carry the configured number of random bytes. *)
From S2P Require Import Prelude Errors Runtime Sha256 Store Logger RateLimiter World.
From S2P Require Import Security Token Logic Engine Sample Fixtures.

Section issued.
Context `{Env, JWT}.

(** [tok] is an access token of [uid] issued by [j] at [now]: it verifies within
    its time to live, up to the second to which expiry is truncated, and not
    after it. *)
Definition issued_at (j : JWTIssuer) (uid tok : string) (now : time) : Prop :=
  ∀ b r b', JWTIssuer_Verify j tok b = (r, b') →
    (amb_time b' ≤ now + JWTIssuer_ttl j - Second → r = Ok uid) ∧
    (now + JWTIssuer_ttl j ≤ amb_time b' → r = Err ErrInvalidAccessToken).

(** The claims [Issue] signs at [now]. *)
Definition claims_at (j : JWTIssuer) (uid : string) (now : time) : RegisteredClaims :=
  mkRegisteredClaims uid (Some (jwt_NewNumericDate now))
    (Some (jwt_NewNumericDate (now + JWTIssuer_ttl j))).

Lemma Issue_eq j uid a r a' :
  JWTIssuer_Issue j uid a = (r, a') →
  r = jwt_SignedString jwt_HS256 (claims_at j uid (amb_time a')) (JWTIssuer_secret j).
Proof. unfold JWTIssuer_Issue, time_Now, event. st_unfold. by intros [= <- <-]. Qed.

Lemma Verify_eq j tok b r b' :
  JWTIssuer_Verify j tok b = (r, b') →
  r = match jwt_ParseWithClaims (amb_time b') tok (verify_key j) with
      | Ok (claims, true) => Ok (claims_Subject claims)
      | _ => Err ErrInvalidAccessToken
      end.
Proof.
  unfold JWTIssuer_Verify, event. st_unfold.
  destruct (jwt_ParseWithClaims _ _ _) as [[c []]|] eqn:E; simpl; intros [= <- <-];
    simpl; by rewrite E.
Qed.

Lemma verify_key_HS256 `{!JWTLaws} j : verify_key j jwt_HS256 = Ok (JWTIssuer_secret j).
Proof. unfold verify_key. by rewrite jwt_HS256_is_hmac. Qed.

Lemma Issue_Verify `{!JWTLaws} j uid a tok a' :
  JWTIssuer_Issue j uid a = (Ok tok, a') → ascii_only uid = true →
  issued_at j uid tok (amb_time a').
Proof.
  intros Hs%Issue_eq Hascii b r b' ->%Verify_eq. symmetry in Hs.
  pose proof (jwt_date_truncates (amb_time a' + JWTIssuer_ttl j)) as [Ht1 Ht2].
  split; intros Ht.
  - rewrite (jwt_parse_signed _ _ _ _ _ _ Hs); [done|done|apply verify_key_HS256|].
    simpl. intros ? [= <-]. lia.
  - destruct (jwt_parse_expired _ _ _ _ (amb_time b') (verify_key j)
      (jwt_NewNumericDate (amb_time a' + JWTIssuer_ttl j)) Hs) as [err ->]; [done|lia|done].
Qed.

Lemma Issue_total `{!JWTLaws} j uid a : ∃ tok a', JWTIssuer_Issue j uid a = (Ok tok, a').
Proof.
  destruct (JWTIssuer_Issue j uid a) as [r a'] eqn:E. pose proof (Issue_eq _ _ _ _ _ E) as ->.
  destruct (jwt_sign_total (claims_at j uid (amb_time a')) (JWTIssuer_secret j)) as [tok ->].
  eauto.
Qed.

End issued.

(** ** The facade *)

(** C39: an access token that the engine issued to a user verifies to that user's ID
    as long as its time to live is not over, up to the second that JWT dates are
    truncated to, and is refused with [ErrInvalidAccessToken] from then on,
    whenever it is presented; verifying changes no storage. *)
Theorem access_token_verifies `{Env, JWT, !JWTLaws} {S} (e : Engine S) uid a tok a'
    (w : World S) r w' :
  JWTIssuer_Issue (e_jwtIssuer e) uid a = (Ok tok, a') → ascii_only uid = true →
  run (cryden_VerifyToken e tok) w = (r, w') →
  (amb_time (w_amb w') ≤ amb_time a' + JWTIssuer_ttl (e_jwtIssuer e) - Second → r = Ok uid) ∧
  (amb_time a' + JWTIssuer_ttl (e_jwtIssuer e) ≤ amb_time (w_amb w') →
     r = Err ErrInvalidAccessToken) ∧
  w_store w' = w_store w.
Proof.
  intros HI Ha Hrun. by_run Hrun.
  apply wp_on_amb. intros r' b HV.
  destruct (Issue_Verify _ _ _ _ _ HI Ha _ _ _ HV). done.
Qed.

(** A token whose header names a signing method outside the HMAC family is
    refused, whoever signed it and with whatever key and claims. *)
Theorem access_token_alg_confusion `{Env, JWT, !JWTLaws} j m c key tok a r a' :
  jwt_isHMAC m = false → jwt_SignedString m c key = Ok tok →
  JWTIssuer_Verify j tok a = (r, a') → r = Err ErrInvalidAccessToken.
Proof.
  intros Hm Hs ->%Verify_eq.
  destruct (jwt_parse_keyfunc m c key tok (amb_time a') (verify_key j) ErrInvalidAccessToken Hs)
    as [err ->]; [|done]. unfold verify_key. by rewrite Hm.
Qed.

(** A refresh-token generator is only built for 16 bytes or more, and the
    tokens it makes are twice as many hexadecimal digits that spell out exactly
    the bytes drawn from the random source: no entropy is lost. *)
Theorem refresh_token_entropy `{Env} n g a tok a' :
  NewCryptoRandTokenGenerator n = Ok g → CryptoRandTokenGenerator_New g a = (Ok tok, a') →
  16 ≤ n ∧ Z.of_nat (String.length tok) = 2 * n ∧
  hex_decode tok = (env_rand_byte (amb_step a) <$> seq 0 (Z.to_nat n)).
Proof.
  unfold NewCryptoRandTokenGenerator. case_bool_decide; [done|]. intros [= <-].
  unfold CryptoRandTokenGenerator_New, rand_Read, event. st_unfold.
  destruct (env_rand_err _); [done|]. intros [= <- _].
  rewrite hex_length, hex_decode_encode, length_fmap, length_seq. split_and!; [lia|simpl; lia|done].
Qed.

(** ** Instances *)

Section witnesses.
#[local] Existing Instances sample_env sample_bcrypt sample_jwt.
#[local] Existing Instances sample_bcrypt_laws sample_jwt_laws.

Definition sample_token : string :=
  match JWTIssuer_Issue (e_jwtIssuer sample_engine) "id3" (mkAmb 0 0) with
  | (Ok tok, _) => tok
  | _ => EmptyString
  end.

Lemma access_token_verifies_witness :
  (run (cryden_VerifyToken sample_engine sample_token) mem_world0).1 = Ok "id3".
Proof.
  refine (proj1 (access_token_verifies sample_engine "id3" (mkAmb 0 0) sample_token
    (mkAmb 1 Second) mem_world0 _ _ _ _ _) _).
  - vm_compute. reflexivity.
  - reflexivity.
  - apply surjective_pairing.
  - vm_compute. discriminate.
Defined.

Lemma access_token_alg_confusion_witness :
  (JWTIssuer_Verify (e_jwtIssuer sample_engine)
    (sign_text RS256 (claims_at (e_jwtIssuer sample_engine) "id3" 0) "public-key")
    (mkAmb 0 0)).1 = Err ErrInvalidAccessToken.
Proof.
  refine (access_token_alg_confusion (e_jwtIssuer sample_engine) RS256
    (claims_at (e_jwtIssuer sample_engine) "id3" 0) "public-key" _ _ _ _ _ _ _).
  - reflexivity.
  - reflexivity.
  - apply surjective_pairing.
Defined.

Lemma refresh_token_entropy_witness :
  16 ≤ 32 ∧ Z.of_nat (String.length raw1) = 2 * 32 ∧
  hex_decode raw1 = (@env_rand_byte sample_env 10 <$> seq 0 (Z.to_nat 32)).
Proof.
  refine (refresh_token_entropy 32 (mkCryptoRandTokenGenerator 32) (mkAmb 10 0) raw1
    (mkAmb 11 Second) _ _).
  - reflexivity.
  - vm_compute. reflexivity.
Defined.

End witnesses.
