(* ===== verification/RefreshTheorems.v ===== *)
(** * Refresh-token rotation is correct (token/refresh.go, RefreshToken of cryden.go)

    A live token is exchanged for exactly one successor, a token that was
    already exchanged kills its family and is reported, an unknown token does
    nothing. All theorems hold over any stores that keep the contract. *)
From S2P Require Import Prelude Errors Runtime Sha256 Store StoreSpec SessionMachine.
From S2P Require Import Logger RateLimiter World Memory MemoryContract Security Token Logic.
From S2P Require Import Auth Engine Rotation AuthLogic LoginLogic Sample Fixtures TokenTheorems.

Section refresh.
Context {S : Type} `{StoreModel S, !StoreLaws}.

(** The session that a raw token belongs to, if the hash identifies it. *)
Definition token_of (raw k : string) (s : Session) (v : View) : Prop :=
  v_sessions v !! k = Some s ∧ Session_TokenHash s = HashToken raw ∧
  ∀ k' s', v_sessions v !! k' = Some s' → Session_TokenHash s' = HashToken raw → k' = k.

Lemma token_of_eq raw k s k' s' v :
  token_of raw k s v → v_sessions v !! k' = Some s' →
  Session_TokenHash s' = HashToken raw → k' = k ∧ s' = s.
Proof. intros (Hk & _ & Hu) Hk' Hh. pose proof (Hu _ _ Hk' Hh) as ->. by simplify_eq. Qed.

(** The view after a successful rotation of the session [old] into one with the
    ID [kn] and the token [raw']. *)
Definition rotated (old : Session) (kn raw' : string) (v v' : View) : Prop :=
  ∃ t t', v' = with_sessions v
    (<[kn := mkSession kn (Session_FamilyID old) (Session_UserID old) (HashToken raw')
               (Session_IP old) (Session_UserAgent old) t' None]>
      (<[Session_ID old := set_RevokedAt old (Some t)]> (v_sessions v))).

Lemma token_rotated_rotated w k s id raw' v' :
  store_inv w → v_sessions (view w) !! k = Some s →
  token_rotated k id (Session_FamilyID s) (Session_UserID s) (HashToken raw')
    (Session_IP s) (Session_UserAgent s) (view w) v' →
  ∃ kn, key id = Some kn ∧ (strict = true → v_sessions (view w) !! kn = None) ∧
    rotated s kn raw' (view w) v'.
Proof.
  intros Hi Hk (ko & so & t & kn & kf & ku & t' & Ho & Hso & Hn & Hf & Hu & Hst & ->).
  destruct (canon_session _ _ _ Hi Hk) as (HID & Hkk & Hff & Huu). subst k.
  simplify_eq. exists kn. split; [done|]. split; [naive_solver|]. by exists t, t'.
Qed.

(** The family of a session after its revocation. *)
Definition family_killed (f : string) (v v' : View) : Prop :=
  ∃ t, v' = with_sessions v (revoke_where (λ s, Session_FamilyID s = f) t <$> v_sessions v).

Lemma family_revoked_killed w k s v' :
  store_inv w → v_sessions (view w) !! k = Some s →
  family_revoked (Session_FamilyID s) (view w) v' →
  family_killed (Session_FamilyID s) (view w) v'.
Proof.
  intros Hi Hk (kf & t & Hf & ->). destruct (canon_session _ _ _ Hi Hk) as (_ & _ & ? & _).
  simplify_eq. by exists t.
Qed.

Lemma family_killed_dead f v v' k s :
  family_killed f v v' → v_sessions v' !! k = Some s → Session_FamilyID s = f → ¬ live s.
Proof.
  intros [t ->]. simpl. rewrite lookup_fmap_Some. intros (x & <- & _) Hf.
  apply revoke_where_kills.
  by destruct (later_revoke_where (λ s, Session_FamilyID s = f) t x) as [(_ & <- & _) _].
Qed.

Section rotate.
Context (sessions : SessionStore S) `{!SessionContract sessions}.
Context (gen : TokenGenerator) `{!TokenGeneratorLaws gen}.
Context (ids : IDGenerator) `{!IDGeneratorLaws ids}.

Implicit Types (w : World S).

(** C2: a successful [Rotate] was given the token of a live session; afterwards
    that session is revoked, one new session with the hash of the returned token
    exists in the same family, for the same user, IP and user agent, and nothing
    else in the storage has changed. Where the storage enforces keys the new ID
    was unused. *)
Theorem rotate_success raw w res w' :
  inv w → run (Rotate sessions gen ids raw) w = ((res, None), w') →
  ∃ k old kn, v_sessions (vw w) !! k = Some old ∧ live old ∧
    Session_TokenHash old = HashToken raw ∧
    key (Session_ID (RefreshResult_Session res)) = Some kn ∧
    (strict = true → v_sessions (vw w) !! kn = None) ∧
    Session_FamilyID (RefreshResult_Session res) = Session_FamilyID old ∧
    Session_UserID (RefreshResult_Session res) = Session_UserID old ∧
    rotated old kn (RefreshResult_RawToken res) (vw w) (vw w') ∧ inv w'.
Proof.
  intros Hi Hrun. pose proof (wp_elim _ _ _ _ _ Hrun (wp_Rotate sessions gen ids raw w Hi))
    as (? & _ & Hsp). inversion Hsp as [| | | | |k s id raw' Hk Hh Hl Hdr Hrot]; subst.
  destruct (token_rotated_rotated _ _ _ _ _ _ Hi Hk Hrot) as (kn & ? & ? & ?).
  by exists k, s, kn.
Qed.

(** C40: the token of a live session can always be exchanged: over a storage
    without faults and with working generators [Rotate] succeeds. *)
Theorem rotate_live_succeeds raw w k s res err w' :
  inv w → token_of raw k s (vw w) → live s → reliable = true →
  id_total ids → token_total gen →
  run (Rotate sessions gen ids raw) w = ((res, err), w') → err = None.
Proof.
  intros Hi Ht Hl Hrel Hid Hgen Hrun.
  pose proof (wp_elim _ _ _ _ _ Hrun (wp_Rotate sessions gen ids raw w Hi)) as (_ & _ & Hsp).
  destruct Hsp as [Hno _|k' s' Hk' Hh' Hd|k' s' e Hk' Hh' Hd Hr|k' s' e Hk' Hh' Hd Hg
    |k' s' id raw' e Hk' Hh' Hd Hr|]; try (congruence || tauto).
  - destruct Ht as (Hk & Hh & _). destruct (Hno Hrel _ _ Hk Hh).
  - destruct (token_of_eq _ _ _ _ _ _ Ht Hk' Hh') as [-> ->]. done.
Qed.

(** Presenting a token whose session is already revoked never yields a token.
    [Rotate] reports [ErrTokenReused] (always, over a storage without faults),
    and when it does every session of the family is revoked and no other session
    is touched. *)
Theorem rotate_reuse_kills_family raw w k s res err w' :
  inv w → token_of raw k s (vw w) → ¬ live s →
  run (Rotate sessions gen ids raw) w = ((res, err), w') →
  RefreshResult_RawToken res = EmptyString ∧ err ≠ None ∧
  (reliable = true → err = Some ErrTokenReused) ∧
  (err = Some ErrTokenReused →
     RefreshResult_Session res = s ∧ family_killed (Session_FamilyID s) (vw w) (vw w') ∧
     ∀ k' s', v_sessions (vw w') !! k' = Some s' →
       Session_FamilyID s' = Session_FamilyID s → ¬ live s').
Proof.
  intros Hi Ht Hl Hrun.
  pose proof (wp_elim _ _ _ _ _ Hrun (wp_Rotate sessions gen ids raw w Hi)) as (_ & _ & Hsp).
  destruct Hsp as [Hno _|k' s' Hk' Hh' Hd HF|k' s' e Hk' Hh' Hd Hr Hse HF|k' s' e Hk' Hh' Hd Hg
    |k' s' id raw' e Hk' Hh' Hd Hr|k' s' id raw' Hk' Hh' Hd].
  - split_and!; try done. intros Hrel. destruct Ht as (Hk & Hh & _). by destruct (Hno Hrel _ _ Hk Hh).
  - destruct (token_of_eq _ _ _ _ _ _ Ht Hk' Hh') as [-> ->].
    assert (family_killed (Session_FamilyID s) (vw w) (vw w')) by
      by eapply family_revoked_killed.
    split_and!; try done. intros _. split_and!; try done. intros. by eapply family_killed_dead.
  - split_and!; try done; [congruence|]. intros [= ->]. destruct Hse as [|[? ?]]; done.
  - by destruct (token_of_eq _ _ _ _ _ _ Ht Hk' Hh') as [-> ->].
  - by destruct (token_of_eq _ _ _ _ _ _ Ht Hk' Hh') as [-> ->].
  - by destruct (token_of_eq _ _ _ _ _ _ Ht Hk' Hh') as [-> ->].
Qed.

(** A token that no session has is refused with [ErrInvalidToken] and changes
    nothing. *)
Theorem rotate_unknown raw w res err w' :
  inv w →
  (∀ k s, v_sessions (vw w) !! k = Some s → Session_TokenHash s ≠ HashToken raw) →
  run (Rotate sessions gen ids raw) w = ((res, err), w') →
  err = Some ErrInvalidToken ∧ res = zero_RefreshResult ∧ vw w' = vw w.
Proof.
  intros Hi Hno Hrun.
  pose proof (wp_elim _ _ _ _ _ Hrun (wp_Rotate sessions gen ids raw w Hi)) as (_ & _ & Hsp).
  destruct Hsp; try done; by edestruct Hno.
Qed.

End rotate.

Section facade.
Context `{Env, JWT, !JWTLaws} (e : Engine S) `{!EngineLaws e}.

Implicit Types (w : World S).

(** What a rotation of a reused token comes to: it is reported and the family is
    killed, or the storage failed, before the revocation or in it. *)
Lemma rotate_spec_reused raw w k s b' v' res err :
  inv w → token_of raw k s (vw w) → ¬ live s →
  rotate_spec (e_refreshGen e) (e_ids e) raw (w_amb w) b' (vw w) v' res err →
  (err = Some ErrTokenReused ∧ RefreshResult_Session res = s ∧
     family_killed (Session_FamilyID s) (vw w) v') ∨
  (reliable = false ∧ (∃ e', err = Some e' ∧ e' ≠ ErrTokenReused) ∧
     (v' = vw w ∨ family_killed (Session_FamilyID s) (vw w) v')).
Proof.
  intros Hi (Hk & Hh & Huniq) Hl Hr.
  destruct Hr as [Hno ->|k' s' Hk' Hh' Hd HF|k' s' e' Hk' Hh' Hd Hrel Hse HF|k' s' e' Hk' Hh' Hd
    |k' s' id raw' e' Hk' Hh' Hd|k' s' id raw' Hk' Hh' Hd];
    [|pose proof (Huniq _ _ Hk' Hh') as ->; simplify_eq; try done..].
  - right. split_and!; [|eauto|by left]. destruct reliable; [|done].
    by destruct (Hno eq_refl _ _ Hk Hh).
  - left. split_and!; [done..|]. by eapply family_revoked_killed.
  - right. split_and!; [done| |].
    + exists e'. split; [done|]. by destruct Hse as [->|[? ->]].
    + destruct HF as [->|HF]; [by left|right]. by eapply family_revoked_killed.
Qed.

(** The answer to a reused token, and the sessions after it. *)
Lemma refresh_reused raw w k s r w' :
  inv w → token_of raw k s (vw w) → ¬ live s →
  run (cryden_RefreshToken e raw) w = (r, w') →
  (r = Err ErrTokenReused ∧ ∃ v1, family_killed (Session_FamilyID s) (vw w) v1 ∧
    audited EventTokenReuseDetected (Session_UserID s) EmptyString None v1 (vw w')) ∨
  (reliable = false ∧ (∃ e', r = Err e' ∧ e' ≠ ErrTokenReused) ∧
    (vw w' = vw w ∨ family_killed (Session_FamilyID s) (vw w) (vw w'))).
Proof.
  intros Hi Ht Hl Hrun.
  pose proof (wp_elim _ _ _ _ _ Hrun (wp_RefreshToken e raw w Hi)) as (_ & _ & Hsp).
  destruct Hsp as [res e' Hr Hne|res v1 Hr HA|res a a' e' Hr _|res v1 at' a a' Hr];
    eapply rotate_spec_reused in Hr as [(He & <- & HF)|(? & (e0 & He & ?) & HF)];
    try done; try congruence.
  - right. split_and!; eauto.
  - left. split; [done|]. by exists v1.
Qed.

(** C18: [RefreshToken] with a token that was already exchanged or revoked never
    yields tokens. It answers [ErrTokenReused], and then the whole family of the
    session is revoked and a token_reuse_detected event for the user the session
    belonged to is recorded; or it answers another error, which only happens when
    the storage failed to look the session up or to revoke the family
    (token/refresh.go:69), and then nothing has changed or the family is revoked
    all the same. Over a storage without faults the answer is [ErrTokenReused] and
    exactly one event is recorded (the session being that of some user); over one with
    faults the event may be missing. *)
Theorem refresh_reuse_detected raw w k s r w' :
  inv w → token_of raw k s (vw w) → ¬ live s →
  run (cryden_RefreshToken e raw) w = (r, w') →
  is_ok r = false ∧
  (r = Err ErrTokenReused → ∃ v1, family_killed (Session_FamilyID s) (vw w) v1 ∧
     audited EventTokenReuseDetected (Session_UserID s) EmptyString None v1 (vw w')) ∧
  (r ≠ Err ErrTokenReused → reliable = false ∧
     (vw w' = vw w ∨ family_killed (Session_FamilyID s) (vw w) (vw w'))) ∧
  (reliable = true → Session_UserID s ≠ EmptyString → r = Err ErrTokenReused ∧
     ∃ v1 ev, family_killed (Session_FamilyID s) (vw w) v1 ∧
       vw w' = with_events v1 (v_events (vw w) ++ [ev]) ∧
       AuditEvent_Type ev = EventTokenReuseDetected ∧ AuditEvent_UserID ev = Session_UserID s).
Proof.
  intros Hi Ht Hl Hrun.
  destruct (refresh_reused _ _ _ _ _ _ Hi Ht Hl Hrun)
    as [(-> & v1 & HF & HA)|(Hrel & (e' & -> & Hne) & HF)].
  2:{ split_and!; [done|congruence|done|congruence]. }
  split_and!; [done|eauto|done|]. intros Hrel Hu. split; [done|].
  destruct HA as [(ev & ((Hty & _ & _ & Huid) & _) & ->)|[? _]]; [|congruence].
  simpl in Huid. rewrite bool_decide_false in Huid by done.
  destruct (canon_session _ _ _ Hi (proj1 Ht)) as (_ & _ & _ & ?). simplify_eq.
  exists v1, ev. split_and!; try done. by destruct HF as [t ->].
Qed.

(** What an exchange did to the session of the token it was given. *)
Lemma refresh_rotated raw w k s toks w' :
  inv w → token_of raw k s (vw w) → run (cryden_RefreshToken e raw) w = (Ok toks, w') →
  ∃ b' id kn v1, drawn (e_ids e) (w_amb w) b' id ∧ key id = Some kn ∧
    rotated s kn (Tokens_RefreshToken toks) (vw w) v1 ∧
    audited EventTokenRotated (Session_UserID s) EmptyString None v1 (vw w').
Proof.
  intros Hi Ht Hrun.
  pose proof (wp_elim _ _ _ _ _ Hrun (wp_RefreshToken e raw w Hi)) as (_ & _ & Hsp).
  inversion Hsp as [| | |res v1 at' a a' Hr HI Hle1 Hle2 HA]; subst; simpl.
  inversion Hr as [| | | | |k' s' id raw' Hk Hh Hl Hdr Hrot]; subst; simpl in *.
  destruct (token_of_eq _ _ _ _ _ _ Ht Hk Hh) as [-> ->].
  destruct (token_rotated_rotated _ _ _ _ _ _ Hi Hk Hrot) as (kn & ? & _ & ?).
  by eexists _, id, kn, v1.
Qed.

(** When [RefreshToken] returns tokens, the presented token belonged to a live
    session; that session is revoked, the returned refresh token is that of the one
    session that was added, in the same family, for the same user, and nothing else of
    the storage changes but the trail, where the rotation is recorded unless the storage
    failed to; the returned access token verifies to the session's user from the time of
    the request on, until its time to live is over (user IDs are ASCII). *)
Theorem refresh_success raw w toks w' :
  inv w → (∀ k s, v_sessions (vw w) !! k = Some s → ascii_only (Session_UserID s) = true) →
  run (cryden_RefreshToken e raw) w = (Ok toks, w') →
  ∃ k old kn v1 now, v_sessions (vw w) !! k = Some old ∧ live old ∧
    Session_TokenHash old = HashToken raw ∧
    rotated old kn (Tokens_RefreshToken toks) (vw w) v1 ∧
    audited EventTokenRotated (Session_UserID old) EmptyString None v1 (vw w') ∧
    between w now w' ∧
    issued_at (e_jwtIssuer e) (Session_UserID old) (Tokens_AccessToken toks) now.
Proof.
  intros Hi Hascii Hrun.
  pose proof (wp_elim _ _ _ _ _ Hrun (wp_RefreshToken e raw w Hi)) as (_ & _ & Hsp).
  inversion Hsp as [| | |res v1 at' a a' Hr HI Hle1 Hle2 HA]; subst; simpl.
  inversion Hr as [| | | | |k s id raw' Hk Hh Hl Hdr Hrot]; subst; simpl in *.
  destruct (token_rotated_rotated _ _ _ _ _ _ Hi Hk Hrot) as (kn & ? & ? & ?).
  exists k, s, kn, v1, (amb_time a'). split_and!; try done.
  - pose proof (JWTIssuer_Issue_amb _ _ _ _ _ HI). outside.
  - eapply Issue_Verify; eauto.
Qed.

End facade.

End refresh.

(** ** Instances *)

Section witnesses.
#[local] Existing Instances sample_env sample_bcrypt sample_jwt.
#[local] Existing Instances sample_bcrypt_laws sample_jwt_laws.

(** A test for [token_of] on the in-memory stores. *)
Lemma token_of_filter raw k s (h : MemHeap) :
  filter (λ p, Session_TokenHash p.2 = HashToken raw) (map_to_list (mem_sessions h)) = [(k, s)] →
  token_of raw k s (mem_view h).
Proof.
  intros HF.
  assert (∀ k' s', mem_sessions h !! k' = Some s' ∧ Session_TokenHash s' = HashToken raw ↔
    (k', s') ∈ [(k, s)]) as Hin.
  { intros k' s'. rewrite <- HF, list_elem_of_filter, elem_of_map_to_list. simpl. tauto. }
  destruct (Hin k s) as [_ Hks]. destruct Hks as [? ?]; [by left|].
  split_and!; [done|done|]. intros k' s' ? ?.
  assert ((k', s') ∈ [(k, s)]) as Hx by (by apply Hin). by apply list_elem_of_singleton in Hx as [= -> ->].
Qed.

Definition alice_session (revoked : option time) : Session :=
  mkSession session1 session1 alice_id (HashToken raw1) home "curl" (12 * Second) revoked.

(** The sample engine's [Rotate] and [RefreshToken]. *)
Definition rot (raw : string) := Rotate (e_sessions sample_engine)
  (e_refreshGen sample_engine) (e_ids sample_engine) raw.
Definition refresh (raw : string) := cryden_RefreshToken sample_engine raw.

Lemma login_sessions :
  map_to_list (v_sessions (mem_view (w_store w_login))) = [(session1, alice_session None)].
Proof. vm_compute. reflexivity. Qed.

Lemma rot_pair raw w :
  run (rot raw) w = ((run (rot raw) w).1.1, (run (rot raw) w).1.2, (run (rot raw) w).2).
Proof. by destruct (run (rot raw) w) as [[] ?]. Qed.

Lemma rotate_success_witness : ∃ k old kn,
  v_sessions (mem_view (w_store w_login)) !! k = Some old ∧
  rotated old kn (RefreshResult_RawToken (run (rot raw1) w_login).1.1)
    (mem_view (w_store w_login)) (mem_view (w_store (run (rot raw1) w_login).2)).
Proof.
  destruct (rotate_success (S:=MemHeap) (e_sessions sample_engine) (e_refreshGen sample_engine)
    (e_ids sample_engine) raw1 w_login (run (rot raw1) w_login).1.1 (run (rot raw1) w_login).2)
    as (k & old & kn & Hk & _ & _ & _ & _ & _ & _ & Hr & _).
  - fixture_inv.
  - vm_compute. reflexivity.
  - exists k, old, kn. split; [exact Hk|exact Hr].
Defined.

Lemma rotate_live_succeeds_witness : (run (rot raw1) w_login).1.2 = None.
Proof.
  refine (rotate_live_succeeds (S:=MemHeap) (e_sessions sample_engine)
    (e_refreshGen sample_engine) (e_ids sample_engine) raw1 w_login session1
    (alice_session None) _ _ _ _ _ _ _ _ _ (rot_pair _ _)).
  - fixture_inv.
  - apply token_of_filter. vm_compute. reflexivity.
  - reflexivity.
  - reflexivity.
  - intros a. reflexivity.
  - intros a. reflexivity.
Defined.

Lemma rotate_reuse_kills_family_witness :
  (run (rot raw1) w_refreshed).1.2 = Some ErrTokenReused.
Proof.
  refine (proj1 (proj2 (proj2 (rotate_reuse_kills_family (S:=MemHeap)
    (e_sessions sample_engine) (e_refreshGen sample_engine) (e_ids sample_engine) raw1
    w_refreshed session1 (alice_session (Some (19 * Second))) _ _ _ _ _ _
    (rot_pair _ _)))) _).
  - fixture_inv.
  - apply token_of_filter. vm_compute. reflexivity.
  - discriminate.
  - reflexivity.
Defined.

Lemma rotate_unknown_witness : (run (rot "nonsense") w_login).1.2 = Some ErrInvalidToken.
Proof.
  refine (proj1 (rotate_unknown (S:=MemHeap) (e_sessions sample_engine)
    (e_refreshGen sample_engine) (e_ids sample_engine) "nonsense" w_login _ _ _ _ _
    (rot_pair _ _))).
  - fixture_inv.
  - intros k s [-> ->]%(only_entry _ _ _ _ _ login_sessions). vm_compute. discriminate.
Defined.

Lemma refresh_reuse_detected_witness :
  (run (refresh raw1) w_refreshed).1 = Err ErrTokenReused.
Proof.
  refine (proj1 (proj2 (proj2 (proj2 (refresh_reuse_detected (S:=MemHeap) sample_engine raw1
    w_refreshed session1 (alice_session (Some (19 * Second))) _ _ _ _ _ (surjective_pairing _))))
    _ _)).
  - fixture_inv.
  - apply token_of_filter. vm_compute. reflexivity.
  - discriminate.
  - reflexivity.
  - discriminate.
Defined.

Lemma refresh_success_witness : ∃ old kn v1 toks,
  (run (refresh raw1) w_login).1 = Ok toks ∧
  rotated old kn (Tokens_RefreshToken toks) (mem_view (w_store w_login)) v1.
Proof.
  destruct (run (refresh raw1) w_login) as [r w'] eqn:E.
  assert (∃ toks, r = Ok toks) as [toks ->].
  { change r with ((r, w').1). rewrite <- E. eexists. vm_compute. reflexivity. }
  destruct (refresh_success (S:=MemHeap) sample_engine raw1 w_login toks w')
    as (k & old & kn & v1 & now & _ & _ & _ & Hr & _).
  - fixture_inv.
  - intros k s [-> ->]%(only_entry _ _ _ _ _ login_sessions). reflexivity.
  - exact E.
  - exists old, kn, v1, toks. split; [reflexivity|exact Hr].
Defined.

End witnesses.
