(* ===== verification/LoginTheorems.v ===== *)
(** * Login is correct (auth/login.go)

    Who gets tokens and what for, what a wrong password costs, when an account
    locks and what a locked account answers. All theorems are about the facade's
    Login of an engine over stores that keep the contract. *)
From S2P Require Import Prelude Errors Runtime Store StoreSpec Logger RateLimiter World.
From S2P Require Import Memory MemoryContract Security Token Logic Auth Engine AuthLogic LoginLogic.
From S2P Require Import Sample Fixtures TokenTheorems.

(** The limiter's answer to a login. *)
Definition login_allow {S} (e : Engine S) (email callerIP : string) (w : World S) : result bool :=
  (RateLimiter_Allow (e_rateLimiter e) ("login:" +:+ callerIP +:+ ":" +:+ email)
     (w_limiter w, w_amb w)).1.

(** The one user with an address. *)
Definition the_user (email : string) (u : User) (v : View) : Prop :=
  user_by_email email u v ∧ ∀ u', user_by_email email u' v → u' = u.

(** Not locked, or no longer. *)
Definition not_locked (u : User) (t : time) : Prop :=
  ∀ until, User_LockedUntil u = Some until → until ≤ t.

Section login.
Context `{Env, JWT, !JWTLaws} {S : Type} `{StoreModel S, !StoreLaws}.
Context (e : Engine S) `{!EngineLaws e}.

Implicit Types (w : World S).

Lemma Login_spec email password callerIP userAgent w r w' :
  inv w → run (cryden_Login e email password callerIP userAgent) w = (r, w') →
  inv w' ∧ amb_le (w_amb w) (w_amb w') ∧
  login_spec (e_hasher e) (e_ids e) (e_refreshGen e) (e_jwtIssuer e)
    (login_allow e email callerIP w) email password callerIP userAgent
    (e_lockoutThreshold e) (e_lockoutDuration e) w w' r.
Proof.
  intros Hi Hrun.
  pose proof (wp_elim _ _ _ _ _ Hrun (wp_Login (e_users e) (e_sessions e) (e_audit e)
    (e_hasher e) (e_log e) (e_ids e) (e_refreshGen e) (e_jwtIssuer e) (e_rateLimiter e)
    email password callerIP userAgent (e_lockoutThreshold e) (e_lockoutDuration e) w Hi))
    as (? & (? & ? & ?) & ?). done.
Qed.

Lemma the_user_found email u v : the_user email u v → v_users v !! User_ID u = Some u.
Proof. by intros [[? ?] _]. Qed.

Lemma the_user_no_user email u v : the_user email u v → reliable = true → no_user email v → False.
Proof. intros [[? ?] _] Hrel Hno. by eapply Hno. Qed.

(** C11: when [Login] returns tokens, the limiter had allowed the attempt, a user
    with that address exists, was not locked and the password matched the stored
    hash; one new session of its own family was added for that user, carrying
    the hash of the returned refresh token and the caller's IP and user agent;
    the access token verifies to the user; the failure counter was reset, unless
    a fault of the storage prevented that. *)
Theorem login_success email password callerIP userAgent w toks w' :
  inv w → (∀ k u, v_users (vw w) !! k = Some u → ascii_only k = true) →
  run (cryden_Login e email password callerIP userAgent) w = (Ok toks, w') →
  login_allow e email callerIP w = Ok true ∧
  ∃ u id v1 v2 now, user_by_email email u (vw w) ∧ unlocked u w w' ∧
    Hasher_Compare (e_hasher e) (User_PasswordHash u) password = Ok () ∧
    maybe (attempts_reset (User_ID u)) (vw w) v1 ∧
    session_created id id (User_ID u) (HashToken (Tokens_RefreshToken toks))
      callerIP userAgent v1 v2 ∧
    audited EventLoginSuccess (User_ID u) callerIP None v2 (vw w') ∧
    between w now w' ∧
    issued_at (e_jwtIssuer e) (User_ID u) (Tokens_AccessToken toks) now.
Proof.
  intros Hi Hascii Hrun. destruct (Login_spec _ _ _ _ _ _ _ Hi Hrun) as (_ & _ & Hsp).
  inversion Hsp as [| | | | |u v1 r Hal Hu Hun Hc Hres Hop]; subst.
  split; [done|]. inversion Hop as [| | |id raw tok a a' v2 Hdr Hcr HI Hle1 Hle2 HA]; subst.
  exists u, id, v1, v2, (amb_time a'). split_and!; try done.
  - pose proof (JWTIssuer_Issue_amb _ _ _ _ _ HI). outside.
  - eapply Issue_Verify; [done|]. destruct Hu. eauto.
Qed.

(** The right password opens the account. *)
Lemma login_right_ok email password callerIP userAgent w u r w' :
  inv w → the_user email u (vw w) → not_locked u (amb_time (w_amb w)) →
  Hasher_Compare (e_hasher e) (User_PasswordHash u) password = Ok () →
  login_allow e email callerIP w = Ok true → reliable = true →
  id_total (e_ids e) → token_total (e_refreshGen e) →
  run (cryden_Login e email password callerIP userAgent) w = (r, w') → is_ok r = true.
Proof.
  intros Hi Hu Hnl Hc Hal Hrel Hid Hgen Hrun.
  destruct (Login_spec _ _ _ _ _ _ _ Hi Hrun) as (_ & _ & Hsp).
  destruct Hsp as [e' Ha|Ha|_ Hno _|u' lim now _ Hu' HL Hbt Hlt|u' e' v1 _ Hu' _ Hc'
    |u' v1 r _ Hu' _ _ _ Hop]; try congruence.
  - by destruct (the_user_no_user _ _ _ Hu Hrel Hno).
  - apply Hu in Hu' as ->. specialize (Hnl _ HL). unfold between in Hbt. lia.
  - apply Hu in Hu' as ->. congruence.
  - destruct Hop as [e' Hng|id raw e' ?|id raw a a' e' _ _ HI|]; [tauto|congruence| |done].
    destruct (Issue_total (e_jwtIssuer e) (User_ID u') a) as (? & ? & ?). congruence.
Qed.

(** The right password opens the account: over a storage without faults, with
    working generators and an allowing limiter, a user that is not locked and
    gives the right password gets tokens. *)
Theorem login_right_password email password callerIP userAgent w u r w' :
  inv w → the_user email u (vw w) → not_locked u (amb_time (w_amb w)) →
  Hasher_Compare (e_hasher e) (User_PasswordHash u) password = Ok () →
  login_allow e email callerIP w = Ok true → reliable = true →
  id_total (e_ids e) → token_total (e_refreshGen e) →
  run (cryden_Login e email password callerIP userAgent) w = (r, w') → is_ok r = true.
Proof. apply login_right_ok. Qed.

(** C21: [Login] answers a wrong password as it answers an unknown address, with
    [ErrInvalidCredentials], and opens no session, unless the account that has the
    address is locked at the time of the attempt: then the answer is
    [ErrAccountLocked] and nothing changes. So an answer tells that an address has
    an account only while that account is locked (auth/errors.go says as much). *)
Theorem login_no_enumeration email password callerIP userAgent w r w' :
  inv w → login_allow e email callerIP w = Ok true →
  (∀ u, user_by_email email u (vw w) →
     ∃ err, Hasher_Compare (e_hasher e) (User_PasswordHash u) password = Err err) →
  run (cryden_Login e email password callerIP userAgent) w = (r, w') →
  v_sessions (vw w') = v_sessions (vw w) ∧
  (r = Err ErrInvalidCredentials ∨
   r = Err ErrAccountLocked ∧ vw w' = vw w ∧ ∃ u until now, user_by_email email u (vw w) ∧
     User_LockedUntil u = Some until ∧ between w now w' ∧ now < until) ∧
  ((∀ u, user_by_email email u (vw w) → not_locked u (amb_time (w_amb w))) →
   r = Err ErrInvalidCredentials).
Proof.
  intros Hi Hal Hwrong Hrun. destruct (Login_spec _ _ _ _ _ _ _ Hi Hrun) as (_ & _ & Hsp).
  destruct Hsp as [e' Ha|Ha|_ _ HA|u' lim now _ Hu' HL Hbt Hlt Hv|u' e' v1 _ Hu' _ _ HA HC
    |u' v1 r _ Hu' _ Hc']; try congruence.
  - destruct (audited_same _ _ _ _ _ _ HA) as (_ & ? & _). split_and!; [done|by left|done].
  - rewrite Hv. split_and!; [done|right; split_and!; [done..|by exists u', lim, now]|].
    intros Hnl. specialize (Hnl _ Hu' _ HL). unfold between in Hbt. lia.
  - destruct (audited_same _ _ _ _ _ _ HA) as (_ & <- & _).
    split_and!; [by eapply counted_sessions|by left|done].
  - destruct (Hwrong _ Hu') as [err ?]. congruence.
Qed.

(** A locked account refuses every password, the right one too, and the
    attempt changes nothing in the storage. *)
Theorem login_locked email password callerIP userAgent w u until r w' :
  inv w → the_user email u (vw w) → User_LockedUntil u = Some until →
  login_allow e email callerIP w = Ok true → reliable = true →
  run (cryden_Login e email password callerIP userAgent) w = (r, w') →
  amb_time (w_amb w') < until → r = Err ErrAccountLocked ∧ vw w' = vw w.
Proof.
  intros Hi Hu HL Hal Hrel Hrun Hlt. destruct (Login_spec _ _ _ _ _ _ _ Hi Hrun) as (_ & _ & Hsp).
  destruct Hsp as [e' Ha|Ha|_ Hno _|u' lim now _ Hu'|u' e' v1 _ Hu' Hun
    |u' v1 r _ Hu' Hun]; try congruence; try done.
  - by destruct (the_user_no_user _ _ _ Hu Hrel Hno).
  - apply Hu in Hu' as ->. destruct (Hun _ HL) as (now & Hbt & ?). unfold between in Hbt. lia.
  - apply Hu in Hu' as ->. destruct (Hun _ HL) as (now & Hbt & ?). unfold between in Hbt. lia.
Qed.

(** *** Lockout *)

(** What one wrong password does to the user's record. *)
Definition failure_counted (u u' : User) w w' : Prop :=
  User_ID u' = User_ID u ∧ User_Email u' = User_Email u ∧
  User_PasswordHash u' = User_PasswordHash u ∧
  User_FailedAttempts u' = int64 (User_FailedAttempts u + 1) ∧
  (User_FailedAttempts u' < e_lockoutThreshold e → User_LockedUntil u' = User_LockedUntil u) ∧
  (e_lockoutThreshold e ≤ User_FailedAttempts u' → ∃ now until,
     between w now w' ∧ close (now + e_lockoutDuration e) until ∧
     User_LockedUntil u' = Some until).

Lemma user_updated_key uid u f v v' :
  key uid = Some uid → v_users v !! uid = Some u → user_updated uid f v v' →
  ∃ u', f u u' ∧ v' = with_users v (<[uid := u']> (v_users v)).
Proof. intros Hk Hu (k & x & u' & Hk' & Hx & Hf & ->). simplify_eq. eauto. Qed.

(** What is left of that when the storage failed at the counting or the locking. *)
Definition failure_missed (u u' : User) : Prop :=
  User_ID u' = User_ID u ∧ User_Email u' = User_Email u ∧
  User_PasswordHash u' = User_PasswordHash u ∧
  (u' = u ∨ User_FailedAttempts u' = int64 (User_FailedAttempts u + 1)).

Definition failure_noted (u u' : User) w w' : Prop :=
  failure_counted u u' w w' ∨ (reliable = false ∧ failure_missed u u').

Lemma counted_effect u callerIP w w' v v' :
  key (User_ID u) = Some (User_ID u) → v_users v !! User_ID u = Some u →
  counted_spec (User_ID u) callerIP (e_lockoutThreshold e) (e_lockoutDuration e) w w' v v' →
  ∃ u', failure_noted u u' w w' ∧ v_users v' = <[User_ID u := u']> (v_users v) ∧
    v_sessions v' = v_sessions v ∧ v_tokens v' = v_tokens v.
Proof.
  intros Hk Hu HC. unfold failure_noted, failure_missed.
  destruct HC as [Hr [->|[n HI]]|n HI Hn|n v1 t HI _ Hr HL|n v1 v2 now HI Hn Hbt HL HA].
  { exists u. rewrite insert_id by done. eauto 10. }
  all: eapply user_updated_key in HI as (u' & (Hn' & Hu') & Hv'); [|done..]; subst.
  - exists (set_FailedAttempts u (int64 (User_FailedAttempts u + 1))). simpl. eauto 10.
  - exists (set_FailedAttempts u (int64 (User_FailedAttempts u + 1))).
    split; [left|done]. unfold failure_counted; simpl. split_and!; try done. intros; lia.
  - destruct HL as [->|HL].
    { exists (set_FailedAttempts u (int64 (User_FailedAttempts u + 1))). simpl. eauto 10. }
    eapply user_updated_key in HL as (u'' & (t' & _ & Hu'') & Hv'');
      [|done|simpl; apply lookup_insert_eq]; subst.
    eexists. split; [|split; [apply insert_insert_eq|done]]. simpl. eauto 10.
  - eapply user_updated_key in HL as (u'' & (t & Ht & Hu'') & Hv'');
      [|done|simpl; apply lookup_insert_eq]; subst.
    destruct (audited_same _ _ _ _ _ _ HA) as (-> & -> & ->). simpl.
    eexists. split; [left|split; [apply insert_insert_eq|done]].
    unfold failure_counted; simpl. split_and!; try done; [intros; lia|]. intros _. eauto.
Qed.

Lemma login_wrong_noted email password callerIP userAgent w u err r w' :
  inv w → the_user email u (vw w) → not_locked u (amb_time (w_amb w)) →
  Hasher_Compare (e_hasher e) (User_PasswordHash u) password = Err err →
  login_allow e email callerIP w = Ok true →
  run (cryden_Login e email password callerIP userAgent) w = (r, w') →
  inv w' ∧ amb_le (w_amb w) (w_amb w') ∧ r = Err ErrInvalidCredentials ∧
  ∃ u', failure_noted u u' w w' ∧
    v_users (vw w') = <[User_ID u := u']> (v_users (vw w)) ∧
    v_sessions (vw w') = v_sessions (vw w) ∧ v_tokens (vw w') = v_tokens (vw w).
Proof.
  intros Hi Hu Hnl Hc Hal Hrun. destruct (Login_spec _ _ _ _ _ _ _ Hi Hrun) as (? & ? & Hsp).
  pose proof (the_user_found _ _ _ Hu) as Hf.
  destruct Hsp as [e' Ha|Ha|_ Hno HA|u' lim now _ Hu' HL Hbt Hlt|u' e' v1 _ Hu' _ _ HA HC
    |u' v1 r _ Hu' _ Hc']; try congruence.
  - split_and!; [done..|]. destruct (audited_same _ _ _ _ _ _ HA) as (-> & -> & ->).
    exists u. rewrite insert_id by done. split; [right|done].
    split; [|by split_and!; [..|left]]. destruct reliable eqn:Hrel; [|done].
    by destruct (the_user_no_user _ _ _ Hu Hrel Hno).
  - apply Hu in Hu' as ->. specialize (Hnl _ HL). unfold between in Hbt. lia.
  - apply Hu in Hu' as ->. split_and!; try done.
    destruct (audited_same _ _ _ _ _ _ HA) as (HU & HS & HT). rewrite <- HU, <- HS, <- HT.
    apply (counted_effect _ callerIP); [by apply (user_found_key w)|by rewrite HU|done].
  - apply Hu in Hu' as ->. congruence.
Qed.

Lemma login_wrong_effect email password callerIP userAgent w u err r w' :
  inv w → the_user email u (vw w) → not_locked u (amb_time (w_amb w)) →
  Hasher_Compare (e_hasher e) (User_PasswordHash u) password = Err err →
  login_allow e email callerIP w = Ok true → reliable = true →
  run (cryden_Login e email password callerIP userAgent) w = (r, w') →
  inv w' ∧ amb_le (w_amb w) (w_amb w') ∧ r = Err ErrInvalidCredentials ∧
  ∃ u', failure_counted u u' w w' ∧
    v_users (vw w') = <[User_ID u := u']> (v_users (vw w)).
Proof.
  intros Hi Hu Hnl Hc Hal Hrel Hrun.
  destruct (login_wrong_noted _ _ _ _ _ _ _ _ _ Hi Hu Hnl Hc Hal Hrun)
    as (? & ? & ? & u' & [?|[? _]] & ? & _); [|congruence].
  split_and!; [done..|]. by exists u'.
Qed.

Lemma the_user_updated email u u' v v' :
  the_user email u v → User_ID u' = User_ID u → User_Email u' = User_Email u →
  v_users v' = <[User_ID u := u']> (v_users v) → the_user email u' v'.
Proof.
  intros [[Hu He] Hun] HID HE HV. unfold the_user, user_by_email. rewrite HV, HID. split.
  - by rewrite lookup_insert_eq, HE.
  - intros x [Hx Hxe]. apply lookup_insert_Some in Hx as [[_ ->]|[Hne Hx]]; [done|].
    assert (x = u) as -> by (by apply Hun). done.
Qed.

(** C20: what a wrong password costs, for an attempt that the limiter allows on an
    account that is not locked and alone has its address. The answer is
    [ErrInvalidCredentials]; the counter of the account goes up by one (as a Go int),
    below the threshold the lock is left as it was, at or above it the account is
    locked for the lockout duration from the time of the attempt, up to the storage's
    rounding. Where the storage fails during the attempt, and only there, it may not
    be counted or not lead to the lock. In any case the account keeps its address and
    its hash and no session, verification token or other user changes. *)
Theorem login_wrong_password_counts email password callerIP userAgent w u err r w' :
  inv w → the_user email u (vw w) → not_locked u (amb_time (w_amb w)) →
  Hasher_Compare (e_hasher e) (User_PasswordHash u) password = Err err →
  login_allow e email callerIP w = Ok true →
  run (cryden_Login e email password callerIP userAgent) w = (r, w') →
  r = Err ErrInvalidCredentials ∧
  ∃ u', (failure_counted u u' w w' ∨ (reliable = false ∧ failure_missed u u')) ∧
    v_users (vw w') = <[User_ID u := u']> (v_users (vw w)) ∧
    v_sessions (vw w') = v_sessions (vw w) ∧ v_tokens (vw w') = v_tokens (vw w).
Proof.
  intros. by edestruct login_wrong_noted as (_ & _ & ? & ?).
Qed.

(** Logins one after the other. *)
Fixpoint logins (email callerIP userAgent : string) (pws : list string) w :
    list (result Tokens) * World S :=
  match pws with
  | [] => ([], w)
  | pw :: pws =>
      let '(r, w1) := run (cryden_Login e email pw callerIP userAgent) w in
      let '(rs, w2) := logins email callerIP userAgent pws w1 in
      (r :: rs, w2)
  end.

(** No attempt was stopped by the limiter. *)
Fixpoint logins_allowed (email callerIP userAgent : string) (pws : list string) w : Prop :=
  match pws with
  | [] => True
  | pw :: pws =>
      login_allow e email callerIP w = Ok true ∧
      logins_allowed email callerIP userAgent pws
        (run (cryden_Login e email pw callerIP userAgent) w).2
  end.

Lemma lockout_from email callerIP userAgent pws u w rs w' :
  inv w → the_user email u (vw w) → User_LockedUntil u = None →
  (∀ pw, pw ∈ pws → ∃ err, Hasher_Compare (e_hasher e) (User_PasswordHash u) pw = Err err) →
  logins_allowed email callerIP userAgent pws w → reliable = true →
  0 ≤ User_FailedAttempts u < e_lockoutThreshold e → e_lockoutThreshold e ≤ int64_max →
  User_FailedAttempts u + Z.of_nat (length pws) = e_lockoutThreshold e →
  logins email callerIP userAgent pws w = (rs, w') →
  (∀ r, r ∈ rs → r = Err ErrInvalidCredentials) ∧
  ∃ u' now until, the_user email u' (vw w') ∧ User_ID u' = User_ID u ∧ between w now w' ∧
    close (now + e_lockoutDuration e) until ∧ User_LockedUntil u' = Some until.
Proof.
  intros Hi Hu HL Hw Hal Hrel Hfa Hmax. revert u w rs Hi Hu HL Hw Hal Hfa.
  induction pws as [|pw pws IH]; intros u w rs Hi Hu HL Hw Hal Hfa Hlen Hrun;
    cbn [logins logins_allowed length] in *; [lia|].
  destruct Hal as [Hal Hals].
  destruct (run (cryden_Login e email pw callerIP userAgent) w) as [r w1] eqn:Er. destruct (logins _ _ _ pws w1) as [rs' w2] eqn:Els.
  injection Hrun as <- <-. destruct (Hw pw) as [err Herr]; [by left|].
  destruct (login_wrong_effect _ _ _ _ _ _ _ _ _ Hi Hu ltac:(by intros ? ?; simplify_eq) Herr Hal Hrel Er)
    as (Hi1 & Hle1 & -> & u1 & (HID & HEm & HPw & HFA & Hlo & Hhi) & HV).
  rewrite int64_small in HFA by (unfold int64_min; lia).
  assert (the_user email u1 (vw w1)) as Hu1 by by eapply the_user_updated.
  destruct pws as [|pw' pws].
  - simpl in Els. injection Els as <- <-. simpl in Hlen.
    destruct Hhi as (now & lim & ? & ? & ?); [lia|].
    split; [by intros r ->%list_elem_of_singleton|]. by exists u1, now, lim.
  - simpl length in Hlen. destruct (IH u1 w1 rs') as (Hrs & u' & now & lim & ? & ? & Hbt & ? & ?);
      try done.
    + rewrite Hlo by lia. done.
    + intros x Hx. rewrite HPw. apply Hw. by right.
    + lia.
    + simpl. lia.
    + split; [by intros r [->|?]%elem_of_cons; [|apply Hrs]|].
      exists u', now, lim. split_and!; try done; [congruence|].
      unfold between, amb_le in *. lia.
Qed.

(** Brute force locks the account: starting from a clean counter, as many
    consecutive wrong passwords as the threshold says leave the account locked
    for the lockout duration from one of the attempts on, whatever the passwords
    were, and every one of them was answered with [ErrInvalidCredentials]. *)
Theorem lockout_after_threshold email callerIP userAgent pws u w rs w' :
  inv w → the_user email u (vw w) → User_LockedUntil u = None → User_FailedAttempts u = 0 →
  (∀ pw, pw ∈ pws → ∃ err, Hasher_Compare (e_hasher e) (User_PasswordHash u) pw = Err err) →
  logins_allowed email callerIP userAgent pws w → reliable = true →
  0 < e_lockoutThreshold e ≤ int64_max →
  Z.of_nat (length pws) = e_lockoutThreshold e →
  logins email callerIP userAgent pws w = (rs, w') →
  (∀ r, r ∈ rs → r = Err ErrInvalidCredentials) ∧
  ∃ u' now until, the_user email u' (vw w') ∧ User_ID u' = User_ID u ∧ between w now w' ∧
    close (now + e_lockoutDuration e) until ∧ User_LockedUntil u' = Some until.
Proof. intros Hi Hu HL HF Hw Hal Hrel Ht Hlen. apply (lockout_from _ _ _ _ _ _ _ _ Hi Hu); auto; lia. Qed.

End login.

(** ** Instances *)

Section witnesses.
#[local] Existing Instances sample_env sample_bcrypt sample_jwt.
#[local] Existing Instances sample_bcrypt_laws sample_jwt_laws.

Lemma signed_alice : the_user alice alice_user (view (w_store w_signed)).
Proof.
  split; [by vm_compute|]. intros u [Hu _].
  by destruct (only_entry _ _ _ _ _ signed_users Hu).
Qed.

Lemma login_success_witness : ∃ u toks,
  (run (cryden_Login sample_engine alice "hunter2" home "curl") w_signed).1 = Ok toks ∧
  user_by_email alice u (view (w_store w_signed)).
Proof.
  destruct login_raw1 as [tok Htok].
  destruct (run (cryden_Login sample_engine alice "hunter2" home "curl") w_signed) as [r w'] eqn:E.
  simpl in Htok. subst r.
  destruct (login_success (S:=MemHeap) sample_engine alice "hunter2" home "curl" w_signed
    (mkTokens tok raw1) w') as (_ & u & _ & _ & _ & _ & Hu & _).
  - fixture_inv.
  - intros k u [-> _]%(only_entry _ _ _ _ _ signed_users). reflexivity.
  - exact E.
  - exists u, (mkTokens tok raw1). split; [reflexivity|exact Hu].
Defined.

Lemma login_right_password_witness :
  is_ok (run (cryden_Login sample_engine alice "hunter2" home "curl") w_signed).1 = true.
Proof.
  refine (login_right_password (S:=MemHeap) sample_engine alice "hunter2" home "curl" w_signed
    alice_user _ _ _ signed_alice _ _ _ _ _ _ (surjective_pairing _)).
  - fixture_inv.
  - intros lim Hu. discriminate Hu.
  - reflexivity.
  - vm_compute. reflexivity.
  - reflexivity.
  - intros a. reflexivity.
  - intros a. reflexivity.
Defined.

(** A wrong password and an unknown address. *)
Lemma login_no_enumeration_witness :
  (run (cryden_Login sample_engine alice "guess" home "curl") w_signed).1 =
    Err ErrInvalidCredentials ∧
  (run (cryden_Login sample_engine "bob@example.com" "guess" home "curl") w_signed).1 =
    Err ErrInvalidCredentials.
Proof.
  split.
  - refine (proj2 (proj2 (login_no_enumeration (S:=MemHeap) sample_engine alice "guess" home "curl"
      w_signed _ _ _ _ _ (surjective_pairing _))) _).
    + fixture_inv.
    + vm_compute. reflexivity.
    + intros u Hu. apply signed_alice in Hu as ->. eexists. reflexivity.
    + intros u Hu. apply signed_alice in Hu as ->. intros lim Hu. discriminate Hu.
  - refine (proj2 (proj2 (login_no_enumeration (S:=MemHeap) sample_engine "bob@example.com" "guess"
      home "curl" w_signed _ _ _ _ _ (surjective_pairing _))) _).
    + fixture_inv.
    + vm_compute. reflexivity.
    + intros u [Hu He]. destruct (only_entry _ _ _ _ _ signed_users Hu) as [_ ->]. discriminate He.
    + intros u [Hu He]. destruct (only_entry _ _ _ _ _ signed_users Hu) as [_ ->]. discriminate He.
Defined.

Lemma login_wrong_password_counts_witness : ∃ u',
  failure_counted sample_engine alice_user u' w_signed
    (run (cryden_Login sample_engine alice "guess" home "curl") w_signed).2.
Proof.
  destruct (login_wrong_password_counts (S:=MemHeap) sample_engine alice "guess" home "curl"
    w_signed alice_user (ErrExternal "mismatch")
    (run (cryden_Login sample_engine alice "guess" home "curl") w_signed).1
    (run (cryden_Login sample_engine alice "guess" home "curl") w_signed).2)
    as (_ & u' & [Hu'|[Hr _]] & _).
  - fixture_inv.
  - exact signed_alice.
  - intros lim Hu. discriminate Hu.
  - reflexivity.
  - vm_compute. reflexivity.
  - apply surjective_pairing.
  - exists u'. exact Hu'.
  - discriminate Hr.
Defined.

Definition guesses : list string := ["a"; "b"; "c"; "d"; "e"].

(** Alice's account after five wrong passwords. *)
Definition w_locked : World MemHeap :=
  (logins sample_engine alice home "curl" guesses w_signed).2.

Lemma lockout_after_threshold_witness : ∃ u' until,
  the_user alice u' (view (w_store w_locked)) ∧ User_LockedUntil u' = Some until.
Proof.
  destruct (lockout_after_threshold (S:=MemHeap) sample_engine alice home "curl" guesses
    alice_user w_signed (logins sample_engine alice home "curl" guesses w_signed).1 w_locked)
    as (_ & u' & now & until & Hu' & _ & _ & _ & HL).
  - fixture_inv.
  - exact signed_alice.
  - reflexivity.
  - reflexivity.
  - intros pw Hpw. exists (ErrExternal "mismatch").
    unfold guesses in Hpw. rewrite !elem_of_cons, elem_of_nil in Hpw.
    destruct Hpw as [->|[->|[->|[->|[->|[]]]]]]; reflexivity.
  - vm_compute. tauto.
  - reflexivity.
  - split; [reflexivity|discriminate].
  - reflexivity.
  - apply surjective_pairing.
  - exists u', until. split; [exact Hu'|exact HL].
Defined.

Definition locked_user : User := Eval vm_compute in
  default alice_user (mem_users (w_store w_locked) !! alice_id).

Lemma login_locked_witness :
  (run (cryden_Login sample_engine alice "hunter2" home "curl") w_locked).1 =
    Err ErrAccountLocked.
Proof.
  assert (map_to_list (v_users (mem_view (w_store w_locked))) = [(alice_id, locked_user)]) as HM
    by (vm_compute; reflexivity).
  refine (proj1 (login_locked (S:=MemHeap) sample_engine alice "hunter2" home "curl" w_locked
    locked_user (default 0 (User_LockedUntil locked_user)) _ _ _ _ _ _ _
    (surjective_pairing _) _)).
  - fixture_inv.
  - split; [vm_compute; split; reflexivity|]. intros u [Hu _]. by destruct (only_entry _ _ _ _ _ HM Hu).
  - reflexivity.
  - vm_compute. reflexivity.
  - reflexivity.
  - vm_compute. reflexivity.
Defined.

End witnesses.
