(* ===== verification/AccountTheorems.v ===== *)
(** * Accounts (auth/signup.go, auth/password.go, auth/account.go)

    Sign-up creates one account per address and its credentials log in; changing
    the password or deleting the account needs the current password, ends the
    user's sessions and leaves everybody else alone. *)
From S2P Require Import Prelude Errors Runtime Store StoreSpec SessionMachine Logger RateLimiter.
From S2P Require Import World Memory MemoryContract Security Token Logic Auth Engine AuthLogic.
From S2P Require Import Postgres PostgresContract LoginLogic Sample Fixtures.
From S2P Require Import PgFixtures TokenTheorems LoginTheorems.

(** The limiter's answer to a sign-up. *)
Definition signup_allow {S} (e : Engine S) (callerIP : string) (w : World S) : result bool :=
  (RateLimiter_Allow (e_rateLimiter e) ("signup:" +:+ callerIP) (w_limiter w, w_amb w)).1.

Section accounts.
Context `{Env, JWT, !JWTLaws} {S : Type} `{StoreModel S, !StoreLaws}.
Context (e : Engine S) `{!EngineLaws e}.

Implicit Types (w : World S).

Lemma SignUp_spec email password callerIP w r w' :
  inv w → run (cryden_SignUp e email password callerIP) w = (r, w') →
  inv w' ∧ amb_le (w_amb w) (w_amb w') ∧
  signup_spec (e_hasher e) (e_ids e) (signup_allow e callerIP w) email password callerIP
    (vw w) (vw w') r.
Proof.
  intros Hi Hrun. pose proof (wp_elim _ _ _ _ _ Hrun (wp_SignUp (e_users e) (e_audit e)
    (e_hasher e) (e_log e) (e_ids e) (e_rateLimiter e) email password callerIP w Hi))
    as (? & (_ & _ & ?) & ?). done.
Qed.

Lemma hashes_compare password hash :
  hashes (e_hasher e) password (Ok hash) → Hasher_Compare (e_hasher e) hash password = Ok ().
Proof. intros (a & a' & Hh). by eapply hasher_compare_hash. Qed.

(** ** SignUp *)

(** C34: a sign-up that succeeds was allowed by the limiter, found no account with
    that address, and adds exactly one user, not locked and with no failed
    attempts, whose stored hash matches the password; the event is recorded. *)
Theorem signup_creates_account email password callerIP w u w' :
  inv w → run (cryden_SignUp e email password callerIP) w = (Ok u, w') →
  signup_allow e callerIP w = Ok true ∧ no_user email (vw w) ∧
  ∃ id hash v1, u = new_User id email hash ∧
    Hasher_Compare (e_hasher e) hash password = Ok () ∧
    user_created id email hash (vw w) v1 ∧
    audited EventSignupSuccess id callerIP None v1 (vw w').
Proof.
  intros Hi Hrun. destruct (SignUp_spec _ _ _ _ _ _ Hi Hrun) as (_ & _ & Hsp).
  inversion Hsp as [| | | | | |id hash v1 ? ? ? ?]; subst. split_and!; try done.
  exists id, hash, v1. split_and!; try done. by apply hashes_compare.
Qed.

(** A second sign-up with the address of an account is refused with
    [ErrUserExists] and changes nothing. *)
Theorem signup_duplicate_refused email password callerIP w u r w' :
  inv w → user_by_email email u (vw w) → signup_allow e callerIP w = Ok true →
  reliable = true → run (cryden_SignUp e email password callerIP) w = (r, w') →
  r = Err ErrUserExists ∧ vw w' = vw w.
Proof.
  intros Hi [Hu He] Hal Hrel Hrun. destruct (SignUp_spec _ _ _ _ _ _ Hi Hrun) as (_ & _ & Hsp).
  destruct Hsp as [| | |e' _ Hno|e' _ Hno|id hash e' _ Hno|id hash v1 _ Hno]; try congruence;
    try done; by edestruct Hno.
Qed.

Lemma user_created_the_user id email hash v v1 :
  reliable = true → no_user email v → user_created id email hash v v1 →
  ∃ u, the_user email u v1 ∧ User_PasswordHash u = hash ∧ User_LockedUntil u = None.
Proof.
  intros Hrel Hno (k & t & t' & _ & _ & ->). exists (mkUser k email hash 0 None t t').
  split_and!; try done. split; [by split; [apply lookup_insert_eq|]|].
  intros u [Hu He]. simpl in Hu. apply lookup_insert_Some in Hu as [[_ <-]|[_ Hu]]; [done|].
  by edestruct Hno.
Qed.

Lemma the_user_audited ty user ip meta email u v v' :
  audited ty user ip meta v v' → the_user email u v → the_user email u v'.
Proof.
  intros HA. destruct (audited_same _ _ _ _ _ _ HA) as (HU & _ & _).
  unfold the_user, user_by_email. by rewrite HU.
Qed.

(** C35: sign-up and login fit together. Over a storage without faults, with ID and
    token generators that do not fail: after a sign-up that succeeded, a login with
    the same address and password gets tokens, from any address and with any user
    agent, if the limiter allows it. *)
Theorem signup_then_login email password callerIP w u w1 callerIP' userAgent r w2 :
  inv w → reliable = true → id_total (e_ids e) → token_total (e_refreshGen e) →
  run (cryden_SignUp e email password callerIP) w = (Ok u, w1) →
  login_allow e email callerIP' w1 = Ok true →
  run (cryden_Login e email password callerIP' userAgent) w1 = (r, w2) → is_ok r = true.
Proof.
  intros Hi Hrel Hid Hgen Hup Hal Hin. destruct (SignUp_spec _ _ _ _ _ _ Hi Hup) as (Hi1 & _ & Hsp).
  inversion Hsp as [| | | | | |id hash v1 _ Hno Hh Hcr HA]; subst.
  destruct (user_created_the_user _ _ _ _ _ Hrel Hno Hcr) as (u & Hu & Hpw & HL).
  eapply (login_right_ok e email password callerIP' userAgent w1 u); try done.
  - by eapply the_user_audited.
  - intros lim Hlim. congruence.
  - rewrite Hpw. by apply hashes_compare.
Qed.

(** ** ChangePassword *)

Lemma ChangePassword_spec userID current new w r w' :
  inv w → run (cryden_ChangePassword e userID current new) w = (r, w') →
  inv w' ∧ amb_le (w_amb w) (w_amb w') ∧
  change_password_spec (e_hasher e) userID current new (vw w) (vw w') r.
Proof.
  intros Hi Hrun. pose proof (wp_elim _ _ _ _ _ Hrun (wp_ChangePassword (e_users e)
    (e_sessions e) (e_audit e) (e_hasher e) (e_log e) userID current new w Hi))
    as (? & (_ & _ & ?) & ?). done.
Qed.

Lemma user_by_id_eq id u u' v : user_by_id id u v → user_by_id id u' v → u' = u.
Proof. intros [? ?] [? ?]. congruence. Qed.

(** The sessions of [uid] are revoked, the others as they were. *)
Definition sessions_ended (uid : string) (m m' : gmap string Session) : Prop :=
  (∀ k s, m' !! k = Some s → Session_UserID s = uid → ¬ live s) ∧
  (∀ k s, m !! k = Some s → Session_UserID s ≠ uid → m' !! k = Some s).

Lemma revoke_where_ended uid t m :
  sessions_ended uid m (revoke_where (λ s, Session_UserID s = uid) t <$> m).
Proof.
  split; intros k s.
  - rewrite lookup_fmap_Some. intros (x & <- & Hx) Hu. apply revoke_where_kills.
    by destruct (later_revoke_where (λ s, Session_UserID s = uid) t x) as [(_ & _ & <- & _) _].
  - intros Hk Hu. rewrite lookup_fmap, Hk. simpl. unfold revoke_where.
    case_decide; [naive_solver|done].
Qed.

Lemma user_sessions_revoked_ended id uid v v' :
  key id = Some uid → user_sessions_revoked id v v' →
  sessions_ended uid (v_sessions v) (v_sessions v').
Proof. intros Hk (ku & t & Hku & ->). simplify_eq. apply revoke_where_ended. Qed.

(** C26: a password change that succeeds had the current password right; the stored
    hash now matches the new password and is all that changed in the user's
    record. Either every session of the user is revoked and no session of anybody
    else is, or the storage failed to revoke them, which is not answered as an error:
    then the sessions are as before, the engine has logged "change password: session
    revocation failed" for the user, and this happens over a storage with faults
    only. *)
Theorem change_password_success userID current new w w' :
  inv w → run (cryden_ChangePassword e userID current new) w = (Ok (), w') →
  ∃ u hash t, user_by_id userID u (vw w) ∧
    Hasher_Compare (e_hasher e) (User_PasswordHash u) current = Ok () ∧
    Hasher_Compare (e_hasher e) hash new = Ok () ∧
    v_users (vw w') = <[User_ID u := set_PasswordHash u hash t]> (v_users (vw w)) ∧
    (sessions_ended (User_ID u) (v_sessions (vw w)) (v_sessions (vw w')) ∨
     (reliable = false ∧ v_sessions (vw w') = v_sessions (vw w) ∧
      ∃ err, logged (revocation_failure userID err) w w')).
Proof.
  intros Hi Hrun. destruct (ChangePassword_spec _ _ _ _ _ _ Hi Hrun) as (_ & _ & Hsp).
  pose proof (wp_elim _ _ _ _ _ Hrun (wp_ChangePassword_revokes (e_users e) (e_sessions e)
    (e_audit e) (e_hasher e) (e_log e) userID current new w Hi) eq_refl) as Hlog.
  inversion Hsp as [| | | |u hash v1 v2 Hu Hc Hh HU HR HA]; subst.
  destruct HU as (k & u1 & u2 & Hk & Hu1 & [t ->] & ->).
  destruct (audited_same _ _ _ _ _ _ HA) as (Hus & Hss & _).
  destruct Hu as [Hkey Hu]. simplify_eq. exists u, hash, t. split_and!; try done.
  - by apply hashes_compare.
  - by rewrite Hus, (maybe_sessions_users _ _ _ HR).
  - destruct Hlog as [(ku & t' & Hku & ->)|Hlog].
    + left. simplify_eq. apply revoke_where_ended.
    + rewrite Hss. destruct HR as [HR|[? ->]]; [left|by right].
      by apply (user_sessions_revoked_ended _ _ _ _ Hkey) in HR.
Qed.

(** Without the current password nothing changes: [ChangePassword] fails,
    with [ErrInvalidCredentials] when the storage has no faults, and the storage
    is as before. *)
Theorem change_password_needs_password userID current new w u err r w' :
  inv w → user_by_id userID u (vw w) →
  Hasher_Compare (e_hasher e) (User_PasswordHash u) current = Err err →
  run (cryden_ChangePassword e userID current new) w = (r, w') →
  is_ok r = false ∧ vw w' = vw w ∧ (reliable = true → r = Err ErrInvalidCredentials).
Proof.
  intros Hi Hu Hc Hrun. destruct (ChangePassword_spec _ _ _ _ _ _ Hi Hrun) as (_ & _ & Hsp).
  destruct Hsp as [e' (_ & Hnf & Hrel)|u' e' Hu' _|u' e' Hu' Hc'|u' hash e' Hu' Hc'
    |u' hash v1 v2 Hu' Hc']; try done;
    try (pose proof (user_by_id_eq _ _ _ _ Hu Hu') as ->; congruence).
  split_and!; try done. intros Hr. destruct (Hnf (Hrel Hr)). by eapply user_by_id_exists.
Qed.

(** ** DeleteAccount *)

Lemma DeleteAccount_spec userID current w r w' :
  inv w → run (cryden_DeleteAccount e userID current) w = (r, w') →
  inv w' ∧ amb_le (w_amb w) (w_amb w') ∧
  delete_account_spec (e_hasher e) userID current (vw w) (vw w') r.
Proof.
  intros Hi Hrun. pose proof (wp_elim _ _ _ _ _ Hrun (wp_DeleteAccount (e_users e)
    (e_sessions e) (e_audit e) (e_hasher e) (e_log e) userID current w Hi))
    as (? & (_ & _ & ?) & ?). done.
Qed.

(** C27: a deletion that succeeds had the current password right; the user is gone
    and nobody else is; no session of the user is live any more, where the
    storage has no faults or deletes with the user what refers to it. *)
Theorem delete_account_success userID current w w' :
  inv w → run (cryden_DeleteAccount e userID current) w = (Ok (), w') →
  ∃ u, user_by_id userID u (vw w) ∧
    Hasher_Compare (e_hasher e) (User_PasswordHash u) current = Ok () ∧
    v_users (vw w') = delete (User_ID u) (v_users (vw w)) ∧
    (reliable = true ∨ strict = true →
       sessions_ended (User_ID u) (v_sessions (vw w)) (v_sessions (vw w'))).
Proof.
  intros Hi Hrun. destruct (DeleteAccount_spec _ _ _ _ _ Hi Hrun) as (_ & _ & Hsp).
  inversion Hsp as [| | |u v1 v2 Hu Hc HR HA HD]; subst. exists u.
  destruct Hu as [Hkey Hu]. destruct HD as (k & Hk & _ & ->). simplify_eq.
  destruct (audited_same _ _ _ _ _ _ HA) as (HU & HS & _).
  split_and!; try done.
  - simpl. rewrite HU. by rewrite (maybe_sessions_users _ _ _ HR).
  - intros Hrs.
    assert (sessions_ended (User_ID u) (v_sessions (vw w)) (v_sessions v1) ∨
      strict = true ∧ v_sessions v1 = v_sessions (vw w)) as HE.
    { destruct HR as [HR|[? ->]]; [left|right; split; [|done]].
      - by apply (user_sessions_revoked_ended _ _ _ _ Hkey) in HR.
      - destruct Hrs; congruence. }
    simpl. destruct strict; simpl; rewrite HS.
    + split; intros k s.
      * intros [_ ?]%map_lookup_filter_Some. simpl in *. congruence.
      * intros Hks Hne. apply map_lookup_filter_Some. split; [|done].
        destruct HE as [[_ HE]|[_ ->]]; auto.
    + by destruct HE as [?|[? _]].
Qed.

(** Without the current password nothing is deleted. *)
Theorem delete_account_needs_password userID current w u err r w' :
  inv w → user_by_id userID u (vw w) →
  Hasher_Compare (e_hasher e) (User_PasswordHash u) current = Err err →
  run (cryden_DeleteAccount e userID current) w = (r, w') →
  is_ok r = false ∧ vw w' = vw w ∧ (reliable = true → r = Err ErrInvalidCredentials).
Proof.
  intros Hi Hu Hc Hrun. destruct (DeleteAccount_spec _ _ _ _ _ Hi Hrun) as (_ & _ & Hsp).
  destruct Hsp as [e' (_ & Hnf & Hrel)|u' e' Hu' _|u' v1 v2 e' Hu' Hc'|u' v1 v2 Hu' Hc'];
    try done; try (pose proof (user_by_id_eq _ _ _ _ Hu Hu') as ->; congruence).
  split_and!; try done. intros Hr. destruct (Hnf (Hrel Hr)). by eapply user_by_id_exists.
Qed.

(** C28: the current password is required: without it [ChangePassword] and
    [DeleteAccount] fail, with [ErrInvalidCredentials] when the storage has no
    faults, and the storage is as before. *)
Theorem current_password_required userID current w u err :
  inv w → user_by_id userID u (vw w) →
  Hasher_Compare (e_hasher e) (User_PasswordHash u) current = Err err →
  (∀ new r w', run (cryden_ChangePassword e userID current new) w = (r, w') →
     is_ok r = false ∧ vw w' = vw w ∧ (reliable = true → r = Err ErrInvalidCredentials)) ∧
  (∀ r w', run (cryden_DeleteAccount e userID current) w = (r, w') →
     is_ok r = false ∧ vw w' = vw w ∧ (reliable = true → r = Err ErrInvalidCredentials)).
Proof.
  intros Hi Hu Hc.
  split; intros; [by eapply change_password_needs_password|by eapply delete_account_needs_password].
Qed.

(** The event that a deletion leaves behind does not say whose account it
    was, where the storage applies the schema's foreign keys: the reference to
    the user is cleared when the user goes, although the event is recorded
    before. *)
Theorem delete_account_event_loses_user userID current w w' :
  inv w → strict = true →
  run (cryden_DeleteAccount e userID current) w = (Ok (), w') →
  ∀ u ev, user_by_id userID u (vw w) → ev ∈ v_events (vw w') →
    User_ID u ≠ EmptyString → AuditEvent_UserID ev ≠ User_ID u.
Proof.
  intros Hi Hst Hrun u ev Hu Hev Hnu.
  destruct (DeleteAccount_spec _ _ _ _ _ Hi Hrun) as (_ & _ & Hsp).
  inversion Hsp as [| | |u' v1 v2 Hu' Hc HR HA HD]; subst.
  pose proof (user_by_id_eq _ _ _ _ Hu Hu') as ->.
  destruct Hu as [Hkey Hu]. destruct HD as (k & Hk & _ & Hv). simplify_eq.
  rewrite Hv, Hst in Hev. simpl in Hev. apply list_elem_of_fmap in Hev as (x & -> & _).
  unfold clear_user. case_bool_decide; simpl; congruence.
Qed.

End accounts.

(** ** Instances *)

Section witnesses.
#[local] Existing Instances sample_env sample_bcrypt sample_jwt.
#[local] Existing Instances sample_bcrypt_laws sample_jwt_laws.

Definition alice_signup := cryden_SignUp sample_engine alice "hunter2" home.

Lemma signup_creates_account_witness : ∃ hash,
  (run alice_signup mem_world0).1 = Ok (new_User alice_id alice hash) ∧
  Hasher_Compare (e_hasher sample_engine) hash "hunter2" = Ok ().
Proof.
  destruct (signup_creates_account (S:=MemHeap) sample_engine alice "hunter2" home mem_world0
    (new_User alice_id alice "$2a$hunter2") (run alice_signup mem_world0).2)
    as (_ & _ & id & hash & v1 & Hu & Hh & _).
  - fixture_inv.
  - vm_compute. reflexivity.
  - exists hash. split; [|exact Hh]. injection Hu as _ <-. vm_compute. reflexivity.
Defined.

Lemma signup_duplicate_refused_witness :
  (run (cryden_SignUp sample_engine alice "other" home) w_signed).1 = Err ErrUserExists.
Proof.
  refine (proj1 (signup_duplicate_refused (S:=MemHeap) sample_engine alice "other" home w_signed
    alice_user _ _ _ _ _ _ (surjective_pairing _))).
  - fixture_inv.
  - exact (proj1 signed_alice).
  - vm_compute. reflexivity.
  - reflexivity.
Defined.

Lemma signup_then_login_witness :
  is_ok (run (cryden_Login sample_engine alice "hunter2" "198.51.100.1" "phone") w_signed).1 = true.
Proof.
  refine (signup_then_login (S:=MemHeap) sample_engine alice "hunter2" home mem_world0
    (new_User alice_id alice "$2a$hunter2") w_signed "198.51.100.1" "phone" _ _ _ _ _ _ _ _
    (surjective_pairing _)).
  - fixture_inv.
  - reflexivity.
  - intros a. reflexivity.
  - intros a. reflexivity.
  - vm_compute. reflexivity.
  - vm_compute. reflexivity.
Defined.

Definition alice_change (current : string) :=
  cryden_ChangePassword sample_engine alice_id current "correct horse".

Lemma change_password_success_witness : ∃ hash,
  Hasher_Compare (e_hasher sample_engine) hash "correct horse" = Ok () ∧
  ∃ t, v_users (view (w_store (run (alice_change "hunter2") w_login).2)) !! alice_id =
    Some (set_PasswordHash (default alice_user (mem_users (w_store w_login) !! alice_id)) hash t).
Proof.
  destruct (change_password_success (S:=MemHeap) sample_engine alice_id "hunter2" "correct horse"
    w_login (run (alice_change "hunter2") w_login).2) as (u & hash & t & Hu & _ & Hh & HV & _).
  - fixture_inv.
  - vm_compute. reflexivity.
  - exists hash. split; [exact Hh|]. exists t. rewrite HV. destruct Hu as [[= <-] Hu].
    rewrite lookup_insert_eq. simpl in Hu. rewrite Hu. reflexivity.
Defined.

Lemma change_password_needs_password_witness :
  (run (alice_change "guess") w_signed).1 = Err ErrInvalidCredentials.
Proof.
  refine (proj2 (proj2 (change_password_needs_password (S:=MemHeap) sample_engine alice_id "guess"
    "correct horse" w_signed alice_user (ErrExternal "mismatch") _ _ _ _ _
    (surjective_pairing _))) _).
  - fixture_inv.
  - split; [reflexivity|]. vm_compute. reflexivity.
  - reflexivity.
  - reflexivity.
Defined.

Lemma delete_account_success_witness : ∃ u,
  v_users (view (w_store (run (cryden_DeleteAccount sample_engine alice_id "hunter2") w_login).2)) =
    delete (User_ID u) (v_users (view (w_store w_login))) ∧ User_ID u = alice_id.
Proof.
  destruct (delete_account_success (S:=MemHeap) sample_engine alice_id "hunter2" w_login
    (run (cryden_DeleteAccount sample_engine alice_id "hunter2") w_login).2)
    as (u & [Hk _] & _ & HV & _).
  - fixture_inv.
  - vm_compute. reflexivity.
  - exists u. split; [exact HV|]. by injection Hk as <-.
Defined.

Lemma current_password_required_witness :
  (run (alice_change "guess") w_signed).1 = Err ErrInvalidCredentials ∧
  (run (cryden_DeleteAccount sample_engine alice_id "guess") w_signed).1 =
    Err ErrInvalidCredentials.
Proof.
  destruct (current_password_required (S:=MemHeap) sample_engine alice_id "guess" w_signed
    alice_user (ErrExternal "mismatch")) as [HC HD].
  - fixture_inv.
  - split; [reflexivity|]. vm_compute. reflexivity.
  - reflexivity.
  - split.
    + apply (HC "correct horse" _ _ (surjective_pairing _)). reflexivity.
    + apply (HD _ _ (surjective_pairing _)). reflexivity.
Defined.

Lemma delete_account_needs_password_witness :
  (run (cryden_DeleteAccount sample_engine alice_id "guess") w_signed).1 =
    Err ErrInvalidCredentials.
Proof.
  refine (proj2 (proj2 (delete_account_needs_password (S:=MemHeap) sample_engine alice_id "guess"
    w_signed alice_user (ErrExternal "mismatch") _ _ _ _ _ (surjective_pairing _))) _).
  - fixture_inv.
  - split; [reflexivity|]. vm_compute. reflexivity.
  - reflexivity.
  - reflexivity.
Defined.

#[local] Existing Instances sample_pg sample_pg_laws.

Definition alice_pg : User :=
  mkUser alice_id alice "$2a$hunter2" 0 None (4 * Second) (4 * Second).

Lemma delete_account_event_loses_user_witness :
  Forall (λ ev, AuditEvent_UserID ev ≠ alice_id)
    (v_events (vw (run (cryden_DeleteAccount pg_engine alice_id "hunter2") pg_login).2)).
Proof.
  apply Forall_forall. intros ev Hev.
  apply (delete_account_event_loses_user (S:=PgHeap) pg_engine alice_id "hunter2" pg_login
    (run (cryden_DeleteAccount pg_engine alice_id "hunter2") pg_login).2)
    with (u := alice_pg); [..|exact Hev|done].
  - apply pg_inv_b_sound. vm_compute. reflexivity.
  - reflexivity.
  - vm_compute. reflexivity.
  - vm_compute. done.
Defined.

End witnesses.
