(* ===== verification/SessionTheorems.v ===== *)
(** * Ending and listing sessions (auth/logout.go, session/session.go)

    Only the owner ends a session; ending one ends exactly that one, ending all
    ends exactly the user's; the listing shows exactly the live ones. *)
From S2P Require Import Prelude Errors Runtime Store StoreSpec SessionMachine Logger RateLimiter.
From S2P Require Import World Memory MemoryContract Security Token Logic Auth Session Engine.
From S2P Require Import AuthLogic LoginLogic Sample Fixtures TokenTheorems AccountTheorems.
From S2P Require Import RefreshTheorems.

Section sessions.
Context {S : Type} `{StoreModel S, !StoreLaws} (e : Engine S) `{!EngineLaws e}.

Implicit Types (w : World S).

(** Both ways to end one session: [Logout] and [RevokeSession]. *)
Inductive ending : Type := ByLogout | ByRevoke.

Definition end_session (how : ending) (sessionID userID : string) : Prog (World S) (result ()) :=
  match how with
  | ByLogout => cryden_Logout e sessionID userID
  | ByRevoke => cryden_RevokeSession e sessionID userID
  end.

Definition end_event (how : ending) : string :=
  match how with ByLogout => EventLogout | ByRevoke => EventSessionRevoked end.
Definition end_meta (how : ending) (sessionID : string) : option (gmap string string) :=
  match how with ByLogout => None | ByRevoke => Some {["session_id" := sessionID]} end.

Lemma end_session_spec how sessionID userID w r w' :
  inv w → run (end_session how sessionID userID) w = (r, w') →
  inv w' ∧ close_spec (end_event how) (end_meta how sessionID) sessionID userID (vw w) (vw w') r.
Proof.
  intros Hi Hrun. destruct how; simpl in *.
  - by pose proof (wp_elim _ _ _ _ _ Hrun (wp_Logout (e_sessions e) (e_audit e) (e_log e)
      sessionID userID w Hi)) as (? & _ & ?).
  - by pose proof (wp_elim _ _ _ _ _ Hrun (wp_Revoke (e_sessions e) (e_audit e) (e_log e)
      sessionID userID w Hi)) as (? & _ & ?).
Qed.

(** Nobody ends a session of somebody else. *)
Lemma end_session_foreign how sessionID userID w s r w' :
  inv w → key sessionID = Some (Session_ID s) → v_sessions (vw w) !! Session_ID s = Some s →
  Session_UserID s ≠ userID → run (end_session how sessionID userID) w = (r, w') →
  is_ok r = false ∧ vw w' = vw w ∧ (reliable = true → r = Err ErrSessionNotOwned).
Proof.
  intros Hi Hk Hs Hu Hrun. destruct (end_session_spec _ _ _ _ _ _ Hi Hrun) as (_ & Hsp).
  destruct Hsp as [e' _ Hv Hno|s' Hk' Hs'|s' e' Hk' Hs' Hu'|s' v1 Hk' Hs' Hu'];
    [|done|exfalso; congruence..].
  split_and!; try done. intros Hrel. specialize (Hno Hrel _ Hk). congruence.
Qed.

(** The owner ends exactly that session. *)
Lemma end_session_own how sessionID w s r w' :
  inv w → key sessionID = Some (Session_ID s) → v_sessions (vw w) !! Session_ID s = Some s →
  live s → run (end_session how sessionID (Session_UserID s)) w = (r, w') →
  (reliable = true → r = Ok ()) ∧
  (r = Ok () → ∃ t v1,
     v1 = with_sessions (vw w) (<[Session_ID s := set_RevokedAt s (Some t)]> (v_sessions (vw w))) ∧
     audited (end_event how) (Session_UserID s) EmptyString (end_meta how sessionID) v1 (vw w')).
Proof.
  intros Hi Hk Hs Hl Hrun. destruct (end_session_spec _ _ _ _ _ _ Hi Hrun) as (_ & Hsp).
  destruct Hsp as [e' _ Hv Hno|s' Hk' Hs' Hu'|s' e' Hk' Hs' Hu' [_ HF]|s' v1 Hk' Hs' Hu' HR HA].
  - split; [|done]. intros Hrel. specialize (Hno Hrel _ Hk). congruence.
  - exfalso. congruence.
  - split; [|done]. intros Hrel. destruct HF as [(_ & Hnp & _)|[? _]]; [|congruence].
    destruct Hnp. by exists (Session_ID s), s.
  - split; [done|]. intros _. destruct HR as (k & x & t & Hkx & Hx & _ & ->).
    assert (s' = s) as -> by congruence. assert (k = Session_ID s) as -> by congruence.
    assert (x = s) as -> by congruence. eauto.
Qed.

(** C25: [Logout] and [RevokeSession] are for the owner and end exactly one session.
    With the ID of another user's session they fail, with [ErrSessionNotOwned] when
    the storage has no faults, and change nothing. The owner's request, on success,
    revokes that session, leaves every other session, user and token as before and
    records the event; with a storage without faults it does succeed on a live
    session. *)
Theorem session_end_exact how sessionID userID w s r w' :
  inv w → key sessionID = Some (Session_ID s) → v_sessions (vw w) !! Session_ID s = Some s →
  run (end_session how sessionID userID) w = (r, w') →
  (Session_UserID s ≠ userID →
     is_ok r = false ∧ vw w' = vw w ∧ (reliable = true → r = Err ErrSessionNotOwned)) ∧
  (Session_UserID s = userID → live s →
     (reliable = true → r = Ok ()) ∧
     (r = Ok () → ∃ t v1,
        v1 = with_sessions (vw w) (<[Session_ID s := set_RevokedAt s (Some t)]> (v_sessions (vw w))) ∧
        audited (end_event how) userID EmptyString (end_meta how sessionID) v1 (vw w'))).
Proof.
  intros Hi Hk Hs Hrun. split; [intros Hu; by eapply end_session_foreign|].
  intros <- Hl. by eapply end_session_own.
Qed.

(** C24: [LogoutAll] that succeeds leaves no live session of the user and touches
    no session of anybody else; a storage without faults makes it succeed. *)
Theorem logout_all_exact userID uid w r w' :
  inv w → key userID = Some uid → run (cryden_LogoutAll e userID) w = (r, w') →
  (reliable = true → r = Ok ()) ∧
  (r = Ok () → sessions_ended uid (v_sessions (vw w)) (v_sessions (vw w')) ∧
     v_users (vw w') = v_users (vw w)).
Proof.
  intros Hi Hk Hrun. pose proof (wp_elim _ _ _ _ _ Hrun (wp_LogoutAll (e_sessions e) (e_audit e)
    (e_log e) userID w Hi)) as (_ & _ & Hsp).
  destruct Hsp as [e' [_ HF]|v1 HR HA].
  - split; [|done]. intros Hrel. destruct HF as [(_ & Hnp & _)|[? _]]; [tauto|congruence].
  - split; [done|]. intros _. destruct (audited_same _ _ _ _ _ _ HA) as (-> & -> & _).
    split; [by eapply user_sessions_revoked_ended|]. by destruct HR as (? & ? & _ & ->).
Qed.

(** [ListSessions] returns exactly the live sessions of the user, each once,
    and changes nothing; it fails only for a fault of the storage. *)
Theorem list_sessions_exact userID uid w r w' :
  inv w → key userID = Some uid → run (cryden_ListSessions e userID) w = (r, w') →
  vw w' = vw w ∧ (reliable = true → is_ok r = true) ∧
  ∀ l, r = Ok l → NoDup l ∧ ∀ s, s ∈ l ↔
    v_sessions (vw w) !! Session_ID s = Some s ∧ Session_UserID s = uid ∧ live s.
Proof.
  intros Hi Hk Hrun. pose proof (wp_elim _ _ _ _ _ Hrun (wp_List (e_sessions e) userID w Hi))
    as (_ & _ & Hv & Hr). split; [done|]. destruct r as [l|e'].
  2:{ split; [|done]. destruct Hr. congruence. }
  split; [done|]. intros ? [= <-].
  assert (∀ k s, v_sessions (vw w) !! k = Some s → Session_ID s = k) as HID.
  { intros k s Hks. by destruct (canon_session _ _ _ Hi Hks). }
  split.
  - rewrite Hr. unfold active_of. apply NoDup_filter, NoDup_fmap_2_strong; [|apply NoDup_map_to_list].
    intros [k1 s1] [k2 s2] H1%elem_of_map_to_list H2%elem_of_map_to_list. simpl. intros ->.
    apply HID in H1, H2. congruence.
  - intros s. rewrite Hr. unfold active_of. rewrite list_elem_of_filter, list_elem_of_fmap. split.
    + intros [[? ?] ([k x] & -> & Hx%elem_of_map_to_list)]. simpl in *.
      rewrite (HID _ _ Hx). split_and!; [done|congruence|done].
    + intros (Hs & Hu & Hl). split; [split; congruence|].
      exists (Session_ID s, s). split; [done|]. by apply elem_of_map_to_list.
Qed.

End sessions.

(** ** Instances *)

Section witnesses.
#[local] Existing Instances sample_env sample_bcrypt sample_jwt.
#[local] Existing Instances sample_bcrypt_laws sample_jwt_laws.

Lemma session_end_exact_witness :
  (run (end_session sample_engine ByRevoke session1 "mallory") w_login).1 = Err ErrSessionNotOwned ∧
  (run (end_session sample_engine ByLogout session1 alice_id) w_login).1 = Ok ().
Proof.
  split.
  - refine (proj2 (proj2 (proj1 (session_end_exact (S:=MemHeap) sample_engine ByRevoke session1
      "mallory" w_login (alice_session None) _ _ _ _ _ (surjective_pairing _)) _)) _);
      [fixture_inv|reflexivity|vm_compute; reflexivity|discriminate|reflexivity].
  - refine (proj1 (proj2 (session_end_exact (S:=MemHeap) sample_engine ByLogout session1 alice_id
      w_login (alice_session None) _ _ _ _ _ (surjective_pairing _)) _ _) _);
      [fixture_inv|reflexivity|vm_compute; reflexivity|reflexivity..].
Defined.

Lemma logout_all_exact_witness : (run (cryden_LogoutAll sample_engine alice_id) w_login).1 = Ok ().
Proof.
  refine (proj1 (logout_all_exact (S:=MemHeap) sample_engine alice_id alice_id w_login _ _ _ _
    (surjective_pairing _)) _); [fixture_inv|reflexivity|reflexivity].
Defined.

Lemma list_sessions_exact_witness :
  is_ok (run (cryden_ListSessions sample_engine alice_id) w_login).1 = true.
Proof.
  refine (proj1 (proj2 (list_sessions_exact (S:=MemHeap) sample_engine alice_id alice_id w_login
    _ _ _ _ (surjective_pairing _))) _); [fixture_inv|reflexivity|reflexivity].
Defined.

End witnesses.
