(* ===== verification/EmailTheorems.v ===== *)
(** * Changing the e-mail address (auth/email.go)

    The address changes only for whoever holds the token that was sent to the new
    address, once, within the hour. *)
From S2P Require Import Prelude Errors Runtime Store StoreSpec Logger RateLimiter World.
From S2P Require Import Memory MemoryContract Security Token Logic Auth Engine AuthLogic.
From S2P Require Import LoginLogic Sample Fixtures LoginTheorems.

Section email.
Context `{Env} {S : Type} `{StoreModel S, !StoreLaws} (e : Engine S) `{!EngineLaws e}.

Implicit Types (w : World S).

Lemma RequestEmailChange_spec userID newEmail w r w' :
  inv w → run (cryden_RequestEmailChange e userID newEmail) w = (r, w') →
  inv w' ∧ amb_le (w_amb w) (w_amb w') ∧
  match e_verifications e, e_emailSender e with
  | Some _, Some _ => request_email_spec (e_ids e) (e_refreshGen e) userID newEmail w w' r
  | _, _ => w' = w ∧ r = Err ErrEmailChangeNotConfigured
  end.
Proof.
  unfold cryden_RequestEmailChange. intros Hi Hrun.
  destruct (e_verifications e) as [vs|] eqn:Hvs; [|by injection Hrun as <- <-].
  destruct (e_emailSender e) as [sender|] eqn:Hse; [|by injection Hrun as <- <-].
  pose proof (el_verifications _ Hvs). pose proof (el_sender _ Hse).
  by pose proof (wp_elim _ _ _ _ _ Hrun (wp_RequestEmailChange (e_users e) vs (e_audit e)
    (e_log e) sender (e_ids e) (e_refreshGen e) userID newEmail w Hi)) as (? & (_ & ?) & ?).
Qed.

Lemma ConfirmEmailChange_spec raw w r w' :
  inv w → run (cryden_ConfirmEmailChange e raw) w = (r, w') →
  inv w' ∧ amb_le (w_amb w) (w_amb w') ∧
  match e_verifications e with
  | Some _ => confirm_email_spec raw w w' r
  | None => w' = w ∧ r = Err ErrEmailChangeNotConfigured
  end.
Proof.
  unfold cryden_ConfirmEmailChange. intros Hi Hrun.
  destruct (e_verifications e) as [vs|] eqn:Hvs; [|by injection Hrun as <- <-].
  pose proof (el_verifications _ Hvs).
  by pose proof (wp_elim _ _ _ _ _ Hrun (wp_ConfirmEmailChange (e_users e) vs (e_audit e)
    (e_log e) raw w Hi)) as (? & (_ & _ & ?) & ?).
Qed.

(** C32: a request that succeeds changes no user: it stores one token, unused, for
    the change of this user to the new address, that expires an hour after the
    request (up to the storage's rounding), and sends exactly its raw value, to
    the new address and to nobody else; no account had that address. *)
Theorem request_email_change_success userID newEmail w w' :
  inv w → run (cryden_RequestEmailChange e userID newEmail) w = (Ok (), w') →
  no_user newEmail (vw w) ∧ v_users (vw w') = v_users (vw w) ∧
  v_sessions (vw w') = v_sessions (vw w) ∧
  ∃ raw k ku now expires t, key userID = Some ku ∧ between w now w' ∧
    close (now + changeEmailTokenTTL) expires ∧
    w_mail w' = w_mail w ++ [(newEmail, raw)] ∧
    v_tokens (vw w') = <[k := mkVerificationToken k ku PurposeEmailChange (HashToken raw)
      newEmail expires None t]> (v_tokens (vw w)).
Proof.
  intros Hi Hrun. destruct (RequestEmailChange_spec _ _ _ _ _ Hi Hrun) as (_ & _ & Hsp).
  destruct (e_verifications e); [|by destruct Hsp].
  destruct (e_emailSender e); [|by destruct Hsp].
  inversion Hsp as [| | | |id raw now v1 Hno Hbt Hcr Hm HA]; subst.
  destruct Hcr as (k & ku & x & t & Hk & Hku & Hx & _ & ->).
  destruct (audited_same _ _ _ _ _ _ HA) as (-> & -> & ->).
  split_and!; try done. by exists raw, k, ku, now, x, t.
Qed.

(** The token that a raw value belongs to, if the hash identifies it. *)
Definition the_token (raw : string) (vt : VerificationToken) (v : View) : Prop :=
  token_by_hash (HashToken raw) vt v ∧
  ∀ vt', token_by_hash (HashToken raw) vt' v → vt' = vt.

(** C31: the address of an account changes only through a token for that change
    that was neither used nor expired at some moment of the request, and then it
    becomes the address the token was issued for; no other field but the update
    time and no other user changes, and the token is used up, unless a fault of
    the storage prevented that. *)
Theorem confirm_email_change_success raw w w' :
  inv w → run (cryden_ConfirmEmailChange e raw) w = (Ok (), w') →
  ∃ vt now k u t, token_by_hash (HashToken raw) vt (vw w) ∧ between w now w' ∧
    token_valid vt now ∧ key (VerificationToken_UserID vt) = Some k ∧
    v_users (vw w) !! k = Some u ∧
    v_users (vw w') = <[k := set_Email u (VerificationToken_NewEmail vt) t]> (v_users (vw w)) ∧
    v_sessions (vw w') = v_sessions (vw w) ∧
    ((∃ t', v_tokens (vw w') =
        <[VerificationToken_ID vt := set_UsedAt vt (Some t')]> (v_tokens (vw w))) ∨
     (reliable = false ∧ v_tokens (vw w') = v_tokens (vw w))).
Proof.
  intros Hi Hrun. destruct (ConfirmEmailChange_spec _ _ _ _ Hi Hrun) as (_ & _ & Hsp).
  destruct (e_verifications e); [|by destruct Hsp].
  inversion Hsp as [| | | |vt now v1 v2 Ht Hbt Hval [HU _] HM HA]; subst.
  destruct HU as (k & u & u' & Hk & Hu & [t ->] & ->).
  destruct (audited_same _ _ _ _ _ _ HA) as (-> & -> & ->).
  exists vt, now, k, u, t. destruct Ht as [Ht Hh].
  destruct HM as [(kt & x & t' & Hkt & Hx & ->)|[? ->]]; simpl in *; split_and!; try done.
  - left. exists t'. destruct (canon_token _ _ _ Hi Ht) as (_ & Hkey & _).
    assert (kt = VerificationToken_ID vt) as -> by congruence. by simplify_eq.
  - by right.
Qed.

(** A token that was used, has expired or is for another purpose is refused,
    with the error that says so, and changes nothing. *)
Theorem confirm_email_change_refused raw w vt r w' :
  inv w → the_token raw vt (vw w) → is_Some (e_verifications e) → reliable = true →
  ¬ token_valid vt (amb_time (w_amb w)) →
  run (cryden_ConfirmEmailChange e raw) w = (r, w') →
  vw w' = vw w ∧
  r = Err (if bool_decide (VerificationToken_Purpose vt ≠ PurposeEmailChange) ||
              bool_decide (VerificationToken_UsedAt vt ≠ None)
           then ErrVerificationTokenInvalid else ErrVerificationTokenExpired).
Proof.
  intros Hi [Ht Hun] [vs Hvs] Hrel Hbad Hrun.
  destruct (ConfirmEmailChange_spec _ _ _ _ Hi Hrun) as (_ & _ & Hsp). rewrite Hvs in Hsp.
  assert (∀ now, between w now w' → ¬ token_valid vt now) as Hnv.
  { intros now [? _] (? & ? & ?). apply Hbad. split_and!; [done..|lia]. }
  destruct Hsp as [Hno Hv|vt' Ht' Hb Hv|vt' now Ht' Hbt Hp Hu Hlt Hv|vt' now e' Ht' Hbt Hval
    |vt' now v1 v2 Ht' Hbt Hval].
  - destruct Ht as [Ht Hh]. by destruct (Hno Hrel _ _ Ht).
  - apply Hun in Ht' as ->. split; [done|]. repeat case_bool_decide; simpl; tauto.
  - apply Hun in Ht' as ->. split; [done|]. by rewrite !bool_decide_false by (by intros ?).
  - apply Hun in Ht' as ->. by destruct (Hnv _ Hbt).
  - apply Hun in Ht' as ->. by destruct (Hnv _ Hbt).
Qed.

(** A token works once: over a storage without faults, after a confirmation
    that succeeded every further confirmation with the same token is refused with
    [ErrVerificationTokenInvalid] and changes nothing. *)
Theorem confirm_email_change_once raw w vt w1 r w2 :
  inv w → the_token raw vt (vw w) → reliable = true →
  run (cryden_ConfirmEmailChange e raw) w = (Ok (), w1) →
  run (cryden_ConfirmEmailChange e raw) w1 = (r, w2) →
  r = Err ErrVerificationTokenInvalid ∧ vw w2 = vw w1.
Proof.
  intros Hi [Ht Hun] Hrel Hrun1 Hrun2.
  destruct (ConfirmEmailChange_spec _ _ _ _ Hi Hrun1) as (Hi1 & _ & Hsp1).
  destruct (ConfirmEmailChange_spec _ _ _ _ Hi1 Hrun2) as (_ & _ & Hsp2).
  destruct (e_verifications e) as [vs|] eqn:Hvs; [|by destruct Hsp1].
  inversion Hsp1 as [| | | |vt' now v1 v2 Ht' Hbt Hval [HU _] HM HA]; subst.
  apply Hun in Ht' as ->. destruct HM as [(kt & x & t' & Hkt & Hx & ->)|[? _]]; [|congruence].
  destruct (audited_same _ _ _ _ _ _ HA) as (_ & _ & HT).
  destruct HU as (k & u & u' & _ & _ & _ & ->). simpl in *.
  destruct (canon_token _ _ _ Hi (proj1 Ht)) as (_ & Hkey & _).
  assert (kt = VerificationToken_ID vt) as -> by congruence.
  assert (x = vt) as -> by (destruct Ht; congruence).
  assert (∀ y, token_by_hash (HashToken raw) y (vw w1) → y = set_UsedAt vt (Some t')) as Hused.
  { intros y [Hy Hh]. rewrite HT in Hy. apply lookup_insert_Some in Hy as [[? <-]|[Hne Hy]]; [done|].
    destruct Hne. by rewrite (Hun y). }
  destruct Hsp2 as [_ Hv|y Hy Hb Hv|y now2 Hy _ _ Hu|y now2 e' Hy _ (_ & Hu & _)
    |y now2 v1 v2 Hy _ (_ & Hu & _)]; [done..| | |];
    apply Hused in Hy as ->; done.
Qed.

End email.

(** ** Instances *)

Section witnesses.
#[local] Existing Instances sample_env sample_bcrypt sample_jwt.
#[local] Existing Instances sample_bcrypt_laws sample_jwt_laws.

Definition new_address := "alice@new.example".
Definition alice_request := cryden_RequestEmailChange sample_engine alice_id new_address.

(** Alice has asked for the change and holds the token that was sent. *)
Definition w_requested : World MemHeap := (run alice_request w_signed).2.
Definition mailed : string := Eval vm_compute in
  default EmptyString (snd <$> last (w_mail w_requested)).
Definition alice_confirm := cryden_ConfirmEmailChange sample_engine mailed.
Definition w_confirmed : World MemHeap := (run alice_confirm w_requested).2.

Definition requested_token : VerificationToken := Eval vm_compute in
  default (new_VerificationToken EmptyString EmptyString EmptyString EmptyString EmptyString 0)
    (snd <$> head (map_to_list (mem_tokens (w_store w_requested)))).
Definition confirmed_token : VerificationToken := Eval vm_compute in
  default requested_token (snd <$> head (map_to_list (mem_tokens (w_store w_confirmed)))).

Lemma requested_the_token : the_token mailed requested_token (view (w_store w_requested)).
Proof.
  assert (map_to_list (v_tokens (mem_view (w_store w_requested))) =
    [(VerificationToken_ID requested_token, requested_token)]) as HM by (vm_compute; reflexivity).
  split; [vm_compute; split; reflexivity|].
  intros vt [Hvt _]. by destruct (only_entry _ _ _ _ _ HM Hvt).
Qed.

Lemma confirmed_the_token : the_token mailed confirmed_token (view (w_store w_confirmed)).
Proof.
  assert (map_to_list (v_tokens (mem_view (w_store w_confirmed))) =
    [(VerificationToken_ID confirmed_token, confirmed_token)]) as HM by (vm_compute; reflexivity).
  split; [vm_compute; split; reflexivity|].
  intros vt [Hvt _]. by destruct (only_entry _ _ _ _ _ HM Hvt).
Qed.

Lemma request_email_change_success_witness : ∃ raw,
  w_mail w_requested = w_mail w_signed ++ [(new_address, raw)].
Proof.
  destruct (request_email_change_success (S:=MemHeap) sample_engine alice_id new_address w_signed
    w_requested) as (_ & _ & _ & raw & k & ku & now & ex & t & _ & _ & _ & Hm & _).
  - fixture_inv.
  - vm_compute. reflexivity.
  - exists raw. exact Hm.
Defined.

Lemma confirm_email_change_success_witness : ∃ vt,
  token_by_hash (HashToken mailed) vt (view (w_store w_requested)).
Proof.
  destruct (confirm_email_change_success (S:=MemHeap) sample_engine mailed w_requested w_confirmed)
    as (vt & now & k & u & t & Ht & _).
  - fixture_inv.
  - vm_compute. reflexivity.
  - exists vt. exact Ht.
Defined.

Lemma confirm_email_change_refused_witness :
  (run alice_confirm w_confirmed).1 = Err ErrVerificationTokenInvalid.
Proof.
  refine (proj2 (confirm_email_change_refused (S:=MemHeap) sample_engine mailed w_confirmed
    confirmed_token _ _ _ confirmed_the_token _ _ _ (surjective_pairing _))).
  - fixture_inv.
  - eexists. reflexivity.
  - reflexivity.
  - intros (_ & Hu & _). discriminate Hu.
Defined.

Lemma confirm_email_change_once_witness :
  (run alice_confirm w_confirmed).1 = Err ErrVerificationTokenInvalid.
Proof.
  refine (proj1 (confirm_email_change_once (S:=MemHeap) sample_engine mailed w_requested
    requested_token w_confirmed _ _ _ requested_the_token _ _ (surjective_pairing _))).
  - fixture_inv.
  - reflexivity.
  - vm_compute. reflexivity.
Defined.

End witnesses.
