(* ===== verification/SessionSafety.v ===== *)
(** * Every request follows the session machine

    The twelve public functions as requests to an engine. Each request, served
    alone, moves the sessions of the storage along the machine of
    SessionMachine.v, so its invariants hold in every state that any sequence of
    requests reaches: a family never has two live sessions, a revoked session
    never comes back, a dead family never yields tokens again. *)
From stdpp Require pretty.
From S2P Require Import Prelude Errors Runtime Store StoreSpec SessionMachine Logger RateLimiter.
From S2P Require Import World Memory MemoryContract Security Token Logic Auth Session Engine.
From S2P Require Import Rotation AuthLogic LoginLogic Sample Fixtures RefreshTheorems.
From S2P Require Import LoginTheorems AccountTheorems SessionTheorems EmailTheorems.

(** ** Requests *)

Inductive request : Type :=
| ReqSignUp (email password callerIP : string)
| ReqLogin (email password callerIP userAgent : string)
| ReqChangePassword (userID current new : string)
| ReqDeleteAccount (userID current : string)
| ReqRequestEmailChange (userID newEmail : string)
| ReqConfirmEmailChange (rawToken : string)
| ReqLogout (sessionID userID : string)
| ReqLogoutAll (userID : string)
| ReqRefreshToken (rawToken : string)
| ReqVerifyToken (accessToken : string)
| ReqListSessions (userID : string)
| ReqRevokeSession (sessionID userID : string).

Definition serve `{Env, Bcrypt, JWT} {S} (e : Engine S) (r : request) : Prog (World S) () :=
  match r with
  | ReqSignUp email password ip => cryden_SignUp e email password ip;; mret ()
  | ReqLogin email password ip agent => cryden_Login e email password ip agent;; mret ()
  | ReqChangePassword uid cur new => cryden_ChangePassword e uid cur new;; mret ()
  | ReqDeleteAccount uid cur => cryden_DeleteAccount e uid cur;; mret ()
  | ReqRequestEmailChange uid email => cryden_RequestEmailChange e uid email;; mret ()
  | ReqConfirmEmailChange raw => cryden_ConfirmEmailChange e raw;; mret ()
  | ReqLogout sid uid => cryden_Logout e sid uid;; mret ()
  | ReqLogoutAll uid => cryden_LogoutAll e uid;; mret ()
  | ReqRefreshToken raw => cryden_RefreshToken e raw;; mret ()
  | ReqVerifyToken tok => cryden_VerifyToken e tok;; mret ()
  | ReqListSessions uid => cryden_ListSessions e uid;; mret ()
  | ReqRevokeSession sid uid => cryden_RevokeSession e sid uid;; mret ()
  end.

(** ** What a request does to the sessions *)

(** Steps that add no session. *)
Inductive quiet : gmap string Session → gmap string Session → Prop :=
| quiet_revoke (P : Session → Prop) `{∀ s, Decision (P s)} t m : quiet m (revoke_where P t <$> m)
| quiet_revoke_one m k s t : m !! k = Some s → quiet m (<[k := set_RevokedAt s (Some t)]> m)
| quiet_delete u m : quiet m (filter (λ p, Session_UserID p.2 ≠ u) m).

Section effects.
Context {S : Type} `{StoreModel S, !StoreLaws}.

(** A session added under an ID drawn during the request. *)
Inductive grown (ids : IDGenerator) (b b' : Amb) :
    gmap string Session → gmap string Session → Prop :=
| grown_login m id k s :
    drawn ids b b' id → key id = Some k → Session_ID s = k → Session_FamilyID s = k → live s →
    grown ids b b' m (<[k := s]> m)
| grown_rotate m o old t id k s :
    drawn ids b b' id → key id = Some k → m !! o = Some old → live old →
    Session_ID s = k → Session_FamilyID s = Session_FamilyID old →
    Session_UserID s = Session_UserID old → live s →
    grown ids b b' m (<[k := s]> (<[o := set_RevokedAt old (Some t)]> m)).

Definition effect (ids : IDGenerator) (b b' : Amb) (m m' : gmap string Session) : Prop :=
  rtc quiet m m' ∨ grown ids b b' m m'.

Lemma effect_same ids b b' m : effect ids b b' m m.
Proof. by left. Qed.

Lemma quiet_effect ids b b' m m' : quiet m m' → effect ids b b' m m'.
Proof. left. by apply rtc_once. Qed.

Lemma user_sessions_quiet uid v v' :
  user_sessions_revoked uid v v' → quiet (v_sessions v) (v_sessions v').
Proof. intros (ku & t & _ & ->). apply quiet_revoke. Qed.

Lemma maybe_user_sessions_quiet uid v v' :
  maybe (user_sessions_revoked uid) v v' → rtc quiet (v_sessions v) (v_sessions v').
Proof. intros [?%user_sessions_quiet|[_ ->]]; [by apply rtc_once|done]. Qed.

Lemma session_revoked_quiet id v v' :
  session_revoked id v v' → quiet (v_sessions v) (v_sessions v').
Proof. intros (k & s & t & _ & Hs & _ & ->). by apply quiet_revoke_one. Qed.

Lemma user_deleted_quiet id v v' :
  user_deleted id v v' → rtc quiet (v_sessions v) (v_sessions v').
Proof.
  intros (k & _ & _ & ->). destruct strict; simpl; [|done]. apply rtc_once, quiet_delete.
Qed.

Lemma failed_effect ids b b' present (E : View → View → Prop) v v' e :
  (∀ v v', E v v' → quiet (v_sessions v) (v_sessions v')) →
  failed present E v v' e → effect ids b b' (v_sessions v) (v_sessions v').
Proof. intros HE [_ [(_ & _ & ->)|(_ & _ & [->|?])]]; eauto using effect_same, quiet_effect. Qed.

Lemma close_effect ids b b' ty meta sid uid v v' r :
  close_spec ty meta sid uid v v' r → effect ids b b' (v_sessions v) (v_sessions v').
Proof.
  destruct 1 as [? _ -> _|? _ _ _ ->|? ? _ _ _ HF|s v1 _ _ _ HR HA]; try apply effect_same.
  - eapply failed_effect; [|done]. apply session_revoked_quiet.
  - destruct (audited_same _ _ _ _ _ _ HA) as (_ & -> & _).
    apply quiet_effect. by eapply session_revoked_quiet.
Qed.

Lemma close_all_effect ids b b' uid v v' r :
  close_all_spec uid v v' r → effect ids b b' (v_sessions v) (v_sessions v').
Proof.
  destruct 1 as [e HF|v1 HR HA].
  - eapply failed_effect; [|done]. apply user_sessions_quiet.
  - destruct (audited_same _ _ _ _ _ _ HA) as (_ & -> & _).
    apply quiet_effect. by eapply user_sessions_quiet.
Qed.

Lemma change_password_effect ids b b' hasher uid cur new v v' r :
  change_password_spec hasher uid cur new v v' r →
  effect ids b b' (v_sessions v) (v_sessions v').
Proof.
  destruct 1 as [? _ ->|? ? _ _ ->|? ? _ _ _ ->|u hash e _ _ _ _ _ [->|HU]|u hash v1 v2 _ _ _ HU HR HA];
    try apply effect_same.
  - apply user_updated_sessions in HU as [-> _]. apply effect_same.
  - destruct (audited_same _ _ _ _ _ _ HA) as (_ & -> & _). left.
    apply user_updated_sessions in HU as [<- _]. by eapply maybe_user_sessions_quiet.
Qed.

Lemma delete_account_effect ids b b' hasher uid cur v v' r :
  delete_account_spec hasher uid cur v v' r →
  effect ids b b' (v_sessions v) (v_sessions v').
Proof.
  destruct 1 as [? _ ->|? ? _ _ ->|u v1 v2 e _ _ HR HA _ _ HD|u v1 v2 _ _ HR HA HD];
    try apply effect_same; left;
    apply maybe_user_sessions_quiet in HR; destruct (audited_same _ _ _ _ _ _ HA) as (_ & HS & _);
    rewrite <- HS in HR.
  - destruct HD as [->|HD]; [done|]. etrans; [done|]. by eapply user_deleted_quiet.
  - etrans; [done|]. by eapply user_deleted_quiet.
Qed.

Lemma session_created_grown ids b b' id uid hash ip agent v v' :
  drawn ids b b' id → session_created id id uid hash ip agent v v' →
  effect ids b b' (v_sessions v) (v_sessions v').
Proof.
  intros Hd (k & kf & ku & t & Hk & Hkf & _ & _ & ->). right. simplify_eq. simpl.
  by eapply grown_login.
Qed.

Lemma opened_effect `{Env, JWT} ids gen j uid ip agent (w w' : World S) v v' r :
  opened_spec ids gen j uid ip agent w w' v v' r →
  effect ids (w_amb w) (w_amb w') (v_sessions v) (v_sessions v').
Proof.
  destruct 1 as [e _ ->|id raw e _ _ Hd [->|HC]|id raw a a' e Hd HC|id raw at' a a' v1 Hd HC _ _ _ HA];
    try apply effect_same; try by eapply session_created_grown.
  destruct (audited_same _ _ _ _ _ _ HA) as (_ & -> & _). by eapply session_created_grown.
Qed.

Lemma login_effect `{Env, JWT} hasher ids gen j allow email pw ip agent th dur (w w' : World S) r :
  login_spec hasher ids gen j allow email pw ip agent th dur w w' r →
  effect ids (w_amb w) (w_amb w') (v_sessions (vw w)) (v_sessions (vw w')).
Proof.
  destruct 1 as [e _ ->|_ ->|_ _ HA|? ? ? _ _ _ _ _ ->|u e v1 _ _ _ _ HA HC|u v1 r _ _ _ _ HR HO];
    try apply effect_same.
  - destruct (audited_same _ _ _ _ _ _ HA) as (_ & -> & _). apply effect_same.
  - rewrite (counted_sessions _ _ _ _ _ _ _ _ HC).
    destruct (audited_same _ _ _ _ _ _ HA) as (_ & -> & _). apply effect_same.
  - apply opened_effect in HO. destruct HR as [HR|[_ ->]]; [|done].
    by apply user_updated_sessions in HR as [<- _].
Qed.

Lemma rotated_grown ids b b' (w : S) k s id hash v' :
  store_inv w → v_sessions (view w) !! k = Some s → live s → drawn ids b b' id →
  token_rotated k id (Session_FamilyID s) (Session_UserID s) hash (Session_IP s)
    (Session_UserAgent s) (view w) v' →
  effect ids b b' (v_sessions (view w)) (v_sessions v').
Proof.
  intros Hi Hk Hl Hd (ko & so & t & kn & kf & ku & t' & Ho & Hso & Hn & Hf & Hu & _ & ->).
  destruct (canon_session _ _ _ Hi Hk) as (_ & Hkk & Hff & Huu). simplify_eq.
  right. by eapply grown_rotate.
Qed.

Lemma rotate_effect gen ids raw b b' (w : S) v' res err :
  store_inv w → rotate_spec gen ids raw b b' (view w) v' res err →
  effect ids b b' (v_sessions (view w)) (v_sessions v').
Proof.
  intros Hi.
  destruct 1 as [_ ->|k s Hk _ _ (kf & t & _ & ->)|k s e Hk _ _ _ _ [->|(kf & t & _ & ->)]
    |k s e _ _ _ _ ->|k s id raw' e Hk _ Hl _ Hd [->|HT]|k s id raw' Hk _ Hl Hd HT];
    try apply effect_same; try (apply quiet_effect, quiet_revoke); by eapply rotated_grown.
Qed.

Lemma refresh_effect `{Env, JWT} gen ids j raw (w w' : World S) r :
  inv w → refresh_spec gen ids j raw w w' r →
  effect ids (w_amb w) (w_amb w') (v_sessions (vw w)) (v_sessions (vw w')).
Proof.
  intros Hi. destruct 1 as [res e HR _|res v1 HR HA|res a a' e HR _|res v1 at' a a' HR _ _ _ HA];
    apply (rotate_effect _ _ _ _ _ _ _ _ _ Hi) in HR; try done;
    by destruct (audited_same _ _ _ _ _ _ HA) as (_ & -> & _).
Qed.

Lemma signup_sessions hasher ids allow email pw ip v v' r :
  signup_spec hasher ids allow email pw ip v v' r → v_sessions v' = v_sessions v.
Proof.
  destruct 1 as [? _ ->|_ ->|? _ _ ->|? _ _ _ ->|? _ _ _ ->|id hash e _ _ _ _ _ [->|HC]
    |id hash v1 _ _ _ HC HA]; try done.
  - by destruct HC as (? & ? & ? & _ & _ & ->).
  - destruct (audited_same _ _ _ _ _ _ HA) as (_ & -> & _).
    by destruct HC as (? & ? & ? & _ & _ & ->).
Qed.

Lemma request_email_sessions ids gen uid email (w w' : World S) r :
  request_email_spec ids gen uid email w w' r → v_sessions (vw w') = v_sessions (vw w).
Proof.
  assert (∀ id p h em x v v', token_created id uid p h em x v v' → v_sessions v' = v_sessions v)
    as HT by (by intros * (? & ? & ? & ? & _ & _ & _ & _ & ->)).
  destruct 1 as [? _ -> _|? _ _ -> _|id raw now e _ _ _ _ [->|HC] _|id raw now e _ _ HC _
    |id raw now v1 _ _ HC _ HA]; try done; try by eapply HT.
  destruct (audited_same _ _ _ _ _ _ HA) as (_ & -> & _). by eapply HT.
Qed.

Lemma confirm_email_sessions raw (w w' : World S) r :
  confirm_email_spec raw w w' r → v_sessions (vw w') = v_sessions (vw w).
Proof.
  destruct 1 as [_ ->|? _ _ ->|? ? _ _ _ _ _ ->|vt now e _ _ _ [_ [(_ & _ & ->)|(_ & _ & [->|[HU _]])]]
    |vt now v1 v2 _ _ _ [HU _] HM HA]; try done.
  - by apply user_updated_sessions in HU as [-> _].
  - destruct (audited_same _ _ _ _ _ _ HA) as (_ & -> & _).
    apply user_updated_sessions in HU as [<- _]. by destruct HM as [(? & ? & ? & _ & _ & ->)|[_ ->]].
Qed.

(** ** Serving a request *)

Context `{Env, Bcrypt, JWT} (e : Engine S) `{!EngineLaws e}.

Implicit Types (w : World S).

Lemma run_unit {A} (p : Prog (World S) A) w : (run (p;; mret ()) w).2 = (run p w).2.
Proof. rewrite run_bind. by destruct (run p w). Qed.

Lemma wp_VerifyToken tok w :
  inv w → wp (cryden_VerifyToken e tok) (λ _ w', inv w' ∧ same_outside w w' ∧ vw w' = vw w) w.
Proof.
  intros Hi. apply wp_on_amb. intros r a HV. split; [done|]. split; [|done].
  assert (amb_le (w_amb w) a); [|done]. revert HV. unfold JWTIssuer_Verify, event. st_unfold.
  destruct (jwt_ParseWithClaims _ _ _) as [[? []]|]; simpl; intros [= _ <-];
    unfold amb_le; simpl; lia.
Qed.

(** What one request does. *)
Lemma serve_effect r w w' :
  inv w → (run (serve e r) w).2 = w' →
  inv w' ∧ amb_le (w_amb w) (w_amb w') ∧
  effect (e_ids e) (w_amb w) (w_amb w') (v_sessions (vw w)) (v_sessions (vw w')).
Proof.
  intros Hi. destruct r; cbn [serve]; rewrite run_unit;
    match goal with |- (run ?p w).2 = _ → _ => destruct (run p w) as [x w1] eqn:E end;
    cbn [snd]; intros <-.
  - destruct (SignUp_spec e _ _ _ _ _ _ Hi E) as (? & ? & ->%signup_sessions). eauto using effect_same.
  - destruct (Login_spec e _ _ _ _ _ _ _ Hi E) as (? & ? & ?%login_effect). done.
  - destruct (ChangePassword_spec e _ _ _ _ _ _ Hi E) as (? & ? & HS).
    split_and!; [done..|]. by eapply change_password_effect.
  - destruct (DeleteAccount_spec e _ _ _ _ _ Hi E) as (? & ? & HS).
    split_and!; [done..|]. by eapply delete_account_effect.
  - destruct (RequestEmailChange_spec e _ _ _ _ _ Hi E) as (? & ? & HS).
    split_and!; [done..|].
    destruct (e_verifications e), (e_emailSender e);
      try (destruct HS as [-> _]; apply effect_same).
    apply request_email_sessions in HS as ->. apply effect_same.
  - destruct (ConfirmEmailChange_spec e _ _ _ _ Hi E) as (? & ? & HS). split_and!; [done..|].
    destruct (e_verifications e); [|destruct HS as [-> _]; apply effect_same].
    apply confirm_email_sessions in HS as ->. apply effect_same.
  - destruct (wp_elim _ _ _ _ _ E (wp_Logout (e_sessions e) (e_audit e) (e_log e) _ _ w Hi))
      as (? & (_ & _ & ?) & HS). split_and!; [done..|]. by eapply close_effect.
  - destruct (wp_elim _ _ _ _ _ E (wp_LogoutAll (e_sessions e) (e_audit e) (e_log e) _ w Hi))
      as (? & (_ & _ & ?) & HS). split_and!; [done..|]. by eapply close_all_effect.
  - destruct (wp_elim _ _ _ _ _ E (wp_RefreshToken e _ w Hi)) as (? & (_ & _ & ?) & HS).
    split_and!; [done..|]. by eapply refresh_effect.
  - destruct (wp_elim _ _ _ _ _ E (wp_VerifyToken _ w Hi)) as (? & (_ & _ & ?) & ->).
    split_and!; [done..|]. apply effect_same.
  - destruct (wp_elim _ _ _ _ _ E (wp_List (e_sessions e) _ w Hi)) as (? & (_ & _ & ?) & -> & _).
    split_and!; [done..|]. apply effect_same.
  - destruct (wp_elim _ _ _ _ _ E (wp_Revoke (e_sessions e) (e_audit e) (e_log e) _ _ w Hi))
      as (? & (_ & _ & ?) & HS). split_and!; [done..|]. by eapply close_effect.
Qed.

End effects.

(** ** Reachable states *)

Section reachable.
Context `{Env, Bcrypt, JWT} {S : Type} `{StoreModel S, !StoreLaws}.
Context (e : Engine S) `{!EngineLaws e}.

Implicit Types (w : World S) (m : gmap string Session).

Definition served w w' : Prop := ∃ r, (run (serve e r) w).2 = w'.

(** Reached by requests from a storage without sessions. *)
Definition reachable w : Prop :=
  ∃ w0, inv w0 ∧ v_sessions (vw w0) = ∅ ∧ rtc served w0 w.

(** Generated IDs are in the form in which the storage keeps them. *)
Class CanonicalIDs : Prop := {
  canonical_ids id k a a' :
    IDGenerator_New (e_ids e) a = (Ok id, a') → key id = Some k → k = id;
}.

Context `{!UniqueIDs (e_ids e), !CanonicalIDs}.

Definition drawn_before (b : Amb) (k : string) : Prop :=
  ∃ a a', IDGenerator_New (e_ids e) a = (Ok k, a') ∧ amb_le a' b.

Lemma drawn_before_mono b b' k : amb_le b b' → drawn_before b k → drawn_before b' k.
Proof. intros Hle (a & a' & ? & ?). exists a, a'. split; [done|by etrans]. Qed.

Lemma drawn_drawn_before b b' id k :
  drawn (e_ids e) b b' id → key id = Some k → drawn_before b' k.
Proof.
  intros (a & a' & Ha & _ & Hle) Hk. exists a, a'. by rewrite (canonical_ids _ _ _ _ Ha Hk).
Qed.

(** A new ID is none of the old ones. *)
Lemma drawn_fresh b b' id k :
  drawn (e_ids e) b b' id → key id = Some k → ¬ drawn_before b k.
Proof.
  intros (a & a' & Ha & Hle & _) Hk (a0 & a0' & Ha0 & Hle0).
  pose proof (canonical_ids _ _ _ _ Ha Hk) as ->.
  eapply (unique_ids a0 a0' a a' id); [done..|]. by etrans.
Qed.

Lemma quiet_step m m' : quiet m m' → sess_step m m'.
Proof. destruct 1; by constructor. Qed.

Lemma quiet_keys m m' k s' : quiet m m' → m' !! k = Some s' → is_Some (m !! k).
Proof.
  destruct 1 as [P ? t m|m o s t Ho|u m].
  - rewrite lookup_fmap_Some. intros (x & _ & ->). eauto.
  - rewrite lookup_insert_Some. intros [[<- _]|[_ ->]]; eauto.
  - rewrite map_lookup_filter_Some. intros [-> _]. eauto.
Qed.

Record safe w : Prop := {
  safe_inv : inv w;
  safe_machine : machine_inv (v_sessions (vw w));
  safe_drawn k s : v_sessions (vw w) !! k = Some s → drawn_before (w_amb w) k;
}.

(** The sessions of a safe state move along the machine; what is new is fresh. *)
Lemma effect_steps b b' m m' :
  (∀ k s, m !! k = Some s → drawn_before b k) → amb_le b b' →
  effect (e_ids e) b b' m m' →
  sess_steps m m' ∧ ∀ k s, m' !! k = Some s → drawn_before b' k.
Proof.
  intros Hd Hle [HQ|HG].
  - assert (∀ k s, m !! k = Some s → drawn_before b' k) as Hd'
      by eauto using drawn_before_mono. clear Hd. induction HQ as [m|m m1 m2 Hq _ IH]; [done|].
    destruct IH as [Hs Hk].
    { intros k s Hks. destruct (quiet_keys _ _ _ _ Hq Hks). eauto. }
    split; [|done]. eapply rtc_l; [by apply quiet_step|done].
  - assert (∀ k id, drawn (e_ids e) b b' id → key id = Some k → m !! k = None) as Hfresh.
    { intros k id Hdr Hk. apply eq_None_not_Some. intros [s Hs].
      by eapply drawn_fresh; [..|eapply Hd]. }
    destruct HG as [m id k s Hdr Hk ? ? ?|m o old t id k s Hdr Hk Ho ? ? ? ? ?].
    + split; [apply rtc_once; apply step_login; eauto|].
      intros k' s'. rewrite lookup_insert_Some. intros [[<- _]|[_ ?]];
        eauto using drawn_drawn_before, drawn_before_mono.
    + split; [apply rtc_once; eapply step_rotate; eauto|].
      intros k' s'. rewrite !lookup_insert_Some. intros [[<- _]|[_ [[<- _]|[_ ?]]]];
        eauto using drawn_drawn_before, drawn_before_mono.
Qed.

Lemma safe_served w w' :
  safe w → served w w' →
  safe w' ∧ amb_le (w_amb w) (w_amb w') ∧
  sess_steps (v_sessions (vw w)) (v_sessions (vw w')) ∧
  effect (e_ids e) (w_amb w) (w_amb w') (v_sessions (vw w)) (v_sessions (vw w')).
Proof.
  intros [Hi Hm Hd] [r Hr]. destruct (serve_effect e _ _ _ Hi Hr) as (Hi' & Hle & HE).
  destruct (effect_steps _ _ _ _ Hd Hle HE). split_and!; try done. split; eauto with cryden.
Qed.

Lemma safe_steps w w' :
  safe w → rtc served w w' →
  safe w' ∧ amb_le (w_amb w) (w_amb w') ∧ sess_steps (v_sessions (vw w)) (v_sessions (vw w')).
Proof.
  intros Hw HS. revert Hw. induction HS as [w|w w1 w2 Hst _ IH]; intros Hw; [by split_and!|].
  destruct (safe_served _ _ Hw Hst) as (Hw1 & ? & ? & _). destruct (IH Hw1) as (? & ? & ?).
  split_and!; [done|by etrans..].
Qed.

Lemma reachable_safe w : reachable w → safe w.
Proof.
  intros (w0 & Hi & Hemp & HS). apply (safe_steps w0); [|done].
  split; [done|rewrite Hemp; apply machine_inv_empty|].
  intros k s. by rewrite Hemp, lookup_empty.
Qed.

(** C1: whatever requests an engine has served one after the other, a session
    family never has two live sessions: a stolen refresh token and its owner's
    cannot both stay usable. Each family is rooted in the session that opened it,
    all of it belongs to one user, and every step the sessions took is a step of
    the session machine. *)
Theorem family_has_one_live_session w :
  reachable w →
  one_live (v_sessions (vw w)) ∧ rooted (v_sessions (vw w)) ∧
  sess_steps ∅ (v_sessions (vw w)).
Proof.
  intros Hr. pose proof (reachable_safe _ Hr) as [_ [] _].
  destruct Hr as (w0 & Hi & Hemp & HS). split_and!; try done.
  rewrite <- Hemp. apply safe_steps; [|done].
  split; [done|rewrite Hemp; apply machine_inv_empty|].
  intros k s. by rewrite Hemp, lookup_empty.
Qed.

(** A session under an ID that was drawn before is a later state of the one that
    was there. *)
Definition settled (k : string) (s : Session) (b : Amb) m : Prop :=
  drawn_before b k ∧ ∀ s', m !! k = Some s' → later s s'.

Lemma settled_effect k s b b' m m' :
  (∀ k s, m !! k = Some s → drawn_before b k) → amb_le b b' →
  settled k s b m → effect (e_ids e) b b' m m' → settled k s b' m'.
Proof.
  intros Hall Hle [Hd Hk] HE. split; [by eapply drawn_before_mono|].
  destruct HE as [HQ|HG].
  - clear Hall. induction HQ as [m|m m1 m2 Hq _ IH]; [done|]. apply IH. clear IH.
    intros s' Hs'. destruct (quiet_keys _ _ _ _ Hq Hs') as [s0 Hs0].
    destruct (lookup_step_kept _ _ _ _ (quiet_step _ _ Hq) Hs0) as [?|(s1 & ? & ?)];
      [congruence|]. simplify_eq. etrans; [by apply Hk|done].
  - intros s'. destruct HG as [m id k' x Hdr Hk' ? ? ?|m o old t id k' x Hdr Hk' Ho ? ? ? ? ?].
    + rewrite lookup_insert_Some. intros [[-> _]|[_ ?]]; [|by apply Hk].
      by destruct (drawn_fresh _ _ _ _ Hdr Hk').
    + rewrite !lookup_insert_Some. intros [[-> _]|[_ [[<- <-]|[_ ?]]]]; [|..|by apply Hk].
      * by destruct (drawn_fresh _ _ _ _ Hdr Hk').
      * etrans; [by apply Hk|]. apply later_revoked.
Qed.

(** What a session under [k] may be after further requests. *)
Lemma session_settled w w' k s s' :
  safe w → v_sessions (vw w) !! k = Some s → rtc served w w' →
  v_sessions (vw w') !! k = Some s' → later s s'.
Proof.
  intros Hw Hk HS Hk'. assert (settled k s (w_amb w) (v_sessions (vw w))) as Hset.
  { split; [by eapply safe_drawn|]. intros ? ?. by simplify_eq. }
  assert (settled k s (w_amb w') (v_sessions (vw w'))) as [_ Hset']; [|by apply Hset'].
  clear Hk Hk'. induction HS as [w|w w1 w2 Hst _ IH]; [done|].
  destruct (safe_served _ _ Hw Hst) as (Hw1 & ? & _ & HE). apply IH; [done|].
  eapply settled_effect; [exact (safe_drawn _ Hw)|done..].
Qed.

(** C10: revocation is final. From a storage without sessions let requests be served one
    after the other: once a session is revoked, no sequence of further requests makes
    it live again or turns its record into that of another session. *)
Theorem revocation_is_final w w' k s s' :
  reachable w → v_sessions (vw w) !! k = Some s → ¬ live s →
  rtc served w w' → v_sessions (vw w') !! k = Some s' → ¬ live s' ∧ same_session s s'.
Proof.
  intros Hr Hk Hl HS Hk'.
  destruct (session_settled _ _ _ _ _ (reachable_safe _ Hr) Hk HS Hk') as [? Hl']. naive_solver.
Qed.

(** No session of the family is live. *)
Definition extinct (f : string) m : Prop :=
  ∀ k s, m !! k = Some s → Session_FamilyID s = f → ¬ live s.

Lemma extinct_quiet f m m' : extinct f m → quiet m m' → extinct f m'.
Proof.
  intros Hf Hq k s' Hs' HF HL. destruct (quiet_keys _ _ _ _ Hq Hs') as [s0 Hs0].
  destruct (lookup_step_kept _ _ _ _ (quiet_step _ _ Hq) Hs0) as [?|(s1 & ? & (_ & HF' & _) & HL')];
    [congruence|]. simplify_eq. by eapply Hf; [..|apply HL'].
Qed.

Lemma extinct_effect f b b' m m' :
  drawn_before b f → extinct f m → effect (e_ids e) b b' m m' → extinct f m'.
Proof.
  intros Hd Hf [HQ|HG].
  - induction HQ; eauto using extinct_quiet.
  - intros k s. destruct HG as [m id k' x Hdr Hk' ? HF ?|m o old t id k' x Hdr Hk' Ho Hlo ? HF ? ?].
    + rewrite lookup_insert_Some. intros [[-> ->]|[_ ?]]; [|by eapply Hf].
      intros <-. rewrite HF in *. by destruct (drawn_fresh _ _ _ _ Hdr Hk').
    + rewrite !lookup_insert_Some. intros [[-> ->]|[_ [[<- <-]|[_ ?]]]]; [|done|by eapply Hf].
      intros <-. destruct (Hf _ _ Ho); [congruence|done].
Qed.

Lemma extinct_steps w w' f :
  safe w → drawn_before (w_amb w) f → extinct f (v_sessions (vw w)) → rtc served w w' →
  extinct f (v_sessions (vw w')).
Proof.
  intros Hw Hd Hf HS. induction HS as [w|w w1 w2 Hst _ IH]; [done|].
  destruct (safe_served _ _ Hw Hst) as (Hw1 & ? & _ & HE).
  apply IH; try done; [by eapply drawn_before_mono|by eapply extinct_effect].
Qed.

Lemma extinct_refuses w f raw k s r w' :
  inv w → extinct f (v_sessions (vw w)) → token_of raw k s (vw w) → Session_FamilyID s = f →
  run (cryden_RefreshToken e raw) w = (r, w') → is_ok r = false.
Proof.
  intros Hi Hf Ht HF Hrun.
  destruct (wp_elim _ _ _ _ _ Hrun (wp_RefreshToken e raw w Hi)) as (_ & _ & Hsp).
  destruct Hsp as [| | |res v1 at' a a' HR]; try done. exfalso.
  inversion HR as [| | | | |k' s' id raw' Hk' Hh' Hl']; subst.
  destruct (token_of_eq _ _ _ _ _ _ Ht Hk' Hh') as [-> ->]. by eapply Hf.
Qed.

(** A dead family stays dead: once no session of a family is live (after a
    detected reuse, for one), then after any further requests no session of it
    is, and no refresh token of the family is ever exchanged for new tokens. *)
Theorem dead_family_stays_dead w w' f :
  reachable w → is_Some (v_sessions (vw w) !! f) → extinct f (v_sessions (vw w)) →
  rtc served w w' →
  extinct f (v_sessions (vw w')) ∧
  ∀ raw k s r w'', token_of raw k s (vw w') → Session_FamilyID s = f →
    run (cryden_RefreshToken e raw) w' = (r, w'') → is_ok r = false.
Proof.
  intros Hr [rt Hrt] Hf HS. pose proof (reachable_safe _ Hr) as Hw.
  assert (extinct f (v_sessions (vw w'))) as Hf' by
    by eapply extinct_steps; [|by eapply safe_drawn| |].
  split; [done|]. intros raw k s r w'' Ht HF Hrun.
  destruct (safe_steps _ _ Hw HS) as ([Hi' _ _] & _ & _). by eapply extinct_refuses.
Qed.

Lemma audited_sessions ty user ip meta v v' :
  audited ty user ip meta v v' → v_sessions v' = v_sessions v.
Proof. by intros [(ev & _ & ->)|[_ ->]]. Qed.

(** After an exchange, the session of the token that was given is revoked. *)
Lemma exchanged_revoked w raw k s toks w' :
  safe w → token_of raw k s (vw w) → run (cryden_RefreshToken e raw) w = (Ok toks, w') →
  ∃ s', v_sessions (vw w') !! k = Some s' ∧ same_session s s' ∧ ¬ live s'.
Proof.
  intros Hw Ht Hrun.
  destruct (refresh_rotated e _ _ _ _ _ _ (safe_inv _ Hw) Ht Hrun)
    as (b' & id & kn & v1 & Hdr & Hkn & (t & t' & Hv) & HA).
  rewrite (audited_sessions _ _ _ _ _ _ HA), Hv. simpl.
  destruct (canon_session _ _ _ (safe_inv _ Hw) (proj1 Ht)) as (Hid & _). rewrite Hid.
  exists (set_RevokedAt s (Some t)). split; [|by split].
  rewrite lookup_insert_ne, lookup_insert_eq; [done|]. intros ->.
  eapply drawn_fresh; [done..|]. by eapply (safe_drawn _ Hw), (proj1 Ht).
Qed.

(** A reported reuse leaves the family without a live session, for good. *)
Lemma reported_family_extinct w w1 w2 raw k s :
  safe w → token_of raw k s (vw w) → ¬ live s →
  run (cryden_RefreshToken e raw) w = (Err ErrTokenReused, w1) → rtc served w1 w2 →
  extinct (Session_FamilyID s) (v_sessions (vw w2)).
Proof.
  intros Hw Ht Hl Hrun HS.
  assert (served w w1) as HS1.
  { exists (ReqRefreshToken raw). cbn [serve]. by rewrite run_unit, Hrun. }
  destruct (safe_served _ _ Hw HS1) as (Hw1 & Hle & _).
  destruct (refresh_reused e _ _ _ _ _ _ (safe_inv _ Hw) Ht Hl Hrun)
    as [(_ & v1 & Hkill & HA)|(_ & (e' & [= <-] & ?) & _)]; [|done].
  destruct (mi_rooted _ (safe_machine _ Hw) _ _ (proj1 Ht)) as (rt & Hrt & _).
  eapply (extinct_steps w1); [done| | |done].
  - eapply drawn_before_mono; [exact Hle|by eapply (safe_drawn _ Hw)].
  - intros k' s' Hs'. eapply family_killed_dead; [done|].
    by rewrite <- (audited_sessions _ _ _ _ _ _ HA).
Qed.

(** C6: the story of a stolen token, requests served one after the other. Whoever
    exchanges a refresh token first gets a successor; whoever presents the same token
    again, however many requests later, gets no tokens. If the answer is
    ErrTokenReused, then whatever requests are served next, one after the other, no
    session of the family is live and no token of the family, the successor and its
    successors included, can be exchanged any more. Over a storage without faults the
    answer is ErrTokenReused; where the storage fails at that moment the reuse may be
    answered with another error and the family stay as it was. *)
Theorem reused_token_ends_family w0 w1 w2 w3 w4 raw k s0 s2 toks r :
  reachable w0 → token_of raw k s0 (vw w0) →
  run (cryden_RefreshToken e raw) w0 = (Ok toks, w1) → rtc served w1 w2 →
  token_of raw k s2 (vw w2) → run (cryden_RefreshToken e raw) w2 = (r, w3) →
  rtc served w3 w4 →
  is_ok r = false ∧ (reliable = true → r = Err ErrTokenReused) ∧
  (r = Err ErrTokenReused →
     extinct (Session_FamilyID s0) (v_sessions (vw w4)) ∧
     ∀ raw' k' s' r' w', token_of raw' k' s' (vw w4) → Session_FamilyID s' = Session_FamilyID s0 →
       run (cryden_RefreshToken e raw') w4 = (r', w') → is_ok r' = false).
Proof.
  intros Hr0 Ht0 Hrun0 HS1 Ht2 Hrun2 HS3.
  pose proof (reachable_safe _ Hr0) as Hw0.
  assert (served w0 w1) as HS0.
  { exists (ReqRefreshToken raw). cbn [serve]. by rewrite run_unit, Hrun0. }
  assert (served w2 w3) as HS2.
  { exists (ReqRefreshToken raw). cbn [serve]. by rewrite run_unit, Hrun2. }
  destruct (safe_served _ _ Hw0 HS0) as (Hw1 & _).
  destruct (safe_steps _ _ Hw1 HS1) as (Hw2 & _).
  destruct (safe_served _ _ Hw2 HS2) as (Hw3 & _).
  destruct (safe_steps _ _ Hw3 HS3) as (Hw4 & _).
  assert (∃ s1, v_sessions (vw w1) !! k = Some s1 ∧ same_session s0 s1 ∧ ¬ live s1)
    as (s1 & Hs1 & Hsame & Hl1) by exact (exchanged_revoked _ _ _ _ _ _ Hw0 Ht0 Hrun0).
  destruct (session_settled _ _ _ _ _ Hw1 Hs1 HS1 (proj1 Ht2)) as [Hsame2 Hl2].
  assert (Session_FamilyID s2 = Session_FamilyID s0) as HF.
  { destruct Hsame as (_ & Hf1 & _), Hsame2 as (_ & Hf2 & _). congruence. }
  assert (¬ live s2) as Hdead by auto.
  destruct (refresh_reused e _ _ _ _ _ _ (safe_inv _ Hw2) Ht2 Hdead Hrun2)
    as [(-> & _)|(? & (e' & -> & Hne) & _)]; [|split_and!; [done|congruence..]].
  split_and!; [done..|]. intros _.
  pose proof (reported_family_extinct _ _ _ _ _ _ Hw2 Ht2 Hdead Hrun2 HS3) as Hext.
  rewrite HF in Hext. split; [done|]. intros raw' k' s' r' w' Ht' HF' Hrun'.
  eapply extinct_refuses; [by apply safe_inv|done..].
Qed.

End reachable.

(** ** Instances *)

Section witnesses.
#[local] Existing Instances sample_env sample_bcrypt sample_jwt.
#[local] Existing Instances sample_bcrypt_laws sample_jwt_laws.

#[local] Instance sample_unique : UniqueIDs (e_ids sample_engine).
Proof.
  apply UUIDv7Generator_unique. intros n m id [= <-] Hid. injection Hid as Hid. symmetry. by apply (inj pretty.pretty). 
Qed.

#[local] Instance sample_canonical : CanonicalIDs (S:=MemHeap) sample_engine.
Proof. split. by intros id k a a' _ [= ->]. Qed.

Lemma served_signed : served sample_engine mem_world0 w_signed.
Proof. exists (ReqSignUp alice "hunter2" home). cbn [serve]. by rewrite run_unit. Qed.
Lemma served_login : served sample_engine w_signed w_login.
Proof. exists (ReqLogin alice "hunter2" home "curl"). cbn [serve]. by rewrite run_unit. Qed.
Lemma served_refreshed : served sample_engine w_login w_refreshed.
Proof. exists (ReqRefreshToken raw1). cbn [serve]. by rewrite run_unit. Qed.

Lemma reachable_refreshed : reachable sample_engine w_refreshed.
Proof.
  exists mem_world0. split; [fixture_inv|]. split; [reflexivity|].
  eapply rtc_l; [exact served_signed|]. eapply rtc_l; [exact served_login|].
  apply rtc_once. exact served_refreshed.
Qed.

Lemma family_has_one_live_session_witness :
  one_live (v_sessions (view (w_store w_refreshed))).
Proof.
  exact (proj1 (family_has_one_live_session sample_engine w_refreshed reachable_refreshed)).
Defined.

(** The session rotated away stays revoked when its token is presented again. *)
Definition w_reused : World MemHeap := (run (cryden_RefreshToken sample_engine raw1) w_refreshed).2.

Lemma served_reused : rtc (served sample_engine) w_refreshed w_reused.
Proof. apply rtc_once. exists (ReqRefreshToken raw1). cbn [serve]. by rewrite run_unit. Qed.

Lemma revocation_is_final_witness : ¬ live (alice_session (Some (19 * Second))).
Proof.
  refine (proj1 (revocation_is_final sample_engine w_refreshed w_reused session1
    (alice_session (Some (19 * Second))) (alice_session (Some (19 * Second)))
    reachable_refreshed _ _ served_reused _)).
  - vm_compute. reflexivity.
  - discriminate.
  - vm_compute. reflexivity.
Defined.

Lemma reachable_login : reachable sample_engine w_login.
Proof.
  exists mem_world0. split; [fixture_inv|]. split; [reflexivity|].
  eapply rtc_l; [exact served_signed|]. apply rtc_once. exact served_login.
Qed.

Lemma token_of_login : token_of raw1 session1 (alice_session None) (view (w_store w_login)).
Proof. apply token_of_filter. vm_compute. reflexivity. Qed.

Lemma token_of_refreshed :
  token_of raw1 session1 (alice_session (Some (19 * Second))) (view (w_store w_refreshed)).
Proof. apply token_of_filter. vm_compute. reflexivity. Qed.

Lemma reused_token_ends_family_witness :
  (run (cryden_RefreshToken sample_engine raw1) w_refreshed).1 = Err ErrTokenReused ∧
  extinct session1 (v_sessions (view (w_store w_reused))).
Proof.
  destruct (run (cryden_RefreshToken sample_engine raw1) w_login) as [r0 w1] eqn:E0.
  destruct r0 as [toks|]; [|vm_compute in E0; discriminate E0].
  assert (w1 = w_refreshed) as -> by (unfold w_refreshed; by rewrite E0).
  destruct (reused_token_ends_family sample_engine w_login w_refreshed w_refreshed w_reused w_reused
    raw1 session1 (alice_session None) (alice_session (Some (19 * Second))) toks
    (run (cryden_RefreshToken sample_engine raw1) w_refreshed).1) as (_ & Hr & He).
  - exact reachable_login.
  - exact token_of_login.
  - exact E0.
  - apply rtc_refl.
  - exact token_of_refreshed.
  - unfold w_reused. by destruct (run _ w_refreshed).
  - apply rtc_refl.
  - specialize (Hr eq_refl). split; [exact Hr|exact (proj1 (He Hr))].
Defined.

Lemma extinct_b_sound f (m : gmap string Session) :
  forallb (λ p, negb (bool_decide (Session_FamilyID p.2 = f) && bool_decide (live p.2)))
    (map_to_list m) = true → extinct f m.
Proof.
  intros Hm%Is_true_eq_left%forallb_True. rewrite Forall_forall in Hm.
  intros k s Hk%elem_of_map_to_list Hf Hl. apply Hm in Hk. simpl in Hk.
  by rewrite !bool_decide_true in Hk by done.
Qed.

Lemma dead_family_stays_dead_witness : extinct session1 (v_sessions (view (w_store w_reused))).
Proof.
  assert (reachable sample_engine w_reused) as Hr.
  { destruct reachable_refreshed as (w0 & ? & ? & ?). exists w0. split_and!; [done..|].
    etrans; [done|exact served_reused]. }
  refine (proj1 (dead_family_stays_dead sample_engine w_reused w_reused session1 Hr _ _ _)).
  - vm_compute. eauto.
  - apply extinct_b_sound. vm_compute. reflexivity.
  - reflexivity.
Defined.

End witnesses.
