(* ===== verification/Interleaving.v ===== *)
(** * Interleavings, rely and guarantee

    Goroutines that serve requests concurrently are a pool of programs whose
    atomic actions interleave in any order; a new request may enter the pool at
    any moment. A program is shown safe by rely and guarantee: what it does is
    allowed whatever the others, which keep to the same rules, did in between.

    Two ghosts carry the history that the rules speak of: the IDs that have ever
    been a session's ([used]) and, for each program, the IDs it has drawn and not
    yet used ([owned]). Only its owner may turn an ID into a session. *)
From S2P Require Import Prelude Errors Runtime Store StoreSpec SessionMachine Logger RateLimiter.
From S2P Require Import World Security Token Logic.

(** ** Interleavings *)

Inductive pool_step {X A} (enter : Prog X A → Prop) :
    list (Prog X A) * X → list (Prog X A) * X → Prop :=
| pool_act ps i B (m : St X B) k x b x' :
    ps !! i = Some (Do m k) → m x = (b, x') →
    pool_step enter (ps, x) (<[i := k b]> ps, x')
| pool_enter ps p x :
    enter p → pool_step enter (ps, x) (ps ++ [p], x).

(** The pool after letting the programs act in the order of a schedule. *)
Fixpoint schedule {X A} (order : list nat) (ps : list (Prog X A)) (x : X) :
    list (Prog X A) * X :=
  match order with
  | [] => (ps, x)
  | i :: order =>
      match ps !! i with
      | Some (Do m k) => let '(b, x') := m x in schedule order (<[i := k b]> ps) x'
      | _ => schedule order ps x
      end
  end.

Lemma schedule_steps {X A} enter order (ps : list (Prog X A)) x :
  rtc (pool_step enter) (ps, x) (schedule order ps x).
Proof.
  revert ps x. induction order as [|i order IH]; intros ps x; simpl; [done|].
  destruct (ps !! i) as [[|B m k]|] eqn:Hi; [done| |done].
  destruct (m x) as [b x'] eqn:E. eapply rtc_l; [by eapply pool_act|done].
Qed.

(** All programs of a pool have come to an answer. *)
Definition all_answered {X A} (ps : list (Prog X A)) : Prop := Forall (λ p, ∃ a, p = Ret a) ps.

Lemma all_answered_b {X A} (ps : list (Prog X A)) :
  forallb (λ p, match p with Ret _ => true | _ => false end) ps = true → all_answered ps.
Proof.
  induction ps as [|[a|B m k] ps IH]; simpl; [by constructor| |done].
  intros Hps. constructor; [by eexists|by apply IH].
Qed.

(** Programs that enter one after the other. *)
Lemma pool_enter_all {X A} (enter : Prog X A → Prop) qs ps (x : X) :
  Forall enter qs → rtc (pool_step enter) (ps, x) (ps ++ qs, x).
Proof.
  intros Hqs. revert ps. induction Hqs as [|q qs Hq _ IH]; intros ps; [by rewrite app_nil_r|].
  eapply rtc_l; [by apply pool_enter|]. specialize (IH (ps ++ [q])).
  by rewrite <- (assoc (++)) in IH.
Qed.

(** ** Histories of sessions *)

Notation ids := (string → Prop) (only parsing).

(** The sessions and the used IDs move on: by steps of the machine, forgetting no
    used ID, and what is filed under a used ID was there before. *)
Record moved (m : gmap string Session) (used : ids) (m' : gmap string Session)
    (used' : ids) : Prop := {
  moved_steps : sess_steps m m';
  moved_used k : used k → used' k;
  moved_kept k s' : used k → m' !! k = Some s' → ∃ s, m !! k = Some s ∧ later s s';
}.

Lemma moved_refl m used : moved m used m used.
Proof. split; [done|done|]. eauto with cryden. Qed.

Lemma moved_trans m1 u1 m2 u2 m3 u3 : moved m1 u1 m2 u2 → moved m2 u2 m3 u3 → moved m1 u1 m3 u3.
Proof.
  intros [S1 U1 K1] [S2 U2 K2]. split; [by etrans|auto|]. intros k s3 Hk Hs3.
  destruct (K2 _ _ (U1 _ Hk) Hs3) as (s2 & Hs2 & ?). destruct (K1 _ _ Hk Hs2) as (s1 & ? & ?).
  exists s1. split; [done|by etrans].
Qed.

(** All sessions are filed under used IDs. *)
Definition covered (m : gmap string Session) (used : ids) : Prop :=
  ∀ k s, m !! k = Some s → used k.

(** A step that adds no session. *)
Lemma moved_quiet m m' used :
  covered m used → sess_step m m' → (∀ k, is_Some (m' !! k) → is_Some (m !! k)) →
  moved m used m' used ∧ covered m' used.
Proof.
  intros Hc HS Hk. split.
  - split; [by apply rtc_once|done|]. intros k s' _ Hs'. destruct (Hk k) as [s Hs]; [by eexists|].
    destruct (lookup_step_kept _ _ _ _ HS Hs) as [?|(s1 & ? & ?)]; [congruence|].
    simplify_eq. eauto.
  - intros k s' Hs'. destruct (Hk k) as [s Hs]; [by eexists|]. eauto.
Qed.

(** A step that adds one session under an unused ID. *)
Lemma moved_added m m' used n :
  covered m used → ¬ used n → sess_step m m' →
  (∀ k, is_Some (m' !! k) → k = n ∨ is_Some (m !! k)) →
  moved m used m' (λ k, used k ∨ k = n) ∧ covered m' (λ k, used k ∨ k = n).
Proof.
  intros Hc Hn HS Hk. split.
  - split; [by apply rtc_once|auto|]. intros k s' Hu Hs'.
    destruct (Hk k) as [->|[s Hs]]; [by eexists|done|].
    destruct (lookup_step_kept _ _ _ _ HS Hs) as [?|(s1 & ? & ?)]; [congruence|].
    simplify_eq. eauto.
  - intros k s' Hs'. destruct (Hk k) as [->|[s Hs]]; [by eexists|auto|eauto].
Qed.

(** A new ID counts as used even where the effect did not happen. *)
Lemma moved_spent m used n :
  covered m used → moved m used m (λ k, used k ∨ k = n) ∧ covered m (λ k, used k ∨ k = n).
Proof.
  intros Hc. split; [|intros k s Hs; left; eauto]. split; [done|auto|]. eauto with cryden.
Qed.

(** ** Rely and guarantee *)

Section rely.
Context {S : Type} `{StoreModel S, !StoreLaws}.
Context (gen : IDGenerator).

Implicit Types (w : World S) (owned used : ids).

Definition sess w : gmap string Session := v_sessions (vw w).

Definition drawn_by (b : Amb) (k : string) : Prop :=
  ∃ a a', IDGenerator_New gen a = (Ok k, a') ∧ amb_le a' b.

(** What holds at all times. *)
Record valid w used : Prop := {
  valid_inv : inv w;
  valid_covered : covered (sess w) used;
  valid_drawn k : used k → drawn_by (w_amb w) k;
}.

(** An ID of a program: drawn, and not a session's. *)
Definition own w used k : Prop := ¬ used k ∧ drawn_by (w_amb w) k.

(** What the others may do between two actions of a program. *)
Record rely w used w' used' : Prop := {
  rely_amb : amb_le (w_amb w) (w_amb w');
  rely_moved : moved (sess w) used (sess w') used';
}.

Lemma rely_refl w used : rely w used w used.
Proof. split; [done|apply moved_refl]. Qed.

Lemma rely_trans w1 u1 w2 u2 w3 u3 : rely w1 u1 w2 u2 → rely w2 u2 w3 u3 → rely w1 u1 w3 u3.
Proof. intros [] []. split; [by etrans|by eapply moved_trans]. Qed.

(** What an action of the owner of [owned] may do. *)
Record guar owned w used owned' w' used' : Prop := {
  guar_rely : rely w used w' used';
  guar_valid : valid w' used';
  guar_used k : used' k → used k ∨ owned k;
  guar_owned k : owned' k → owned k ∨ drawn gen (w_amb w) (w_amb w') k;
  guar_own k : owned' k → own w' used' k;
}.

(** [rg p owned Q w used]: from [w], and whatever the others do before each of its
    actions, [p] only does what is guaranteed and ends in a result with [Q]. *)
Fixpoint rg {A} (p : Prog (World S) A) owned (Q : A → ids → World S → ids → Prop) w used : Prop :=
  match p with
  | Ret a => Q a owned w used
  | Do m k => ∀ w1 used1, rely w used w1 used1 → valid w1 used1 → (∀ k, owned k → own w1 used1 k) →
      ∀ b w2, m w1 = (b, w2) →
        ∃ owned2 used2, guar owned w1 used1 owned2 w2 used2 ∧ rg (k b) owned2 Q w2 used2
  end.

#[global] Arguments rg : simpl never.

Lemma rg_ret {A} (a : A) owned (Q : A → ids → World S → ids → Prop) w used :
  Q a owned w used → rg (mret a) owned Q w used.
Proof. done. Qed.

Lemma rg_bind {A B} (f : A → Prog (World S) B) p owned Q w used :
  rg p owned (λ a o w u, rg (f a) o Q w u) w used → rg (p ≫= f) owned Q w used.
Proof.
  unfold mbind, Prog_bind. revert owned w used.
  induction p as [a|C m k IH]; intros owned w used; [done|].
  intros Hp w1 u1 Hr Hv Ho b w2 E. destruct (Hp _ _ Hr Hv Ho _ _ E) as (o2 & u2 & ? & ?).
  eauto.
Qed.

Lemma rg_mono {A} (p : Prog (World S) A) owned (Q R : A → ids → World S → ids → Prop) w used :
  (∀ a o w u, Q a o w u → R a o w u) → rg p owned Q w used → rg p owned R w used.
Proof.
  intros HQ. revert owned w used. induction p as [a|C m k IH]; intros owned w used; [apply HQ|].
  intros Hp w1 u1 Hr Hv Ho b w2 E. destruct (Hp _ _ Hr Hv Ho _ _ E) as (o2 & u2 & ? & ?).
  eauto.
Qed.

(** The others may act before a program is looked at again. *)
Lemma rg_stable {A} (p : Prog (World S) A) owned w used w' used' :
  rely w used w' used' → rg p owned (λ _ _ _ _, True) w used →
  rg p owned (λ _ _ _ _, True) w' used'.
Proof.
  intros Hm. destruct p as [a|C m k]; [done|]. intros Hp w1 u1 Hr. apply Hp.
  by eapply rely_trans.
Qed.

Lemma drawn_by_mono b b' k : amb_le b b' → drawn_by b k → drawn_by b' k.
Proof. intros ? (a & a' & ? & ?). exists a, a'. split; [done|by etrans]. Qed.

(** An action that uses no new ID. *)
Lemma guar_kept owned w1 w2 used :
  valid w1 used → (∀ k, owned k → own w1 used k) → amb_le (w_amb w1) (w_amb w2) → inv w2 →
  moved (sess w1) used (sess w2) used ∧ covered (sess w2) used →
  guar owned w1 used owned w2 used.
Proof.
  intros [] Ho Hle Hi [Hm Hc].
  split; [by split|split; eauto using drawn_by_mono|auto|auto|].
  intros k [? ?]%Ho. split; [done|by eapply drawn_by_mono].
Qed.

(** Actions that do not touch the storage. *)
Lemma rg_outside {A} (m : St (World S) A) owned (Q : A → ids → World S → ids → Prop) w used :
  (∀ w1 b w2, m w1 = (b, w2) → w_store w2 = w_store w1 ∧ amb_le (w_amb w1) (w_amb w2)) →
  (∀ b w2 used2, rely w used w2 used2 → Q b owned w2 used2) →
  rg (act m) owned Q w used.
Proof.
  intros Hm HQ w1 u1 Hr Hv Ho b w2 E. destruct (Hm _ _ _ E) as [Hs Hle].
  assert (sess w2 = sess w1) as Hss by (unfold sess; by rewrite Hs).
  assert (guar owned w1 u1 owned w2 u1) as Hg.
  { apply guar_kept; try done; [rewrite Hs; by apply valid_inv in Hv|].
    rewrite Hss. split; [apply moved_refl|by apply Hv]. }
  exists owned, u1. split; [done|]. apply HQ. eapply rely_trans; [done|apply Hg].
Qed.

Lemma rg_on_amb {A} (op : St Amb A) owned (Q : A → ids → World S → ids → Prop) w used :
  (∀ a r a', op a = (r, a') → amb_le a a') →
  (∀ b w2 used2, rely w used w2 used2 → Q b owned w2 used2) →
  rg (on_amb op) owned Q w used.
Proof.
  intros Hop. apply rg_outside. intros w1 b w2. destruct (op _) as [r a] eqn:E.
  intros [= _ <-]. eauto.
Qed.

Lemma rg_on_limiter {A} (op : St (LimiterState * Amb) A) owned
    (Q : A → ids → World S → ids → Prop) w used :
  (∀ l a r l' a', op (l, a) = (r, (l', a')) → amb_le a a') →
  (∀ b w2 used2, rely w used w2 used2 → Q b owned w2 used2) →
  rg (on_limiter op) owned Q w used.
Proof.
  intros Hop. apply rg_outside. intros w1 b w2. destruct (op _) as [r [l a]] eqn:E.
  intros [= _ <-]. eauto.
Qed.

Lemma rg_on_log op c owned (Q : () → ids → World S → ids → Prop) w used :
  (∀ a r a', op a = (r, a') → amb_le a a') →
  (∀ b w2 used2, rely w used w2 used2 → Q b owned w2 used2) →
  rg (on_log op c) owned Q w used.
Proof.
  intros Hop. apply rg_outside. intros w1 b w2. destruct (op _) as [r a] eqn:E.
  intros [= _ <-]. eauto.
Qed.

Lemma rg_send_mail sender `{!EmailSenderLaws sender} to raw owned
    (Q : result () → ids → World S → ids → Prop) w used :
  (∀ b w2 used2, rely w used w2 used2 → Q b owned w2 used2) →
  rg (send_mail sender to raw) owned Q w used.
Proof.
  apply rg_outside. intros w1 b w2.
  destruct (EmailSender_SendVerification _ _ _ _) as [r a] eqn:E. intros [= _ <-].
  split; [done|]. by eapply sender_amb.
Qed.

(** Drawing an ID: it is new, and from now on the program's own. *)
Lemma rg_draw `{!IDGeneratorLaws gen, !UniqueIDs gen} owned
    (Q : result string → ids → World S → ids → Prop) w used :
  (∀ e w2 used2, rely w used w2 used2 → Q (Err e) owned w2 used2) →
  (∀ id w2 used2, rely w used w2 used2 → Q (Ok id) (λ k, owned k ∨ k = id) w2 used2) →
  rg (on_amb (IDGenerator_New gen)) owned Q w used.
Proof.
  intros HE HQ w1 u1 Hr Hv Ho b w2.
  destruct (IDGenerator_New gen (w_amb w1)) as [r a] eqn:E. intros [= <- <-].
  pose proof (idgen_amb _ _ _ E) as Hle.
  assert (guar owned w1 u1 owned (with_amb w1 a) u1) as Hg.
  { apply guar_kept; try done; [by apply valid_inv in Hv|].
    split; [apply moved_refl|by apply Hv]. }
  destruct r as [id|e].
  - exists (λ k, owned k ∨ k = id), u1. split.
    + destruct Hg as [? ? Hu Ho1 Hd]. split; [done..| |].
      * intros k [?| ->]; [by left|]. right. exists (w_amb w1), a. by split_and!.
      * intros k [?| ->]; [auto|]. split; [|exists (w_amb w1), a; by split_and!].
        intros (a0 & a0' & Ha0 & Hle0)%(valid_drawn _ _ Hv).
        eapply (unique_ids a0 a0' (w_amb w1) a id); [exact Ha0|exact E|exact Hle0].
    + apply HQ. eapply rely_trans; [done|apply Hg].
  - exists owned, u1. split; [done|]. apply HE. eapply rely_trans; [done|apply Hg].
Qed.

(** ** Calls of the stores *)

(** The call adds no session. *)
Definition quiet_op {A} (op : Op S A) : Prop :=
  ∃ R, sat op R ∧ ∀ v r v' used, R v r v' → covered (v_sessions v) used →
    moved (v_sessions v) used (v_sessions v') used ∧ covered (v_sessions v') used.

Lemma rg_quiet_op {A} (op : Op S A) owned (Q : A → ids → World S → ids → Prop) w used :
  quiet_op op → (∀ b w2 used2, rely w used w2 used2 → Q b owned w2 used2) →
  rg (on_store op) owned Q w used.
Proof.
  intros (R & Hop & HR) HQ w1 u1 Hr Hv Ho b w2.
  destruct (op (w_store w1, w_amb w1)) as [r [s a]] eqn:E. intros [= <- <-].
  destruct (Hop _ _ _ _ _ (valid_inv _ _ Hv) E) as (Hi & Hle & Hr').
  assert (guar owned w1 u1 owned (with_store w1 s a) u1) as Hg.
  { apply guar_kept; try done. apply (HR _ _ _ _ Hr'), Hv. }
  exists owned, u1. split; [done|]. apply HQ. eapply rely_trans; [done|apply Hg].
Qed.

(** A query: what it answers was so at that moment. *)
Lemma rg_read {A} (op : Op S (result A)) P P' owned
    (Q : result A → ids → World S → ids → Prop) w used :
  sat op (reads P P') →
  (∀ r w2 used2, rely w used w2 used2 → valid w2 used2 → reads P P' (vw w2) r (vw w2) →
     Q r owned w2 used2) →
  rg (on_store op) owned Q w used.
Proof.
  intros Hop HQ w1 u1 Hr Hv Ho b w2.
  destruct (op (w_store w1, w_amb w1)) as [r [s a]] eqn:E. intros [= <- <-].
  destruct (Hop _ _ _ _ _ (valid_inv _ _ Hv) E) as (Hi & Hle & [Hview HP]).
  assert (guar owned w1 u1 owned (with_store w1 s a) u1) as Hg.
  { apply guar_kept; try done. unfold sess. simpl. rewrite Hview.
    split; [apply moved_refl|by apply Hv]. }
  exists owned, u1. split; [done|].
  apply HQ; [eapply rely_trans; [done|apply Hg]|apply Hg|]. simpl. by rewrite Hview.
Qed.

Lemma quiet_same {A} (op : Op S A) R :
  sat op R → (∀ v r v', R v r v' → v_sessions v' = v_sessions v) → quiet_op op.
Proof.
  intros Hop HR. exists R. split; [done|]. intros v r v' used Hr Hc. rewrite (HR _ _ _ Hr).
  split; [apply moved_refl|done].
Qed.

Lemma quiet_reads {A} (op : Op S (result A)) P Q : sat op (reads P Q) → quiet_op op.
Proof. intros Hop. eapply quiet_same; [done|]. by intros v r v' [-> _]. Qed.

(** The effect of a mutator, if it had one, is a step that adds no session. *)
Lemma quiet_mutates {A} (op : Op S (result A)) present E :
  sat op (mutates present E) →
  (∀ v x v', E v x v' → v_sessions v' = v_sessions v ∨
     (sess_step (v_sessions v) (v_sessions v') ∧
      ∀ k, is_Some (v_sessions v' !! k) → is_Some (v_sessions v !! k))) →
  quiet_op op.
Proof.
  intros Hop HE. eexists. split; [done|]. intros v r v' used Hr Hc.
  assert (v' = v ∨ ∃ x, E v x v') as [->|[x Hx]].
  { destruct r as [x|e]; [eauto|by destruct Hr]. }
  - split; [apply moved_refl|done].
  - destruct (HE _ _ _ Hx) as [->|[? ?]]; [by split; [apply moved_refl|]|by apply moved_quiet].
Qed.

(** A call that, if it had its effect, turned one of the program's own IDs into a
    session. The ID is spent in any case. *)
Lemma rg_adding_op {A} (op : Op S (result A)) present E owned id
    (Q : result A → ids → World S → ids → Prop) w used :
  sat op (mutates present E) → owned id →
  (∀ w1 used1 v' x, rely w used w1 used1 → valid w1 used1 → own w1 used1 id → E (vw w1) x v' →
     moved (sess w1) used1 (v_sessions v') (λ k, used1 k ∨ k = id) ∧
     covered (v_sessions v') (λ k, used1 k ∨ k = id)) →
  (∀ b w2 used2, rely w used w2 used2 → Q b (λ k, owned k ∧ k ≠ id) w2 used2) →
  rg (on_store op) owned Q w used.
Proof.
  intros Hop Hid HE HQ w1 u1 Hr Hv Ho b w2.
  destruct (op (w_store w1, w_amb w1)) as [r [s a]] eqn:E1. intros [= <- <-].
  destruct (Hop _ _ _ _ _ (valid_inv _ _ Hv) E1) as (Hi & Hle & Hr').
  assert (moved (sess w1) u1 (v_sessions (view s)) (λ k, u1 k ∨ k = id) ∧
          covered (v_sessions (view s)) (λ k, u1 k ∨ k = id)) as [Hm Hc].
  { assert (view s = vw w1 ∨ ∃ x, E (vw w1) x (view s)) as [->|[x Hx]];
      [|by apply moved_spent, Hv|by eapply HE; eauto].
    destruct r as [x|e]; [eauto|by destruct Hr']. }
  assert (guar owned w1 u1 (λ k, owned k ∧ k ≠ id) (with_store w1 s a) (λ k, u1 k ∨ k = id)) as Hg.
  { split; [by split|split; [done..|]| | |].
    - intros k [Hk| ->]; [by eapply drawn_by_mono, Hv|].
      by eapply drawn_by_mono, Ho.
    - intros k [?| ->]; auto.
    - intros k [? _]. auto.
    - intros k [[Hk ?]%Ho Hne]. split; [naive_solver|]. by eapply drawn_by_mono. }
  eexists _, _. split; [done|]. apply HQ. eapply rely_trans; [done|apply Hg].
Qed.

End rely.
