(* ===== verification/Mutex.v ===== *)
(** * The mutexes of the in-memory implementations

    store/memory and security/ratelimiter.go once more, a level further down: the
    statements of a method are steps of their own, between [mu.Lock()] and the deferred
    [mu.Unlock()], and those of other goroutines come in between. A mutex guards the
    map or slice beside it in its struct, which nothing else reads or writes; the clock
    is everybody's. *)
From stdpp Require Import functions.
From S2P Require Import Prelude Errors Runtime Store Memory RateLimiter World.

(** ** Critical sections *)

(** The statements under a mutex that guards a [D]: reads and writes of it, readings of
    the clock, and range statements, which visit the keys in an order of their own. *)
Inductive section (D A : Type) : Type :=
| Leave (a : A)
| Access (B : Type) (m : St D B) (k : B → section D A)
| Clock (k : time → section D A)
| Visit (keys : D → list string) (k : list string → section D A).
Arguments Leave {D A} a.
Arguments Access {D A B} m k.
Arguments Clock {D A} k.
Arguments Visit {D A} keys k.

Fixpoint section_bind {D A B} (f : A → section D B) (b : section D A) : section D B :=
  match b with
  | Leave a => f a
  | Access m k => Access m (λ x, section_bind f (k x))
  | Clock k => Clock (λ t, section_bind f (k t))
  | Visit keys k => Visit keys (λ l, section_bind f (k l))
  end.

#[export] Instance section_ret D : MRet (section D) := λ A a, Leave a.
#[export] Instance section_mbind D : MBind (section D) := λ A B f b, section_bind f b.

Definition access {D A} (m : St D A) : section D A := Access m Leave.
Definition now_held {D} : section D time := Clock Leave.

(** [v, ok := m[key]], [m[key] = v], [delete(m, key)] and [range m]. *)
Definition peek {V} (key : string) : section (gmap string V) (option V) :=
  access (λ m, (m !! key, m)).
Definition assign {V} (key : string) (v : V) : section (gmap string V) () :=
  access (st_modify <[key := v]>).
Definition remove {V} (key : string) : section (gmap string V) () :=
  access (st_modify (delete key)).
Definition keys_of {V} (m : gmap string V) : list string := (map_to_list m).*1.
Definition visit {V} : section (gmap string V) (list string) := Visit keys_of Leave.

(** [for _, v := range m { if P(v) { return v, nil } }] *)
Fixpoint find_held {V} (P : V → bool) (keys : list string) :
    section (gmap string V) (option V) :=
  match keys with
  | [] => mret None
  | k :: keys =>
      v ← peek k;
      match v with
      | Some v => if P v then mret (Some v) else find_held P keys
      | None => find_held P keys
      end
  end.

(** [for _, v := range m { if P(v) { out = append(out, v) } }] *)
Fixpoint collect_held {V} (P : V → bool) (keys : list string) (out : list V) :
    section (gmap string V) (list V) :=
  match keys with
  | [] => mret out
  | k :: keys =>
      v ← peek k;
      match v with
      | Some v => collect_held P keys (if P v then out ++ [v] else out)
      | None => collect_held P keys out
      end
  end.

(** [for id, sess := range s.byID { if P(sess) && sess.RevokedAt == nil {
    sess.RevokedAt = &now; s.byID[id] = sess } }] *)
Fixpoint revoke_held (P : Session → bool) (now : time) (keys : list string) :
    section (gmap string Session) () :=
  match keys with
  | [] => mret ()
  | id :: keys =>
      sess ← peek id;
      match sess with
      | Some sess =>
          if P sess && bool_decide (Session_RevokedAt sess = None)
          then assign id (set_RevokedAt sess (Some now));; revoke_held P now keys
          else revoke_held P now keys
      | None => revoke_held P now keys
      end
  end.

(** What a lookup by range answers. *)
Definition found {V} (v : option V) : result V :=
  match v with Some v => Ok v | None => Err ErrNotFound end.

(** ** UserStore *)

Notation users_section := (section (gmap string User)).

Definition MemUserStore_Create_held (user : User) : users_section (result ()) :=
  now ← now_held;
  assign (User_ID user) (set_UserTimes user now now);;
  mret (Ok ()).

Definition MemUserStore_GetByEmail_held (email : string) : users_section (result User) :=
  keys ← visit;
  u ← find_held (λ u, bool_decide (User_Email u = email)) keys;
  mret (found u).

Definition MemUserStore_GetByID_held (id : string) : users_section (result User) :=
  u ← peek id;
  mret (found u).

Definition MemUserStore_UpdateEmail_held (id newEmail : string) : users_section (result ()) :=
  u ← peek id;
  match u with
  | None => mret (Err ErrNotFound)
  | Some u => now ← now_held; assign id (set_Email u newEmail now);; mret (Ok ())
  end.

Definition MemUserStore_UpdatePasswordHash_held (id newHash : string) :
    users_section (result ()) :=
  u ← peek id;
  match u with
  | None => mret (Err ErrNotFound)
  | Some u => now ← now_held; assign id (set_PasswordHash u newHash now);; mret (Ok ())
  end.

Definition MemUserStore_Delete_held (id : string) : users_section (result ()) :=
  u ← peek id;
  match u with
  | None => mret (Err ErrNotFound)
  | Some _ => remove id;; mret (Ok ())
  end.

Definition MemUserStore_IncrementFailedAttempts_held (id : string) : users_section (result Z) :=
  u ← peek id;
  match u with
  | None => mret (Err ErrNotFound)
  | Some u =>
      let u := set_FailedAttempts u (int64 (User_FailedAttempts u + 1)) in
      assign id u;; mret (Ok (User_FailedAttempts u))
  end.

Definition MemUserStore_ResetFailedAttempts_held (id : string) : users_section (result ()) :=
  u ← peek id;
  match u with
  | None => mret (Err ErrNotFound)
  | Some u => assign id (set_LockedUntil (set_FailedAttempts u 0) None);; mret (Ok ())
  end.

Definition MemUserStore_LockAccount_held (id : string) (until : time) :
    users_section (result ()) :=
  u ← peek id;
  match u with
  | None => mret (Err ErrNotFound)
  | Some u => assign id (set_LockedUntil u (Some until));; mret (Ok ())
  end.

(** ** SessionStore *)

Notation sessions_section := (section (gmap string Session)).

Definition MemSessionStore_Create_held (sess : Session) : sessions_section (result ()) :=
  now ← now_held;
  assign (Session_ID sess) (set_SessionCreatedAt sess now);;
  mret (Ok ()).

Definition MemSessionStore_GetByID_held (sessionID : string) : sessions_section (result Session) :=
  sess ← peek sessionID;
  mret (found sess).

Definition MemSessionStore_GetByTokenHash_held (tokenHash : string) :
    sessions_section (result Session) :=
  keys ← visit;
  sess ← find_held (λ s, bool_decide (Session_TokenHash s = tokenHash)) keys;
  mret (found sess).

Definition MemSessionStore_ListByUser_held (userID : string) :
    sessions_section (result (list Session)) :=
  keys ← visit;
  out ← collect_held (λ s, bool_decide (Session_UserID s = userID ∧ Session_RevokedAt s = None))
          keys [];
  mret (Ok out).

Definition MemSessionStore_Revoke_held (sessionID : string) : sessions_section (result ()) :=
  sess ← peek sessionID;
  match sess with
  | None => mret (Err ErrNotFound)
  | Some sess =>
      now ← now_held; assign sessionID (set_RevokedAt sess (Some now));; mret (Ok ())
  end.

Definition MemSessionStore_RevokeFamily_held (familyID : string) : sessions_section (result ()) :=
  now ← now_held;
  keys ← visit;
  revoke_held (λ s, bool_decide (Session_FamilyID s = familyID)) now keys;;
  mret (Ok ()).

Definition MemSessionStore_RevokeAllForUser_held (userID : string) : sessions_section (result ()) :=
  now ← now_held;
  keys ← visit;
  revoke_held (λ s, bool_decide (Session_UserID s = userID)) now keys;;
  mret (Ok ()).

Definition MemSessionStore_RotateToken_held (oldSessionID : string) (newSession : Session) :
    sessions_section (result ()) :=
  old ← peek oldSessionID;
  match old with
  | None => mret (Err ErrNotFound)
  | Some old =>
      now ← now_held;
      assign oldSessionID (set_RevokedAt old (Some now));;
      assign (Session_ID newSession) (set_SessionCreatedAt newSession now);;
      mret (Ok ())
  end.

(** ** AuditStore *)

Notation events_section := (section (list AuditEvent)).

Definition MemAuditStore_Record_held (event : AuditEvent) : events_section (result ()) :=
  now ← now_held;
  access (st_modify (λ events, events ++ [set_EventCreatedAt event now]));;
  mret (Ok ()).

(** [for i := len(s.events) - 1; i >= 0 && len(out) < limit; i--], [i] being one more. *)
Fixpoint list_held (userID : string) (limit : Z) (i : nat) (out : list AuditEvent) :
    events_section (list AuditEvent) :=
  match i with
  | O => mret out
  | S i =>
      if bool_decide (Z.of_nat (length out) < limit) then
        e ← access (λ events, (events !! i, events));
        list_held userID limit i
          match e with
          | Some e => if bool_decide (AuditEvent_UserID e = userID) then out ++ [e] else out
          | None => out
          end
      else mret out
  end.

Definition MemAuditStore_ListByUser_held (userID : string) (limit : Z) :
    events_section (result (list AuditEvent)) :=
  n ← access (λ events, (length events, events));
  out ← list_held userID limit n [];
  mret (Ok out).

(** ** VerificationStore *)

Notation tokens_section := (section (gmap string VerificationToken)).

Definition MemVerificationStore_Create_held (vt : VerificationToken) : tokens_section (result ()) :=
  now ← now_held;
  assign (VerificationToken_ID vt) (set_TokenCreatedAt vt now);;
  mret (Ok ()).

Definition MemVerificationStore_GetByTokenHash_held (tokenHash : string) :
    tokens_section (result VerificationToken) :=
  keys ← visit;
  vt ← find_held (λ vt, bool_decide (VerificationToken_TokenHash vt = tokenHash)) keys;
  mret (found vt).

Definition MemVerificationStore_MarkUsed_held (id : string) : tokens_section (result ()) :=
  vt ← peek id;
  match vt with
  | None => mret (Err ErrNotFound)
  | Some vt => now ← now_held; assign id (set_UsedAt vt (Some now));; mret (Ok ())
  end.

(** ** InMemoryRateLimiter *)

(** [c.count++] goes through the pointer in the map. *)
Definition InMemoryRateLimiter_Allow_held (r : InMemoryRateLimiter) (key : string) :
    section LimiterState (result bool) :=
  now ← now_held;
  c ← peek key;
  let fresh := mkWindowCounter 1 (time_Add now (InMemoryRateLimiter_window r)) in
  match c with
  | None => assign key fresh;; mret (Ok true)
  | Some c =>
      if time_After now (windowCounter_windowEnd c) then assign key fresh;; mret (Ok true)
      else if bool_decide (InMemoryRateLimiter_limit r ≤ windowCounter_count c) then mret (Ok false)
      else
        assign key (mkWindowCounter (int64 (windowCounter_count c + 1))
                      (windowCounter_windowEnd c));;
        mret (Ok true)
  end.

(** ** What the goroutines share *)

(** A mutex per store and one for the limiter. *)
Inductive mutex : Set :=
| UserStore_mu | SessionStore_mu | AuditStore_mu | VerificationStore_mu
| InMemoryRateLimiter_mu.

#[export] Instance mutex_eq_dec : EqDecision mutex.
Proof. solve_decision. Defined.

Definition guarded (mu : mutex) : Type :=
  match mu with
  | UserStore_mu => gmap string User
  | SessionStore_mu => gmap string Session
  | AuditStore_mu => list AuditEvent
  | VerificationStore_mu => gmap string VerificationToken
  | InMemoryRateLimiter_mu => LimiterState
  end.

Record shared : Type := mkShared { sh_heap : MemHeap; sh_limiter : LimiterState }.

Definition sh_get (mu : mutex) : shared → guarded mu :=
  match mu with
  | UserStore_mu => λ s, mem_users (sh_heap s)
  | SessionStore_mu => λ s, mem_sessions (sh_heap s)
  | AuditStore_mu => λ s, mem_events (sh_heap s)
  | VerificationStore_mu => λ s, mem_tokens (sh_heap s)
  | InMemoryRateLimiter_mu => sh_limiter
  end.

Definition sh_put (mu : mutex) : guarded mu → shared → shared :=
  match mu with
  | UserStore_mu => λ m s, mkShared (set_users m (sh_heap s)) (sh_limiter s)
  | SessionStore_mu => λ m s, mkShared (set_sessions m (sh_heap s)) (sh_limiter s)
  | AuditStore_mu => λ l s, mkShared (set_events l (sh_heap s)) (sh_limiter s)
  | VerificationStore_mu => λ m s, mkShared (set_tokens m (sh_heap s)) (sh_limiter s)
  | InMemoryRateLimiter_mu => λ m s, mkShared (sh_heap s) m
  end.

(** ** Methods *)

Inductive method : mutex → Type → Type :=
| Users_Create (user : User) : method UserStore_mu (result ())
| Users_GetByEmail (email : string) : method UserStore_mu (result User)
| Users_GetByID (id : string) : method UserStore_mu (result User)
| Users_UpdateEmail (id newEmail : string) : method UserStore_mu (result ())
| Users_UpdatePasswordHash (id newHash : string) : method UserStore_mu (result ())
| Users_Delete (id : string) : method UserStore_mu (result ())
| Users_IncrementFailedAttempts (id : string) : method UserStore_mu (result Z)
| Users_ResetFailedAttempts (id : string) : method UserStore_mu (result ())
| Users_LockAccount (id : string) (until : time) : method UserStore_mu (result ())
| Sessions_Create (sess : Session) : method SessionStore_mu (result ())
| Sessions_GetByID (sessionID : string) : method SessionStore_mu (result Session)
| Sessions_GetByTokenHash (tokenHash : string) : method SessionStore_mu (result Session)
| Sessions_ListByUser (userID : string) : method SessionStore_mu (result (list Session))
| Sessions_Revoke (sessionID : string) : method SessionStore_mu (result ())
| Sessions_RevokeFamily (familyID : string) : method SessionStore_mu (result ())
| Sessions_RevokeAllForUser (userID : string) : method SessionStore_mu (result ())
| Sessions_RotateToken (oldSessionID : string) (newSession : Session) :
    method SessionStore_mu (result ())
| Audit_Record (event : AuditEvent) : method AuditStore_mu (result ())
| Audit_ListByUser (userID : string) (limit : Z) : method AuditStore_mu (result (list AuditEvent))
| Verifications_Create (vt : VerificationToken) : method VerificationStore_mu (result ())
| Verifications_GetByTokenHash (tokenHash : string) :
    method VerificationStore_mu (result VerificationToken)
| Verifications_MarkUsed (id : string) : method VerificationStore_mu (result ())
| Limiter_Allow (r : InMemoryRateLimiter) (key : string) :
    method InMemoryRateLimiter_mu (result bool).

(** Statement by statement, under the mutex. *)
Definition body {mu A} (c : method mu A) : section (guarded mu) A :=
  match c with
  | Users_Create user => MemUserStore_Create_held user
  | Users_GetByEmail email => MemUserStore_GetByEmail_held email
  | Users_GetByID id => MemUserStore_GetByID_held id
  | Users_UpdateEmail id email => MemUserStore_UpdateEmail_held id email
  | Users_UpdatePasswordHash id hash => MemUserStore_UpdatePasswordHash_held id hash
  | Users_Delete id => MemUserStore_Delete_held id
  | Users_IncrementFailedAttempts id => MemUserStore_IncrementFailedAttempts_held id
  | Users_ResetFailedAttempts id => MemUserStore_ResetFailedAttempts_held id
  | Users_LockAccount id until => MemUserStore_LockAccount_held id until
  | Sessions_Create sess => MemSessionStore_Create_held sess
  | Sessions_GetByID id => MemSessionStore_GetByID_held id
  | Sessions_GetByTokenHash hash => MemSessionStore_GetByTokenHash_held hash
  | Sessions_ListByUser user => MemSessionStore_ListByUser_held user
  | Sessions_Revoke id => MemSessionStore_Revoke_held id
  | Sessions_RevokeFamily family => MemSessionStore_RevokeFamily_held family
  | Sessions_RevokeAllForUser user => MemSessionStore_RevokeAllForUser_held user
  | Sessions_RotateToken old sess => MemSessionStore_RotateToken_held old sess
  | Audit_Record event => MemAuditStore_Record_held event
  | Audit_ListByUser user limit => MemAuditStore_ListByUser_held user limit
  | Verifications_Create vt => MemVerificationStore_Create_held vt
  | Verifications_GetByTokenHash hash => MemVerificationStore_GetByTokenHash_held hash
  | Verifications_MarkUsed id => MemVerificationStore_MarkUsed_held id
  | Limiter_Allow r key => InMemoryRateLimiter_Allow_held r key
  end.

(** As one action, the way Memory.v and RateLimiter.v have it. *)
Definition atomic `{Env} {mu A} (c : method mu A) : Prog (World MemHeap) A :=
  match c with
  | Users_Create user => on_store (MemUserStore_Create user)
  | Users_GetByEmail email => on_store (MemUserStore_GetByEmail email)
  | Users_GetByID id => on_store (MemUserStore_GetByID id)
  | Users_UpdateEmail id email => on_store (MemUserStore_UpdateEmail id email)
  | Users_UpdatePasswordHash id hash => on_store (MemUserStore_UpdatePasswordHash id hash)
  | Users_Delete id => on_store (MemUserStore_Delete id)
  | Users_IncrementFailedAttempts id => on_store (MemUserStore_IncrementFailedAttempts id)
  | Users_ResetFailedAttempts id => on_store (MemUserStore_ResetFailedAttempts id)
  | Users_LockAccount id until => on_store (MemUserStore_LockAccount id until)
  | Sessions_Create sess => on_store (MemSessionStore_Create sess)
  | Sessions_GetByID id => on_store (MemSessionStore_GetByID id)
  | Sessions_GetByTokenHash hash => on_store (MemSessionStore_GetByTokenHash hash)
  | Sessions_ListByUser user => on_store (MemSessionStore_ListByUser user)
  | Sessions_Revoke id => on_store (MemSessionStore_Revoke id)
  | Sessions_RevokeFamily family => on_store (MemSessionStore_RevokeFamily family)
  | Sessions_RevokeAllForUser user => on_store (MemSessionStore_RevokeAllForUser user)
  | Sessions_RotateToken old sess => on_store (MemSessionStore_RotateToken old sess)
  | Audit_Record event => on_store (MemAuditStore_Record event)
  | Audit_ListByUser user limit => on_store (MemAuditStore_ListByUser user limit)
  | Verifications_Create vt => on_store (MemVerificationStore_Create vt)
  | Verifications_GetByTokenHash hash => on_store (MemVerificationStore_GetByTokenHash hash)
  | Verifications_MarkUsed id => on_store (MemVerificationStore_MarkUsed id)
  | Limiter_Allow r key => on_limiter (InMemoryRateLimiter_Allow r key)
  end.

(** ** Goroutines *)

(** A client calls methods and reads the clock; what it does next depends on the answers. *)
Inductive client (A : Type) : Type :=
| Return (a : A)
| Call {mu B} (c : method mu B) (k : B → client A)
| ReadClock (k : time → client A).
Arguments Return {A} a.
Arguments Call {A mu B} c k.
Arguments ReadClock {A} k.

(** With every call one action. *)
Fixpoint in_actions `{Env} {A} (p : client A) : Prog (World MemHeap) A :=
  match p with
  | Return a => mret a
  | Call c k => r ← atomic c; in_actions (k r)
  | ReadClock k => now ← on_amb time_Now; in_actions (k now)
  end.

(** A goroutine is outside the methods or in the critical section of one. *)
Inductive goroutine (A : Type) : Type :=
| Outside (p : client A)
| Inside (mu : mutex) (B : Type) (b : section (guarded mu) B) (k : B → client A).
Arguments Outside {A} p.
Arguments Inside {A} mu {B} b k.

Definition in_section {A} (th : goroutine A) : option mutex :=
  match th with Outside _ => None | Inside mu _ _ => Some mu end.

Record process (A : Type) : Type := mkProcess {
  pr_goroutines : list (goroutine A);
  pr_shared : shared;
  pr_locked : mutex → bool;
  pr_clock : time;
}.
Arguments mkProcess {A} _ _ _ _.
Arguments pr_goroutines {A} _.
Arguments pr_shared {A} _.
Arguments pr_locked {A} _ _.
Arguments pr_clock {A} _.

(** One statement of a critical section. *)
Definition statement {D A} (b : section D A) (d : D) (t : time)
    (b' : section D A) (d' : D) (t' : time) : Prop :=
  match b with
  | Leave _ => False
  | Access m k => b' = k (m d).1 ∧ d' = (m d).2 ∧ t' = t
  | Clock k => t ≤ t' ∧ b' = k t' ∧ d' = d
  | Visit keys k => ∃ l, l ≡ₚ keys d ∧ b' = k l ∧ d' = d ∧ t' = t
  end.

(** The steps of one goroutine; [Lock] waits until the mutex is free, and the deferred
    [Unlock] frees it when the method returns. *)
Inductive goroutine_step {A} :
    goroutine A → shared → (mutex → bool) → time →
    goroutine A → shared → (mutex → bool) → time → Prop :=
| gr_lock mu B (c : method mu B) k s locked t :
    locked mu = false →
    goroutine_step (Outside (Call c k)) s locked t (Inside mu (body c) k) s (<[mu := true]> locked) t
| gr_statement mu B (b b' : section _ B) k s locked t d' t' :
    statement b (sh_get mu s) t b' d' t' →
    goroutine_step (Inside mu b k) s locked t (Inside mu b' k) (sh_put mu d' s) locked t'
| gr_unlock mu B (r : B) k s locked t :
    goroutine_step (Inside mu (Leave r) k) s locked t (Outside (k r)) s (<[mu := false]> locked) t
| gr_clock k s locked t t' :
    t ≤ t' → goroutine_step (Outside (ReadClock k)) s locked t (Outside (k t')) s locked t'.

Inductive process_step {A} : process A → process A → Prop :=
| process_goes ths i th th' s locked t s' locked' t' :
    ths !! i = Some th → goroutine_step th s locked t th' s' locked' t' →
    process_step (mkProcess ths s locked t) (mkProcess (<[i := th']> ths) s' locked' t').

(** Goroutines that are about to start, no mutex being held. *)
Definition process_start {A} (ps : list (client A)) (s : shared) (t : time) : process A :=
  mkProcess (Outside <$> ps) s (λ _, false) t.
