(* ===== verification/MutexMethods.v ===== *)
(** * The moment at which a method takes effect

    Each method of Mutex.v has one statement, the reading of the clock if there is one,
    after which its outcome is settled, and settled as the single action of Memory.v or
    RateLimiter.v could have done at that moment ([methods_commit]). *)
From stdpp Require Import functions.
From S2P Require Import Prelude Errors Runtime Store StoreSpec Memory MemoryContract RateLimiter World.
From S2P Require Import Mutex.

(** ** What a critical section will come to *)

(** From [d] the rest of the section answers [r] and leaves [d'], whatever the clock
    says and in whatever order keys are visited. *)
Fixpoint sure {D A} (b : section D A) (d : D) (r : A) (d' : D) : Prop :=
  match b with
  | Leave a => a = r ∧ d = d'
  | Access m k => sure (k (m d).1) (m d).2 r d'
  | Clock k => ∀ t, sure (k t) d r d'
  | Visit keys k => ∀ l, l ≡ₚ keys d → sure (k l) d r d'
  end.

(** There is one moment, on the way or at the end, from which on that is so; [O] allows
    the outcome at that moment. *)
Fixpoint commits {D A} (O : time → A → D → Prop) (b : section D A) (d : D) : Prop :=
  (∃ r d', (∀ t, O t r d') ∧ sure b d r d') ∨
  match b with
  | Leave _ => False
  | Access m k => commits O (k (m d).1) (m d).2
  | Clock k => ∀ t, ∃ r d', O t r d' ∧ sure (k t) d r d'
  | Visit keys k => ∀ l, l ≡ₚ keys d → ∃ r d', (∀ t, O t r d') ∧ sure (k l) d r d'
  end.

Lemma sure_bind {D A B} (f : A → section D B) b d r d' r2 d2 :
  sure b d r d' → sure (f r) d' r2 d2 → sure (b ≫= f) d r2 d2.
Proof.
  unfold mbind, section_mbind. revert d.
  induction b as [a|C m k IH|k IH|keys k IH]; intros d; simpl; [by intros [-> ->]|eauto..].
Qed.

Lemma sure_statement {D A} (b b' : section D A) d d1 t t' r d' :
  sure b d r d' → statement b d t b' d1 t' → sure b' d1 r d'.
Proof.
  destruct b as [a|C m k|k|keys k]; simpl; [done| | |].
  - by intros ? (-> & -> & _).
  - intros Hs (_ & -> & ->). apply Hs.
  - intros Hs (l & Hl & -> & -> & _). by apply Hs.
Qed.

Lemma commits_sure {D A} (O : time → A → D → Prop) b d r d' :
  (∀ t, O t r d') → sure b d r d' → commits O b d.
Proof. intros. destruct b; left; eauto. Qed.

(** A statement goes on to the moment, or is it. *)
Lemma commits_statement {D A} (O : time → A → D → Prop) b d t b' d1 t' :
  commits O b d → statement b d t b' d1 t' →
  commits O b' d1 ∨ ∃ r d', O t' r d' ∧ sure b' d1 r d'.
Proof.
  intros Hc HS. assert (∀ r d', (∀ t, O t r d') → sure b d r d' → commits O b' d1) as Hleft.
  { intros r d' HO Hs. eapply commits_sure; [exact HO|by eapply sure_statement]. }
  destruct b as [a|C m k|k|keys k]; simpl in *; destruct Hc as [(r & d' & HO & Hs)|Hc];
    eauto; try done.
  - destruct HS as (-> & -> & _). by left.
  - destruct HS as (_ & -> & ->). right. apply Hc.
  - destruct HS as (l & Hl & -> & -> & _). right. destruct (Hc l Hl) as (r & d' & ? & ?). eauto.
Qed.

Lemma statement_clock {D A} (b b' : section D A) d t d' t' : statement b d t b' d' t' → t ≤ t'.
Proof.
  destruct b; simpl; [done| | |]; [intros (_ & _ & ->)|intros (? & _)|intros (? & _ & _ & _ & ->)]; lia.
Qed.

(** *** The loops *)

(** What a range statement reads when it visits [keys]. *)
Definition entries {V} (m : gmap string V) (keys : list string) : list (string * V) :=
  omap (λ k, pair k <$> m !! k) keys.

Lemma entries_keys {V} (m : gmap string V) l : l ≡ₚ keys_of m → entries m l ≡ₚ map_to_list m.
Proof.
  unfold entries, keys_of. intros ->.
  assert (∀ es, (∀ k v, (k, v) ∈ es → m !! k = Some v) →
    omap (λ k, pair k <$> m !! k) es.*1 = es) as Hes.
  { induction es as [|[k v] es IH]; intros Hin; [done|]. csimpl.
    rewrite (Hin k v) by left. simpl. f_equal. apply IH. intros i x Hi. apply Hin. by right. }
  rewrite Hes; [done|]. intros k v. by rewrite elem_of_map_to_list.
Qed.

Lemma sure_find {V} (P : V → bool) l (m : gmap string V) :
  sure (find_held P l) m (range_find P (entries m l)) m.
Proof.
  unfold range_find, entries. induction l as [|k l IH]; [done|]. csimpl.
  destruct (m !! k) as [v|]; csimpl; [|done].
  rewrite filter_cons. simpl. destruct (P v); simpl; done.
Qed.

Lemma sure_collect {V} (P : V → bool) l out (m : gmap string V) :
  sure (collect_held P l out) m (out ++ filter (λ v, P v = true) (entries m l).*2) m.
Proof.
  unfold entries. revert out. induction l as [|k l IH]; intros out; [by rewrite app_nil_r|]. csimpl.
  destruct (m !! k) as [v|]; csimpl; [|done]. rewrite filter_cons.
  pose proof (IH (out ++ [v])) as Hv. rewrite <- (assoc (++)) in Hv. by destruct (P v).
Qed.

Lemma sure_revoke P now l (m m0 : gmap string Session) :
  NoDup l → (∀ k, k ∈ l → m0 !! k = m !! k) →
  sure (revoke_held P now l) m0 () (range_revoke P now (entries m l) m0).
Proof.
  unfold range_revoke, entries. revert m0. induction l as [|k l IH]; intros m0; [done|].
  intros [Hk Hnd]%NoDup_cons Hm. csimpl. rewrite (Hm k) by left.
  assert (∀ i, i ∈ l → i ≠ k) as Hne by (intros i Hi ->; done).
  destruct (m !! k) as [s|]; csimpl; [|by apply IH; [|intros; apply Hm; right]].
  destruct (P s && _); csimpl; apply IH; try done; intros i Hi.
  - rewrite lookup_insert_ne by (symmetry; by apply Hne). apply Hm. by right.
  - apply Hm. by right.
Qed.

Lemma sure_list userID limit i out (events : list AuditEvent) :
  (i ≤ length events)%nat →
  sure (list_held userID limit i out) events
    (list_loop userID limit (reverse (take i events)) out) events.
Proof.
  revert out. induction i as [|i IH]; intros out Hi; [done|].
  destruct (lookup_lt_is_Some_2 events i) as [e He]; [lia|].
  rewrite (take_S_r _ _ _ He), reverse_app. simpl.
  case_bool_decide; [|done]. simpl. rewrite He. apply IH. lia.
Qed.

(** ** An environment that answers as a statement was answered *)

(** The time that event [n] takes; the others take none. *)
Definition elapsed_at (n : nat) (elapsed : N) (k : nat) : N :=
  if decide (k = n) then elapsed else 0%N.

Definition answering (n : nat) (elapsed : N) (rank : string → Z) : Env := {|
  env_elapsed := elapsed_at n elapsed; env_range _ := rank; env_rand_err _ := None;
  env_rand_byte _ _ := Ascii.zero; env_uuid _ := Ok EmptyString; env_send _ := None;
  env_db_fault _ := NoFault; env_db_now _ := 0; env_db_uuid _ := EmptyString |}.

Lemma elapsed_here n e : elapsed_at n e n = e.
Proof. unfold elapsed_at. by rewrite decide_True. Qed.

Lemma elapsed_next n e : elapsed_at n e (S n) = 0%N.
Proof. unfold elapsed_at. rewrite decide_False by lia. done. Qed.

Lemma elapsed_none n k : elapsed_at n 0 k = 0%N.
Proof. unfold elapsed_at. by case_decide. Qed.

#[global] Arguments elapsed_at : simpl never.

Definition rank_of (l : list string) (k : string) : Z :=
  default 0 (Z.of_nat ∘ fst <$> list_find (k =.) l).

Lemma rank_of_lookup l i k : NoDup l → l !! i = Some k → rank_of l k = Z.of_nat i.
Proof.
  intros Hnd Hi. unfold rank_of. replace (list_find (k =.) l) with (Some (i, k)); [done|].
  symmetry. apply list_find_Some. split_and!; [done..|].
  intros j y Hj Hji ->. pose proof (NoDup_lookup _ _ _ _ Hnd Hi Hj). lia.
Qed.

Lemma entries_lookup {V} (m : gmap string V) l i p :
  (∀ k, k ∈ l → is_Some (m !! k)) → entries m l !! i = Some p → l !! i = Some p.1.
Proof.
  unfold entries. revert i. induction l as [|k l IH]; intros i Hin; [done|]. csimpl.
  destruct (Hin k) as [v ->]; [left|]. csimpl. destruct i as [|i]; simpl; [by intros [= <-]|].
  apply IH. intros. apply Hin. by right.
Qed.

Lemma keys_of_lookup {V} (m : gmap string V) k : k ∈ keys_of m → is_Some (m !! k).
Proof.
  unfold keys_of. intros ([k' v] & -> & Hin)%list_elem_of_fmap.
  apply elem_of_map_to_list in Hin. by eexists.
Qed.

Lemma StronglySorted_lookup {A} (R : relation A) (l : list A) :
  (∀ i j x y, (i < j)%nat → l !! i = Some x → l !! j = Some y → R x y) → StronglySorted R l.
Proof.
  induction l as [|x l IH]; intros HR; [constructor|]. apply StronglySorted_cons. split.
  - apply Forall_lookup. intros j y Hj. apply (HR O (S j)); [lia|done..].
  - apply IH. intros i j a b Hij Ha Hb. apply (HR (S i) (S j)); [lia|done..].
Qed.

(** Every order of the keys is one that some environment picks. *)
Lemma range_order_answering {V} (m : gmap string V) l n e k :
  l ≡ₚ keys_of m → @range_order (answering n e (rank_of l)) V k m = entries m l.
Proof.
  intros Hl. pose proof (entries_keys m l Hl) as Hes.
  assert (NoDup l) as Hnd by (rewrite Hl; apply NoDup_fst_map_to_list).
  assert (∀ i p, entries m l !! i = Some p → rank_of l p.1 = Z.of_nat i ∧ l !! i = Some p.1) as Hrank.
  { intros i p Hi. apply entries_lookup in Hi; [by split; [apply rank_of_lookup|]|].
    intros k'. rewrite Hl. apply keys_of_lookup. }
  apply (StronglySorted_unique_strong (@range_before (answering n e (rank_of l)) V k)).
  - intros p1 p2 Hp1 [j Hj]%list_elem_of_lookup. unfold range_before. simpl. intros H1 H2.
    unfold range_order in Hp1. rewrite merge_sort_Permutation, <- Hes in Hp1.
    apply list_elem_of_lookup in Hp1 as [i Hi].
    destruct (Hrank _ _ Hi) as [E1 _], (Hrank _ _ Hj) as [E2 _].
    assert (i = j) as -> by lia. congruence.
  - unfold range_order. apply StronglySorted_merge_sort; intros ? ?; unfold range_before; lia.
  - apply StronglySorted_lookup. intros i j p q Hij Hi Hj. unfold range_before. simpl.
    destruct (Hrank _ _ Hi) as [-> _], (Hrank _ _ Hj) as [-> _]. lia.
  - unfold range_order. by rewrite merge_sort_Permutation.
Qed.

(** ** Each method has its moment *)

Definition shared_of (w : World MemHeap) : shared := mkShared (w_store w) (w_limiter w).
Definition with_shared (w : World MemHeap) (s : shared) (a : Amb) : World MemHeap :=
  mkWorld (sh_heap s) (sh_limiter s) a (w_log w) (w_out w) (w_mail w).

(** As one action no later than [now], in some environment, the call answers [r] and
    turns what its mutex guards from [d] into [d']. *)
Definition takes {mu B} (c : method mu B) (d : guarded mu) (now : time) (r : B)
    (d' : guarded mu) : Prop :=
  ∀ w, sh_get mu (shared_of w) = d → amb_time (w_amb w) ≤ now →
  ∃ (E : Env) a', amb_le (w_amb w) a' ∧ amb_time a' ≤ now ∧
    run (atomic c) w = (r, with_shared w (sh_put mu d' (shared_of w)) a').

Lemma elapse t now : t ≤ now → t + Z.of_N (Z.to_N (now - t)) = now.
Proof. lia. Qed.

Lemma still t : t + Z.of_N 0 = t.
Proof. lia. Qed.

Create HintDb memory.
#[export] Hint Unfold on_store on_limiter act with_store with_limiter
  MemUserStore_Create MemUserStore_GetByEmail MemUserStore_GetByID MemUserStore_UpdateEmail
  MemUserStore_UpdatePasswordHash MemUserStore_Delete MemUserStore_IncrementFailedAttempts
  MemUserStore_ResetFailedAttempts MemUserStore_LockAccount
  MemSessionStore_Create MemSessionStore_GetByID MemSessionStore_GetByTokenHash
  MemSessionStore_ListByUser MemSessionStore_Revoke MemSessionStore_RevokeFamily
  MemSessionStore_RevokeAllForUser MemSessionStore_RotateToken
  MemAuditStore_Record MemAuditStore_ListByUser
  MemVerificationStore_Create MemVerificationStore_GetByTokenHash MemVerificationStore_MarkUsed
  InMemoryRateLimiter_Allow allow_at : memory.

(** Uses what is known to be in the maps. *)
Ltac known :=
  repeat match goal with
  | H : _ !! _ = _ |- _ => rewrite H; mem_unfold
  | H : time_After _ _ = _ |- _ => rewrite H; mem_unfold
  | H : bool_decide _ = _ |- _ => rewrite H; mem_unfold
  end.

(** Runs a method as one action. *)
Ltac run_method :=
  unfold run; cbn [atomic]; autounfold with memory; mem_unfold; known;
  rewrite ?elapsed_here, ?elapsed_next, ?elapsed_none, ?still.

(** The clock says [now] when the method looks. *)
Ltac take_clock now :=
  let h := fresh "h" in let n := fresh "n" in let t := fresh "t" in let Hle := fresh in
  intros [[] l [n t] lg out ml] <- Hle; cbn in *;
  exists (answering n (Z.to_N (now - t)) (λ _, 0)); run_method;
  rewrite ?(elapse _ _ Hle), ?range_revoke_spec, ?still; known; eexists (mkAmb _ now);
  split; [|split; [|reflexivity]]; unfold amb_le; cbn; lia.

(** The keys [l] come in this order, as [Hl] says they may. *)
Ltac take_order Hl :=
  let h := fresh "h" in let n := fresh "n" in let t := fresh "t" in let Hle := fresh in
  intros now [[] ? [n t] lg out ml] <- Hle; cbn in *;
  match type of Hl with ?l ≡ₚ _ => exists (answering n 0 (rank_of l)) end; run_method;
  rewrite (range_order_answering _ _ _ _ _ Hl); eexists (mkAmb (Datatypes.S n) t);
  split; [unfold amb_le; cbn; lia|split; [cbn; lia|]].

Lemma takes_quiet {mu B} (c : method mu B) d r d' :
  (∀ `{Env} w, sh_get mu (shared_of w) = d →
     run (atomic c) w = (r, with_shared w (sh_put mu d' (shared_of w)) (w_amb w))) →
  ∀ now, takes c d now r d'.
Proof.
  intros Hc now w Hw Hle. exists (answering 0 0 (λ _, 0)), (w_amb w). by split_and!; [| |apply Hc].
Qed.

Section moments.
Context {D A : Type} (O : time → A → D → Prop).

Lemma commits_access {B} (m : St D B) k d :
  commits O (k (m d).1) (m d).2 → commits O (Access m k) d.
Proof. by right. Qed.

Lemma commits_clock k d :
  (∀ t, ∃ r d', O t r d' ∧ sure (k t) d r d') → commits O (Clock k) d.
Proof. by right. Qed.

Lemma commits_visit keys k d :
  (∀ l, l ≡ₚ keys d → ∃ r d', (∀ t, O t r d') ∧ sure (k l) d r d') → commits O (Visit keys k) d.
Proof. by right. Qed.

End moments.

Create HintDb held.
#[export] Hint Unfold now_held peek assign remove visit access
  MemUserStore_Create_held MemUserStore_GetByEmail_held MemUserStore_GetByID_held
  MemUserStore_UpdateEmail_held MemUserStore_UpdatePasswordHash_held MemUserStore_Delete_held
  MemUserStore_IncrementFailedAttempts_held MemUserStore_ResetFailedAttempts_held
  MemUserStore_LockAccount_held MemSessionStore_Create_held MemSessionStore_GetByID_held
  MemSessionStore_GetByTokenHash_held MemSessionStore_ListByUser_held
  MemSessionStore_Revoke_held MemSessionStore_RevokeFamily_held
  MemSessionStore_RevokeAllForUser_held MemSessionStore_RotateToken_held
  MemAuditStore_Record_held MemAuditStore_ListByUser_held MemVerificationStore_Create_held
  MemVerificationStore_GetByTokenHash_held MemVerificationStore_MarkUsed_held
  InMemoryRateLimiter_Allow_held : held.

Ltac held_unfold :=
  autounfold with held; unfold mbind, mret, section_mbind, section_ret; cbn [section_bind].

(** Walks to the moment of a method that visits no keys. *)
Ltac moment :=
  repeat lazymatch goal with
  | |- commits _ (Access _ _) _ => apply commits_access; cbn [fst snd st_modify section_bind]
  | |- commits _ (section_bind _ (match ?x with _ => _ end)) _ => destruct x eqn:?; cbn [section_bind]
  | |- commits _ (match ?x with _ => _ end) _ => destruct x eqn:?; cbn [section_bind]
  | |- commits _ (Clock _) _ =>
      let now := fresh "now" in
      apply commits_clock; intros now; eexists _, _; split; [take_clock now|split; reflexivity]
  | |- commits _ (Leave _) _ =>
      eapply commits_sure; [|split; reflexivity];
      apply takes_quiet; intros ? [[] ?] <-; cbn in *; run_method; reflexivity
  end.

Lemma sure_found {V} (P : V → bool) l (m : gmap string V) :
  sure (section_bind (λ v, Leave (found v)) (find_held P l)) m (found (range_find P (entries m l))) m.
Proof. eapply (sure_bind (λ v, Leave (found v))); [apply sure_find|done]. Qed.

(** The two revoking loops leave the same whatever the order. *)
Lemma sure_revoked (P : Session → Prop) `{∀ s, Decision (P s)} now l (m : gmap string Session) :
  l ≡ₚ keys_of m →
  sure (section_bind (λ _, Leave (Ok ())) (revoke_held (λ s, bool_decide (P s)) now l)) m
    (Ok ()) (revoke_where P now <$> m).
Proof.
  intros Hl. eapply (sure_bind (λ _, Leave (Ok ()))).
  - apply sure_revoke; [|done]. rewrite Hl. apply NoDup_fst_map_to_list.
  - split; [done|]. by rewrite <- (range_order_answering m l 0 0 0 Hl), range_revoke_spec.
Qed.

Lemma methods_commit {mu B} (c : method mu B) d : commits (takes c d) (body c) d.
Proof.
  destruct c; cbn [body guarded sh_get] in *; 
  try (held_unfold; moment; fail).
  - held_unfold. apply commits_visit. intros l Hl. eexists _, _. split; [|apply sure_found].
    take_order Hl. by destruct (range_find _ _).
  - held_unfold. destruct (d !! id) eqn:?; moment.
  - held_unfold. destruct (d !! sessionID) eqn:?; moment.
  - held_unfold. apply commits_visit. intros l Hl. eexists _, _. split; [|apply sure_found].
    take_order Hl. by destruct (range_find _ _).
  - held_unfold. apply commits_visit. intros l Hl. eexists _, _. split.
    2: { eapply (sure_bind (λ out, Leave (Ok out))); [apply sure_collect|done]. }
    take_order Hl. by rewrite (list_filter_iff _ _ _ (λ s, bool_decide_eq_true _)).
  - held_unfold. apply commits_clock. intros now. eexists _, _.
    split; [|intros l Hl; by apply (sure_revoked (λ s, Session_FamilyID s = familyID))]. take_clock now.
  - held_unfold. apply commits_clock. intros now. eexists _, _.
    split; [|intros l Hl; by apply (sure_revoked (λ s, Session_UserID s = userID))]. take_clock now.
  - held_unfold. apply commits_access. cbn [fst snd]. eapply commits_sure.
    2: { eapply (sure_bind (λ out, Leave (Ok out))); [by apply sure_list|done]. }
    rewrite take_ge by done. apply takes_quiet; intros ? [[] ?] <-; cbn in *; run_method; reflexivity.
  - held_unfold. apply commits_visit. intros l Hl. eexists _, _. split; [|apply sure_found].
    take_order Hl. by destruct (range_find _ _).
  - held_unfold. apply commits_clock. intros now.
    destruct (d !! key) as [c|] eqn:?;
      [destruct (time_After now (windowCounter_windowEnd c)) eqn:?;
        [|destruct (bool_decide (InMemoryRateLimiter_limit r ≤ windowCounter_count c)) eqn:?]|];
      eexists _, _.
    all: (split; [take_clock now|]).
    all: cbn; rewrite ?Heqo, ?Heqb, ?Heqb0; split; reflexivity.
Qed.
