(* ===== verification/MutexTheorems.v ===== *)
(** * A method under its mutex is one action

    Every run of the goroutines of Mutex.v is one of the interleavings of Interleaving.v,
    in which a call of a store or of the limiter is a single action: taking a call for
    one action, as the handlers' interleavings do, loses none of its behaviours. And no
    run gets stuck or goes on for ever. *)
From stdpp Require Import functions.
From S2P Require Import Prelude Errors Runtime Store Memory RateLimiter World.
From S2P Require Import Store Engine Interleaving Sample Fixtures Mutex MutexMethods.

(** ** One environment for a whole run *)

(** The environments answer the events from [lo] up to [hi] alike. *)
Definition agree (E E' : Env) (lo hi : nat) : Prop :=
  ∀ k, (lo ≤ k < hi)%nat →
    @env_elapsed E k = @env_elapsed E' k ∧ @env_range E k = @env_range E' k.

(** An action asks its environment for the events that it counts. *)
Definition local {X A} (m : Env → St (X * Amb) A) : Prop :=
  ∀ E E' x a r x' a', m E (x, a) = (r, (x', a')) →
    (amb_step a ≤ amb_step a')%nat ∧
    (agree E E' (amb_step a) (amb_step a') → m E' (x, a) = (r, (x', a'))).

Lemma local_same {X A} (m : St X A) : local (λ _ : Env, st_fst m).
Proof.
  intros E E' x a r x' a'. unfold st_fst. destruct (m x). intros [= <- <- <-]. done.
Qed.

Lemma local_ret {X A} (r : A) : local (λ _ : Env, mret (M:=St (X * Amb)) r).
Proof. intros E E' x a r' x' a' [= <- <- <-]. done. Qed.

Lemma local_bind {X A B} (m : Env → St (X * Amb) A) (f : Env → A → St (X * Amb) B) :
  local m → (∀ b, local (λ E, f E b)) → local (λ E, m E ≫= f E).
Proof.
  intros Hm Hf E E' x a r x' a'. unfold mbind, St_bind.
  destruct (m E (x, a)) as [b [x1 a1]] eqn:Em. intros Ef.
  destruct (Hm E E' _ _ _ _ _ Em) as [H1 Hm'], (Hf b E E' _ _ _ _ _ Ef) as [H2 Hf'].
  split; [lia|]. intros Hag. rewrite Hm' by (intros k ?; apply Hag; lia).
  apply Hf'. intros k ?. apply Hag. lia.
Qed.

Lemma local_clock {X} : local (λ E : Env, st_snd (X:=X) (@time_Now E)).
Proof.
  intros E E' x a r x' a' [= <- <- <-]. simpl. split; [lia|]. intros Hag.
  unfold time_Now, event. by destruct (Hag (amb_step a)) as [-> _]; [lia|].
Qed.

Lemma range_order_agree {V} (E E' : Env) k (m : gmap string V) :
  @env_range E k = @env_range E' k → @range_order E V k m = @range_order E' V k m.
Proof. intros Hk. unfold range_order, range_before_dec, range_before. by rewrite Hk. Qed.

Lemma local_range {X V} (m : gmap string V) : local (λ E : Env, st_snd (X:=X) (@go_range E V m)).
Proof.
  intros E E' x a r x' a' [= <- <- <-]. simpl. split; [lia|]. intros Hag.
  destruct (Hag (amb_step a)) as [Ht Hr]; [lia|]. unfold go_range, event.
  by rewrite Ht, (range_order_agree _ _ _ _ Hr).
Qed.

(** Reads off the actions of a method. *)
Ltac local_go :=
  autounfold with memory; unfold clock, heap, update, range_of;
  repeat first
    [ apply local_bind; [|intros ?] | apply local_same | apply local_ret | apply local_clock
    | apply local_range | case_match ].

Lemma local_on_store {A} (op : Env → Op MemHeap A) E E' w r w' :
  local op → run (on_store (op E)) w = (r, w') →
  (amb_step (w_amb w) ≤ amb_step (w_amb w'))%nat ∧
  (agree E E' (amb_step (w_amb w)) (amb_step (w_amb w')) → run (on_store (op E')) w = (r, w')).
Proof.
  intros Hop. unfold run, on_store, act. destruct (op E _) as [b [s a]] eqn:Eop. intros [= <- <-].
  destruct (Hop E E' _ _ _ _ _ Eop) as [Hle Hag]. split; [done|]. intros H. by rewrite (Hag H).
Qed.

Lemma local_on_limiter {A} (op : Env → St (LimiterState * Amb) A) E E' w r (w' : World MemHeap) :
  local op → run (on_limiter (op E)) w = (r, w') →
  (amb_step (w_amb w) ≤ amb_step (w_amb w'))%nat ∧
  (agree E E' (amb_step (w_amb w)) (amb_step (w_amb w')) → run (on_limiter (op E')) w = (r, w')).
Proof.
  intros Hop. unfold run, on_limiter, act. destruct (op E _) as [b [s a]] eqn:Eop. intros [= <- <-].
  destruct (Hop E E' _ _ _ _ _ Eop) as [Hle Hag]. split; [done|]. intros H. by rewrite (Hag H).
Qed.

Lemma atomic_local {mu B} (c : method mu B) E E' w r w' :
  run (@atomic E mu B c) w = (r, w') →
  (amb_step (w_amb w) ≤ amb_step (w_amb w'))%nat ∧
  (agree E E' (amb_step (w_amb w)) (amb_step (w_amb w')) → run (@atomic E' mu B c) w = (r, w')).
Proof.
  destruct c; cbn [atomic];
    match goal with
    | |- run (on_store ?op) _ = _ → _ =>
        let op' := eval pattern E in op in
        match op' with ?f _ => apply (local_on_store f E E') end
    | |- run (on_limiter ?op) _ = _ → _ =>
        let op' := eval pattern E in op in
        match op' with ?f _ => apply (local_on_limiter f E E') end
    end; local_go.
Qed.

(** Clients whose calls are single actions, each in an environment of its own. *)
Inductive answered_step {A} : list (client A) * World MemHeap → list (client A) * World MemHeap → Prop :=
| answered_call ps i mu B (c : method mu B) k E w r w' :
    ps !! i = Some (Call c k) → run (@atomic E mu B c) w = (r, w') →
    answered_step (ps, w) (<[i := k r]> ps, w')
| answered_clock ps i k w t :
    ps !! i = Some (ReadClock k) → amb_time (w_amb w) ≤ t →
    answered_step (ps, w) (<[i := k t]> ps, with_amb w (mkAmb (Datatypes.S (amb_step (w_amb w))) t)).

Notation nobody := (λ _, False).

Definition spliced (n : nat) (E1 E2 : Env) : Env := {|
  env_elapsed k := if decide (k < n)%nat then @env_elapsed E1 k else @env_elapsed E2 k;
  env_range k := if decide (k < n)%nat then @env_range E1 k else @env_range E2 k;
  env_rand_err := @env_rand_err E1; env_rand_byte := @env_rand_byte E1; env_uuid := @env_uuid E1;
  env_send := @env_send E1; env_db_fault := @env_db_fault E1; env_db_now := @env_db_now E1;
  env_db_uuid := @env_db_uuid E1 |}.

Lemma spliced_agree n m E1 E2 E' :
  (n ≤ m)%nat → agree (spliced n E1 E2) E' 0 m → agree E1 E' 0 n ∧ agree E2 E' n m.
Proof.
  intros Hnm Hag. split; intros k Hk; destruct (Hag k ltac:(lia)) as [<- <-]; simpl.
  - by rewrite !decide_True by lia.
  - by rewrite !decide_False by lia.
Qed.

Lemma pool_call `{Env} {A} mu B (c : method mu B) (k : B → client A) ps i w r w' :
  ps !! i = Some (Call c k) → run (atomic c) w = (r, w') →
  pool_step nobody (in_actions <$> ps, w) (in_actions <$> <[i := k r]> ps, w').
Proof.
  intros Hi Hrun. rewrite list_fmap_insert.
  assert (∃ m, atomic c = Do m Ret) as [m Hm] by (destruct c; by eexists).
  rewrite Hm in Hrun. unfold run in Hrun.
  eapply (pool_act _ _ _ _ m (λ r, in_actions (k r))); [|by destruct (m w)].
  rewrite list_lookup_fmap, Hi. simpl. by rewrite Hm.
Qed.

Lemma one_environment {A} (ps : list (client A)) w c :
  rtc answered_step (ps, w) c →
  ∃ E, ∀ E', agree E E' 0 (amb_step (w_amb c.2)) →
    rtc (pool_step nobody) (@in_actions E' A <$> ps, w) (@in_actions E' A <$> c.1, c.2).
Proof.
  revert c. apply rtc_ind_r; [by exists (answering 0 0 (λ _, 0))|].
  intros c1 c2 _ HS (E0 & IH).
  destruct HS as [ps1 i mu B c k E1 w1 r w2 Hi Hrun|ps1 i k w1 t Hi Ht]; simpl in *.
  - exists (spliced (amb_step (w_amb w1)) E0 E1). intros E' Hag.
    destruct (atomic_local c E1 E' _ _ _ Hrun) as [Hle Hrun'].
    apply spliced_agree in Hag as [H0 H1]; [|done]. eapply rtc_r; [by apply IH|].
    by apply (pool_call (H:=E') mu B c), Hrun'.
  - set (n := amb_step (w_amb w1)) in *.
    exists (spliced n E0 (answering n (Z.to_N (t - amb_time (w_amb w1))) (λ _, 0))). intros E' Hag.
    apply spliced_agree in Hag as [H0 H1]; [|lia]. eapply rtc_r; [by apply IH|].
    rewrite list_fmap_insert. destruct (H1 n) as [Ht' _]; [lia|]. simpl in Ht'. rewrite elapsed_here in Ht'.
    eapply (pool_act _ _ _ _ _ (λ t, @in_actions E' A (k t))).
    + by rewrite list_lookup_fmap, Hi.
    + unfold time_Now, event. fold n. rewrite <- Ht', elapse by done. reflexivity.
Qed.

(** ** Mutual exclusion *)

Definition holds {A} (ths : list (goroutine A)) (i : nat) (mu : mutex) : Prop :=
  in_section <$> ths !! i = Some (Some mu).

(** A mutex is locked if and only if exactly one goroutine is in its section. *)
Record exclusive {A} (pr : process A) : Prop := {
  ex_locked i mu : holds (pr_goroutines pr) i mu → pr_locked pr mu = true;
  ex_one i j mu : holds (pr_goroutines pr) i mu → holds (pr_goroutines pr) j mu → i = j;
  ex_held mu : pr_locked pr mu = true → ∃ i, holds (pr_goroutines pr) i mu;
}.

Lemma holds_insert {A} (ths : list (goroutine A)) i j th th' mu :
  ths !! i = Some th →
  holds (<[i := th']> ths) j mu ↔
    if decide (j = i) then in_section th' = Some mu else holds ths j mu.
Proof.
  intros Hi. unfold holds. case_decide as Hj.
  - subst j. rewrite list_lookup_insert_eq by (by eapply lookup_lt_Some). simpl. split; congruence.
  - by rewrite list_lookup_insert_ne by done.
Qed.

Lemma holds_here {A} (ths : list (goroutine A)) i th mu :
  ths !! i = Some th → holds ths i mu ↔ in_section th = Some mu.
Proof. intros Hi. unfold holds. rewrite Hi. simpl. split; congruence. Qed.

(** A step that takes no part in locking, one that locks, one that unlocks. *)
Lemma exclusive_same {A} (ths : list (goroutine A)) i th th' s s' locked t t' :
  exclusive (mkProcess ths s locked t) → ths !! i = Some th → in_section th' = in_section th →
  exclusive (mkProcess (<[i := th']> ths) s' locked t').
Proof.
  intros [HL HO HH] Hi Hsec. simpl in *.
  assert (∀ j mu, holds (<[i := th']> ths) j mu ↔ holds ths j mu) as Hiff.
  { intros j mu. rewrite (holds_insert _ _ _ _ _ _ Hi). case_decide as Hj; [|done].
    subst j. by rewrite Hsec, (holds_here _ _ _ _ Hi). }
  split; simpl; intros *; setoid_rewrite Hiff; eauto.
Qed.

Lemma exclusive_lock {A} (ths : list (goroutine A)) i th th' s locked t mu :
  exclusive (mkProcess ths s locked t) → ths !! i = Some th → in_section th = None →
  in_section th' = Some mu → locked mu = false →
  exclusive (mkProcess (<[i := th']> ths) s (<[mu := true]> locked) t).
Proof.
  intros [HL HO HH] Hi Hth Hth' Hfree. simpl in *.
  assert (∀ j mu', holds (<[i := th']> ths) j mu' ↔
    (j = i ∧ mu' = mu) ∨ (j ≠ i ∧ holds ths j mu')) as Hiff.
  { intros j mu'. rewrite (holds_insert _ _ _ _ _ _ Hi), Hth'. case_decide; naive_solver. }
  assert (∀ j, ¬ holds ths j mu) as Hnone by (intros j Hj; rewrite (HL _ _ Hj) in Hfree; done).
  split; simpl; intros *; setoid_rewrite Hiff.
  - intros [[_ ->]|[_ Hj]]; [by rewrite fn_lookup_insert|].
    rewrite fn_lookup_insert_ne; [by eapply HL|]. intros ->. by eapply Hnone.
  - naive_solver.
  - destruct (decide (mu0 = mu)) as [->|Hne]; [by eauto|]. rewrite fn_lookup_insert_ne by done.
    intros [j Hj]%HH. exists j. right. split; [|done]. intros ->.
    rewrite (holds_here _ _ _ _ Hi) in Hj. congruence.
Qed.

Lemma exclusive_unlock {A} (ths : list (goroutine A)) i th th' s locked t mu :
  exclusive (mkProcess ths s locked t) → ths !! i = Some th → in_section th = Some mu →
  in_section th' = None →
  exclusive (mkProcess (<[i := th']> ths) s (<[mu := false]> locked) t).
Proof.
  intros [HL HO HH] Hi Hth Hth'. simpl in *.
  assert (∀ j mu', holds (<[i := th']> ths) j mu' ↔ j ≠ i ∧ holds ths j mu') as Hiff.
  { intros j mu'. rewrite (holds_insert _ _ _ _ _ _ Hi), Hth'. case_decide; naive_solver. }
  assert (holds ths i mu) as Hme by (by apply (holds_here _ _ _ _ Hi)).
  split; simpl; intros *; setoid_rewrite Hiff.
  - intros [Hji Hj]. rewrite fn_lookup_insert_ne; [by eapply HL|]. intros ->. by eapply Hji, HO.
  - naive_solver.
  - destruct (decide (mu0 = mu)) as [->|Hne]; [by rewrite fn_lookup_insert|].
    rewrite fn_lookup_insert_ne by done. intros [j Hj]%HH. exists j. split; [|done]. intros ->.
    rewrite (holds_here _ _ _ _ Hi) in Hj. congruence.
Qed.

Lemma exclusive_step {A} (pr pr' : process A) :
  exclusive pr → process_step pr pr' → exclusive pr'.
Proof.
  intros Hex HS. destruct HS as [ths i th th' s locked t s' locked' t' Hi HG].
  destruct HG.
  - by eapply exclusive_lock.
  - by eapply exclusive_same.
  - by eapply exclusive_unlock.
  - by eapply exclusive_same.
Qed.

Lemma exclusive_start {A} (ps : list (client A)) s t : exclusive (process_start ps s t).
Proof.
  assert (∀ i mu, ¬ holds (Outside <$> ps) i mu) as Hnone.
  { intros i mu. unfold holds. rewrite list_lookup_fmap. by destruct (ps !! i). }
  split; simpl; [intros i mu Hi|intros i j mu Hi|done]; by destruct (Hnone _ _ Hi).
Qed.

Lemma exclusive_steps {A} (pr pr' : process A) :
  exclusive pr → rtc process_step pr pr' → exclusive pr'.
Proof. intros Hex HS. induction HS; eauto using exclusive_step. Qed.

(** ** The simulation *)

Lemma sh_get_put mu d s : sh_get mu (sh_put mu d s) = d.
Proof. by destruct mu. Qed.

Lemma sh_get_put_ne mu mu' d s : mu' ≠ mu → sh_get mu' (sh_put mu d s) = sh_get mu' s.
Proof. by destruct mu, mu'. Qed.

(** Where a goroutine stands for its client: outside at the same point; inside before the
    moment, the call still to be made; or past it, the call made and its answer settled. *)
Definition stands_for {A} (s : shared) (w : World MemHeap) (th : goroutine A) (p : client A) : Prop :=
  match th with
  | Outside q => p = q
  | @Inside _ mu B b k =>
      (∃ c : method mu B, p = Call c k ∧
         commits (takes c (sh_get mu (shared_of w))) b (sh_get mu s)) ∨
      (∃ r, p = k r ∧ sure b (sh_get mu s) r (sh_get mu (shared_of w)))
  end.

Record simulated {A} (pr : process A) (ps : list (client A)) (w : World MemHeap) : Prop := {
  sm_each : Forall2 (stands_for (pr_shared pr) w) (pr_goroutines pr) ps;
  sm_clock : amb_time (w_amb w) ≤ pr_clock pr;
  sm_free mu : pr_locked pr mu = false → sh_get mu (pr_shared pr) = sh_get mu (shared_of w);
}.

Lemma stands_for_other {A} s w s' w' (th : goroutine A) p :
  (∀ mu, in_section th = Some mu →
     sh_get mu s' = sh_get mu s ∧ sh_get mu (shared_of w') = sh_get mu (shared_of w)) →
  stands_for s w th p → stands_for s' w' th p.
Proof. destruct th as [q|mu B b k]; simpl; [done|]. intros H. by destruct (H mu eq_refl) as [-> ->]. Qed.

(** One goroutine moves, the others keep their place: what their mutexes guard is as before. *)
Lemma stands_for_insert {A} s w s' w' (ths : list (goroutine A)) ps i th' p' :
  Forall2 (stands_for s w) ths ps → stands_for s' w' th' p' →
  (∀ j mu, j ≠ i → holds ths j mu →
     sh_get mu s' = sh_get mu s ∧ sh_get mu (shared_of w') = sh_get mu (shared_of w)) →
  Forall2 (stands_for s' w') (<[i := th']> ths) (<[i := p']> ps).
Proof.
  intros Hall Hi Hj. apply Forall2_same_length_lookup. rewrite !length_insert.
  split; [by eapply Forall2_length|]. intros j th p.
  intros [(<- & <- & _)|[Hne Hth]]%list_lookup_insert_Some [(Heq & <- & _)|[Hne' Hp]]%list_lookup_insert_Some;
    [done|done|by destruct Hne|].
  eapply stands_for_other; [|by eapply Forall2_lookup_lr]. intros mu Hmu.
  apply (Hj j); [done|]. by apply (holds_here _ _ _ _ Hth).
Qed.

(** A call is made at its moment. *)
Lemma call_made {A} mu B (c : method mu B) (k : B → client A) ps i w now r d :
  ps !! i = Some (Call c k) → amb_time (w_amb w) ≤ now →
  takes c (sh_get mu (shared_of w)) now r d →
  ∃ w', answered_step (ps, w) (<[i := k r]> ps, w') ∧ amb_time (w_amb w') ≤ now ∧
    shared_of w' = sh_put mu d (shared_of w).
Proof.
  intros Hi Hle Ht. destruct (Ht w eq_refl Hle) as (E & a & _ & Ha & Hrun).
  eexists. split; [by eapply answered_call|]. simpl. split; [done|]. by destruct (sh_put _ _ _).
Qed.

Section steps.
Context {A : Type}.
Context (ths : list (goroutine A)) (ps : list (client A)) (s : shared) (locked : mutex → bool).
Context (t : time) (w : World MemHeap).
Context (Hex : exclusive (mkProcess ths s locked t)) (Hsim : simulated (mkProcess ths s locked t) ps w).

Definition simulated_after (pr' : process A) : Prop :=
  ∃ ps' w', rtc answered_step (ps, w) (ps', w') ∧ simulated pr' ps' w'.

Lemma stands_at i th : ths !! i = Some th → ∃ p, ps !! i = Some p ∧ stands_for s w th p.
Proof. intros Hi. destruct Hsim as [Hall _ _]. by eapply Forall2_lookup_l in Hall. Qed.

Lemma other_mutex i j mu mu' : holds ths i mu → j ≠ i → holds ths j mu' → mu' ≠ mu.
Proof. intros Hi Hj Hj' ->. by eapply Hj, (ex_one _ Hex). Qed.

Lemma simulated_lock i mu B (c : method mu B) k :
  ths !! i = Some (Outside (Call c k)) → locked mu = false →
  simulated_after (mkProcess (<[i := Inside mu (body c) k]> ths) s (<[mu := true]> locked) t).
Proof.
  intros Hi Hfree. destruct (stands_at _ _ Hi) as (p & Hp & Hst). simpl in Hst. subst p.
  destruct Hsim as [Hall Hclock Hf]. simpl in *. exists ps, w. split; [done|]. split; simpl; [|done|].
  - rewrite <- (list_insert_id ps i (Call c k)) by done.
    apply (stands_for_insert s w); [done| |done]. left. exists c. split; [done|].
    rewrite (Hf _ Hfree). apply methods_commit.
  - intros mu'. destruct (decide (mu' = mu)) as [->|Hne]; [by rewrite fn_lookup_insert|].
    rewrite fn_lookup_insert_ne by done. apply Hf.
Qed.

Lemma simulated_clock i k t' :
  ths !! i = Some (Outside (ReadClock k)) → t ≤ t' →
  simulated_after (mkProcess (<[i := Outside (k t')]> ths) s locked t').
Proof.
  intros Hi Hle. destruct (stands_at _ _ Hi) as (p & Hp & Hst). simpl in Hst. subst p.
  destruct Hsim as [Hall Hclock Hf]. simpl in *.
  eexists _, _. split; [apply rtc_once; eapply (answered_clock _ _ _ _ t'); [done|lia]|].
  split; simpl; [|lia|done]. by apply (stands_for_insert s w).
Qed.

(** What an inside step leaves of the rest of the simulation. *)
Lemma simulated_inside i mu B (b b' : section (guarded mu) B) k d' t' ps' w' p' :
  ths !! i = Some (Inside mu b k) → rtc answered_step (ps, w) (<[i := p']> ps', w') →
  ps' = ps → stands_for (sh_put mu d' s) w' (Inside mu b' k) p' →
  (∀ mu', mu' ≠ mu → sh_get mu' (shared_of w') = sh_get mu' (shared_of w)) →
  amb_time (w_amb w') ≤ t' →
  simulated_after (mkProcess (<[i := Inside mu b' k]> ths) (sh_put mu d' s) locked t').
Proof.
  intros Hi HS -> Hst Hoth Hclock'. destruct Hsim as [Hall Hclock Hf]. simpl in *.
  assert (holds ths i mu) as Hme by (by apply (holds_here _ _ _ _ Hi)).
  exists (<[i := p']> ps), w'. split; [done|]. split; simpl; [|done|].
  - apply (stands_for_insert s w); [done..|]. intros j mu' Hj Hm.
    pose proof (other_mutex _ _ _ _ Hme Hj Hm). by rewrite sh_get_put_ne, Hoth.
  - intros mu' Hfree. assert (mu' ≠ mu) as Hne.
    { intros ->. pose proof (ex_locked _ Hex _ _ Hme). simpl in *. congruence. }
    rewrite sh_get_put_ne, Hoth by done. by apply Hf.
Qed.

Lemma simulated_statement i mu B (b b' : section (guarded mu) B) k d' t' :
  ths !! i = Some (Inside mu b k) → statement b (sh_get mu s) t b' d' t' →
  simulated_after (mkProcess (<[i := Inside mu b' k]> ths) (sh_put mu d' s) locked t').
Proof.
  intros Hi HS. destruct (stands_at _ _ Hi) as (p & Hp & Hst). pose proof (sm_clock _ _ _ Hsim) as Hclock.
  assert (t ≤ t') as Ht by (by eapply statement_clock). simpl in *.
  destruct Hst as [(c & -> & Hc)|(r & -> & Hs)].
  - destruct (commits_statement _ _ _ _ _ _ _ Hc HS) as [Hc'|(r & d1 & HO & Hs)].
    + eapply (simulated_inside i mu B b _ k d' t' ps w (Call c k)); [done| |done| |done|lia].
      * by rewrite list_insert_id.
      * left. exists c. by rewrite sh_get_put.
    + destruct (call_made mu B c k ps i w t' r d1 Hp ltac:(lia) HO) as (w' & HC & Hle & Hw').
      eapply (simulated_inside i mu B b _ k d' t' ps w' (k r)); [done| |done| | |done].
      * by apply rtc_once.
      * right. exists r. by rewrite Hw', !sh_get_put.
      * intros mu' Hne. by rewrite Hw', sh_get_put_ne.
  - eapply (simulated_inside i mu B b _ k d' t' ps w (k r)); [done| |done| |done|lia].
    + by rewrite list_insert_id.
    + right. exists r. rewrite sh_get_put. split; [done|]. by eapply sure_statement.
Qed.

Lemma simulated_unlock i mu B (r : B) k :
  ths !! i = Some (Inside mu (Leave r) k) →
  simulated_after (mkProcess (<[i := Outside (k r)]> ths) s (<[mu := false]> locked) t).
Proof.
  intros Hi. destruct (stands_at _ _ Hi) as (p & Hp & Hst).
  destruct Hsim as [Hall Hclock Hf]. simpl in *.
  assert (holds ths i mu) as Hme by (by apply (holds_here _ _ _ _ Hi)).
  assert (∃ w', rtc answered_step (ps, w) (<[i := k r]> ps, w') ∧ amb_time (w_amb w') ≤ t ∧
    sh_get mu (shared_of w') = sh_get mu s ∧
    ∀ mu', mu' ≠ mu → sh_get mu' (shared_of w') = sh_get mu' (shared_of w))
    as (w' & HS & Hle & Hmu & Hoth).
  { destruct Hst as [(c & -> & Hc)|(r0 & -> & <- & Hd)].
    - destruct Hc as [(r0 & d & HO & <- & <-)|[]].
      destruct (call_made mu B c k ps i w t r _ Hp Hclock (HO t)) as (w' & HC & Hle & Hw').
      exists w'. split; [by apply rtc_once|]. split; [done|]. rewrite Hw'.
      split; [by rewrite sh_get_put|]. intros. by rewrite sh_get_put_ne.
    - exists w. by rewrite list_insert_id. }
  exists (<[i := k r]> ps), w'. split; [done|]. split; simpl; [|done|].
  - apply (stands_for_insert s w); [done..|]. intros j mu' Hj Hm.
    pose proof (other_mutex _ _ _ _ Hme Hj Hm). by rewrite Hoth.
  - intros mu'. destruct (decide (mu' = mu)) as [->|Hne]; [by rewrite Hmu|].
    rewrite fn_lookup_insert_ne, Hoth by done. apply Hf.
Qed.

End steps.

Lemma simulated_step {A} (pr pr' : process A) ps w :
  exclusive pr → simulated pr ps w → process_step pr pr' →
  ∃ ps' w', rtc answered_step (ps, w) (ps', w') ∧ simulated pr' ps' w'.
Proof.
  intros Hex Hsim HS. destruct HS as [ths i th th' s locked t s' locked' t' Hi HG]. destruct HG.
  - by eapply simulated_lock.
  - by eapply simulated_statement.
  - by eapply simulated_unlock.
  - by eapply simulated_clock.
Qed.

Lemma simulated_start {A} (ps : list (client A)) w :
  simulated (process_start ps (shared_of w) (amb_time (w_amb w))) ps w.
Proof.
  split; simpl; [|done|done]. apply Forall2_same_length_lookup. rewrite length_fmap.
  split; [done|]. intros i th p. rewrite list_lookup_fmap. intros Hi Hp. rewrite Hp in Hi.
  by injection Hi as <-.
Qed.

Lemma simulated_steps {A} (pr pr' : process A) ps w :
  rtc process_step pr pr' → exclusive pr → simulated pr ps w →
  ∃ ps' w', rtc answered_step (ps, w) (ps', w') ∧ simulated pr' ps' w'.
Proof.
  intros HS. revert ps w. induction HS as [pr|pr pr1 pr' HS _ IH]; intros ps w Hex Hsim; [by exists ps, w|].
  destruct (simulated_step _ _ _ _ Hex Hsim HS) as (ps1 & w1 & H1 & Hsim1).
  destruct (IH ps1 w1) as (ps' & w' & H2 & Hsim'); [by eapply exclusive_step|done|].
  exists ps', w'. split; [by etrans|done].
Qed.

(** C15: the mutexes make the methods of the in-memory stores and of the limiter atomic.
    Whatever clients call them, whatever they do with the answers, and however the
    statements of their calls come between one another: there is an environment in which
    the same clients, each call being the one action of Memory.v or RateLimiter.v, reach
    in some interleaving of those actions the same. Every goroutine that is outside the
    methods has had the same answers, and what a mutex that is free guards is the same. *)
Theorem calls_are_atomic {A} (ps : list (client A)) w pr :
  rtc process_step (process_start ps (shared_of w) (amb_time (w_amb w))) pr →
  ∃ E fs w',
    rtc (pool_step nobody) (@in_actions E A <$> ps, w) (fs, w') ∧
    (∀ i p, pr_goroutines pr !! i = Some (Outside p) → fs !! i = Some (@in_actions E A p)) ∧
    (∀ mu, pr_locked pr mu = false → sh_get mu (pr_shared pr) = sh_get mu (shared_of w')).
Proof.
  intros HS.
  destruct (simulated_steps _ _ ps w HS (exclusive_start _ _ _) (simulated_start ps w))
    as (ps' & w' & HA & [Hall _ Hfree]).
  destruct (one_environment _ _ _ HA) as (E & HE). exists E, (@in_actions E A <$> ps'), w'.
  split_and!; [by apply HE|intros i p Hi|done].
  destruct (Forall2_lookup_l _ _ _ _ _ Hall Hi) as (p' & Hp' & ->).
  by rewrite list_lookup_fmap, Hp'.
Qed.

(** ** No run gets stuck or goes on for ever *)

Definition moves {A} (th' th : goroutine A) : Prop :=
  ∃ s locked t s' locked' t', goroutine_step th s locked t th' s' locked' t'.

Lemma moves_inv {A} (th' th : goroutine A) :
  moves th' th →
  match th with
  | Outside (Return _) => False
  | Outside (Call c k) => th' = Inside _ (body c) k
  | Outside (ReadClock k) => ∃ t, th' = Outside (k t)
  | Inside mu b k =>
      (∃ r, b = Leave r ∧ th' = Outside (k r)) ∨
      ∃ b' d t d' t', statement b d t b' d' t' ∧ th' = Inside mu b' k
  end.
Proof.
  intros (s & locked & t & s' & locked' & t' & HS). destruct HS; eauto. right. eauto 10.
Qed.

Lemma acc_inside {A} mu B (b : section (guarded mu) B) (k : B → client A) :
  (∀ r, Acc moves (Outside (k r))) → Acc moves (Inside mu b k).
Proof.
  intros Hk.
  induction b as [a|C m kb IH|kb IH|keys kb IH]; constructor; intros th' Hth';
    (apply moves_inv in Hth' as [(r & Hr & ->)|(b' & d & t & d' & t' & HS & ->)];
     [first [discriminate Hr|apply Hk]|simpl in HS]).
  - done.
  - by destruct HS as (-> & _).
  - by destruct HS as (_ & -> & _).
  - by destruct HS as (l & _ & -> & _).
Qed.

Lemma acc_goroutine {A} (th : goroutine A) : Acc moves th.
Proof.
  assert (∀ p : client A, Acc moves (Outside p)) as Hout.
  { induction p as [a|mu B c k IH|k IH]; constructor; intros th' Hth'; apply moves_inv in Hth'.
    - done.
    - subst th'. by apply acc_inside.
    - by destruct Hth' as [t ->]. }
  destruct th as [p|mu B b k]; [done|by apply acc_inside].
Qed.

Definition one_moves {A} (ths' ths : list (goroutine A)) : Prop :=
  ∃ i th th', ths !! i = Some th ∧ moves th' th ∧ ths' = <[i := th']> ths.

Lemma acc_goroutines {A} (ths : list (goroutine A)) : Acc one_moves ths.
Proof.
  induction ths as [|th ths IH].
  { constructor. by intros ths' (i & th & th' & Hi & _). }
  revert ths IH. induction (acc_goroutine th) as [th _ IHth]. intros ths Hths.
  induction Hths as [ths Hths' IHths]. constructor.
  intros ths' ([|i] & th1 & th' & Hi & Hm & ->); simpl in *.
  - injection Hi as ->. by apply IHth.
  - apply IHths. by exists i, th1, th'.
Qed.

Lemma acc_process {A} (pr : process A) : Acc (flip process_step) pr.
Proof.
  destruct pr as [ths s locked t]. revert s locked t.
  induction (acc_goroutines ths) as [ths _ IH]. intros s locked t. constructor. intros pr' HS.
  inversion HS as [ths' i th th' s0 locked0 t0 s' locked' t' Hi HG]; subst.
  apply IH. exists i, th, th'. split_and!; [done| |done]. by repeat eexists.
Qed.

(** A critical section can always go on. *)
Lemma statement_goes {D A} (b : section D A) d t :
  (∃ a, b = Leave a) ∨ ∃ b' d' t', statement b d t b' d' t'.
Proof.
  destruct b as [a|C m k|k|keys k]; [by left; eexists|right..].
  - by eexists _, _, _.
  - exists (k t), d, t. by split_and!.
  - by exists (k (keys d)), d, t, (keys d).
Qed.

Definition returned {A} (th : goroutine A) : bool :=
  match th with Outside (Return _) => true | _ => false end.

(** All calls have returned and all mutexes are free. *)
Definition at_end {A} (pr : process A) : Prop :=
  Forall (λ th, returned th = true) (pr_goroutines pr) ∧ ∀ mu, pr_locked pr mu = false.

Lemma process_goes_on {A} (pr : process A) :
  exclusive pr → (∃ pr', process_step pr pr') ∨ at_end pr.
Proof.
  destruct pr as [ths s locked t]. intros Hex.
  assert (∀ i mu B (b : section (guarded mu) B) k, ths !! i = Some (Inside mu b k) →
    ∃ pr', process_step (mkProcess ths s locked t) pr') as Hin.
  { intros i mu B b k Hi. destruct (statement_goes b (sh_get mu s) t) as [[r ->]|(b' & d' & t' & HS)].
    - eexists. eapply process_goes; [done|apply gr_unlock].
    - eexists. eapply process_goes; [done|by apply gr_statement]. }
  assert (∀ mu, locked mu = true → ∃ pr', process_step (mkProcess ths s locked t) pr') as Hheld.
  { intros mu [i Hi]%(ex_held _ Hex). unfold holds in Hi. simpl in Hi.
    destruct (ths !! i) as [[p|mu' B b k]|] eqn:Hth; simplify_eq/=. by eapply Hin. }
  destruct (decide (Forall (λ th, returned th = true) ths)) as [Hret|Hgo].
  - destruct (decide (Exists (λ mu, locked mu = true)
      [UserStore_mu; SessionStore_mu; AuditStore_mu; VerificationStore_mu; InMemoryRateLimiter_mu]))
      as [(mu & _ & Hmu)%Exists_exists|Hfree]; [left; by eapply Hheld|].
    right. split; [done|]. intros mu. simpl. apply not_true_is_false. intros Hmu. apply Hfree.
    apply Exists_exists. exists mu. split; [|done]. rewrite !elem_of_cons. destruct mu; tauto.
  - left. apply not_Forall_Exists, Exists_exists in Hgo as (th & [i Hi]%list_elem_of_lookup & Hth);
      [|apply _].
    destruct th as [[a|mu B c k|k]|mu B b k]; [by destruct Hth| | |by eapply Hin].
    + destruct (locked mu) eqn:Hmu; [by eapply Hheld|].
      eexists. eapply process_goes; [done|by apply gr_lock].
    + eexists. eapply process_goes; [done|by apply (gr_clock _ _ _ t t)].
Qed.

(** No deadlock and no run without end; that a method takes one mutex, once, and
    releases it on every path is how Mutex.section is built, after the Lock and the
    deferred Unlock at the head of every method. Whatever the clients and however their calls
    come between one another, every run is finite, and it stops only when every client has
    returned and every mutex is free. *)
Theorem calls_never_deadlock {A} (ps : list (client A)) s t :
  Acc (flip process_step) (process_start ps s t) ∧
  ∀ pr, rtc process_step (process_start ps s t) pr → (∃ pr', process_step pr pr') ∨ at_end pr.
Proof.
  split; [apply acc_process|]. intros pr HS.
  by eapply process_goes_on, exclusive_steps, HS; apply exclusive_start.
Qed.

(** ** An instance *)

(** A goroutine goes on, if it can: a clock that ticks, keys as they are stored. *)
Definition goroutine_go {A} (th : goroutine A) (s : shared) (locked : mutex → bool) (t : time) :
    option (goroutine A * shared * (mutex → bool) * time) :=
  match th with
  | Outside (Return _) => None
  | Outside (@Call _ mu _ c k) =>
      if locked mu then None else Some (Inside mu (body c) k, s, <[mu := true]> locked, t)
  | Outside (ReadClock k) => Some (Outside (k (t + 1)), s, locked, t + 1)
  | Inside mu b k =>
      match b with
      | Leave r => Some (Outside (k r), s, <[mu := false]> locked, t)
      | Access m kb =>
          Some (Inside mu (kb (m (sh_get mu s)).1) k, sh_put mu (m (sh_get mu s)).2 s, locked, t)
      | Clock kb => Some (Inside mu (kb (t + 1)) k, sh_put mu (sh_get mu s) s, locked, t + 1)
      | Visit keys kb =>
          Some (Inside mu (kb (keys (sh_get mu s))) k, sh_put mu (sh_get mu s) s, locked, t)
      end
  end.

Definition process_go {A} (i : nat) (pr : process A) : process A :=
  match pr_goroutines pr !! i with
  | Some th =>
      match goroutine_go th (pr_shared pr) (pr_locked pr) (pr_clock pr) with
      | Some (th', s', locked', t') => mkProcess (<[i := th']> (pr_goroutines pr)) s' locked' t'
      | None => pr
      end
  | None => pr
  end.

Lemma goroutine_go_step {A} (th : goroutine A) s locked t th' s' locked' t' :
  goroutine_go th s locked t = Some (th', s', locked', t') →
  goroutine_step th s locked t th' s' locked' t'.
Proof.
  destruct th as [[a|mu B c k|k]|mu B [a|C m kb|kb|keys kb] k]; simpl; [done|..].
  - destruct (locked mu) eqn:Hmu; [done|]. intros [= <- <- <- <-]. by apply gr_lock.
  - intros [= <- <- <- <-]. apply gr_clock. lia.
  - intros [= <- <- <- <-]. apply gr_unlock.
  - intros [= <- <- <- <-]. by apply gr_statement.
  - intros [= <- <- <- <-]. apply gr_statement. simpl. split_and!; [lia|done..].
  - intros [= <- <- <- <-]. apply gr_statement. simpl. by eexists.
Qed.

Lemma process_go_steps {A} order (pr : process A) :
  rtc process_step pr (foldl (flip process_go) pr order).
Proof.
  revert pr. induction order as [|i order IH]; intros pr; simpl; [done|].
  etrans; [|apply IH]. unfold process_go. destruct (pr_goroutines pr !! i) as [th|] eqn:Hi; [|done].
  destruct (goroutine_go _ _ _ _) as [[[[th' s'] locked'] t']|] eqn:HG; [|done].
  apply rtc_once. destruct pr. by eapply process_goes, goroutine_go_step.
Qed.

(** Two logins of Alice with a wrong password are counted while her sessions are revoked. *)
Definition busy_clients : list (client (result Z)) :=
  [Call (Users_IncrementFailedAttempts alice_id) Return;
   Call (Users_IncrementFailedAttempts alice_id) Return;
   Call (Sessions_RevokeAllForUser alice_id) (λ _, ReadClock (λ t, Return (Ok t)))].

Definition busy_end : process (result Z) :=
  foldl (flip process_go)
    (process_start busy_clients (shared_of w_login) (amb_time (w_amb w_login)))
    (concat (replicate 12 [0; 1; 2]%nat)).

Lemma calls_are_atomic_witness : ∃ E fs w',
  rtc (pool_step nobody) (@in_actions E _ <$> busy_clients, w_login) (fs, w') ∧
  fs !! 0%nat = Some (Ret (Ok 1)) ∧ fs !! 1%nat = Some (Ret (Ok 2)) ∧
  sh_get UserStore_mu (pr_shared busy_end) = sh_get UserStore_mu (shared_of w').
Proof.
  destruct (calls_are_atomic busy_clients w_login busy_end) as (E & fs & w' & HS & Hout & Hfree).
  - apply process_go_steps.
  - exists E, fs, w'. split; [exact HS|]. split; [|split].
    + apply (Hout 0%nat (Return (Ok 1))). vm_compute. reflexivity.
    + apply (Hout 1%nat (Return (Ok 2))). vm_compute. reflexivity.
    + apply (Hfree UserStore_mu). vm_compute. reflexivity.
Defined.
