(* ===== verification/Concurrency.v ===== *)
(** * Requests served at the same time

    Over a storage that enforces its keys and revokes a session at most once (the
    Postgres stores) no interleaving of requests gives a family two live
    sessions, and revocation is final. The in-memory stores do not have this
    property: [MemSessionStore_RotateToken] does not check that the old session
    is still live. *)
From S2P Require Import Prelude Errors Runtime Store StoreSpec SessionMachine Logger RateLimiter.
From S2P Require Import World Memory MemoryContract Postgres PostgresContract Security Token.
From S2P Require Import Logic Auth Session Engine Rotation LoginLogic Sample Fixtures PgFixtures.
From S2P Require Import RefreshTheorems SessionSafety Interleaving.

(** ** What the calls of the stores may do *)

Section ops.
Context {S : Type} `{StoreModel S, !StoreLaws}.
Context (users : UserStore S) (sessions : SessionStore S) (audit : AuditStore S)
  (vs : VerificationStore S).
Context `{!UserContract users, !SessionContract sessions, !AuditContract audit,
  !VerificationContract vs}.

Lemma quiet_user_create id email hash : quiet_op (UserStore_Create users (new_User id email hash)).
Proof.
  eapply quiet_mutates; [eauto with cryden|]. intros v [] v' (k & t & t' & _ & _ & ->). by left.
Qed.

Lemma quiet_user_update_email id email : quiet_op (UserStore_UpdateEmail users id email).
Proof.
  eapply quiet_mutates; [eauto with cryden|]. intros v [] v' [HE _]. left.
  exact (proj1 (user_updated_sessions _ _ _ _ HE)).
Qed.

Lemma quiet_user_update_password id hash : quiet_op (UserStore_UpdatePasswordHash users id hash).
Proof.
  eapply quiet_mutates; [eauto with cryden|]. intros v x v' HE. left.
  exact (proj1 (user_updated_sessions _ _ _ _ HE)).
Qed.

Lemma quiet_user_increment id : quiet_op (UserStore_IncrementFailedAttempts users id).
Proof.
  eapply quiet_mutates; [eauto with cryden|]. intros v x v' HE. left.
  exact (proj1 (user_updated_sessions _ _ _ _ HE)).
Qed.

Lemma quiet_user_reset id : quiet_op (UserStore_ResetFailedAttempts users id).
Proof.
  eapply quiet_mutates; [eauto with cryden|]. intros v x v' HE. left.
  exact (proj1 (user_updated_sessions _ _ _ _ HE)).
Qed.

Lemma quiet_user_lock id t : quiet_op (UserStore_LockAccount users id t).
Proof.
  eapply quiet_mutates; [eauto with cryden|]. intros v x v' HE. left.
  exact (proj1 (user_updated_sessions _ _ _ _ HE)).
Qed.

Lemma quiet_user_delete id : quiet_op (UserStore_Delete users id).
Proof.
  eapply quiet_mutates; [eauto with cryden|]. intros v [] v' (k & _ & _ & ->).
  destruct strict; [right|by left]. split; [constructor|]. simpl.
  intros i [s Hs]. apply map_lookup_filter_Some in Hs as [-> _]. by eexists.
Qed.

Lemma quiet_revoke id : quiet_op (SessionStore_Revoke sessions id).
Proof.
  eapply quiet_mutates; [eauto with cryden|]. intros v [] v' (k & s & t & _ & Hs & _ & ->).
  right. split; [by constructor|]. intros i [s' Hs']. simpl in Hs'.
  apply lookup_insert_Some in Hs' as [[<- _]|[_ ->]]; by eexists.
Qed.

Lemma revoked_where_domain (P : Session → Prop) `{∀ s, Decision (P s)} t
    (m : gmap string Session) i : is_Some ((revoke_where P t <$> m) !! i) → is_Some (m !! i).
Proof. by rewrite lookup_fmap, fmap_is_Some. Qed.

Lemma quiet_revoke_family f : quiet_op (SessionStore_RevokeFamily sessions f).
Proof.
  eapply quiet_mutates; [eauto with cryden|]. intros v [] v' (k & t & _ & ->). right.
  split; [constructor|]. intros i. apply revoked_where_domain.
Qed.

Lemma quiet_revoke_all u : quiet_op (SessionStore_RevokeAllForUser sessions u).
Proof.
  eapply quiet_mutates; [eauto with cryden|]. intros v [] v' (k & t & _ & ->). right.
  split; [constructor|]. intros i. apply revoked_where_domain.
Qed.

Lemma quiet_record ty user ip meta :
  quiet_op (AuditStore_Record audit (new_AuditEvent ty user ip meta)).
Proof. eapply quiet_mutates; [eauto with cryden|]. intros v [] v' (ev & ? & ->). by left. Qed.

Lemma quiet_token_create id user purpose hash email expires :
  quiet_op (VerificationStore_Create vs (new_VerificationToken id user purpose hash email expires)).
Proof.
  eapply quiet_mutates; [eauto with cryden|].
  intros v [] v' (k & ku & x & t & _ & _ & _ & _ & ->). by left.
Qed.

Lemma quiet_mark_used id : quiet_op (VerificationStore_MarkUsed vs id).
Proof.
  eapply quiet_mutates; [eauto with cryden|]. intros v [] v' (k & vt & t & _ & _ & ->). by left.
Qed.

End ops.

#[export] Hint Resolve quiet_user_create quiet_user_update_email quiet_user_update_password
  quiet_user_increment quiet_user_reset quiet_user_lock quiet_user_delete quiet_revoke
  quiet_revoke_family quiet_revoke_all quiet_record quiet_token_create quiet_mark_used : quiet.
#[export] Hint Extern 3 (quiet_op _) =>
  eapply quiet_reads; solve [eauto with cryden typeclass_instances] : quiet.
Lemma JWTIssuer_Verify_amb `{Env, JWT} j tok a r a' :
  JWTIssuer_Verify j tok a = (r, a') → amb_le a a'.
Proof.
  unfold JWTIssuer_Verify, event. st_unfold.
  destruct (jwt_ParseWithClaims _ _ _) as [[? []]|]; intros [= _ <-]; unfold amb_le; simpl; lia.
Qed.

#[export] Hint Resolve idgen_amb tokengen_amb hasher_amb limiter_amb JWTIssuer_Issue_amb
  JWTIssuer_Verify_amb : quiet.

(** Walks through the parts of a handler that add no session. *)
Ltac rg_go :=
  repeat lazymatch goal with
  | |- rg _ (mret _) _ _ _ _ => apply rg_ret
  | |- rg _ (Ret _) _ _ _ _ => apply rg_ret
  | |- rg _ (_ ≫= _) _ _ _ _ => apply rg_bind
  | |- rg _ (mbind _ _) _ _ _ _ => apply rg_bind
  | |- rg _ (on_store _) _ _ _ _ =>
      apply rg_quiet_op; [solve [eauto with quiet typeclass_instances]|intros ? ? ? _]
  | |- rg _ (on_amb (IDGenerator_New _)) _ _ _ _ => apply rg_draw; [apply _|apply _|intros ? ? ? _|intros ? ? ? _]
  | |- rg _ (on_amb _) _ _ _ _ =>
      apply rg_on_amb; [intros; solve [eauto using event_le with quiet typeclass_instances]|intros ? ? ? _]
  | |- rg _ (on_limiter _) _ _ _ _ =>
      apply rg_on_limiter; [intros; solve [eauto with quiet typeclass_instances]|intros ? ? ? _]
  | |- rg _ (on_log _ _) _ _ _ _ => apply rg_on_log;
      [let H := fresh in intros ? ? ? H; apply logger_amb in H; exact H|intros ? ? ? _]
  | |- rg _ (log_Info _ _ _) _ _ _ _ => unfold log_Info, Logger_Info
  | |- rg _ (log_Warn _ _ _) _ _ _ _ => unfold log_Warn, Logger_Warn
  | |- rg _ (log_Error _ _ _) _ _ _ _ => unfold log_Error, Logger_Error
  | |- rg _ (send_mail _ _ _) _ _ _ _ => apply rg_send_mail; [solve [eauto]|intros ? ? ? _]
  | |- rg _ (record_or_log _ _ _ _ _) _ _ _ _ => unfold record_or_log
  | |- rg _ (match ?x with _ => _ end) _ _ _ _ => destruct x
  | |- True => exact I
  end.

Notation any := (λ _ _ _ _, True) (only parsing).

(** ** The handlers *)

Section handlers.
Context `{Env, Bcrypt, JWT} {S : Type} `{StoreModel S, !StoreLaws}.
Context (e : Engine S) `{!EngineLaws e, !UniqueIDs (e_ids e), !CanonicalIDs e}.
Context (Hstrict : strict = true).

Implicit Types (w : World S) (owned used : string → Prop).

Notation rg := (rg (e_ids e)).
Notation own := (own (e_ids e)).

Lemma own_canonical w used id k : own w used id → key id = Some k → k = id.
Proof. intros [_ (a & a' & Ha & _)]. by eapply canonical_ids. Qed.

(** Opening a session: a new family under an ID of the program's own. *)
Lemma rg_create id user hash ip agent owned (Q : result () → (string → Prop) → World S → (string → Prop) → Prop) w used :
  owned id →
  (∀ b w2 used2, rely w used w2 used2 → Q b (λ k, owned k ∧ k ≠ id) w2 used2) →
  rg (on_store (SessionStore_Create (e_sessions e) (new_Session id id user hash ip agent)))
    owned Q w used.
Proof.
  intros Hid. eapply rg_adding_op; [apply sc_create; apply _|done|].
  intros w1 u1 v' [] _ Hv Hown (k & kf & ku & t & Hk & Hkf & _ & Hnew & ->). simplify_eq.
  pose proof (own_canonical _ _ _ _ Hown Hk) as ->. destruct (Hnew Hstrict) as [Hn _].
  apply moved_added; [apply Hv|apply Hown|by constructor|]. simpl.
  intros k [s Hs]. apply lookup_insert_Some in Hs as [[<- _]|[_ Hs]]; [by left|right; by eexists].
Qed.

(** Rotating a session that was seen before, whatever happened since. *)
Lemma rg_rotate s0 id hash ip agent owned (Q : result () → (string → Prop) → World S → (string → Prop) → Prop) w used :
  owned id → valid (e_ids e) w used → sess w !! Session_ID s0 = Some s0 →
  ∀ w0 used0, rely w used w0 used0 →
  (∀ b w2 used2, rely w0 used0 w2 used2 → Q b (λ k, owned k ∧ k ≠ id) w2 used2) →
  rg (on_store (SessionStore_RotateToken (e_sessions e) (Session_ID s0)
        (new_Session id (Session_FamilyID s0) (Session_UserID s0) hash ip agent)))
    owned Q w0 used0.
Proof.
  intros Hid Hv0 Hs0 w0 u0 Hr0. eapply rg_adding_op; [apply sc_rotate; apply _|done|].
  intros w1 u1 v' [] Hr Hv Hown
    (ko & so & t & kn & kf & ku & t' & Ho & Hso & Hn & Hf & Hu & Hstr & ->).
  destruct (canon_session _ _ _ (valid_inv _ _ _ Hv0) Hs0) as (_ & ? & ? & ?). simplify_eq.
  pose proof (own_canonical _ _ _ _ Hown Hn) as ->.
  destruct (Hstr Hstrict) as (Hl & Hnew & _).
  destruct (moved_kept _ _ _ _ (rely_moved _ _ _ _ (rely_trans _ _ _ _ _ _ Hr0 Hr)) (Session_ID s0) so)
    as (s & Hs & (_ & Hfam & Huser & _) & _); [by eapply valid_covered|done|].
  simplify_eq. apply moved_added; [apply Hv|apply Hown|by apply step_rotate|]. simpl.
  intros k [s' Hs']. rewrite !lookup_insert_Some in Hs'.
  destruct Hs' as [[<- _]|[_ [[<- _]|[_ Hs']]]]; [by left|right; by eexists..].
Qed.

Lemma rg_Rotate raw owned w used :
  rg (Rotate (e_sessions e) (e_refreshGen e) (e_ids e) raw) owned any w used.
Proof.
  unfold Rotate. apply rg_bind. eapply rg_read; [apply sc_get_by_hash; apply _|].
  intros r w1 u1 _ Hv HR. destruct r as [s|?]; [|rg_go]. destruct HR as [_ [Hs _]].
  case_bool_decide; [rg_go|].
  apply rg_bind, rg_on_amb; [eauto with quiet typeclass_instances|].
  intros raw' w2 u2 Hr2. destruct raw' as [raw'|]; [|rg_go].
  apply rg_bind, rg_draw; [apply _|apply _|intros; rg_go|]. intros id w3 u3 Hr3. cbn [mbind].
  apply rg_bind. eapply rg_rotate; [by right|done|exact Hs|by eapply rely_trans|].
  intros r w4 u4 _. destruct r; rg_go.
Qed.

Lemma rg_serve r owned w used : rg (serve e r) owned any w used.
Proof.
  pose proof (el_verifications (e:=e)) as Hvs. pose proof (el_sender (e:=e)) as Hsnd.
  destruct r; cbn [serve]; apply rg_bind, (rg_mono _ _ _ any); try (intros; exact I).
  - unfold cryden_SignUp, SignUp. rg_go.
  - unfold cryden_Login, Login, recordLoginFailure, is_locked, count_failure, open_session. rg_go.
    all: apply rg_create; [by right|intros ? ? ? _]; rg_go.
  - unfold cryden_ChangePassword, ChangePassword. rg_go.
  - unfold cryden_DeleteAccount, DeleteAccount. rg_go.
  - unfold cryden_RequestEmailChange, RequestEmailChange.
    destruct (e_verifications e) as [vs|], (e_emailSender e) as [snd|];
      [specialize (Hvs vs eq_refl); specialize (Hsnd snd eq_refl)|..]; rg_go.
  - unfold cryden_ConfirmEmailChange, ConfirmEmailChange.
    destruct (e_verifications e) as [vs|]; [specialize (Hvs vs eq_refl)|]; rg_go.
  - unfold cryden_Logout, Logout. rg_go.
  - unfold cryden_LogoutAll, LogoutAll. rg_go.
  - unfold cryden_RefreshToken. apply rg_bind, (rg_mono _ _ _ any); [|apply rg_Rotate].
    intros [res err] ? ? ? _. rg_go.
  - unfold cryden_VerifyToken. rg_go.
  - unfold cryden_ListSessions, List. rg_go.
  - unfold cryden_RevokeSession, Revoke. rg_go.
Qed.

(** ** Pools of requests *)

Definition request_enters (p : Prog (World S) ()) : Prop := ∃ r, p = serve e r.

(** The programs of a pool are safe, and own different IDs. *)
Record pool_ok (c : list (Prog (World S) ()) * World S) (owned : nat → string → Prop)
    (used : string → Prop) : Prop := {
  po_valid : valid (e_ids e) c.2 used;
  po_machine : machine_inv (sess c.2);
  po_progs i p : c.1 !! i = Some p → rg p (owned i) any c.2 used;
  po_own i k : owned i k → own c.2 used k;
  po_apart i j k : owned i k → owned j k → i = j;
}.

Lemma pool_act_ok ps w (owned : nat → string → Prop) used i B (m : St (World S) B) k b w' :
  pool_ok (ps, w) owned used → ps !! i = Some (Do m k) → m w = (b, w') →
  ∃ (owned' : nat → string → Prop) used', pool_ok (<[i := k b]> ps, w') owned' used' ∧ rely w used w' used'.
Proof.
  intros [Hv Hm Hp Ho Ha] Hps E. simpl in *.
  destruct (Hp _ _ Hps w used (rely_refl _ _) Hv (Ho i) _ _ E) as (o2 & u2 & [Hr Hv2 Hu Hdr Hown] & Hk).
  exists (λ j, if decide (j = i) then o2 else owned j), u2. split; [|done]. split; simpl.
  - done.
  - eapply machine_inv_steps; [done|by apply Hr].
  - intros j p. destruct (decide (j = i)) as [->|Hne].
    + rewrite list_lookup_insert_eq by by eapply lookup_lt_Some. by intros [= <-].
    + rewrite list_lookup_insert_ne by done. intros Hj. eapply rg_stable; [done|by apply Hp].
  - intros j x. destruct (decide (j = i)) as [->|Hne]; [apply Hown|]. intros Hj.
    destruct (Ho _ _ Hj) as [Hnu Hd]. split; [|eapply drawn_by_mono; [apply Hr|done]].
    intros [?|Hi]%Hu; [done|]. by apply Hne, (Ha j i x).
  - assert (∀ j x, j ≠ i → owned j x → o2 x → False) as Hnew.
    { intros j x Hne Hj [Hi|(a & a' & Hd & Hle & _)]%Hdr; [by apply Hne, (Ha j i x)|].
      destruct (Ho _ _ Hj) as [_ (a0 & a0' & Hd0 & Hle0)].
      eapply (unique_ids a0 a0' a a' x); [done..|by etrans]. }
    intros j l x. destruct (decide (j = i)) as [->|], (decide (l = i)) as [->|]; eauto.
    + intros ? ?. exfalso. eauto.
    + intros ? ?. exfalso. eauto.
Qed.

Lemma pool_ok_steps c c' (owned : nat → string → Prop) used :
  pool_ok c owned used → rtc (pool_step request_enters) c c' →
  ∃ (owned' : nat → string → Prop) used', pool_ok c' owned' used' ∧ rely c.2 used c'.2 used'.
Proof.
  intros Hc HS. revert owned used Hc.
  induction HS as [c|c c1 c2 Hst _ IH]; intros owned used Hc; [by eauto using rely_refl|].
  assert (∃ (owned' : nat → string → Prop) used', pool_ok c1 owned' used' ∧ rely c.2 used c1.2 used') as (o1 & u1 & Hc1 & ?).
  { destruct Hst as [ps i B m k w b w' Hps E|ps p w [r ->]]; [by eapply pool_act_ok|].
    exists owned, used. split; [|apply rely_refl]. destruct Hc as [Hv Hm Hp Ho Ha].
    split; try done. simpl in *. intros i p [Hi|[_ Hi]]%lookup_app_Some; [by apply Hp|].
    apply list_lookup_singleton_Some in Hi as [_ <-]. apply rg_serve. }
  destruct (IH _ _ Hc1) as (o2 & u2 & ? & ?). exists o2, u2. split; [done|by eapply rely_trans].
Qed.

(** The pools that an engine can get to from a storage without sessions. *)
Definition pool_reachable (c : list (Prog (World S) ()) * World S) : Prop :=
  ∃ w0, inv w0 ∧ sess w0 = ∅ ∧ rtc (pool_step request_enters) ([], w0) c.

Lemma pool_reachable_ok c : pool_reachable c → ∃ (owned : nat → string → Prop) used, pool_ok c owned used.
Proof.
  intros (w0 & Hi & Hemp & HS).
  destruct (pool_ok_steps ([], w0) c (λ _ _, False) (λ _, False)) as (o & u & ? & _); [|done|eauto].
  split; simpl; try done; [|rewrite Hemp; apply machine_inv_empty].
  split; try done. intros k s. by rewrite Hemp, lookup_empty.
Qed.

(** C3: concurrent requests are safe over a storage that enforces its keys and
    revokes a session at most once: however the atomic actions of any number of
    requests interleave, at no moment has a session family two live sessions (so
    of several simultaneous exchanges of one refresh token at most one leaves a
    usable session), and a session that is still there later is the same session,
    and live only if it was live before. *)
Theorem concurrent_requests_safe c c' :
  pool_reachable c → rtc (pool_step request_enters) c c' →
  one_live (sess c'.2) ∧ rooted (sess c'.2) ∧
  ∀ k s s', sess c.2 !! k = Some s → sess c'.2 !! k = Some s' →
    same_session s s' ∧ (live s' → live s).
Proof.
  intros Hc HS. destruct (pool_reachable_ok _ Hc) as (o & u & Hok).
  destruct (pool_ok_steps _ _ _ _ Hok HS) as (o' & u' & [_ [] _ _ _] & [_ [_ _ Hk]]).
  split_and!; [done..|]. intros k s s' Hs Hs'.
  destruct (Hk k s') as (s0 & Hs0 & ? & ?); [by eapply po_valid|done|]. simplify_eq. done.
Qed.

End handlers.

(** ** Instances *)

Section witnesses.
#[local] Existing Instances sample_env sample_bcrypt sample_jwt sample_pg.
#[local] Existing Instances sample_bcrypt_laws sample_jwt_laws sample_pg_laws.

(** Both requests read the session before either of them rotates it. *)
Definition race : list nat := [0; 0; 0; 1; 1; 1; 0; 1; 0; 0; 1; 1; 0; 1]%nat.

Definition race_world : World MemHeap :=
  (schedule race [cryden_RefreshToken sample_engine raw1; cryden_RefreshToken sample_engine raw1]
    w_login).2.

Lemma race_outcome : ∃ t1 t2,
  (schedule race [cryden_RefreshToken sample_engine raw1; cryden_RefreshToken sample_engine raw1]
    w_login).1 = [Ret (Ok t1); Ret (Ok t2)] ∧ Tokens_RefreshToken t1 ≠ Tokens_RefreshToken t2.
Proof. eexists _, _. split; [vm_compute; reflexivity|]. vm_compute. discriminate. Qed.

(** C29: the in-memory stores are not safe in this sense: two requests that
    exchange the same refresh token at the same time can both succeed, which
    leaves two live sessions in one family and no reuse detected. *)
Theorem memory_rotation_race :
  ∃ t1 t2 w,
    schedule race [cryden_RefreshToken sample_engine raw1; cryden_RefreshToken sample_engine raw1]
      w_login = ([Ret (Ok t1); Ret (Ok t2)], w) ∧
    Tokens_RefreshToken t1 ≠ Tokens_RefreshToken t2 ∧
    one_live (v_sessions (view (w_store w_login))) ∧
    ¬ one_live (v_sessions (view (w_store w))).
Proof.
  destruct race_outcome as (t1 & t2 & Hr & Ht). exists t1, t2, race_world. split_and!; [|done|..].
  - rewrite <- Hr. apply surjective_pairing.
  - intros k1 k2 s1 s2 H1 H2 _ _ _.
    destruct (only_entry _ _ _ _ _ login_sessions H1) as [-> _].
    by destruct (only_entry _ _ _ _ _ login_sessions H2) as [-> _].
  - intros Hone. specialize (Hone "id17" "id20").
    assert (is_Some (v_sessions (view (w_store race_world)) !! "id17")) as [s1 H1]
      by (vm_compute; eauto).
    assert (is_Some (v_sessions (view (w_store race_world)) !! "id20")) as [s2 H2]
      by (vm_compute; eauto).
    specialize (Hone _ _ H1 H2). revert Hone H1 H2. vm_compute. intros Hone [= <-] [= <-].
    discriminate (Hone eq_refl eq_refl eq_refl).
Qed.

(** A login and two exchanges of its token at the same time over Postgres. *)
Definition raw_pg := "0b0c0d0e0f101112131415161718191a1b1c1d1e1f202122232425262728292a".
Definition pg_requests : list request :=
  [ReqSignUp alice "hunter2" home; ReqLogin alice "hunter2" home "curl";
   ReqRefreshToken raw_pg; ReqRefreshToken raw_pg].
Definition pg_order : list nat :=
  replicate 12 0%nat ++ replicate 14 1%nat ++ concat (replicate 7 [2; 3]%nat).

Definition pg_raced := schedule pg_order (serve pg_engine <$> pg_requests) pg_world0.

#[local] Instance pg_unique : UniqueIDs (e_ids pg_engine).
Proof. exact sample_unique. Qed.

#[local] Instance pg_canonical : CanonicalIDs (S:=PgHeap) pg_engine.
Proof. split. by intros id k a a' _ [= ->]. Qed.

Lemma concurrent_requests_safe_witness : one_live (sess pg_raced.2).
Proof.
  refine (proj1 (concurrent_requests_safe pg_engine eq_refl ([], pg_world0) pg_raced _ _)).
  - exists pg_world0. split_and!; [|done..]. apply pg_inv_b_sound. vm_compute. reflexivity.
  - etrans; [|apply schedule_steps].
    refine (pool_enter_all _ (serve pg_engine <$> pg_requests) [] pg_world0 _).
    apply Forall_fmap, Forall_true. intros r. by exists r.
Defined.

End witnesses.
