(* ===== verification/Footprint.v ===== *)
(** * What every action of a program does

    [acts I G p Q]: each atomic action of [p], from any state in the invariant [I]
    (whatever other programs did before it), stays in [I] and makes a transition
    in [G]; results satisfy [Q]. Such a footprint holds for a program that runs
    alone and for one that runs in a pool.

    [shares I p g Q] is the same with an account: every program holds a share of a
    quantity, the invariant speaks of the state and of the total, and an action of a
    program changes its own share only. *)
From S2P Require Import Prelude Interleaving.

Section footprint.
Context {X : Type} (I : X → Prop) (G : X → X → Prop).

Fixpoint acts {A} (p : Prog X A) (Q : A → Prop) : Prop :=
  match p with
  | Ret a => Q a
  | Do m k => ∀ x, I x → ∀ b x', m x = (b, x') → I x' ∧ G x x' ∧ acts (k b) Q
  end.

#[global] Arguments acts : simpl never.

Lemma acts_ret {A} (a : A) (Q : A → Prop) : Q a → acts (mret a) Q.
Proof. done. Qed.

Lemma acts_bind {A B} (f : A → Prog X B) p (Q : B → Prop) :
  acts p (λ a, acts (f a) Q) → acts (p ≫= f) Q.
Proof.
  unfold mbind, Prog_bind. induction p as [a|C m k IH]; [done|].
  intros Hp x Hx b x' E. destruct (Hp x Hx b x' E) as (? & ? & ?). auto.
Qed.

Lemma acts_mono {A} (p : Prog X A) (Q R : A → Prop) :
  (∀ a, Q a → R a) → acts p Q → acts p R.
Proof.
  intros HQ. induction p as [a|C m k IH]; [apply HQ|].
  intros Hp x Hx b x' E. destruct (Hp x Hx b x' E) as (? & ? & ?). auto.
Qed.

Lemma acts_act {A} (m : St X A) (Q : A → Prop) :
  (∀ x b x', I x → m x = (b, x') → I x' ∧ G x x' ∧ Q b) → acts (act m) Q.
Proof. intros Hm x Hx b x' E. by apply Hm. Qed.

Context `{!PreOrder G}.

Lemma acts_run {A} (p : Prog X A) Q x a x' :
  I x → acts p Q → run p x = (a, x') → I x' ∧ G x x' ∧ Q a.
Proof.
  revert x. induction p as [b|C m k IH]; intros x Hx Hp.
  { intros [= <- <-]. split_and!; done. }
  change (run (Do m k) x) with (let '(b, y) := m x in run (k b) y).
  destruct (m x) as [b y] eqn:E. destruct (Hp x Hx b y E) as (Hy & ? & Hk).
  intros Hrun. destruct (IH b y Hy Hk Hrun) as (? & ? & ?). split_and!; [done|by etrans|done].
Qed.

(** A pool of such programs stays in the invariant and only makes such
    transitions, however the actions interleave. *)
Lemma acts_pool {A} (enter : Prog X A → Prop) c c' :
  (∀ p, enter p → acts p (λ _, True)) → rtc (pool_step enter) c c' →
  Forall (λ p, acts p (λ _, True)) c.1 → I c.2 →
  I c'.2 ∧ G c.2 c'.2 ∧ Forall (λ p, acts p (λ _, True)) c'.1.
Proof.
  intros Henter. induction 1 as [c|c c1 c2 Hst _ IH]; intros Hps Hx; [by split_and!|].
  assert (I c1.2 ∧ G c.2 c1.2 ∧ Forall (λ p, acts p (λ _, True)) c1.1) as (Hx1 & ? & Hps1).
  { destruct Hst as [ps i B m k x b x' Hi E|ps p x Hp]; simpl in *.
    - pose proof (Forall_lookup_1 _ _ _ _ Hps Hi) as Hm.
      destruct (Hm x Hx b x' E) as (? & ? & ?). split_and!; [done..|]. by apply Forall_insert.
    - split_and!; [done..|]. apply Forall_app. split; [done|]. apply Forall_singleton. auto. }
  destruct (IH Hps1 Hx1) as (? & ? & ?). split_and!; [done|by etrans|done].
Qed.

End footprint.

Section shares.
Context {X M : Type} (I : X → M → Prop) (zero : M) (plus : M → M → M).
Context `{!Comm (=) plus, !Assoc (=) plus, !LeftId (=) zero plus}.

Fixpoint shares {A} (p : Prog X A) (g : M) (Q : A → M → Prop) : Prop :=
  match p with
  | Ret a => Q a g
  | Do m k => ∀ x rest, I x (plus g rest) → ∀ b x', m x = (b, x') →
      ∃ g', I x' (plus g' rest) ∧ shares (k b) g' Q
  end.

#[global] Arguments shares : simpl never.

Lemma shares_ret {A} (a : A) g (Q : A → M → Prop) : Q a g → shares (mret a) g Q.
Proof. done. Qed.

Lemma shares_bind {A B} (f : A → Prog X B) p g (Q : B → M → Prop) :
  shares p g (λ a g, shares (f a) g Q) → shares (p ≫= f) g Q.
Proof.
  unfold mbind, Prog_bind. revert g. induction p as [a|C m k IH]; intros g; [done|].
  intros Hp x rest Hx b x' E. destruct (Hp x rest Hx b x' E) as (g' & ? & ?). eauto.
Qed.

Lemma shares_mono {A} (p : Prog X A) g (Q R : A → M → Prop) :
  (∀ a g, Q a g → R a g) → shares p g Q → shares p g R.
Proof.
  intros HQ. revert g. induction p as [a|C m k IH]; intros g; [apply HQ|].
  intros Hp x rest Hx b x' E. destruct (Hp x rest Hx b x' E) as (g' & ? & ?). eauto.
Qed.

Lemma shares_act {A} (m : St X A) g (Q : A → M → Prop) :
  (∀ x rest b x', I x (plus g rest) → m x = (b, x') → ∃ g', I x' (plus g' rest) ∧ Q b g') →
  shares (act m) g Q.
Proof. intros Hm x rest Hx b x' E. by eapply Hm. Qed.

(** A program whose footprint the account does not mind. *)
Lemma acts_shares (J : X → Prop) (G : X → X → Prop) {A} (p : Prog X A) Q g :
  (∀ x n, I x n → J x) → (∀ x x' n, I x n → J x' → G x x' → I x' n) →
  acts J G p Q → shares p g (λ a g', Q a ∧ g' = g).
Proof.
  intros HJ HG. induction p as [a|C m k IH]; [done|]. intros Hp x rest Hx b x' E.
  destruct (Hp x (HJ _ _ Hx) b x' E) as (? & ? & ?). exists g. split; [exact (HG _ _ _ Hx ltac:(done) ltac:(done))|auto].
Qed.

Definition total (gs : list M) : M := foldr plus zero gs.

Lemma total_lookup gs i g :
  gs !! i = Some g → ∃ rest, total gs = plus g rest ∧ ∀ g', total (<[i := g']> gs) = plus g' rest.
Proof.
  revert i. induction gs as [|g0 gs IH]; intros [|i]; simpl; try done.
  - intros [= ->]. by exists (total gs).
  - intros (rest & Heq & Hins)%IH. exists (plus g0 rest). unfold total in *. rewrite Heq.
    split; [|intros g'; rewrite Hins]; by rewrite !assoc, (comm plus g0) by apply _.
Qed.

Lemma total_enter gs : total (gs ++ [zero]) = total gs.
Proof.
  unfold total. rewrite foldr_app. simpl. by rewrite (left_id zero plus zero).
Qed.

Lemma shares_pool {A} (enter : Prog X A → Prop) (Q : A → M → Prop) c c' gs :
  (∀ p, enter p → shares p zero Q) → rtc (pool_step enter) c c' →
  Forall2 (λ p g, shares p g Q) c.1 gs → I c.2 (total gs) →
  ∃ gs', Forall2 (λ p g, shares p g Q) c'.1 gs' ∧ I c'.2 (total gs').
Proof.
  intros Henter HS. revert gs. induction HS as [c|c c1 c2 Hst _ IH]; intros gs Hps Hx; [eauto|].
  destruct Hst as [ps i B m k x b x' Hi E|ps p x Hp]; simpl in *.
  - destruct (Forall2_lookup_l _ _ _ _ _ Hps Hi) as (g & Hg & Hm).
    destruct (total_lookup _ _ _ Hg) as (rest & Heq & Hins). rewrite Heq in Hx.
    destruct (Hm x rest Hx b x' E) as (g' & Hx' & Hk).
    apply (IH (<[i := g']> gs)); [by apply Forall2_insert|]. by rewrite Hins.
  - apply (IH (gs ++ [zero])); [|by rewrite total_enter].
    apply Forall2_app; [done|]. constructor; [by apply Henter|constructor].
Qed.

End shares.

(** Shares of two counts. *)
Definition join (g h : nat * nat) : nat * nat := (g.1 + h.1, g.2 + h.2)%nat.
Definition nothing : nat * nat := (0, 0)%nat.

#[export] Instance join_comm : Comm (=) join.
Proof. intros [] []. unfold join. simpl. f_equal; lia. Qed.
#[export] Instance join_assoc : Assoc (=) join.
Proof. intros [] [] []. unfold join. simpl. f_equal; lia. Qed.
#[export] Instance join_nothing : LeftId (=) nothing join.
Proof. by intros []. Qed.
