(* ===== verification/Hygiene.v ===== *)
(** * What the engine stores, records and logs

    Three rules that every request keeps to in each of its atomic actions, so they
    hold in every state that any interleaving of requests reaches, over any
    storage that keeps the contract:
    - only hashes are stored: a password as the hasher returned it, a token as its
      SHA-256 digest; stored events are of the types the package declares;
    - the audit trail only grows: an event is never altered or removed, except
      that the deletion of a user clears the user of an event;
    - no field of a log call but "error" discloses anything that is not public:
      [P] is any predicate that holds of the requests' public arguments, of the
      generated IDs and of the engine's own words. *)
From stdpp Require Import pretty.
From S2P Require Import Prelude Errors Runtime Sha256 Store StoreSpec SessionMachine Logger.
From S2P Require Import RateLimiter World Security Token Logic Auth Session Engine AuthLogic.
From S2P Require Import LoginLogic SessionSafety Interleaving Footprint.

(** ** The rules *)

Definition event_types : list AuditEventType :=
  [EventSignupSuccess; EventLoginSuccess; EventLoginFailed; EventLogout; EventLogoutAll;
   EventTokenRotated; EventTokenReuseDetected; EventSessionRevoked; EventAccountLocked;
   EventPasswordChanged; EventEmailChangeRequested; EventEmailChanged; EventAccountDeleted].

(** [hash] is what the hasher made of some password. *)
Definition password_hash (h : Hasher) (hash : string) : Prop :=
  ∃ pw a a', Hasher_Hash h pw a = (Ok hash, a').

Definition token_hash (hash : string) : Prop := ∃ raw, hash = HashToken raw.

(** The same event, perhaps without its user. *)
Inductive later_event : AuditEvent → AuditEvent → Prop :=
| later_event_same e : later_event e e
| later_event_cleared e k e' : later_event (clear_user k e) e' → later_event e e'.

(** The trail [es'] is [es], some users cleared, with new events at its end. *)
Definition trail_grows (es es' : list AuditEvent) : Prop :=
  ∃ old new, es' = old ++ new ∧ Forall2 later_event es old.

#[export] Instance later_event_preorder : PreOrder later_event.
Proof.
  split; [constructor|]. intros e1 e2 e3 H12 H23.
  induction H12; [done|]. econstructor. eauto.
Qed.

#[export] Instance trail_grows_preorder : PreOrder trail_grows.
Proof.
  split.
  - intros es. exists es, []. by rewrite app_nil_r.
  - intros es1 es2 es3 (o1 & n1 & -> & H1) (o2 & n2 & -> & H2).
    apply Forall2_app_inv_l in H2 as (o2' & n2' & H2 & _ & ->).
    exists o2', (n2' ++ n2). rewrite <- (assoc_L (++)). split; [done|].
    by etrans.
Qed.

Lemma trail_grows_cleared k es : trail_grows es (clear_user k <$> es).
Proof.
  exists (clear_user k <$> es), []. rewrite app_nil_r. split; [done|].
  induction es; simpl; constructor; [|done]. econstructor. constructor.
Qed.

Lemma trail_grows_snoc es e : trail_grows es (es ++ [e]).
Proof. by exists es, [e]. Qed.

(** ** The state of an engine *)

Section hygiene.
Context `{Env, JWT} {S : Type} `{StoreModel S, !StoreLaws}.
Context (e : Engine S) `{!EngineLaws e}.
Context (P : string → Prop).

Implicit Types (w : World S) (v : View).

(** What a predicate that tells public text has to hold of. *)
Class PublicText : Prop := {
  public_no_user : P "no_such_user";
  public_password : P "wrong_password";
  public_count (n : Z) : P (pretty n);
  public_key s k : P s → key s = Some k → P k;
  public_id a id a' : IDGenerator_New (e_ids e) a = (Ok id, a') → P id;
}.

Context `{!PublicText}.

Record hygienic v : Prop := {
  hy_users k u : v_users v !! k = Some u →
    password_hash (e_hasher e) (User_PasswordHash u) ∧ P (User_ID u);
  hy_sessions k s : v_sessions v !! k = Some s → token_hash (Session_TokenHash s);
  hy_tokens k vt : v_tokens v !! k = Some vt →
    token_hash (VerificationToken_TokenHash vt) ∧ P (VerificationToken_UserID vt) ∧
    VerificationToken_Purpose vt = PurposeEmailChange;
  hy_events : Forall (λ ev, AuditEvent_Type ev ∈ event_types) (v_events v);
}.

(** A call that discloses nothing; the text of an error is the business of the
    component that returned it. *)
Definition public_call (c : LogCall) : Prop :=
  ∀ f val, LogCall_fields c !! f = Some val → f = "error" ∨ P val.

Record clean w : Prop := {
  clean_inv : inv w;
  clean_view : hygienic (vw w);
  clean_log : Forall public_call (w_log w);
}.

Record grows w w' : Prop := {
  grows_trail : trail_grows (v_events (vw w)) (v_events (vw w'));
  grows_log : w_log w `prefix_of` w_log w';
}.

#[export] Instance grows_preorder : PreOrder grows.
Proof.
  split; [by split|]. intros w1 w2 w3 [] []. split; by etrans.
Qed.

Notation acts := (acts clean grows).

(** ** Actions that leave the storage alone *)

Lemma acts_outside {A} (m : St (World S) A) (Q : A → Prop) :
  (∀ w b w', m w = (b, w') → w_store w' = w_store w ∧ w_log w' = w_log w ∧ Q b) →
  acts (act m) Q.
Proof.
  intros Hm. apply acts_act. intros w b w' [Hi Hv Hl] E.
  destruct (Hm _ _ _ E) as (Hs & Hlog & ?). split_and!; [..|done].
  - split; by rewrite ?Hs, ?Hlog.
  - split; by rewrite ?Hs, ?Hlog.
Qed.

Lemma acts_on_amb {A} (op : St Amb A) :
  acts (on_amb op) (λ b, ∃ a a', op a = (b, a')).
Proof.
  apply acts_outside. intros w b w'. destruct (op (w_amb w)) as [r a] eqn:E.
  intros [= <- <-]. eauto.
Qed.

Lemma acts_on_limiter {A} (op : St (LimiterState * Amb) A) : acts (on_limiter op) (λ _, True).
Proof.
  apply acts_outside. intros w b w'. destruct (op _) as [r [l a]]. by intros [= <- <-].
Qed.

Lemma acts_send_mail sender to raw : acts (send_mail sender to raw) (λ _, True).
Proof.
  apply acts_outside. intros w b w'. destruct (EmailSender_SendVerification _ _ _ _).
  by intros [= <- <-].
Qed.

Lemma acts_on_log op c : public_call c → acts (on_log op c) (λ _, True).
Proof.
  intros Hc. apply acts_act. intros w b w' [Hi Hv Hl]. destruct (op _) as [r a].
  intros [= <- <-]. split_and!; [..|done].
  - split; [done..|]. apply Forall_app. split; [done|]. by apply Forall_singleton.
  - split; [done|]. by apply prefix_app_r.
Qed.

(** ** Calls of the stores *)

Definition keeps {A} (op : Op S A) (Q : A → Prop) : Prop :=
  ∃ R, sat op R ∧ ∀ v r v', hygienic v → R v r v' →
    hygienic v' ∧ trail_grows (v_events v) (v_events v') ∧ Q r.

Lemma acts_on_store {A} (op : Op S A) Q : keeps op Q → acts (on_store op) Q.
Proof.
  intros (R & Hop & HR). apply acts_act. intros w b w' [Hi Hv Hl].
  destruct (op (w_store w, w_amb w)) as [r [s a]] eqn:E. intros [= <- <-].
  destruct (Hop _ _ _ _ _ Hi E) as (? & _ & Hr). destruct (HR _ _ _ Hv Hr) as (? & ? & ?).
  split_and!; [..|done]; by split.
Qed.

Lemma keeps_reads {A} (op : Op S (result A)) R R' (Q : A → Prop) :
  sat op (reads R R') → (∀ v x, hygienic v → R v x → Q x) →
  keeps op (λ r, ∀ x, r = Ok x → Q x).
Proof.
  intros Hop HQ. eexists. split; [done|]. intros v r v' Hv [-> Hr]. split_and!; [done..|].
  intros x ->. eauto.
Qed.

Lemma keeps_mutates {A} (op : Op S (result A)) present E :
  sat op (mutates present E) →
  (∀ v x v', hygienic v → E v x v' → hygienic v' ∧ trail_grows (v_events v) (v_events v')) →
  keeps op (λ _, True).
Proof.
  intros Hop HE. eexists. split; [done|]. intros v r v' Hv Hr.
  assert (v' = v ∨ ∃ x, E v x v') as [->|[x Hx]].
  { destruct r as [x|?]; [eauto|by destruct Hr]. }
  - by split_and!.
  - destruct (HE _ _ _ Hv Hx). by split_and!.
Qed.

(** Changes of one table. *)
Lemma hygienic_users v m :
  hygienic v →
  (∀ k u, m !! k = Some u → password_hash (e_hasher e) (User_PasswordHash u) ∧ P (User_ID u)) →
  hygienic (with_users v m).
Proof. intros [] ?. by split. Qed.

Lemma hygienic_sessions v m :
  hygienic v → (∀ k s, m !! k = Some s → token_hash (Session_TokenHash s)) →
  hygienic (with_sessions v m).
Proof. intros [] ?. by split. Qed.

Lemma hygienic_revoke_where v (R : Session → Prop) `{∀ s, Decision (R s)} t :
  hygienic v → hygienic (with_sessions v (revoke_where R t <$> v_sessions v)).
Proof.
  intros Hv. apply hygienic_sessions; [done|]. intros k s (x & <- & Hx)%lookup_fmap_Some.
  destruct (later_revoke_where R t x) as [(_ & _ & _ & ->) _]. by eapply hy_sessions.
Qed.

Lemma hygienic_cascade v k : hygienic v → hygienic (cascade k v).
Proof.
  intros [HU HS HT HE]. split; simpl; [done|..].
  - intros i s [? _]%map_lookup_filter_Some. eauto.
  - intros i t [? _]%map_lookup_filter_Some. eauto.
  - apply Forall_fmap. eapply Forall_impl; [done|]. intros ev. simpl. unfold clear_user.
    by case_bool_decide.
Qed.

(** An update of a user that keeps the ID and stores no new hash. *)
Lemma hygienic_user_updated v v' id (F : User → User → Prop) :
  hygienic v → user_updated id F v v' →
  (∀ u u', F u u' → User_ID u' = User_ID u ∧
     (User_PasswordHash u' = User_PasswordHash u ∨
      password_hash (e_hasher e) (User_PasswordHash u'))) →
  hygienic v' ∧ trail_grows (v_events v) (v_events v').
Proof.
  intros Hv (k & u & u' & _ & Hu & HF & ->) HFu. split; [|done].
  apply hygienic_users; [done|]. intros k' x.
  rewrite lookup_insert_Some. intros [[<- <-]|[_ Hx]]; [|by eapply hy_users].
  destruct (HFu _ _ HF) as [-> Hh]. destruct (hy_users _ Hv _ _ Hu).
  destruct Hh as [->|?]; done.
Qed.

(** ** Each call of the engine *)

Section calls.
Context (users : UserStore S) (sessions : SessionStore S) (audit : AuditStore S)
  (vs : VerificationStore S).
Context `{!UserContract users, !SessionContract sessions, !AuditContract audit,
  !VerificationContract vs}.

Lemma keeps_user_create id email hash :
  password_hash (e_hasher e) hash → P id →
  keeps (UserStore_Create users (new_User id email hash)) (λ _, True).
Proof.
  intros Hh Hid. eapply keeps_mutates; [eauto with cryden|].
  intros v [] v' Hv (k & t & t' & Hk & _ & ->). split; [|done].
  apply hygienic_users; [done|]. intros k' x. rewrite lookup_insert_Some.
  intros [[<- <-]|[_ Hx]]; [|by eapply hy_users]. split; [done|]. by eapply public_key.
Qed.

Lemma keeps_user_by_email email :
  keeps (UserStore_GetByEmail users email) (λ r, ∀ u, r = Ok u → P (User_ID u)).
Proof.
  eapply (keeps_reads _ _ _ (λ u, P (User_ID u))); [eauto with cryden|].
  intros v u Hv [Hu _]. by eapply hy_users.
Qed.

Lemma keeps_user_by_id id :
  keeps (UserStore_GetByID users id) (λ r, ∀ u, r = Ok u → P (User_ID u)).
Proof.
  eapply (keeps_reads _ _ _ (λ u, P (User_ID u))); [eauto with cryden|].
  intros v u Hv [_ Hu]. by eapply hy_users.
Qed.

Ltac user_update :=
  eapply keeps_mutates; [eauto with cryden|]; intros v x v' Hv HE;
  eapply hygienic_user_updated; [exact Hv|first [exact HE|exact (proj1 HE)]|].

Lemma keeps_update_email id email : keeps (UserStore_UpdateEmail users id email) (λ _, True).
Proof. user_update. intros u u' [t ->]. by split; [|left]. Qed.

Lemma keeps_update_password id hash :
  password_hash (e_hasher e) hash →
  keeps (UserStore_UpdatePasswordHash users id hash) (λ _, True).
Proof. intros Hh. user_update. intros u u' [t ->]. by split; [|right]. Qed.

Lemma keeps_increment id : keeps (UserStore_IncrementFailedAttempts users id) (λ _, True).
Proof. user_update. intros u u' [_ ->]. by split; [|left]. Qed.

Lemma keeps_reset id : keeps (UserStore_ResetFailedAttempts users id) (λ _, True).
Proof. user_update. intros u u' ->. by split; [|left]. Qed.

Lemma keeps_lock id t : keeps (UserStore_LockAccount users id t) (λ _, True).
Proof. user_update. intros u u' (t' & _ & ->). by split; [|left]. Qed.

Lemma keeps_user_delete id : keeps (UserStore_Delete users id) (λ _, True).
Proof.
  eapply keeps_mutates; [eauto with cryden|]. intros v [] v' Hv (k & _ & _ & ->).
  assert (hygienic (if strict then cascade k v else v)) as Hc
    by (destruct strict; [by apply hygienic_cascade|done]).
  split.
  - apply hygienic_users; [done|]. intros i u [_ Hu]%lookup_delete_Some. by eapply (hy_users _ Hv).
  - simpl. destruct strict; [apply trail_grows_cleared|done].
Qed.

Lemma keeps_session_create id family user raw ip agent :
  keeps (SessionStore_Create sessions (new_Session id family user (HashToken raw) ip agent))
    (λ _, True).
Proof.
  eapply keeps_mutates; [eauto with cryden|].
  intros v [] v' Hv (k & kf & ku & t & _ & _ & _ & _ & ->). split; [|done].
  apply hygienic_sessions; [done|]. intros i s. rewrite lookup_insert_Some.
  intros [[_ <-]|[_ Hs]]; [by eexists|by eapply hy_sessions].
Qed.

Lemma keeps_session_by_id id : keeps (SessionStore_GetByID sessions id) (λ _, True).
Proof.
  destruct (keeps_reads (SessionStore_GetByID sessions id) _ _ (λ _, True)
    (sc_get_by_id id) ltac:(done)) as (R & ? & HR).
  exists R. split; [done|]. intros v r v' Hv Hr. by destruct (HR v r v' Hv Hr) as (? & ? & _).
Qed.

Lemma keeps_session_by_hash hash : keeps (SessionStore_GetByTokenHash sessions hash) (λ _, True).
Proof.
  destruct (keeps_reads (SessionStore_GetByTokenHash sessions hash) _ _ (λ _, True)
    (sc_get_by_hash hash) ltac:(done)) as (R & ? & HR).
  exists R. split; [done|]. intros v r v' Hv Hr. by destruct (HR v r v' Hv Hr) as (? & ? & _).
Qed.

Lemma keeps_list user : keeps (SessionStore_ListByUser sessions user) (λ _, True).
Proof.
  destruct (keeps_reads (SessionStore_ListByUser sessions user) _ _ (λ _, True)
    (sc_list user) ltac:(done)) as (R & ? & HR).
  exists R. split; [done|]. intros v r v' Hv Hr. by destruct (HR v r v' Hv Hr) as (? & ? & _).
Qed.

Lemma keeps_revoke id : keeps (SessionStore_Revoke sessions id) (λ _, True).
Proof.
  eapply keeps_mutates; [eauto with cryden|]. intros v [] v' Hv (k & s & t & _ & Hs & _ & ->).
  split; [|done]. apply hygienic_sessions; [done|]. intros i x. rewrite lookup_insert_Some.
  intros [[_ <-]|[_ Hx]]; [exact (hy_sessions _ Hv _ _ Hs)|by eapply hy_sessions].
Qed.

Lemma keeps_revoke_family f : keeps (SessionStore_RevokeFamily sessions f) (λ _, True).
Proof.
  eapply keeps_mutates; [eauto with cryden|]. intros v [] v' Hv (k & t & _ & ->).
  split; [by apply hygienic_revoke_where|done].
Qed.

Lemma keeps_revoke_all u : keeps (SessionStore_RevokeAllForUser sessions u) (λ _, True).
Proof.
  eapply keeps_mutates; [eauto with cryden|]. intros v [] v' Hv (k & t & _ & ->).
  split; [by apply hygienic_revoke_where|done].
Qed.

Lemma keeps_rotate old id family user raw ip agent :
  keeps (SessionStore_RotateToken sessions old
    (new_Session id family user (HashToken raw) ip agent)) (λ _, True).
Proof.
  eapply keeps_mutates; [eauto with cryden|].
  intros v [] v' Hv (ko & so & t & kn & kf & ku & t' & _ & Hso & _ & _ & _ & _ & ->).
  split; [|done]. apply hygienic_sessions; [done|]. intros i s. rewrite !lookup_insert_Some.
  intros [[_ <-]|[_ [[_ <-]|[_ Hs]]]]; [by eexists|exact (hy_sessions _ Hv _ _ Hso)|by eapply hy_sessions].
Qed.

Lemma keeps_record ty user ip meta :
  ty ∈ event_types → keeps (AuditStore_Record audit (new_AuditEvent ty user ip meta)) (λ _, True).
Proof.
  intros Hty. eapply keeps_mutates; [eauto with cryden|].
  intros v [] v' Hv (ev & ((Ht & _) & _) & ->). split; [|apply trail_grows_snoc].
  destruct Hv. split; [done..|]. simpl. apply Forall_app. split; [done|].
  apply Forall_singleton. by rewrite Ht.
Qed.

Lemma keeps_token_create id user raw email expires :
  P user →
  keeps (VerificationStore_Create vs
    (new_VerificationToken id user PurposeEmailChange (HashToken raw) email expires)) (λ _, True).
Proof.
  intros Hu. eapply keeps_mutates; [eauto with cryden|].
  intros v [] v' Hv (k & ku & x & t & _ & Hku & _ & _ & ->). split; [|done].
  destruct Hv. split; [done..| |done]. simpl. intros i vt. rewrite lookup_insert_Some.
  intros [[_ <-]|[_ Hvt]]; [|eauto]. split_and!; [by eexists|by eapply public_key|done].
Qed.

Lemma keeps_token_by_hash hash :
  keeps (VerificationStore_GetByTokenHash vs hash)
    (λ r, ∀ vt, r = Ok vt → P (VerificationToken_UserID vt)).
Proof.
  eapply (keeps_reads _ _ _ (λ vt, P (VerificationToken_UserID vt))); [eauto with cryden|].
  intros v vt Hv [Hvt _]. by eapply hy_tokens.
Qed.

Lemma keeps_mark_used id : keeps (VerificationStore_MarkUsed vs id) (λ _, True).
Proof.
  eapply keeps_mutates; [eauto with cryden|]. intros v [] v' Hv (k & vt & t & _ & Hvt & ->).
  split; [|done]. pose proof (hy_tokens _ Hv _ _ Hvt). destruct Hv. split; [done..| |done].
  simpl. intros i x. rewrite lookup_insert_Some. intros [[_ <-]|[_ Hx]]; [done|eauto].
Qed.

End calls.

End hygiene.

#[export] Hint Resolve keeps_user_create keeps_user_by_email keeps_user_by_id
  keeps_update_email keeps_update_password keeps_increment keeps_reset keeps_lock
  keeps_user_delete keeps_session_create keeps_session_by_id keeps_session_by_hash keeps_list
  keeps_revoke keeps_revoke_family keeps_revoke_all keeps_rotate keeps_record
  keeps_token_create keeps_token_by_hash keeps_mark_used : hygiene.
#[export] Hint Extern 1 (_ ∈ event_types) =>
  apply (bool_decide_unpack _); vm_compute; exact I : hygiene.

(** The fields of a log call, one by one. *)
Ltac solve_public :=
  let f := fresh "f" in let x := fresh "x" in let Hf := fresh "Hf" in
  intros f x Hf; cbn [LogCall_fields] in Hf;
  repeat (apply lookup_insert_Some in Hf as [[<- <-]|[_ Hf]];
          [solve [left; reflexivity|right; eauto with hygiene]|]);
  first [ apply lookup_singleton_Some in Hf as [<- <-];
          solve [left; reflexivity|right; eauto with hygiene]
        | by rewrite lookup_empty in Hf ].

(** Uses what is known of the answer of a call. *)
Ltac answers :=
  repeat match goal with
  | HQ : ∀ x, Ok ?a = Ok x → _ |- _ => specialize (HQ a eq_refl)
  | HQ : ∀ x, Err _ = Ok x → _ |- _ => clear HQ
  end.

Ltac acts_go :=
  repeat lazymatch goal with
  | |- acts _ _ (mret _) _ => apply acts_ret
  | |- acts _ _ (Ret _) _ => apply acts_ret
  | |- acts _ _ (_ ≫= _) _ => apply acts_bind
  | |- acts _ _ (mbind _ _) _ => apply acts_bind
  | |- acts _ _ (on_store _) _ =>
      eapply acts_mono;
      [|apply acts_on_store; solve [eauto with hygiene typeclass_instances]]; intros ? ?
  | |- acts _ _ (on_amb _) _ => eapply acts_mono; [|apply acts_on_amb]; intros ? ?
  | |- acts _ _ (on_limiter _) _ => eapply acts_mono; [|apply acts_on_limiter]; intros ? _
  | |- acts _ _ (send_mail _ _ _) _ => eapply acts_mono; [|apply acts_send_mail]; intros ? _
  | |- acts _ _ (on_log _ _) _ =>
      eapply acts_mono; [|apply acts_on_log; solve_public]; intros ? _
  | |- acts _ _ (log_Info _ _ _) _ => unfold log_Info
  | |- acts _ _ (log_Warn _ _ _) _ => unfold log_Warn
  | |- acts _ _ (log_Error _ _ _) _ => unfold log_Error
  | |- acts _ _ (record_or_log _ _ _ _ _) _ => unfold record_or_log
  | |- acts _ _ (match ?x with _ => _ end) _ => destruct x; answers
  | |- True => exact I
  end.

Section requests.
Context `{Env, Bcrypt, JWT} {S : Type} `{StoreModel S, !StoreLaws}.
Context (e : Engine S) `{!EngineLaws e}.
Context (P : string → Prop) `{!PublicText e P}.

Implicit Types (w : World S).

Lemma drawn_public id : (∃ a a', IDGenerator_New (e_ids e) a = (Ok id, a')) → P id.
Proof. intros (a & a' & ?). by eapply public_id. Qed.

Lemma made_hash pw hash :
  (∃ a a', Hasher_Hash (e_hasher e) pw a = (Ok hash, a')) → password_hash (e_hasher e) hash.
Proof. intros (a & a' & ?). by exists pw, a, a'. Qed.

Lemma engine_words : P "no_such_user" ∧ P "wrong_password" ∧ ∀ n : Z, P (pretty n).
Proof. split_and!; apply PublicText0. Qed.

#[local] Hint Resolve drawn_public made_hash : hygiene.

(** What of a request may be told: the address of the caller and the IDs it names. *)
Definition public_request (r : request) : Prop :=
  match r with
  | ReqSignUp _ _ ip | ReqLogin _ _ ip _ => P ip
  | ReqChangePassword uid _ _ | ReqDeleteAccount uid _ | ReqRequestEmailChange uid _
  | ReqLogoutAll uid => P uid
  | ReqLogout sid uid | ReqRevokeSession sid uid => P sid ∧ P uid
  | ReqConfirmEmailChange _ | ReqRefreshToken _ | ReqVerifyToken _ | ReqListSessions _ => True
  end.

Lemma acts_serve r :
  public_request r → acts (clean e P) grows (serve e r) (λ _, True).
Proof.
  destruct engine_words as (? & ? & ?). pose proof (el_verifications (e:=e)) as Hvs.
  destruct r; cbn [serve public_request]; intros; destruct_and?; apply acts_bind;
    apply (acts_mono _ _ _ (λ _, True)); try (intros; exact I).
  - unfold cryden_SignUp, SignUp. acts_go.
  - unfold cryden_Login, Login, recordLoginFailure, is_locked, count_failure, open_session.
    acts_go.
  - unfold cryden_ChangePassword, ChangePassword. acts_go.
  - unfold cryden_DeleteAccount, DeleteAccount. acts_go.
  - unfold cryden_RequestEmailChange, RequestEmailChange.
    destruct (e_verifications e) as [vs|], (e_emailSender e) as [snd|];
      [specialize (Hvs vs eq_refl)|..]; acts_go.
  - unfold cryden_ConfirmEmailChange, ConfirmEmailChange.
    destruct (e_verifications e) as [vs|]; [specialize (Hvs vs eq_refl)|]; acts_go.
  - unfold cryden_Logout, Logout. acts_go.
  - unfold cryden_LogoutAll, LogoutAll. acts_go.
  - unfold cryden_RefreshToken, Rotate. acts_go.
  - unfold cryden_VerifyToken. acts_go.
  - unfold cryden_ListSessions, List. acts_go.
  - unfold cryden_RevokeSession, Revoke. acts_go.
Qed.

End requests.
