(* ===== verification/HygieneTheorems.v ===== *)
(** * Nothing secret is kept or told, nothing recorded is lost

    The rules of Hygiene.v for the states that an engine reaches: any number of
    requests, their actions interleaved in any order, from an empty storage. *)
From stdpp Require Import pretty.
From S2P Require Import Prelude Errors Runtime Sha256 Store StoreSpec Logger RateLimiter World.
From S2P Require Import Memory MemoryContract Security Token Logic Auth Session Engine LoginLogic.
From S2P Require Import Sample Fixtures SessionSafety Interleaving Concurrency Footprint Hygiene.

Section theorems.
Context `{Env, Bcrypt, JWT} {S : Type} `{StoreModel S, !StoreLaws}.
Context (e : Engine S) `{!EngineLaws e}.

Implicit Types (w : World S).

(** An empty storage and an empty log. *)
Definition blank w : Prop := inv w ∧ vw w = mkView ∅ ∅ [] ∅ ∧ w_log w = [].

Definition everything_public : string → Prop := λ _, True.

#[export] Instance everything_is_public : PublicText e everything_public.
Proof. by split. Qed.

Lemma blank_clean P w : blank w → clean e P w.
Proof.
  intros (Hi & Hv & Hl). split; [done| |by rewrite Hl].
  rewrite Hv. split; simpl; [intros ?? Hx; by rewrite lookup_empty in Hx..|done].
Qed.

(** Public requests keep the rules however they interleave. *)
Lemma pool_clean P `{!PublicText e P} (enter : Prog (World S) () → Prop) c c' :
  (∀ p, enter p → ∃ r, public_request P r ∧ p = serve e r) →
  Forall (λ p, acts (clean e P) grows p (λ _, True)) c.1 → clean e P c.2 →
  rtc (pool_step enter) c c' →
  clean e P c'.2 ∧ grows c.2 c'.2 ∧ Forall (λ p, acts (clean e P) grows p (λ _, True)) c'.1.
Proof.
  intros Henter Hps Hc HS. eapply acts_pool; [apply _| |done..].
  intros p (r & Hr & ->)%Henter. by apply acts_serve.
Qed.

(** From an empty storage, with no request under way. *)
Lemma pool_clean_blank P `{!PublicText e P} (enter : Prog (World S) () → Prop) w0 c :
  (∀ p, enter p → ∃ r, public_request P r ∧ p = serve e r) →
  blank w0 → rtc (pool_step enter) ([], w0) c →
  clean e P c.2 ∧ Forall (λ p, acts (clean e P) grows p (λ _, True)) c.1.
Proof.
  intros Henter Hw HS. destruct (pool_clean P enter ([], w0) c) as (? & _ & ?); try done.
  by apply blank_clean.
Qed.

Lemma any_request_enters (p : Prog (World S) ()) :
  request_enters e p → ∃ r, public_request everything_public r ∧ p = serve e r.
Proof. intros [r ->]. exists r. split; [|done]. by destruct r. Qed.

(** C22: only hashes are stored. In every state that any interleaving of any
    requests reaches, the password column of a user holds what the hasher made of a
    password, the token column of a session and of a verification token holds the
    SHA-256 digest of a token in 64 hexadecimal digits, tokens are for changes of
    address, and every audit event is of a type the package declares. *)
Theorem only_hashes_stored w0 c :
  blank w0 → rtc (pool_step (request_enters e)) ([], w0) c →
  (∀ k u, v_users (vw c.2) !! k = Some u → password_hash (e_hasher e) (User_PasswordHash u)) ∧
  (∀ k s, v_sessions (vw c.2) !! k = Some s →
     String.length (Session_TokenHash s) = 64%nat ∧ ∃ raw, Session_TokenHash s = HashToken raw) ∧
  (∀ k vt, v_tokens (vw c.2) !! k = Some vt →
     VerificationToken_Purpose vt = PurposeEmailChange ∧
     String.length (VerificationToken_TokenHash vt) = 64%nat ∧
     ∃ raw, VerificationToken_TokenHash vt = HashToken raw) ∧
  ∀ ev, ev ∈ v_events (vw c.2) → AuditEvent_Type ev ∈ event_types.
Proof.
  intros Hw HS. destruct (pool_clean_blank everything_public _ _ _ any_request_enters Hw HS)
    as ([_ [HU HT HV HE] _] & _).
  assert (∀ h, token_hash h → String.length h = 64%nat ∧ ∃ raw, h = HashToken raw) as Hlen.
  { intros h [raw ->]. split; [|by eexists]. unfold HashToken. by rewrite hex_length, sha256_length. }
  split_and!.
  - intros k u Hu. by apply (HU k u).
  - intros k s Hs. by apply Hlen, (HT k s).
  - intros k vt Hvt. destruct (HV k vt Hvt) as (? & _ & ?). split; [done|by apply Hlen].
  - intros ev Hev. rewrite Forall_forall in HE. auto.
Qed.

(** The audit trail is append-only. Whatever requests are served, in any
    interleaving, what was recorded stays in its place with its type, address and
    time; new events come after it; only the user of an event may be cleared, and
    the log of the process only grows too. What the trail has to contain is the
    subject of AuditTrail.v. *)
Theorem audit_trail_append_only w0 c c' :
  blank w0 → rtc (pool_step (request_enters e)) ([], w0) c →
  rtc (pool_step (request_enters e)) c c' →
  trail_grows (v_events (vw c.2)) (v_events (vw c'.2)) ∧ w_log c.2 `prefix_of` w_log c'.2.
Proof.
  intros Hw HS HS'. destruct (pool_clean_blank everything_public _ _ _ any_request_enters Hw HS) as [Hc Hps].
  by destruct (pool_clean everything_public _ _ _ any_request_enters Hps Hc HS') as (_ & [] & _).
Qed.

(** C23: logs disclose nothing. Let [P] hold of what the requests may tell (the
    addresses of callers and the IDs they name), of the generated IDs and of the
    engine's own words, and let, say, a password or a token not satisfy it: then no
    field of any log call but the text of an error carries it, whatever requests
    are served and however they interleave. *)
Theorem logs_disclose_nothing (P : string → Prop) w0 c :
  PublicText e P → blank w0 →
  rtc (pool_step (λ p, ∃ r, public_request P r ∧ p = serve e r)) ([], w0) c →
  ∀ call f val, call ∈ w_log c.2 → LogCall_fields call !! f = Some val → f = "error" ∨ P val.
Proof.
  intros HP Hw HS call f val Hin. revert f val.
  destruct (pool_clean_blank P (λ p, ∃ r, public_request P r ∧ p = serve e r) _ _ (λ p Hp, Hp)
    Hw HS) as ([_ _ Hlog] & _).
  rewrite Forall_forall in Hlog. by apply Hlog.
Qed.

End theorems.

(** ** Instances *)

Section witnesses.
#[local] Existing Instances sample_env sample_bcrypt sample_jwt.
#[local] Existing Instances sample_bcrypt_laws sample_jwt_laws.

Definition few_requests : list request :=
  [ReqSignUp alice "hunter2" home; ReqLogin alice "hunter2" home "curl";
   ReqLogin alice "letmein" home "curl"; ReqRefreshToken raw1].

(** The sign-up first, the other requests action by action in turn. *)
Definition few_order : list nat :=
  replicate 12 0%nat ++ concat (replicate 16 [1; 2; 3]%nat).

Definition few_entered := (serve sample_engine <$> few_requests, mem_world0).
Definition few_served := schedule few_order few_entered.1 mem_world0.

Lemma mem_blank : blank mem_world0.
Proof. split_and!; [fixture_inv|reflexivity..]. Qed.

Lemma few_enter (enter : Prog (World MemHeap) () → Prop) :
  (∀ r, r ∈ few_requests → enter (serve sample_engine r)) →
  rtc (pool_step enter) ([], mem_world0) few_entered.
Proof.
  intros Hrs. refine (pool_enter_all _ (serve sample_engine <$> few_requests) [] _ _).
  apply Forall_fmap, Forall_forall, Hrs.
Qed.

Lemma only_hashes_stored_witness :
  v_users (vw few_served.2) ≠ ∅ ∧ v_sessions (vw few_served.2) ≠ ∅ ∧
  ∀ ev, ev ∈ v_events (vw few_served.2) → AuditEvent_Type ev ∈ event_types.
Proof.
  split_and!; [vm_compute; discriminate..|].
  refine (proj2 (proj2 (proj2 (only_hashes_stored sample_engine mem_world0 few_served _ _)))).
  - exact mem_blank.
  - etrans; [apply few_enter; intros; by eexists|apply schedule_steps].
Defined.

Lemma audit_trail_append_only_witness :
  v_events (vw few_served.2) ≠ [] ∧
  trail_grows (v_events (vw few_entered.2)) (v_events (vw few_served.2)).
Proof.
  split; [vm_compute; discriminate|].
  refine (proj1 (audit_trail_append_only sample_engine mem_world0 few_entered few_served _ _ _)).
  - exact mem_blank.
  - apply few_enter; intros; by eexists.
  - apply schedule_steps.
Defined.

(** Anything that does not start like Alice's password. *)
Definition not_password (s : string) : Prop := ∀ t, s ≠ String "h" t.

Lemma pretty_N_go_not_password x s : not_password s → not_password (pretty_N_go x s).
Proof.
  revert s. induction (N.lt_wf_0 x) as [x _ IH]; intros s Hs.
  assert (x = 0 ∨ 0 < x)%N as [->|?] by lia; [done|].
  rewrite pretty_N_go_step by done. apply IH; [by apply N.div_lt|].
  intros t. unfold pretty_N_char. by repeat case_match.
Qed.

#[local] Instance not_password_public : PublicText sample_engine not_password.
Proof.
  split; try done.
  - intros [|p|p]; try done.
    + change (not_password (if decide (N.pos p = 0)%N then "0" else pretty_N_go (N.pos p) EmptyString)).
      case_decide; [done|]. by apply pretty_N_go_not_password.
  - by intros s k ? [= <-].
  - intros a id a' [= <- _]. done.
Qed.

Lemma logs_disclose_nothing_witness :
  w_log few_served.2 ≠ [] ∧
  ∀ call f val, call ∈ w_log few_served.2 → LogCall_fields call !! f = Some val →
    f = "error" ∨ not_password val.
Proof.
  split; [vm_compute; discriminate|].
  refine (logs_disclose_nothing sample_engine not_password mem_world0 few_served _ _ _).
  - exact mem_blank.
  - etrans; [apply few_enter|apply schedule_steps].
    intros r Hr. exists r. split; [|done]. revert r Hr. apply Forall_forall.
    by repeat constructor.
Defined.

End witnesses.
