(* ===== verification/ViewFootprint.v ===== *)
(** * Footprints over the abstract storage

    Footprint.v for handlers, where the invariant [J] and the transitions [R] speak of
    the abstract storage only: what has to be shown are the calls of the stores, each
    from its contract ([allows]); [views_go] walks through the rest of a handler. *)
From S2P Require Import Prelude Errors Runtime Store StoreSpec Logger RateLimiter World.
From S2P Require Import Security Token Logic Auth Interleaving Concurrency Footprint Hygiene.

Section views.
Context {S : Type} `{StoreModel S, !StoreLaws}.
Context (J : View → Prop) (R : View → View → Prop).

Implicit Types (w : World S) (v : View).

Record holding w : Prop := { ho_inv : inv w; ho_view : J (vw w) }.

Definition moving w w' : Prop :=
  R (vw w) (vw w') ∧ amb_le (w_amb w) (w_amb w') ∧ w_log w `prefix_of` w_log w'.

#[export] Instance moving_preorder `{!PreOrder R} : PreOrder moving.
Proof.
  split; [intros w; by repeat split|]. intros w1 w2 w3 (? & ? & ?) (? & ? & ?). split_and!; by etrans.
Qed.

Context `{!Reflexive R}.

Notation acts := (acts holding moving).

Lemma views_outside {A} (m : St (World S) A) (Q : A → Prop) :
  (∀ w b w', m w = (b, w') → w_store w' = w_store w ∧ amb_le (w_amb w) (w_amb w') ∧
     w_log w `prefix_of` w_log w' ∧ Q b) →
  acts (act m) Q.
Proof.
  intros Hm. apply acts_act. intros w b w' [Hi Ha] E. destruct (Hm _ _ _ E) as (Hs & Hle & Hl & ?).
  unfold moving. rewrite Hs. split_and!; [by split; rewrite Hs|done..].
Qed.

Lemma views_on_amb {A} (op : St Amb A) :
  (∀ a r a', op a = (r, a') → amb_le a a') → acts (on_amb op) (λ _, True).
Proof.
  intros Hop. apply views_outside. intros w b w'. destruct (op _) as [r a] eqn:E.
  intros [= _ <-]. split_and!; [done|by eauto|by simpl; auto using prefix_app_r|done].
Qed.

Lemma views_on_limiter {A} (op : St (LimiterState * Amb) A) :
  (∀ l a r l' a', op (l, a) = (r, (l', a')) → amb_le a a') → acts (on_limiter op) (λ _, True).
Proof.
  intros Hop. apply views_outside. intros w b w'. destruct (op _) as [r [l a]] eqn:E.
  intros [= _ <-]. split_and!; [done|by eauto|by simpl; auto using prefix_app_r|done].
Qed.

Lemma views_on_log op c :
  (∀ a r a', op a = (r, a') → amb_le a a') → acts (on_log op c) (λ _, True).
Proof.
  intros Hop. apply views_outside. intros w b w'. destruct (op _) as [r a] eqn:E.
  intros [= _ <-]. split_and!; [done|by eauto|by simpl; auto using prefix_app_r|done].
Qed.

Lemma views_send_mail sender `{!EmailSenderLaws sender} to raw :
  acts (send_mail sender to raw) (λ _, True).
Proof.
  apply views_outside. intros w b w'.
  destruct (EmailSender_SendVerification _ _ _ _) as [r a] eqn:E. intros [= _ <-].
  split_and!; [done|by eapply sender_amb|done..].
Qed.

(** A call of a store, whose answer may tell something. *)
Definition allows {A} (op : Op S A) (Q : A → Prop) : Prop :=
  ∃ T, sat op T ∧ ∀ w r v', holding w → T (vw w) r v' → J v' ∧ R (vw w) v' ∧ Q r.

Lemma views_on_store {A} (op : Op S A) Q : allows op Q → acts (on_store op) Q.
Proof.
  intros (T & Hop & HT). apply acts_act. intros w b w' Hw.
  destruct (op (w_store w, w_amb w)) as [r [s a]] eqn:E. intros [= <- <-].
  destruct (Hop _ _ _ _ _ (ho_inv _ Hw) E) as (Hi & Hle & Hr).
  destruct (HT _ _ _ Hw Hr) as (? & ? & ?). unfold moving. by split_and!.
Qed.

Lemma allows_query {A} (op : Op S (result A)) P P' (Q : A → Prop) :
  sat op (reads P P') → (∀ w x, holding w → P (vw w) x → Q x) →
  allows op (λ r, ∀ x, r = Ok x → Q x).
Proof.
  intros Hop HQ. eexists. split; [done|]. intros w r v' Hw [-> Hr].
  split_and!; [apply Hw|done|]. intros x ->. by eapply HQ.
Qed.

Lemma allows_reads {A} (op : Op S (result A)) P P' : sat op (reads P P') → allows op (λ _, True).
Proof. intros Hop. eexists. split; [done|]. intros w r v' Hw [-> _]. by split_and!; [apply Hw|..]. Qed.

Lemma allows_mutates {A} (op : Op S (result A)) present E :
  sat op (mutates present E) →
  (∀ v x v', J v → E v x v' → J v' ∧ R v v') → allows op (λ _, True).
Proof.
  intros Hop HE. eexists. split; [done|]. intros w r v' [_ Hw] Hr.
  assert (v' = vw w ∨ ∃ x, E (vw w) x v') as [->|[x Hx]]; [|done|].
  { destruct r as [x|?]; [eauto|by destruct Hr]. }
  destruct (HE _ _ _ Hw Hx). by split_and!.
Qed.

End views.

(** Walks through a handler; [db] has the calls of the stores. *)
Tactic Notation "views_go" "with" tactic3(store) :=
  repeat lazymatch goal with
  | |- acts _ _ (mret _) _ => apply acts_ret
  | |- acts _ _ (Ret _) _ => apply acts_ret
  | |- acts _ _ (_ ≫= _) _ => apply acts_bind
  | |- acts _ _ (mbind _ _) _ => apply acts_bind
  | |- acts _ _ (on_store _) _ =>
      eapply acts_mono; [|apply views_on_store; solve [store]]; intros ? ?
  | |- acts _ _ (on_amb _) _ =>
      eapply acts_mono;
      [|apply views_on_amb; [apply _|];
        intros; solve [eauto using event_le with quiet typeclass_instances]];
      intros ? _
  | |- acts _ _ (on_limiter _) _ =>
      eapply acts_mono;
      [|apply views_on_limiter; [apply _|];
        intros; solve [eauto with quiet typeclass_instances]]; intros ? _
  | |- acts _ _ (send_mail _ _ _) _ =>
      eapply acts_mono; [|apply views_send_mail; [apply _|solve [eauto]]]; intros ? _
  | |- acts _ _ (on_log _ _) _ =>
      eapply acts_mono;
      [|apply views_on_log; [apply _|];
        let H := fresh in intros ? ? ? H; apply logger_amb in H; exact H];
      intros ? _
  | |- acts _ _ (log_Info _ _ _) _ => unfold log_Info, Logger_Info
  | |- acts _ _ (log_Warn _ _ _) _ => unfold log_Warn, Logger_Warn
  | |- acts _ _ (log_Error _ _ _) _ => unfold log_Error, Logger_Error
  | |- acts _ _ (record_or_log _ _ _ _ _) _ => unfold record_or_log
  | |- acts _ _ (if bool_decide _ then _ else _) _ => case_bool_decide
  | |- acts _ _ (match ?x with _ => _ end) _ => destruct x; answers
  | |- True => exact I
  end.
