(* ===== verification/Integrity.v ===== *)
(** * The storage stays sound, however requests interleave

    Over a storage that enforces its keys: addresses and token hashes are unique and
    whatever refers to a user refers to one that is there, in every state that any
    interleaving of any requests reaches, deletions of accounts included. *)
From S2P Require Import Prelude Errors Runtime Store StoreSpec SessionMachine Logger RateLimiter World.
From S2P Require Import Security Token Logic Auth Session Engine AuthLogic LoginLogic.
From S2P Require Import Postgres PostgresContract Sample Fixtures PgFixtures.
From S2P Require Import SessionSafety Interleaving Concurrency Footprint Hygiene ViewFootprint.

Definition user_there (v : View) (id : string) : Prop := is_Some (v_users v !! id).

(** A key is unique among the rows of a map. *)
Definition unique_by {R} (f : R → string) (m : gmap string R) : Prop :=
  ∀ k k' r r', m !! k = Some r → m !! k' = Some r' → f r = f r' → k = k'.

Record sound (v : View) : Prop := {
  so_addresses : unique_by User_Email (v_users v);
  so_sessions k s : v_sessions v !! k = Some s → user_there v (Session_UserID s);
  so_hashes : unique_by Session_TokenHash (v_sessions v);
  so_tokens k t : v_tokens v !! k = Some t → user_there v (VerificationToken_UserID t);
  so_token_hashes : unique_by VerificationToken_TokenHash (v_tokens v);
  so_events ev : ev ∈ v_events v →
    AuditEvent_UserID ev = EmptyString ∨ user_there v (AuditEvent_UserID ev);
}.

Lemma unique_insert {R} (f : R → string) (m : gmap string R) k x :
  unique_by f m → (∀ k' r, m !! k' = Some r → f r = f x → k' = k) → unique_by f (<[k := x]> m).
Proof.
  intros Hm Hx k1 k2 r1 r2 [[<- <-]|[_ H1]]%lookup_insert_Some [[<- <-]|[_ H2]]%lookup_insert_Some E;
    [done|symmetry; by eapply Hx|by eapply Hx|by eapply Hm].
Qed.

Lemma unique_filter {R} (f : R → string) (P : string * R → Prop) `{∀ x, Decision (P x)}
    (m : gmap string R) : unique_by f m → unique_by f (filter P m).
Proof.
  intros Hm k1 k2 r1 r2 [H1 _]%map_lookup_filter_Some [H2 _]%map_lookup_filter_Some. by apply Hm.
Qed.

Lemma unique_fmap {R} (f : R → string) (g : R → R) (m : gmap string R) :
  (∀ r, f (g r) = f r) → unique_by f m → unique_by f (g <$> m).
Proof.
  intros Hg Hm k1 k2 r1 r2 (x1 & <- & H1)%lookup_fmap_Some (x2 & <- & H2)%lookup_fmap_Some.
  rewrite !Hg. by apply Hm.
Qed.

Section changes.
Context {S : Type} `{StoreModel S}.

Lemma sound_users v m :
  sound v → unique_by User_Email m → (∀ k, is_Some (v_users v !! k) → is_Some (m !! k)) →
  sound (with_users v m).
Proof.
  intros [HA HS HH HT HTH HE] Hm Hk. split; simpl; unfold user_there; simpl; try done.
  - intros k s Hs. by eapply Hk, HS.
  - intros k t Ht. by eapply Hk, HT.
  - intros ev Hev. destruct (HE ev Hev); [by left|right; by apply Hk].
Qed.

Lemma sound_sessions v m :
  sound v → unique_by Session_TokenHash m →
  (∀ k s, m !! k = Some s → user_there v (Session_UserID s)) → sound (with_sessions v m).
Proof. intros [] ? ?. by split. Qed.

Lemma sound_tokens v m :
  sound v → unique_by VerificationToken_TokenHash m →
  (∀ k t, m !! k = Some t → user_there v (VerificationToken_UserID t)) → sound (with_tokens v m).
Proof. intros [] ? ?. by split. Qed.

Lemma sound_session_insert v k s :
  sound v → user_there v (Session_UserID s) →
  (∀ k' x, v_sessions v !! k' = Some x → Session_TokenHash x = Session_TokenHash s → k' = k) →
  sound (with_sessions v (<[k := s]> (v_sessions v))).
Proof.
  intros Hv Hs Hh. apply sound_sessions; [done|apply unique_insert; [exact (so_hashes _ Hv)|done]|].
  intros k' x [[_ <-]|[_ Hx]]%lookup_insert_Some; [done|by eapply so_sessions].
Qed.

Lemma sound_revoked v k s t :
  sound v → v_sessions v !! k = Some s →
  sound (with_sessions v (<[k := set_RevokedAt s (Some t)]> (v_sessions v))).
Proof.
  intros Hv Hs. apply sound_session_insert; [done|exact (so_sessions _ Hv k s Hs)|].
  intros k' x Hx. exact (so_hashes _ Hv k' k x s Hx Hs).
Qed.

Lemma sound_revoke_where v (P : Session → Prop) `{∀ s, Decision (P s)} t :
  sound v → sound (with_sessions v (revoke_where P t <$> v_sessions v)).
Proof.
  intros Hv. apply sound_sessions; [done|apply unique_fmap; [|exact (so_hashes _ Hv)]|].
  - intros s. by destruct (later_revoke_where P t s) as [(_ & _ & _ & ->) _].
  - intros k s (x & <- & Hx)%lookup_fmap_Some.
    destruct (later_revoke_where P t x) as [(_ & _ & -> & _) _]. by eapply so_sessions.
Qed.

Lemma sound_updated v v' id (F : User → User → Prop) :
  sound v → user_updated id F v v' → (∀ u u', F u u' → User_Email u' = User_Email u) → sound v'.
Proof.
  intros Hv (k & u & u' & _ & Hu & HF & ->) HE. apply sound_users; [done| |].
  - apply unique_insert; [exact (so_addresses _ Hv)|]. intros k' x Hx. rewrite (HE _ _ HF).
    exact (so_addresses _ Hv k' k x u Hx Hu).
  - intros k' Hk'. rewrite lookup_insert_is_Some. destruct (decide (k = k')); [by left|by right].
Qed.

(** An account goes with everything that refers to it. *)
Lemma sound_deleted v k : sound v → sound (with_users (cascade k v) (delete k (v_users v))).
Proof.
  intros [HA HS HH HT HTH HE].
  assert (∀ id, id ≠ k → user_there v id → is_Some (delete k (v_users v) !! id)) as Hk.
  { intros id Hid Hu. by rewrite lookup_delete_ne. }
  split; simpl; unfold user_there; simpl.
  - intros k1 k2 u1 u2 [_ H1]%lookup_delete_Some [_ H2]%lookup_delete_Some. by apply HA.
  - intros i s [Hs Hne]%map_lookup_filter_Some. apply Hk; [done|by eapply HS].
  - by apply (unique_filter Session_TokenHash).
  - intros i t [Ht Hne]%map_lookup_filter_Some. apply Hk; [done|by eapply HT].
  - by apply (unique_filter VerificationToken_TokenHash).
  - intros ev (ev0 & -> & Hev)%list_elem_of_fmap. unfold clear_user. case_bool_decide as Hc; [by left|].
    destruct (HE _ Hev) as [?|Hu]; [by left|right; by apply Hk].
Qed.

End changes.

(** ** Every request keeps the storage sound *)

Section requests.
Context `{Env, Bcrypt, JWT} {S : Type} `{StoreModel S, !StoreLaws}.
Context (Hstrict : strict = true).

Implicit Types (w : World S) (v : View).

Notation keeps_sound := (allows (S:=S) sound (λ _ _, True)).

Section calls.
Context (users : UserStore S) (sessions : SessionStore S) (audit : AuditStore S)
  (vs : VerificationStore S).
Context `{!UserContract users, !SessionContract sessions, !AuditContract audit,
  !VerificationContract vs}.

Lemma sound_mutates {A} (op : Op S (result A)) present E :
  sat op (mutates present E) → (∀ v x v', sound v → E v x v' → sound v') →
  keeps_sound op (λ _, True).
Proof.
  intros Hop HE. eapply allows_mutates; [by intros ?|done|]. intros v x v' Hv Hx.
  split; [by eapply HE|done].
Qed.

Ltac mutation := eapply sound_mutates; [eauto with cryden|].

Lemma sound_user_create id email hash :
  keeps_sound (UserStore_Create users (new_User id email hash)) (λ _, True).
Proof.
  mutation. intros v [] v' Hv (k & t & t' & _ & Hn & ->). destruct (Hn Hstrict) as [_ He].
  apply sound_users; [done| |].
  - apply unique_insert; [exact (so_addresses _ Hv)|]. intros k' u Hu Heq. by destruct (He _ _ Hu).
  - intros k' Hk'. rewrite lookup_insert_is_Some. destruct (decide (k = k')); [by left|by right].
Qed.

Lemma sound_update_email id email : keeps_sound (UserStore_UpdateEmail users id email) (λ _, True).
Proof.
  mutation. intros v [] v' Hv [(k & u & u' & Hk & Hu & [t ->] & ->) Hfree].
  apply sound_users; [done| |].
  - apply unique_insert; [exact (so_addresses _ Hv)|]. simpl. intros k' x Hx He.
    pose proof (Hfree Hstrict k' x Hx He). congruence.
  - intros k' Hk'. rewrite lookup_insert_is_Some. destruct (decide (k = k')); [by left|by right].
Qed.

Lemma sound_update_password id hash :
  keeps_sound (UserStore_UpdatePasswordHash users id hash) (λ _, True).
Proof. mutation. intros v [] v' Hv HE. eapply sound_updated; [done|exact HE|]. by intros u u' [t ->]. Qed.

Lemma sound_increment id : keeps_sound (UserStore_IncrementFailedAttempts users id) (λ _, True).
Proof. mutation. intros v n v' Hv HE. eapply sound_updated; [done|exact HE|]. by intros u u' [_ ->]. Qed.

Lemma sound_reset id : keeps_sound (UserStore_ResetFailedAttempts users id) (λ _, True).
Proof. mutation. intros v [] v' Hv HE. eapply sound_updated; [done|exact HE|]. by intros u u' ->. Qed.

Lemma sound_lock id t : keeps_sound (UserStore_LockAccount users id t) (λ _, True).
Proof. mutation. intros v [] v' Hv HE. eapply sound_updated; [done|exact HE|]. by intros u u' (? & _ & ->). Qed.

Lemma sound_delete id : keeps_sound (UserStore_Delete users id) (λ _, True).
Proof.
  mutation. intros v [] v' Hv (k & _ & _ & ->). rewrite Hstrict. by apply sound_deleted.
Qed.

Lemma sound_session_create id family user hash ip agent :
  keeps_sound (SessionStore_Create sessions (new_Session id family user hash ip agent)) (λ _, True).
Proof.
  mutation. intros v [] v' Hv (k & kf & ku & t & _ & _ & _ & Hn & ->).
  destruct (Hn Hstrict) as (_ & Hu & Hh). apply sound_session_insert; [done..|].
  intros k' x Hx Heq. by destruct (Hh _ _ Hx).
Qed.

Lemma sound_rotate old id family user hash ip agent :
  keeps_sound (SessionStore_RotateToken sessions old (new_Session id family user hash ip agent))
    (λ _, True).
Proof.
  mutation. intros v [] v' Hv (ko & so & t & kn & kf & ku & t' & _ & Hso & _ & _ & _ & Hn & ->).
  destruct (Hn Hstrict) as (_ & _ & Hu & Hh).
  pose proof (sound_revoked v ko so t Hv Hso) as Hv1.
  apply (sound_session_insert _ kn (mkSession kn kf ku hash ip agent t' None) Hv1 Hu); simpl.
  intros k' x [[_ <-]|[_ Hx]]%lookup_insert_Some Heq; [by destruct (Hh _ _ Hso)|by destruct (Hh _ _ Hx)].
Qed.

Lemma sound_revoke id : keeps_sound (SessionStore_Revoke sessions id) (λ _, True).
Proof. mutation. intros v [] v' Hv (k & s & t & _ & Hs & _ & ->). by apply sound_revoked. Qed.

Lemma sound_revoke_family f : keeps_sound (SessionStore_RevokeFamily sessions f) (λ _, True).
Proof. mutation. intros v [] v' Hv (k & t & _ & ->). by apply sound_revoke_where. Qed.

Lemma sound_revoke_all u : keeps_sound (SessionStore_RevokeAllForUser sessions u) (λ _, True).
Proof. mutation. intros v [] v' Hv (k & t & _ & ->). by apply sound_revoke_where. Qed.

Lemma sound_record ty user ip meta :
  keeps_sound (AuditStore_Record audit (new_AuditEvent ty user ip meta)) (λ _, True).
Proof.
  mutation. intros v [] v' [] (ev & [_ Hu] & ->). split; simpl; try done.
  intros x [Hx| ->%list_elem_of_singleton]%elem_of_app; [auto|by apply Hu].
Qed.

Lemma sound_token_create id user purpose hash email expires :
  keeps_sound (VerificationStore_Create vs
    (new_VerificationToken id user purpose hash email expires)) (λ _, True).
Proof.
  mutation. intros v [] v' Hv (k & ku & x & t & _ & _ & _ & Hn & ->).
  destruct (Hn Hstrict) as (_ & Hu & Hh). apply sound_tokens; [done| |].
  - apply unique_insert; [exact (so_token_hashes _ Hv)|]. intros k' y Hy Heq. by destruct (Hh _ _ Hy).
  - intros k' y [[_ <-]|[_ Hy]]%lookup_insert_Some; [done|by eapply so_tokens].
Qed.

Lemma sound_mark_used id : keeps_sound (VerificationStore_MarkUsed vs id) (λ _, True).
Proof.
  mutation. intros v [] v' Hv (k & y & t & _ & Hy & ->). apply sound_tokens; [done| |].
  - apply unique_insert; [exact (so_token_hashes _ Hv)|]. intros k' x Hx. exact (so_token_hashes _ Hv k' k x y Hx Hy).
  - intros k' x [[_ <-]|[_ Hx]]%lookup_insert_Some; [exact (so_tokens _ Hv k y Hy)|by eapply so_tokens].
Qed.

End calls.

End requests.

#[export] Hint Resolve sound_user_create sound_update_email sound_update_password sound_increment
  sound_reset sound_lock sound_delete sound_session_create sound_rotate sound_revoke
  sound_revoke_family sound_revoke_all sound_record sound_token_create sound_mark_used : integrity.
#[export] Hint Extern 4 (allows _ _ _ _) =>
  eapply allows_reads; [by intros ?|solve [eauto with cryden typeclass_instances]] : integrity.

Ltac integrity_go := views_go with (eauto with integrity typeclass_instances).

Section integrity.
Context `{Env, Bcrypt, JWT} {S : Type} `{StoreModel S, !StoreLaws}.
Context (e : Engine S) `{!EngineLaws e} (Hstrict : strict = true).

Implicit Types (w : World S).

#[local] Instance change_reflexive : Reflexive (λ _ _ : View, True).
Proof. by intros ?. Qed.

Lemma acts_sound r : acts (holding (S:=S) sound) (moving (λ _ _, True)) (serve e r) (λ _, True).
Proof.
  pose proof (el_verifications (e:=e)) as Hvs. pose proof (el_sender (e:=e)) as Hsnd.
  destruct r; cbn [serve]; apply acts_bind;
    apply (acts_mono _ _ _ (λ _, True)); try (intros; exact I).
  - unfold cryden_SignUp, SignUp. integrity_go.
  - unfold cryden_Login, Login, recordLoginFailure, is_locked, count_failure, open_session.
    integrity_go.
  - unfold cryden_ChangePassword, ChangePassword. integrity_go.
  - unfold cryden_DeleteAccount, DeleteAccount. integrity_go.
  - unfold cryden_RequestEmailChange, RequestEmailChange.
    destruct (e_verifications e) as [vs|], (e_emailSender e) as [snd|];
      [specialize (Hvs vs eq_refl); specialize (Hsnd snd eq_refl)|..]; integrity_go.
  - unfold cryden_ConfirmEmailChange, ConfirmEmailChange.
    destruct (e_verifications e) as [vs|]; [specialize (Hvs vs eq_refl)|]; integrity_go.
  - unfold cryden_Logout, Logout. integrity_go.
  - unfold cryden_LogoutAll, LogoutAll. integrity_go.
  - unfold cryden_RefreshToken, Rotate. integrity_go.
  - unfold cryden_VerifyToken. integrity_go.
  - unfold cryden_ListSessions, List. integrity_go.
  - unfold cryden_RevokeSession, Revoke. integrity_go.
Qed.

(** Over a storage that enforces its keys, whatever requests are served and however
    they interleave, deletions of accounts included: no two users have the same address,
    no two sessions and no two verification tokens the same token hash, and every session,
    verification token and audit event refers to a user that is there (an event possibly
    to none). It is the keys that keep this, whatever the handlers check; what the
    handlers keep without keys is the subject of Anchors.v. *)
Theorem storage_integrity w ps w' :
  inv w → sound (vw w) → rtc (pool_step (request_enters e)) ([], w) (ps, w') → sound (vw w').
Proof.
  intros Hi Hv HS.
  assert (PreOrder (moving (S:=S) (λ _ _, True))) as Hpre by (apply moving_preorder; by split).
  refine (ho_view _ _ (proj1 (acts_pool (holding sound) (moving (λ _ _, True)) _ ([], w) (ps, w')
    _ HS _ _))).
  - intros p (r & ->). apply acts_sound.
  - constructor.
  - by split.
Qed.

End integrity.

Lemma sound_empty : sound (mkView ∅ ∅ [] ∅).
Proof.
  split; simpl.
  1, 3, 5: by intros ? ? ? ? ?%lookup_empty_Some.
  1, 2: by intros ? ? ?%lookup_empty_Some.
  by intros ? ?%elem_of_nil.
Qed.

(** ** An instance *)

Section witness.
#[local] Existing Instances sample_env sample_bcrypt sample_jwt sample_pg.
#[local] Existing Instances sample_bcrypt_laws sample_jwt_laws sample_pg_laws.

(** An account is deleted while its owner logs in, by turns. *)
Definition farewell : list request :=
  [ReqSignUp alice "hunter2" home; ReqLogin alice "hunter2" home "curl";
   ReqDeleteAccount alice_id "hunter2"; ReqSignUp "bob@example.com" "secret" home].
Definition farewell_order : list nat :=
  replicate 12 0%nat ++ concat (replicate 14 [1; 2; 3]%nat).
Definition farewell_end := schedule farewell_order (serve pg_engine <$> farewell) pg_world0.

Lemma storage_integrity_witness : sound (vw farewell_end.2).
Proof.
  refine (storage_integrity pg_engine eq_refl pg_world0 farewell_end.1 farewell_end.2 _ sound_empty _).
  - apply pg_inv_b_sound. vm_compute. reflexivity.
  - rewrite <- surjective_pairing. etrans; [|apply schedule_steps].
    refine (pool_enter_all _ (serve pg_engine <$> farewell) [] pg_world0 _).
    apply Forall_fmap, Forall_true. intros r. by exists r.
Defined.

Lemma farewell_leaves : size (v_users (vw farewell_end.2)) = 1%nat.
Proof. vm_compute. reflexivity. Qed.

End witness.
