(* ===== verification/Anchors.v ===== *)
(** * Sessions have accounts, accounts have addresses of their own

    Requests served one after the other, over any storage that is without faults or
    enforces its keys, so over the in-memory stores and over the Postgres stores
    alike. Over the in-memory stores nothing but the handlers' own checks keeps this:
    that SignUp looks for the address, that a deletion revokes the sessions before the
    user goes, that a revoked session is not rotated. *)
From S2P Require Import Prelude Errors Runtime Store StoreSpec SessionMachine Logger RateLimiter.
From S2P Require Import World Memory MemoryContract Security Token Logic Auth Session Engine.
From S2P Require Import Rotation AuthLogic LoginLogic Sample Fixtures RefreshTheorems.
From S2P Require Import LoginTheorems AccountTheorems SessionTheorems EmailTheorems.
From S2P Require Import SessionSafety Integrity.

(** ** What a request does, by its kind *)

Section served.
Context `{Env, Bcrypt, JWT} {S : Type} `{StoreModel S, !StoreLaws}.
Context (e : Engine S) `{!EngineLaws e}.

Implicit Types (w : World S).

Definition served_spec (r : request) w w' : Prop :=
  match r with
  | ReqSignUp email pw ip => ∃ x, signup_spec (e_hasher e) (e_ids e) (signup_allow e ip w)
      email pw ip (vw w) (vw w') x
  | ReqLogin email pw ip agent => ∃ x, login_spec (e_hasher e) (e_ids e) (e_refreshGen e)
      (e_jwtIssuer e) (login_allow e email ip w) email pw ip agent
      (e_lockoutThreshold e) (e_lockoutDuration e) w w' x
  | ReqChangePassword uid cur new => ∃ x, change_password_spec (e_hasher e) uid cur new (vw w) (vw w') x
  | ReqDeleteAccount uid cur => ∃ x, delete_account_spec (e_hasher e) uid cur (vw w) (vw w') x
  | ReqRequestEmailChange uid addr =>
      vw w' = vw w ∨ ∃ x, request_email_spec (e_ids e) (e_refreshGen e) uid addr w w' x
  | ReqConfirmEmailChange raw => vw w' = vw w ∨ ∃ x, confirm_email_spec raw w w' x
  | ReqLogout sid uid => ∃ x, close_spec EventLogout None sid uid (vw w) (vw w') x
  | ReqLogoutAll uid => ∃ x, close_all_spec uid (vw w) (vw w') x
  | ReqRefreshToken raw => ∃ x, refresh_spec (e_refreshGen e) (e_ids e) (e_jwtIssuer e) raw w w' x
  | ReqRevokeSession sid uid => ∃ x, close_spec EventSessionRevoked
      (Some {["session_id" := sid]}) sid uid (vw w) (vw w') x
  | ReqVerifyToken _ | ReqListSessions _ => vw w' = vw w
  end.

Lemma serve_elim r w w' :
  inv w → (run (serve e r) w).2 = w' → inv w' ∧ served_spec r w w'.
Proof.
  intros Hi. destruct r; cbn [serve served_spec]; rewrite run_unit;
    match goal with |- (run ?p w).2 = _ → _ => destruct (run p w) as [x w1] eqn:E end;
    cbn [snd]; intros <-.
  - destruct (SignUp_spec e _ _ _ _ _ _ Hi E) as (? & _ & ?). eauto.
  - destruct (Login_spec e _ _ _ _ _ _ _ Hi E) as (? & _ & ?). eauto.
  - destruct (ChangePassword_spec e _ _ _ _ _ _ Hi E) as (? & _ & ?). eauto.
  - destruct (DeleteAccount_spec e _ _ _ _ _ Hi E) as (? & _ & ?). eauto.
  - destruct (RequestEmailChange_spec e _ _ _ _ _ Hi E) as (? & _ & HS).
    destruct (e_verifications e), (e_emailSender e); try (destruct HS as [-> _]); eauto.
  - destruct (ConfirmEmailChange_spec e _ _ _ _ Hi E) as (? & _ & HS).
    destruct (e_verifications e); [eauto|destruct HS as [-> _]; eauto].
  - destruct (wp_elim _ _ _ _ _ E (wp_Logout (e_sessions e) (e_audit e) (e_log e) _ _ w Hi))
      as (? & _ & ?). eauto.
  - destruct (wp_elim _ _ _ _ _ E (wp_LogoutAll (e_sessions e) (e_audit e) (e_log e) _ w Hi))
      as (? & _ & ?). eauto.
  - destruct (wp_elim _ _ _ _ _ E (wp_RefreshToken e _ w Hi)) as (? & _ & ?). eauto.
  - destruct (wp_elim _ _ _ _ _ E (wp_VerifyToken e _ w Hi)) as (? & _ & ?). eauto.
  - destruct (wp_elim _ _ _ _ _ E (wp_List (e_sessions e) _ w Hi)) as (? & _ & ? & _). eauto.
  - destruct (wp_elim _ _ _ _ _ E (wp_Revoke (e_sessions e) (e_audit e) (e_log e) _ _ w Hi))
      as (? & _ & ?). eauto.
Qed.

End served.

(** ** Relations that an effect is in *)

Section closure.
Context {S : Type} `{StoreModel S} (R : View → View → Prop) `{!Reflexive R}.

Lemma in_maybe (E : View → View → Prop) v v' : maybe E v v' → (∀ v v', E v v' → R v v') → R v v'.
Proof. intros [?|[_ ->]] HE; [auto|done]. Qed.

Lemma in_failed present (E : View → View → Prop) v v' err :
  failed present E v v' err → (∀ v v', E v v' → R v v') → R v v'.
Proof. intros [_ [(_ & _ & ->)|(_ & _ & [->|?])]] HE; [done..|auto]. Qed.

End closure.

(** ** Sessions and accounts *)

Section anchors.
Context {S : Type} `{StoreModel S, !StoreLaws}.

Implicit Types (w : World S) (v : View).

(** Every live session belongs to a user that is there. *)
Definition anchored v : Prop :=
  ∀ k s, v_sessions v !! k = Some s → live s → user_there v (Session_UserID s).

(** No user goes; a live session belongs to whom one belonged before, or to a user
    that is there. *)
Record keeps v v' : Prop := {
  kp_users id : user_there v id → user_there v' id;
  kp_sessions k s' : v_sessions v' !! k = Some s' → live s' → user_there v' (Session_UserID s') ∨
    ∃ k0 s0, v_sessions v !! k0 = Some s0 ∧ live s0 ∧ Session_UserID s0 = Session_UserID s';
}.

#[export] Instance keeps_preorder : PreOrder keeps.
Proof.
  split; [by split; eauto 10|]. intros v1 v2 v3 [U1 S1] [U2 S2]. split; [auto|].
  intros k s' Hs' Hl'. destruct (S2 _ _ Hs' Hl') as [?|(k0 & s0 & Hk0 & Hl0 & <-)]; [by left|].
  destruct (S1 _ _ Hk0 Hl0) as [?|?]; [left; auto|by right].
Qed.

Lemma keeps_anchored v v' : anchored v → keeps v v' → anchored v'.
Proof.
  intros Ha [HU HS] k s Hs Hl. destruct (HS _ _ Hs Hl) as [?|(k0 & s0 & Hk0 & Hl0 & <-)]; [done|].
  by eapply HU, Ha.
Qed.

Lemma keeps_rows v v' :
  (∀ k, is_Some (v_users v !! k) → is_Some (v_users v' !! k)) →
  v_sessions v' = v_sessions v → keeps v v'.
Proof. intros HU HS. split; [exact HU|]. rewrite HS. intros k s ? ?. right. by exists k, s. Qed.

Lemma keeps_same v v' : v_users v' = v_users v → v_sessions v' = v_sessions v → keeps v v'.
Proof. intros HU. apply keeps_rows. by rewrite HU. Qed.

Lemma keeps_audited ty user ip meta v v' : audited ty user ip meta v v' → keeps v v'.
Proof. intros (? & ? & _)%audited_same. by apply keeps_same. Qed.

Lemma keeps_inserted v k u : keeps v (with_users v (<[k := u]> (v_users v))).
Proof.
  apply keeps_rows; [|done]. intros i Hi. simpl. rewrite lookup_insert_is_Some.
  destruct (decide (k = i)); [by left|by right].
Qed.

Lemma keeps_updated uid f v v' : user_updated uid f v v' → keeps v v'.
Proof. intros (k & u & u' & _ & _ & _ & ->). apply keeps_inserted. Qed.

Lemma keeps_created id email hash v v' : user_created id email hash v v' → keeps v v'.
Proof. intros (k & t & t' & _ & _ & ->). apply keeps_inserted. Qed.

Lemma keeps_revoke_where (P : Session → Prop) `{∀ s, Decision (P s)} t v :
  keeps v (with_sessions v (revoke_where P t <$> v_sessions v)).
Proof.
  split; [done|]. simpl. intros k s' (s & <- & Hs)%lookup_fmap_Some Hl. right. exists k, s.
  destruct (later_revoke_where P t s) as [(_ & _ & HU & _) HL]. by split_and!; [|apply HL|].
Qed.

Lemma keeps_user_revoked uid v v' : user_sessions_revoked uid v v' → keeps v v'.
Proof. intros (k & t & _ & ->). apply (keeps_revoke_where (λ s, Session_UserID s = k)). Qed.

Lemma keeps_family_revoked f v v' : family_revoked f v v' → keeps v v'.
Proof. intros (k & t & _ & ->). apply (keeps_revoke_where (λ s, Session_FamilyID s = k)). Qed.

Lemma keeps_session_insert v k s :
  (live s → user_there v (Session_UserID s)) →
  keeps v (with_sessions v (<[k := s]> (v_sessions v))).
Proof.
  intros Hs. split; [done|]. simpl. intros i x [[_ <-]|[_ Hx]]%lookup_insert_Some Hl; [left; auto|].
  right. by exists i, x.
Qed.

Lemma keeps_session_revoked id v v' : session_revoked id v v' → keeps v v'.
Proof. intros (k & s & t & _ & _ & _ & ->). by apply keeps_session_insert. Qed.

Lemma keeps_session_created id f uid hash ip agent v v' :
  key uid = Some uid → user_there v uid →
  session_created id f uid hash ip agent v v' → keeps v v'.
Proof.
  intros Hk Hu (k & kf & ku & t & _ & _ & Hku & _ & ->). apply keeps_session_insert.
  intros _. simpl. by simplify_eq.
Qed.

(** The successor of a live session belongs to the same user. *)
Lemma keeps_rotated w k s id hash ip agent v' :
  inv w → v_sessions (vw w) !! k = Some s → live s →
  token_rotated k id (Session_FamilyID s) (Session_UserID s) hash ip agent (vw w) v' →
  keeps (vw w) v'.
Proof.
  intros Hi Hs Hl (ko & so & t & kn & kf & ku & t' & _ & _ & _ & _ & Hu & _ & ->).
  destruct (canon_session _ _ _ Hi Hs) as (_ & _ & _ & Hc). simplify_eq.
  split; [done|]. simpl. intros i x Hx Hlx. right.
  apply lookup_insert_Some in Hx as [[_ <-]|[_ [[_ <-]|[_ Hx]]%lookup_insert_Some]].
  - by exists k, s.
  - done.
  - by exists i, x.
Qed.

End anchors.

(** ** What the requests do to them

    One walk over the outcomes of the handlers for any relation [R] between views that
    the elementary changes are in; a deletion is not walked. *)

Section walk.
Context `{Env, Bcrypt, JWT} {S : Type} `{StoreModel S, !StoreLaws}.
Context (e : Engine S) `{!EngineLaws e}.

Implicit Types (w : World S) (v : View).

Context (R : View → View → Prop) `{!PreOrder R}.
Context (R_same : ∀ v v', v_users v' = v_users v → v_sessions v' = v_sessions v → R v v').
Context (R_updated : ∀ uid (f : User → User → Prop) v v',
  (∀ u u', f u u' → User_Email u' = User_Email u) → user_updated uid f v v' → R v v').
Context (R_created : ∀ id email hash v v',
  no_user email v → user_created id email hash v v' → R v v').
Context (R_user_revoked : ∀ uid v v', user_sessions_revoked uid v v' → R v v').
Context (R_family_revoked : ∀ f v v', family_revoked f v v' → R v v').
Context (R_session_revoked : ∀ id v v', session_revoked id v v' → R v v').
Context (R_session_created : ∀ id f uid hash ip agent v v',
  key uid = Some uid → user_there v uid → session_created id f uid hash ip agent v v' → R v v').
Context (R_rotated : ∀ w k s id hash ip agent v',
  inv w → v_sessions (vw w) !! k = Some s → live s →
  token_rotated k id (Session_FamilyID s) (Session_UserID s) hash ip agent (vw w) v' →
  R (vw w) v').

Lemma R_audited ty user ip meta v v' : audited ty user ip meta v v' → R v v'.
Proof. intros (? & ? & _)%audited_same. by apply R_same. Qed.

Lemma R_hash uid hash v v' : user_updated uid (hash_set hash) v v' → R v v'.
Proof. apply R_updated. by intros u u' [t ->]. Qed.

Lemma R_counted uid n v v' : attempt_counted uid n v v' → R v v'.
Proof. apply R_updated. by intros u u' [_ ->]. Qed.

Lemma R_locked uid t v v' : account_locked uid t v v' → R v v'.
Proof. apply R_updated. by intros u u' (? & _ & ->). Qed.

Lemma R_reset uid v v' : attempts_reset uid v v' → R v v'.
Proof. apply R_updated. by intros u u' ->. Qed.

Lemma R_token_created id uid p h em x v v' : token_created id uid p h em x v v' → R v v'.
Proof. intros (? & ? & ? & ? & _ & _ & _ & _ & ->). by apply R_same. Qed.

Lemma R_token_used id v v' : token_used id v v' → R v v'.
Proof. intros (? & ? & ? & _ & _ & ->). by apply R_same. Qed.

Create HintDb walk.
#[local] Hint Resolve R_audited R_hash R_counted R_locked R_reset R_token_created R_token_used
  R_user_revoked R_family_revoked R_session_revoked R_session_created
  R_rotated R_created : walk.

(** One change after the other. *)
Ltac walk :=
  try done; repeat match goal with
  | |- R ?v ?v => reflexivity
  | HE : ?v' = ?v ∨ _ |- R ?v ?v' => destruct HE as [->|HE]
  | HF : failed _ ?E ?v ?v' _ |- R ?v ?v' =>
      apply (in_failed R _ E v v' _ HF); solve [eauto with walk]
  | HM : maybe ?E ?v ?v1 |- R ?v _ =>
      transitivity v1; [apply (in_maybe R E v v1 HM); solve [eauto with walk]|clear HM]
  | HE : ?E ?v ?v1 |- R ?v _ => transitivity v1; [solve [eauto with walk]|clear HE]
  end.

Lemma change_password_walk h uid cur new v v' r :
  change_password_spec h uid cur new v v' r → R v v'.
Proof. destruct 1 as [? _ ->|? ? _ _ ->|? ? _ _ _ ->| |]; walk. Qed.

Lemma close_walk ty meta sid uid v v' r : close_spec ty meta sid uid v v' r → R v v'.
Proof. destruct 1 as [? _ -> _|? _ _ _ ->| |]; walk. Qed.

Lemma close_all_walk uid v v' r : close_all_spec uid v v' r → R v v'.
Proof. destruct 1; walk. Qed.

Lemma signup_walk h ids al email pw ip v v' r :
  signup_spec h ids al email pw ip v v' r → R v v'.
Proof. destruct 1 as [? _ ->|_ ->|? _ _ ->|? _ _ _ ->|? _ _ _ ->| |]; walk. Qed.

Lemma request_email_walk ids gen uid addr w w' r :
  request_email_spec ids gen uid addr w w' r → R (vw w) (vw w').
Proof. destruct 1 as [? _ -> _|? _ _ -> _| | |]; walk. Qed.

(** An address changes to one that the relation allows. *)
Lemma confirm_email_walk raw w w' r :
  (∀ uid email v v', email_updated uid email v v' → R v v') →
  confirm_email_spec raw w w' r → R (vw w) (vw w').
Proof. intros HE. destruct 1 as [_ ->|? _ _ ->|? ? _ _ _ _ _ ->| |]; walk. Qed.

Lemma counted_walk uid ip th dur w w' v v' : counted_spec uid ip th dur w w' v v' → R v v'.
Proof. destruct 1 as [_ [->|[n HU]]| | |]; walk. Qed.

Lemma opened_walk ids gen j uid ip agent w w' v v' r :
  key uid = Some uid → user_there v uid →
  opened_spec ids gen j uid ip agent w w' v v' r → R v v'.
Proof. intros Hk Hu. destruct 1 as [err _ ->| | |]; walk. Qed.

Lemma login_walk h ids gen j al email pw ip agent th dur w w' r :
  inv w → login_spec h ids gen j al email pw ip agent th dur w w' r → R (vw w) (vw w').
Proof.
  intros Hi. destruct 1 as [err _ ->|_ ->|_ _ HA|? ? ? _ _ _ _ _ ->|u err v1 _ _ _ _ HA HC
    |u v1 r _ [Hu _] _ _ HR HO]; [walk..| |].
  - etrans; [by eapply R_audited|]. by eapply counted_walk.
  - etrans; [eapply in_maybe; [apply _|exact HR|apply R_reset]|]. eapply opened_walk; [| |done].
    + by apply (user_found_key w).
    + apply (kp_users (vw w) v1); [|by eexists].
      eapply in_maybe; [apply _|exact HR|apply keeps_updated].
Qed.

Lemma rotate_walk gen ids raw b b' w v' res err :
  inv w → rotate_spec gen ids raw b b' (vw w) v' res err → R (vw w) v'.
Proof.
  intros Hi. destruct 1 as [_ ->| | |k s e' _ _ _ _ ->|k s id raw' e' Hk _ Hl _ _ [->|HT]|]; walk.
Qed.

Lemma refresh_walk gen ids j raw w w' r :
  inv w → refresh_spec gen ids j raw w w' r → R (vw w) (vw w').
Proof.
  intros Hi. destruct 1 as [res e' HR _|res v1 HR HA|res a a' e' HR _|res v1 at' a a' HR _ _ _ HA];
    apply (rotate_walk _ _ _ _ _ _ _ _ _ Hi) in HR; walk.
Qed.

(** Requests that take nobody's account away, nor, unless the relation allows it, change
    an address. *)
Lemma served_walk r w w' :
  inv w → served_spec e r w w' →
  match r with
  | ReqDeleteAccount _ _ => False
  | ReqConfirmEmailChange _ => ∀ uid email v v', email_updated uid email v v' → R v v'
  | _ => True
  end → R (vw w) (vw w').
Proof.
  intros Hi Hsp Hr. destruct r; cbn [served_spec] in Hsp; try done;
    try (rewrite Hsp; done); try destruct Hsp as [->|Hsp]; try done; destruct Hsp as [x Hx].
  - by eapply signup_walk.
  - by eapply login_walk.
  - by eapply change_password_walk.
  - by eapply request_email_walk.
  - by eapply confirm_email_walk.
  - by eapply close_walk.
  - by eapply close_all_walk.
  - by eapply refresh_walk.
  - by eapply close_walk.
Qed.

End walk.

Section theorems.
Context `{Env, Bcrypt, JWT} {S : Type} `{StoreModel S, !StoreLaws}.
Context (e : Engine S) `{!EngineLaws e}.

Implicit Types (w : World S) (v : View).

(** ** No live session without an account *)

(** A deletion takes the live sessions of the user with it. *)
Lemma user_deleted_anchored uid v1 v2 :
  anchored v1 → user_deleted uid v1 v2 →
  strict = true ∨ (∀ k s, key uid = Some (Session_UserID s) → v_sessions v1 !! k = Some s → ¬ live s) →
  anchored v2.
Proof.
  intros Ha (k & Hk & _ & ->) Hend i s Hs Hl.
  assert (Session_UserID s ≠ k ∧ v_sessions v1 !! i = Some s) as [Hne Hs1].
  { simpl in Hs. destruct strict; simpl in Hs.
    - by apply map_lookup_filter_Some in Hs as [? ?].
    - split; [|done]. intros <-. destruct Hend as [?|Hend]; [done|by eapply Hend]. }
  unfold user_there. simpl. rewrite lookup_delete_ne by done. exact (Ha _ _ Hs1 Hl).
Qed.

Lemma delete_anchored h uid cur v v' r :
  reliable = true ∨ strict = true → anchored v →
  delete_account_spec h uid cur v v' r → anchored v'.
Proof.
  intros Hrs Ha.
  assert (∀ v1 v2, maybe (user_sessions_revoked uid) v v1 →
    audited EventAccountDeleted uid EmptyString None v1 v2 → anchored v2) as Ha2.
  { intros v1 v2 HR HA. eapply keeps_anchored; [exact Ha|].
    apply audited_same in HA as (? & ? & _). etrans; [|by apply keeps_same].
    eapply in_maybe; [apply _|done|apply keeps_user_revoked]. }
  assert (∀ v1 v2, maybe (user_sessions_revoked uid) v v1 →
    audited EventAccountDeleted uid EmptyString None v1 v2 → user_deleted uid v2 v' → anchored v') as Hd.
  { intros v1 v2 HR HA HD. eapply user_deleted_anchored; [by eapply Ha2|done|].
    destruct (audited_same _ _ _ _ _ _ HA) as (_ & -> & _).
    destruct HR as [HR|[? _]]; [right|left; destruct Hrs; congruence].
    intros k s Hk. apply (user_sessions_revoked_ended _ _ _ _ Hk) in HR as [HR _]. eauto. }
  destruct 1 as [? _ ->|? ? _ _ ->|u v1 v2 err _ _ HR HA _ _ [->|HD]|u v1 v2 _ _ HR HA HD];
    [done|done|by eapply Ha2|by eapply Hd..].
Qed.

Lemma served_anchored r w w' :
  reliable = true ∨ strict = true → inv w → anchored (vw w) → served_spec e r w w' →
  anchored (vw w').
Proof.
  intros Hrs Hi Ha Hsp.
  assert (match r with ReqDeleteAccount _ _ => False | _ => True end → keeps (vw w) (vw w')) as Hk.
  { intros Hr. apply (served_walk e keeps keeps_same (λ uid f v v' _, keeps_updated uid f v v')
      (λ id em ha v v' _, keeps_created id em ha v v') keeps_user_revoked keeps_family_revoked
      keeps_session_revoked keeps_session_created keeps_rotated r w w' Hi Hsp).
    destruct r; try done. intros uid email v v' [HU _]. by eapply keeps_updated. }
  destruct r; try (eapply keeps_anchored; [exact Ha|by apply Hk]).
  destruct Hsp as [x Hx]. by eapply delete_anchored.
Qed.

(** C9: no live session without an account. Over a storage that has no faults (the
    in-memory stores) or enforces its keys (the Postgres stores, with whatever
    faults): in every state that requests served one after the other reach from a
    storage without sessions, every session that is not revoked belongs to a user
    that exists, so whatever account was deleted, no refresh token of it can be
    exchanged. *)
Theorem live_sessions_have_accounts w k s :
  reliable = true ∨ strict = true → reachable e w →
  v_sessions (vw w) !! k = Some s → live s → is_Some (v_users (vw w) !! Session_UserID s).
Proof.
  intros Hrs (w0 & Hi & Hemp & HS). assert (anchored (vw w0)) as Ha.
  { intros i x. by rewrite Hemp, lookup_empty. }
  assert (anchored (vw w)) as Hw; [|apply Hw].
  clear Hemp. induction HS as [w|w w1 w2 [r Hr] _ IH]; [done|].
  destruct (serve_elim e _ _ _ Hi Hr) as [Hi1 Hsp]. apply IH; [done|].
  by apply (served_anchored r w).
Qed.

(** ** One account for an address *)

Definition addresses_unique v : Prop := unique_by User_Email (v_users v).

Definition stays_unique v v' : Prop := addresses_unique v → addresses_unique v'.

#[local] Instance stays_unique_preorder : PreOrder stays_unique.
Proof. split; [by intros v Hv|]. intros v1 v2 v3 H12 H23 Hv. by apply H23, H12. Qed.

Lemma unique_same v v' : v_users v' = v_users v → stays_unique v v'.
Proof. unfold stays_unique, addresses_unique. by intros ->. Qed.

Lemma unique_updated uid (f : User → User → Prop) v v' :
  (∀ u u', f u u' → User_Email u' = User_Email u) → user_updated uid f v v' → stays_unique v v'.
Proof.
  intros HE (k & u & u' & _ & Hu & HF & ->) Hv. apply unique_insert; [exact Hv|].
  intros k' x Hx. rewrite (HE _ _ HF). intros Heq. exact (Hv k' k x u Hx Hu Heq).
Qed.

Lemma unique_created id email hash v v' :
  reliable = true ∨ strict = true → no_user email v → user_created id email hash v v' →
  stays_unique v v'.
Proof.
  intros Hrs Hno (k & t & t' & _ & Hst & ->) Hv. apply unique_insert; [exact Hv|].
  intros k' x Hx He. simpl in He. destruct Hrs as [Hr|Hs].
  - by destruct (Hno Hr _ _ Hx).
  - destruct (Hst Hs) as [_ Hn]. by destruct (Hn _ _ Hx).
Qed.

Lemma unique_email uid email v v' :
  strict = true → email_updated uid email v v' → stays_unique v v'.
Proof.
  intros Hs [(k & u & u' & Hk & Hu & [t ->] & ->) Hfree] Hv. apply unique_insert; [exact Hv|].
  intros k' x Hx He. specialize (Hfree Hs k' x Hx He). congruence.
Qed.

Lemma unique_deleted uid v v' : user_deleted uid v v' → stays_unique v v'.
Proof.
  intros (k & _ & _ & ->) Hv. unfold addresses_unique. simpl.
  intros k1 k2 u1 u2 [_ H1']%lookup_delete_Some [_ H2']%lookup_delete_Some. by apply Hv.
Qed.

Lemma unique_sessions (E : View → View → Prop) :
  (∀ v v', E v v' → ∃ m, v' = with_sessions v m) → ∀ v v', E v v' → stays_unique v v'.
Proof. intros HE v v' [m ->]%HE. by apply unique_same. Qed.

Lemma served_unique r w w' :
  reliable = true ∨ strict = true →
  strict = true ∨ (∀ raw, r ≠ ReqConfirmEmailChange raw) →
  inv w → served_spec e r w w' → stays_unique (vw w) (vw w').
Proof.
  intros Hrs Hc Hi Hsp.
  destruct (decide (match r with ReqDeleteAccount _ _ => true | _ => false end = true)) as [Hd|Hnd].
  { destruct r; try done. destruct Hsp as [x Hx].
    assert (∀ v1 v2 : View, maybe (user_sessions_revoked userID) (vw w) v1 →
      audited EventAccountDeleted userID EmptyString None v1 v2 → stays_unique (vw w) v2) as H12.
    { intros v1 v2 HR%maybe_sessions_users (HU & _ & _)%audited_same. apply unique_same. congruence. }
    destruct Hx as [? _ ->|? ? _ _ ->|u v1 v2 err _ _ HR HA _ _ [->|HD]|u v1 v2 _ _ HR HA HD];
      try done; [by eapply H12|..]; (etrans; [by eapply H12|by eapply unique_deleted]). }
  apply (served_walk e stays_unique (λ v v' HU _, unique_same v v' HU) unique_updated
    (λ id em ha v v', unique_created id em ha v v' Hrs)) with (r := r); [..|done|done|].
  1-3: intros ?; apply unique_sessions; intros ? ? HE; hnf in HE; naive_solver.
  - intros * _ _ (? & ? & ? & ? & _ & _ & _ & _ & ->). by apply unique_same.
  - intros * _ _ _ (? & ? & ? & ? & ? & ? & ? & _ & _ & _ & _ & _ & _ & ->). by apply unique_same.
  - destruct r; try done. destruct Hc as [Hs|Hc]; [|by edestruct Hc].
    intros uid email v v'. by apply unique_email.
Qed.

(** Served, and no address change was confirmed. *)
Definition served_but_confirm w w' : Prop :=
  ∃ r, (∀ raw, r ≠ ReqConfirmEmailChange raw) ∧ (run (serve e r) w).2 = w'.

(** C33: an address has one account. From a storage where it is so, requests served one
    after the other never give two users one address: over a storage that enforces
    its keys (the Postgres stores, with whatever faults) whatever the requests are;
    over one that has no faults but no keys either (the in-memory stores) as long as
    no change of address is confirmed, since SignUp looks for the address and is
    told the truth. *)
Theorem one_account_per_address w0 w :
  inv w0 → (∀ k k' u u', v_users (vw w0) !! k = Some u → v_users (vw w0) !! k' = Some u' →
    User_Email u = User_Email u' → k = k') →
  (strict = true ∧ rtc (served e) w0 w) ∨ (reliable = true ∧ rtc served_but_confirm w0 w) →
  ∀ k k' u u', v_users (vw w) !! k = Some u → v_users (vw w) !! k' = Some u' →
    User_Email u = User_Email u' → k = k'.
Proof.
  intros Hi Hu HS.
  assert (stays_unique (vw w0) (vw w)) as Hst; [|exact (Hst Hu)]. clear Hu.
  destruct HS as [[Hs HS]|[Hr HS]].
  - induction HS as [w|w w1 w2 [r Hrun] _ IH]; [done|].
    destruct (serve_elim e _ _ _ Hi Hrun) as [Hi1 Hsp]. etrans; [|by apply IH].
    apply (served_unique r); auto.
  - induction HS as [w|w w1 w2 (r & Hc & Hrun) _ IH]; [done|].
    destruct (serve_elim e _ _ _ Hi Hrun) as [Hi1 Hsp]. etrans; [|by apply IH].
    apply (served_unique r); auto.
Qed.

End theorems.

(** ** Instances *)

Section witnesses.
#[local] Existing Instances sample_env sample_bcrypt sample_jwt.
#[local] Existing Instances sample_bcrypt_laws sample_jwt_laws.

Lemma live_sessions_have_accounts_witness :
  is_Some (v_users (view (w_store w_login)) !! alice_id).
Proof.
  refine (live_sessions_have_accounts sample_engine w_login session1 (alice_session None)
    (or_introl eq_refl) reachable_login _ _).
  - vm_compute. reflexivity.
  - reflexivity.
Defined.

(** Alice signs up, somebody else tries her address, Bob signs up. *)
Definition w_trio : World MemHeap :=
  (run (serve sample_engine (ReqSignUp "bob@example.com" "secret" home))
    (run (serve sample_engine (ReqSignUp alice "other" home))
      (run (serve sample_engine (ReqSignUp alice "hunter2" home)) mem_world0).2).2).2.

Lemma one_account_per_address_witness :
  size (v_users (view (w_store w_trio))) = 2%nat ∧
  ∀ k k' u u', v_users (view (w_store w_trio)) !! k = Some u →
    v_users (view (w_store w_trio)) !! k' = Some u' → User_Email u = User_Email u' → k = k'.
Proof.
  split; [vm_compute; reflexivity|].
  apply (one_account_per_address sample_engine mem_world0).
  - fixture_inv.
  - intros k k' u u' Hu. change (v_users (view (w_store mem_world0))) with (∅ : gmap string User) in Hu.
    by rewrite lookup_empty in Hu.
  - right. split; [reflexivity|]. unfold w_trio.
    eapply rtc_l; [exists (ReqSignUp alice "hunter2" home); split; [by intros raw|reflexivity]|].
    eapply rtc_l; [exists (ReqSignUp alice "other" home); split; [by intros raw|reflexivity]|].
    apply rtc_once. exists (ReqSignUp "bob@example.com" "secret" home).
    split; [by intros raw|reflexivity].
Defined.

End witnesses.
