(* ===== verification/Isolation.v ===== *)
(** * Accounts are isolated from one another

    A request concerns an account if it names its ID or logs in under its address, or
    presents one of its refresh or verification tokens. Over a storage that enforces
    its keys, all other requests leave the account alone: its record, its sessions,
    its verification tokens and its audit trail stay exactly as they are, however the
    requests interleave. *)
From S2P Require Import Prelude Errors Runtime Store StoreSpec SessionMachine Logger RateLimiter World.
From S2P Require Import Security Token Logic Auth Session Engine AuthLogic LoginLogic.
From S2P Require Import SessionSafety Interleaving Concurrency Footprint Hygiene ViewFootprint.
From S2P Require Import Postgres PostgresContract Sample Fixtures PgFixtures.

Section isolation.
Context {S : Type} `{StoreModel S, !StoreLaws}.
Context (uid : string) (u : User).
Context (own_s : gmap string Session) (own_t : gmap string VerificationToken).
Context (own_e : list AuditEvent).

Implicit Types (w : World S) (v : View).

(** All there is of the account, and no family of it has a session of another user. *)
Record intact v : Prop := {
  in_user : v_users v !! uid = Some u;
  in_sessions : filter (λ p, Session_UserID p.2 = uid) (v_sessions v) = own_s;
  in_tokens : filter (λ p, VerificationToken_UserID p.2 = uid) (v_tokens v) = own_t;
  in_events : filter (λ ev, AuditEvent_UserID ev = uid) (v_events v) = own_e;
  in_families k s : v_sessions v !! k = Some s → is_Some (own_s !! Session_FamilyID s) →
    Session_UserID s = uid;
}.

Context (Hroot : ∀ k s, own_s !! k = Some s → is_Some (own_s !! Session_FamilyID s)).
Context (Huid : uid ≠ EmptyString).

Lemma own_session v k s :
  intact v → own_s !! k = Some s ↔ v_sessions v !! k = Some s ∧ Session_UserID s = uid.
Proof. intros Hv. by rewrite <- (in_sessions _ Hv), map_lookup_filter_Some. Qed.

Lemma own_token v k t :
  intact v → own_t !! k = Some t ↔ v_tokens v !! k = Some t ∧ VerificationToken_UserID t = uid.
Proof. intros Hv. by rewrite <- (in_tokens _ Hv), map_lookup_filter_Some. Qed.

Lemma not_own v k s :
  intact v → v_sessions v !! k = Some s → Session_UserID s ≠ uid → own_s !! k = None.
Proof.
  intros Hv Hk Hne. destruct (own_s !! k) as [x|] eqn:Hx; [|done].
  apply (own_session v) in Hx as [? ?]; [|done]. congruence.
Qed.

(** A key that is not there is not the account's. *)
Lemma absent_not_own v k : intact v → v_sessions v !! k = None → own_s !! k = None.
Proof.
  intros Hv Hk. destruct (own_s !! k) as [x|] eqn:Hx; [|done].
  apply (own_session v) in Hx as [? _]; [|done]. congruence.
Qed.

(** *** Changes of one table *)

Lemma intact_users v m : intact v → m !! uid = v_users v !! uid → intact (with_users v m).
Proof. intros [] Hm. split; simpl; try done. by rewrite Hm. Qed.

Lemma intact_sessions v m :
  intact v → (∀ k s, own_s !! k = Some s → m !! k = Some s) →
  (∀ k s, m !! k = Some s → own_s !! k = None →
     Session_UserID s ≠ uid ∧ own_s !! Session_FamilyID s = None) →
  intact (with_sessions v m).
Proof.
  intros Hv Hown Hother. pose proof (λ k s, own_session v k s Hv) as Hiff.
  split; simpl; try apply Hv.
  - apply map_eq. intros k. apply option_eq. intros s. rewrite map_lookup_filter_Some. simpl. split.
    + intros [Hm Hs]. destruct (own_s !! k) as [x|] eqn:Hx; [|by destruct (Hother _ _ Hm Hx)].
      rewrite (Hown _ _ Hx) in Hm. by injection Hm as ->.
    + intros Hs. split; [by apply Hown|by apply (Hiff k s)].
  - intros k s Hm [x Hx]. destruct (own_s !! k) as [y|] eqn:Hy.
    + rewrite (Hown _ _ Hy) in Hm. injection Hm as <-. by apply (Hiff k y).
    + destruct (Hother _ _ Hm Hy) as [_ ?]. congruence.
Qed.

(** What is known of the sessions that are not the account's. *)
Lemma other_session v k s :
  intact v → v_sessions v !! k = Some s → own_s !! k = None →
  Session_UserID s ≠ uid ∧ own_s !! Session_FamilyID s = None.
Proof.
  intros Hv Hk Hn. assert (Session_UserID s ≠ uid) as Hne.
  { intros Hu. assert (own_s !! k = Some s) by (by apply (own_session v)). congruence. }
  split; [done|]. destruct (own_s !! Session_FamilyID s) eqn:Hf; [|done].
  destruct Hne. apply (in_families _ Hv _ _ Hk). by eexists.
Qed.

Lemma intact_insert v k s :
  intact v → own_s !! k = None → Session_UserID s ≠ uid → own_s !! Session_FamilyID s = None →
  intact (with_sessions v (<[k := s]> (v_sessions v))).
Proof.
  intros Hv Hn Hs Hf. apply intact_sessions; [done|..].
  - intros i x Hi. rewrite lookup_insert_ne by congruence. by apply (own_session v).
  - intros i x [[<- <-]|[_ Hx]]%lookup_insert_Some Hi; [done|by eapply other_session].
Qed.

Lemma intact_tokens v k t :
  intact v → own_t !! k = None → VerificationToken_UserID t ≠ uid →
  intact (with_tokens v (<[k := t]> (v_tokens v))).
Proof.
  intros Hv Hn Ht. pose proof (λ i x, own_token v i x Hv) as Hiff. split; simpl; try apply Hv.
  apply map_eq. intros i. apply option_eq. intros x. rewrite map_lookup_filter_Some. simpl.
  destruct (decide (i = k)) as [->|Hi].
  - rewrite lookup_insert_eq, Hn. split; [intros [[= ->] ?]; done|done].
  - rewrite lookup_insert_ne by done. by rewrite Hiff.
Qed.

Lemma intact_revoke_where v (P : Session → Prop) `{∀ s, Decision (P s)} t :
  intact v → (∀ k s, own_s !! k = Some s → ¬ P s) →
  intact (with_sessions v (revoke_where P t <$> v_sessions v)).
Proof.
  intros Hv HP. apply intact_sessions; [done|..].
  - intros k s Hs. rewrite lookup_fmap. destruct (proj1 (own_session v k s Hv) Hs) as [-> _]. simpl.
    unfold revoke_where. rewrite decide_False; [done|]. intros [HPs _]. by eapply HP.
  - intros k s (x & <- & Hx)%lookup_fmap_Some Hn.
    destruct (other_session v k x Hv Hx Hn) as [Hu Hf].
    destruct (later_revoke_where P t x) as [(_ & -> & -> & _) _]. done.
Qed.

Lemma cleared_events k (es : list AuditEvent) :
  k ≠ uid → filter (λ ev, AuditEvent_UserID ev = uid) (clear_user k <$> es) =
    filter (λ ev, AuditEvent_UserID ev = uid) es.
Proof.
  intros Hk. induction es as [|ev es IH]; [done|]. rewrite fmap_cons, !filter_cons, IH.
  unfold clear_user. destruct (decide (AuditEvent_UserID ev = k)) as [Hc|Hc].
  - rewrite bool_decide_true by done. simpl. by rewrite !decide_False by congruence.
  - by rewrite bool_decide_false.
Qed.

Lemma intact_cascade v k : intact v → k ≠ uid → intact (cascade k v).
Proof.
  intros Hv Hk. pose proof (in_sessions _ Hv) as HS. pose proof (in_tokens _ Hv) as HT.
  pose proof (in_events _ Hv) as HE. split; simpl.
  - apply Hv.
  - rewrite map_filter_filter. rewrite <- HS. apply map_filter_ext. intros i s _. simpl. naive_solver.
  - rewrite map_filter_filter. rewrite <- HT. apply map_filter_ext. intros i t _. simpl. naive_solver.
  - rewrite <- HE. apply cleared_events. done.
  - intros i s [Hs _]%map_lookup_filter_Some. by apply (in_families _ Hv i).
Qed.

Lemma intact_event v ev :
  intact v → AuditEvent_UserID ev ≠ uid → intact (with_events v (v_events v ++ [ev])).
Proof.
  intros Hv Hne. split; simpl; try apply Hv.
  rewrite filter_app, filter_cons, filter_nil, decide_False by done. rewrite app_nil_r. apply Hv.
Qed.

(** ** Calls of the stores for somebody else *)

Context (Hstrict : strict = true).
Context (users : UserStore S) (sessions : SessionStore S) (audit : AuditStore S)
  (vs : VerificationStore S).
Context `{!UserContract users, !SessionContract sessions, !AuditContract audit,
  !VerificationContract vs}.

Notation leaves := (allows intact (λ _ _, True)).

Lemma leaves_mutates {A} (op : Op S (result A)) present E :
  sat op (mutates present E) → (∀ v x v', intact v → E v x v' → intact v') → leaves op (λ _, True).
Proof.
  intros Hop HE. eapply allows_mutates; [by intros ?|done|]. intros v x v' Hv Hx.
  split; [by eapply HE|done].
Qed.

(** *** Users *)

Lemma leaves_updated {A} (op : Op S (result A)) present id (F : A → User → User → Prop) E :
  sat op (mutates present E) → (∀ v x v', E v x v' → user_updated id (F x) v v') →
  key id ≠ Some uid → leaves op (λ _, True).
Proof.
  intros Hop HE Hne. eapply leaves_mutates; [done|]. intros v x v' Hv Hx.
  destruct (HE _ _ _ Hx) as (k & y & y' & Hk & _ & _ & ->). apply intact_users; [done|].
  by rewrite lookup_insert_ne by congruence.
Qed.

(** A user that was created is not the account's. *)
Lemma leaves_user_create id email hash :
  leaves (UserStore_Create users (new_User id email hash)) (λ r, ∀ x, r = Ok x → key id ≠ Some uid).
Proof.
  assert (∀ v v', intact v → user_created id email hash v v' → intact v' ∧ key id ≠ Some uid) as HE.
  { intros v v' Hv (k & t & t' & Hk & Hn & ->). destruct (Hn Hstrict) as [Hnone _].
    assert (k ≠ uid) by (intros ->; by rewrite (in_user _ Hv) in Hnone). split; [|congruence].
    apply intact_users; [done|]. by rewrite lookup_insert_ne. }
  eexists. split; [apply uc_create; apply _|]. intros w r v' [_ Hv] Hr.
  destruct r as [[]|err]; [by destruct (HE _ _ Hv Hr)|].
  destruct Hr as [[->|[_ Hr]] _]; [by split_and!|]. by destruct (HE _ _ Hv Hr).
Qed.

Lemma leaves_user_by_email email :
  email ≠ User_Email u →
  leaves (UserStore_GetByEmail users email) (λ r, ∀ x, r = Ok x → key (User_ID x) ≠ Some uid).
Proof.
  intros Hne. eapply allows_query; [by intros ?|apply uc_get_by_email; apply _|].
  intros w x [Hi Hv] [Hx He] Hk. destruct (canon_user _ _ _ Hi Hx) as [_ Hc].
  rewrite Hc in Hk. injection Hk as Hk. rewrite Hk, (in_user _ Hv) in Hx. congruence.
Qed.

Lemma leaves_update_email id email :
  key id ≠ Some uid → leaves (UserStore_UpdateEmail users id email) (λ _, True).
Proof.
  apply (leaves_updated _ _ id (λ _ x x', ∃ t, x' = set_Email x email t) _ (uc_update_email id email)).
  by intros v x v' [HE _].
Qed.

Lemma leaves_update_password id hash :
  key id ≠ Some uid → leaves (UserStore_UpdatePasswordHash users id hash) (λ _, True).
Proof. eapply leaves_updated; [apply uc_update_password; apply _|intros v x v' HE; exact HE]. Qed.

Lemma leaves_increment id :
  key id ≠ Some uid → leaves (UserStore_IncrementFailedAttempts users id) (λ _, True).
Proof. eapply leaves_updated; [apply uc_increment; apply _|intros v x v' HE; exact HE]. Qed.

Lemma leaves_reset id :
  key id ≠ Some uid → leaves (UserStore_ResetFailedAttempts users id) (λ _, True).
Proof. eapply leaves_updated; [apply uc_reset; apply _|intros v x v' HE; exact HE]. Qed.

Lemma leaves_lock id t :
  key id ≠ Some uid → leaves (UserStore_LockAccount users id t) (λ _, True).
Proof. eapply leaves_updated; [apply uc_lock; apply _|intros v x v' HE; exact HE]. Qed.

Lemma leaves_delete id : key id ≠ Some uid → leaves (UserStore_Delete users id) (λ _, True).
Proof.
  intros Hne. eapply leaves_mutates; [eauto with cryden|]. intros v [] v' Hv (k & Hk & _ & ->).
  rewrite Hstrict. apply intact_users; [apply intact_cascade; [done|congruence]|].
  simpl. by rewrite lookup_delete_ne by congruence.
Qed.

(** *** Sessions *)

(** A session of somebody else, as a query finds it. *)
Definition foreign (s : Session) : Prop :=
  key (Session_ID s) = Some (Session_ID s) ∧ own_s !! Session_ID s = None ∧
  key (Session_FamilyID s) = Some (Session_FamilyID s) ∧ own_s !! Session_FamilyID s = None ∧
  key (Session_UserID s) ≠ Some uid.

Lemma session_foreign w s :
  holding intact w → v_sessions (vw w) !! Session_ID s = Some s → Session_UserID s ≠ uid → foreign s.
Proof.
  intros [Hi Hv] Hs Hne. destruct (canon_session _ _ _ Hi Hs) as (_ & Hk & Hf & Hu).
  pose proof (not_own _ _ _ Hv Hs Hne) as Hn.
  destruct (other_session _ _ _ Hv Hs Hn) as [_ ?]. split_and!; try done. congruence.
Qed.

Lemma leaves_session_by_hash hash :
  (∀ k s, own_s !! k = Some s → Session_TokenHash s ≠ hash) →
  leaves (SessionStore_GetByTokenHash sessions hash) (λ r, ∀ s, r = Ok s → foreign s).
Proof.
  intros Hown. eapply allows_query; [by intros ?|apply sc_get_by_hash; apply _|].
  intros w s Hw [Hs Hh]. eapply session_foreign; [done..|]. intros Hu.
  eapply Hown; [|exact Hh]. apply (own_session (vw w)); [apply Hw|by split].
Qed.

Lemma leaves_session_by_id id :
  leaves (SessionStore_GetByID sessions id) (λ r, ∀ s, r = Ok s →
    key id = Some (Session_ID s) ∧ (key (Session_UserID s) ≠ Some uid → foreign s)).
Proof.
  eapply allows_query; [by intros ?|apply sc_get_by_id; apply _|].
  intros w s Hw [Hk Hs]. split; [done|]. intros Hne. apply (session_foreign w); [done..|].
  destruct (canon_session _ _ _ (ho_inv _ _ Hw) Hs) as (_ & _ & _ & ?). congruence.
Qed.

Lemma leaves_session_create id user hash ip agent :
  key user ≠ Some uid →
  leaves (SessionStore_Create sessions (new_Session id id user hash ip agent)) (λ _, True).
Proof.
  intros Hu. eapply leaves_mutates; [eauto with cryden|].
  intros v [] v' Hv (k & kf & ku & t & Hk & Hkf & Hku & Hn & ->). destruct (Hn Hstrict) as [Hnone _].
  simplify_eq. apply intact_insert; simpl; [done|by eapply absent_not_own|congruence|].
  by eapply absent_not_own.
Qed.

Lemma leaves_rotate s id hash ip agent :
  foreign s →
  leaves (SessionStore_RotateToken sessions (Session_ID s)
    (new_Session id (Session_FamilyID s) (Session_UserID s) hash ip agent)) (λ _, True).
Proof.
  intros (Hid & Hn & Hf & Hnf & Hu). eapply leaves_mutates; [eauto with cryden|].
  intros v [] v' Hv (ko & so & t & kn & kf & ku & t' & Hko & Hso & _ & Hkf & Hku & Hstr & ->).
  destruct (Hstr Hstrict) as (_ & Hnone & _). simplify_eq.
  destruct (other_session _ _ _ Hv Hso Hn) as [Hsu Hsf].
  pose proof (intact_insert v (Session_ID s) (set_RevokedAt so (Some t)) Hv Hn Hsu Hsf) as Hv1.
  apply (intact_insert _ kn (mkSession kn (Session_FamilyID s) ku hash ip agent t' None) Hv1).
  - by eapply (absent_not_own v).
  - simpl. congruence.
  - done.
Qed.

Lemma leaves_revoke id s :
  key id = Some (Session_ID s) → foreign s → leaves (SessionStore_Revoke sessions id) (λ _, True).
Proof.
  intros Hk (_ & Hn & _). eapply leaves_mutates; [eauto with cryden|].
  intros v [] v' Hv (k & x & t & Hk' & Hx & _ & ->). simplify_eq.
  destruct (other_session _ _ _ Hv Hx Hn). by apply intact_insert.
Qed.

Lemma leaves_revoke_family s :
  foreign s → leaves (SessionStore_RevokeFamily sessions (Session_FamilyID s)) (λ _, True).
Proof.
  intros (_ & _ & Hf & Hnf & _). eapply leaves_mutates; [eauto with cryden|].
  intros v [] v' Hv (kf & t & Hkf & ->). apply intact_revoke_where; [done|].
  intros k x Hx Heq. destruct (Hroot _ _ Hx) as [y Hy]. congruence.
Qed.

Lemma leaves_revoke_all user :
  key user ≠ Some uid → leaves (SessionStore_RevokeAllForUser sessions user) (λ _, True).
Proof.
  intros Hne. eapply leaves_mutates; [eauto with cryden|].
  intros v [] v' Hv (ku & t & Hku & ->). apply intact_revoke_where; [done|].
  intros k x Hx Heq. apply (own_session v) in Hx as [_ Hx]; [congruence|done].
Qed.

(** *** Events and tokens *)

Lemma leaves_record ty user ip meta :
  user = EmptyString ∨ key user ≠ Some uid →
  leaves (AuditStore_Record audit (new_AuditEvent ty user ip meta)) (λ _, True).
Proof.
  intros Hne. eapply leaves_mutates; [eauto with cryden|].
  intros v [] v' Hv (ev & ((_ & _ & _ & Hu) & _) & ->). apply intact_event; [done|]. simpl in Hu.
  case_bool_decide as He; [congruence|]. intros Heq. destruct Hne; congruence.
Qed.

Lemma leaves_token_create id user purpose hash email expires :
  key user ≠ Some uid →
  leaves (VerificationStore_Create vs (new_VerificationToken id user purpose hash email expires))
    (λ _, True).
Proof.
  intros Hne. eapply leaves_mutates; [eauto with cryden|].
  intros v [] v' Hv (k & ku & x & t & _ & Hku & _ & Hn & ->). apply intact_tokens; [done| |simpl; congruence].
  destruct (own_t !! k) as [y|] eqn:Hy; [|done]. apply (own_token v) in Hy as [Hy _]; [|done].
  destruct (Hn Hstrict) as [Hn' _]. congruence.
Qed.

(** A verification token of somebody else. *)
Definition foreign_token (t : VerificationToken) : Prop :=
  key (VerificationToken_ID t) = Some (VerificationToken_ID t) ∧
  own_t !! VerificationToken_ID t = None ∧ key (VerificationToken_UserID t) ≠ Some uid.

Lemma leaves_token_by_hash hash :
  (∀ k t, own_t !! k = Some t → VerificationToken_TokenHash t ≠ hash) →
  leaves (VerificationStore_GetByTokenHash vs hash) (λ r, ∀ t, r = Ok t → foreign_token t).
Proof.
  intros Hown. eapply allows_query; [by intros ?|apply vc_get_by_hash; apply _|].
  intros w t [Hi Hv] [Ht Hh]. destruct (canon_token _ _ _ Hi Ht) as (_ & Hk & Hu).
  assert (VerificationToken_UserID t ≠ uid) as Hne.
  { intros Heq. eapply Hown; [|exact Hh]. apply (own_token (vw w)); [done|by split]. }
  split_and!; [done| |congruence]. destruct (own_t !! _) as [y|] eqn:Hy; [|done].
  apply (own_token (vw w)) in Hy as [Hy Hyu]; [congruence|done].
Qed.

Lemma leaves_mark_used t :
  foreign_token t → leaves (VerificationStore_MarkUsed vs (VerificationToken_ID t)) (λ _, True).
Proof.
  intros (Hk & Hn & _). eapply leaves_mutates; [eauto with cryden|].
  intros v [] v' Hv (k & y & t' & Hk' & Hy & ->). simplify_eq. apply intact_tokens; [done..|].
  simpl. intros Heq. assert (own_t !! VerificationToken_ID t = Some y); [|congruence].
  apply (own_token v); [done|by split].
Qed.

End isolation.

#[export] Hint Resolve leaves_update_email leaves_update_password
  leaves_increment leaves_reset leaves_lock leaves_delete leaves_session_create leaves_rotate
  leaves_revoke leaves_revoke_family leaves_revoke_all leaves_record leaves_token_create leaves_mark_used : isolate.
#[export] Hint Resolve leaves_user_create leaves_user_by_email leaves_session_by_hash leaves_session_by_id
  leaves_token_by_hash | 0 : isolate.
#[export] Hint Extern 4 (allows _ _ _ _) =>
  eapply allows_reads; [by intros ?|solve [eauto with cryden typeclass_instances]] : isolate.

(** What a request needs of the IDs it has read. *)
#[export] Hint Extern 1 (key _ ≠ Some _) =>
  match goal with H : foreign _ _ _ |- _ => apply H | H : foreign_token _ _ _ |- _ => apply H end
  : isolate.

(** The session of an owner that is not the account. *)
Ltac owner_known :=
  match goal with
  | HF : _ ∧ (key (Session_UserID ?s) ≠ _ → foreign _ _ ?s), HO : Session_UserID ?s = _ |- _ =>
      destruct HF as [? HF]; rewrite HO in HF; specialize (HF ltac:(done))
  end.

Ltac isolate_go := views_go with (eauto with isolate typeclass_instances).

(** ** Requests that do not concern the account *)

Section requests.
Context `{Env, Bcrypt, JWT} {S : Type} `{StoreModel S, !StoreLaws}.
Context (e : Engine S) `{!EngineLaws e} (Hstrict : strict = true).
Context (uid : string) (u : User).
Context (own_s : gmap string Session) (own_t : gmap string VerificationToken).
Context (own_e : list AuditEvent).
Context (Hroot : ∀ k s, own_s !! k = Some s → is_Some (own_s !! Session_FamilyID s)).
Context (Huid : uid ≠ EmptyString).

Definition unconcerned (r : request) : Prop :=
  match r with
  | ReqLogin email _ _ _ => email ≠ User_Email u
  | ReqChangePassword id _ _ | ReqDeleteAccount id _ | ReqRequestEmailChange id _
  | ReqLogout _ id | ReqLogoutAll id | ReqRevokeSession _ id => key id ≠ Some uid
  | ReqRefreshToken raw => ∀ k s, own_s !! k = Some s → Session_TokenHash s ≠ HashToken raw
  | ReqConfirmEmailChange raw =>
      ∀ k t, own_t !! k = Some t → VerificationToken_TokenHash t ≠ HashToken raw
  | ReqSignUp _ _ _ | ReqVerifyToken _ | ReqListSessions _ => True
  end.

Notation acts := (acts (holding (intact uid u own_s own_t own_e)) (moving (λ _ _, True))).

#[local] Instance anything_reflexive : Reflexive (λ _ _ : View, True).
Proof. by intros ?. Qed.

Lemma acts_unconcerned r : unconcerned r → acts (serve e r) (λ _, True).
Proof.
  pose proof (el_verifications (e:=e)) as Hvs. pose proof (el_sender (e:=e)) as Hsnd.
  destruct r; cbn [serve unconcerned]; intros Hun; apply acts_bind;
    apply (acts_mono _ _ _ (λ _, True)); try (intros; exact I).
  - unfold cryden_SignUp, SignUp. isolate_go.
  - unfold cryden_Login, Login, recordLoginFailure, is_locked, count_failure, open_session.
    isolate_go.
  - unfold cryden_ChangePassword, ChangePassword. isolate_go.
  - unfold cryden_DeleteAccount, DeleteAccount. isolate_go.
  - unfold cryden_RequestEmailChange, RequestEmailChange.
    destruct (e_verifications e) as [vs|], (e_emailSender e) as [snd|];
      [specialize (Hvs vs eq_refl); specialize (Hsnd snd eq_refl)|..]; isolate_go.
  - unfold cryden_ConfirmEmailChange, ConfirmEmailChange.
    destruct (e_verifications e) as [vs|]; [specialize (Hvs vs eq_refl)|]; isolate_go.
  - unfold cryden_Logout, Logout. isolate_go. owner_known. isolate_go.
  - unfold cryden_LogoutAll, LogoutAll. isolate_go.
  - unfold cryden_RefreshToken, Rotate. isolate_go.
  - unfold cryden_VerifyToken. isolate_go.
  - unfold cryden_ListSessions, List. isolate_go.
  - unfold cryden_RevokeSession, Revoke. isolate_go. owner_known. isolate_go.
Qed.

End requests.

(** ** Isolation *)

(** All that the storage holds of an account. *)
Definition sessions_of (uid : string) (v : View) : gmap string Session :=
  filter (λ p, Session_UserID p.2 = uid) (v_sessions v).
Definition tokens_of (uid : string) (v : View) : gmap string VerificationToken :=
  filter (λ p, VerificationToken_UserID p.2 = uid) (v_tokens v).
Definition events_of (uid : string) (v : View) : list AuditEvent :=
  filter (λ ev, AuditEvent_UserID ev = uid) (v_events v).

Section isolated.
Context `{Env, Bcrypt, JWT} {S : Type} `{StoreModel S, !StoreLaws}.
Context (e : Engine S) `{!EngineLaws e} (Hstrict : strict = true).

Implicit Types (w : World S) (v : View).

Lemma intact_start v uid u :
  v_users v !! uid = Some u → rooted (v_sessions v) →
  intact uid u (sessions_of uid v) (tokens_of uid v) (events_of uid v) v ∧
  ∀ k s, sessions_of uid v !! k = Some s → is_Some (sessions_of uid v !! Session_FamilyID s).
Proof.
  intros Hu Hroot. split.
  - split; try done. intros k s Hs [x [Hx Hxu]%map_lookup_filter_Some].
    destruct (Hroot _ _ Hs) as (r & Hr & _ & <-). simpl in Hxu. congruence.
  - intros k s [Hs Hsu]%map_lookup_filter_Some. destruct (Hroot _ _ Hs) as (r & Hr & _ & Hru).
    exists r. apply map_lookup_filter_Some. simpl in *. split; [done|congruence].
Qed.

(** The requests that do not concern an account. *)
Definition stranger uid u v (p : Prog (World S) ()) : Prop :=
  ∃ r, unconcerned uid u (sessions_of uid v) (tokens_of uid v) r ∧ p = serve e r.

(** C4: accounts are isolated from one another. Over a storage that enforces its keys,
    whatever requests are served and however they interleave: if none of them names
    the ID of the account, logs in under its address or presents one of its refresh or
    verification tokens, then its record (password, address, counter, lock), its
    sessions, its verification tokens and its audit events are exactly as before.
    Requests of others that aim at it, to log out its sessions, to sign up or to move
    under its address, are among them and have no effect on it. *)
Theorem accounts_isolated w ps w' uid u :
  inv w → v_users (vw w) !! uid = Some u → uid ≠ EmptyString → rooted (v_sessions (vw w)) →
  rtc (pool_step (stranger uid u (vw w))) ([], w) (ps, w') →
  v_users (vw w') !! uid = Some u ∧
  sessions_of uid (vw w') = sessions_of uid (vw w) ∧
  tokens_of uid (vw w') = tokens_of uid (vw w) ∧
  events_of uid (vw w') = events_of uid (vw w).
Proof.
  intros Hi Hu Hne Hroot HS. destruct (intact_start _ _ _ Hu Hroot) as [Hv Hfam].
  assert (PreOrder (moving (S:=S) (λ _ _, True))) as Hpre by (apply moving_preorder; by split).
  refine (match proj1 (acts_pool (holding (intact uid u (sessions_of uid (vw w))
    (tokens_of uid (vw w)) (events_of uid (vw w)))) (moving (λ _ _, True)) _ ([], w) (ps, w')
    _ HS _ _) with Build_holding _ _ _ Hv' => _ end).
  - intros p (r & Hr & ->). by eapply acts_unconcerned.
  - constructor.
  - by split.
  - destruct Hv'. done.
Qed.

End isolated.

(** ** An instance *)

Section witness.
#[local] Existing Instances sample_env sample_bcrypt sample_jwt sample_pg.
#[local] Existing Instances sample_bcrypt_laws sample_jwt_laws sample_pg_laws.

(** Others go about their business, and go for Alice's account. *)
Definition strangers : list request :=
  [ReqSignUp "bob@example.com" "secret" home; ReqSignUp alice "mine" home;
   ReqLogin "bob@example.com" "secret" home "curl"; ReqLogout "id10" "bob";
   ReqRevokeSession "id10" "bob"; ReqRequestEmailChange "bob" alice;
   ReqRefreshToken "guess"; ReqConfirmEmailChange "guess"; ReqListSessions alice_id].

Definition alice_row : User :=
  default (new_User EmptyString EmptyString EmptyString) (v_users (vw pg_login) !! alice_id).

Definition visited := schedule (concat (replicate 12 (seq 0 9))) (serve pg_engine <$> strangers) pg_login.

Lemma strangers_enter :
  Forall (stranger pg_engine alice_id alice_row (vw pg_login)) (serve pg_engine <$> strangers).
Proof.
  apply Forall_fmap. repeat apply Forall_cons_2; [..|by apply Forall_nil_2].
  all: eexists; split; [|reflexivity]; cbn [unconcerned].
  1, 2, 9: exact I.
  1: vm_compute; discriminate.
  1, 2, 3: discriminate.
  - change (map_Forall (λ _ s, Session_TokenHash s ≠ HashToken "guess")
      (sessions_of alice_id (vw pg_login))).
    apply (bool_decide_unpack _). vm_compute. exact I.
  - change (map_Forall (λ _ t, VerificationToken_TokenHash t ≠ HashToken "guess")
      (tokens_of alice_id (vw pg_login))).
    apply (bool_decide_unpack _). vm_compute. exact I.
Qed.

Definition alice_session : Session :=
  default (new_Session EmptyString EmptyString EmptyString EmptyString EmptyString EmptyString)
    (v_sessions (vw pg_login) !! "id10").

Lemma pg_login_rooted : rooted (v_sessions (vw pg_login)).
Proof.
  assert (map_to_list (v_sessions (vw pg_login)) = [("id10", alice_session)]) as HM
    by (vm_compute; reflexivity).
  intros k s Hs. destruct (only_entry _ _ _ _ _ HM Hs) as [-> ->].
  exists alice_session. split_and!; by vm_compute.
Qed.

Lemma accounts_isolated_witness :
  v_users (vw visited.2) !! alice_id = Some alice_row ∧
  sessions_of alice_id (vw visited.2) = sessions_of alice_id (vw pg_login) ∧
  size (v_users (vw visited.2)) = 2%nat.
Proof.
  destruct (accounts_isolated (S:=PgHeap) pg_engine ltac:(done) pg_login visited.1 visited.2 alice_id
    alice_row) as (Hu & Hs & _ & _).
  - apply pg_inv_b_sound. vm_compute. reflexivity.
  - vm_compute. reflexivity.
  - discriminate.
  - exact pg_login_rooted.
  - rewrite <- surjective_pairing. etrans; [|apply schedule_steps].
    exact (pool_enter_all _ (serve pg_engine <$> strangers) [] pg_login strangers_enter).
  - split; [exact Hu|]. split; [exact Hs|]. vm_compute. reflexivity.
Defined.

End witness.
