(* ===== verification/AuditTrail.v ===== *)
(** * Every answer is accounted for in the audit trail

    The requests record what they did, and log it where they cannot. For one type of
    event and one address of a caller, each request holds a share of two counts
    (Footprint.v): the events it has tried to record, and those that it has recorded
    or whose failure it has logged. So the trail agrees with the answers however the
    requests interleave and whatever faults the storage has. *)
From S2P Require Import Prelude Errors Runtime Store StoreSpec Logger RateLimiter World.
From S2P Require Import Memory MemoryContract Postgres PostgresContract Security Token Logic.
From S2P Require Import Auth Session Engine AuthLogic LoginLogic TokenTheorems.
From S2P Require Import SessionSafety Interleaving Concurrency Footprint Hygiene ViewFootprint.
From S2P Require Import Sample Fixtures.

(** ** What an answer calls for *)

Definition failure {A} (r : result A) : option error :=
  match r with Ok _ => None | Err err => Some err end.

(** A request and how it was answered: [None] without an error. *)
Notation reply := (request * option error)%type.

Definition respond `{Env, Bcrypt, JWT} {S} (e : Engine S) (r : request) : Prog (World S) reply :=
  match r with
  | ReqSignUp email password ip => x ← cryden_SignUp e email password ip; mret (r, failure x)
  | ReqLogin email password ip agent =>
      x ← cryden_Login e email password ip agent; mret (r, failure x)
  | ReqChangePassword uid cur new => x ← cryden_ChangePassword e uid cur new; mret (r, failure x)
  | ReqDeleteAccount uid cur => x ← cryden_DeleteAccount e uid cur; mret (r, failure x)
  | ReqRequestEmailChange uid email =>
      x ← cryden_RequestEmailChange e uid email; mret (r, failure x)
  | ReqConfirmEmailChange raw => x ← cryden_ConfirmEmailChange e raw; mret (r, failure x)
  | ReqLogout sid uid => x ← cryden_Logout e sid uid; mret (r, failure x)
  | ReqLogoutAll uid => x ← cryden_LogoutAll e uid; mret (r, failure x)
  | ReqRefreshToken raw => x ← cryden_RefreshToken e raw; mret (r, failure x)
  | ReqVerifyToken tok => x ← cryden_VerifyToken e tok; mret (r, failure x)
  | ReqListSessions uid => x ← cryden_ListSessions e uid; mret (r, failure x)
  | ReqRevokeSession sid uid => x ← cryden_RevokeSession e sid uid; mret (r, failure x)
  end.

(** The type of the event that an answer calls for, and the address on it. *)
Definition event_due (a : reply) : option (AuditEventType * string) :=
  match a with
  | (ReqSignUp _ _ ip, None) => Some (EventSignupSuccess, ip)
  | (ReqLogin _ _ ip _, None) => Some (EventLoginSuccess, ip)
  | (ReqLogin _ _ ip _, Some ErrInvalidCredentials) => Some (EventLoginFailed, ip)
  | (ReqChangePassword _ _ _, None) => Some (EventPasswordChanged, EmptyString)
  | (ReqDeleteAccount _ _, None) => Some (EventAccountDeleted, EmptyString)
  | (ReqRequestEmailChange _ _, None) => Some (EventEmailChangeRequested, EmptyString)
  | (ReqConfirmEmailChange _, None) => Some (EventEmailChanged, EmptyString)
  | (ReqLogout _ _, None) => Some (EventLogout, EmptyString)
  | (ReqLogoutAll _, None) => Some (EventLogoutAll, EmptyString)
  | (ReqRefreshToken _, None) => Some (EventTokenRotated, EmptyString)
  | (ReqRefreshToken _, Some ErrTokenReused) => Some (EventTokenReuseDetected, EmptyString)
  | (ReqRevokeSession _ _, None) => Some (EventSessionRevoked, EmptyString)
  | _ => None
  end.

(** What the engine logs when it could not record an event of a type. *)
Definition audit_message (ty : AuditEventType) : string :=
  if bool_decide (ty = EventSignupSuccess) then "signup: audit record failed"
  else if bool_decide (ty ∈ [EventLoginSuccess; EventLoginFailed; EventAccountLocked])
    then "login: audit record failed"
  else if bool_decide (ty = EventLogout) then "logout: audit record failed"
  else if bool_decide (ty = EventLogoutAll) then "logout_all: audit record failed"
  else if bool_decide (ty ∈ [EventTokenRotated; EventTokenReuseDetected])
    then "refresh: audit record failed"
  else if bool_decide (ty = EventSessionRevoked) then "session revoke: audit record failed"
  else if bool_decide (ty = EventPasswordChanged) then "change password: audit record failed"
  else if bool_decide (ty = EventEmailChangeRequested)
    then "email change request: audit record failed"
  else if bool_decide (ty = EventEmailChanged) then "confirm email change: audit record failed"
  else "delete account: audit record failed".

Section kinds.
Context (ty : AuditEventType) (ip : string).

(** The events of the type and address in the trail. *)
Definition of_kind (ev : AuditEvent) : bool :=
  bool_decide (AuditEvent_Type ev = ty) && bool_decide (AuditEvent_IP ev = ip).

Definition recorded (v : View) : nat := length (filter of_kind (v_events v)).

(** The failures to record such an event that the log tells of. *)
Definition is_failure (c : LogCall) : bool :=
  bool_decide (LogCall_level c = LevelError) && bool_decide (LogCall_msg c = audit_message ty).

Definition failures {S} (w : World S) : nat := length (filter is_failure (w_log w)).

Definition due (a : reply) : nat := if bool_decide (event_due a = Some (ty, ip)) then 1 else 0.

Lemma recorded_snoc v ev :
  recorded (with_events v (v_events v ++ [ev])) = (recorded v + if of_kind ev then 1 else 0)%nat.
Proof.
  unfold recorded. simpl. rewrite filter_app, length_app. f_equal.
  rewrite filter_cons, filter_nil. by destruct (of_kind ev).
Qed.

Lemma recorded_cleared k v es :
  v_events v = clear_user k <$> es → recorded v = length (filter of_kind es).
Proof.
  intros Hv. unfold recorded. rewrite Hv. clear Hv. induction es as [|ev es IH]; [done|].
  rewrite fmap_cons, !filter_cons.
  assert (of_kind (clear_user k ev) = of_kind ev) as ->
    by (unfold clear_user; by case_bool_decide).
  destruct (of_kind ev); simpl; [|done]. by rewrite IH.
Qed.

Lemma failures_prefix {S} (w w' : World S) :
  w_log w `prefix_of` w_log w' → (failures w ≤ failures w')%nat.
Proof. intros [l Hl]. unfold failures. rewrite Hl, filter_app, length_app. lia. Qed.

End kinds.

(** ** Calls that record nothing *)

Section untold.
Context {S : Type} `{StoreModel S, !StoreLaws}.
Context (ty : AuditEventType) (ip : string).

(** The trail is as long as it was, as far as this kind of event goes. *)
Definition untold (v v' : View) : Prop := recorded ty ip v' = recorded ty ip v.

#[export] Instance untold_preorder : PreOrder untold.
Proof. split; [done|]. unfold untold. intros v1 v2 v3. congruence. Qed.

Notation silent := (allows (λ _ : View, True) untold).

Lemma silent_mutates {A} (op : Op S (result A)) present E :
  sat op (mutates present E) → (∀ v x v', E v x v' → v_events v' = v_events v) →
  silent op (λ _, True).
Proof.
  intros Hop HE. eapply allows_mutates; [apply _|done|]. intros v x v' _ Hx. split; [done|].
  unfold untold, recorded. by rewrite (HE _ _ _ Hx).
Qed.

Context (users : UserStore S) (sessions : SessionStore S) (vs : VerificationStore S).
Context `{!UserContract users, !SessionContract sessions, !VerificationContract vs}.

Lemma silent_user_create id email hash :
  silent (UserStore_Create users (new_User id email hash)) (λ _, True).
Proof. eapply silent_mutates; [eauto with cryden|]. by intros v [] v' (? & ? & ? & _ & _ & ->). Qed.

Ltac updates :=
  eapply silent_mutates; [eauto with cryden|];
  intros v x v' HE; unfold user_updated in HE; decompose [ex and] HE; by subst v'.

Lemma silent_update_email id email : silent (UserStore_UpdateEmail users id email) (λ _, True).
Proof. updates. Qed.

Lemma silent_update_password id hash : silent (UserStore_UpdatePasswordHash users id hash) (λ _, True).
Proof. updates. Qed.

Lemma silent_increment id : silent (UserStore_IncrementFailedAttempts users id) (λ _, True).
Proof. updates. Qed.

Lemma silent_reset id : silent (UserStore_ResetFailedAttempts users id) (λ _, True).
Proof. updates. Qed.

Lemma silent_lock id t : silent (UserStore_LockAccount users id t) (λ _, True).
Proof. updates. Qed.

(** A deletion clears the user of an event, not its type or address. *)
Lemma silent_delete id : silent (UserStore_Delete users id) (λ _, True).
Proof.
  eapply allows_mutates; [apply _|eauto with cryden|]. intros v [] v' _ (k & _ & _ & ->).
  split; [done|]. unfold untold. destruct strict; [|done]. by apply (recorded_cleared _ _ k).
Qed.

Ltac rows :=
  eapply silent_mutates; [eauto with cryden|]; intros v x v' HE; hnf in HE;
  decompose [ex and] HE; by subst v'.

Lemma silent_session_create id family user hash ipaddr agent :
  silent (SessionStore_Create sessions (new_Session id family user hash ipaddr agent)) (λ _, True).
Proof. rows. Qed.

Lemma silent_rotate old id family user hash ipaddr agent :
  silent (SessionStore_RotateToken sessions old (new_Session id family user hash ipaddr agent))
    (λ _, True).
Proof. rows. Qed.

Lemma silent_revoke id : silent (SessionStore_Revoke sessions id) (λ _, True).
Proof. rows. Qed.

Lemma silent_revoke_family f : silent (SessionStore_RevokeFamily sessions f) (λ _, True).
Proof. rows. Qed.

Lemma silent_revoke_all u : silent (SessionStore_RevokeAllForUser sessions u) (λ _, True).
Proof. rows. Qed.

Lemma silent_token_create id user purpose hash email expires :
  silent (VerificationStore_Create vs
    (new_VerificationToken id user purpose hash email expires)) (λ _, True).
Proof. rows. Qed.

Lemma silent_mark_used id : silent (VerificationStore_MarkUsed vs id) (λ _, True).
Proof. rows. Qed.

End untold.

#[export] Hint Resolve silent_user_create silent_update_email silent_update_password
  silent_increment silent_reset silent_lock silent_delete silent_session_create silent_rotate
  silent_revoke silent_revoke_family silent_revoke_all silent_token_create silent_mark_used : silent.
#[export] Hint Extern 4 (allows _ _ _ _) =>
  eapply allows_reads; [apply _|solve [eauto with cryden typeclass_instances]] : silent.

Ltac silent_go := views_go with (eauto with silent typeclass_instances).

(** ** The shares of a request *)

Section trail.
Context `{Env, Bcrypt, JWT, !JWTLaws} {S : Type} `{StoreModel S, !StoreLaws}.
Context (e : Engine S) `{!EngineLaws e}.
Context (ty : AuditEventType) (ip : string) (w0 : World S).

Implicit Types (w : World S) (v : View) (g : nat * nat).

Notation recorded := (recorded ty ip).
Notation failures := (failures ty).
Notation due := (due ty ip).

(** [g.1] events were tried since [w0], [g.2] recorded or their failure logged. *)
Record tallied w g : Prop := {
  td_inv : inv w;
  td_most : (recorded (vw w) ≤ recorded (vw w0) + g.1)%nat;
  td_least : (recorded (vw w0) + failures w0 + g.2 ≤ recorded (vw w) + failures w)%nat;
  td_exact : reliable = true → (recorded (vw w0) + g.2 ≤ recorded (vw w))%nat;
}.

Notation shares := (shares tallied join).

Lemma shares_silent {A} (p : Prog (World S) A) (P : A → Prop) g (Q : A → nat * nat → Prop) :
  acts (holding (λ _, True)) (moving (untold ty ip)) p P → (∀ a, P a → Q a g) → shares p g Q.
Proof.
  intros Hp HQ. eapply shares_mono.
  2:{ eapply acts_shares; [| |exact Hp].
      - intros w n [Hi _ _ _]. by split.
      - intros w w' n [Hi Hm Hl He] [Hi' _] (Hu & _ & Hlog).
        apply (failures_prefix ty) in Hlog. unfold untold in Hu.
        split; [done|rewrite Hu; lia|rewrite Hu; lia|rewrite Hu; auto]. }
  intros a g' [Ha ->]. auto.
Qed.

(** The share of a request that has recorded one more event. *)
Definition note (ty' : AuditEventType) (ip' : string) g : nat * nat :=
  if bool_decide (ty' = ty ∧ ip' = ip) then (Datatypes.S g.1, Datatypes.S g.2) else g.

Lemma stored_kind ty' user ip' meta v v' :
  event_recorded (new_AuditEvent ty' user ip' meta) v v' →
  recorded v' = (recorded v + if bool_decide (ty' = ty ∧ ip' = ip) then 1 else 0)%nat.
Proof.
  intros (ev & ((Ht & Hip & _) & _) & ->). simpl in Ht, Hip. rewrite recorded_snoc.
  unfold of_kind. rewrite Ht, Hip. f_equal. repeat case_bool_decide; simpl; naive_solver.
Qed.

Lemma shares_record_or_log ty' user ip' meta msg fields g (Q : () → nat * nat → Prop) :
  (ty' = ty → msg = audit_message ty) → Q () (note ty' ip' g) →
  shares (record_or_log (e_audit e) (e_log e) (new_AuditEvent ty' user ip' meta) msg fields) g Q.
Proof.
  intros Hmsg HQ. unfold record_or_log, note in *. apply shares_bind, shares_act.
  intros w rest r w' [Hi Hm Hl He].
  destruct (AuditStore_Record _ _ _) as [r' [s a]] eqn:E. intros [= <- <-].
  destruct (ac_record ty' user ip' meta _ _ _ _ _ Hi E) as (Hi' & _ & Hr).
  assert (failures (with_store w s a) = failures w) as Hfs by done. destruct r' as [[]|err].
  - exists (if bool_decide (ty' = ty ∧ ip' = ip)
      then (Datatypes.S g.1, Datatypes.S g.2) else g). split; [|by apply shares_ret].
    apply stored_kind in Hr. unfold join in *. simpl in *.
    split; simpl; [done|rewrite Hr, ?Hfs; case_bool_decide; simpl; lia..|].
    intros Hrel. specialize (He Hrel). rewrite Hr. case_bool_decide; simpl; lia.
  - apply mutates_fault in Hr as (Hrel & Hr & _); [|exact I].
    exists (if bool_decide (ty' = ty ∧ ip' = ip) then (Datatypes.S g.1, g.2) else g).
    assert (∃ n, recorded (view s) = (recorded (vw w) + n)%nat ∧
      (n ≤ if bool_decide (ty' = ty ∧ ip' = ip) then 1 else 0)%nat) as (n & Hn & Hle).
    { destruct Hr as [->|[[] Hr]]; [exists 0%nat; case_bool_decide; lia|].
      apply stored_kind in Hr. eauto. }
    split.
    + unfold join in *. simpl in *.
      split; simpl; [done|rewrite Hn, ?Hfs; case_bool_decide; simpl in *; lia..|congruence].
    + apply shares_act. clear - HQ Hmsg Hrel. intros w rest [] w' [Hi Hm Hl He].
      destruct (Logger_Error _ _ _ _) as [lines a]. intros [= <-].
      eexists. split; [|exact HQ].
      assert (failures (with_log w (mkLogCall LevelError msg (<["error" := error_text err]> fields))
        lines a) = (failures w + if bool_decide (msg = audit_message ty) then 1 else 0)%nat) as Hf.
      { unfold failures, AuditTrail.failures. simpl. rewrite filter_app, length_app. f_equal.
        rewrite filter_cons, filter_nil. unfold is_failure. rewrite bool_decide_true by done.
        simpl. by destruct (bool_decide (msg = audit_message ty)). }
      split; [done| | |congruence]; unfold join in *; simpl in *.
      * repeat case_bool_decide; simpl in *; lia || naive_solver.
      * rewrite Hf. repeat case_bool_decide; simpl in *; lia || naive_solver.
Qed.

(** *** The answers are paid for *)

(** What a finished request has noted. An account_deleted event is recorded before the
    deletion, which may fail after it. *)
Definition settled (a : reply) g : Prop :=
  (due a ≤ g.2)%nat ∧ (ty ≠ EventAccountDeleted → (g.1 ≤ due a)%nat).

(** The components of an engine have errors of their own. *)
Record own_errors : Prop := {
  oe_limiter k x : (RateLimiter_Allow (e_rateLimiter e) k x).1 ≠ Err ErrInvalidCredentials;
  oe_ids a : (IDGenerator_New (e_ids e) a).1 ≠ Err ErrInvalidCredentials;
  oe_gen a : (TokenGenerator_New (e_refreshGen e) a).1 ≠ Err ErrInvalidCredentials;
}.

Context (Hown : own_errors) (Hlocked : ty ≠ EventAccountLocked).

Lemma note_locked ip' g : note EventAccountLocked ip' g = g.
Proof. unfold note. rewrite bool_decide_false; [done|]. intros [? _]. congruence. Qed.

Lemma shares_on_amb {A} (op : St Amb A) g (Q : A → nat * nat → Prop) :
  (∀ a, Q (op a).1 g) → shares (on_amb op) g Q.
Proof.
  intros HQ. apply shares_act. intros w rest r w' [Hi Hm Hl He].
  destruct (op (w_amb w)) as [r' a] eqn:E. intros [= <- <-]. exists g. split; [by split|].
  specialize (HQ (w_amb w)). by rewrite E in HQ.
Qed.

Lemma shares_on_limiter {A} (op : St (LimiterState * Amb) A) g (Q : A → nat * nat → Prop) :
  (∀ x, Q (op x).1 g) → shares (on_limiter op) g Q.
Proof.
  intros HQ. apply shares_act. intros w rest r w' [Hi Hm Hl He].
  destruct (op (w_limiter w, w_amb w)) as [r' [l a]] eqn:E. intros [= <- <-].
  exists g. split; [by split|]. specialize (HQ (w_limiter w, w_amb w)). by rewrite E in HQ.
Qed.

(** An answer with what was noted. *)
Ltac paid :=
  unfold settled, due, note, nothing; simpl; repeat case_bool_decide; simpl in *;
  simplify_eq; first [lia | naive_solver lia].

(** Walks through a handler: what it records is noted, the rest is silent. *)
Ltac trail_go :=
  repeat lazymatch goal with
  | |- Footprint.shares _ _ (mret _) _ _ => apply shares_ret
  | |- Footprint.shares _ _ (Ret _) _ _ => apply shares_ret
  | |- Footprint.shares _ _ (_ ≫= _) _ _ => apply shares_bind
  | |- Footprint.shares _ _ (mbind _ _) _ _ => apply shares_bind
  | |- Footprint.shares _ _ (record_or_log _ _ _ _ _) _ _ =>
      apply shares_record_or_log; [by intros <-|]
  | |- Footprint.shares _ _ (act _) _ _ => fail
  | |- Footprint.shares _ _ (if bool_decide _ then _ else _) _ _ => case_bool_decide
  | |- Footprint.shares _ _ (match ?x with _ => _ end) _ _ => destruct x
  | |- Footprint.shares _ _ _ _ _ => eapply (shares_silent _ (λ _, True)); [solve [silent_go]|intros ? _]
  end.

Ltac units := repeat match goal with u : () |- _ => destruct u end.

Lemma shares_noted_failure u callerIP th dur g (Q : () → nat * nat → Prop) :
  Q () g → shares (count_failure (e_users e) (e_audit e) (e_log e) u callerIP th dur) g Q.
Proof. intros HQ. unfold count_failure. trail_go; units; by rewrite ?note_locked. Qed.

(** What is answered to a login: an error of another component is none of its own. *)
Lemma settled_login_error email pw cip agent err :
  err ≠ ErrInvalidCredentials → settled (ReqLogin email pw cip agent, Some err) nothing.
Proof. intros Hne. destruct err; try done; paid. Qed.

Lemma shares_open_session u cip agent email pw :
  shares (open_session (e_users e) (e_sessions e) (e_ids e) (e_refreshGen e) (e_jwtIssuer e)
      (e_audit e) (e_log e) u cip agent) nothing
    (λ x, settled (ReqLogin email pw cip agent, failure x)).
Proof.
  unfold open_session. apply shares_bind.
  eapply (shares_silent _ (λ _, True)); [solve [silent_go]|]. intros reset _.
  apply shares_bind. eapply (shares_silent _ (λ _, True)); [silent_go|]. intros ? _.
  apply shares_bind, shares_on_amb. intros a1. pose proof (oe_ids Hown a1) as Hid.
  destruct (IDGenerator_New _ a1).1 as [id|err]; [|trail_go; apply settled_login_error; congruence].
  apply shares_bind, shares_on_amb. intros a2. pose proof (oe_gen Hown a2) as Hgen.
  destruct (TokenGenerator_New _ a2).1 as [raw|err]; [|trail_go; apply settled_login_error; congruence].
  apply shares_bind.
  eapply (shares_silent _ (λ r, r ≠ Err ErrInvalidCredentials)).
  { apply views_on_store. eexists. split; [apply sc_create; apply _|].
    intros w r v' _ Hr. destruct r as [[]|err].
    - destruct Hr as (? & ? & ? & ? & _ & _ & _ & _ & ->). by split_and!.
    - destruct Hr as ([->|([] & ? & ? & ? & ? & _ & _ & _ & _ & ->)] & [->|[? ->]] & _); by split_and!. }
  intros [[]|err] Hne; [|trail_go; apply settled_login_error; congruence].
  apply shares_bind, shares_on_amb. intros a3.
  destruct (Issue_total (e_jwtIssuer e) (User_ID u) a3) as (tok & a4 & ->). cbn [fst].
  trail_go; paid.
Qed.

Lemma shares_login email pw cip agent :
  shares (respond e (ReqLogin email pw cip agent)) nothing settled.
Proof.
  cbn [respond]. apply shares_bind. unfold cryden_Login, Login.
  apply shares_bind, shares_on_limiter. intros x.
  pose proof (oe_limiter Hown ("login:" +:+ cip +:+ ":" +:+ email) x) as Hlim.
  destruct (RateLimiter_Allow _ _ x).1 as [[]|err].
  2:{ trail_go; paid. }
  2:{ trail_go; apply settled_login_error; congruence. }
  apply shares_bind. eapply (shares_silent _ (λ _, True)); [solve [silent_go]|]. intros [u|?] _.
  2:{ unfold recordLoginFailure. trail_go; paid. }
  apply shares_bind. eapply (shares_silent _ (λ _, True)); [unfold is_locked; silent_go|].
  intros [] _; [trail_go; paid|].
  destruct (Hasher_Compare _ _ _) as [?|?].
  - apply shares_open_session.
  - unfold recordLoginFailure. apply shares_bind. trail_go. apply shares_bind, shares_noted_failure.
    trail_go; paid.
Qed.

Lemma shares_respond r : shares (respond e r) nothing settled.
Proof.
  pose proof (el_verifications (e:=e)) as Hvs. pose proof (el_sender (e:=e)) as Hsnd.
  destruct r; [|apply shares_login|..]; cbn [respond]; apply shares_bind.
  - unfold cryden_SignUp, SignUp. trail_go; paid.
  - unfold cryden_ChangePassword, ChangePassword. trail_go; paid.
  - unfold cryden_DeleteAccount, DeleteAccount. trail_go; paid.
  - unfold cryden_RequestEmailChange, RequestEmailChange.
    destruct (e_verifications e) as [vs|], (e_emailSender e) as [snd|];
      [specialize (Hvs vs eq_refl); specialize (Hsnd snd eq_refl)|..]; trail_go; paid.
  - unfold cryden_ConfirmEmailChange, ConfirmEmailChange.
    destruct (e_verifications e) as [vs|]; [specialize (Hvs vs eq_refl)|]; trail_go; paid.
  - unfold cryden_Logout, Logout. trail_go; paid.
  - unfold cryden_LogoutAll, LogoutAll. trail_go; paid.
  - unfold cryden_RefreshToken. apply shares_bind.
    eapply (shares_silent _ (λ _, True)); [unfold Rotate; silent_go|]. intros [res [err|]] _.
    + trail_go; subst; try paid. destruct err; try done; paid.
    + apply shares_bind, shares_on_amb. intros a.
      destruct (Issue_total (e_jwtIssuer e) (Session_UserID (RefreshResult_Session res)) a)
        as (tok & a' & ->). cbn [fst]. trail_go; paid.
  - unfold cryden_VerifyToken. trail_go; paid.
  - unfold cryden_ListSessions, List. trail_go; paid.
  - unfold cryden_RevokeSession, Revoke. trail_go; paid.
Qed.

(** ** Pools of requests *)

(** What the finished requests of a pool call for. *)
Definition events_due (ps : list (Prog (World S) reply)) : nat :=
  sum_list ((λ p, match p with Ret a => due a | _ => 0%nat end) <$> ps).

Lemma pool_settled ps gs :
  Forall2 (λ p g, shares p g settled) ps gs →
  (events_due ps ≤ (total nothing join gs).2)%nat ∧
  (all_answered ps → ty ≠ EventAccountDeleted → ((total nothing join gs).1 ≤ events_due ps)%nat).
Proof.
  induction 1 as [|p g ps gs Hp _ [IH1 IH2]]; [done|].
  change (total nothing join (g :: gs)) with (join g (total nothing join gs)).
  change (events_due (p :: ps)) with
    (match p with Ret a => due a | _ => 0 end + events_due ps)%nat.
  unfold join at 1 3. cbn [fst snd]. split.
  - destruct p as [a|B m k]; [|lia]. destruct Hp as [? _]. lia.
  - intros [[a ->] Hps]%Forall_cons Hty. destruct Hp as [_ Hp].
    specialize (IH2 Hps Hty). specialize (Hp Hty). lia.
Qed.

(** C5: every answer is accounted for in the audit trail. Take any type of event but
    account_locked, and any address of a caller (none for the requests that have
    none). Whatever requests are served, over any storage and interleaved in any order:
    the events of that type and address that were recorded, and the failures to record
    one of that type that were logged as errors, are at all times at least as many as
    the answers that call for such an event: sign-ups, logins, exchanges of tokens,
    changes and endings that were answered with success, refused passwords and
    unknown addresses, detected reuses. Over a storage without faults the recorded
    events alone are. And no event is made up: once all requests are answered there
    are no more such events than answers that call for one, an account_deleted event
    excepted, which is recorded before the deletion and stays if that fails. The limiter
    and the generators, whose code is the caller's, are taken not to fail with the
    error [ErrInvalidCredentials] of the program itself ([own_errors]). *)
Theorem answers_accounted_for ps w :
  inv w0 → rtc (pool_step (λ p, ∃ r, p = respond e r)) ([], w0) (ps, w) →
  (recorded (vw w0) + failures w0 + events_due ps ≤ recorded (vw w) + failures w)%nat ∧
  (reliable = true → (recorded (vw w0) + events_due ps ≤ recorded (vw w))%nat) ∧
  (all_answered ps → ty ≠ EventAccountDeleted →
     (recorded (vw w) ≤ recorded (vw w0) + events_due ps)%nat).
Proof.
  intros Hi HS.
  assert (∀ p, (∃ r, p = respond e r) → shares p nothing settled) as Hall
    by (intros p [r ->]; apply shares_respond).
  assert (tallied w0 nothing) as Ht by (split; simpl; [done|lia..]).
  destruct (shares_pool tallied nothing join _ _ _ _ [] Hall HS) as (gs & Hps & [_ Hm Hl He]);
    [constructor|exact Ht|].
  destruct (pool_settled _ _ Hps) as [Hdue Hfin]. simpl in *.
  split_and!; [lia| |]; intros; 
    [specialize (He ltac:(done))|specialize (Hfin ltac:(done) ltac:(done))]; lia.
Qed.

End trail.

(** ** An instance *)

Section witness.
#[local] Existing Instances sample_env sample_bcrypt sample_jwt.
#[local] Existing Instances sample_bcrypt_laws sample_jwt_laws.

Lemma sample_own_errors : own_errors sample_engine.
Proof.
  split; [|done|].
  - intros k [l a]. cbn. by destruct (Allow_allow_at (mkInMemoryRateLimiter 10 Minute) k l a)
      as (now & a' & _ & _ & ->).
  - done.
Qed.

(** Alice signs up; then she logs in, refreshes her tokens twice with the same one, and
    two passwords are guessed, all at once. *)
Definition busy_hour : list (Prog (World MemHeap) reply) :=
  respond sample_engine <$> [ReqSignUp alice "hunter2" home; ReqLogin alice "hunter2" home "curl";
    ReqLogin alice "letmein" home "curl"; ReqLogin "bob@example.com" "secret" home "curl";
    ReqRefreshToken raw1; ReqRefreshToken raw1].
Definition busy_order : list nat :=
  replicate 12 0%nat ++ concat (replicate 16 [1; 2; 3]%nat) ++ replicate 16 4%nat ++ replicate 16 5%nat.
Definition busy_end := schedule busy_order busy_hour mem_world0.

Lemma busy_answered : all_answered busy_end.1.
Proof. apply all_answered_b. vm_compute. reflexivity. Qed.

Lemma answers_accounted_for_witness :
  events_due EventLoginFailed home busy_end.1 = 2%nat ∧
  recorded EventLoginFailed home (view (w_store busy_end.2)) = 2%nat.
Proof.
  assert (events_due EventLoginFailed home busy_end.1 = 2%nat) as Hdue by (vm_compute; reflexivity).
  split; [exact Hdue|].
  destruct (answers_accounted_for sample_engine EventLoginFailed home mem_world0 sample_own_errors
    ltac:(done) busy_end.1 busy_end.2) as (_ & Hleast & Hmost).
  - fixture_inv.
  - rewrite <- surjective_pairing. etrans; [|apply schedule_steps].
    refine (pool_enter_all _ busy_hour [] mem_world0 _).
    apply Forall_fmap, Forall_true. intros r. by exists r.
  - specialize (Hleast eq_refl). specialize (Hmost busy_answered ltac:(done)).
    rewrite Hdue in Hleast, Hmost. apply Nat.le_antisymm; [exact Hmost|exact Hleast].
Defined.

End witness.
