(* ===== verification/Lockout.v ===== *)
(** * The lockout while requests overlap

    An account under attack: any number of logins with wrong passwords, and
    whatever requests leave the account alone, interleaved in any order. Each login
    holds a share of the count (Footprint.v): the attempts that it has counted, and
    whether it still owes the lock. So no failed attempt is lost, over a storage
    without faults. What the code does not promise is shown by a schedule: the lock is
    checked on a record that was read before the attempts of others were counted, so
    requests that overlap can all be compared, and a right password among them can
    take a lock away. *)
From S2P Require Import Prelude Errors Runtime Store StoreSpec Logger RateLimiter World.
From S2P Require Import Memory MemoryContract Security Token Logic Auth Session Engine AuthLogic LoginLogic.
From S2P Require Import SessionSafety Interleaving Concurrency Footprint Hygiene ViewFootprint.
From S2P Require Import Sample Fixtures LoginTheorems.

(** ** Requests that leave an account alone *)

Section spares.
Context {S : Type} `{StoreModel S, !StoreLaws}.
Context (uid email : string).

Implicit Types (v : View).

(** The account [uid] has the address [email]. *)
Definition account v : Prop := ∃ u, v_users v !! uid = Some u ∧ User_Email u = email.

(** Its record stays as it is, and nobody else gets its address. *)
Record spares v v' : Prop := {
  sp_user : v_users v' !! uid = v_users v !! uid;
  sp_email k x : v_users v' !! k = Some x → User_Email x = email →
    ∃ y, v_users v !! k = Some y ∧ User_Email y = email;
}.

#[export] Instance spares_preorder : PreOrder spares.
Proof.
  split; [split; eauto|]. intros v1 v2 v3 [U1 E1] [U2 E2]. split; [by rewrite U2|].
  intros k x Hx He. destruct (E2 _ _ Hx He) as (y & ? & ?). eauto.
Qed.

Lemma spares_same v v' : v_users v' = v_users v → spares v v'.
Proof. intros Hu. split; rewrite Hu; eauto. Qed.

(** The record of another user changes. *)
Lemma spares_updated id F v v' :
  user_updated id F v v' → key id ≠ Some uid →
  (∀ u u', F u u' → User_Email u' = User_Email u) → spares v v'.
Proof.
  intros (k & u & u' & Hk & Hu & HF & ->) Hne HE. split; simpl.
  - by rewrite lookup_insert_ne by congruence.
  - intros i x. rewrite lookup_insert_Some. intros [[<- <-]|[_ Hx]] He; [|eauto].
    exists u. split; [done|]. by rewrite <- (HE _ _ HF).
Qed.

Lemma spares_deleted id v v' : user_deleted id v v' → key id ≠ Some uid → spares v v'.
Proof.
  intros (k & Hk & _ & ->) Hne. split; simpl.
  - destruct strict; simpl; by rewrite lookup_delete_ne by congruence.
  - intros i x [_ Hx]%lookup_delete_Some He. destruct strict; simpl in *; eauto.
Qed.

End spares.

(** ** Calls that spare the account *)

Section calls.
Context {S : Type} `{StoreModel S, !StoreLaws}.
Context (users : UserStore S) (sessions : SessionStore S) (audit : AuditStore S)
  (vs : VerificationStore S).
Context `{!UserContract users, !SessionContract sessions, !AuditContract audit,
  !VerificationContract vs}.
Context (uid email : string).

Notation sparing := (allows (account uid email) (spares uid email)).

Lemma sparing_mutates {A} (op : Op S (result A)) present E :
  sat op (mutates present E) →
  (∀ v x v', account uid email v → E v x v' → spares uid email v v') → sparing op (λ _, True).
Proof.
  intros Hop HE. eapply allows_mutates; [apply _|done|]. intros v x v' Ha Hx.
  pose proof (HE _ _ _ Ha Hx) as Hsp. split; [|done]. destruct Ha as (u & Hu & He). exists u.
  by rewrite (sp_user _ _ _ _ Hsp).
Qed.

Ltac same_users :=
  eapply sparing_mutates; [eauto with cryden|]; intros v [] v' _ HE; apply spares_same;
  repeat (hnf in HE; lazymatch type of HE with
    ∃ _, _ => destruct HE as [? HE] | _ ∧ _ => destruct HE as [_ HE] end);
  by rewrite HE.

Lemma sparing_session_create id family user hash ip agent :
  sparing (SessionStore_Create sessions (new_Session id family user hash ip agent)) (λ _, True).
Proof. same_users. Qed.

Lemma sparing_rotate old id family user hash ip agent :
  sparing (SessionStore_RotateToken sessions old (new_Session id family user hash ip agent))
    (λ _, True).
Proof. same_users. Qed.

Lemma sparing_revoke id : sparing (SessionStore_Revoke sessions id) (λ _, True).
Proof. same_users. Qed.

Lemma sparing_revoke_family f : sparing (SessionStore_RevokeFamily sessions f) (λ _, True).
Proof. same_users. Qed.

Lemma sparing_revoke_all u : sparing (SessionStore_RevokeAllForUser sessions u) (λ _, True).
Proof. same_users. Qed.

Lemma sparing_record ty user ip meta :
  sparing (AuditStore_Record audit (new_AuditEvent ty user ip meta)) (λ _, True).
Proof. same_users. Qed.

Lemma sparing_token_create id user purpose hash addr expires :
  sparing (VerificationStore_Create vs (new_VerificationToken id user purpose hash addr expires))
    (λ _, True).
Proof. same_users. Qed.

(** Calls about another user. *)
Lemma sparing_user_by_email addr :
  addr ≠ email →
  sparing (UserStore_GetByEmail users addr) (λ r, ∀ u, r = Ok u → key (User_ID u) ≠ Some uid).
Proof.
  intros Hne. eapply allows_query; [apply _|apply uc_get_by_email; apply _|].
  intros w u [Hi (u0 & Hu0 & He0)] [Hu He] Hk. destruct (canon_user _ _ _ Hi Hu) as [_ Hc].
  rewrite Hc in Hk. injection Hk as Hk. rewrite Hk in Hu. congruence.
Qed.

Lemma sparing_user_by_id id :
  key id ≠ Some uid →
  sparing (UserStore_GetByID users id) (λ r, ∀ u, r = Ok u → key (User_ID u) ≠ Some uid).
Proof.
  intros Hne. eapply allows_query; [apply _|apply uc_get_by_id; apply _|].
  intros w u [Hi _] [Hid Hu] Hk. destruct (canon_user _ _ _ Hi Hu) as [_ Hc]. congruence.
Qed.

Ltac other_user :=
  intros Hne; eapply sparing_mutates; [eauto with cryden|]; intros v x v' _ HE;
  eapply spares_updated; [exact HE|exact Hne|].

Lemma sparing_update_password id hash :
  key id ≠ Some uid → sparing (UserStore_UpdatePasswordHash users id hash) (λ _, True).
Proof. other_user. by intros u u' [t ->]. Qed.

Lemma sparing_increment id :
  key id ≠ Some uid → sparing (UserStore_IncrementFailedAttempts users id) (λ _, True).
Proof. other_user. by intros u u' [_ ->]. Qed.

Lemma sparing_reset id :
  key id ≠ Some uid → sparing (UserStore_ResetFailedAttempts users id) (λ _, True).
Proof. other_user. by intros u u' ->. Qed.

Lemma sparing_lock id t :
  key id ≠ Some uid → sparing (UserStore_LockAccount users id t) (λ _, True).
Proof. other_user. by intros u u' (? & _ & ->). Qed.

Lemma sparing_delete id : key id ≠ Some uid → sparing (UserStore_Delete users id) (λ _, True).
Proof.
  intros Hne. eapply sparing_mutates; [eauto with cryden|]. intros v [] v' _ HE.
  by eapply spares_deleted.
Qed.

End calls.

#[export] Hint Resolve sparing_session_create sparing_rotate sparing_revoke sparing_revoke_family
  sparing_revoke_all sparing_record sparing_token_create sparing_update_password
  sparing_increment sparing_reset sparing_lock sparing_delete : spare.
#[export] Hint Resolve sparing_user_by_email sparing_user_by_id | 0 : spare.
#[export] Hint Extern 3 (allows _ _ _ _) =>
  eapply allows_reads; [apply _|solve [eauto with cryden typeclass_instances]] : spare.

(** Walks through a program that spares the account. *)
Ltac spare_go := views_go with (eauto with spare typeclass_instances).

Section requests.
Context `{Env, Bcrypt, JWT} {S : Type} `{StoreModel S, !StoreLaws}.
Context (e : Engine S) `{!EngineLaws e}.
Context (uid email : string).

(** Requests that cannot touch the record of the account: logins under another address,
    changes of password and deletions of another user, requests for changes of address
    and requests about sessions. Sign-ups are looked at below. The confirmation of a
    change of address may give any account any address, so it is none of these. *)
Definition bystander (r : request) : Prop :=
  match r with
  | ReqLogin addr _ _ _ => addr ≠ email
  | ReqChangePassword id _ _ | ReqDeleteAccount id _ => key id ≠ Some uid
  | ReqSignUp _ _ _ | ReqConfirmEmailChange _ => False
  | _ => True
  end.

Lemma acts_bystander r :
  bystander r → acts (holding (account uid email)) (moving (spares uid email)) (serve e r) (λ _, True).
Proof.
  pose proof (el_verifications (e:=e)) as Hvs. pose proof (el_sender (e:=e)) as Hsnd.
  destruct r; cbn [serve bystander]; intros Hby; try done; apply acts_bind;
    apply (acts_mono _ _ _ (λ _, True)); try (intros; exact I).
  - unfold cryden_Login, Login, recordLoginFailure, is_locked, count_failure, open_session.
    spare_go.
  - unfold cryden_ChangePassword, ChangePassword. spare_go.
  - unfold cryden_DeleteAccount, DeleteAccount. spare_go.
  - unfold cryden_RequestEmailChange, RequestEmailChange.
    destruct (e_verifications e) as [vs|], (e_emailSender e) as [snd|];
      [specialize (Hvs vs eq_refl); specialize (Hsnd snd eq_refl)|..]; spare_go.
  - unfold cryden_Logout, Logout. spare_go.
  - unfold cryden_LogoutAll, LogoutAll. spare_go.
  - unfold cryden_RefreshToken, Rotate. spare_go.
  - unfold cryden_VerifyToken. spare_go.
  - unfold cryden_ListSessions, List. spare_go.
  - unfold cryden_RevokeSession, Revoke. spare_go.
Qed.

End requests.

(** ** An account under attack *)

Section attack.
Context `{Env, Bcrypt, JWT} {S : Type} `{StoreModel S, !StoreLaws}.
Context (e : Engine S) `{!EngineLaws e}.
Context (w0 : World S) (u0 : User).

Implicit Types (w : World S) (v : View).

Notation uid := (User_ID u0).
Notation email := (User_Email u0).
Notation threshold := (e_lockoutThreshold e).

(** The shares: failed attempts that are counted, and locks that are owed. *)
Notation share := (nat * nat)%type.

(** Locked, for the lockout duration from some time on since the beginning. *)
Definition locked_since (u : User) : Prop :=
  ∃ until, User_LockedUntil u = Some until ∧
    amb_time (w_amb w0) + e_lockoutDuration e - Microsecond ≤ until.

(** The record of the account, with the failed attempts and the locks owed. *)
Definition tallied (g : share) (u : User) : Prop :=
  User_Email u = email ∧ User_PasswordHash u = User_PasswordHash u0 ∧
  User_FailedAttempts u = int64 (User_FailedAttempts u0 + Z.of_nat g.1) ∧
  (threshold ≤ User_FailedAttempts u0 + Z.of_nat g.1 → (0 < g.2)%nat ∨ locked_since u).

Record tally_view v (g : share) : Prop := {
  tv_user : ∃ u, v_users v !! uid = Some u ∧ tallied g u;
  tv_alone k x : v_users v !! k = Some x → User_Email x = email → k = uid;
}.

Record tally w (g : share) : Prop := {
  ta_inv : inv w;
  ta_clock : amb_le (w_amb w0) (w_amb w);
  ta_view : tally_view (vw w) g;
}.

Notation shares := (shares tally join).

Lemma tally_known w g : tally w g → holding (account uid email) w.
Proof. intros [Hi _ [(u & Hu & He & _) _]]. split; [done|]. by exists u. Qed.

Lemma tally_view_spared v v' g : tally_view v g → spares uid email v v' → tally_view v' g.
Proof.
  intros [(u & Hu & Ht) Ha] [HU HE]. split; [exists u; by rewrite HU|].
  intros k x Hx He. destruct (HE _ _ Hx He) as (y & Hy & Hey). eauto.
Qed.

Lemma tally_spared w w' g :
  tally w g → holding (account uid email) w' → moving (spares uid email) w w' → tally w' g.
Proof.
  intros [Hi Hc Hv] [Hi' _] (Hsp & Hle & _). split; [done|by etrans|]. by eapply tally_view_spared.
Qed.

(** A part of a program that spares the account leaves the shares alone. *)
Lemma shares_spared {A} (p : Prog (World S) A) (P : A → Prop) g (Q : A → share → Prop) :
  acts (holding (account uid email)) (moving (spares uid email)) p P → (∀ a, P a → Q a g) → shares p g Q.
Proof.
  intros Hp HQ. eapply shares_mono.
  2:{ eapply acts_shares; [| |exact Hp]; [by apply tally_known|]. intros x x' n. apply tally_spared. }
  intros a g' [Ha ->]. auto.
Qed.

(** The time is later than the beginning. *)
Lemma shares_now g (Q : time → share → Prop) :
  (∀ now, amb_time (w_amb w0) ≤ now → Q now g) → shares (on_amb time_Now) g Q.
Proof.
  intros HQ. apply shares_act. intros w rest b w' [Hi Hc Hv].
  destruct (time_Now (w_amb w)) as [now a] eqn:E. intros [= <- <-].
  apply time_Now_elim in E as [-> Hle]. exists g. split.
  - split; [done|by etrans|done].
  - apply HQ. unfold amb_le in *. lia.
Qed.

Lemma shares_on_store {A} (op : Op S A) R g (Q : A → share → Prop) :
  sat op R →
  (∀ v rest r v', tally_view v (join g rest) → R v r v' →
     ∃ g', tally_view v' (join g' rest) ∧ Q r g') →
  shares (on_store op) g Q.
Proof.
  intros Hop HQ. apply shares_act. intros w rest b w' [Hi Hc Hv].
  destruct (op (w_store w, w_amb w)) as [r [s a]] eqn:E. intros [= <- <-].
  destruct (Hop _ _ _ _ _ Hi E) as (Hi' & Hle & Hr).
  destruct (HQ _ _ _ _ Hv Hr) as (g' & Hv' & ?). exists g'. split; [|done].
  split; [done|by etrans|done].
Qed.

Context (Hrel : reliable = true) (Hkey : key uid = Some uid).
Context (Hthreshold : 0 < threshold ≤ int64_max) (Hstart : 0 ≤ User_FailedAttempts u0).

Lemma int64_succ z : int64 (int64 z + 1) = int64 (z + 1).
Proof.
  unfold int64. replace ((z + 2 ^ 63) mod 2 ^ 64 - 2 ^ 63 + 1 + 2 ^ 63) with
    ((z + 2 ^ 63) mod 2 ^ 64 + 1) by lia.
  rewrite Zplus_mod_idemp_l. f_equal. f_equal. lia.
Qed.

(** The record of the account changes, and nothing else of the users. *)
Lemma tally_updated v g g' F v' :
  tally_view v g → user_updated uid F v v' →
  (∀ u u', tallied g u → F u u' → tallied g' u') → tally_view v' g'.
Proof.
  intros [(u & Hu & Ht) Ha] (k & u1 & u2 & Hk & Hu1 & HF & ->) HT. simplify_eq.
  pose proof (HT _ _ Ht HF) as Ht'. split; simpl.
  - exists u2. by rewrite lookup_insert_eq.
  - intros i x [[<- _]|[_ Hx]]%lookup_insert_Some He; [done|by eapply Ha].
Qed.

Lemma tally_present v g : tally_view v g → user_exists uid v.
Proof. intros [(u & Hu & _) _]. exists uid. split; [done|by eexists]. Qed.

Lemma reliable_mutates {A} present (E : View → A → View → Prop) v r v' :
  present v → mutates present E v r v' → ∃ x, r = Ok x ∧ E v x v'.
Proof.
  intros Hp Hm. destruct r as [x|err]; [by exists x|].
  destruct (mutates_fault _ _ _ _ _ Hp Hm) as [? _]. congruence.
Qed.

(** Counting an attempt: from the threshold on the lock is owed. *)
Lemma shares_increment (Q : result Z → share → Prop) :
  (∀ n, Q (Ok n) (1%nat, if bool_decide (threshold ≤ n) then 1%nat else 0%nat)) →
  shares (on_store (UserStore_IncrementFailedAttempts (e_users e) uid)) nothing Q.
Proof.
  intros HQ. eapply shares_on_store; [apply uc_increment; apply _|].
  intros v rest r v' Hv Hr.
  destruct (reliable_mutates _ _ _ _ _ (tally_present _ _ Hv) Hr) as (n & -> & HE).
  eexists. split; [|apply HQ]. eapply tally_updated; [done|exact HE|].
  intros u u' (He & Hp & Hf & Hl) [Hn ->]. rewrite Hf, int64_succ in Hn.
  unfold tallied, join in *. simpl in *. split_and!; [done..| |].
  - rewrite Hn. f_equal. lia.
  - intros Hle. destruct (decide (threshold ≤ User_FailedAttempts u0 + Z.of_nat rest.1)) as [Hold|Hnew].
    + destruct (Hl Hold) as [?|(until & ? & ?)]; [left; lia|right; by exists until].
    + left. rewrite Hn, int64_small by (unfold int64_min in *; lia).
      rewrite bool_decide_true by lia. lia.
Qed.

(** Paying the lock. *)
Lemma shares_lock now (Q : result () → share → Prop) :
  amb_time (w_amb w0) ≤ now → Q (Ok ()) (1, 0)%nat →
  shares (on_store (UserStore_LockAccount (e_users e) uid
    (time_Add now (e_lockoutDuration e)))) (1, 1)%nat Q.
Proof.
  intros Hnow HQ. eapply shares_on_store; [apply uc_lock; apply _|].
  intros v rest r v' Hv Hr.
  destruct (reliable_mutates _ _ _ _ _ (tally_present _ _ Hv) Hr) as ([] & -> & HE).
  eexists. split; [|apply HQ]. eapply tally_updated; [done|exact HE|].
  intros u u' (He & Hp & Hf & Hl) (t & Ht & ->). split_and!; [done..|]. intros _. right.
  exists t. split; [done|]. unfold close, time_Add in Ht. lia.
Qed.

(** Reading the account. *)
Lemma shares_read_account (Q : result User → share → Prop) :
  (∀ u, User_ID u = uid → User_PasswordHash u = User_PasswordHash u0 → Q (Ok u) nothing) →
  shares (on_store (UserStore_GetByEmail (e_users e) email)) nothing Q.
Proof.
  intros HQ. eapply shares_on_store; [apply uc_get_by_email; apply _|].
  intros v rest r v' Hv [-> Hr]. exists nothing. split; [done|].
  destruct Hv as [(u & Hu & He & Hp & _) Ha]. destruct r as [x|err].
  - destruct Hr as [Hx Hxe]. pose proof (Ha _ _ Hx Hxe) as Hid. rewrite Hid in Hx.
    simplify_eq. by apply HQ.
  - destruct Hr as (_ & Hno & Herr). by destruct (Hno (Herr Hrel) _ _ Hu).
Qed.

(** *** Logins with wrong passwords *)

(** The answers: of a login, or of another request. *)
Notation answer := (option (result Tokens)).

Definition guess (password callerIP userAgent : string) : Prog (World S) answer :=
  r ← cryden_Login e email password callerIP userAgent;
  mret (Some r).

Definition other (r : request) : Prog (World S) answer := serve e r;; mret None.

(** The answer to a wrong password. *)
Definition refused (a : answer) : nat :=
  match a with Some (Err ErrInvalidCredentials) => 1 | _ => 0 end.

Definition paid (a : answer) (g : share) : Prop := g = (refused a, 0%nat).

(** The limiter has errors of its own. *)
Definition limiter_errors : Prop :=
  ∀ k x, (RateLimiter_Allow (e_rateLimiter e) k x).1 ≠ Err ErrInvalidCredentials.

Lemma shares_count_failure u callerIP (Q : () → share → Prop) :
  User_ID u = uid → Q () (1, 0)%nat →
  shares (count_failure (e_users e) (e_audit e) (e_log e) u callerIP threshold
    (e_lockoutDuration e)) nothing Q.
Proof.
  intros Hu HQ. unfold count_failure. rewrite Hu. apply shares_bind, shares_increment.
  intros n. cbn beta iota. case_bool_decide; [|by apply shares_ret].
  apply shares_bind, shares_now. intros now Hnow. cbn beta zeta.
  apply shares_bind, shares_lock; [done|]. cbn beta iota.
  eapply (shares_spared _ (λ _, True)); [spare_go|by intros []].
Qed.

Lemma shares_guess password callerIP userAgent err :
  limiter_errors → Hasher_Compare (e_hasher e) (User_PasswordHash u0) password = Err err →
  shares (guess password callerIP userAgent) nothing paid.
Proof.
  intros Hlim Hwrong. unfold guess. apply shares_bind. unfold cryden_Login, Login.
  apply shares_bind. eapply (shares_spared _ (λ r, r ≠ Err ErrInvalidCredentials)).
  { apply views_outside; [apply _|]. intros w b w'. destruct (RateLimiter_Allow _ _ _) as [r [l a]] eqn:E.
    intros [= <- <-]. split_and!; [done|exact (limiter_amb _ _ _ _ _ _ E)|done|].
    pose proof (Hlim ("login:" +:+ callerIP +:+ ":" +:+ email) (w_limiter w, w_amb w)) as Hne.
    by rewrite E in Hne. }
  intros [[]|lerr] Hne.
  - apply shares_bind, shares_read_account. intros u Hu Hp. cbn beta iota.
    apply shares_bind. eapply (shares_spared _ (λ _, True)).
    { unfold is_locked. spare_go. }
    intros [] _.
    + apply shares_bind. eapply (shares_spared _ (λ _, True)); [spare_go|].
      intros ? _. by apply shares_ret, shares_ret.
    + rewrite Hp, Hwrong. apply shares_bind.
      eapply (shares_spared _ (λ _, True)); [unfold recordLoginFailure; spare_go|]. intros ? _.
      apply shares_bind, shares_count_failure; [done|]. by apply shares_ret, shares_ret.
  - apply shares_bind. eapply (shares_spared _ (λ _, True)); [spare_go|].
    intros ? _. by apply shares_ret, shares_ret.
  - apply shares_bind. eapply (shares_spared _ (λ _, True)); [spare_go|].
    intros ? _. apply shares_ret, shares_ret. unfold paid, refused. by destruct lerr.
Qed.

(** *** Sign-ups under other addresses *)

(** The ID of the account is not generated again. *)
Definition fresh_ids : Prop := ∀ a id a',
  amb_le (w_amb w0) a → IDGenerator_New (e_ids e) a = (Ok id, a') → key id ≠ Some uid.

Lemma shares_new_id g (Q : result string → share → Prop) :
  fresh_ids → (∀ r, (∀ id, r = Ok id → key id ≠ Some uid) → Q r g) →
  shares (on_amb (IDGenerator_New (e_ids e))) g Q.
Proof.
  intros Hfresh HQ. apply shares_act. intros w rest r w' [Hi Hc Hv].
  destruct (IDGenerator_New _ (w_amb w)) as [r' a] eqn:E. intros [= <- <-]. exists g. split.
  - split; [done| |done]. etrans; [exact Hc|]. exact (idgen_amb _ _ _ E).
  - apply HQ. intros id ->. by eapply Hfresh.
Qed.

Lemma shares_user_created id addr hash g (Q : result () → share → Prop) :
  key id ≠ Some uid → addr ≠ email → (∀ r, Q r g) →
  shares (on_store (UserStore_Create (e_users e) (new_User id addr hash))) g Q.
Proof.
  intros Hid Haddr HQ. eapply shares_on_store; [apply uc_create; apply _|].
  intros v rest r v' [(u & Hu & Ht) Ha] Hr. exists g. split; [|apply HQ].
  assert (v' = v ∨ user_created id addr hash v v') as [->|(k & t & t' & Hk & _ & ->)].
  { destruct r as [[]|err]; [by right|]. destruct Hr as ([?|[[] ?]] & _); auto. }
  { split; [by exists u|done]. }
  split; simpl.
  - exists u. by rewrite lookup_insert_ne by congruence.
  - intros i x [[_ <-]|[_ Hx]]%lookup_insert_Some He; [done|by eapply Ha].
Qed.

Lemma shares_sign_up addr password callerIP :
  fresh_ids → addr ≠ email → shares (other (ReqSignUp addr password callerIP)) nothing paid.
Proof.
  intros Hfresh Haddr. unfold other. cbn [serve]. apply shares_bind, shares_bind.
  unfold cryden_SignUp, SignUp. apply shares_bind.
  eapply (shares_spared _ (λ _, True)); [spare_go|]. intros [[]|?] _.
  2, 3: apply shares_bind; eapply (shares_spared _ (λ _, True)); [spare_go|];
    intros ? _; by repeat apply shares_ret.
  apply shares_bind. eapply (shares_spared _ (λ _, True)); [spare_go|]. intros [?|?] _.
  { apply shares_bind; eapply (shares_spared _ (λ _, True)); [spare_go|].
    intros ? _; by repeat apply shares_ret. }
  apply shares_bind. eapply (shares_spared _ (λ _, True)); [spare_go|].
  intros [hash|?] _; [|by repeat apply shares_ret].
  apply shares_bind, shares_new_id; [done|]. intros [id|?] Hid; [|by repeat apply shares_ret].
  apply shares_bind, shares_user_created; [by apply Hid|done|]. intros [?|?]; [|by repeat apply shares_ret].
  eapply (shares_spared _ (λ _, True)); [spare_go|]. intros ? _. by repeat apply shares_ret.
Qed.

(** What may be served during the attack: logins with wrong passwords, bystanders, and
    sign-ups under other addresses. *)
Definition attacked (p : Prog (World S) answer) : Prop :=
  (∃ password callerIP userAgent err, p = guess password callerIP userAgent ∧
     Hasher_Compare (e_hasher e) (User_PasswordHash u0) password = Err err) ∨
  ∃ r, p = other r ∧ (bystander uid email r ∨
    ∃ addr password callerIP, r = ReqSignUp addr password callerIP ∧ addr ≠ email).

Lemma shares_attacked p : limiter_errors → fresh_ids → attacked p → shares p nothing paid.
Proof.
  intros Hlim Hfresh [(password & ip & agent & err & -> & Hw)|
    (r & -> & [Hr|(addr & password & ip & -> & Ha)])];
    [by eapply shares_guess| |by apply shares_sign_up].
  unfold other. apply shares_bind. eapply (shares_spared _ (λ _, True)); [by apply acts_bystander|].
  intros ? _. by apply shares_ret.
Qed.

(** The failed attempts that have been answered. *)
Definition refusal (p : Prog (World S) answer) : nat :=
  match p with Ret a => refused a | _ => 0 end.

Definition refusals (ps : list (Prog (World S) answer)) : nat := sum_list (refusal <$> ps).

Lemma refusals_counted ps gs :
  Forall2 (λ p g, shares p g paid) ps gs →
  (refusals ps ≤ (total nothing join gs).1)%nat ∧
  (all_answered ps → total nothing join gs = (refusals ps, 0%nat)).
Proof.
  unfold refusals, total. induction 1 as [|p g ps gs Hp _ [IH1 IH2]]; [done|].
  rewrite fmap_cons. cbn [sum_list foldr]. split.
  - destruct p as [a|B m k]; unfold shares, paid in Hp; simpl in Hp; [subst g|];
      cbn [refusal join fst id]; lia.
  - intros [[a ->] Hps]%Forall_cons. rewrite (IH2 Hps). unfold shares, paid in Hp. simpl in Hp.
    by subst g.
Qed.

(** C12: over a storage without faults (the in-memory stores; not Postgres, where a
    failure to count an attempt is only logged, auth/login.go:65) no failed attempt is
    lost. Let an account that alone has its address receive any number of logins with
    wrong passwords, from whatever addresses and at whatever moments, interleaved in
    any order with one another and with logins and sign-ups under other addresses,
    changes of password and deletions of other users, requests for changes of address,
    exchanges of tokens and requests about sessions, but not with anything else that
    names the account, nor with the confirmation of a change of address. Then the
    counter of the account has gone up by at least the number of those logins that
    were answered with ErrInvalidCredentials, and by exactly that number once all
    requests are answered; and then, if the counter has reached the threshold, the
    account is locked for the lockout duration, whichever of the attempts reached it
    and in whatever order the counting and the locking of the others happened. The
    limiter has errors of its own, and new users get new IDs. *)
Theorem no_attempt_lost ps w :
  limiter_errors → fresh_ids → tally w0 nothing → rtc (pool_step attacked) ([], w0) (ps, w) →
  ∃ u n, v_users (vw w) !! uid = Some u ∧ User_PasswordHash u = User_PasswordHash u0 ∧
    User_FailedAttempts u = int64 (User_FailedAttempts u0 + Z.of_nat n) ∧
    (refusals ps ≤ n)%nat ∧
    (all_answered ps → n = refusals ps ∧
       (threshold ≤ User_FailedAttempts u0 + Z.of_nat n → locked_since u)).
Proof.
  intros Hlim Hfresh Hw0 HS.
  destruct (shares_pool tally nothing join attacked paid _ _ []
    (λ p, shares_attacked p Hlim Hfresh) HS) as (gs & Hps & [_ _ [(u & Hu & _ & Hp & Hf & Hl) _]]);
    [constructor|done|]. simpl in *.
  destruct (refusals_counted _ _ Hps) as [Hle Hall].
  exists u, (total nothing join gs).1. split_and!; [done..|].
  intros Hans. rewrite (Hall Hans) in *. split; [done|]. intros Hle'.
  destruct (Hl Hle') as [Hbad|?]; [simpl in Hbad; lia|done].
Qed.

(** An account that has not been attacked. *)
Lemma tally_start :
  inv w0 → the_user email u0 (vw w0) → User_FailedAttempts u0 < threshold → tally w0 nothing.
Proof.
  intros Hi [[Hu He] Ha] Hlt. split; [done|done|]. split.
  - exists u0. split; [done|]. split_and!; [done..| |].
    + rewrite Z.add_0_r, int64_small; [done|]. unfold int64_min in *. lia.
    + simpl. lia.
  - intros k x Hx Hxe. destruct (canon_user _ _ _ Hi Hx) as [Hid _]. rewrite <- Hid in Hx.
    rewrite <- Hid. f_equal. apply Ha. by split.
Qed.

End attack.

(** ** A race, and instances *)

Section race.
#[local] Existing Instances sample_env sample_bcrypt sample_jwt.
#[local] Existing Instances sample_bcrypt_laws sample_jwt_laws.

Notation logins_at_once := (list (Prog (World MemHeap) (result Tokens))).

(** Seven guesses and the right password, of a threshold of five: every request reads
    the account, then the guesses go on, then the right password. *)
Definition burst : logins_at_once :=
  ((λ pw, cryden_Login sample_engine alice pw home "curl") <$> ["a"; "b"; "c"; "d"; "e"; "f"; "g"])
  ++ [cryden_Login sample_engine alice "hunter2" home "curl"].

Definition burst_read : logins_at_once * World MemHeap :=
  schedule (concat (replicate 2 (seq 0 8))) burst w_signed.
Definition burst_counted : logins_at_once * World MemHeap :=
  schedule (concat ((λ i, replicate 12 i) <$> seq 0 7)) burst_read.1 burst_read.2.
Definition burst_won : logins_at_once * World MemHeap :=
  schedule (replicate 8 7%nat) burst_counted.1 burst_counted.2.

Definition alice_in (w : World MemHeap) : option User := mem_users (w_store w) !! alice_id.

(** C19: the lock can be outrun by requests that overlap, since Login checks it on the
    record that it read first and not again. There is a schedule of eight logins over
    the in-memory stores, all of which read the account before the first of them is
    counted, in which all eight passwords are compared although the threshold is five;
    and the right one, compared when the account has been locked, gets tokens long
    before the lock is over, and takes the lock and the count away. *)
Theorem lockout_race :
  ∃ toks u until,
    alice_in burst_counted.2 = Some u ∧ User_FailedAttempts u = 7 ∧
    e_lockoutThreshold sample_engine = 5 ∧ User_LockedUntil u = Some until ∧
    burst_won.1 = replicate 7 (Ret (Err ErrInvalidCredentials)) ++ [Ret (Ok toks)] ∧
    amb_time (w_amb burst_won.2) < until ∧
    option_map User_LockedUntil (alice_in burst_won.2) = Some None ∧
    option_map User_FailedAttempts (alice_in burst_won.2) = Some 0.
Proof.
  eexists _, _, _. split_and!.
  1: vm_compute; reflexivity.
  1, 2: reflexivity.
  1: vm_compute; reflexivity.
  1: vm_compute; reflexivity.
  all: by vm_compute.
Qed.

(** Six wrong passwords at once, a request about sessions and a sign-up. *)
Definition siege : list (Prog (World MemHeap) (option (result Tokens))) :=
  ((λ pw, guess sample_engine alice_user pw home "curl") <$> ["a"; "b"; "c"; "d"; "e"; "f"])
  ++ [other sample_engine (ReqListSessions alice_id);
      other sample_engine (ReqSignUp "bob@example.com" "secret" home)].

Definition besieged := schedule (concat (replicate 14 (seq 0 8))) siege w_signed.

Lemma siege_attacks : Forall (attacked sample_engine alice_user) siege.
Proof.
  apply Forall_app. split.
  - apply Forall_fmap. repeat apply Forall_cons_2; [..|by apply Forall_nil_2].
    all: left; by eexists _, _, _, _.
  - apply Forall_cons_2; [|apply Forall_singleton]; right; eexists; (split; [done|]).
    + by left.
    + right. by eexists _, _, _.
Qed.

(** The environment numbers the IDs by the events, and the sign-up of Alice is over. *)
Lemma siege_ids : fresh_ids sample_engine w_signed alice_user.
Proof.
  intros a id a' [Hle _] E Hk. injection E as <- _. injection Hk as Hk.
  change (pretty.pretty (amb_step a) = pretty.pretty 3%nat) in Hk. apply (inj pretty.pretty) in Hk.
  change (amb_step (w_amb w_signed)) with 7%nat in Hle. lia.
Qed.

Lemma no_attempt_lost_witness : ∃ u until,
  alice_in besieged.2 = Some u ∧ User_FailedAttempts u = 6 ∧ User_LockedUntil u = Some until.
Proof.
  destruct (no_attempt_lost (S:=MemHeap) sample_engine w_signed alice_user ltac:(done) ltac:(done)
    ltac:(done) ltac:(done) besieged.1 besieged.2) as (u & n & Hu & _ & Hf & _ & Hall).
  - intros k [l a]. cbn. by destruct (Allow_allow_at (mkInMemoryRateLimiter 10 Minute) k l a)
      as (now & a' & _ & _ & ->).
  - exact siege_ids.
  - apply tally_start; first [done|exact signed_alice|fixture_inv].
  - rewrite <- surjective_pairing. etrans; [|apply schedule_steps].
    refine (pool_enter_all _ siege [] _ siege_attacks).
  - destruct Hall as [-> Hlock]; [by apply all_answered_b; vm_compute|].
    destruct Hlock as (until & Hl & _); [by vm_compute|].
    exists u, until. split; [exact Hu|]. split; [rewrite Hf; by vm_compute|exact Hl].
Defined.

End race.
