(* ===== verification/Races.v ===== *)
(** * Requests that overlap

    ChangePassword and DeleteAccount end the sessions of a user "if the old password
    leaked, any session an attacker already opened must die too" (auth/password.go).
    They end the sessions that are there. A login that read the account before can
    open its session after: over the Postgres stores too when the password changes,
    over the in-memory stores only when the account is deleted. Two more schedules,
    of confirmations of one verification token and of sign-ups, follow. *)
From S2P Require Import Prelude Errors Runtime Store StoreSpec Logger RateLimiter World.
From S2P Require Import Memory MemoryContract Postgres PostgresContract Security Token Auth Engine.
From S2P Require Import Logic LoginLogic Interleaving Sample Fixtures PgFixtures.

Section races.
#[local] Existing Instances sample_env sample_bcrypt sample_jwt sample_pg.

(** What a request to change the account answers, beside the tokens of logins. *)
Notation answer := (result Tokens + result ())%type.

Definition login_answer {S} (p : Prog (World S) (result Tokens)) : Prog (World S) answer :=
  r ← p; mret (inl r).
Definition change_answer {S} (p : Prog (World S) (result ())) : Prog (World S) answer :=
  r ← p; mret (inr r).

(** The login reads the account, the change is made, the login goes on. *)
Definition around {S} (login change : Prog (World S) answer) (w : World S) :
    list (Prog (World S) answer) * World S :=
  schedule ([0; 0] ++ replicate 12 1 ++ replicate 12 0)%nat [login; change] w.

Definition password_race : list (Prog (World PgHeap) answer) * World PgHeap :=
  around (login_answer (cryden_Login pg_engine alice "hunter2" home "curl"))
    (change_answer (cryden_ChangePassword pg_engine alice_id "hunter2" "correct horse")) pg_login.

Definition deletion_race : list (Prog (World MemHeap) answer) * World MemHeap :=
  around (login_answer (cryden_Login sample_engine alice "hunter2" home "curl"))
    (change_answer (cryden_DeleteAccount sample_engine alice_id "hunter2")) w_signed.

(** C30: a login can outlive what should end it, when it has read the account before
    and compares the old password after. There is a schedule, over the Postgres stores,
    in which the password is changed in between, both requests are answered without an
    error and the old password is refused from then on, but the session of the login is
    live and its refresh token is exchanged for new tokens. And there is one, over the
    in-memory stores only (the foreign key of the Postgres tables refuses a session of a
    user that is gone), in which the account is deleted in between, both requests are
    answered without an error and there is no user left, but the refresh token of the
    login is exchanged for new tokens. *)
Theorem login_outlives_change :
  (∃ t t', password_race.1 = [Ret (inl (Ok t)); Ret (inr (Ok ()))] ∧
     (run (cryden_Login pg_engine alice "hunter2" home "curl") password_race.2).1 =
       Err ErrInvalidCredentials ∧
     (run (cryden_RefreshToken pg_engine (Tokens_RefreshToken t)) password_race.2).1 = Ok t') ∧
  ∃ t t', deletion_race.1 = [Ret (inl (Ok t)); Ret (inr (Ok ()))] ∧
    mem_users (w_store deletion_race.2) = ∅ ∧
    (run (cryden_RefreshToken sample_engine (Tokens_RefreshToken t)) deletion_race.2).1 = Ok t'.
Proof.
  split; eexists _, _; (split; [vm_compute; reflexivity|]); split; vm_compute; reflexivity.
Qed.

(** *** A verification token that takes effect twice *)

(** Alice asks for a change of address, then for another one. *)
Definition asked : World PgHeap :=
  (run (cryden_RequestEmailChange pg_engine alice_id "alice@one.com";;
        cryden_RequestEmailChange pg_engine alice_id "alice@two.com") pg_signed).2.
Definition mailed_to (email : string) : string :=
  default EmptyString (snd <$> head (filter (λ m, m.1 = email) (w_mail asked))).

(** The first link is followed twice at once; when it has taken effect the second is
    followed; then the other confirmation of the first goes on. *)
Definition confirmations : list (Prog (World PgHeap) (result ())) * World PgHeap :=
  schedule ([0; 0] ++ replicate 8 1 ++ replicate 8 2 ++ replicate 8 0)%nat
    (cryden_ConfirmEmailChange pg_engine ∘ mailed_to <$>
       ["alice@one.com"; "alice@one.com"; "alice@two.com"]) asked.

Definition address_of (uid : string) (w : World PgHeap) : option string :=
  User_Email <$> v_users (vw w) !! uid.

(** The token was used, and the address changed again since: it is changed back, and the
    confirmation is answered without an error, as the token is marked after the change and
    a token that cannot be marked is only logged. One after the other the second use of
    the token is refused. *)
Lemma token_takes_effect_twice :
  confirmations.1 = [Ret (Ok ()); Ret (Ok ()); Ret (Ok ())] ∧
  address_of alice_id confirmations.2 = Some "alice@one.com" ∧
  (run (_ ← cryden_ConfirmEmailChange pg_engine (mailed_to "alice@one.com");
        _ ← cryden_ConfirmEmailChange pg_engine (mailed_to "alice@two.com");
        cryden_ConfirmEmailChange pg_engine (mailed_to "alice@one.com")) asked).1 =
    Err ErrVerificationTokenInvalid.
Proof. split; [|split]; vm_compute; reflexivity. Qed.

(** *** Two accounts with one address *)

(** Two sign-ups look for the address before either has created its user. *)
Definition signups {S} (e : Engine S) (w : World S) :
    list (Prog (World S) (result User)) * World S :=
  schedule (replicate 4 0 ++ replicate 12 1 ++ replicate 12 0)%nat
    [cryden_SignUp e alice "hunter2" home; cryden_SignUp e alice "secret" home] w.

Definition accounts_with {S} `{StoreModel S} (email : string) (w : World S) : nat :=
  length (filter (λ u, User_Email u = email) (snd <$> map_to_list (v_users (vw w)))).

(** The unique index of the schema refuses one of them; the in-memory store has none. *)
Lemma signups_share_address :
  accounts_with alice (signups sample_engine mem_world0).2 = 2%nat ∧
  accounts_with alice (signups pg_engine pg_world0).2 = 1%nat.
Proof. split; vm_compute; reflexivity. Qed.

End races.
