(* ===== verification/Termination.v ===== *)
(** * Every request ends, and soon

    [within p K n]: [p] makes at most [n] actions whatever they answer; [K] holds
    of its result and of the actions left over. Handlers have no loops of their
    own, so each request has a bound that depends on nothing but its kind; a pool
    of requests comes to rest within the sum of the bounds, in any order. *)
From S2P Require Import Prelude Errors Runtime Store Logger RateLimiter World.
From S2P Require Import Memory Security Token Logic Auth Session Engine Sample LoginLogic Fixtures SessionSafety.
From S2P Require Import Interleaving.

(** ** Bounded programs *)

Section within.
Context {X : Type}.

Fixpoint within {A} (p : Prog X A) (K : A → nat → Prop) (n : nat) : Prop :=
  match p with
  | Ret a => K a n
  | Do m k => match n with O => False | S n => ∀ b, within (k b) K n end
  end.

#[global] Arguments within : simpl never.

Lemma within_ret {A} (a : A) (K : A → nat → Prop) n : K a n → within (mret a) K n.
Proof. done. Qed.

Lemma within_bind {A B} (f : A → Prog X B) p (K : B → nat → Prop) n :
  within p (λ a, within (f a) K) n → within (p ≫= f) K n.
Proof.
  unfold mbind, Prog_bind. revert n. induction p as [a|C m k IH]; intros n; [done|].
  destruct n as [|n]; [done|]. intros Hk b. apply IH, Hk.
Qed.

Lemma within_act {A} (m : St X A) (K : A → nat → Prop) n :
  (∀ a, K a n) → within (act m) K (S n).
Proof. intros HK b. apply HK. Qed.

Definition any_result {A} : A → nat → Prop := λ _ _, True.

Lemma within_mono {A} (p : Prog X A) n n' :
  (n ≤ n')%nat → within p any_result n → within p any_result n'.
Proof.
  revert n n'. induction p as [a|C m k IH]; intros n n' Hle Hp; [done|].
  destruct n as [|n]; [done|]. destruct n' as [|n']; [lia|].
  intros b. apply (IH b n); [lia|apply Hp].
Qed.

Definition finished {A} (p : Prog X A) : Prop := ∃ a, p = Ret a.

(** A pool whose programs have actions left. *)
Definition pool_within {A} (ps : list (Prog X A)) (ns : list nat) : Prop :=
  Forall2 (λ p n, within p any_result n) ps ns.

Notation nobody := (λ _, False).

Lemma sum_list_insert (ns : list nat) i n :
  ns !! i = Some (S n) → sum_list ns = S (sum_list (<[i := n]> ns)).
Proof.
  revert i. induction ns as [|k ns IH]; intros [|i]; simpl; try done.
  - by intros [= ->].
  - intros Hi. rewrite (IH i Hi). lia.
Qed.

Lemma pool_within_step {A} (ps : list (Prog X A)) x c ns :
  pool_within ps ns → pool_step nobody (ps, x) c →
  ∃ ns', pool_within c.1 ns' ∧ sum_list ns = S (sum_list ns').
Proof.
  intros Hps HS. inversion HS as [ps' i B m k y b x' Hi E|]; subst; [|done]. simpl.
  destruct (Forall2_lookup_l _ _ _ _ _ Hps Hi) as ([|n] & Hn & Hw); [done|].
  exists (<[i := n]> ns). split; [|by apply sum_list_insert].
  apply Forall2_insert; [done|apply Hw].
Qed.

Lemma pool_within_steps {A} n (c c' : list (Prog X A) * X) ns :
  nsteps (pool_step nobody) n c c' → pool_within c.1 ns →
  ∃ ns', pool_within c'.1 ns' ∧ sum_list ns = (n + sum_list ns')%nat.
Proof.
  intros HS. revert ns. induction HS as [c|n [ps x] c1 c2 Hst _ IH]; intros ns Hps; [by exists ns|].
  destruct (pool_within_step _ _ _ _ Hps Hst) as (ns1 & H1 & ->).
  destruct (IH ns1 H1) as (ns2 & ? & ->). exists ns2. split; [done|lia].
Qed.

Lemma pool_progress {A} (ps : list (Prog X A)) x :
  Forall finished ps ∨ ∃ c, pool_step nobody (ps, x) c.
Proof.
  assert (Forall finished ps ∨ ∃ i B (m : St X B) k, ps !! i = Some (Do m k))
    as [?|(i & B & m & k & Hi)]; [|by left|].
  { induction ps as [|[a|C m' k'] ps [IH|(i & B & m & k & Hi)]]; [by left|..].
    - left. by constructor; [exists a|].
    - right. by exists (S i), B, m, k.
    - right. by exists O, C, m', k'.
    - right. by exists O, C, m', k'. }
  right. destruct (m x) as [b x'] eqn:E. eexists. by eapply pool_act.
Qed.

Lemma pool_finishes {A} (ps : list (Prog X A)) x ns :
  pool_within ps ns →
  ∃ n c, nsteps (pool_step nobody) n (ps, x) c ∧ Forall finished c.1.
Proof.
  remember (sum_list ns) as n eqn:En. revert ps x ns En.
  induction (lt_wf n) as [n _ IH]; intros ps x ns -> Hps.
  destruct (pool_progress ps x) as [Hd|[[ps1 x1] Hst]]; [by exists O, (ps, x); split; [constructor|]|].
  destruct (pool_within_step _ _ _ _ Hps Hst) as (ns1 & H1 & Heq).
  destruct (IH (sum_list ns1) ltac:(lia) ps1 x1 ns1 eq_refl H1) as (m & c & ? & ?).
  exists (S m), c. split; [by econstructor|done].
Qed.

End within.

(** ** Requests *)

Ltac within_go :=
  repeat lazymatch goal with
  | |- within (mret _) _ _ => apply within_ret
  | |- within (Ret _) _ _ => apply within_ret
  | |- within (_ ≫= _) _ _ => apply within_bind
  | |- within (mbind _ _) _ _ => apply within_bind
  | |- within (on_store _) _ _ => apply within_act; intros ?
  | |- within (on_amb _) _ _ => apply within_act; intros ?
  | |- within (on_limiter _) _ _ => apply within_act; intros ?
  | |- within (send_mail _ _ _) _ _ => apply within_act; intros ?
  | |- within (log_Info _ _ _) _ _ => apply within_act; intros ?
  | |- within (log_Warn _ _ _) _ _ => apply within_act; intros ?
  | |- within (log_Error _ _ _) _ _ => apply within_act; intros ?
  | |- within (record_or_log _ _ _ _ _) _ _ => unfold record_or_log
  | |- within (match ?x with _ => _ end) _ _ => destruct x
  | |- any_result _ _ => exact I
  | |- _ => progress cbv beta
  end.

(** The actions of a request at most. *)
Definition actions (r : request) : nat :=
  match r with
  | ReqSignUp _ _ _ => 8
  | ReqLogin _ _ _ _ => 12
  | ReqChangePassword _ _ _ => 8
  | ReqDeleteAccount _ _ => 7
  | ReqRequestEmailChange _ _ => 9
  | ReqConfirmEmailChange _ => 8
  | ReqLogout _ _ => 5
  | ReqLogoutAll _ => 4
  | ReqRefreshToken _ => 7
  | ReqVerifyToken _ => 1
  | ReqListSessions _ => 1
  | ReqRevokeSession _ _ => 5
  end.

Section requests.
Context `{Env, Bcrypt, JWT} {S : Type}.
Context (e : Engine S).

Lemma within_serve r : within (serve e r) any_result (actions r).
Proof.
  destruct r; cbn [serve actions]; apply within_bind.
  - unfold cryden_SignUp, SignUp. within_go.
  - unfold cryden_Login, Login, recordLoginFailure, is_locked, count_failure, open_session.
    within_go.
  - unfold cryden_ChangePassword, ChangePassword. within_go.
  - unfold cryden_DeleteAccount, DeleteAccount. within_go.
  - unfold cryden_RequestEmailChange, RequestEmailChange.
    destruct (e_verifications e), (e_emailSender e); within_go.
  - unfold cryden_ConfirmEmailChange, ConfirmEmailChange.
    destruct (e_verifications e); within_go.
  - unfold cryden_Logout, Logout. within_go.
  - unfold cryden_LogoutAll, LogoutAll. within_go.
  - unfold cryden_RefreshToken, Rotate. within_go.
  - unfold cryden_VerifyToken. within_go.
  - unfold cryden_ListSessions, List. within_go.
  - unfold cryden_RevokeSession, Revoke. within_go.
Qed.

Lemma pool_within_requests rs : pool_within (serve e <$> rs) (actions <$> rs).
Proof. induction rs as [|r rs IH]; constructor; [apply within_serve|done]. Qed.

(** Every request ends. A handler of the model is a finite tree of actions, as the
    handlers of the code have no loops; what is counted here is how deep. However the actions of any number of requests
    interleave, and whatever the stores, the generators and the sender answer, the
    requests together make no more actions than the sum of their bounds (twelve for
    the longest, a login that locks the account), and whatever has been done so far
    can be completed to a state in which every request has its result: none waits
    for another. *)
Theorem requests_terminate rs w n c :
  nsteps (pool_step (λ _, False)) n (serve e <$> rs, w) c →
  (n ≤ sum_list (actions <$> rs))%nat ∧
  ∃ m c', nsteps (pool_step (λ _, False)) m c c' ∧
    (n + m ≤ sum_list (actions <$> rs))%nat ∧ Forall finished c'.1.
Proof.
  intros HS. destruct (pool_within_steps n _ _ _ HS (pool_within_requests rs)) as (ns & Hns & Heq).
  split; [lia|]. destruct c as [ps x]. destruct (pool_finishes ps x ns Hns) as (m & c' & HS' & ?).
  exists m, c'. split_and!; [done| |done].
  destruct (pool_within_steps m _ _ _ HS' Hns) as (ns' & _ & ?). simpl in *. lia.
Qed.

End requests.

(** ** Instances *)

Section witnesses.
#[local] Existing Instances sample_env sample_bcrypt sample_jwt.

(** A wrong password that locks the account: Alice has failed four times before. *)
Definition w_four : World MemHeap :=
  Nat.iter 4 (λ w, (run (cryden_Login sample_engine alice "guess" home "curl") w).2) w_signed.

Definition last_guess : list request := [ReqLogin alice "guess" home "curl"].

(** It needs its bound but for the log calls of audit records that failed. *)
Example last_guess_actions :
  ∃ w, schedule (replicate 10 0%nat) (serve sample_engine <$> last_guess) w_four = ([Ret ()], w).
Proof. eexists. vm_compute. reflexivity. Qed.

Lemma requests_terminate_witness :
  ∃ m c', nsteps (pool_step (λ _, False)) m
    (schedule [0; 0; 0]%nat (serve sample_engine <$> last_guess) w_four) c' ∧ Forall finished c'.1.
Proof.
  destruct (rtc_nsteps_1 _ _ (schedule_steps (λ _, False) [0; 0; 0]%nat
    (serve sample_engine <$> last_guess) w_four)) as [n HS].
  destruct (requests_terminate sample_engine last_guess w_four n _ HS) as (_ & m & c' & ? & _ & ?).
  by exists m, c'.
Defined.

End witnesses.
