(* ===== verification/ReadCommitted.v ===== *)
(** * The session store under concurrent transactions (store/postgres/session_store.go)

    Postgres.v runs each call of a store as one action. The server does not: calls
    of different connections overlap, and [BeginTx(ctx, nil)] asks for the default
    isolation level, READ COMMITTED. Here the calls of the session store are
    transactions, statement by statement, on a server that behaves as PostgreSQL
    documents that level (chapter 13.2.1): an UPDATE finds its rows among those
    that were committed when the statement began; a row that another transaction
    has changed is waited for, and the WHERE clause is evaluated again on its
    committed version; an INSERT waits for a transaction that has written the same
    key. Each transaction sees its own writes; locks last until it ends. *)
From S2P Require Import Prelude Errors Runtime Store Postgres.

(** ** Transactions *)

(** The statements of a transaction. [TUpdate now P k] is
    [UPDATE sessions SET revoked_at = now() WHERE P AND revoked_at IS NULL], its
    continuation gets the number of rows; [TEnd r commit] ends the transaction. *)
Inductive Txn : Type :=
| TUpdate (now : time) (P : sessions_row → bool) (k : Z → Txn)
| TInsert (row : sessions_row) (k : result () → Txn)
| TEnd (r : result ()) (commit : bool).

Section calls.
Context `{Postgres}.

Definition bad_uuid {A} : result A := sql_error "pq: invalid input syntax for type uuid".

Definition has_id (id : string) (s : sessions_row) : bool := bool_decide (s_id s = id).
Definition in_family (family : string) (s : sessions_row) : bool :=
  bool_decide (s_family_id s = family).
Definition of_user (user : string) (s : sessions_row) : bool := bool_decide (s_user_id s = user).

(** A statement on its own is a transaction on its own. *)
Definition autocommit (r : result ()) : Txn := TEnd r true.

(** [INSERT INTO sessions (id, family_id, user_id, token_hash, ip, user_agent)]. *)
Definition insert_sessions (sess : Session) (now : time) (k : result () → Txn) : Txn :=
  match pg_uuid_in (Session_ID sess), pg_uuid_in (Session_FamilyID sess),
        pg_uuid_in (Session_UserID sess) with
  | Some id, Some family, Some user =>
      if forallb pg_text_ok [Session_TokenHash sess; Session_IP sess; Session_UserAgent sess] then
        TInsert (mkSessionsRow id family user (Session_TokenHash sess) (Some (Session_IP sess))
          (Some (Session_UserAgent sess)) now None) k
      else k (sql_error "pq: invalid byte sequence for encoding")
  | _, _, _ => k bad_uuid
  end.

Definition Create_txn (sess : Session) (now : time) : Txn := insert_sessions sess now autocommit.

Definition Revoke_txn (sessionID : string) (now : time) : Txn :=
  match pg_uuid_in sessionID with
  | None => autocommit bad_uuid
  | Some id => TUpdate now (has_id id) (λ n, autocommit (checkRowsAffected (Ok n)))
  end.

Definition RevokeFamily_txn (familyID : string) (now : time) : Txn :=
  match pg_uuid_in familyID with
  | None => autocommit bad_uuid
  | Some family => TUpdate now (in_family family) (λ _, autocommit (Ok ()))
  end.

Definition RevokeAllForUser_txn (userID : string) (now : time) : Txn :=
  match pg_uuid_in userID with
  | None => autocommit bad_uuid
  | Some user => TUpdate now (of_user user) (λ _, autocommit (Ok ()))
  end.

(** [if err != nil { return err }], the deferred Rollback, [return tx.Commit()]. *)
Definition commit_or_rollback (r : result ()) : Txn :=
  match r with Err err => TEnd (Err err) false | Ok _ => TEnd (Ok ()) true end.

Definition RotateToken_txn (oldSessionID : string) (newSession : Session) (now : time) : Txn :=
  match pg_uuid_in oldSessionID with
  | None => TEnd bad_uuid false
  | Some old =>
      TUpdate now (has_id old) (λ n,
        match checkRowsAffected (Ok n) with
        | Err err => TEnd (Err err) false
        | Ok _ => insert_sessions newSession now commit_or_rollback
        end)
  end.

End calls.

(** ** The server *)

(** A transaction under way: its uncommitted rows, and the rows that its UPDATE has
    still to visit with the number it has changed. *)
Record Active : Type := mkActive {
  a_writes : gmap string sessions_row;
  a_scan : option (list string * Z);
  a_txn : Txn;
}.

(** The committed rows, the transactions under way, and the answers of those that
    have ended. The rows of users do not change. *)
Record Server : Type := mkServer {
  sv_users : gset string;
  sv_sessions : gmap string sessions_row;
  sv_active : gmap nat Active;
  sv_done : gmap nat (result ());
}.

Definition server_begin (i : nat) (t : Txn) (s : Server) : Server :=
  mkServer (sv_users s) (sv_sessions s) (<[i := mkActive ∅ None t]> (sv_active s)) (sv_done s).

Definition server_act (i : nat) (a : Active) (s : Server) : Server :=
  mkServer (sv_users s) (sv_sessions s) (<[i := a]> (sv_active s)) (sv_done s).

Definition server_end (i : nat) (writes : gmap string sessions_row) (r : result ())
    (s : Server) : Server :=
  mkServer (sv_users s) (writes ∪ sv_sessions s) (delete i (sv_active s)) (<[i := r]> (sv_done s)).

(** What a transaction sees: its own writes over what is committed. *)
Definition seen (s : Server) (a : Active) : gmap string sessions_row := a_writes a ∪ sv_sessions s.

Definition live_row (s : sessions_row) : bool := bool_decide (s_revoked_at s = None).

(** The rows an UPDATE finds when it begins. *)
Definition targets (P : sessions_row → bool) (m : gmap string sessions_row) : list string :=
  (map_to_list (filter (λ p, P p.2 && live_row p.2 = true) m)).*1.

(** Another transaction than [i] has written the row [k]. *)
Definition locked (s : Server) (i : nat) (k : string) : Prop :=
  map_Exists (λ j b, j ≠ i ∧ is_Some (a_writes b !! k)) (sv_active s).

(** Another transaction than [i] has written a row with a key of [row]. *)
Definition key_pending (s : Server) (i : nat) (row : sessions_row) : Prop :=
  map_Exists (λ j b, j ≠ i ∧ map_Exists (λ k r, k = s_id row ∨ s_token_hash r = s_token_hash row)
    (a_writes b)) (sv_active s).

#[export] Instance locked_dec s i k : Decision (locked s i k).
Proof. unfold locked. apply _. Defined.

#[export] Instance key_pending_dec s i row : Decision (key_pending s i row).
Proof. unfold key_pending. apply _. Defined.

Definition key_taken (m : gmap string sessions_row) (row : sessions_row) : bool :=
  bool_decide (is_Some (m !! s_id row)) ||
  exists_row (λ r, bool_decide (s_token_hash r = s_token_hash row)) m.

(** A row of an UPDATE whose lock is free: its WHERE clause on the version that is
    committed by now. *)
Definition update_row (now : time) (P : sessions_row → bool) (k : string) (n : Z)
    (m w : gmap string sessions_row) : gmap string sessions_row * Z :=
  match (w ∪ m) !! k with
  | Some r => if P r && live_row r then (<[k := row_revoke now r]> w, n + 1) else (w, n)
  | None => (w, n)
  end.

(** The next thing the transaction [i] does; no constructor applies while it waits. *)
Inductive txn_act (s : Server) (i : nat) (a : Active) : Active → Prop :=
| act_scan now P k ids :
    a_txn a = TUpdate now P k → a_scan a = None → ids ≡ₚ targets P (seen s a) →
    txn_act s i a (mkActive (a_writes a) (Some (ids, 0)) (a_txn a))
| act_row now P k id ids n w n' :
    a_txn a = TUpdate now P k → a_scan a = Some (id :: ids, n) → ¬ locked s i id →
    update_row now P id n (sv_sessions s) (a_writes a) = (w, n') →
    txn_act s i a (mkActive w (Some (ids, n')) (a_txn a))
| act_updated now P k n :
    a_txn a = TUpdate now P k → a_scan a = Some ([], n) →
    txn_act s i a (mkActive (a_writes a) None (k n))
| act_insert row k :
    a_txn a = TInsert row k → ¬ key_pending s i row → key_taken (seen s a) row = false →
    s_user_id row ∈ sv_users s →
    txn_act s i a (mkActive (<[s_id row := row]> (a_writes a)) None (k (Ok ())))
| act_insert_taken row k :
    a_txn a = TInsert row k → ¬ key_pending s i row → key_taken (seen s a) row = true →
    txn_act s i a (mkActive (a_writes a) None
      (k (sql_error "pq: duplicate key value violates unique constraint")))
| act_insert_no_user row k :
    a_txn a = TInsert row k → ¬ key_pending s i row → key_taken (seen s a) row = false →
    s_user_id row ∉ sv_users s →
    txn_act s i a (mkActive (a_writes a) None
      (k (sql_error "pq: insert or update violates foreign key constraint"))).

(** The ways a transaction ends, with the rows it commits and its answer. It may be
    aborted at any moment (a lost connection, a deadlock), and the answer to a commit
    may be lost with its effect. *)
Inductive txn_ends (a : Active) : gmap string sessions_row → result () → Prop :=
| end_answered r commit :
    a_txn a = TEnd r commit → txn_ends a (if commit then a_writes a else ∅) r
| end_lost r msg : a_txn a = TEnd r true → txn_ends a (a_writes a) (Err (ErrExternal msg))
| end_aborted msg : txn_ends a ∅ (Err (ErrExternal msg)).

(** The server: a transaction that the engine may ask for ([ask]) begins, acts or
    ends. *)
Inductive rc_step (ask : Server → Txn → Prop) (s : Server) : Server → Prop :=
| rc_begin i t :
    sv_active s !! i = None → sv_done s !! i = None → ask s t → rc_step ask s (server_begin i t s)
| rc_act i a a' :
    sv_active s !! i = Some a → txn_act s i a a' → rc_step ask s (server_act i a' s)
| rc_end i a w r :
    sv_active s !! i = Some a → txn_ends a w r → rc_step ask s (server_end i w r s).

(** What the engine asks for: [Login] opens a family with its root, [Rotate] gives
    the family and the user of the session it read; revocations are free. *)
Inductive engine_txn `{Postgres} (s : Server) : Txn → Prop :=
| ask_create sess now :
    Session_FamilyID sess = Session_ID sess → engine_txn s (Create_txn sess now)
| ask_rotate old k so sess now :
    pg_uuid_in old = Some k → sv_sessions s !! k = Some so →
    pg_uuid_in (Session_FamilyID sess) = Some (s_family_id so) →
    pg_uuid_in (Session_UserID sess) = Some (s_user_id so) →
    engine_txn s (RotateToken_txn old sess now)
| ask_revoke id now : engine_txn s (Revoke_txn id now)
| ask_revoke_family family now : engine_txn s (RevokeFamily_txn family now)
| ask_revoke_all user now : engine_txn s (RevokeAllForUser_txn user now).

(** ** Running the server *)

(** The next action of a transaction, [None] if it waits or is at its end; rows are
    visited in one of the orders that [txn_act] allows. *)
Definition act_next (s : Server) (i : nat) (a : Active) : option Active :=
  match a_txn a with
  | TUpdate now P k =>
      match a_scan a with
      | None => Some (mkActive (a_writes a) (Some (targets P (seen s a), 0)) (a_txn a))
      | Some (id :: ids, n) =>
          if decide (locked s i id) then None
          else let '(w, n') := update_row now P id n (sv_sessions s) (a_writes a) in
               Some (mkActive w (Some (ids, n')) (a_txn a))
      | Some ([], n) => Some (mkActive (a_writes a) None (k n))
      end
  | TInsert row k =>
      if decide (key_pending s i row) then None
      else if key_taken (seen s a) row then
        Some (mkActive (a_writes a) None
          (k (sql_error "pq: duplicate key value violates unique constraint")))
      else if decide (s_user_id row ∈ sv_users s) then
        Some (mkActive (<[s_id row := row]> (a_writes a)) None (k (Ok ())))
      else
        Some (mkActive (a_writes a) None
          (k (sql_error "pq: insert or update violates foreign key constraint")))
  | TEnd _ _ => None
  end.

Definition server_next (i : nat) (s : Server) : option Server :=
  a ← sv_active s !! i;
  match a_txn a with
  | TEnd r commit => Some (server_end i (if commit then a_writes a else ∅) r s)
  | _ => (λ a', server_act i a' s) <$> act_next s i a
  end.

(** The server after letting its transactions act in an order; turns of a
    transaction that waits pass. *)
Fixpoint server_run (order : list nat) (s : Server) : Server :=
  match order with
  | [] => s
  | i :: order => server_run order (default s (server_next i s))
  end.

Lemma act_next_sound s i a a' : act_next s i a = Some a' → txn_act s i a a'.
Proof.
  unfold act_next. destruct (a_txn a) as [now P k|row k|] eqn:Ht; [|..|done].
  - destruct (a_scan a) as [[[|id ids] n]|] eqn:Hs.
    + intros [= <-]. by eapply act_updated.
    + case_decide; [done|]. destruct (update_row _ _ _ _ _ _) as [w n'] eqn:Hu.
      intros [= <-]. rewrite <- Ht. by eapply act_row.
    + intros [= <-]. rewrite <- Ht. by eapply act_scan.
  - case_decide; [done|]. destruct (key_taken _ _) eqn:Hk; [|case_decide]; intros [= <-].
    + by eapply act_insert_taken.
    + by eapply act_insert.
    + by eapply act_insert_no_user.
Qed.

Lemma server_next_sound ask i s s' : server_next i s = Some s' → rc_step ask s s'.
Proof.
  unfold server_next. destruct (sv_active s !! i) as [a|] eqn:Ha; [|done]. simpl.
  destruct (a_txn a) as [now P k|row k|r commit] eqn:Ht.
  1, 2: destruct (act_next s i a) as [a'|] eqn:Hn; [|done]; intros [= <-];
    eapply rc_act; [done|by apply act_next_sound].
  intros [= <-]. eapply rc_end; [done|by apply end_answered].
Qed.

Lemma server_run_steps ask order s : rtc (rc_step ask) s (server_run order s).
Proof.
  revert s. induction order as [|i order IH]; intros s; simpl; [done|].
  destruct (server_next i s) as [s'|] eqn:Hn; simpl; [|done].
  eapply rtc_l; [by eapply server_next_sound|done].
Qed.
