(* ===== verification/ReadCommittedTheorems.v ===== *)
(** * Rotation holds at READ COMMITTED, revocation of a family does not

    Over the server of ReadCommitted.v: every commit moves the sessions along the
    session machine, so a family never has two live sessions and a session that was
    revoked stays so, however the transactions overlap. But an UPDATE only finds
    rows that were committed when it began: a family, or a user, can be left with
    a live session by a revocation that succeeded. *)
From S2P Require Import Prelude Errors Runtime Store StoreSpec SessionMachine Postgres.
From S2P Require Import PostgresContract ReadCommitted.

Notation rows := (gmap string sessions_row) (only parsing).

Definition table (s : Server) : gmap string Session := view_session <$> sv_sessions s.

(** ** What a transaction has written *)

(** Rows that were live when they were locked, revoked. *)
Definition revs (c w : rows) : Prop :=
  ∀ k row, w !! k = Some row →
    ∃ s0 t, c !! k = Some s0 ∧ s_revoked_at s0 = None ∧ row = row_revoke t s0.

(** [row] can follow the session [o]. *)
Definition succeeds (c : rows) (o : string) (row : sessions_row) : Prop :=
  s_revoked_at row = None ∧ ∃ so, c !! o = Some so ∧
    s_family_id row = s_family_id so ∧ s_user_id row = s_user_id so.

Inductive shape (c : rows) : rows → Prop :=
| shape_revs w : revs c w → shape c w
| shape_login row :
    c !! s_id row = None → s_family_id row = s_id row → s_revoked_at row = None →
    shape c {[s_id row := row]}
| shape_rotate w o row :
    revs c w → is_Some (w !! o) → succeeds c o row → c !! s_id row = None →
    shape c (<[s_id row := row]> w).

Definition ends {R} (k : R → Txn) : Prop := ∀ r, ∃ r' b, k r = TEnd r' b.

(** The transactions that the engine asks for, at any moment of their life. *)
Inductive running (c w : rows) : option (list string * Z) → Txn → Prop :=
| run_bulk sc now P k : revs c w → ends k → running c w sc (TUpdate now P k)
| run_rotating sc now o k :
    revs c w → (∀ ids n, sc = Some (ids, n) → 0 ≤ n ∧ (n ≠ 0 → is_Some (w !! o))) →
    (∀ n, (∃ r b, k n = TEnd r b) ∨
      n ≠ 0 ∧ ∃ row k', k n = TInsert row k' ∧ succeeds c o row ∧ ends k') →
    running c w sc (TUpdate now (has_id o) k)
| run_inserting o row k :
    revs c w → is_Some (w !! o) → succeeds c o row → ends k → running c w None (TInsert row k)
| run_creating row k :
    w = ∅ → s_family_id row = s_id row → s_revoked_at row = None → ends k →
    running c w None (TInsert row k)
| run_ending r b : shape c w → running c w None (TEnd r b).

Lemma revs_empty c : revs c ∅.
Proof. intros k row. by rewrite lookup_empty. Qed.

Lemma shape_empty c : shape c ∅.
Proof. apply shape_revs, revs_empty. Qed.

Lemma running_end {R} c w (k : R → Txn) r : shape c w → ends k → running c w None (k r).
Proof. intros Hw Hk. destruct (Hk r) as (r' & b & ->). by constructor. Qed.

(** ** A commit moves the sessions along the session machine *)

Notation "'sessions' c" := (view_session <$> c : gmap string Session) (at level 10, only parsing).

Lemma revs_steps c w : revs c w → sess_steps (sessions c) (sessions (w ∪ c)).
Proof.
  induction w as [|k row w Hk IH] using map_ind; intros Hw; [by rewrite (left_id_L ∅ (∪))|].
  destruct (Hw k row) as (s0 & t & Hs0 & Hlive & ->); [by rewrite lookup_insert_eq|].
  assert (revs c w) as Hw'.
  { intros k' r Hr. apply Hw. rewrite lookup_insert_ne; [done|]. intros ->. congruence. }
  etrans; [by apply IH|]. apply rtc_once.
  rewrite <- insert_union_l, (fmap_insert view_session).
  change (view_session (row_revoke t s0)) with (set_RevokedAt (view_session s0) (Some t)).
  apply step_revoke_one. rewrite lookup_fmap, lookup_union_r by done. by rewrite Hs0.
Qed.

Lemma shape_steps c w : shape c w → sess_steps (sessions c) (sessions (w ∪ c)).
Proof.
  intros [? Hw|row Hn Hf Hl|? o row Hw [x Hx] (Hl & so & Hso & Hf & Hu) Hn]; [by apply revs_steps|..].
  - rewrite <- insert_union_singleton_l, (fmap_insert view_session). apply rtc_once.
    by apply step_login; [rewrite lookup_fmap, Hn|..].
  - destruct (Hw o x Hx) as (s0 & t & Hs0 & Hlive & ->). simplify_eq.
    assert (revs c (delete o w0)) as Hw' by (intros k r [_ Hr]%lookup_delete_Some; by apply Hw).
    assert (delete o w0 !! s_id row = None) as Hn'.
    { destruct (delete o w0 !! s_id row) as [y|] eqn:Hy; [|done].
      destruct (Hw' _ _ Hy) as (? & _ & ? & _). congruence. }
    assert (w0 = <[o:=row_revoke t so]> (delete o w0)) as -> by by rewrite insert_delete_id.
    pose proof (lookup_delete_eq w0 o) as Ho. revert Hw' Hn' Ho. generalize (delete o w0).
    intros w1 Hw' Hn' Ho. etrans; [by apply (revs_steps c w1)|]. apply rtc_once.
    rewrite <- !insert_union_l, !(fmap_insert view_session).
    apply (step_rotate _ o (view_session so)); try done; rewrite lookup_fmap.
    + by rewrite lookup_union_r, Hso.
    + by rewrite lookup_union_r, Hn.
Qed.

(** ** What others commit leaves a transaction as it is *)

Section stable.
Context (c w' : rows) (Hw' : shape c w').

Lemma shape_kept k so :
  c !! k = Some so →
  ∃ so', (w' ∪ c) !! k = Some so' ∧ (so' = so ∨ ∃ t, so' = row_revoke t so).
Proof.
  intros Hso. rewrite lookup_union, Hso. destruct (w' !! k) as [x|] eqn:Hx; simpl; [|by eauto].
  exists x. split; [done|]. right.
  assert (∀ w, revs c w → w !! k = Some x → ∃ t, x = row_revoke t so) as Hrevs.
  { intros w Hw Hk. destruct (Hw _ _ Hk) as (s0 & t & Hs0 & _ & ->). simplify_eq. by exists t. }
  destruct Hw' as [w Hw|row Hn _ _|w o row Hw _ _ Hn]; [by eapply Hrevs|..].
  - apply lookup_singleton_Some in Hx as [<- _]. congruence.
  - apply lookup_insert_Some in Hx as [[<- _]|[_ Hx]]; [congruence|by eapply Hrevs].
Qed.

Lemma succeeds_stable o row : succeeds c o row → succeeds (w' ∪ c) o row.
Proof.
  intros (? & so & Hso & ? & ?). split; [done|].
  destruct (shape_kept _ _ Hso) as (so' & ? & [->|[t ->]]); by eexists.
Qed.

Lemma others_lookup w k : w ##ₘ w' → is_Some (w !! k) → (w' ∪ c) !! k = c !! k.
Proof. intros Hd [x Hx]. apply lookup_union_r. by eapply map_disjoint_Some_l. Qed.

Lemma revs_stable w : w ##ₘ w' → revs c w → revs (w' ∪ c) w.
Proof.
  intros Hd Hw k row Hk. rewrite (others_lookup w) by (done || by eexists). by apply Hw.
Qed.

Lemma shape_stable w : w ##ₘ w' → shape c w → shape (w' ∪ c) w.
Proof.
  intros Hd Hsh. revert Hd. destruct Hsh as [w Hr|row Hn Hf Hl|w o row Hw Ho Hs Hn]; intros Hd.
  - by apply shape_revs, revs_stable.
  - apply shape_login; [|done..]. rewrite (others_lookup _ _ Hd); [done|].
    rewrite lookup_singleton_eq. by eexists.
  - apply (shape_rotate _ w o); [|done|by apply succeeds_stable|].
    + apply revs_stable; [|done]. intros k. specialize (Hd k). revert Hd.
      destruct (decide (k = s_id row)) as [->|]; [|by rewrite lookup_insert_ne].
      rewrite lookup_insert_eq. simpl. destruct (w !! s_id row) eqn:E; [|by destruct (w' !! _)].
      by destruct (Hw _ _ E) as (? & _ & ? & _); congruence.
    + rewrite (others_lookup _ _ Hd); [done|]. rewrite lookup_insert_eq. by eexists.
Qed.

Lemma running_stable w sc t : w ##ₘ w' → running c w sc t → running (w' ∪ c) w sc t.
Proof.
  intros Hd [sc' now P k Hr He|sc' now o k Hr Hn Hk|o row k Hr Ho Hs He|row k Hw0 Hf Hl He|r b Hs].
  - apply run_bulk; [by apply revs_stable|done].
  - apply run_rotating; [by apply revs_stable|done|]. intros n.
    destruct (Hk n) as [?|(? & row & k' & ? & ? & ?)]; [by left|right].
    split; [done|]. exists row, k'. split_and!; [done|by apply succeeds_stable|done].
  - apply (run_inserting _ _ o); [by apply revs_stable|done|by apply succeeds_stable|done].
  - by apply run_creating.
  - by apply run_ending, shape_stable.
Qed.

End stable.

(** ** The transactions of the engine are such transactions *)

Section engine.
Context `{Postgres}.

Lemma insert_cases sess now (k : result () → Txn) :
  (∃ err, insert_sessions sess now k = k (Err err)) ∨
  ∃ row, insert_sessions sess now k = TInsert row k ∧ s_revoked_at row = None ∧
    pg_uuid_in (Session_ID sess) = Some (s_id row) ∧
    pg_uuid_in (Session_FamilyID sess) = Some (s_family_id row) ∧
    pg_uuid_in (Session_UserID sess) = Some (s_user_id row).
Proof.
  unfold insert_sessions, bad_uuid, sql_error.
  destruct (pg_uuid_in (Session_ID sess)) eqn:?, (pg_uuid_in (Session_FamilyID sess)) eqn:?,
    (pg_uuid_in (Session_UserID sess)) eqn:?; try by left; eexists.
  destruct (forallb _ _); [right|by left; eexists]. eexists. by split_and!.
Qed.

Lemma autocommit_ends : ends autocommit.
Proof. intros r. by eexists _, _. Qed.

Lemma commit_or_rollback_ends : ends commit_or_rollback.
Proof. intros [|]; by eexists _, _. Qed.

Lemma engine_txn_running s t : engine_txn s t → running (sv_sessions s) ∅ None t.
Proof.
  intros [sess now Hf|old k so sess now Hold Hso Hf Hu|id now|f now|u now].
  - unfold Create_txn. destruct (insert_cases sess now autocommit) as
      [[err ->]|(row & -> & Hl & Hid & Hfam & _)]; [apply running_end; auto using shape_empty, autocommit_ends|].
    apply run_creating; [done| |done|apply autocommit_ends]. congruence.
  - unfold RotateToken_txn. rewrite Hold. apply run_rotating; [apply revs_empty|done|].
    intros n. unfold checkRowsAffected. case_bool_decide; [by left; eexists _, _|].
    destruct (insert_cases sess now commit_or_rollback) as
      [[err ->]|(row & -> & Hl & _ & Hfam & Huser)]; [by left; eexists _, _|].
    right. split; [done|]. exists row, commit_or_rollback.
    split_and!; [done| |apply commit_or_rollback_ends].
    split; [done|]. exists so. split_and!; [done|congruence..].
  - unfold Revoke_txn. destruct (pg_uuid_in id); [apply run_bulk|apply run_ending, shape_empty];
      [apply revs_empty|]. intros n. by eexists _, _.
  - unfold RevokeFamily_txn. destruct (pg_uuid_in f); [apply run_bulk|apply run_ending, shape_empty];
      [apply revs_empty|]. intros n. by eexists _, _.
  - unfold RevokeAllForUser_txn. destruct (pg_uuid_in u); [apply run_bulk|apply run_ending, shape_empty];
      [apply revs_empty|]. intros n. by eexists _, _.
Qed.

End engine.

(** ** What holds at all times *)

Record rc_inv (s : Server) : Prop := {
  ri_machine : machine_inv (table s);
  ri_running i a : sv_active s !! i = Some a →
    running (sv_sessions s) (a_writes a) (a_scan a) (a_txn a);
  ri_apart i j a b : sv_active s !! i = Some a → sv_active s !! j = Some b → i ≠ j →
    a_writes a ##ₘ a_writes b;
  ri_open i a : sv_active s !! i = Some a → sv_done s !! i = None;
}.

Lemma table_filed s k r : machine_inv (table s) → sv_sessions s !! k = Some r → s_id r = k.
Proof.
  intros [_ _ Hf] Hr. apply (Hf k (view_session r)). unfold table. by rewrite lookup_fmap, Hr.
Qed.

(** A visit to a row changes it from live to revoked, or not at all. *)
Lemma update_row_cases now P k n (m w w' : rows) n' :
  update_row now P k n m w = (w', n') → revs m w →
  (w' = w ∧ n' = n) ∨
  ∃ r, w !! k = None ∧ m !! k = Some r ∧ P r = true ∧ s_revoked_at r = None ∧
    w' = <[k := row_revoke now r]> w ∧ n' = n + 1.
Proof.
  unfold update_row. intros Hu Hw. destruct ((w ∪ m) !! k) as [r|] eqn:Hr; [|left; naive_solver].
  destruct (P r) eqn:HP; simpl in Hu; [|left; naive_solver].
  destruct (live_row r) eqn:Hl; [|left; naive_solver]. apply bool_decide_eq_true in Hl.
  injection Hu as <- <-. right. exists r. apply lookup_union_Some_raw in Hr as [Hr|[? Hr]].
  - destruct (Hw _ _ Hr) as (s0 & t & _ & _ & ->). by simpl in Hl.
  - by split_and!.
Qed.

Lemma revs_insert (m w : rows) now k r :
  revs m w → m !! k = Some r → s_revoked_at r = None → revs m (<[k := row_revoke now r]> w).
Proof.
  intros Hw Hr Hl k' x. rewrite lookup_insert_Some. intros [[<- <-]|[_ Hx]]; [by exists r, now|].
  by apply Hw.
Qed.

Lemma act_running s i a a' :
  machine_inv (table s) → running (sv_sessions s) (a_writes a) (a_scan a) (a_txn a) →
  txn_act s i a a' →
  running (sv_sessions s) (a_writes a') (a_scan a') (a_txn a') ∧
  ∀ k, is_Some (a_writes a' !! k) → is_Some (a_writes a !! k) ∨ ¬ locked s i k.
Proof.
  intros Hm Hrun Hact. destruct Hact as [now P k ids Ht Hs Hids|now P k id ids n w n' Ht Hs Hlk Hu
    |now P k n Ht Hs|row k Ht Hp Hk Huser|row k Ht Hp Hk|row k Ht Hp Hk Huser];
    rewrite Ht in Hrun; simpl; rewrite ?Ht, ?Hs in *.
  - split; [|by left]. inversion Hrun; subst; [by apply run_bulk|].
    apply run_rotating; [done| |done]. by intros ? ? [= <- <-].
  - assert (revs (sv_sessions s) (a_writes a)) as Hr by by inversion Hrun.
    destruct (update_row_cases _ _ _ _ _ _ _ _ Hu Hr) as [[-> ->]|(r & _ & Hmr & HP & Hl & -> & ->)].
    + split; [|by left]. inversion Hrun as [| ????? Hn| | |]; subst; [by apply run_bulk|].
      apply run_rotating; [done| |done]. intros ? ? [= <- <-]. by eapply Hn.
    + split.
      * inversion Hrun as [|? ? o ? _ Hn Hk'| | |]; subst; [apply run_bulk; [by apply revs_insert|done]|].
        apply bool_decide_eq_true in HP. pose proof (table_filed _ _ _ Hm Hmr) as Hf.
        apply run_rotating; [by apply revs_insert| |done]. intros ? ? [= <- <-].
        destruct (Hn _ _ eq_refl). split; [lia|]. intros _.
        assert (o = id) as -> by congruence. rewrite lookup_insert_eq. by eexists.
      * intros x. destruct (decide (x = id)) as [->|]; [by right|].
        rewrite lookup_insert_ne by done. by left.
  - split; [|by left]. inversion Hrun as [|? ? o ? Hw Hn Hk| | |]; subst.
    + apply running_end; [by apply shape_revs|done].
    + destruct (Hk n) as [(r & b & ->)|(Hn0 & row & k' & -> & ? & ?)];
        [apply run_ending; by apply shape_revs|].
      eapply run_inserting; try done. by eapply (Hn [] n).
  - unfold key_taken, seen in Hk. apply orb_false_iff in Hk as [Hk _].
    apply bool_decide_eq_false in Hk. rewrite <- eq_None_not_Some, lookup_union_None in Hk.
    destruct Hk as [Hw Hc]. split.
    + inversion Hrun as [| |o ? ? Hr Ho Hsu He|? ? Hw0 Hf Hl He|]; subst.
      * apply running_end; [|done]. by apply (shape_rotate _ _ o).
      * apply running_end; [|done]. rewrite Hw0. by apply shape_login.
    + intros x. destruct (decide (x = s_id row)) as [->|].
      * intros _. right. intros (j & b & Hb & Hj & [r Hr]). apply Hp. exists j, b.
        split_and!; [done..|]. exists (s_id row), r. by split; [|left].
      * rewrite lookup_insert_ne by done. by left.
  - split; [|by left]. inversion Hrun as [| |o ? ? Hr Ho Hsu He|? ? Hw0 Hf Hl He|]; subst.
    + apply running_end; [by apply shape_revs|done].
    + rewrite Hw0. apply running_end; [apply shape_empty|done].
  - split; [|by left]. inversion Hrun as [| |o ? ? Hr Ho Hsu He|? ? Hw0 Hf Hl He|]; subst.
    + apply running_end; [by apply shape_revs|done].
    + rewrite Hw0. apply running_end; [apply shape_empty|done].
Qed.

Lemma rc_inv_act s i a a' :
  rc_inv s → sv_active s !! i = Some a → txn_act s i a a' → rc_inv (server_act i a' s).
Proof.
  intros [Hm Hr Ha Ho] Hi Hact. destruct (act_running _ _ _ _ Hm (Hr _ _ Hi) Hact) as [Hrun Hgrow].
  assert (∀ j b, j ≠ i → sv_active s !! j = Some b → a_writes a' ##ₘ a_writes b) as Hnew.
  { intros j b Hj Hb. apply map_disjoint_alt. intros k.
    destruct (a_writes b !! k) as [x|] eqn:Hx; [left|by right].
    destruct (a_writes a' !! k) as [y|] eqn:Hy; [exfalso|done].
    destruct (Hgrow k) as [Hk|Hk]; [by eexists| |].
    - destruct Hk as [z Hz]. by eapply map_disjoint_spec; [by apply (Ha i j)|..].
    - apply Hk. exists j, b. split_and!; [done..|by eexists]. }
  split; simpl; [done|..].
  - intros j b. rewrite lookup_insert_Some. intros [[<- <-]|[_ Hb]]; [done|by apply (Hr j)].
  - intros j l b d. rewrite !lookup_insert_Some.
    intros [[<- <-]|[? Hb]] [[<- <-]|[? Hd]] Hne; [done|by eapply Hnew|symmetry; by eapply Hnew|].
    by apply (Ha j l).
  - intros j b. rewrite lookup_insert_Some. intros [[<- _]|[_ Hb]]; by eapply Ho.
Qed.

(** The sessions move along the machine, and none goes. *)
Definition moved_on (s s' : Server) : Prop :=
  sess_steps (table s) (table s') ∧
  ∀ k x, table s !! k = Some x → ∃ y, table s' !! k = Some y ∧ later x y.

#[export] Instance moved_on_preorder : PreOrder moved_on.
Proof.
  split; [intros s; split; [apply rtc_refl|intros k x Hx; exists x; by split]|].
  intros s1 s2 s3 [S12 K12] [S23 K23]. split; [by etrans|]. intros k x Hx.
  destruct (K12 _ _ Hx) as (y & Hy & ?). destruct (K23 _ _ Hy) as (z & ? & ?).
  exists z. split; [done|by etrans].
Qed.

Lemma rc_inv_end s i a w r :
  rc_inv s → sv_active s !! i = Some a → shape (sv_sessions s) w → w = ∅ ∨ w = a_writes a →
  rc_inv (server_end i w r s) ∧ moved_on s (server_end i w r s).
Proof.
  intros [Hm Hr Ha Ho] Hi Hw Hwa. pose proof (shape_steps _ _ Hw) as HS. split.
  2:{ split; [exact HS|]. unfold table. simpl. intros k x (so & <- & Hso)%lookup_fmap_Some.
      destruct (shape_kept _ _ Hw _ _ Hso) as (so' & Hso' & Hor). exists (view_session so').
      rewrite lookup_fmap, Hso'. split; [done|].
      destruct Hor as [->|[t ->]]; [done|apply (later_revoked (view_session so))]. }
  split; simpl.
  - by eapply machine_inv_steps.
  - intros j b [Hne Hb]%lookup_delete_Some. apply running_stable; [done| |by apply (Hr j)].
    destruct Hwa as [->| ->]; [by apply map_disjoint_empty_r|]. by apply (Ha j i).
  - intros j l b d [_ Hb]%lookup_delete_Some [_ Hd]%lookup_delete_Some. by apply (Ha j l).
  - intros j b [Hne Hb]%lookup_delete_Some. rewrite lookup_insert_ne by done. by eapply Ho.
Qed.

(** What a transaction commits. *)
Lemma ends_shape s i a w r :
  rc_inv s → sv_active s !! i = Some a → txn_ends a w r →
  shape (sv_sessions s) w ∧ (w = ∅ ∨ w = a_writes a).
Proof.
  intros HI Hi He. pose proof (ri_running _ HI _ _ Hi) as Hrun.
  destruct He as [r [] Ht|r msg Ht|msg]; try by auto using shape_empty.
  all: rewrite Ht in Hrun; split; [by inversion Hrun|by right].
Qed.

Section refinement.
Context `{Postgres}.

Lemma rc_inv_step s s' :
  rc_inv s → rc_step engine_txn s s' → rc_inv s' ∧ moved_on s s'.
Proof.
  intros HI HS. destruct HS as [i t Hi Hd Ht|i a a' Hi Hact|i a w r Hi He].
  - split; [|exact (reflexivity (R:=moved_on) s)]. destruct HI as [Hm Hr Ha Ho]. split; simpl; [done|..].
    + intros j b. rewrite lookup_insert_Some. intros [[_ <-]|[_ Hb]]; [|by apply (Hr j)].
      by apply engine_txn_running.
    + intros j l b d. rewrite !lookup_insert_Some.
      intros [[<- <-]|[? Hb]] [[<- <-]|[? Hc]] Hne; simpl;
        [done|apply map_disjoint_empty_l|apply map_disjoint_empty_r|by apply (Ha j l)].
    + intros j b. rewrite lookup_insert_Some. intros [[<- _]|[_ Hb]]; [done|by eapply Ho].
  - split; [by eapply rc_inv_act|exact (reflexivity (R:=moved_on) s)].
  - destruct (ends_shape _ _ _ _ _ HI Hi He). by eapply rc_inv_end.
Qed.

Lemma rc_inv_steps s s' :
  rc_inv s → rtc (rc_step engine_txn) s s' → rc_inv s' ∧ moved_on s s'.
Proof.
  intros HI HS. induction HS as [s|s s1 s2 Hst _ IH]; [split; [done|exact (reflexivity (R:=moved_on) s)]|].
  destruct (rc_inv_step _ _ HI Hst) as [HI1 ?]. destruct (IH HI1). split; [done|by etrans].
Qed.

(** A server without transactions under way, its sessions in order. *)
Definition at_rest (s : Server) : Prop := sv_active s = ∅ ∧ machine_inv (table s).

Lemma at_rest_inv s : at_rest s → rc_inv s.
Proof. intros [He Hm]. split; [done|..]; rewrite He; intros *; by rewrite lookup_empty. Qed.

(** C7: rotation is safe at READ COMMITTED. However the transactions of any number
    of calls overlap, statement by statement, with waits for row locks, aborts and
    lost answers, what is committed moves along the session machine: at no moment
    has a family two live sessions (of several exchanges of one token at most one
    commits), and no session goes, changes its identity or comes back to life. *)
Theorem read_committed_refines_machine s s1 s2 :
  at_rest s → rtc (rc_step engine_txn) s s1 → rtc (rc_step engine_txn) s1 s2 →
  sess_steps (table s1) (table s2) ∧ machine_inv (table s2) ∧
  ∀ k x, table s1 !! k = Some x → ∃ y, table s2 !! k = Some y ∧ later x y.
Proof.
  intros Hs HS1 HS2. destruct (rc_inv_steps _ _ (at_rest_inv _ Hs) HS1) as [HI1 _].
  destruct (rc_inv_steps _ _ HI1 HS2) as [HI2 [HS Hk]]. split_and!; [done|apply HI2|done].
Qed.

End refinement.
