(* ===== verification/ReadCommittedRace.v ===== *)
(** * A revocation that misses a session (store/postgres/session_store.go)

    RevokeFamily and RevokeAllForUser under concurrency. What they promise holds of
    the sessions that were committed when their UPDATE began; the successor that a
    rotation commits meanwhile is not among them. *)
From S2P Require Import Prelude Errors Runtime Store StoreSpec SessionMachine Postgres.
From S2P Require Import PostgresContract PgFixtures ReadCommitted ReadCommittedTheorems.

(** ** What a revocation reaches *)

Section covers.
Context `{Postgres}.
Context (i : nat) (now : time) (P : sessions_row → bool).
Context (HP : ∀ t r, P (row_revoke t r) = P r).
Context (k : Z → Txn) (Hk : ∀ n, k n = TEnd (Ok ()) true).

(** The rows of an UPDATE of one of the bulk revocations. *)
Definition dead (m : gmap string sessions_row) (x : string) : Prop :=
  ∃ r, m !! x = Some r ∧ s_revoked_at r ≠ None.

(** Where the revocation stands with the sessions [X] that were there when it began. *)
Inductive progress (X : string → Prop) (s : Server) : Prop :=
| pr_begun a :
    sv_active s !! i = Some a → a_txn a = TUpdate now P k → a_scan a = None → progress X s
| pr_visiting a ids n :
    sv_active s !! i = Some a → a_txn a = TUpdate now P k → a_scan a = Some (ids, n) →
    (∀ x, X x → x ∈ ids ∨ dead (seen s a) x) → progress X s
| pr_updated a :
    sv_active s !! i = Some a → a_txn a = TEnd (Ok ()) true →
    (∀ x, X x → dead (seen s a) x) → progress X s
| pr_ended :
    is_Some (sv_done s !! i) → sv_active s !! i = None →
    (sv_done s !! i = Some (Ok ()) → ∀ x, X x → dead (sv_sessions s) x) → progress X s.

(** The sessions of [X] are still there, and still the revocation's to revoke. *)
Definition concerned (X : string → Prop) (s : Server) : Prop :=
  ∀ x, X x → ∃ r, sv_sessions s !! x = Some r ∧ P r = true.

Lemma dead_update (m w : gmap string sessions_row) id n w' n' x :
  update_row now P id n m w = (w', n') → dead (w ∪ m) x → dead (w' ∪ m) x.
Proof.
  unfold update_row. intros Hu (r & Hr & Hd).
  destruct ((w ∪ m) !! id) as [y|] eqn:Hy; [|by simplify_eq; exists r].
  destruct (P y && live_row y) eqn:Hb; [|by simplify_eq; exists r].
  injection Hu as <- <-. rewrite <- insert_union_l.
  destruct (decide (x = id)) as [->|?].
  - exists (row_revoke now y). by rewrite lookup_insert_eq.
  - exists r. by rewrite lookup_insert_ne.
Qed.

(** The row that was visited is dead. *)
Lemma visited_dead (m w : gmap string sessions_row) id n w' n' r :
  update_row now P id n m w = (w', n') → m !! id = Some r → P r = true → revs m w →
  dead (w' ∪ m) id.
Proof.
  intros Hu Hr HPr Hw. unfold update_row in Hu.
  assert (∃ y, (w ∪ m) !! id = Some y ∧ P y = true) as (y & Hy & HPy).
  { rewrite lookup_union, Hr. destruct (w !! id) as [y|] eqn:Hy; simpl; [|by exists r].
    exists y. split; [done|]. destruct (Hw _ _ Hy) as (s0 & t & ? & _ & ->). simplify_eq. by rewrite HP. }
  rewrite Hy, HPy in Hu. simpl in Hu. unfold live_row in Hu.
  case_bool_decide as Hl; injection Hu as <- <-.
  - exists (row_revoke now y). by rewrite <- insert_union_l, lookup_insert_eq.
  - by exists y.
Qed.

Ltac same_state :=
  repeat match goal with
  | H1 : a_txn ?a = _, H2 : a_txn ?a = _ |- _ => rewrite H1 in H2; simplify_eq
  | H1 : a_scan ?a = _, H2 : a_scan ?a = _ |- _ => rewrite H1 in H2; simplify_eq
  end.

Lemma progress_act X s a a' :
  rc_inv s → sv_active s !! i = Some a → txn_act s i a a' →
  concerned X s → progress X s → progress X (server_act i a' s).
Proof.
  intros HI Hi Hact HX Hpr.
  assert (∀ b, sv_active (server_act i b s) !! i = Some b) as Hnew by (intros b; apply lookup_insert_eq).
  destruct Hpr as [b Hb Ht Hs|b ids n Hb Ht Hs Hin|b Hb Ht _|_ Hb _]; [..|congruence];
    rewrite Hi in Hb; injection Hb as <-.
  - inversion Hact as [? ? ? ids Ht' _ Hids| | | | |]; subst; same_state.
    eapply (pr_visiting _ _ _ ids 0); [apply Hnew|by simpl..|]. intros x Hx.
    destruct (HX x Hx) as (r & Hr & HPr). unfold seen. simpl.
    pose proof (ri_running _ HI _ _ Hi) as Hrun. rewrite Ht, Hs in Hrun.
    assert (revs (sv_sessions s) (a_writes a)) as Hw by by inversion Hrun.
    assert (∃ y, seen s a !! x = Some y ∧ P y = true) as (y & Hy & HPy).
    { unfold seen. rewrite lookup_union, Hr.
      destruct (a_writes a !! x) as [y|] eqn:Hy; simpl; [|by exists r].
      exists y. split; [done|]. destruct (Hw _ _ Hy) as (s0 & t & ? & _ & ->). simplify_eq. by rewrite HP. }
    destruct (s_revoked_at y) eqn:Hl; [right; exists y; split; [done|congruence]|left].
    rewrite Hids. unfold targets. apply list_elem_of_fmap. exists (x, y). split; [done|].
    apply elem_of_map_to_list, map_lookup_filter_Some. split; [done|]. simpl.
    rewrite HPy. unfold live_row. by rewrite bool_decide_true.
  - pose proof (ri_running _ HI _ _ Hi) as Hrun. rewrite Ht in Hrun.
    assert (revs (sv_sessions s) (a_writes a)) as Hw by by inversion Hrun.
    inversion Hact as [|? ? ? id ids' n1 w n' Ht' Hs' _ Hu|? ? ? n1 Ht' Hs'| | |]; subst; same_state.
    + eapply (pr_visiting _ _ _ ids' n'); [apply Hnew|by simpl..|]. intros x Hx.
      destruct (HX x Hx) as (r & Hr & HPr). unfold seen. simpl.
      destruct (Hin x Hx) as [[->|?]%elem_of_cons|Hd]; [right|by left|right; by eapply dead_update].
      by eapply visited_dead.
    + eapply pr_updated; [apply Hnew|simpl; apply Hk|]. intros x Hx.
      destruct (Hin x Hx) as [[]%elem_of_nil|Hd]. exact Hd.
  - inversion Hact; subst; same_state.
Qed.
Lemma dead_stable (c w w' : gmap string sessions_row) x :
  shape c w' → dead (w ∪ c) x → dead (w ∪ (w' ∪ c)) x.
Proof.
  intros Hw' (r & Hr & Hd). unfold dead. rewrite (lookup_union w (w' ∪ c)).
  apply lookup_union_Some_raw in Hr as [Hr|[Hn Hr]].
  - rewrite Hr. exists r. split; [|done]. by destruct ((w' ∪ c) !! x).
  - rewrite Hn. destruct (shape_kept _ _ Hw' _ _ Hr) as (r' & Hr' & Hor). rewrite Hr'.
    exists r'. split; [done|]. by destruct Hor as [->|[t ->]].
Qed.

Lemma concerned_end X s w j r :
  shape (sv_sessions s) w → concerned X s → concerned X (server_end j w r s).
Proof.
  intros Hw HX x Hx. destruct (HX x Hx) as (y & Hy & HPy).
  destruct (shape_kept _ _ Hw _ _ Hy) as (y' & Hy' & Hor). exists y'. split; [done|].
  destruct Hor as [->|[t ->]]; [done|by rewrite HP].
Qed.

Lemma progress_other X s w j r :
  j ≠ i → shape (sv_sessions s) w → progress X s → progress X (server_end j w r s).
Proof.
  intros Hj Hw Hpr.
  assert (sv_active (server_end j w r s) !! i = sv_active s !! i) as Ha by by apply lookup_delete_ne.
  assert (sv_done (server_end j w r s) !! i = sv_done s !! i) as Hdn by by apply lookup_insert_ne.
  destruct Hpr as [b Hb Ht Hs|b ids n Hb Ht Hs Hin|b Hb Ht Hd|Hd Hb Hx].
  - eapply pr_begun; [by rewrite Ha|done..].
  - eapply pr_visiting; [by rewrite Ha|done..|]. intros x Hx.
    destruct (Hin x Hx); [by left|right]. by apply dead_stable.
  - eapply pr_updated; [by rewrite Ha|done|]. intros x Hx. by apply dead_stable, Hd.
  - apply pr_ended; [by rewrite Hdn|by rewrite Ha|]. rewrite Hdn. intros Hok x HXx.
    specialize (Hx Hok x HXx). rewrite <- (left_id_L ∅ (∪) (sv_sessions s)) in Hx.
    apply (dead_stable _ _ w) in Hx; [|done]. by rewrite (left_id_L ∅ (∪)) in Hx.
Qed.

(** The end of a transaction: its rows, or nothing, are committed. *)
Lemma progress_end X s j a w r :
  sv_active s !! j = Some a → shape (sv_sessions s) w → txn_ends a w r →
  progress X s → progress X (server_end j w r s).
Proof.
  intros Hj Hw He Hpr. destruct (decide (j = i)) as [->|Hne]; [|by apply progress_other].
  apply pr_ended; simpl; [rewrite lookup_insert_eq; by eexists|by apply lookup_delete_eq|].
  rewrite lookup_insert_eq. intros [= ->] x Hx. inversion He as [? b Ht| |]; subst.
  destruct Hpr as [c Hc Ht' _|c ids n Hc Ht' _ _|c Hc Ht' Hd|_ Hc _]; simplify_eq; same_state.
  by apply Hd.
Qed.

Lemma progress_step X s s' :
  rc_inv s → rc_step engine_txn s s' → concerned X s → progress X s →
  concerned X s' ∧ progress X s'.
Proof.
  intros HI HS HX Hpr.
  destruct HS as [j t Hj Hd Ht|j a a' Hj Hact|j a w r Hj He].
  - split; [done|].
    assert (j ≠ i) as Hne by (intros ->; destruct Hpr; [congruence..|by rewrite Hd in *; destruct_and?; inversion H0]).
    assert (sv_active (server_begin j t s) !! i = sv_active s !! i) as Ha by by apply lookup_insert_ne.
    destruct Hpr; [eapply pr_begun|eapply pr_visiting|eapply pr_updated|apply pr_ended];
      rewrite ?Ha; try done.
  - split; [done|]. destruct (decide (j = i)) as [->|Hne]; [by eapply progress_act|].
    assert (sv_active (server_act j a' s) !! i = sv_active s !! i) as Ha by by apply lookup_insert_ne.
    destruct Hpr; [eapply pr_begun|eapply pr_visiting|eapply pr_updated|apply pr_ended];
      rewrite ?Ha; try done.
  - destruct (ends_shape _ _ _ _ _ HI Hj He) as [Hw _].
    split; [by apply concerned_end|by eapply progress_end].
Qed.

Lemma progress_steps X s s' :
  rc_inv s → rtc (rc_step engine_txn) s s' → concerned X s → progress X s →
  concerned X s' ∧ progress X s'.
Proof.
  intros HI HS. induction HS as [s|s s1 s2 Hst _ IH]; [done|]. intros HX Hpr.
  destruct (progress_step _ _ _ HI Hst HX Hpr). destruct (rc_inv_step _ _ HI Hst). auto.
Qed.

(** What was there when the revocation began is dead once it succeeded. *)
Lemma bulk_covers s s' :
  rc_inv s → sv_active s !! i = None → sv_done s !! i = None →
  engine_txn s (TUpdate now P k) →
  rtc (rc_step engine_txn) (server_begin i (TUpdate now P k) s) s' → sv_done s' !! i = Some (Ok ()) →
  ∀ x r, sv_sessions s !! x = Some r → P r = true → dead (sv_sessions s') x.
Proof.
  intros HI Ha Hd Ht HS Hok x r Hr HPr.
  set (X := λ x, ∃ r, sv_sessions s !! x = Some r ∧ P r = true).
  destruct (rc_inv_step s (server_begin i (TUpdate now P k) s) HI) as [HI1 _]; [by apply rc_begin|].
  destruct (progress_steps X _ _ HI1 HS) as [_ Hpr].
  - intros y Hy. exact Hy.
  - eapply pr_begun; [apply lookup_insert_eq|done..].
  - destruct (rc_inv_steps _ _ HI1 HS) as [HI2 _].
    destruct Hpr as [a Ha'|a ? ? Ha'|a Ha'|_ _ Hx]; [..|apply Hx; [done|by exists r]].
    all: apply (ri_open _ HI2) in Ha'; congruence.
Qed.

End covers.

(** A revocation reaches what was there when it began. Whatever transactions
    overlap with it, once RevokeFamily or RevokeAllForUser has answered without an
    error, every session of the family or the user that was committed when it began
    is revoked, and stays so. *)
Theorem revocation_covers_begun `{Postgres} s0 s s' i t f now k x :
  at_rest s0 → rtc (rc_step engine_txn) s0 s →
  sv_active s !! i = None → sv_done s !! i = None →
  t = RevokeFamily_txn f now ∧ pg_uuid_in f = Some (Session_FamilyID x) ∨
    t = RevokeAllForUser_txn f now ∧ pg_uuid_in f = Some (Session_UserID x) →
  rtc (rc_step engine_txn) (server_begin i t s) s' → sv_done s' !! i = Some (Ok ()) →
  table s !! k = Some x → ∃ y, table s' !! k = Some y ∧ ¬ live y.
Proof.
  intros Hs0 HS Ha Hd Ht HS' Hok (r & <- & Hr)%lookup_fmap_Some.
  destruct (rc_inv_steps _ _ (at_rest_inv _ Hs0) HS) as [HI _].
  assert (dead (sv_sessions s') k) as (y & Hy & Hl).
  { destruct Ht as [[-> Hf]|[-> Hf]]; simpl in Hf;
      [pose proof (ask_revoke_family s f now) as Hask|pose proof (ask_revoke_all s f now) as Hask];
      unfold RevokeFamily_txn, RevokeAllForUser_txn in *; rewrite Hf in *;
      (eapply bulk_covers; [| |exact HI|done..|by apply bool_decide_eq_true]); done. }
  exists (view_session y). split; [by unfold table; rewrite lookup_fmap, Hy|done].
Qed.

Section race.
#[local] Existing Instance sample_pg.

(** Alice's family "s1", opened at time 10 and live. *)
Definition alice_row : sessions_row :=
  mkSessionsRow "s1" "s1" "alice" "hash1" (Some "203.0.113.7") (Some "curl") 10 None.

Definition server0 : Server := mkServer {["alice"]} {["s1" := alice_row]} ∅ ∅.

(** Transaction 1 exchanges the token of "s1" for that of "s2". *)
Definition exchange : Txn :=
  RotateToken_txn "s1" (new_Session "s2" "s1" "alice" "hash2" "203.0.113.7" "curl") 20.

(** The exchange locks "s1"; transaction 0, a revocation, begins, finds "s1" and waits
    for it; the exchange inserts "s2" and commits; the revocation goes on. *)
Definition race_start (revocation : Txn) : Server :=
  server_begin 0 revocation (server_run [1; 1]%nat (server_begin 1 exchange server0)).
Definition race_end (revocation : Txn) : Server :=
  server_run [0; 0; 1; 1; 1; 0; 0; 0]%nat (race_start revocation).

Lemma server0_at_rest : at_rest server0.
Proof.
  split; [done|]. assert (table server0 = <["s1" := view_session alice_row]> ∅) as -> by by vm_compute.
  eapply machine_inv_step; [apply machine_inv_empty|]. by apply step_login.
Qed.

Lemma exchange_steps :
  rtc (rc_step engine_txn) server0 (server_run [1; 1]%nat (server_begin 1 exchange server0)).
Proof.
  eapply rtc_l; [|apply server_run_steps]. apply rc_begin; [done..|].
  by apply (ask_rotate _ _ "s1" alice_row).
Qed.

Lemma race_steps revocation :
  (∀ s, engine_txn s revocation) → rtc (rc_step engine_txn) server0 (race_end revocation).
Proof.
  intros Hr. etrans; [apply exchange_steps|]. eapply rtc_l; [|apply server_run_steps].
  apply rc_begin; [by vm_compute..|apply Hr].
Qed.

Definition revocations : list Txn := [RevokeFamily_txn "s1" 30; RevokeAllForUser_txn "alice" 30].

(** C17: a revocation can miss a session. At READ COMMITTED, a RevokeFamily (what
    Rotate does about a reused token) or a RevokeAllForUser (LogoutAll, a change of
    password) that overlaps with an exchange of a token of the family can succeed
    and leave the successor live: its UPDATE began before the successor was
    committed, and the row it waited for is revoked already. *)
Theorem read_committed_revocation_race :
  Forall (λ revocation,
    let s := race_end revocation in
    rtc (rc_step engine_txn) server0 s ∧ sv_active s = ∅ ∧
    sv_done s !! 0%nat = Some (Ok ()) ∧ sv_done s !! 1%nat = Some (Ok ()) ∧
    ∃ x, table s !! "s2" = Some x ∧ live x ∧
      Session_FamilyID x = "s1" ∧ Session_UserID x = "alice") revocations.
Proof.
  repeat apply Forall_cons_2; [..|by apply Forall_nil_2].
  all: split; [apply race_steps; intros s; by constructor|].
  all: split_and!; [by vm_compute..|].
  all: eexists; split_and!; [by vm_compute|done..].
Qed.

(** ** Instances *)

Lemma read_committed_refines_machine_witness :
  machine_inv (table (race_end (RevokeFamily_txn "s1" 30))).
Proof.
  refine (proj1 (proj2 (read_committed_refines_machine server0 server0 _ server0_at_rest _ _))).
  - apply rtc_refl.
  - apply race_steps. intros s. by constructor.
Defined.

Lemma revocation_covers_begun_witness :
  ∃ y, table (race_end (RevokeFamily_txn "s1" 30)) !! "s1" = Some y ∧ ¬ live y.
Proof.
  refine (revocation_covers_begun server0 _ _ 0 (RevokeFamily_txn "s1" 30) "s1" 30 "s1"
    (view_session alice_row) server0_at_rest exchange_steps _ _ _ _ _ _).
  - by vm_compute.
  - by vm_compute.
  - left. split; reflexivity.
  - apply server_run_steps.
  - by vm_compute.
  - by vm_compute.
Defined.

End race.
