(* ===== verification/ReadCommittedSerial.v ===== *)
(** * The two models of the session store agree (store/postgres/session_store.go)

    Postgres.v runs a call as one action, ReadCommitted.v statement by statement
    among others. Where no other transaction is under way and no round trip fails,
    the transaction of a call ends with the answer and the rows of the action. *)
From S2P Require Import Prelude Errors Runtime Store Postgres PostgresContract ReadCommitted.
From S2P Require Import World Sample Fixtures PgFixtures.

Notation nobody := (λ (_ : Server) (_ : Txn), False).

(** The server with the rows of [h] and one transaction. *)
Definition serving (h : PgHeap) (a : Active) : Server :=
  mkServer (dom (pg_users h)) (pg_sessions h) {[0%nat := a]} ∅.

(** [t], alone, ends with the answer [r] and the sessions of [h']. *)
Definition alone (h : PgHeap) (a : Active) (r : result ()) (h' : PgHeap) : Prop :=
  rtc (rc_step nobody) (serving h a) (mkServer (dom (pg_users h)) (pg_sessions h') ∅ {[0%nat := r]}).

Section alone.
Context (h : PgHeap).

Notation c := (pg_sessions h).

Lemma alone_act a a' r h' : txn_act (serving h a) 0 a a' → alone h a' r h' → alone h a r h'.
Proof.
  intros Hact Ha. eapply rtc_l; [|exact Ha].
  assert (serving h a' = server_act 0 a' (serving h a)) as ->.
  { unfold serving, server_act. simpl. by rewrite insert_singleton_eq. }
  eapply rc_act; [apply lookup_singleton_eq|done].
Qed.

Lemma alone_end (w : gmap string sessions_row) sc r (b : bool) h' :
  pg_sessions h' = (if b then w ∪ c else c) → alone h (mkActive w sc (TEnd r b)) r h'.
Proof.
  intros Hh. eapply rtc_l; [|apply rtc_refl].
  assert (mkServer (dom (pg_users h)) (pg_sessions h') ∅ {[0%nat := r]} =
    server_end 0 (if b then w else ∅) r (serving h (mkActive w sc (TEnd r b)))) as ->.
  { unfold server_end, serving. simpl. rewrite delete_singleton_eq, insert_empty, Hh.
    destruct b; [done|]. by rewrite (left_id_L ∅ (∪)). }
  apply (rc_end _ _ 0 (mkActive w sc (TEnd r b))); [apply lookup_singleton_eq|].
  by apply (end_answered (mkActive w sc (TEnd r b))).
Qed.

Lemma alone_unlocked a id : ¬ locked (serving h a) 0 id.
Proof. intros (j & b & Hb & Hj & _). simpl in Hb. apply lookup_singleton_Some in Hb. naive_solver. Qed.

Lemma alone_key_free a row : ¬ key_pending (serving h a) 0 row.
Proof. intros (j & b & Hb & Hj & _). simpl in Hb. apply lookup_singleton_Some in Hb. naive_solver. Qed.

(** The rows of an UPDATE, visited one after the other. *)
Lemma alone_visits now P k ids w n r h' :
  NoDup ids →
  (∀ id, id ∈ ids → w !! id = None ∧ ∃ x, c !! id = Some x ∧ P x = true ∧ live_row x = true) →
  (∀ w', (∀ id, w' !! id = if decide (id ∈ ids) then row_revoke now <$> c !! id else w !! id) →
     alone h (mkActive w' None (k (n + Z.of_nat (length ids)))) r h') →
  alone h (mkActive w (Some (ids, n)) (TUpdate now P k)) r h'.
Proof.
  revert w n. induction ids as [|id ids IH]; intros w n Hnd Hids Hend.
  - eapply alone_act; [by eapply act_updated|]. simpl.
    replace n with (n + Z.of_nat (length (@nil string))) by (simpl; lia). by apply Hend.
  - apply NoDup_cons in Hnd as [Hni Hnd].
    destruct (Hids id) as (Hw & x & Hx & HP & Hl); [by left|].
    eapply alone_act.
    { eapply (act_row _ _ _ now P k id ids n (<[id := row_revoke now x]> w) (n + 1));
        [done..|apply alone_unlocked|]. unfold update_row. simpl.
      by rewrite lookup_union_r, Hx, HP, Hl by done. }
    simpl. apply IH; [done|..].
    + intros y Hy. rewrite lookup_insert_ne by (intros ->; done). apply Hids. by right.
    + intros w' Hw'. replace (n + 1 + Z.of_nat (length ids)) with
        (n + Z.of_nat (length (id :: ids))) by (simpl; lia).
      apply Hend. intros y. rewrite Hw'. destruct (decide (y = id)) as [->|Hne].
      * rewrite decide_False, lookup_insert_eq, Hx by done.
        rewrite decide_True by by left. done.
      * rewrite lookup_insert_ne by done. repeat case_decide; set_solver.
Qed.

Definition revoke_if (now : time) (P : sessions_row → bool) (s : sessions_row) : sessions_row :=
  if P s && live_row s then row_revoke now s else s.

Lemma elem_of_targets P (m : gmap string sessions_row) id :
  id ∈ targets P m ↔ ∃ x, m !! id = Some x ∧ P x = true ∧ live_row x = true.
Proof.
  unfold targets. rewrite list_elem_of_fmap. split.
  - intros ([i x] & -> & [? [? ?]%andb_true_iff]%elem_of_map_to_list%map_lookup_filter_Some). by exists x.
  - intros (x & ? & HP & Hl). exists (id, x). split; [done|].
    apply elem_of_map_to_list, map_lookup_filter_Some. simpl. by rewrite HP, Hl.
Qed.

(** An UPDATE on its own changes every row at once. *)
Lemma alone_update now P k r h' :
  (∀ w, w ∪ c = revoke_if now P <$> c →
     alone h (mkActive w None (k (Z.of_nat (length (targets P c))))) r h') →
  alone h (mkActive ∅ None (TUpdate now P k)) r h'.
Proof.
  intros Hend. eapply alone_act.
  { eapply (act_scan _ _ _ now P k (targets P c)); [done..|]. unfold seen. simpl.
    by rewrite (left_id_L ∅ (∪)). }
  simpl. apply alone_visits.
  - unfold targets. apply NoDup_fst_map_to_list.
  - intros id (x & ?)%elem_of_targets. split; [apply lookup_empty|by exists x].
  - intros w Hw. apply Hend. apply map_eq. intros id.
    rewrite lookup_union, lookup_fmap, Hw, lookup_empty.
    destruct (decide (id ∈ targets P c)) as [(x & Hx & HP & Hl)%elem_of_targets|Hn].
    + rewrite Hx. unfold revoke_if. simpl. by rewrite HP, Hl.
    + destruct (c !! id) as [x|] eqn:Hx; [|done]. simpl. unfold revoke_if.
      destruct (P x) eqn:HP, (live_row x) eqn:Hl; try done.
      exfalso. apply Hn, elem_of_targets. by exists x.
Qed.

(** An INSERT, with the rows [w] written before it. *)
Lemma alone_insert w row k r h' :
  alone h (if key_taken (w ∪ c) row then
      mkActive w None (k (sql_error "pq: duplicate key value violates unique constraint"))
    else if decide (s_user_id row ∈ dom (pg_users h)) then
      mkActive (<[s_id row := row]> w) None (k (Ok ()))
    else
      mkActive w None (k (sql_error "pq: insert or update violates foreign key constraint"))) r h' →
  alone h (mkActive w None (TInsert row k)) r h'.
Proof.
  intros Ha. destruct (key_taken (w ∪ c) row) eqn:Hk; [|case_decide];
    eapply alone_act; try exact Ha; econstructor; try done; apply alone_key_free.
Qed.

End alone.

(** ** The calls *)

Section serial.
Context `{Env, Postgres}.
Context (Hcalm : ∀ n, env_db_fault n = NoFault).
Context (h : PgHeap) (Hinv : pg_inv h) (a : Amb).

Notation c := (pg_sessions h).
Notation now := (env_db_now (amb_step a)).

Lemma filed_row k s : c !! k = Some s → s_id s = k.
Proof. intros Hk. by destruct (pg_inv_sessions h Hinv _ _ Hk). Qed.

Lemma calm_run {A} (stmt : Stmt A) :
  ∃ a', db_run stmt (h, a) = ((stmt now (amb_step a) h).1, ((stmt now (amb_step a) h).2, a')).
Proof.
  unfold db_run, event. rewrite Hcalm. eexists. by destruct (stmt _ _ h).
Qed.

(** A revocation by ID finds its row, or none. *)
Lemma revoke_id id :
  (∃ s, c !! id = Some s ∧ s_revoked_at s = None ∧ length (targets (has_id id) c) ≠ 0%nat ∧
    revoke_if now (has_id id) <$> c = <[id := row_revoke now s]> c) ∨
  (∀ s, c !! id = Some s → s_revoked_at s ≠ None) ∧ length (targets (has_id id) c) = 0%nat ∧
    revoke_if now (has_id id) <$> c = c.
Proof.
  assert (∀ k s, k ≠ id → c !! k = Some s → revoke_if now (has_id id) s = s) as Hother.
  { intros k s Hne Hs. unfold revoke_if, has_id. rewrite bool_decide_false; [done|].
    by rewrite (filed_row k s Hs). }
  destruct (c !! id) as [s|] eqn:Hs; [destruct (s_revoked_at s) as [t|] eqn:Hl|].
  - right. split; [intros ? [= <-]; congruence|]. split.
    + apply length_zero_iff_nil, elem_of_nil_inv. intros k (x & Hx & Hid%bool_decide_eq_true & Hlx%bool_decide_eq_true)%elem_of_targets.
      apply filed_row in Hx as Hk. congruence.
    + apply map_eq. intros k. rewrite lookup_fmap. destruct (c !! k) as [x|] eqn:Hx; [|done]. simpl.
      destruct (decide (k = id)) as [->|]; [|by erewrite Hother]. simplify_eq.
      unfold revoke_if, live_row. rewrite Hl, andb_false_r. done.
  - left. exists s. split_and!; [done..| |].
    + intros Hz%length_zero_iff_nil. apply (not_elem_of_nil id). rewrite <- Hz.
      apply elem_of_targets. exists s. unfold has_id, live_row. rewrite (filed_row _ _ Hs), Hl.
      by rewrite !bool_decide_true.
    + apply map_eq. intros k. rewrite lookup_fmap. destruct (decide (k = id)) as [->|Hne].
      * rewrite Hs, lookup_insert_eq. simpl. unfold revoke_if, has_id, live_row.
        rewrite (filed_row _ _ Hs), Hl. by rewrite !bool_decide_true.
      * rewrite lookup_insert_ne by done. destruct (c !! k) eqn:Hk; [|done]. simpl. by erewrite Hother.
  - right. split; [done|]. split.
    + apply length_zero_iff_nil, elem_of_nil_inv. intros k (x & Hx & Hid%bool_decide_eq_true & _)%elem_of_targets.
      apply filed_row in Hx as Hk. congruence.
    + apply map_eq. intros k. rewrite lookup_fmap. destruct (c !! k) as [x|] eqn:Hx; [|done]. simpl.
      destruct (decide (k = id)) as [->|]; [congruence|]. by erewrite Hother.
Qed.

(** An INSERT after the rows [w], as [insert_session] on the tables with [w]. *)
Lemma serial_insert sess w h1 r h2 (k : result () → Txn) res h' :
  pg_users h1 = pg_users h → pg_sessions h1 = w ∪ c → insert_session sess now h1 = (r, h2) →
  (∀ w2, pg_sessions h2 = w2 ∪ c → alone h (mkActive w2 None (k r)) res h') →
  alone h (mkActive w None (insert_sessions sess now k)) res h'.
Proof.
  intros Hu Hs. unfold insert_session, insert_sessions, uuid_param, text_params, bad_uuid.
  destruct (pg_uuid_in (Session_ID sess)) as [id|]; [|by intros [= <- <-] Hk; apply Hk].
  destruct (pg_uuid_in (Session_FamilyID sess)) as [f|]; [|by intros [= <- <-] Hk; apply Hk].
  destruct (pg_uuid_in (Session_UserID sess)) as [u|]; [|by intros [= <- <-] Hk; apply Hk].
  destruct (forallb _ _); [|by intros [= <- <-] Hk; apply Hk].
  intros Hi Hk. apply alone_insert. revert Hi. unfold key_taken. simpl. rewrite Hs, Hu.
  destruct (bool_decide (is_Some ((w ∪ c) !! id)) || _); [by intros [= <- <-]; apply Hk|].
  destruct (decide (u ∈ dom (pg_users h))) as [Hd%elem_of_dom|Hd].
  - rewrite bool_decide_true by done. intros [= <- <-]. apply Hk. simpl.
    by rewrite insert_union_l.
  - rewrite elem_of_dom in Hd. rewrite bool_decide_false by done. intros [= <- <-]. by apply Hk.
Qed.

Lemma serial_Create sess r h' a' :
  PgSessionStore_Create sess (h, a) = (r, (h', a')) →
  alone h (mkActive ∅ None (Create_txn sess now)) r h'.
Proof.
  unfold PgSessionStore_Create. destruct (calm_run (λ now _ h, insert_session sess now h)) as [a1 Hrun].
  unfold mbind, St_bind. rewrite Hrun. intros [= <- <- _].
  destruct (insert_session sess now h) as [r h2] eqn:Hi. simpl.
  eapply serial_insert; [done|by rewrite (left_id_L ∅ (∪))|exact Hi|].
  intros w2 Hw2. by apply alone_end.
Qed.

Lemma serial_Revoke id r h' a' :
  PgSessionStore_Revoke id (h, a) = (r, (h', a')) →
  alone h (mkActive ∅ None (Revoke_txn id now)) r h'.
Proof.
  unfold PgSessionStore_Revoke. destruct (calm_run (λ now _ h, revoke_session id now h)) as [a1 Hrun].
  unfold mbind, St_bind. rewrite Hrun. intros [= <- <- _].
  unfold revoke_session, uuid_param, Revoke_txn. destruct (pg_uuid_in id) as [k|]; simpl.
  2:{ apply alone_end. by rewrite (left_id_L ∅ (∪)). }
  apply alone_update. intros w Hw.
  destruct (revoke_id k) as [(s & Hs & Hl & Hn & Heq)|(Hno & Hn & Heq)]; rewrite Heq in Hw.
  - rewrite Hs, (bool_decide_true (s_revoked_at s = None)) by done. simpl.
    rewrite bool_decide_false by lia. by apply alone_end.
  - assert (∀ x : result Z * PgHeap, x = (Ok 0, h) → alone h (mkActive w None (autocommit
      (checkRowsAffected (Ok (Z.of_nat (length (targets (has_id k) c))))))) (checkRowsAffected x.1) x.2)
      as Hgo by (intros ? ->; rewrite Hn; by apply alone_end).
    destruct (c !! k) as [s|] eqn:Hs; [|by apply (Hgo (_, _))].
    rewrite (bool_decide_false (s_revoked_at s = None)) by by apply Hno. by apply (Hgo (_, _)).
Qed.

Lemma serial_bulk P r h' :
  (Ok (), revoke_rows P now h) = (r, h') →
  alone h (mkActive ∅ None (TUpdate now P (λ _, autocommit (Ok ())))) r h'.
Proof. intros [= <- <-]. apply alone_update. intros w Hw. by apply alone_end. Qed.

Lemma serial_RevokeFamily f r h' a' :
  PgSessionStore_RevokeFamily f (h, a) = (r, (h', a')) →
  alone h (mkActive ∅ None (RevokeFamily_txn f now)) r h'.
Proof.
  unfold PgSessionStore_RevokeFamily. match goal with |- context [db_run ?stmt] =>
    destruct (calm_run stmt) as [a1 Hrun] end.
  unfold mbind, St_bind. rewrite Hrun. unfold uuid_param, RevokeFamily_txn.
  destruct (pg_uuid_in f) as [k|]; simpl; intros [= <- <- _].
  - by apply serial_bulk.
  - apply alone_end. by rewrite (left_id_L ∅ (∪)).
Qed.

Lemma serial_RevokeAllForUser u r h' a' :
  PgSessionStore_RevokeAllForUser u (h, a) = (r, (h', a')) →
  alone h (mkActive ∅ None (RevokeAllForUser_txn u now)) r h'.
Proof.
  unfold PgSessionStore_RevokeAllForUser. match goal with |- context [db_run ?stmt] =>
    destruct (calm_run stmt) as [a1 Hrun] end.
  unfold mbind, St_bind. rewrite Hrun. unfold uuid_param, RevokeAllForUser_txn.
  destruct (pg_uuid_in u) as [k|]; simpl; intros [= <- <- _].
  - by apply serial_bulk.
  - apply alone_end. by rewrite (left_id_L ∅ (∪)).
Qed.

Lemma serial_RotateToken old sess r h' a' :
  PgSessionStore_RotateToken old sess (h, a) = (r, (h', a')) →
  alone h (mkActive ∅ None (RotateToken_txn old sess now)) r h'.
Proof.
  unfold PgSessionStore_RotateToken, tx_event, event. rewrite !Hcalm. cbn [tx_failed amb_step].
  unfold revoke_session, uuid_param, RotateToken_txn. destruct (pg_uuid_in old) as [k|].
  2:{ intros [= <- <- _]. by apply alone_end. }
  intros Hr. apply alone_update. intros w Hw.
  destruct (revoke_id k) as [(s & Hs & Hl & Hn & Heq)|(Hno & Hn & Heq)]; rewrite Heq in Hw.
  - rewrite Hs, (bool_decide_true (s_revoked_at s = None)) in Hr by done. simpl in Hr.
    unfold checkRowsAffected. rewrite bool_decide_false by lia.
    destruct (insert_session _ _ _) as [ins h2] eqn:Hi.
    eapply serial_insert; [| |exact Hi|]; [done|by rewrite Hw|]. intros w2 Hw2.
    destruct ins as [[]|err].
    + injection Hr as <- <- _. by apply alone_end.
    + injection Hr as <- <- _. by apply alone_end.
  - assert (r = Err ErrNotFound ∧ h' = h) as [-> ->].
    { destruct (c !! k) as [s|] eqn:Hs; simpl in Hr; [|by injection Hr as <- <- _].
      rewrite (bool_decide_false (s_revoked_at s = None)) in Hr by by apply Hno.
      simpl in Hr. by injection Hr as <- <- _. }
    rewrite Hn. by apply alone_end.
Qed.

End serial.

(** The calls of the session store that change rows, in either model. *)
Inductive call : Type :=
| CallCreate (sess : Session)
| CallRevoke (sessionID : string)
| CallRevokeFamily (familyID : string)
| CallRevokeAllForUser (userID : string)
| CallRotateToken (oldSessionID : string) (newSession : Session).

Definition call_action `{Env, Postgres} (c : call) : Op PgHeap (result ()) :=
  match c with
  | CallCreate sess => PgSessionStore_Create sess
  | CallRevoke id => PgSessionStore_Revoke id
  | CallRevokeFamily f => PgSessionStore_RevokeFamily f
  | CallRevokeAllForUser u => PgSessionStore_RevokeAllForUser u
  | CallRotateToken old sess => PgSessionStore_RotateToken old sess
  end.

Definition call_txn `{Postgres} (c : call) (now : time) : Txn :=
  match c with
  | CallCreate sess => Create_txn sess now
  | CallRevoke id => Revoke_txn id now
  | CallRevokeFamily f => RevokeFamily_txn f now
  | CallRevokeAllForUser u => RevokeAllForUser_txn u now
  | CallRotateToken old sess => RotateToken_txn old sess now
  end.

(** C16: the statements of a call, run one after the other on a server that serves
    nobody else and loses no message, do what the call does as one action: the same
    answer, on every branch, and the same rows. *)
Theorem serial_transactions_equal_actions `{Env, Postgres} c h a r h' a' :
  (∀ n, env_db_fault n = NoFault) → pg_inv h →
  call_action c (h, a) = (r, (h', a')) →
  alone h (mkActive ∅ None (call_txn c (env_db_now (amb_step a)))) r h'.
Proof.
  intros Hcalm Hinv. destruct c; simpl; intros Hc.
  - by eapply serial_Create.
  - by eapply serial_Revoke.
  - by eapply serial_RevokeFamily.
  - by eapply serial_RevokeAllForUser.
  - by eapply serial_RotateToken.
Qed.

(** ** Instances *)

Section witnesses.
#[local] Existing Instances sample_env sample_bcrypt sample_jwt sample_pg.

Definition rotate_call : call :=
  CallRotateToken "id10" (new_Session "id99" "id10" alice_id "hash" home "curl").

Definition rotated_heap : PgHeap := (call_action rotate_call (w_store pg_login, w_amb pg_login)).2.1.

Lemma serial_transactions_equal_actions_witness :
  is_Some (pg_sessions rotated_heap !! "id99") ∧
  alone (w_store pg_login) (mkActive ∅ None
    (call_txn rotate_call (env_db_now (amb_step (w_amb pg_login))))) (Ok ()) rotated_heap.
Proof.
  split; [vm_compute; by eexists|].
  refine (serial_transactions_equal_actions rotate_call (w_store pg_login) (w_amb pg_login) _ _
    (call_action rotate_call (w_store pg_login, w_amb pg_login)).2.2 _ _ _).
  - intros n. reflexivity.
  - apply pg_inv_b_sound. vm_compute. reflexivity.
  - vm_compute. reflexivity.
Defined.

End witnesses.
