(* ===== verification/ReadCommittedAtomic.v ===== *)
(** * What a session store promises to callers that overlap

    An atomic server: every call of the session store takes effect at one moment
    between its beginning and its answer, and does then what Postgres.v says the
    call does as one action. Only RevokeFamily and RevokeAllForUser promise less:
    they revoke at one moment the sessions that were there when the call began, and
    perhaps some of those that came since. ReadCommittedLinear.v shows that the
    server of ReadCommitted.v is such a server. *)
From S2P Require Import Prelude Errors Runtime Store Postgres ReadCommitted ReadCommittedSerial.

(** What the callers see: calls begin, with the time of their transaction, and end. *)
Inductive Visible : Type :=
| Begins (i : nat) (c : call) (now : time)
| Ends (i : nat) (r : result ()).

(** ** The atomic server *)

(** A call under way: the sessions there were when it began, and the error it is to
    return if it has failed. *)
Record Pending : Type := mkPending {
  p_call : call;
  p_now : time;
  p_begun : gset string;
  p_error : option error;
}.

Record Atomic : Type := mkAtomic { at_heap : PgHeap; at_pending : gmap nat Pending }.

Section atomic.
Context `{Postgres}.

(** The action of a call at the time [now], whatever else the environment answers,
    as long as it loses no message. *)
Definition performs (c : call) (now : time) (h : PgHeap) (r : result ()) (h' : PgHeap) : Prop :=
  ∀ (E : Env) a, (∀ n, env_db_fault n = NoFault) → env_db_now (amb_step a) = now →
    ∃ a', call_action c (h, a) = (r, (h', a')).

(** The sessions that a bulk revocation is about. *)
Definition bulk_of (c : call) : option (sessions_row → bool) :=
  match c with
  | CallRevokeFamily f => in_family <$> pg_uuid_in f
  | CallRevokeAllForUser u => of_user <$> pg_uuid_in u
  | _ => None
  end.

(** What a call that succeeds may do to the tables. *)
Inductive commits (c : call) (now : time) (begun : gset string) (h : PgHeap) : PgHeap → Prop :=
| commits_action h' : performs c now h (Ok ()) h' → commits c now begun h h'
| commits_bulk P X :
    bulk_of c = Some P → begun ⊆ X →
    commits c now begun h (revoke_rows (λ s, bool_decide (s_id s ∈ X) && P s) now h).

(** Its steps, with what the callers see of them. An answer may be lost, with the
    effect of the call or without. *)
Inductive atomic_step (A : Atomic) : list Visible → Atomic → Prop :=
| at_begins i c now :
    at_pending A !! i = None →
    atomic_step A [Begins i c now]
      (mkAtomic (at_heap A)
        (<[i := mkPending c now (dom (pg_sessions (at_heap A))) None]> (at_pending A)))
| at_fails i p err :
    at_pending A !! i = Some p → p_error p = None →
    performs (p_call p) (p_now p) (at_heap A) (Err err) (at_heap A) →
    atomic_step A []
      (mkAtomic (at_heap A)
        (<[i := mkPending (p_call p) (p_now p) (p_begun p) (Some err)]> (at_pending A)))
| at_returns i p err :
    at_pending A !! i = Some p → p_error p = Some err →
    atomic_step A [Ends i (Err err)] (mkAtomic (at_heap A) (delete i (at_pending A)))
| at_commits i p h' r :
    at_pending A !! i = Some p → p_error p = None →
    commits (p_call p) (p_now p) (p_begun p) (at_heap A) h' →
    r = Ok () ∨ (∃ msg, r = Err (ErrExternal msg)) →
    atomic_step A [Ends i r] (mkAtomic h' (delete i (at_pending A)))
| at_aborts i p msg :
    at_pending A !! i = Some p →
    atomic_step A [Ends i (Err (ErrExternal msg))]
      (mkAtomic (at_heap A) (delete i (at_pending A))).

Inductive atomic_history : Atomic → list Visible → Atomic → Prop :=
| ah_nil A : atomic_history A [] A
| ah_step A l A1 k A2 :
    atomic_history A l A1 → atomic_step A1 k A2 → atomic_history A (l ++ k) A2.

(** ** What the callers see of the server of ReadCommitted.v *)

Definition server_of (h : PgHeap) : Server := mkServer (dom (pg_users h)) (pg_sessions h) ∅ ∅.

Inductive server_history (s0 : Server) : list Visible → Server → Prop :=
| sh_start : server_history s0 [] s0
| sh_begins l s i c now :
    server_history s0 l s → sv_active s !! i = None → sv_done s !! i = None →
    engine_txn s (call_txn c now) →
    server_history s0 (l ++ [Begins i c now]) (server_begin i (call_txn c now) s)
| sh_acts l s i a a' :
    server_history s0 l s → sv_active s !! i = Some a → txn_act s i a a' →
    server_history s0 l (server_act i a' s)
| sh_ends l s i a w r :
    server_history s0 l s → sv_active s !! i = Some a → txn_ends a w r →
    server_history s0 (l ++ [Ends i r]) (server_end i w r s).

(** Every run of the server has such a history. *)
Lemma history_of_run s0 s : rtc (rc_step engine_txn) s0 s → ∃ l, server_history s0 l s.
Proof.
  revert s. apply rtc_ind_r; [eexists; constructor|]. intros s s1 _ Hst [l Hl].
  destruct Hst as [i t Hi Hd Ht|i a a' Hi Hact|i a w r Hi He].
  - assert (∃ c now, t = call_txn c now) as (c & now & ->).
    { destruct Ht as [sess now _|old k so sess now _ _ _ _|id now|f now|u now];
        [by exists (CallCreate sess), now|by exists (CallRotateToken old sess), now|
         by exists (CallRevoke id), now|by exists (CallRevokeFamily f), now|
         by exists (CallRevokeAllForUser u), now]. }
    eexists. by eapply sh_begins.
  - eexists. by eapply sh_acts.
  - eexists. by eapply sh_ends.
Qed.

(** ** The actions, branch by branch *)

Definition insert_row (row : sessions_row) (h : PgHeap) : result () * PgHeap :=
  if key_taken (pg_sessions h) row then violates h
  else if bool_decide (is_Some (pg_users h !! s_user_id row)) then
    (Ok (), pg_set_sessions (<[s_id row := row]> (pg_sessions h)) h)
  else violates_fk h.

Definition inserts (sess : Session) (now : time) (row : sessions_row) : Prop :=
  s_revoked_at row = None ∧ ∀ h, insert_session sess now h = insert_row row h.

(** An INSERT is refused for its parameters, or is about a row. *)
Lemma insert_sessions_cases sess now :
  (∃ err, (∀ k, insert_sessions sess now k = k (Err err)) ∧
    ∀ h, insert_session sess now h = (Err err, h)) ∨
  ∃ row, (∀ k, insert_sessions sess now k = TInsert row k) ∧ inserts sess now row.
Proof.
  unfold inserts, insert_sessions, insert_session, uuid_param, text_params, bad_uuid, sql_error.
  destruct (pg_uuid_in (Session_ID sess)) as [id|]; [|left; by eexists].
  destruct (pg_uuid_in (Session_FamilyID sess)) as [f|]; [|left; by eexists].
  destruct (pg_uuid_in (Session_UserID sess)) as [u|]; [|left; by eexists].
  destruct (forallb _ _); [|left; by eexists]. right. by eexists.
Qed.

Lemma performs_Create sess now h r h' :
  insert_session sess now h = (r, h') → performs (CallCreate sess) now h r h'.
Proof.
  intros Hi E a Hcalm <-. simpl. unfold PgSessionStore_Create.
  destruct (calm_run Hcalm h a (λ now _ h, insert_session sess now h)) as [a' Hrun].
  unfold mbind, St_bind. rewrite Hrun, Hi. by eexists.
Qed.

Lemma performs_Revoke id now h n h' :
  revoke_session id now h = (n, h') → performs (CallRevoke id) now h (checkRowsAffected n) h'.
Proof.
  intros Hi E a Hcalm <-. simpl. unfold PgSessionStore_Revoke.
  destruct (calm_run Hcalm h a (λ now _ h, revoke_session id now h)) as [a' Hrun].
  unfold mbind, St_bind. rewrite Hrun, Hi. by eexists.
Qed.

Lemma performs_bulk_bad c now h :
  (∃ f, c = CallRevokeFamily f ∧ pg_uuid_in f = None) ∨
    (∃ u, c = CallRevokeAllForUser u ∧ pg_uuid_in u = None) →
  performs c now h bad_uuid h.
Proof.
  intros Hc E a Hcalm <-. destruct Hc as [(f & -> & Hf)|(u & -> & Hu)]; simpl;
    unfold PgSessionStore_RevokeFamily, PgSessionStore_RevokeAllForUser;
    match goal with |- context [db_run ?stmt] =>
      destruct (calm_run Hcalm h a stmt) as [a' Hrun] end;
    unfold mbind, St_bind; rewrite Hrun; unfold uuid_param; rewrite ?Hf, ?Hu; by eexists.
Qed.

Lemma performs_Rotate old sess now h n h1 :
  revoke_session old now h = (n, h1) →
  (∀ err, checkRowsAffected n = Err err →
    performs (CallRotateToken old sess) now h (Err err) h) ∧
  (∀ r h2, checkRowsAffected n = Ok () → insert_session sess now h1 = (r, h2) →
    performs (CallRotateToken old sess) now h r (match r with Ok _ => h2 | Err _ => h end)).
Proof.
  intros Hr. split; [intros err Hn E a Hcalm <-|intros r h2 Hn Hi E a Hcalm <-]; simpl;
    unfold PgSessionStore_RotateToken, tx_event, event; rewrite !Hcalm;
    cbn [tx_failed amb_step]; rewrite Hr, Hn; [by eexists|].
  cbn [tx_failed amb_step]. rewrite Hi. destruct r as [[]|err]; by eexists.
Qed.

End atomic.
