(* ===== verification/ReadCommittedStages.v ===== *)
(** * Where the transactions of the session store stand

    For a call under way on the server of ReadCommitted.v, [stage] says what its
    commit would do and [failing] that it will not commit. Others' commits change
    neither; each statement takes the call on to the next stage, or shows at that
    moment the reason for which it fails; and what a call that is ready commits is
    the effect of its action on the tables at that moment (ReadCommittedAtomic.v). *)
From S2P Require Import Prelude Errors Runtime Store StoreSpec SessionMachine Postgres.
From S2P Require Import PostgresContract ReadCommitted ReadCommittedTheorems ReadCommittedSerial.
From S2P Require Import ReadCommittedAtomic.

(** ** Where a transaction stands *)

(** The WHERE clause names one row: a Revoke, or the first half of a rotation. *)
Inductive by_id `{Postgres} : call → time → string → (Z → Txn) → Prop :=
| by_revoke id now k :
    pg_uuid_in id = Some k →
    by_id (CallRevoke id) now k (λ n, autocommit (checkRowsAffected (Ok n)))
| by_rotate old sess now k :
    pg_uuid_in old = Some k →
    by_id (CallRotateToken old sess) now k (λ n,
      match checkRowsAffected (Ok n) with
      | Err err => TEnd (Err err) false
      | Ok _ => insert_sessions sess now commit_or_rollback
      end).

Section stage.
Context `{Postgres} (c : call) (now : time) (begun : gset string) (h : PgHeap).

Notation m := (pg_sessions h).

Definition live_at (k : string) (r : sessions_row) : Prop :=
  m !! k = Some r ∧ s_revoked_at r = None.

(** What a bulk revocation has written, and what it has still to visit. *)
Definition bulk_writes (P : sessions_row → bool) (w : rows) : Prop :=
  ∀ k row, w !! k = Some row → ∃ r, live_at k r ∧ P r = true ∧ row = row_revoke now r.
Definition covers (P : sessions_row → bool) (w : rows) (ids : list string) : Prop :=
  ∀ k r, k ∈ begun → live_at k r → P r = true → k ∈ ids ∨ is_Some (w !! k).

(** A new row that fits the tables but, perhaps, for its token. *)
Definition fresh (row : sessions_row) : Prop :=
  m !! s_id row = None ∧ is_Some (pg_users h !! s_user_id row).

(** The rows [w] are what the call commits. *)
Inductive ready : rows → Prop :=
| rd_create sess row :
    c = CallCreate sess → inserts sess now row → fresh row → ready {[s_id row := row]}
| rd_revoke id k r :
    c = CallRevoke id → pg_uuid_in id = Some k → live_at k r → ready {[k := row_revoke now r]}
| rd_rotate old sess k r row :
    c = CallRotateToken old sess → pg_uuid_in old = Some k → live_at k r →
    inserts sess now row → fresh row → ready (<[s_id row := row]> {[k := row_revoke now r]})
| rd_bulk P w : bulk_of c = Some P → bulk_writes P w → covers P w [] → ready w.

Inductive stage : rows → option (list string * Z) → Txn → Prop :=
| st_creating sess row :
    c = CallCreate sess → inserts sess now row → stage ∅ None (TInsert row autocommit)
| st_updating k kont sc :
    by_id c now k kont → sc = None ∨ sc = Some ([k], 0) → stage ∅ sc (TUpdate now (has_id k) kont)
| st_updated k kont r :
    by_id c now k kont → live_at k r →
    stage {[k := row_revoke now r]} (Some ([], 1)) (TUpdate now (has_id k) kont)
| st_inserting old sess k r row :
    c = CallRotateToken old sess → pg_uuid_in old = Some k → live_at k r →
    inserts sess now row →
    stage {[k := row_revoke now r]} None (TInsert row commit_or_rollback)
| st_bulk P sc w :
    bulk_of c = Some P → bulk_writes P w →
    match sc with None => w = ∅ | Some (ids, _) => covers P w ids end →
    stage w sc (TUpdate now P (λ _, autocommit (Ok ())))
| st_ready w : ready w → stage w None (TEnd (Ok ()) true).

(** The transaction will fail with [err], and commit nothing. *)
Inductive failing (err : error) : Active → Prop :=
| fl_ending w sc b :
    b = false ∨ w = ∅ → failing err (mkActive w sc (TEnd (Err err) b))
| fl_nothing P kont n b :
    kont n = TEnd (Err err) b → failing err (mkActive ∅ (Some ([], n)) (TUpdate now P kont)).

End stage.

Definition stage_of `{Postgres} (h : PgHeap) (p : Pending) (a : Active) : Prop :=
  match p_error p with
  | None => p_begun p ⊆ dom (pg_sessions h) ∧
      stage (p_call p) (p_now p) (p_begun p) h (a_writes a) (a_scan a) (a_txn a)
  | Some err => failing (p_now p) err a
  end.

(** ** What others commit changes none of this *)

Section stable.
Context `{Postgres} (h : PgHeap) (w' : rows) (Hw' : shape (pg_sessions h) w').

Definition with_rows : PgHeap := pg_set_sessions (w' ∪ pg_sessions h) h.

Lemma live_at_kept w k r :
  w ##ₘ w' → is_Some (w !! k) → live_at h k r → live_at with_rows k r.
Proof.
  intros Hd Hk [Hr Hl]. split; [|done]. simpl. by rewrite (others_lookup _ _ w).
Qed.

(** Nothing that was there comes to life. *)
Lemma live_at_before k r :
  k ∈ dom (pg_sessions h) → live_at with_rows k r → live_at h k r.
Proof.
  intros [so Hso]%elem_of_dom [Hr Hl]. simpl in Hr.
  destruct (shape_kept _ _ Hw' _ _ Hso) as (so' & Hso' & [->|[t ->]]); [|by simplify_eq].
  split; congruence.
Qed.

Lemma bulk_writes_stable now P w : w ##ₘ w' → bulk_writes now h P w → bulk_writes now with_rows P w.
Proof.
  intros Hd Hw k row Hk. destruct (Hw k row Hk) as (r & Hr & HP & ->). exists r.
  split; [|done]. eapply live_at_kept; [done|by eexists|done].
Qed.

Lemma covers_stable begun P w ids :
  begun ⊆ dom (pg_sessions h) → covers begun h P w ids → covers begun with_rows P w ids.
Proof.
  intros Hb Hc k r Hk Hr. apply Hc; [done|]. apply live_at_before; [|done]. by apply Hb.
Qed.

Lemma fresh_stable w row : w ##ₘ w' → is_Some (w !! s_id row) → fresh h row → fresh with_rows row.
Proof. intros Hd Hw [Hn Hu]. split; [|done]. simpl. by rewrite (others_lookup _ _ w). Qed.

Lemma ready_stable c now begun w :
  w ##ₘ w' → begun ⊆ dom (pg_sessions h) → ready c now begun h w → ready c now begun with_rows w.
Proof.
  intros Hd Hb Hr. revert Hd. destruct Hr as [sess row Hc Hi Hf|id k r Hc Hk Hr
    |old sess k r row Hc Hk Hr Hi Hf|P w Hc Hw Hcov]; intros Hd.
  - eapply rd_create; [done..|]. eapply fresh_stable; [done| |done]. by rewrite lookup_singleton_eq.
  - eapply rd_revoke; [done..|]. eapply live_at_kept; [done| |done]. by rewrite lookup_singleton_eq.
  - eapply rd_rotate; [done..| |done|].
    + eapply live_at_kept; [done| |done]. rewrite lookup_insert_is_Some.
      destruct (decide (s_id row = k)); [by left|right]. by rewrite lookup_singleton_eq.
    + eapply fresh_stable; [done| |done]. by rewrite lookup_insert_eq.
  - eapply rd_bulk; [done|by apply bulk_writes_stable|by apply covers_stable].
Qed.

Lemma stage_stable c now begun w sc t :
  w ##ₘ w' → begun ⊆ dom (pg_sessions h) →
  stage c now begun h w sc t → stage c now begun with_rows w sc t.
Proof.
  intros Hd Hb Hs. revert Hd. destruct Hs as [| |k kont r Hc Hr|old sess k r row Hc Hk Hr Hi
    |P sc w Hc Hw Hsc|w Hr]; intros Hd.
  - by eapply st_creating.
  - by eapply st_updating.
  - eapply st_updated; [done|]. eapply live_at_kept; [done| |done]. by rewrite lookup_singleton_eq.
  - eapply st_inserting; [done..| |done]. eapply live_at_kept; [done| |done].
    by rewrite lookup_singleton_eq.
  - eapply st_bulk; [done|by apply bulk_writes_stable|].
    destruct sc as [[ids n]|]; [by apply covers_stable|done].
  - by apply st_ready, ready_stable.
Qed.

Lemma stage_of_stable p a : a_writes a ##ₘ w' → stage_of h p a → stage_of with_rows p a.
Proof.
  unfold stage_of. destruct (p_error p); [done|]. intros Hd [Hb Hs].
  split; [|by apply stage_stable]. simpl. rewrite dom_union_L. set_solver.
Qed.

End stable.

(** ** The statements move a transaction on *)

Section acting.
Context `{Postgres} (h : PgHeap).

Notation m := (pg_sessions h).

Lemma revoke_session_live id now k r :
  pg_uuid_in id = Some k → live_at h k r →
  revoke_session id now h = (Ok 1, pg_set_sessions (<[k := row_revoke now r]> m) h).
Proof.
  intros Hk [Hr Hl]. unfold revoke_session, uuid_param. by rewrite Hk, Hr, bool_decide_true.
Qed.

Lemma revoke_session_none id now k :
  pg_uuid_in id = Some k → (∀ r, ¬ live_at h k r) → revoke_session id now h = (Ok 0, h).
Proof.
  intros Hk Hn. unfold revoke_session, uuid_param. rewrite Hk.
  destruct (m !! k) as [r|] eqn:Hr; [|done].
  rewrite bool_decide_false; [done|]. intros Hl. by apply (Hn r).
Qed.

(** Without a live row the call answers ErrNotFound. *)
Lemma by_id_not_found c now k kont :
  by_id c now k kont → (∀ r, ¬ live_at h k r) →
  performs c now h (Err ErrNotFound) h ∧ ∃ b, kont 0 = TEnd (Err ErrNotFound) b.
Proof.
  intros [id t k' Hk|old sess t k' Hk] Hn; (split; [|by eexists]).
  - by apply (performs_Revoke id t h (Ok 0)), (revoke_session_none _ _ k').
  - by apply (performs_Rotate old sess t h (Ok 0) h); [apply (revoke_session_none _ _ k')|].
Qed.

(** The beginning of a call. *)
Lemma begin_stage c now begun :
  stage c now begun h ∅ None (call_txn c now) ∨
  ∃ err, performs c now h (Err err) h ∧ failing now err (mkActive ∅ None (call_txn c now)).
Proof.
  destruct c as [sess|id|f|u|old sess]; simpl.
  - destruct (insert_sessions_cases sess now) as [(err & Hins & Hi)|(row & Hins & Hi)].
    + right. exists err. unfold Create_txn. rewrite Hins. split; [by apply performs_Create|].
      apply fl_ending. by right.
    + left. unfold Create_txn. rewrite Hins. by eapply st_creating.
  - unfold Revoke_txn. destruct (pg_uuid_in id) as [k|] eqn:Hk.
    + left. eapply st_updating; [by apply by_revoke|by left].
    + right. eexists. split; [|apply fl_ending; by right].
      apply (performs_Revoke id now h bad_uuid). unfold revoke_session, uuid_param. by rewrite Hk.
  - unfold RevokeFamily_txn. destruct (pg_uuid_in f) as [k|] eqn:Hk.
    + left. eapply st_bulk; [by simpl; rewrite Hk| |done]. intros ? ?. by rewrite lookup_empty.
    + right. eexists. split; [|apply fl_ending; by right]. apply performs_bulk_bad. left. by exists f.
  - unfold RevokeAllForUser_txn. destruct (pg_uuid_in u) as [k|] eqn:Hk.
    + left. eapply st_bulk; [by simpl; rewrite Hk| |done]. intros ? ?. by rewrite lookup_empty.
    + right. eexists. split; [|apply fl_ending; by right]. apply performs_bulk_bad. right. by exists u.
  - unfold RotateToken_txn. destruct (pg_uuid_in old) as [k|] eqn:Hk.
    + left. eapply st_updating; [by apply by_rotate|by left].
    + right. eexists. split; [|apply fl_ending; by left].
      apply (performs_Rotate old sess now h bad_uuid h); [|done].
      unfold revoke_session, uuid_param. by rewrite Hk.
Qed.

(** An INSERT of a row on the tables with the rows [w]. *)
Lemma insert_row_taken w row :
  key_taken (w ∪ m) row = true →
  insert_row row (with_rows h w) =
    (sql_error "pq: duplicate key value violates unique constraint", with_rows h w).
Proof. intros Hk. unfold insert_row, with_rows. simpl. by rewrite Hk. Qed.

Lemma insert_row_no_user w row :
  key_taken (w ∪ m) row = false → s_user_id row ∉ dom (pg_users h) →
  insert_row row (with_rows h w) =
    (sql_error "pq: insert or update violates foreign key constraint", with_rows h w).
Proof.
  intros Hk Hn. unfold insert_row, with_rows. simpl. rewrite Hk.
  rewrite bool_decide_false; [done|]. by rewrite <- elem_of_dom.
Qed.

Lemma key_free_fresh w row :
  key_taken (w ∪ m) row = false → s_user_id row ∈ dom (pg_users h) → fresh h row.
Proof.
  unfold key_taken. intros [Hk%bool_decide_eq_false _]%orb_false_iff Hd%elem_of_dom.
  rewrite <- eq_None_not_Some, lookup_union_None in Hk. split; [apply Hk|done].
Qed.

Lemma with_no_rows : with_rows h ∅ = h.
Proof. unfold with_rows, pg_set_sessions. rewrite (left_id_L ∅ (∪)). by destruct h. Qed.

Context (s : Server) (i : nat) (Hs : sv_sessions s = m) (Hu : sv_users s = dom (pg_users h)).
Context (Hfiled : ∀ k r, m !! k = Some r → s_id r = k).

(** The next thing a transaction does takes it to the next stage, or it fails for a
    reason that holds of the tables at this moment. *)
Definition moves_on c now begun (a' : Active) : Prop :=
  stage c now begun h (a_writes a') (a_scan a') (a_txn a') ∨
  ∃ err, performs c now h (Err err) h ∧ failing now err a'.

Lemma acting_create c now begun sess row a a' :
  c = CallCreate sess → inserts sess now row → a = mkActive ∅ None (TInsert row autocommit) →
  txn_act s i a a' → moves_on c now begun a'.
Proof.
  intros -> Hi -> Hact. assert (∀ r h', insert_row row h = (r, h') →
    performs (CallCreate sess) now h r h') as Hp.
  { intros r h' Hr. apply performs_Create. by rewrite (proj2 Hi). }
  inversion Hact as [| | |row' k' Ht _ Hk Hus|row' k' Ht _ Hk|row' k' Ht _ Hk Hus]; simplify_eq/=;
    unfold seen in Hk; simpl in Hk; rewrite Hs in Hk; try rewrite Hu in Hus.
  - left. rewrite insert_empty. eapply st_ready, rd_create; [done..|by eapply key_free_fresh].
  - right. eexists. split; [|apply fl_ending; by right]. apply Hp.
    rewrite <- with_no_rows. by apply insert_row_taken.
  - right. eexists. split; [|apply fl_ending; by right]. apply Hp.
    rewrite <- with_no_rows. by apply insert_row_no_user.
Qed.

Lemma acting_rotate c now begun old sess k r row a a' :
  c = CallRotateToken old sess → pg_uuid_in old = Some k → live_at h k r → inserts sess now row →
  a = mkActive {[k := row_revoke now r]} None (TInsert row commit_or_rollback) →
  txn_act s i a a' → moves_on c now begun a'.
Proof.
  intros -> Hk Hr Hi -> Hact.
  assert (∀ err h', insert_row row (with_rows h {[k := row_revoke now r]}) = (Err err, h') →
    performs (CallRotateToken old sess) now h (Err err) h) as Hp.
  { intros err h' Hins.
    apply (proj2 (performs_Rotate old sess now h (Ok 1) _ (revoke_session_live _ _ _ _ Hk Hr)) (Err err) h');
      [done|]. rewrite (proj2 Hi). unfold with_rows in Hins. rewrite <- insert_union_singleton_l in Hins. exact Hins. }
  inversion Hact as [| | |row' k' Ht _ Hkt Hus|row' k' Ht _ Hkt|row' k' Ht _ Hkt Hus]; simplify_eq/=;
    unfold seen in Hkt; simpl in Hkt; rewrite Hs in Hkt; try rewrite Hu in Hus.
  - left. eapply st_ready, rd_rotate; [done..|by eapply key_free_fresh].
  - right. eexists. split; [|apply fl_ending; by left]. by eapply Hp, insert_row_taken.
  - right. eexists. split; [|apply fl_ending; by left]. by eapply Hp, insert_row_no_user.
Qed.

(** An UPDATE of one row: it finds the row, or not. *)
Lemma acting_scan c now begun k kont a a' :
  by_id c now k kont → a = mkActive ∅ None (TUpdate now (has_id k) kont) →
  txn_act s i a a' → moves_on c now begun a'.
Proof.
  intros Hc -> Hact. inversion Hact as [now' P k' ids Ht _ Hids| | | | |]; simplify_eq/=.
  unfold seen in Hids. simpl in Hids. rewrite (left_id_L ∅ (∪)), Hs in Hids.
  assert (∀ x, x ∈ ids ↔ x = k ∧ ∃ r, live_at h k r) as Hin.
  { intros x. rewrite Hids, elem_of_targets. split.
    - intros (r & Hr & Hid%bool_decide_eq_true & Hl%bool_decide_eq_true).
      assert (x = k) as -> by (rewrite <- Hid; symmetry; by apply Hfiled). by split; [|exists r].
    - intros (-> & r & Hr & Hl). exists r. unfold has_id, live_row.
      by rewrite (Hfiled _ _ Hr), !bool_decide_true. }
  assert (NoDup ids) as Hnd by (rewrite Hids; apply NoDup_fst_map_to_list).
  destruct ids as [|x ids].
  - right. destruct (by_id_not_found _ _ _ _ Hc) as (Hp & b & Hb).
    { intros r Hr. eapply not_elem_of_nil, Hin. split; [done|by exists r]. }
    eexists. split; [exact Hp|by eapply fl_nothing].
  - left. destruct (proj1 (Hin x)) as [-> _]; [by left|].
    destruct ids as [|y ids]; [eapply st_updating; [done|by right]|].
    destruct (proj1 (Hin y)) as [-> _]; [by right; left|].
    apply NoDup_cons in Hnd as [Hnd _]. set_solver.
Qed.

Lemma acting_row c now begun k kont a a' :
  by_id c now k kont → a = mkActive ∅ (Some ([k], 0)) (TUpdate now (has_id k) kont) →
  txn_act s i a a' → moves_on c now begun a'.
Proof.
  intros Hc -> Hact. inversion Hact as [|now' P k' id ids n w n' Ht Hsc _ Hup| | | |]; simplify_eq/=.
  unfold update_row in Hup. rewrite (left_id_L ∅ (∪)), Hs in Hup.
  assert ((∀ r, ¬ live_at h id r) → w = ∅ → n' = 0 →
    moves_on c now' begun (mkActive w (Some ([], n')) (TUpdate now' (has_id id) k'))) as Hno.
  { intros Hn -> ->. right. destruct (by_id_not_found _ _ _ _ Hc Hn) as (Hp & b & Hb).
    eexists. split; [exact Hp|by eapply fl_nothing]. }
  destruct (m !! id) as [r|] eqn:Hr.
  2:{ injection Hup as <- <-. apply Hno; [|done..]. intros r [Hr' _]. congruence. }
  unfold has_id in Hup at 1. rewrite (Hfiled _ _ Hr), bool_decide_true in Hup by done.
  unfold live_row in Hup. simpl in Hup. case_bool_decide as Hl; injection Hup as <- <-.
  - left. rewrite insert_empty. by eapply st_updated.
  - apply Hno; [|done..]. intros r' [Hr' Hl']. congruence.
Qed.

Lemma acting_updated c now begun k kont r a a' :
  by_id c now k kont → live_at h k r →
  a = mkActive {[k := row_revoke now r]} (Some ([], 1)) (TUpdate now (has_id k) kont) →
  txn_act s i a a' → moves_on c now begun a'.
Proof.
  intros Hc Hr -> Hact. inversion Hact as [| |now' P k' n Ht Hsc| | |]; simplify_eq/=.
  destruct Hc as [id now k Hk|old sess now k Hk]; [left; by eapply st_ready, rd_revoke|]. simpl.
  destruct (insert_sessions_cases sess now) as [(err & Hins & Hi)|(row & Hins & Hi)]; rewrite Hins.
  - right. exists err. split; [|apply fl_ending; by left].
    exact (proj2 (performs_Rotate old sess now h (Ok 1) _ (revoke_session_live _ _ _ _ Hk Hr))
      (Err err) _ eq_refl (Hi _)).
  - left. by eapply st_inserting.
Qed.

Lemma acting_bulk c now begun P w sc a a' :
  bulk_of c = Some P → bulk_writes now h P w →
  match sc with None => w = ∅ | Some (ids, _) => covers begun h P w ids end →
  a = mkActive w sc (TUpdate now P (λ _, autocommit (Ok ()))) →
  txn_act s i a a' → moves_on c now begun a'.
Proof.
  intros Hc Hw Hsc -> Hact. left.
  inversion Hact as [now' P' k' ids Ht Hs' Hids|now' P' k' id ids n w' n' Ht Hs' _ Hup
    |now' P' k' n Ht Hs'| | |]; simplify_eq/=.
  - eapply st_bulk; [done..|]. intros k r _ [Hr Hl] HP. left. rewrite Hids. unfold seen. simpl.
    rewrite (left_id_L ∅ (∪)), Hs. apply elem_of_targets. exists r. split_and!; [done..|].
    by apply bool_decide_eq_true.
  - rewrite Hs in Hup.
    assert (revs m w) as Hrevs.
    { intros k row Hk. destruct (Hw k row Hk) as (r & [Hr Hl] & _ & ->). by eexists _, _. }
    destruct (update_row_cases _ _ _ _ _ _ _ _ Hup Hrevs) as [[-> ->]|(r & Hn & Hr & HP & Hl & -> & ->)].
    + eapply st_bulk; [done..|]. intros k r Hk Hr HP.
      destruct (Hsc k r Hk Hr HP) as [[->|Hin]%elem_of_cons|Hin]; [|by left|by right]. right.
      unfold update_row in Hup. destruct (w !! id) as [x|] eqn:Hx; [by eexists|exfalso].
      destruct Hr as [Hr Hl]. rewrite lookup_union_r, Hr, HP in Hup by done.
      unfold live_row in Hup. rewrite bool_decide_true in Hup by done.
      simpl in Hup. injection Hup as Hbad _. apply (f_equal (lookup id)) in Hbad.
      rewrite lookup_insert_eq in Hbad. congruence.
    + eapply st_bulk; [done| |].
      * intros k row. rewrite lookup_insert_Some. intros [[<- <-]|[_ Hk]]; [by exists r|by apply Hw].
      * intros k r' Hk Hr' HP'. rewrite lookup_insert_is_Some.
        destruct (decide (id = k)) as [->|Hne]; [right; by left|].
        destruct (Hsc k r' Hk Hr' HP') as [[->|Hin]%elem_of_cons|Hin]; [done|by left|right; by right].
  - apply st_ready. by eapply rd_bulk.
Qed.

Lemma acting_failing now err a a' : failing now err a → txn_act s i a a' → failing now err a'.
Proof.
  intros [w sc b Hb|P kont n b Hk] Hact; inversion Hact; simplify_eq/=.
  rewrite Hk. apply fl_ending. by right.
Qed.

Lemma acting c now begun a a' :
  stage c now begun h (a_writes a) (a_scan a) (a_txn a) → txn_act s i a a' →
  moves_on c now begun a'.
Proof.
  destruct a as [w sc t]. simpl. intros [sess row Hc Hi|k kont sc' Hc [->| ->]|k kont r Hc Hr
    |old sess k r row Hc Hk Hr Hi|P sc' w' Hc Hw Hsc|w' Hr] Hact.
  - by eapply acting_create.
  - by eapply acting_scan.
  - by eapply acting_row.
  - by eapply acting_updated.
  - by eapply acting_rotate.
  - by eapply acting_bulk.
  - inversion Hact; simplify_eq/=.
Qed.

End acting.

(** ** The commit *)

Section committing.
Context `{Postgres} (h : PgHeap).
Context (Hfiled : ∀ k r, pg_sessions h !! k = Some r → s_id r = k).

Notation m := (pg_sessions h).

(** A token of the rows [w] is not there under another key. *)
Definition new_tokens (w : rows) : Prop :=
  ∀ k row k' r, w !! k = Some row → m !! k' = Some r → s_token_hash row = s_token_hash r → k = k'.

Lemma fresh_row_inserts w row :
  fresh h row → new_tokens {[s_id row := row]} → revs m w →
  insert_row row (with_rows h w) = (Ok (), with_rows h (<[s_id row := row]> w)).
Proof.
  intros [Hn Hus] Ht Hw. unfold insert_row, with_rows. simpl.
  assert (key_taken (w ∪ m) row = false) as ->.
  { assert (∀ k r, (w ∪ m) !! k = Some r → ∃ r0, m !! k = Some r0 ∧ s_token_hash r = s_token_hash r0) as Hold.
    { intros k r [Hr|[_ Hr]]%lookup_union_Some_raw; [|by exists r].
      destruct (Hw _ _ Hr) as (r0 & t & Hr0 & _ & ->). by exists r0. }
    unfold key_taken. apply orb_false_iff. split; apply bool_decide_eq_false.
    - intros [r Hr]. destruct (Hold _ _ Hr) as (? & ? & _). congruence.
    - intros [r (k & Hr & Heq%bool_decide_eq_true)%select_one_Some].
      destruct (Hold _ _ Hr) as (r0 & Hr0 & Heq0).
      assert (s_id row = k) as <-; [|congruence].
      eapply Ht; [apply lookup_singleton_eq|done|congruence]. }
  rewrite bool_decide_true by done. unfold pg_set_sessions. simpl. by rewrite insert_union_l.
Qed.

(** A bulk revocation revokes at its commit what was there when it began, and what
    else it has visited. *)
Lemma bulk_commit now begun P w :
  bulk_writes now h P w → covers begun h P w [] →
  with_rows h w = revoke_rows (λ r, bool_decide (s_id r ∈ begun ∪ dom w) && P r) now h.
Proof.
  intros Hw Hc. unfold revoke_rows, with_rows. f_equal. apply map_eq. intros k.
  rewrite lookup_fmap. destruct (w !! k) as [row|] eqn:Hk.
  - rewrite (lookup_union_Some_l _ _ _ _ Hk). destruct (Hw _ _ Hk) as (r & [Hr Hl] & HP & ->).
    rewrite Hr. simpl. rewrite (Hfiled _ _ Hr), HP, !bool_decide_true; [done..|].
    apply elem_of_union_r, elem_of_dom. by eexists.
  - rewrite lookup_union_r by done. destruct (m !! k) as [r|] eqn:Hr; [|done]. simpl.
    rewrite (Hfiled _ _ Hr). case_bool_decide as Hin; [|done]. case_bool_decide as Hl; [|by rewrite andb_false_r].
    destruct (P r) eqn:HP; [exfalso|done]. apply elem_of_union in Hin as [Hin|[x Hx]%elem_of_dom]; [|congruence].
    destruct (Hc k r Hin) as [[]%elem_of_nil|[x Hx]]; [by split|done|congruence].
Qed.

Lemma ready_commits c now begun w :
  ready c now begun h w → new_tokens w → commits c now begun h (with_rows h w).
Proof.
  intros [sess row Hc Hi Hf|id k r Hc Hk Hr|old sess k r row Hc Hk Hr Hi Hf|P w' Hc Hw Hcov] Ht;
    try subst c.
  - apply commits_action, performs_Create. rewrite (proj2 Hi), <- (with_no_rows h) at 1.
    by rewrite (fresh_row_inserts ∅ row Hf Ht (revs_empty _)), insert_empty.
  - apply commits_action. unfold with_rows. rewrite <- insert_union_singleton_l.
    by apply (performs_Revoke id now h (Ok 1)), (revoke_session_live h).
  - apply commits_action. destruct Hr as [Hr Hl].
    apply (proj2 (performs_Rotate old sess now h (Ok 1) _ (revoke_session_live h _ _ _ _ Hk (conj Hr Hl)))
      (Ok ()) _ eq_refl). rewrite (proj2 Hi), (insert_union_singleton_l m k).
    apply (fresh_row_inserts _ _ Hf).
    + intros k' row' k2 r2 [<- <-]%lookup_singleton_Some. apply Ht. by rewrite lookup_insert_eq.
    + intros k' r' [<- <-]%lookup_singleton_Some. by exists r, now.
  - rewrite (bulk_commit _ _ _ _ Hw Hcov). apply commits_bulk; [done|set_solver].
Qed.

End committing.
