(* ===== verification/ReadCommittedLinear.v ===== *)
(** * The transactions of the session store are linearizable

    Over the server of ReadCommitted.v, at READ COMMITTED, the callers see what they
    would see of the atomic server of ReadCommittedAtomic.v: each call takes effect
    at one moment, its commit, or fails at one moment for the reason that it tells.
    The proof is a simulation by the stages of ReadCommittedStages.v. *)
From S2P Require Import Prelude Errors Runtime Store StoreSpec SessionMachine Postgres.
From S2P Require Import PostgresContract ReadCommitted ReadCommittedTheorems ReadCommittedSerial.
From S2P Require Import ReadCommittedRace ReadCommittedAtomic ReadCommittedStages PgFixtures.

(** ** Tokens are unique, what is pending included *)

Definition written (s : Server) (k : string) (r : sessions_row) : Prop :=
  sv_sessions s !! k = Some r ∨ ∃ i a, sv_active s !! i = Some a ∧ a_writes a !! k = Some r.

Definition tokens_unique (s : Server) : Prop :=
  ∀ k1 r1 k2 r2, written s k1 r1 → written s k2 r2 → s_token_hash r1 = s_token_hash r2 → k1 = k2.

(** What changes no token keeps them so. *)
Lemma tokens_unique_same s s' :
  tokens_unique s →
  (∀ k r, written s' k r → ∃ r0, written s k r0 ∧ s_token_hash r = s_token_hash r0) →
  tokens_unique s'.
Proof.
  intros Hu Hold k1 r1 k2 r2 H1 H2 Heq. destruct (Hold _ _ H1) as (x1 & Hx1 & E1).
  destruct (Hold _ _ H2) as (x2 & Hx2 & E2). eapply Hu; [done..|congruence].
Qed.

Lemma written_act s i a a' k r :
  written (server_act i a' s) k r → sv_active s !! i = Some a →
  written s k r ∨ a_writes a' !! k = Some r.
Proof.
  intros [Hr|(j & b & Hb & Hr)] Hi; [by left; left|]. simpl in Hb.
  apply lookup_insert_Some in Hb as [[<- <-]|[Hj Hb]]; [by right|left; right; by exists j, b].
Qed.

(** A statement writes rows that are there already, or inserts one. *)
Lemma act_writes s i a a' :
  txn_act s i a a' →
  (∀ k r, a_writes a' !! k = Some r →
     ∃ r0, seen s a !! k = Some r0 ∧ s_token_hash r = s_token_hash r0) ∨
  ∃ row k, a_txn a = TInsert row k ∧ ¬ key_pending s i row ∧ key_taken (seen s a) row = false ∧
    a_writes a' = <[s_id row := row]> (a_writes a).
Proof.
  assert (∀ k r, a_writes a !! k = Some r → seen s a !! k = Some r) as Hown.
  { intros k r Hr. by apply lookup_union_Some_l. }
  destruct 1 as [now P k ids Ht Hs Hids|now P k id ids n w n' Ht Hs Hlk Hu
    |now P k n Ht Hs|row k Ht Hp Hk Huser|row k Ht Hp Hk|row k Ht Hp Hk Huser]; simpl;
    [left; eauto|left|left; eauto|right; by eexists _, _|left; eauto..].
  unfold update_row in Hu. intros k' r Hr. fold (seen s a) in Hu.
  destruct (seen s a !! id) as [x|] eqn:Hx; [|simplify_eq; eauto].
  destruct (P x && live_row x); simplify_eq; [|eauto].
  apply lookup_insert_Some in Hr as [[<- <-]|[_ Hr]]; eauto.
Qed.

Lemma seen_written s i a k r : sv_active s !! i = Some a → seen s a !! k = Some r → written s k r.
Proof. intros Hi [Hr|[_ Hr]]%lookup_union_Some_raw; [right; by exists i, a|by left]. Qed.

Lemma tokens_unique_act s i a a' :
  revs (sv_sessions s) (a_writes a) ∨ (∀ row k, a_txn a ≠ TInsert row k) →
  sv_active s !! i = Some a → txn_act s i a a' →
  tokens_unique s → tokens_unique (server_act i a' s).
Proof.
  intros Hrevs Hi Hact Hu. destruct (act_writes _ _ _ _ Hact) as [Hold|(row & k & Ht & Hp & Hk & Heq)].
  { apply (tokens_unique_same s); [done|]. intros k r [Hr|Hr]%(written_act _ _ a); [by exists r| |done].
    destruct (Hold _ _ Hr) as (r0 & Hr0 & ?). exists r0. split; [by eapply seen_written|done]. }
  destruct Hrevs as [Hrevs|Hn]; [|by destruct (Hn row k)].
  unfold key_taken in Hk. apply orb_false_iff in Hk as [_ Hk].
  assert (∀ x r, seen s a !! x = Some r → s_token_hash r ≠ s_token_hash row) as Hseen.
  { intros x r Hr. by apply (exists_row_false _ _ _ _ Hk), bool_decide_eq_false in Hr. }
  assert (∀ x r, written s x r → s_token_hash r ≠ s_token_hash row) as Hnew.
  { intros x r [Hr|(j & b & Hb & Hr)] Heqt.
    - destruct (a_writes a !! x) as [y|] eqn:Hy.
      + destruct (Hrevs _ _ Hy) as (s0 & t & Hs0 & _ & ->). simplify_eq.
        by eapply (Hseen x); [apply lookup_union_Some_l, Hy|].
      + by apply (Hseen x r); [unfold seen; rewrite lookup_union_r|].
    - destruct (decide (j = i)) as [->|Hj].
      + simplify_eq. by apply (Hseen x r); [apply lookup_union_Some_l|].
      + apply Hp. exists j, b. split_and!; [done..|]. exists x, r. split; [done|by right]. }
  assert (∀ x r, written (server_act i a' s) x r → written s x r ∨ x = s_id row ∧ r = row) as Hcases.
  { intros x r [Hr|Hr]%(written_act _ _ a); [by left| |done].
    rewrite Heq in Hr. apply lookup_insert_Some in Hr as [[<- <-]|[_ Hr]]; [by right|].
    left. right. by exists i, a. }
  intros k1 r1 k2 r2 [H1|[-> ->]]%Hcases [H2|[-> ->]]%Hcases E; [by eapply Hu|..|done].
  - by destruct (Hnew _ _ H1).
  - by destruct (Hnew _ _ H2).
Qed.

Lemma tokens_unique_end s i a w r :
  sv_active s !! i = Some a → w = ∅ ∨ w = a_writes a →
  tokens_unique s → tokens_unique (server_end i w r s).
Proof.
  intros Hi Hw Hu. apply (tokens_unique_same s); [done|]. intros k x Hx. exists x. split; [|done].
  unfold written in Hx. simpl in Hx. destruct Hx as [[Hx|[_ Hx]]%lookup_union_Some_raw|(j & b & [_ Hb]%lookup_delete_Some & Hx)].
  - destruct Hw as [->| ->]; [by rewrite lookup_empty in Hx|]. right. by exists i, a.
  - by left.
  - right. by exists j, b.
Qed.

Lemma tokens_unique_begin s i t : tokens_unique s → tokens_unique (server_begin i t s).
Proof.
  intros Hu. apply (tokens_unique_same s); [done|]. intros k x Hx. exists x. split; [|done].
  destruct Hx as [Hx|(j & b & Hb & Hx)]; [by left|]. simpl in Hb.
  apply lookup_insert_Some in Hb as [[_ <-]|[_ Hb]]; [by simpl in Hx; rewrite lookup_empty in Hx|].
  right. by exists j, b.
Qed.

(** ** The simulation *)

Section simulation.
Context `{Postgres}.

Record simulates (s : Server) (A : Atomic) : Prop := {
  sm_sessions : sv_sessions s = pg_sessions (at_heap A);
  sm_users : sv_users s = dom (pg_users (at_heap A));
  sm_inv : rc_inv s;
  sm_tokens : tokens_unique s;
  sm_pending : map_Forall2 (λ _, stage_of (at_heap A)) (at_pending A) (sv_active s);
}.

Lemma pending_of s A i a :
  simulates s A → sv_active s !! i = Some a →
  ∃ p, at_pending A !! i = Some p ∧ stage_of (at_heap A) p a.
Proof.
  intros HS Hi. pose proof (sm_pending _ _ HS i) as Hf. rewrite Hi in Hf.
  destruct (at_pending A !! i) as [p|]; [|by inversion Hf]. exists p. split; [done|].
  by inversion Hf.
Qed.

Lemma simulates_act s A i a p a' p' :
  simulates s A → sv_active s !! i = Some a → at_pending A !! i = Some p →
  txn_act s i a a' → stage_of (at_heap A) p' a' →
  simulates (server_act i a' s) (mkAtomic (at_heap A) (<[i := p']> (at_pending A))).
Proof.
  intros [Hs Hu HI Ht Hp] Hi Hpi Hact Hst. split; simpl; [done..| | |].
  - by eapply rc_inv_act.
  - eapply tokens_unique_act; [|done..]. pose proof (ri_running _ HI _ _ Hi) as Hrun.
    destruct (a_txn a) eqn:E; [by right|left|by right].
    inversion Hrun; subst; [done|]. match goal with E : a_writes a = ∅ |- _ => rewrite E end.
    apply revs_empty.
  - by apply map_Forall2_insert_2.
Qed.

Lemma simulates_same s A i a p a' :
  simulates s A → sv_active s !! i = Some a → at_pending A !! i = Some p →
  txn_act s i a a' → stage_of (at_heap A) p a' → simulates (server_act i a' s) A.
Proof.
  intros HS Hi Hp Hact Hst. pose proof (simulates_act _ _ _ _ _ _ _ HS Hi Hp Hact Hst) as HS'.
  rewrite insert_id in HS' by done. by destruct A.
Qed.

Lemma history_app A l A1 k A2 :
  atomic_history A l A1 → atomic_history A1 k A2 → atomic_history A (l ++ k) A2.
Proof.
  intros H1 H2. induction H2 as [A1|A1 k A2 k' A3 _ IH Hst]; [by rewrite app_nil_r|].
  rewrite app_assoc. eapply ah_step; [by apply IH|done].
Qed.

Lemma history_one A l A' : atomic_step A l A' → atomic_history A l A'.
Proof. intros Hst. by apply (ah_step A [] A l A'); [constructor|]. Qed.

Lemma sim_filed s A k r : simulates s A → pg_sessions (at_heap A) !! k = Some r → s_id r = k.
Proof.
  intros HS Hr. apply (table_filed s); [apply HS|]. by rewrite (sm_sessions _ _ HS).
Qed.

Lemma sim_begin s A i c now :
  simulates s A → sv_active s !! i = None → sv_done s !! i = None →
  engine_txn s (call_txn c now) →
  ∃ A', atomic_history A [Begins i c now] A' ∧ simulates (server_begin i (call_txn c now) s) A'.
Proof.
  intros HS Hi Hd Hask. destruct (rc_inv_step _ _ (sm_inv _ _ HS) (rc_begin _ _ _ _ Hi Hd Hask)) as [HI _].
  assert (at_pending A !! i = None) as Hpi.
  { pose proof (sm_pending _ _ HS i) as Hf. rewrite Hi in Hf. by inversion Hf. }
  set (p := mkPending c now (dom (pg_sessions (at_heap A))) None).
  set (A1 := mkAtomic (at_heap A) (<[i := p]> (at_pending A))).
  assert (atomic_history A [Begins i c now] A1) as Hb by by apply history_one, at_begins.
  assert (∀ p', stage_of (at_heap A) p' (mkActive ∅ None (call_txn c now)) →
    simulates (server_begin i (call_txn c now) s) (mkAtomic (at_heap A) (<[i := p']> (at_pending A)))) as Hsim.
  { intros p' Hp'. destruct HS as [Hs Hu _ Ht Hp]. split; simpl; [done..| |].
    - by apply tokens_unique_begin.
    - by apply map_Forall2_insert_2. }
  destruct (begin_stage (at_heap A) c now (p_begun p)) as [Hst|(err & Hperf & Hfail)].
  - exists A1. split; [done|]. apply Hsim. by split.
  - exists (mkAtomic (at_heap A) (<[i := mkPending c now (p_begun p) (Some err)]> (at_pending A))).
    split; [|by apply Hsim].
    rewrite <- (insert_insert_eq (at_pending A) i _ p).
    apply (history_app _ [Begins i c now] A1 []); [done|]. apply history_one.
    apply (at_fails A1 i p err); [apply lookup_insert_eq|done..].
Qed.

Lemma sim_act s A i a a' :
  simulates s A → sv_active s !! i = Some a → txn_act s i a a' →
  ∃ A', atomic_history A [] A' ∧ simulates (server_act i a' s) A'.
Proof.
  intros HS Hi Hact. destruct (pending_of _ _ _ _ HS Hi) as ([c now begun err] & Hp & Hst).
  destruct err as [err|]; [|destruct Hst as [Hb Hst]].
  - exists A. split; [constructor|]. eapply simulates_same; [done..|]. exact (acting_failing _ _ _ _ _ _ Hst Hact).
  - destruct (acting (at_heap A) s i (sm_sessions _ _ HS) (sm_users _ _ HS)
      (λ k r, sim_filed s A k r HS) c now begun a a' Hst Hact) as [Hst'|(err & Hperf & Hfail)].
    + exists A. split; [constructor|]. eapply simulates_same; [done..|]. split; [exact Hb|exact Hst'].
    + eexists. split; [by apply history_one, (at_fails A i (mkPending c now begun None) err)|].
      by eapply simulates_act.
Qed.

Lemma simulates_end s A i a w r :
  simulates s A → sv_active s !! i = Some a → shape (sv_sessions s) w → w = ∅ ∨ w = a_writes a →
  simulates (server_end i w r s) (mkAtomic (with_rows (at_heap A) w) (delete i (at_pending A))).
Proof.
  intros HS Hi Hsh Hw. destruct (rc_inv_end s i a w r (sm_inv _ _ HS) Hi Hsh Hw) as [HI _].
  destruct HS as [Hs Hu HI0 Ht Hp]. split; simpl; [by rewrite Hs|done..|by eapply tokens_unique_end|].
  intros j. destruct (decide (j = i)) as [->|Hj]; [rewrite !lookup_delete_eq; constructor|].
  rewrite !lookup_delete_ne by done. specialize (Hp j).
  destruct (sv_active s !! j) as [b|] eqn:Hb, (at_pending A !! j) as [p|]; inversion Hp; subst;
    constructor. rewrite Hs in Hsh. apply stage_of_stable; [done| |done].
  destruct Hw as [->| ->]; [apply map_disjoint_empty_r|by apply (ri_apart _ HI0 j i)].
Qed.

Lemma sim_commit s A i a p r :
  simulates s A → sv_active s !! i = Some a → at_pending A !! i = Some p → p_error p = None →
  (∃ r b, a_txn a = TEnd r b) → stage_of (at_heap A) p a →
  a_txn a = TEnd (Ok ()) true ∧ (r = Ok () ∨ (∃ msg, r = Err (ErrExternal msg)) →
    atomic_step A [Ends i r]
      (mkAtomic (with_rows (at_heap A) (a_writes a)) (delete i (at_pending A)))).
Proof.
  intros HS Hi Hpi Herr (r0 & b & Ht) Hst. unfold stage_of in Hst. rewrite Herr in Hst.
  destruct Hst as [_ Hst]. rewrite Ht in Hst. inversion Hst as [| | | | |w Hr]; subst.
  split; [done|]. intros Hres. eapply at_commits; [done..| |done].
  eapply ready_commits; [|done|].
  - intros k x. by apply (sim_filed s).
  - intros k row k' x Hrow Hx. apply (sm_tokens _ _ HS); [right; by exists i, a|left].
    by rewrite (sm_sessions _ _ HS).
Qed.

Lemma sim_end s A i a w r :
  simulates s A → sv_active s !! i = Some a → txn_ends a w r →
  ∃ A', atomic_history A [Ends i r] A' ∧ simulates (server_end i w r s) A'.
Proof.
  intros HS Hi He. destruct (ends_shape _ _ _ _ _ (sm_inv _ _ HS) Hi He) as [Hsh Hw].
  pose proof (λ r, simulates_end s A i a w r HS Hi Hsh Hw) as Hsim.
  destruct (pending_of _ _ _ _ HS Hi) as (p & Hp & Hst).
  exists (mkAtomic (with_rows (at_heap A) w) (delete i (at_pending A))). split; [apply history_one|done].
  destruct (p_error p) as [err|] eqn:Herr.
  - (* it has failed *)
    unfold stage_of in Hst. rewrite Herr in Hst.
    assert (w = ∅ ∧ (r = Err err ∨ ∃ msg, r = Err (ErrExternal msg))) as [-> Hr].
    { destruct He as [r commit Ht|r msg Ht|msg]; [..|split; [done|right; by eexists]];
        (destruct Hst as [w sc b Hb|]; [|done]); simpl in Ht; injection Ht as <- ->; simpl.
      - split; [|by left]. destruct commit, Hb; naive_solver.
      - split; [naive_solver|right; by eexists]. }
    rewrite with_no_rows.
    destruct Hr as [->|[msg ->]]; [by eapply at_returns|by eapply at_aborts].
  - destruct He as [r commit Ht|r msg Ht|msg].
    + destruct (sim_commit s A i a p (Ok ()) HS Hi Hp Herr) as [Ht' Hc]; [by eexists _, _|done|].
      rewrite Ht in Ht'. injection Ht' as -> ->. apply Hc. by left.
    + destruct (sim_commit s A i a p (Err (ErrExternal msg)) HS Hi Hp Herr) as [Ht' Hc];
        [by eexists _, _|done|]. apply Hc. right. by eexists.
    + rewrite with_no_rows. by eapply at_aborts.
Qed.

End simulation.

Section linearizability.
Context `{Postgres}.

Lemma history_simulated h l s :
  at_rest (server_of h) → tokens_unique (server_of h) → server_history (server_of h) l s →
  ∃ A, atomic_history (mkAtomic h ∅) l A ∧ simulates s A.
Proof.
  intros Hrest Ht HS. induction HS as [|l s i c now _ (A & HA & IH) Hi Hd Hask
    |l s i a a' _ (A & HA & IH) Hi Hact|l s i a w r _ (A & HA & IH) Hi He].
  - exists (mkAtomic h ∅). split; [constructor|]. split; [done..|by apply at_rest_inv|done|].
    apply map_Forall2_empty.
  - destruct (sim_begin _ _ _ _ _ IH Hi Hd Hask) as (A' & HA' & HS'). exists A'.
    split; [by eapply history_app|done].
  - destruct (sim_act _ _ _ _ _ IH Hi Hact) as (A' & HA' & HS'). exists A'.
    split; [|done]. rewrite <- (app_nil_r l). by eapply history_app.
  - destruct (sim_end _ _ _ _ _ _ IH Hi He) as (A' & HA' & HS'). exists A'.
    split; [by eapply history_app|done].
Qed.

(** C8: the transactions of the session store are linearizable, but for the two bulk
    revocations. Whatever calls overlap, statement by statement, with waits, aborts
    and lost answers, their callers see a history of the atomic server, which leaves
    the same sessions: each Create, Revoke or RotateToken that succeeds does at one
    moment of its life what the call does as one action, each that fails with
    ErrNotFound would have failed so as one action at a moment of its life and changes
    nothing, and one that fails with any other error of the server or the connection
    (their texts are not told apart) had either all of its effect or none. *)
Theorem transactions_linearize h l s :
  at_rest (server_of h) → tokens_unique (server_of h) → server_history (server_of h) l s →
  ∃ A, atomic_history (mkAtomic h ∅) l A ∧ pg_sessions (at_heap A) = sv_sessions s ∧
    ∀ i, is_Some (at_pending A !! i) ↔ is_Some (sv_active s !! i).
Proof.
  intros Hrest Ht HS. destruct (history_simulated _ _ _ Hrest Ht HS) as (A & HA & Hsim).
  exists A. split_and!; [done|symmetry; apply Hsim|]. intros i.
  pose proof (sm_pending _ _ Hsim i) as Hf.
  destruct (sv_active s !! i), (at_pending A !! i); inversion Hf; subst; split; by intros [].
Qed.

(** The answers that a run of the server gives. *)
Definition ending (i : nat) (s : Server) : list Visible :=
  match a_txn <$> sv_active s !! i with Some (TEnd r _) => [Ends i r] | _ => [] end.

Fixpoint answers_of (order : list nat) (s : Server) : list Visible :=
  match order with
  | [] => []
  | i :: order => ending i s ++ answers_of order (default s (server_next i s))
  end.

Lemma run_history s0 l s order :
  server_history s0 l s → server_history s0 (l ++ answers_of order s) (server_run order s).
Proof.
  revert l s. induction order as [|i order IH]; intros l s HS; simpl; [by rewrite app_nil_r|].
  rewrite app_assoc. apply IH. unfold ending, server_next.
  destruct (sv_active s !! i) as [a|] eqn:Ha; simpl; [|by rewrite app_nil_r].
  destruct (a_txn a) as [now P k|row k|r commit] eqn:Ht; simpl.
  1, 2: rewrite app_nil_r; destruct (act_next s i a) as [a'|] eqn:Hn; simpl; [|done];
    by eapply sh_acts; [..|apply act_next_sound].
  eapply sh_ends; [done..|by apply end_answered].
Qed.

Lemma run_log s0 l k s order :
  server_history s0 l s → answers_of order s = k → server_history s0 (l ++ k) (server_run order s).
Proof. intros HS <-. by apply run_history. Qed.

End linearizability.

(** ** Instances *)

Section witnesses.
#[local] Existing Instance sample_pg.

(** The tables of ReadCommittedRace.v, and the exchange of a token that overlaps
    with a revocation of its family. *)
Definition race_heap : PgHeap :=
  mkPgHeap {["alice" := mkUsersRow "alice" "alice@example.com" "hash" 0 None 10 10]}
    {["s1" := alice_row]} [] ∅.

Definition exchange_call : call :=
  CallRotateToken "s1" (new_Session "s2" "s1" "alice" "hash2" "203.0.113.7" "curl").

Definition race_history : list Visible :=
  [Begins 1 exchange_call 20; Begins 0 (CallRevokeFamily "s1") 30; Ends 1 (Ok ()); Ends 0 (Ok ())].

Definition race_server1 : Server :=
  server_run [1; 1]%nat (server_begin 1 (call_txn exchange_call 20) (server_of race_heap)).
Definition race_server2 : Server :=
  server_begin 0 (call_txn (CallRevokeFamily "s1") 30) race_server1.

Lemma race_heap_at_rest : at_rest (server_of race_heap).
Proof.
  split; [done|]. assert (table (server_of race_heap) = <["s1" := view_session alice_row]> ∅) as ->
    by by vm_compute.
  eapply machine_inv_step; [apply machine_inv_empty|]. by apply step_login.
Qed.

Lemma race_heap_tokens : tokens_unique (server_of race_heap).
Proof.
  intros k1 r1 k2 r2 [H1|(? & ? & [=] & _)] [H2|(? & ? & [=] & _)] _.
  simpl in H1, H2. apply lookup_singleton_Some in H1 as [<- _], H2 as [<- _]. done.
Qed.

Lemma race_server_history :
  server_history (server_of race_heap) race_history
    (server_run [0; 0; 1; 1; 1; 0; 0; 0]%nat race_server2).
Proof.
  assert (server_history (server_of race_heap) [Begins 1 exchange_call 20] race_server1) as H1.
  { change race_server1 with
      (server_run [1; 1]%nat (server_begin 1 (call_txn exchange_call 20) (server_of race_heap))).
    apply (run_log _ [Begins 1 exchange_call 20] []); [|by vm_compute].
    apply (sh_begins _ [] _ 1 exchange_call 20); [constructor|done..|].
    by apply (ask_rotate _ _ "s1" alice_row). }
  apply (run_log _ [Begins 1 exchange_call 20; Begins 0 (CallRevokeFamily "s1") 30]
    [Ends 1 (Ok ()); Ends 0 (Ok ())]); [|by vm_compute].
  apply (sh_begins _ [_] _ 0 (CallRevokeFamily "s1") 30); [done|by vm_compute..|]. constructor.
Qed.

Lemma transactions_linearize_witness :
  ∃ A, atomic_history (mkAtomic race_heap ∅) race_history A ∧
    is_Some (pg_sessions (at_heap A) !! "s2").
Proof.
  destruct (transactions_linearize race_heap race_history _ race_heap_at_rest race_heap_tokens
    race_server_history) as (A & HA & Heq & _).
  exists A. split; [exact HA|]. rewrite Heq. eexists. vm_compute. reflexivity.
Defined.

End witnesses.
