(* ===== verification/StoreTheorems.v ===== *)
(** * The stores are what the interfaces promise

    Both implementations refine the contract of StoreSpec.v; the rotation of the
    Postgres store happens as a whole or not at all; the audit trail of a user
    reads newest first. *)
From S2P Require Import Prelude Errors Runtime Store StoreSpec ConsoleLogger.
From S2P Require Import Memory MemoryContract Postgres PostgresContract Sample Fixtures PgFixtures.

(** C14: the four in-memory stores implement the storage contract: each operation
    keeps the maps filed by ID, changes the abstract storage as the contract says
    and answers accordingly, on success and on error. *)
Theorem memory_stores_refine_contract `{Env} :
  UserContract MemUserStore ∧ SessionContract MemSessionStore ∧
  AuditContract MemAuditStore ∧ VerificationContract MemVerificationStore ∧
  StoreLaws (S:=MemHeap).
Proof. split_and!; apply _. Qed.

(** C13: the four Postgres stores implement the same contract over the tables of
    the schema, whatever faults the connection has: unique and foreign keys are
    respected, a user's deletion cascades as the schema says, a statement that
    is answered with an error has had its whole effect or none. *)
Theorem postgres_stores_refine_contract `{Env, PostgresLaws} :
  UserContract PgUserStore ∧ SessionContract PgSessionStore ∧
  AuditContract PgAuditStore ∧ VerificationContract PgVerificationStore ∧
  StoreLaws (S:=PgHeap).
Proof. split_and!; apply _. Qed.

(** ** The rotation transaction *)

Section transaction.
Context `{Env, Postgres}.

(** The tables after the two statements of a rotation at the instant [now]. *)
Definition rotation (old : string) (newSession : Session) (now : time) (h h' : PgHeap) : Prop :=
  ∃ n h1, revoke_session old now h = (Ok n, h1) ∧ n ≠ 0 ∧
    insert_session newSession now h1 = (Ok (), h').

(** The Postgres [RotateToken] is all or nothing: either the old session is
    revoked and the new one inserted, and the caller is told so unless the answer
    to the commit was lost, or the tables are as before and the caller gets an
    error, whichever of the four round trips failed. *)
Theorem postgres_rotation_atomic old newSession h a r h' a' :
  PgSessionStore_RotateToken old newSession (h, a) = (r, (h', a')) →
  (h' = h ∧ is_ok r = false) ∨
  (rotation old newSession (env_db_now (amb_step a)) h h' ∧
   (r = Ok () ∨ ∃ msg, env_db_fault (3 + amb_step a) = FaultAfter msg ∧
                       r = Err (ErrExternal msg))).
Proof.
  unfold PgSessionStore_RotateToken, tx_event, event. simpl.
  destruct (tx_failed (env_db_fault (amb_step a))); [intros [= <- <- _]; by left|].
  destruct (tx_failed (env_db_fault (S (amb_step a)))); [intros [= <- <- _]; by left|].
  destruct (revoke_session _ _ h) as [x h1] eqn:E1.
  destruct x as [n|e]; simpl; [|intros [= <- <- _]; by left].
  case_bool_decide as Hn; [intros [= <- <- _]; by left|].
  destruct (tx_failed (env_db_fault (S (S (amb_step a))))); [intros [= <- <- _]; by left|].
  destruct (insert_session _ _ h1) as [[[]|e] h2] eqn:E2; [|intros [= <- <- _]; by left].
  assert (rotation old newSession (env_db_now (amb_step a)) h h2) by by exists n, h1.
  destruct (env_db_fault _) eqn:Hf; intros [= <- <- _]; eauto 6.
Qed.

End transaction.

(** ** The audit trail of a user *)

(** The in-memory audit trail lists exactly the newest [limit] events of the
    user, newest first, and none for a limit that is not positive. *)
Theorem memory_audit_newest_first `{Env} userID limit h a :
  MemAuditStore_ListByUser userID limit (h, a) =
    (Ok (take (Z.to_nat limit)
           (filter (λ e, AuditEvent_UserID e = userID) (reverse (mem_events h)))), (h, a)).
Proof.
  unfold MemAuditStore_ListByUser, heap. st_unfold. rewrite list_loop_spec. simpl.
  by rewrite Z.sub_0_r.
Qed.

(** ** The lists of the Postgres stores *)

(** No entry is newer than one before it. *)
Definition newest_sorted {A} (created : A → time) (l : list A) : Prop :=
  StronglySorted (λ x y, created y ≤ created x) l.

#[local] Instance newest_transitive {A} (created : A → time) :
  Transitive (λ x y, created y ≤ created x).
Proof. intros ???. lia. Qed.

#[local] Instance newest_total {A} (created : A → time) : Total (λ x y, created y ≤ created x).
Proof. intros ??. lia. Qed.

Lemma newest_sorted_fmap {A B} (f : A → B) (created : B → time) l :
  newest_sorted (created ∘ f) l → newest_sorted created (f <$> l).
Proof. induction 1 as [|x l _ IH Hx]; simpl; constructor; [done|]. by apply Forall_fmap. Qed.

Lemma scanned_session row x : scan_session row = Ok x → x = view_session row.
Proof.
  unfold scan_session. destruct (scan_string (s_ip row)) eqn:Hi; simpl; [|done].
  destruct (scan_string (s_user_agent row)) eqn:Ha; simpl; [|done]. intros [= <-].
  by apply scan_string_ok in Hi as ->, Ha as ->.
Qed.

(** A statement that was answered without an error was run. *)
Lemma db_run_answered `{Env} {A} (stmt : Stmt A) h a x h' a' :
  db_run stmt (h, a) = (Ok x, (h', a')) → ∃ now n, stmt now n h = (Ok x, h').
Proof.
  unfold db_run, event. destruct (env_db_fault _); [|done|].
  - destruct (stmt _ _ h) eqn:E. intros [= -> -> _]. eauto.
  - by destruct (stmt _ _ h).
Qed.

(** The Postgres stores list newest first. ListByUser of the sessions answers with
    exactly the live sessions of the user, that of the audit trail with the newest of
    the user's events, as many as the limit allows; neither changes anything. *)
Theorem postgres_lists_newest_first `{Env, Postgres} :
  (∀ userID h a out h' a', PgSessionStore_ListByUser userID (h, a) = (Ok out, (h', a')) →
     h' = h ∧ newest_sorted Session_CreatedAt out ∧ ∃ user, pg_uuid_in userID = Some user ∧
     out ≡ₚ view_session <$> filter (λ s, s_user_id s = user ∧ s_revoked_at s = None)
       (map_to_list (pg_sessions h)).*2) ∧
  (∀ userID limit h a out h' a', PgAuditStore_ListByUser userID limit (h, a) = (Ok out, (h', a')) →
     h' = h ∧ ∃ user rest, pg_uuid_in userID = Some user ∧
     newest_sorted AuditEvent_CreatedAt (out ++ rest) ∧
     out ++ rest ≡ₚ view_event <$> filter (λ ev, a_user_id ev = Some user) (pg_audit_events h) ∧
     Z.of_nat (length out) = Z.min limit (Z.of_nat (length (out ++ rest)))).
Proof.
  split.
  - intros userID h a out h' a' (now & n & Hs)%db_run_answered. unfold uuid_param in Hs.
    destruct (pg_uuid_in userID) as [user|]; [|done]. injection Hs as Hs <-.
    apply (scan_all_ok _ view_session) in Hs as ->; [|apply scanned_session].
    split_and!; [done|..].
    + apply newest_sorted_fmap, (StronglySorted_merge_sort newest_first).
    + exists user. split; [done|]. rewrite merge_sort_Permutation. by rewrite range_order_perm.
  - intros userID limit h a out h' a' (now & n & Hs)%db_run_answered. unfold uuid_param in Hs.
    destruct (pg_uuid_in userID) as [user|]; [|done]. case_bool_decide as Hl; [done|].
    injection Hs as Hs <-. apply (scan_all_ok _ view_event) in Hs as ->; [|apply scanned_event].
    set (l := merge_sort newest_event_first _). split; [done|].
    exists user, (view_event <$> drop (Z.to_nat limit) l).
    rewrite <- fmap_app, take_drop. split_and!; [done|..].
    + apply newest_sorted_fmap, (StronglySorted_merge_sort newest_event_first).
    + unfold l. by rewrite merge_sort_Permutation.
    + rewrite !length_fmap, length_take. lia.
Qed.

(** ** Instances *)

Section witnesses.
#[local] Existing Instances sample_env sample_pg sample_pg_laws.

Lemma postgres_stores_refine_contract_witness : SessionContract PgSessionStore.
Proof. exact (proj1 (proj2 postgres_stores_refine_contract)). Defined.

Lemma postgres_lists_newest_first_witness :
  ∃ out, (PgSessionStore_ListByUser alice_id (World.w_store pg_login, World.w_amb pg_login)).1 = Ok out ∧
    newest_sorted Session_CreatedAt out ∧ length out = 1%nat.
Proof.
  eexists. split; [vm_compute; reflexivity|]. split; [|reflexivity].
  refine (proj1 (proj2 (proj1 postgres_lists_newest_first alice_id (World.w_store pg_login)
    (World.w_amb pg_login) _ (World.w_store pg_login)
    (PgSessionStore_ListByUser alice_id (World.w_store pg_login, World.w_amb pg_login)).2.2 _))).
  vm_compute. reflexivity.
Defined.

Definition rotated_pg := PgSessionStore_RotateToken "id10"
  (new_Session "id77" "id10" alice_id "new hash" home "curl")
  (World.w_store pg_login, World.w_amb pg_login).

Lemma postgres_rotation_atomic_witness :
  ∃ now h', rotation "id10" (new_Session "id77" "id10" alice_id "new hash" home "curl") now
    (World.w_store pg_login) h'.
Proof.
  destruct (postgres_rotation_atomic "id10"
    (new_Session "id77" "id10" alice_id "new hash" home "curl")
    (World.w_store pg_login) (World.w_amb pg_login) rotated_pg.1 rotated_pg.2.1 rotated_pg.2.2)
    as [[_ Hr]|[Hr _]]; [vm_compute; reflexivity| |eauto].
  exfalso. vm_compute in Hr. discriminate Hr.
Defined.

End witnesses.
