(* ===== verification/Smoke.v ===== *)
(** * The smoke test (cmd/smoketest/main.go)

    The program of cmd/smoketest as a program of facade calls over a fresh engine
    with in-memory stores: it stops at the first check that fails. *)
From S2P Require Import Prelude Errors Runtime Store Logger RateLimiter World Memory Security.
From S2P Require Import Token Auth Session Engine Sample.

Inductive outcome : Type :=
| Passed
| Failed (label : string).

Section smoke.
Context `{Env, Bcrypt, JWT}.

Notation Smoke := (Prog (World MemHeap) outcome).

(** [check(label, err)]: exits with the label unless the call succeeded. *)
Definition check {A} (label : string) (p : Prog (World MemHeap) (result A)) (k : A → Smoke) : Smoke :=
  r ← p;
  match r with
  | Err _ => mret (Failed label)
  | Ok a => k a
  end.

(** A call that has to fail. *)
Definition refused {A} (label : string) (p : Prog (World MemHeap) (result A)) (k : Smoke) : Smoke :=
  r ← p;
  match r with
  | Err _ => k
  | Ok _ => mret (Failed label)
  end.

Definition require (label : string) (b : bool) (k : Smoke) : Smoke :=
  if b then k else mret (Failed label).

Definition smoke_config : Config MemHeap :=
  mkConfig "test-secret-do-not-use-in-prod" (Some MemUserStore) (Some MemSessionStore)
    (Some MemAuditStore) None None 0 0 0 0 0 0 0 None.

Definition smoke_main : Smoke :=
  match New smoke_config with
  | Err _ => mret (Failed "engine construction")
  | Ok engine =>
    check "signup" (cryden_SignUp engine "alice@example.com" "SecurePass123!" "1.2.3.4") (λ user,
    refused "duplicate signup"
      (cryden_SignUp engine "alice@example.com" "SecurePass123!" "1.2.3.4") (
    check "login"
      (cryden_Login engine "alice@example.com" "SecurePass123!" "1.2.3.4" "test-agent") (λ tokens,
    refused "wrong password"
      (cryden_Login engine "alice@example.com" "WrongPassword" "1.2.3.4" "test-agent") (
    check "verify token" (cryden_VerifyToken engine (Tokens_AccessToken tokens)) (λ userID,
    require "verify token" (bool_decide (userID = User_ID user)) (
    check "refresh rotation"
      (cryden_RefreshToken engine (Tokens_RefreshToken tokens)) (λ newTokens,
    require "refresh rotation"
      (bool_decide (Tokens_RefreshToken newTokens ≠ Tokens_RefreshToken tokens)) (
    refused "reuse detection" (cryden_RefreshToken engine (Tokens_RefreshToken tokens)) (
    refused "family revocation" (cryden_RefreshToken engine (Tokens_RefreshToken newTokens)) (
    check "list sessions" (cryden_ListSessions engine (User_ID user)) (λ _,
    check "second login"
      (cryden_Login engine "alice@example.com" "SecurePass123!" "1.2.3.4" "test-agent") (λ _,
    check "list sessions before logout" (cryden_ListSessions engine (User_ID user)) (λ before,
    match before with
    | [sess] =>
      check "logout" (cryden_Logout engine (Session_ID sess) (User_ID user)) (λ _,
      check "list sessions after logout" (cryden_ListSessions engine (User_ID user)) (λ after,
      require "expected 0 active sessions after logout" (bool_decide (after = []))
        (mret Passed)))
    | _ => mret (Failed "expected 1 active session")
    end)))))))))))))
  end.

End smoke.

(** The smoke test passes in the sample environment: every check of
    cmd/smoketest succeeds when the whole model is executed, from the hashing of
    the tokens to the encoding of the log lines. *)
Theorem smoke_test_passes :
  (run (smoke_main (H:=sample_env) (H0:=sample_bcrypt) (H1:=sample_jwt)) mem_world0).1 = Passed.
Proof. vm_compute. reflexivity. Qed.
